(* ===== verification/_CoqProject ===== *)
-Q . S2P
Prelude.v
InternalList.v
Core.v
Payload.v
Codecs.v
Encodings.v
AdminApi.v
AddressPool.v
Transports.v
Endpoint.v
Registrar.v
RegistrarWindows.v
StdinRegistrar.v
Publisher.v
PublisherOrder.v
PublisherReload.v
PublisherProps.v
ConfigParser.v
AdminServer.v
Config.v
ConfigFiles.v
LineReader.v
Harvester.v
HarvesterProps.v
HarvesterMultiline.v
Spooler.v
Prospector.v
ProspectorInv.v
ProspectorProps.v
Tcp.v
TcpProps.v
TcpConnect.v
TcpControl.v
Delivery.v
Restart.v
LogCourier.v
Status.v
StatusProps.v
Main.v
LcAdmin.v
V1Admin.v
AdminMain.v
TlsCert.v
FileIdentities.v
AdminSockets.v
PlatformGen.v
Ancillary.v
