(* ===== verification/Prelude.v ===== *)
(** * Log Courier: a verification development

    Log Courier (src/) ships lines of log files to servers and resumes where it
    stopped.  This library models its three programs as they are written and
    proves what makes them correct.

    ** The programs and their parts

    [log-courier] is a pipeline of concurrent segments.  The prospector
    (lc-lib/prospector) finds files and starts a harvester for each
    (lc-lib/harvester), which reads lines through a tailing line reader, passes
    them through codecs (lc-lib/codecs) and sends events to the spooler
    (lc-lib/spooler).  The spooler groups events into spools for the publisher
    (lc-lib/publisher), which turns them into payloads (lc-lib/payload) and hands
    these to the endpoints of its sink (lc-lib/endpoint), each with a transport
    (lc-lib/transports, lc-lib/transports/tcp) and a pool of addresses
    (lc-lib/addresspool).  Acknowledgements come back to the publisher and go, in
    the order the events were read, to the registrar (lc-lib/registrar), which
    keeps the offset of every file in a registry on disk; after a restart the
    prospector resumes from it.  The admin server (lc-lib/admin) serves a tree of
    status entries.  [lc-admin] is its client, [lc-tlscert] makes certificates.

    ** The files

    - [Prelude]: the outcomes of a call ([Ret], [Panic], [NoFuel]), the state monad
      [M], machine integers, partial and total correctness ([hoare], [keeps],
      [total]), tactics and hints.
    - [InternalList]: internallist/list.go on an explicit memory of elements.
    - [Core]: core/event.go, core/util.go; floats are IEEE doubles.
    - [Payload]: payload/payload.go.
    - [Codecs]: codecs/*.go; a codec is an instance of a class, an operation returns
      the calls of its callback.
    - [Encodings]: UTF-8 as Go and encoding/json see it, and the parts of a URL.
    - [AdminApi], [AdminServer]: admin/api*.go; server.go, client.go, apiroot.go,
      config.go, transport.go.  Entries are instances of [APINavigatable] and
      [AdminEntry].  [AdminSockets]: transport_tcp.go, transport_unix.go.  [Status],
      [StatusProps]: prospector/api.go, publisher/api.go, endpoint/api.go and the
      status of harvesters and codecs.
    - [AddressPool]: addresspool/addresspool.go.
    - [Transports], [Endpoint], [Publisher]: transports/*.go, endpoint/*.go,
      publisher/*.go on one store of numbered objects, since lists, timeouts and
      payloads alias them.  The endpoint is proved against the class [Transport],
      the publisher against [EventSpooler].  [PublisherOrder] has the
      invariant, [PublisherReload] keeps it through reloads and whole runs,
      [PublisherProps] has the properties.
    - [Registrar], [RegistrarWindows], [StdinRegistrar]: registrar/*.go and
      stdin_registrar.go; a disk with the registry and its temporary file.
    - [ConfigParser], [Config], [ConfigFiles]: config/json.go, parser.go, config.go,
      codec.go, transport.go, yaml.go; decoded values are a tree, a structure is the
      list of its fields.
    - [LineReader], [Harvester]: harvester/*.go over an environment of numbered
      answers; [HarvesterProps] for any codecs and for the plain one,
      [HarvesterMultiline] for the multiline codec.
    - [Spooler]: spooler/spooler.go, a function of its inputs and of a script of the
      choices in its nested select.
    - [Prospector], [ProspectorInv], [ProspectorProps]: prospector/*.go on a heap of
      entries, which are also the streams of the registrar.  [FileIdentities]:
      registrar/filestateos_*.go and harvester_windows.go for the other systems.
    - [Tcp], [TcpProps], [TcpConnect], [TcpControl]: transports/tcp/*.go: the messages
      and the receiver, connecting, and the routines as a step relation.
    - [LogCourier], [Main]: core/pipeline.go and log-courier.go: the segments, signals
      and reloads as a step relation; the command line, logging.go.
    - [Delivery], [Restart]: the components composed.
    - [LcAdmin], [V1Admin], [AdminMain]: lc-admin/*.go, admin/v1client.go and
      core/v1snapshot.go.  [TlsCert]: lc-tlscert/lc-tlscert.go.
    - [PlatformGen]: config/generate/platform.go, which writes the defaults of a
      platform at build time.  [Ancillary]: prospector/snapshot.go,
      log-courier_windows.go and the goroutine profile.

    A definition has the name of the function it translates where that name is
    free; what it returns besides the result is the state the function changes.
    Go's errors are values, panics are [Panic].  A [select], the order of a map and
    the answers of the operating system are inputs, scripts, numbered answers or
    steps, so that a theorem holds for all of them.

    ** What the theorems show

    - The promise: everything before the offset stored for a file was acknowledged
      and the rest is read again ([Delivery]); after a crash in the middle of a
      write of the registry every file of the last table written in full is resumed
      at its offset ([Restart]); acknowledgements reach the registrar in the order of the events
      whatever the endpoints do and through reloads of the configuration in which
      no endpoint is given another place in the list ([PublisherProps]).
    - Conservation and order: no event lost, duplicated or reordered by payloads,
      spools, the multiline codec and the line reader; offsets in file order
      ([HarvesterProps], [Registrar]); harvested again from the end of any event,
      a file gives the remaining events, with the multiline codec as well
      ([HarvesterMultiline]).
    - Refinement and equivalence with references: the list implements sequences,
      the receiver a parser, the multiline codec the documented grouping, documented
      comments are removed and nothing else (but for the shapes named there), a
      request to the admin server is the rendering of the entry that the path of its
      URL leads to, the JSON of a snapshot is the nested object.
    - Round trips: the registry, the messages of the transport.
    - Types and bounds: what loading a configuration has checked, the types of the
      maps in fields, writes report what they wrote, durations of certificates.
    - Termination and liveness: every run of the prospector returns, the transport
      finishes after a shutdown in at most seven steps of its own once its calls of
      the network have returned, the program can always finish.
    - Errors: what panics and what cannot; and theorems that state the flaws found
      (panicking status requests, a registry lost on Windows, reloads).

    ** Fuel and bounds

    Loops that are not structural take fuel, and [NoFuel] is not a result: theorems
    about them show that the fuel given is enough, or hold for every fuel.  The
    depth of a snapshot bounds its rendering, two rounds the loop of the 1.x
    client, the length of the text the scan of a PEM file.  Integers are [Z], with
    the wrap-around written out where the code can reach it.

    ** What is not modelled

    Compression, TLS, regular expressions, JSON and YAML decoding, the resolver and
    the HTTP library are parameters with the documented behaviour as hypotheses -
    of JSON, that it carries texts that are UTF-8, other bytes being replaced;
    the calls of package net and of the operating system are parameters too.  Log
    messages, the CPU profile, flag parsing and the introductory texts of
    [lc-tlscert] are left out.  So are data races: the code that runs under a mutex
    is taken to be atomic.

    ** What could be added

    The harvester with the multiline codec against a file that is truncated, or with
    its timer; field maps inside lists; and interleavings below the mutexes of the endpoint and of the harvester.  A reload
    that gives an endpoint another place in the list breaks the list, so that no
    order is claimed after it. *)
From Stdlib Require Export ZArith Lia.
From Stdlib Require Export Strings.Byte.
From stdpp Require Export base gmap strings functions.
From stdpp Require Export list.

(** ** Outcomes and the state monad

    A Go call either returns normally, panics (nil dereference, index out of
    range, an explicit [panic]), or - for a loop translated with fuel - has not
    finished within the fuel given.  Go's own [error] results are ordinary
    values of the model and never use [Panic]. *)
Inductive outcome (A : Type) : Type :=
| Ret (a : A)
| Panic
| NoFuel.
Arguments Ret {A} a.
Arguments Panic {A}.
Arguments NoFuel {A}.

Definition outcome_bind {A B : Type} (f : A → outcome B) (o : outcome A) : outcome B :=
  match o with
  | Ret a => f a
  | Panic => Panic
  | NoFuel => NoFuel
  end.

#[global] Instance outcome_mret : MRet outcome := fun A a => Ret a.
#[global] Instance outcome_mbind : MBind outcome := @outcome_bind.

(** A stateful Go function: the heap it may touch goes in and comes out. *)
Definition M (S A : Type) : Type := S → outcome (A * S).

Definition M_ret {S A : Type} (a : A) : M S A := fun s => Ret (a, s).
Definition M_bind {S A B : Type} (f : A → M S B) (m : M S A) : M S B := fun s =>
  match m s with
  | Ret (a, s') => f a s'
  | Panic => Panic
  | NoFuel => NoFuel
  end.

#[global] Instance M_mret S : MRet (M S) := @M_ret S.
#[global] Instance M_mbind S : MBind (M S) := @M_bind S.

Definition get {S : Type} : M S S := fun s => Ret (s, s).
Definition gets {S A : Type} (f : S → A) : M S A := fun s => Ret (f s, s).
Definition modify {S : Type} (f : S → S) : M S unit := fun s => Ret (tt, f s).
Definition panic {S A : Type} : M S A := fun _ => Panic.
Definition out_of_fuel {S A : Type} : M S A := fun _ => NoFuel.

(** Following a pointer: a nil pointer panics. *)
Definition deref {S A : Type} (p : option A) : M S A :=
  match p with Some a => M_ret a | None => panic end.

Definition when {S : Type} (b : bool) (m : M S unit) : M S unit :=
  if b then m else M_ret tt.

(** Running a computation on a part of a larger state. *)
Definition zoom {S T A : Type} (g : S → T) (p : T → S → S) (m : M T A) : M S A := fun s =>
  match m (g s) with
  | Ret (a, t) => Ret (a, p t s)
  | Panic => Panic
  | NoFuel => NoFuel
  end.

Fixpoint forM_ {S A : Type} (xs : list A) (f : A → M S unit) : M S unit :=
  match xs with
  | [] => M_ret tt
  | x :: xs' => M_bind (fun _ => forM_ xs' f) (f x)
  end.

(** ** Machine integers *)
Definition uint8 (z : Z) : Z := (z mod 2 ^ 8)%Z.
Definition uint32 (z : Z) : Z := (z mod 2 ^ 32)%Z.
Definition int64 (z : Z) : Z := ((z + 2 ^ 63) mod 2 ^ 64 - 2 ^ 63)%Z.

(** [len(x)] of a Go slice or string. *)
Definition zlen {A : Type} (l : list A) : Z := Z.of_nat (length l).

#[global] Instance byte_eq_dec : EqDecision byte := Byte.byte_eq_dec.
#[global] Instance byte_countable : Countable byte :=
  inj_countable Byte.to_N Byte.of_N Byte.of_to_N.

(** Slicing [x[i:j]]: Go panics unless [0 <= i <= j <= len x] (a slice may be
    extended to its capacity; no code modelled here does that). *)
Definition slice {A : Type} (l : list A) (i j : Z) : option (list A) :=
  if bool_decide (0 ≤ i ∧ i ≤ j ∧ j ≤ zlen l)%Z
  then Some (take (Z.to_nat (j - i)) (drop (Z.to_nat i) l))
  else None.

(** ** Tactics *)

(** Split the conditionals and matches of a goal, then simplify. *)
Ltac case_goal :=
  repeat (case_match || case_decide || case_bool_decide); simplify_eq/=.

(** Expose the state passing of a monadic goal or hypothesis. *)
Ltac monad :=
  cbv [mbind M_mbind M_bind outcome_mbind outcome_bind mret M_mret M_ret
       outcome_mret gets modify deref panic out_of_fuel zoom get when]; cbn beta iota delta [fst snd].
Ltac monad_in H :=
  cbv [mbind M_mbind M_bind outcome_mbind outcome_bind mret M_mret M_ret
       outcome_mret gets modify deref panic out_of_fuel zoom get when] in H; cbn beta iota delta [fst snd] in H.

(** One step of a computation whose result is known. *)
Lemma bind_run {S A B} (m : M S A) (k : A → M S B) s a s' : m s = Ret (a, s') → (x ← m; k x) s = k a s'.
Proof. intros Hm. monad. by rewrite Hm. Qed.

(** Running a bind of a bind. *)
Lemma bind_assoc {S A B C} (m : M S A) (k : A → M S B) (l : B → M S C) s :
  (x ← (y ← m; k y); l x) s = (y ← m; x ← k y; l x) s.
Proof. monad. by destruct (m s) as [[a s']| |]. Qed.

(** Close arithmetic side conditions about [zlen]. *)
Ltac zlen_lia := unfold zlen in *; simpl in *; lia.

(** ** Hint databases *)
Create HintDb courier discriminated.
Create Rewrite HintDb courier_rw.

(** ** Lemmas shared by the components *)
Lemma zlen_nonneg {A} (l : list A) : (0 ≤ zlen l)%Z.
Proof. zlen_lia. Qed.

Lemma zlen_app {A} (l k : list A) : zlen (l ++ k) = (zlen l + zlen k)%Z.
Proof. unfold zlen. rewrite length_app. lia. Qed.

Lemma zlen_cons {A} (x : A) l : zlen (x :: l) = (1 + zlen l)%Z.
Proof. unfold zlen. simpl. lia. Qed.

Lemma zlen_nil {A} : zlen (@nil A) = 0%Z.
Proof. reflexivity. Qed.

Lemma zlen_take {A} n (l : list A) :
  (0 ≤ n ≤ zlen l)%Z → zlen (take (Z.to_nat n) l) = n.
Proof. unfold zlen. intros. rewrite length_take. lia. Qed.

Lemma zlen_drop {A} n (l : list A) :
  (0 ≤ n ≤ zlen l)%Z → zlen (drop (Z.to_nat n) l) = (zlen l - n)%Z.
Proof. unfold zlen. intros. rewrite length_drop. lia. Qed.

#[export] Hint Rewrite @zlen_app @zlen_cons @zlen_nil : courier_rw.
#[export] Hint Resolve zlen_nonneg : courier.

Lemma slice_full {A} (l : list A) i :
  (0 ≤ i ≤ zlen l)%Z → slice l i (zlen l) = Some (drop (Z.to_nat i) l).
Proof.
  intros Hi. unfold slice. rewrite bool_decide_eq_true_2 by lia. f_equal.
  apply take_ge. rewrite length_drop. zlen_lia.
Qed.

Lemma slice_prefix {A} (l : list A) j :
  (0 ≤ j ≤ zlen l)%Z → slice l 0 j = Some (take (Z.to_nat j) l).
Proof.
  intros Hj. unfold slice. rewrite bool_decide_eq_true_2 by lia.
  by rewrite Z.sub_0_r, drop_0.
Qed.

Lemma int64_small z : (- 2 ^ 63 ≤ z < 2 ^ 63)%Z → int64 z = z.
Proof. intros. unfold int64. rewrite Z.mod_small; lia. Qed.

Lemma uint32_small z : (0 ≤ z < 2 ^ 32)%Z → uint32 z = z.
Proof. intros. unfold uint32. by rewrite Z.mod_small. Qed.

(** ** Partial correctness of stateful code

    [hoare P m Q]: whenever [m] returns from a state satisfying [P], the result
    and the new state satisfy [Q].  It says nothing about panics. *)
Definition hoare {S A : Type} (P : S → Prop) (m : M S A) (Q : A → S → Prop) : Prop :=
  ∀ s a s', P s → m s = Ret (a, s') → Q a s'.

(** [keeps I m]: [I] is an invariant of [m]. *)
Definition keeps {S A : Type} (I : S → Prop) (m : M S A) : Prop := hoare I m (fun _ => I).

Section Hoare.
Context {S : Type}.
Implicit Types P R : S → Prop.

Lemma hoare_bind {A B} P (Q : A → S → Prop) (R : B → S → Prop) (m : M S A) (f : A → M S B) :
  hoare P m Q → (∀ a, hoare (Q a) (f a) R) → hoare P (m ≫= f) R.
Proof.
  intros Hm Hf s b s' HP. monad. destruct (m s) as [[a s1]| |] eqn:E; [|done..].
  intros Hr. eapply (Hf a); [by eapply Hm|done].
Qed.

Lemma hoare_conseq {A} P P' (Q Q' : A → S → Prop) (m : M S A) :
  hoare P' m Q' → (∀ s, P s → P' s) → (∀ a s, Q' a s → Q a s) → hoare P m Q.
Proof. intros Hm HP HQ s a s' Hs Hr. by eapply HQ, Hm, Hr; apply HP. Qed.

Lemma hoare_ret {A} P (Q : A → S → Prop) (a : A) : (∀ s, P s → Q a s) → hoare P (mret a) Q.
Proof. intros H s b s' HP [= <- <-]. by apply H. Qed.

Lemma hoare_gets {A} P (Q : A → S → Prop) (f : S → A) : (∀ s, P s → Q (f s) s) → hoare P (gets f) Q.
Proof. intros H s b s' HP [= <- <-]. by apply H. Qed.

Lemma hoare_modify P (Q : unit → S → Prop) (f : S → S) : (∀ s, P s → Q tt (f s)) → hoare P (modify f) Q.
Proof. intros H s b s' HP [= <- <-]. by apply H. Qed.

Lemma hoare_panic {A} P (Q : A → S → Prop) : hoare P panic Q.
Proof. by intros s a s'. Qed.

Lemma hoare_fuel {A} P (Q : A → S → Prop) : hoare P out_of_fuel Q.
Proof. by intros s a s'. Qed.

Lemma hoare_deref {A} P (Q : A → S → Prop) (p : option A) :
  (∀ a s, p = Some a → P s → Q a s) → hoare P (deref p) Q.
Proof. intros H. destruct p as [a|]; [|apply hoare_panic]. apply hoare_ret. intros s. by apply H. Qed.

Lemma keeps_when P b (m : M S unit) : keeps P m → keeps P (when b m).
Proof. intros Hm. destruct b; [done|]. by apply hoare_ret. Qed.

Lemma keeps_bind {A B} P (m : M S A) (f : A → M S B) :
  keeps P m → (∀ a, keeps P (f a)) → keeps P (m ≫= f).
Proof. intros. by eapply hoare_bind. Qed.

Lemma keeps_forM {A} P (xs : list A) (f : A → M S unit) : (∀ x, x ∈ xs → keeps P (f x)) → keeps P (forM_ xs f).
Proof.
  induction xs as [|x xs IH]; intros Hf; simpl; [by apply hoare_ret|].
  apply keeps_bind; [apply Hf; set_solver|]. intros _. apply IH. set_solver.
Qed.
End Hoare.

(** ** Total correctness

    [total P m Q]: from every state satisfying [P], [m] returns - it neither
    panics nor runs out of fuel - and the result and the new state satisfy [Q]. *)
Definition total {S A : Type} (P : S → Prop) (m : M S A) (Q : A → S → Prop) : Prop :=
  ∀ s, P s → ∃ a s', m s = Ret (a, s') ∧ Q a s'.

Section Total.
Context {S : Type}.
Implicit Types P R : S → Prop.

Lemma total_bind {A B} P (Q : A → S → Prop) (R : B → S → Prop) (m : M S A) (f : A → M S B) :
  total P m Q → (∀ a, total (Q a) (f a) R) → total P (m ≫= f) R.
Proof.
  intros Hm Hf s HP. destruct (Hm s HP) as (a & s1 & Hr & HQ). destruct (Hf a s1 HQ) as (b & s2 & Hr2 & HR).
  exists b, s2. split; [|done]. by rewrite (bind_run _ _ _ _ _ Hr).
Qed.

Lemma total_conseq {A} P P' (Q Q' : A → S → Prop) (m : M S A) :
  total P' m Q' → (∀ s, P s → P' s) → (∀ a s, Q' a s → Q a s) → total P m Q.
Proof. intros Hm HP HQ s Hs. destruct (Hm s (HP s Hs)) as (a & s' & ? & ?). eauto. Qed.

Lemma total_ret {A} P (Q : A → S → Prop) (a : A) : (∀ s, P s → Q a s) → total P (mret a) Q.
Proof. intros H s HP. exists a, s. split; [done|by apply H]. Qed.

Lemma total_get P (Q : S → S → Prop) : (∀ s, P s → Q s s) → total P get Q.
Proof. intros H s HP. exists s, s. split; [done|by apply H]. Qed.

Lemma total_gets {A} P (Q : A → S → Prop) (f : S → A) : (∀ s, P s → Q (f s) s) → total P (gets f) Q.
Proof. intros H s HP. exists (f s), s. split; [done|by apply H]. Qed.

Lemma total_modify P (Q : unit → S → Prop) (f : S → S) : (∀ s, P s → Q tt (f s)) → total P (modify f) Q.
Proof. intros H s HP. exists tt, (f s). split; [done|by apply H]. Qed.

Lemma total_when P b (m : M S unit) : total P m (fun _ => P) → total P (when b m) (fun _ => P).
Proof. intros Hm. destruct b; [done|by apply total_ret]. Qed.
End Total.
