(* ===== verification/InternalList.v ===== *)
(** * lc-lib/internallist: the intrusive doubly linked list

    [Element]s are embedded in other structures and linked in a ring through
    the [root] element of their [List].  The file models the memory those
    pointers live in, translates every method of [list.go] on it, and proves
    that the pointer code implements lists of element names. *)
From S2P Require Import Prelude.

(** ** Memory *)

(** A list is named by the address of its [List] structure, an element by the
    address of the structure that embeds it.  [Root l] is [&l.root]. *)
Inductive addr :=
| Root (l : positive)
| Node (n : positive).

#[global] Instance addr_eq_dec : EqDecision addr.
Proof. solve_decision. Defined.

#[global] Instance addr_countable : Countable addr.
Proof.
  refine (inj_countable'
    (fun a => match a with Root l => inl l | Node n => inr n end)
    (fun s => match s with inl l => Root l | inr n => Node n end) _).
  by intros [].
Defined.

(** [Value] is not a field here: it is set once, to the structure embedding the
    element, and that structure is what the name [n] of [Node n] stands for. *)
Record Element := mkElement {
  next : option addr;
  prev : option addr;
  list_of : option positive;
}.

Definition zeroElement : Element := mkElement None None None.

(** Go zero-initialises memory, so an address never written holds the zero
    [Element], and a [List] never used has length 0. *)
Record Mem := mkMem {
  elems : gmap addr Element;
  lens : gmap positive Z;
}.

Definition emptyMem : Mem := mkMem ∅ ∅.

Definition elem (m : Mem) (a : addr) : Element := default zeroElement (elems m !! a).
Definition len (m : Mem) (l : positive) : Z := default 0%Z (lens m !! l).

Definition set_elem (a : addr) (e : Element) (m : Mem) : Mem :=
  mkMem (<[a := e]> (elems m)) (lens m).
Definition set_len (l : positive) (z : Z) (m : Mem) : Mem :=
  mkMem (elems m) (<[l := z]> (lens m)).

(** Reading and writing one field through a pointer; a nil pointer panics. *)
Definition load_next (p : option addr) : M Mem (option addr) :=
  a ← deref p; gets (fun m => next (elem m a)).
Definition load_prev (p : option addr) : M Mem (option addr) :=
  a ← deref p; gets (fun m => prev (elem m a)).
Definition store_next (p : option addr) (v : option addr) : M Mem unit :=
  a ← deref p;
  modify (fun m => let e := elem m a in set_elem a (mkElement v (prev e) (list_of e)) m).
Definition store_prev (p : option addr) (v : option addr) : M Mem unit :=
  a ← deref p;
  modify (fun m => let e := elem m a in set_elem a (mkElement (next e) v (list_of e)) m).
Definition store_list (p : option addr) (v : option positive) : M Mem unit :=
  a ← deref p;
  modify (fun m => let e := elem m a in set_elem a (mkElement (next e) (prev e) v) m).
Definition add_len (l : positive) (d : Z) : M Mem unit :=
  modify (fun m => set_len l (len m l + d)%Z m).

(** ** Methods of [Element] *)
Definition Next (a : addr) : M Mem (option addr) :=
  gets (fun m =>
    let e := elem m a in
    match list_of e with
    | Some l => if decide (next e = Some (Root l)) then None else next e
    | None => None
    end).

Definition Prev (a : addr) : M Mem (option addr) :=
  gets (fun m =>
    let e := elem m a in
    match list_of e with
    | Some l => if decide (prev e = Some (Root l)) then None else prev e
    | None => None
    end).

(** ** Methods of [List] *)
Definition Init (l : positive) : M Mem unit :=
  store_next (Some (Root l)) (Some (Root l));;
  store_prev (Some (Root l)) (Some (Root l));;
  modify (set_len l 0%Z).

Definition Len (l : positive) : M Mem Z := gets (fun m => len m l).

Definition Front (l : positive) : M Mem (option addr) :=
  n ← Len l;
  if decide (n = 0%Z) then mret None else gets (fun m => next (elem m (Root l))).

Definition Back (l : positive) : M Mem (option addr) :=
  n ← Len l;
  if decide (n = 0%Z) then mret None else gets (fun m => prev (elem m (Root l))).

Definition lazyInit (l : positive) : M Mem unit :=
  p ← load_next (Some (Root l));
  match p with None => Init l | Some _ => mret tt end.

Definition insert (l : positive) (e at_ : option addr) : M Mem (option addr) :=
  n ← load_next at_;
  store_next at_ e;;
  store_prev e at_;;
  store_next e n;;
  store_prev n e;;
  store_list e (Some l);;
  add_len l 1;;
  mret e.

Definition remove (l : positive) (e : option addr) : M Mem (option addr) :=
  p ← load_prev e; n ← load_next e; store_next p n;;
  n' ← load_next e; p' ← load_prev e; store_prev n' p';;
  store_next e None;;
  store_prev e None;;
  store_list e None;;
  add_len l (-1);;
  mret e.

Definition list_field (p : option addr) : M Mem (option positive) :=
  a ← deref p; gets (fun m => list_of (elem m a)).

Definition Remove (l : positive) (e : addr) : M Mem unit :=
  k ← list_field (Some e);
  if decide (k = Some l) then remove l (Some e);; mret tt else mret tt.

Definition PushFront (l : positive) (e : addr) : M Mem (option addr) :=
  lazyInit l;; insert l (Some e) (Some (Root l)).

Definition PushBack (l : positive) (e : addr) : M Mem (option addr) :=
  lazyInit l;; p ← load_prev (Some (Root l)); insert l (Some e) p.

Definition InsertBefore (l : positive) (e mark : addr) : M Mem (option addr) :=
  k ← list_field (Some mark);
  if decide (k = Some l)
  then p ← load_prev (Some mark); insert l (Some e) p
  else mret None.

Definition InsertAfter (l : positive) (e mark : addr) : M Mem (option addr) :=
  k ← list_field (Some mark);
  if decide (k = Some l) then insert l (Some e) (Some mark) else mret None.

Definition MoveToFront (l : positive) (e : addr) : M Mem unit :=
  k ← list_field (Some e);
  f ← load_next (Some (Root l));
  if decide (k ≠ Some l ∨ f = Some e) then mret tt
  else r ← remove l (Some e); insert l r (Some (Root l));; mret tt.

Definition MoveToBack (l : positive) (e : addr) : M Mem unit :=
  k ← list_field (Some e);
  b ← load_prev (Some (Root l));
  if decide (k ≠ Some l ∨ b = Some e) then mret tt
  else r ← remove l (Some e);
       p ← load_prev (Some (Root l)); insert l r p;; mret tt.

Definition MoveBefore (l : positive) (e mark : addr) : M Mem unit :=
  k ← list_field (Some e);
  km ← list_field (Some mark);
  if decide (k ≠ Some l ∨ e = mark ∨ km ≠ Some l) then mret tt
  else r ← remove l (Some e);
       p ← load_prev (Some mark); insert l r p;; mret tt.

Definition MoveAfter (l : positive) (e mark : addr) : M Mem unit :=
  k ← list_field (Some e);
  km ← list_field (Some mark);
  if decide (k ≠ Some l ∨ e = mark ∨ km ≠ Some l) then mret tt
  else r ← remove l (Some e); insert l r (Some mark);; mret tt.

(** The iteration idiom of the package comment,
    [for e := l.Front(); e != nil; e = e.Next()]: the elements visited from
    [p] on within [fuel] steps. *)
Fixpoint walk (fuel : nat) (p : option addr) : M Mem (list addr) :=
  match fuel, p with
  | _, None => mret []
  | O, Some _ => out_of_fuel
  | S f, Some a => n ← Next a; r ← walk f n; mret (a :: r)
  end.

Definition traverse (fuel : nat) (l : positive) : M Mem (list addr) :=
  p ← Front l; walk fuel p.

(** ** The abstract lists

    [abs] gives every list the names of its elements in order.  An element is in
    at most one list, as its [list] field allows. *)
Abbreviation abs := (positive → list positive).

Fixpoint insert_after (n mark : positive) (xs : list positive) : list positive :=
  match xs with
  | [] => []
  | x :: xs' => if decide (x = mark) then x :: n :: xs' else x :: insert_after n mark xs'
  end.

Fixpoint insert_before (n mark : positive) (xs : list positive) : list positive :=
  match xs with
  | [] => []
  | x :: xs' => if decide (x = mark) then n :: x :: xs' else x :: insert_before n mark xs'
  end.

Definition without (n : positive) (xs : list positive) : list positive :=
  filter (fun y => y ≠ n) xs.

(** [edge m a b]: [b] follows [a] and both pointers agree. *)
Definition edge (m : Mem) (a b : addr) : Prop :=
  next (elem m a) = Some b ∧ prev (elem m b) = Some a.

(** The elements [xs] lie in order between [a] and [b]. *)
Fixpoint seg (m : Mem) (a : addr) (xs : list positive) (b : addr) : Prop :=
  match xs with
  | [] => edge m a b
  | x :: xs' => edge m a (Node x) ∧ seg m (Node x) xs' b
  end.

Definition ring (m : Mem) (l : positive) (xs : list positive) : Prop :=
  seg m (Root l) xs (Root l).

(** A zero [List] has a nil root and is empty; any other one is a ring. *)
Definition linked (m : Mem) (l : positive) (xs : list positive) : Prop :=
  (next (elem m (Root l)) = None ∧ xs = []) ∨ ring m l xs.

Record rep (m : Mem) (Γ : abs) : Prop := mkRep {
  rep_linked : ∀ l, linked m l (Γ l);
  rep_nodup : ∀ l, NoDup (Γ l);
  rep_len : ∀ l, len m l = zlen (Γ l);
  rep_member : ∀ n l, list_of (elem m (Node n)) = Some l ↔ n ∈ Γ l;
}.

Definition detached (Γ : abs) (n : positive) : Prop := ∀ l, n ∉ Γ l.

(** The operations of the package, on elements [Node n]. *)
Inductive listop :=
| OpRemove (l n : positive)
| OpPushFront (l n : positive)
| OpPushBack (l n : positive)
| OpInsertBefore (l n mark : positive)
| OpInsertAfter (l n mark : positive)
| OpMoveToFront (l n : positive)
| OpMoveToBack (l n : positive)
| OpMoveBefore (l n mark : positive)
| OpMoveAfter (l n mark : positive).

Definition run_op (o : listop) : M Mem unit :=
  match o with
  | OpRemove l n => Remove l (Node n)
  | OpPushFront l n => PushFront l (Node n);; mret tt
  | OpPushBack l n => PushBack l (Node n);; mret tt
  | OpInsertBefore l n k => InsertBefore l (Node n) (Node k);; mret tt
  | OpInsertAfter l n k => InsertAfter l (Node n) (Node k);; mret tt
  | OpMoveToFront l n => MoveToFront l (Node n)
  | OpMoveToBack l n => MoveToBack l (Node n)
  | OpMoveBefore l n k => MoveBefore l (Node n) (Node k)
  | OpMoveAfter l n k => MoveAfter l (Node n) (Node k)
  end.

(** What each operation means on the abstract lists. *)
Definition abs_op (o : listop) (Γ : abs) : abs :=
  match o with
  | OpRemove l n => <[l := without n (Γ l)]> Γ
  | OpPushFront l n => <[l := n :: Γ l]> Γ
  | OpPushBack l n => <[l := Γ l ++ [n]]> Γ
  | OpInsertBefore l n k => <[l := insert_before n k (Γ l)]> Γ
  | OpInsertAfter l n k => <[l := insert_after n k (Γ l)]> Γ
  | OpMoveToFront l n =>
      if decide (n ∈ Γ l) then <[l := n :: without n (Γ l)]> Γ else Γ
  | OpMoveToBack l n =>
      if decide (n ∈ Γ l) then <[l := without n (Γ l) ++ [n]]> Γ else Γ
  | OpMoveBefore l n k =>
      if decide (n ∈ Γ l ∧ n ≠ k ∧ k ∈ Γ l)
      then <[l := insert_before n k (without n (Γ l))]> Γ else Γ
  | OpMoveAfter l n k =>
      if decide (n ∈ Γ l ∧ n ≠ k ∧ k ∈ Γ l)
      then <[l := insert_after n k (without n (Γ l))]> Γ else Γ
  end.

(** The package's contract: an element to be inserted must not be in a list. *)
Definition op_pre (o : listop) (Γ : abs) : Prop :=
  match o with
  | OpPushFront _ n | OpPushBack _ n | OpInsertBefore _ n _ | OpInsertAfter _ n _ =>
      detached Γ n
  | _ => True
  end.

Fixpoint run_ops (os : list listop) : M Mem unit :=
  match os with
  | [] => mret tt
  | o :: os' => run_op o;; run_ops os'
  end.

Fixpoint abs_ops (os : list listop) (Γ : abs) : abs :=
  match os with
  | [] => Γ
  | o :: os' => abs_ops os' (abs_op o Γ)
  end.

Fixpoint ops_pre (os : list listop) (Γ : abs) : Prop :=
  match os with
  | [] => True
  | o :: os' => op_pre o Γ ∧ ops_pre os' (abs_op o Γ)
  end.

(** ** Field lemmas *)
Lemma elem_set_elem m a b e :
  elem (set_elem a e m) b = if decide (a = b) then e else elem m b.
Proof.
  unfold elem, set_elem; simpl. destruct (decide (a = b)) as [->|Hne].
  - by rewrite lookup_insert_eq.
  - by rewrite lookup_insert_ne.
Qed.

Lemma elem_set_len m l z a : elem (set_len l z m) a = elem m a.
Proof. reflexivity. Qed.

Lemma len_set_elem m a e l : len (set_elem a e m) l = len m l.
Proof. reflexivity. Qed.

Lemma len_set_len m l z l' :
  len (set_len l z m) l' = if decide (l = l') then z else len m l'.
Proof.
  unfold len, set_len; simpl. destruct (decide (l = l')) as [->|Hne].
  - by rewrite lookup_insert_eq.
  - by rewrite lookup_insert_ne.
Qed.

#[export] Hint Rewrite elem_set_elem elem_set_len len_set_elem len_set_len : courier_rw.

Ltac mem_simpl := autorewrite with courier_rw; simpl.

(** ** Segments *)
Lemma elem_of_nodes (xs : list positive) n : Node n ∈ Node <$> xs ↔ n ∈ xs.
Proof. rewrite list_elem_of_fmap. naive_solver. Qed.

Lemma root_not_node (xs : list positive) l : Root l ∉ Node <$> xs.
Proof. rewrite list_elem_of_fmap. naive_solver. Qed.

#[export] Hint Resolve root_not_node : courier.

Lemma seg_app m a xs y ys b :
  seg m a (xs ++ y :: ys) b ↔ seg m a xs (Node y) ∧ seg m (Node y) ys b.
Proof. revert a. induction xs as [|x xs IH]; intros a; simpl; [done|]. rewrite IH. tauto. Qed.

Lemma seg_frame m m' a xs b :
  seg m a xs b →
  (∀ c, c = a ∨ c ∈ Node <$> xs → next (elem m' c) = next (elem m c)) →
  (∀ c, c ∈ Node <$> xs ∨ c = b → prev (elem m' c) = prev (elem m c)) →
  seg m' a xs b.
Proof.
  revert a. induction xs as [|x xs IH]; intros a Hs Hn Hp; csimpl in *.
  - unfold edge in *. rewrite Hn, Hp by auto. done.
  - destruct Hs as [[H1 H2] Hs]. setoid_rewrite elem_of_cons in Hn.
    setoid_rewrite elem_of_cons in Hp. split.
    + unfold edge. rewrite Hn, Hp by auto. done.
    + apply IH; [done|..]; naive_solver.
Qed.

(** The element before the insertion point, given the part before it. *)
Definition pred_of (l : positive) (xs : list positive) : addr :=
  match last xs with Some x => Node x | None => Root l end.
Definition succ_of (l : positive) (xs : list positive) : addr :=
  match xs with x :: _ => Node x | [] => Root l end.

(** What [insert] and [remove] do to the fields. *)
Record inserted (m m' : Mem) (l n : positive) (a b : addr) : Prop := {
  ins_next : ∀ c, next (elem m' c) =
    if decide (c = a) then Some (Node n)
    else if decide (c = Node n) then Some b else next (elem m c);
  ins_prev : ∀ c, prev (elem m' c) =
    if decide (c = b) then Some (Node n)
    else if decide (c = Node n) then Some a else prev (elem m c);
  ins_list : ∀ c, list_of (elem m' c) =
    if decide (c = Node n) then Some l else list_of (elem m c);
  ins_len : ∀ k, len m' k = if decide (k = l) then (len m k + 1)%Z else len m k;
}.

Record removed (m m' : Mem) (l n : positive) (a b : addr) : Prop := {
  rem_next : ∀ c, next (elem m' c) =
    if decide (c = Node n) then None
    else if decide (c = a) then Some b else next (elem m c);
  rem_prev : ∀ c, prev (elem m' c) =
    if decide (c = Node n) then None
    else if decide (c = b) then Some a else prev (elem m c);
  rem_list : ∀ c, list_of (elem m' c) =
    if decide (c = Node n) then None else list_of (elem m c);
  rem_len : ∀ k, len m' k = if decide (k = l) then (len m k - 1)%Z else len m k;
}.

(** Reduce a field of the memory after a run of stores. *)
Ltac fields := intros; mem_simpl; repeat (case_decide; simplify_eq/=; mem_simpl); try lia; congruence.

Lemma insert_run m l n a b :
  next (elem m a) = Some b → a ≠ Node n → b ≠ Node n →
  ∃ m', insert l (Some (Node n)) (Some a) m = Ret (Some (Node n), m') ∧ inserted m m' l n a b.
Proof.
  intros Hab Ha Hb. unfold insert, load_next, store_next, store_prev, store_list, add_len. monad. rewrite Hab. monad.
  eexists; split; [reflexivity|]. split; fields.
Qed.

Lemma remove_run m l n a b :
  prev (elem m (Node n)) = Some a → next (elem m (Node n)) = Some b →
  a ≠ Node n → b ≠ Node n →
  ∃ m', remove l (Some (Node n)) m = Ret (Some (Node n), m') ∧ removed m m' l n a b.
Proof.
  intros Hp Hn Ha Hb.
  unfold remove, load_next, load_prev, store_next, store_prev, store_list, add_len. monad.
  rewrite Hp, Hn. monad. mem_simpl. rewrite !decide_False, Hn by done. monad.
  eexists; split; [reflexivity|]. split; fields.
Qed.

(** ** Lists of names *)
Lemma pred_of_app l xs y : pred_of l (xs ++ [y]) = Node y.
Proof. unfold pred_of. by rewrite last_snoc. Qed.

Lemma pred_of_spec l xs :
  (xs = [] ∧ pred_of l xs = Root l) ∨ ∃ ys y, xs = ys ++ [y] ∧ pred_of l xs = Node y.
Proof.
  destruct xs as [|y ys _] using rev_ind; [by left|].
  right. exists ys, y. by rewrite pred_of_app.
Qed.

Lemma without_notin n xs : n ∉ xs → without n xs = xs.
Proof.
  intros Hn. unfold without. induction xs as [|x xs IH]; [done|].
  rewrite filter_cons, decide_True by set_solver. f_equal. apply IH. set_solver.
Qed.

Lemma without_mid n xs ys :
  n ∉ xs → n ∉ ys → without n (xs ++ n :: ys) = xs ++ ys.
Proof.
  intros. unfold without. rewrite filter_app, filter_cons, decide_False by auto.
  fold (without n xs) (without n ys). by rewrite !without_notin.
Qed.

Lemma elem_of_without n x xs : x ∈ without n xs ↔ x ∈ xs ∧ x ≠ n.
Proof. unfold without. rewrite list_elem_of_filter. tauto. Qed.

Lemma NoDup_without n xs : NoDup xs → NoDup (without n xs).
Proof. apply NoDup_filter. Qed.

Lemma insert_after_mid n k xs ys :
  k ∉ xs → insert_after n k (xs ++ k :: ys) = xs ++ k :: n :: ys.
Proof.
  induction xs as [|x xs IH]; intros Hk; simpl; [by rewrite decide_True|].
  rewrite decide_False by set_solver. f_equal. apply IH. set_solver.
Qed.

Lemma insert_before_mid n k xs ys :
  k ∉ xs → insert_before n k (xs ++ k :: ys) = xs ++ n :: k :: ys.
Proof.
  induction xs as [|x xs IH]; intros Hk; simpl; [by rewrite decide_True|].
  rewrite decide_False by set_solver. f_equal. apply IH. set_solver.
Qed.

Lemma insert_after_notin n k xs : k ∉ xs → insert_after n k xs = xs.
Proof.
  induction xs as [|x xs IH]; intros; simpl; [done|].
  rewrite decide_False by set_solver. f_equal. apply IH. set_solver.
Qed.

Lemma insert_before_notin n k xs : k ∉ xs → insert_before n k xs = xs.
Proof.
  induction xs as [|x xs IH]; intros; simpl; [done|].
  rewrite decide_False by set_solver. f_equal. apply IH. set_solver.
Qed.

(** Cutting a duplicate-free list at one of its elements. *)
Lemma nodup_cut (k : positive) xs :
  NoDup xs → k ∈ xs → ∃ ys zs, xs = ys ++ k :: zs ∧ (k ∉ ys) ∧ (k ∉ zs).
Proof.
  intros Hnd Hk. apply list_elem_of_split in Hk as (ys & zs & ->).
  exists ys, zs. apply NoDup_app in Hnd as (_ & Hd & Hz). apply NoDup_cons in Hz as [Hz _].
  split; [done|]. split; [|done]. intros Hy. apply (Hd k Hy). set_solver.
Qed.

(** ** One insertion and one removal in a ring *)
Lemma seg_insert m m' l n a xs b b0 :
  inserted m m' l n a b0 → seg m a xs b →
  b0 = match xs with [] => b | x :: _ => Node x end →
  NoDup xs → n ∉ xs → a ≠ Node n → b ≠ Node n → a ∉ Node <$> xs → b ∉ Node <$> xs →
  seg m' a (n :: xs) b.
Proof.
  intros [Hn Hp _ _] Hs -> Hnd Hnx Han Hbn Hax Hbx.
  assert (Node n ∉ Node <$> xs) by (by rewrite elem_of_nodes).
  destruct xs as [|x xs]; simpl in Hs.
  - split; split; rewrite ?Hn, ?Hp; repeat case_decide; congruence.
  - destruct Hs as [He Hs]. csimpl in *. apply NoDup_cons in Hnd as [Hx _].
    rewrite <- elem_of_nodes in Hx. rewrite !not_elem_of_cons in *.
    split; [|split].
    + split; rewrite ?Hn, ?Hp; repeat case_decide; naive_solver congruence.
    + split; rewrite ?Hn, ?Hp; repeat case_decide; naive_solver congruence.
    + eapply seg_frame; [done|..]; intros c Hc; rewrite ?Hn, ?Hp;
        rewrite !decide_False by naive_solver; done.
Qed.

Lemma seg_remove m m' l n a xs b b0 :
  removed m m' l n a b0 → seg m a (n :: xs) b →
  b0 = match xs with [] => b | x :: _ => Node x end →
  NoDup xs → n ∉ xs → a ≠ Node n → b ≠ Node n → a ∉ Node <$> xs → b ∉ Node <$> xs →
  seg m' a xs b.
Proof.
  intros [Hn Hp _ _] [_ Hs] -> Hnd Hnx Han Hbn Hax Hbx.
  assert (Node n ∉ Node <$> xs) by (by rewrite elem_of_nodes).
  destruct xs as [|x xs]; simpl in Hs |- *.
  - split; rewrite ?Hn, ?Hp; repeat case_decide; congruence.
  - destruct Hs as [_ Hs]. csimpl in *. apply NoDup_cons in Hnd as [Hx _].
    rewrite <- elem_of_nodes in Hx. rewrite !not_elem_of_cons in *.
    split; [split; rewrite ?Hn, ?Hp; repeat case_decide; naive_solver congruence|].
    eapply seg_frame; [done|..]; intros c Hc; rewrite ?Hn, ?Hp;
      rewrite !decide_False by naive_solver; done.
Qed.

Lemma ring_ends m l xs1 xs2 :
  ring m l (xs1 ++ xs2) →
  next (elem m (pred_of l xs1)) = Some (succ_of l xs2) ∧
  prev (elem m (succ_of l xs2)) = Some (pred_of l xs1).
Proof.
  unfold ring. destruct (pred_of_spec l xs1) as [[-> ->]|(ys & y & -> & ->)].
  - simpl. destruct xs2; simpl; [done|]. by intros [??].
  - rewrite <-app_assoc. simpl. rewrite seg_app. intros [_ H].
    destruct xs2; simpl in *; [done|]. by destruct H.
Qed.

Ltac names := rewrite ?elem_of_nodes, ?elem_of_app, ?elem_of_cons in *.

Lemma ring_insert m m' l n xs1 xs2 :
  inserted m m' l n (pred_of l xs1) (succ_of l xs2) →
  ring m l (xs1 ++ xs2) → NoDup (xs1 ++ xs2) → n ∉ xs1 ++ xs2 →
  ring m' l (xs1 ++ n :: xs2).
Proof.
  unfold ring. intros Hi Hr Hnd Hn. names.
  destruct (pred_of_spec l xs1) as [[-> Hp]|(ys & y & -> & Hp)]; rewrite Hp in Hi.
  - eapply seg_insert; eauto with courier.
  - rewrite <-!app_assoc in *. simpl in *. apply NoDup_app in Hnd as (Hys & Hd & Hy2).
    apply NoDup_cons in Hy2 as [Hy Hnd2]. rewrite seg_app in *. destruct Hr as [Hr1 Hr2].
    split.
    + eapply seg_frame; [done|..]; intros c Hc; rewrite ?(ins_next _ _ _ _ _ _ Hi), ?(ins_prev _ _ _ _ _ _ Hi).
      * destruct Hc as [->|Hc]; [by rewrite !decide_False by done|].
        apply list_elem_of_fmap in Hc as (z & -> & Hz).
        rewrite !decide_False; [done|set_solver..].
      * assert (c ≠ succ_of l xs2 ∧ c ≠ Node n) as [??]; [|by rewrite !decide_False].
        destruct Hc as [Hc|Hc]; [apply list_elem_of_fmap in Hc as (z & -> & Hz)|subst c];
          (split; [destruct xs2; simpl; [done|]|]); set_solver.
    + eapply seg_insert; eauto with courier; names; set_solver.
Qed.

Lemma ring_remove m m' l n xs1 xs2 :
  removed m m' l n (pred_of l xs1) (succ_of l xs2) →
  ring m l (xs1 ++ n :: xs2) → NoDup (xs1 ++ n :: xs2) →
  ring m' l (xs1 ++ xs2).
Proof.
  unfold ring. intros Hi Hr Hnd.
  destruct (pred_of_spec l xs1) as [[-> Hp]|(ys & y & -> & Hp)]; rewrite Hp in Hi.
  - apply NoDup_cons in Hnd as [Hn Hnd].
    eapply seg_remove; eauto with courier.
  - rewrite <-!app_assoc in *. simpl in *. apply NoDup_app in Hnd as (Hys & Hd & Hy2).
    apply NoDup_cons in Hy2 as [Hy Hnd2]. apply NoDup_cons in Hnd2 as [Hn Hnd2].
    rewrite seg_app in *. destruct Hr as [Hr1 Hr2]. split.
    + eapply seg_frame; [done|..]; intros c Hc; rewrite ?(rem_next _ _ _ _ _ _ Hi), ?(rem_prev _ _ _ _ _ _ Hi).
      * destruct Hc as [->|Hc]; [by rewrite !decide_False by done|].
        apply list_elem_of_fmap in Hc as (z & -> & Hz).
        rewrite !decide_False; [done|set_solver..].
      * assert (c ≠ succ_of l xs2 ∧ c ≠ Node n) as [??]; [|by rewrite !decide_False].
        destruct Hc as [Hc|Hc]; [apply list_elem_of_fmap in Hc as (z & -> & Hz)|subst c];
          (split; [destruct xs2; simpl; [done|]|]); set_solver.
    + eapply seg_remove; eauto with courier; names; set_solver.
Qed.

(** ** Refinement of one operation *)
Lemma rep_fun_ext m Γ Δ : rep m Γ → (∀ l, Δ l = Γ l) → rep m Δ.
Proof. intros [] He. split; intros; rewrite ?He; auto. Qed.

Lemma rep_insert_self m Γ l xs : rep m Γ → Γ l = xs → rep m (<[l := xs]> Γ).
Proof.
  intros Hr <-. apply (rep_fun_ext _ _ _ Hr). intros k.
  destruct (decide (l = k)) as [->|]; [by rewrite fn_lookup_insert|by rewrite fn_lookup_insert_ne].
Qed.

(** The pointers of another list are out of reach. *)
Lemma linked_frame m m' Γ l k :
  rep m Γ → k ≠ l → linked m k (Γ k) →
  (∀ c, c ≠ Root l → (∀ n, c = Node n → n ∈ Γ k) →
        next (elem m' c) = next (elem m c) ∧ prev (elem m' c) = prev (elem m c)) →
  linked m' k (Γ k).
Proof.
  intros Hr Hkl [[Hz Hnil]|Hring] Hf.
  - left. split; [|done]. rewrite Hnil in Hf.
    by destruct (Hf (Root k)) as [-> _]; [congruence|done|].
  - right. eapply seg_frame; [exact Hring|..]; intros c Hc; apply Hf.
    1,3: destruct Hc as [Hc|Hc]; try (apply list_elem_of_fmap in Hc as (? & -> & _)); congruence.
    all: intros n ->; rewrite elem_of_nodes in Hc; naive_solver.
Qed.

Lemma rep_other m Γ n l k : rep m Γ → n ∈ Γ l → n ∈ Γ k → k = l.
Proof. intros Hr H1 H2. apply (rep_member _ _ Hr) in H1, H2. congruence. Qed.

Lemma pred_of_cases l xs : pred_of l xs = Root l ∨ ∃ y, pred_of l xs = Node y ∧ y ∈ xs.
Proof. destruct (pred_of_spec l xs) as [[-> ->]|(ys & y & -> & ->)]; [by left|]. right. set_solver. Qed.
Lemma succ_of_cases l xs : succ_of l xs = Root l ∨ ∃ y, succ_of l xs = Node y ∧ y ∈ xs.
Proof. destruct xs as [|y ys]; [by left|]. right. set_solver. Qed.
Lemma succ_of_in l xs n : succ_of l xs = Node n → n ∈ xs.
Proof. destruct xs; simpl; [done|]. intros [= ->]. set_solver. Qed.
Lemma pred_of_in l xs n : pred_of l xs = Node n → n ∈ xs.
Proof. destruct (pred_of_spec l xs) as [[-> ->]|(ys & y & -> & ->)]; [done|]. intros [= ->]. set_solver. Qed.

(** An address in reach of list [k] is neither the root nor an element of [l]. *)
Lemma far_from m Γ l k c d (ys : list positive) :
  rep m Γ → l ≠ k → c ≠ Root l → (∀ n, c = Node n → n ∈ Γ k) →
  (d = Root l ∨ ∃ y, d = Node y ∧ y ∈ ys) → (∀ y, y ∈ ys → y ∈ Γ l) → c ≠ d.
Proof.
  intros Hr Hkl Hc Hk [->|(y & -> & Hy)] Hys; [done|]. intros ->.
  by apply Hkl, eq_sym, (rep_other m Γ y); auto.
Qed.

Lemma rep_insert m Γ l n xs1 xs2 :
  rep m Γ → Γ l = xs1 ++ xs2 → ring m l (Γ l) → detached Γ n →
  ∃ m', insert l (Some (Node n)) (Some (pred_of l xs1)) m = Ret (Some (Node n), m') ∧
        rep m' (<[l := xs1 ++ n :: xs2]> Γ).
Proof.
  intros Hr HG Hring Hdet. pose proof (Hdet l) as Hn. rewrite HG in *.
  destruct (ring_ends _ _ _ _ Hring) as [Hnx Hpv].
  assert (pred_of l xs1 ≠ Node n) by (intros ?%pred_of_in; set_solver).
  assert (succ_of l xs2 ≠ Node n) by (intros ?%succ_of_in; set_solver).
  destruct (insert_run m l n _ _ Hnx) as (m' & Hrun & Hi); [done..|].
  exists m'. split; [exact Hrun|]. pose proof (rep_nodup _ _ Hr l) as Hnd. rewrite HG in Hnd.
  split; intros k; try (intros k'; rename k into x; rename k' into k);
    (destruct (decide (l = k)) as [<-|Hlk]; rewrite ?fn_lookup_insert, ?fn_lookup_insert_ne by done).
  - right. eapply ring_insert; eauto.
  - eapply linked_frame; [exact Hr|by apply not_eq_sym|apply Hr|]. intros c Hc Hck.
    rewrite (ins_next _ _ _ _ _ _ Hi), (ins_prev _ _ _ _ _ _ Hi).
    assert (c ≠ Node n) by (intros ->; by apply (Hdet k), Hck).
    assert (c ≠ pred_of l xs1)
      by (eapply far_from; eauto using pred_of_cases; intros ?; rewrite HG; set_solver).
    assert (c ≠ succ_of l xs2)
      by (eapply far_from; eauto using succ_of_cases; intros ?; rewrite HG; set_solver).
    by rewrite !decide_False.
  - eapply NoDup_Permutation_proper; [apply Permutation_sym, Permutation_middle|].
    by apply NoDup_cons.
  - apply Hr.
  - rewrite (ins_len _ _ _ _ _ _ Hi), decide_True by done. rewrite (rep_len _ _ Hr), HG.
    autorewrite with courier_rw. lia.
  - rewrite (ins_len _ _ _ _ _ _ Hi), decide_False by done. apply Hr.
  - rewrite (ins_list _ _ _ _ _ _ Hi). case_decide as Hc; [injection Hc as ->; set_solver|].
    rewrite (rep_member _ _ Hr), HG. assert (x ≠ n) by congruence. set_solver.
  - rewrite (ins_list _ _ _ _ _ _ Hi). case_decide as Hc; [|apply Hr].
    injection Hc as ->. split; [congruence|]. by intros ?%Hdet.
Qed.

Lemma rep_ring m Γ l n : rep m Γ → n ∈ Γ l → ring m l (Γ l).
Proof. intros Hr Hn. destruct (rep_linked _ _ Hr l) as [[_ E]|]; [rewrite E in Hn; set_solver|done]. Qed.

Lemma rep_remove m Γ l n xs1 xs2 :
  rep m Γ → Γ l = xs1 ++ n :: xs2 →
  ∃ m', remove l (Some (Node n)) m = Ret (Some (Node n), m') ∧
        rep m' (<[l := xs1 ++ xs2]> Γ) ∧ ring m' l (xs1 ++ xs2).
Proof.
  intros Hr HG. assert (Hring : ring m l (Γ l)) by (eapply (rep_ring _ _ _ n); [done|rewrite HG; set_solver]).
  pose proof (rep_nodup _ _ Hr l) as Hnd. rewrite HG in Hring, Hnd.
  assert (Hn : n ∉ xs1 ++ xs2)
    by (rewrite <-Permutation_middle in Hnd; by apply NoDup_cons in Hnd as [? _]).
  pose proof (ring_ends _ _ _ _ Hring) as [_ Hpv]. simpl in Hpv.
  replace (xs1 ++ n :: xs2) with ((xs1 ++ [n]) ++ xs2) in Hring by by rewrite <-app_assoc.
  pose proof (ring_ends _ _ _ _ Hring) as [Hnx _]. rewrite pred_of_app in Hnx.
  rewrite <-app_assoc in Hring. simpl in Hring.
  assert (pred_of l xs1 ≠ Node n) by (intros ?%pred_of_in; set_solver).
  assert (succ_of l xs2 ≠ Node n) by (intros ?%succ_of_in; set_solver).
  destruct (remove_run m l n _ _ Hpv Hnx) as (m' & Hrun & Hi); [done..|].
  assert (Hring' : ring m' l (xs1 ++ xs2)) by (eapply ring_remove; eauto).
  exists m'. split; [exact Hrun|]. split; [|done].
  split; intros k; try (intros k'; rename k into x; rename k' into k);
    (destruct (decide (l = k)) as [<-|Hlk]; rewrite ?fn_lookup_insert, ?fn_lookup_insert_ne by done).
  - by right.
  - eapply linked_frame; [exact Hr|by apply not_eq_sym|apply Hr|]. intros c Hc Hck.
    rewrite (rem_next _ _ _ _ _ _ Hi), (rem_prev _ _ _ _ _ _ Hi).
    assert (c ≠ Node n)
      by (eapply (far_from m Γ l k c (Node n) [n]); eauto; [right; exists n; split; [done|set_solver]|intros ?; rewrite HG; set_solver]).
    assert (c ≠ pred_of l xs1)
      by (eapply far_from; eauto using pred_of_cases; intros ?; rewrite HG; set_solver).
    assert (c ≠ succ_of l xs2)
      by (eapply far_from; eauto using succ_of_cases; intros ?; rewrite HG; set_solver).
    by rewrite !decide_False.
  - rewrite <-Permutation_middle in Hnd. by apply NoDup_cons in Hnd as [_ ?].
  - apply Hr.
  - rewrite (rem_len _ _ _ _ _ _ Hi), decide_True by done. rewrite (rep_len _ _ Hr), HG.
    autorewrite with courier_rw. lia.
  - rewrite (rem_len _ _ _ _ _ _ Hi), decide_False by done. apply Hr.
  - rewrite (rem_list _ _ _ _ _ _ Hi). case_decide as Hc; [injection Hc as ->; set_solver|].
    rewrite (rep_member _ _ Hr), HG. assert (x ≠ n) by congruence. set_solver.
  - rewrite (rem_list _ _ _ _ _ _ Hi). case_decide as Hc; [|apply Hr].
    injection Hc as ->. split; [congruence|]. intros Hx.
    destruct Hlk. eapply rep_other; eauto. rewrite HG. set_solver.
Qed.

Lemma rep_twice m Γ l xs ys : rep m (<[l := xs]> (<[l := ys]> Γ)) → rep m (<[l := xs]> Γ).
Proof.
  intros Hr. apply (rep_fun_ext _ _ _ Hr). intros k.
  destruct (decide (l = k)) as [->|]; [by rewrite !fn_lookup_insert|by rewrite !fn_lookup_insert_ne].
Qed.

Lemma lazyInit_run m Γ l :
  rep m Γ → ∃ m', lazyInit l m = Ret (tt, m') ∧ rep m' Γ ∧ ring m' l (Γ l).
Proof.
  intros Hr. unfold lazyInit, load_next, Init, store_next, store_prev. monad.
  destruct (next (elem m (Root l))) eqn:En.
  { exists m. split; [done|]. split; [done|].
    destruct (rep_linked _ _ Hr l) as [[? _]|]; [congruence|done]. }
  assert (HG : Γ l = []).
  { destruct (rep_linked _ _ Hr l) as [[_ ?]|Hring]; [done|].
    destruct (Γ l); simpl in Hring; destruct Hring as [Hx _]; try destruct Hx; congruence. }
  eexists. split; [reflexivity|]. rewrite HG.
  split; [|split; fields]. split; intros k; [| |mem_simpl|].
  - destruct (decide (k = l)) as [->|Hkl].
    + right. rewrite HG. split; fields.
    + eapply linked_frame; [exact Hr|exact Hkl|apply Hr|]. intros c Hc _. split; fields.
  - apply Hr.
  - rewrite (rep_len _ _ Hr). case_decide; [subst; by rewrite HG|done].
  - intros x. rewrite <-(rep_member _ _ Hr). mem_simpl. by repeat (case_decide; [congruence|]).
Qed.

(** The outcome of an operation: it returns, and refines [Δ]. *)
Definition refines {A} (c : M Mem A) (m : Mem) (a : A) (Δ : abs) : Prop :=
  ∃ m', c m = Ret (a, m') ∧ rep m' Δ.

Lemma PushFront_refines m Γ l n :
  rep m Γ → detached Γ n → refines (PushFront l (Node n)) m (Some (Node n)) (<[l := n :: Γ l]> Γ).
Proof.
  intros Hr Hd. destruct (lazyInit_run m Γ l Hr) as (m1 & H1 & Hr1 & Hring).
  destruct (rep_insert m1 Γ l n [] (Γ l)) as (m2 & H2 & Hr2); [done..|].
  exists m2. split; [|done]. unfold PushFront. monad. rewrite H1. exact H2.
Qed.

Lemma PushBack_refines m Γ l n :
  rep m Γ → detached Γ n → refines (PushBack l (Node n)) m (Some (Node n)) (<[l := Γ l ++ [n]]> Γ).
Proof.
  intros Hr Hd. destruct (lazyInit_run m Γ l Hr) as (m1 & H1 & Hr1 & Hring).
  destruct (rep_insert m1 Γ l n (Γ l) []) as (m2 & H2 & Hr2); [done|by rewrite app_nil_r|done..|].
  exists m2. split; [|done]. unfold PushBack, load_prev. monad. rewrite H1.
  rewrite <-(app_nil_r (Γ l)) in Hring. pose proof (proj2 (ring_ends _ _ _ _ Hring)) as Hp. simpl in Hp. rewrite Hp. exact H2.
Qed.

Lemma InsertAfter_refines m Γ l n k :
  rep m Γ → detached Γ n →
  refines (InsertAfter l (Node n) (Node k)) m
    (if decide (k ∈ Γ l) then Some (Node n) else None) (<[l := insert_after n k (Γ l)]> Γ).
Proof.
  intros Hr Hd. unfold refines, InsertAfter, list_field. monad.
  destruct (decide (k ∈ Γ l)) as [Hk|Hk].
  - rewrite (decide_True _ _ (proj2 (rep_member _ _ Hr k l) Hk)).
    destruct (nodup_cut k (Γ l)) as (ys & zs & E & Hy & _); [apply Hr|done|].
    destruct (rep_insert m Γ l n (ys ++ [k]) zs) as (m' & H' & Hr'); [done|by rewrite <-app_assoc|..].
    { by eapply rep_ring. } { done. }
    exists m'. rewrite pred_of_app in H'. split; [exact H'|].
    rewrite E, insert_after_mid by done. by rewrite <-app_assoc in Hr'.
  - rewrite decide_False by (by rewrite (rep_member _ _ Hr)).
    exists m. split; [done|]. by rewrite insert_after_notin; [apply rep_insert_self|].
Qed.

Lemma InsertBefore_refines m Γ l n k :
  rep m Γ → detached Γ n →
  refines (InsertBefore l (Node n) (Node k)) m
    (if decide (k ∈ Γ l) then Some (Node n) else None) (<[l := insert_before n k (Γ l)]> Γ).
Proof.
  intros Hr Hd. unfold refines, InsertBefore, list_field, load_prev. monad.
  destruct (decide (k ∈ Γ l)) as [Hk|Hk].
  - rewrite (decide_True _ _ (proj2 (rep_member _ _ Hr k l) Hk)).
    destruct (nodup_cut k (Γ l)) as (ys & zs & E & Hy & _); [apply Hr|done|].
    assert (Hring : ring m l (Γ l)) by (by eapply rep_ring).
    destruct (rep_insert m Γ l n ys (k :: zs)) as (m' & H' & Hr'); [done..|].
    rewrite E in Hring. pose proof (proj2 (ring_ends _ _ _ _ Hring)) as Hp. simpl in Hp. rewrite Hp.
    exists m'. split; [exact H'|]. by rewrite E, insert_before_mid.
  - rewrite decide_False by (by rewrite (rep_member _ _ Hr)).
    exists m. split; [done|]. by rewrite insert_before_notin; [apply rep_insert_self|].
Qed.

Lemma Remove_refines m Γ l n :
  rep m Γ → refines (Remove l (Node n)) m tt (<[l := without n (Γ l)]> Γ).
Proof.
  intros Hr. unfold refines, Remove, list_field. monad.
  destruct (decide (n ∈ Γ l)) as [Hn|Hn].
  - rewrite (decide_True _ _ (proj2 (rep_member _ _ Hr n l) Hn)).
    destruct (nodup_cut n (Γ l)) as (ys & zs & E & Hy & Hz); [apply Hr|done|].
    destruct (rep_remove m Γ l n ys zs Hr E) as (m' & H' & Hr' & _).
    rewrite H'. exists m'. split; [done|]. by rewrite E, without_mid.
  - rewrite decide_False by (by rewrite (rep_member _ _ Hr)).
    exists m. split; [done|]. by rewrite without_notin; [apply rep_insert_self|].
Qed.

(** Taking an element out, to insert it elsewhere in the same list. *)
Lemma remove_for_move m Γ l n :
  rep m Γ → n ∈ Γ l →
  ∃ m', remove l (Some (Node n)) m = Ret (Some (Node n), m') ∧
        rep m' (<[l := without n (Γ l)]> Γ) ∧ ring m' l (without n (Γ l)) ∧
        detached (<[l := without n (Γ l)]> Γ) n.
Proof.
  intros Hr Hn. destruct (nodup_cut n (Γ l)) as (ys & zs & E & Hy & Hz); [apply Hr|done|].
  destruct (rep_remove m Γ l n ys zs Hr E) as (m' & H' & Hr' & Hring).
  assert (Ew : without n (Γ l) = ys ++ zs) by (rewrite E; by apply without_mid).
  rewrite Ew. exists m'. split; [done|]. split; [done|].
  split; [done|]. intros k. destruct (decide (l = k)) as [->|Hk].
  - rewrite fn_lookup_insert. set_solver.
  - rewrite fn_lookup_insert_ne by done. intros Hin. by apply Hk, (rep_other m Γ n).
Qed.

(** Reinsertion after the elements [xs1] of the shortened list. *)
Lemma reinsert m Γ l n m1 xs1 xs2 :
  rep m Γ → n ∈ Γ l → without n (Γ l) = xs1 ++ xs2 →
  remove l (Some (Node n)) m = Ret (Some (Node n), m1) →
  ∃ m', insert l (Some (Node n)) (Some (pred_of l xs1)) m1 = Ret (Some (Node n), m') ∧
        rep m' (<[l := xs1 ++ n :: xs2]> Γ) ∧
        prev (elem m1 (succ_of l xs2)) = Some (pred_of l xs1).
Proof.
  intros Hr Hn E H1. destruct (remove_for_move m Γ l n Hr Hn) as (m1' & H1' & Hr1 & Hring & Hd).
  rewrite H1 in H1'. injection H1' as <-.
  destruct (rep_insert m1 _ l n xs1 xs2 Hr1) as (m' & H' & Hr'); [by rewrite fn_lookup_insert|..|done|].
  { by rewrite fn_lookup_insert. }
  exists m'. split; [done|]. split; [by eapply rep_twice|].
  rewrite E in Hring. apply (ring_ends _ _ _ _ Hring).
Qed.

Lemma ring_first m Γ l n xs :
  rep m Γ → n ∈ Γ l → Γ l = xs → next (elem m (Root l)) = Some (succ_of l xs).
Proof.
  intros Hr Hn <-. pose proof (rep_ring _ _ _ _ Hr Hn) as Hring.
  exact (proj1 (ring_ends _ _ [] _ Hring)).
Qed.

Lemma ring_last m Γ l n :
  rep m Γ → n ∈ Γ l → prev (elem m (Root l)) = Some (pred_of l (Γ l)).
Proof.
  intros Hr Hn. pose proof (rep_ring _ _ _ _ Hr Hn) as Hring.
  rewrite <-(app_nil_r (Γ l)) in Hring. exact (proj2 (ring_ends _ _ _ [] Hring)).
Qed.

Lemma MoveToFront_refines m Γ l n :
  rep m Γ → refines (MoveToFront l (Node n)) m tt (abs_op (OpMoveToFront l n) Γ).
Proof.
  intros Hr. unfold refines, MoveToFront, list_field, load_next. simpl abs_op. monad.
  destruct (decide (n ∈ Γ l)) as [Hn|Hn].
  - pose proof (proj2 (rep_member _ _ Hr n l) Hn) as Hl. pose proof (rep_nodup _ _ Hr l) as Hnd.
    rewrite (ring_first _ _ _ _ _ Hr Hn eq_refl).
    case_decide as Hc.
    + destruct Hc as [?|Hc]; [done|]. exists m. split; [done|].
      destruct (Γ l) as [|x xs] eqn:E; simpl in Hc; [done|]. injection Hc as ->.
      apply NoDup_cons in Hnd as [Hx _]. assert (without n (n :: xs) = xs) as -> by (apply (without_mid n []); [set_solver|done]).
      by apply rep_insert_self.
    + destruct (remove_for_move m Γ l n Hr Hn) as (m1 & H1 & _).
      destruct (reinsert m Γ l n m1 [] (without n (Γ l))) as (m2 & H2 & Hr2 & _); [done..|].
      rewrite H1. change (pred_of l []) with (Root l) in H2. rewrite H2. by exists m2.
  - rewrite decide_True by (left; by rewrite (rep_member _ _ Hr)). by exists m.
Qed.

Lemma MoveToBack_refines m Γ l n :
  rep m Γ → refines (MoveToBack l (Node n)) m tt (abs_op (OpMoveToBack l n) Γ).
Proof.
  intros Hr. unfold refines, MoveToBack, list_field, load_prev. simpl abs_op. monad.
  destruct (decide (n ∈ Γ l)) as [Hn|Hn].
  - pose proof (proj2 (rep_member _ _ Hr n l) Hn) as Hl. pose proof (rep_nodup _ _ Hr l) as Hnd.
    rewrite (ring_last _ _ _ _ Hr Hn).
    case_decide as Hc.
    + destruct Hc as [?|Hc]; [done|]. exists m. split; [done|].
      destruct (pred_of_spec l (Γ l)) as [[E Hp]|(ys & y & E & Hp)]; [congruence|].
      assert (y = n) as -> by congruence. rewrite E in *.
      rewrite <-Permutation_cons_append in Hnd. apply NoDup_cons in Hnd as [Hx _].
      rewrite (without_mid n ys []) by (done || set_solver).
      rewrite app_nil_r. by apply rep_insert_self.
    + destruct (remove_for_move m Γ l n Hr Hn) as (m1 & H1 & _).
      destruct (reinsert m Γ l n m1 (without n (Γ l)) []) as (m2 & H2 & Hr2 & Hp);
        [done|done|by rewrite app_nil_r|done|].
      rewrite H1. simpl in Hp. rewrite Hp, H2. by exists m2.
  - rewrite decide_True by (left; by rewrite (rep_member _ _ Hr)). by exists m.
Qed.

Lemma MoveAfter_refines m Γ l n k :
  rep m Γ → refines (MoveAfter l (Node n) (Node k)) m tt (abs_op (OpMoveAfter l n k) Γ).
Proof.
  intros Hr. unfold refines, MoveAfter, list_field. simpl abs_op. monad.
  case_decide as Hc; case_decide as Ha.
  - rewrite !(rep_member _ _ Hr) in Hc. naive_solver.
  - by exists m.
  - destruct Ha as (Hn & Hnk & Hk).
    destruct (nodup_cut k (without n (Γ l))) as (ys & zs & E & Hy & _);
      [apply NoDup_without, Hr|by rewrite elem_of_without|].
    destruct (remove_for_move m Γ l n Hr Hn) as (m1 & H1 & _).
    destruct (reinsert m Γ l n m1 (ys ++ [k]) zs) as (m2 & H2 & Hr2 & _);
      [done|done|by rewrite <-app_assoc|done|].
    rewrite pred_of_app in H2. rewrite H1, H2. exists m2. split; [done|].
    rewrite E, insert_after_mid by done. by rewrite <-app_assoc in Hr2.
  - rewrite !(rep_member _ _ Hr) in Hc. destruct Ha. destruct (decide (n ∈ Γ l)), (decide (n = k)), (decide (k ∈ Γ l)); naive_solver.
Qed.

Lemma MoveBefore_refines m Γ l n k :
  rep m Γ → refines (MoveBefore l (Node n) (Node k)) m tt (abs_op (OpMoveBefore l n k) Γ).
Proof.
  intros Hr. unfold refines, MoveBefore, list_field, load_prev. simpl abs_op. monad.
  case_decide as Hc; case_decide as Ha.
  - rewrite !(rep_member _ _ Hr) in Hc. naive_solver.
  - by exists m.
  - destruct Ha as (Hn & Hnk & Hk).
    destruct (nodup_cut k (without n (Γ l))) as (ys & zs & E & Hy & _);
      [apply NoDup_without, Hr|by rewrite elem_of_without|].
    destruct (remove_for_move m Γ l n Hr Hn) as (m1 & H1 & _).
    destruct (reinsert m Γ l n m1 ys (k :: zs)) as (m2 & H2 & Hr2 & Hp); [done..|].
    simpl in Hp. rewrite H1, Hp, H2. exists m2. split; [done|].
    by rewrite E, insert_before_mid.
  - rewrite !(rep_member _ _ Hr) in Hc. destruct Ha. destruct (decide (n ∈ Γ l)), (decide (n = k)), (decide (k ∈ Γ l)); naive_solver.
Qed.

Lemma empty_rep : rep emptyMem (fun _ => []).
Proof.
  split; intros; [by left|constructor|done|].
  split; [done|]. intros ?%elem_of_nil. done.
Qed.

(** Discarding the result of a refined call. *)
Lemma refines_discard {A} (c : M Mem A) m a Δ :
  refines c m a Δ → refines (c;; mret tt) m tt Δ.
Proof. intros (m' & H & Hr). exists m'. split; [|done]. monad. by rewrite H. Qed.

Lemma run_op_refines o m Γ : rep m Γ → op_pre o Γ → refines (run_op o) m tt (abs_op o Γ).
Proof.
  intros Hr Hp; destruct o; simpl; eauto using Remove_refines, MoveToFront_refines,
    MoveToBack_refines, MoveBefore_refines, MoveAfter_refines.
  all: eapply refines_discard; eauto using PushFront_refines, PushBack_refines,
    InsertBefore_refines, InsertAfter_refines.
Qed.

Lemma run_ops_refines os m Γ : rep m Γ → ops_pre os Γ → refines (run_ops os) m tt (abs_ops os Γ).
Proof.
  revert m Γ. induction os as [|o os IH]; simpl; intros m Γ Hr Hp; [by exists m|].
  destruct Hp as [Ho Hp]. destruct (run_op_refines o m Γ Hr Ho) as (m1 & H1 & Hr1).
  destruct (IH m1 _ Hr1 Hp) as (m2 & H2 & Hr2).
  exists m2. split; [|done]. monad. by rewrite H1.
Qed.

(** ** Reading a represented list *)
Lemma Next_run m l a p :
  list_of (elem m a) = Some l → next (elem m a) = Some p →
  Next a m = Ret (if decide (p = Root l) then None else Some p, m).
Proof.
  intros Hl Hn. unfold Next. monad. rewrite Hl, Hn.
  repeat case_decide; congruence.
Qed.

Lemma walk_seg m l xs fuel :
  (∀ x, x ∈ xs → list_of (elem m (Node x)) = Some l) → length xs ≤ fuel →
  ∀ a, seg m a xs (Root l) →
  walk fuel (match xs with x :: _ => Some (Node x) | [] => None end) m = Ret (Node <$> xs, m).
Proof.
  revert fuel. induction xs as [|x xs IH]; intros fuel Hl Hf a Hs; [by destruct fuel|].
  destruct fuel as [|fuel]; simpl in Hf; [lia|]. destruct Hs as [_ Hs]. cbn [walk]. monad.
  rewrite (Next_run m l (Node x) (succ_of l xs)); [|set_solver|].
  - specialize (IH fuel). destruct xs as [|y ys]; cbn [succ_of].
    + rewrite decide_True by done. by destruct fuel.
    + rewrite decide_False by done. erewrite IH; [done|set_solver|lia|exact Hs].
  - destruct xs; simpl in Hs; apply Hs.
Qed.

Lemma Front_run m Γ l :
  rep m Γ → Front l m = Ret (match Γ l with x :: _ => Some (Node x) | [] => None end, m).
Proof.
  intros Hr. unfold Front, Len. monad. rewrite (rep_len _ _ Hr).
  destruct (Γ l) as [|x xs] eqn:E; [done|]. rewrite decide_False by zlen_lia.
  by rewrite (ring_first _ _ _ x _ Hr ltac:(rewrite E; set_solver) E).
Qed.

Lemma Back_run m Γ l :
  rep m Γ → Back l m = Ret (Node <$> last (Γ l), m).
Proof.
  intros Hr. unfold Back, Len. monad. rewrite (rep_len _ _ Hr).
  destruct (Γ l) as [|x xs] eqn:E; [done|]. rewrite decide_False by zlen_lia.
  rewrite (ring_last _ _ _ x Hr), E by (rewrite E; set_solver).
  unfold pred_of. destruct (last (x :: xs)) eqn:El; [done|].
  by apply last_None in El.
Qed.

Lemma Len_run m Γ l : rep m Γ → Len l m = Ret (zlen (Γ l), m).
Proof. intros Hr. unfold Len. monad. by rewrite (rep_len _ _ Hr). Qed.

Lemma traverse_run m Γ l fuel :
  rep m Γ → length (Γ l) ≤ fuel → traverse fuel l m = Ret (Node <$> Γ l, m).
Proof.
  intros Hr Hf. unfold traverse. monad. rewrite (Front_run _ _ _ Hr).
  destruct (Γ l) as [|x xs] eqn:E; [by destruct fuel|].
  rewrite <-E in Hf |- *. pose proof (rep_ring m Γ l x Hr) as Hring.
  pose proof (walk_seg m l (Γ l) fuel) as Hw. rewrite E in *.
  eapply Hw; [|done|apply Hring; set_solver].
  intros y Hy. apply (rep_member _ _ Hr). by rewrite E.
Qed.

(** ** Misuse: inserting an element a second time *)
Lemma walk_cycle m l (C : list positive) :
  (∀ x, x ∈ C → list_of (elem m (Node x)) = Some l ∧ ∃ y, y ∈ C ∧ next (elem m (Node x)) = Some (Node y)) →
  ∀ fuel x, x ∈ C → walk fuel (Some (Node x)) m = NoFuel.
Proof.
  intros HC fuel. induction fuel as [|fuel IH]; intros x Hx; [done|].
  destruct (HC x Hx) as (Hl & y & Hy & Hn). cbn [walk]. monad.
  rewrite (Next_run _ _ _ _ Hl Hn), decide_False by done. by rewrite IH.
Qed.

Lemma seg_closed m a ys n zs b :
  seg m a (ys ++ n :: zs) b → ∀ x, x ∈ ys → ∃ y, y ∈ ys ++ [n] ∧ next (elem m (Node x)) = Some (Node y).
Proof.
  revert a. induction ys as [|y ys IH]; intros a Hs x Hx; [set_solver|].
  simpl in Hs. destruct Hs as [_ Hs]. apply elem_of_cons in Hx as [->|Hx].
  - destruct ys as [|z ys]; simpl in Hs; [exists n|exists z]; split; (set_solver || apply Hs).
  - destruct (IH _ Hs x Hx) as (z & Hz & Hn). exists z. split; [set_solver|done].
Qed.

Lemma PushFront_twice_run m Γ l n :
  rep m Γ → n ∈ Γ l →
  ∃ m', PushFront l (Node n) m = Ret (Some (Node n), m') ∧
    (∀ c, list_of (elem m' c) = if decide (c = Node n) then Some l else list_of (elem m c)) ∧
    (∀ c, next (elem m' c) = if decide (c = Node n) then Some (succ_of l (Γ l))
                            else if decide (c = Root l) then Some (Node n) else next (elem m c)) ∧
    len m' l = (zlen (Γ l) + 1)%Z.
Proof.
  intros Hr Hn. pose proof (ring_first _ _ _ _ _ Hr Hn eq_refl) as Hf.
  unfold PushFront, lazyInit, insert, load_next, store_next, store_prev, store_list, add_len. monad.
  rewrite Hf. monad. rewrite Hf. monad. eexists; split; [reflexivity|].
  rewrite <-(rep_len _ _ Hr). split; [|split]; fields.
Qed.

Lemma PushFront_twice_cycle m Γ l n fuel :
  rep m Γ → n ∈ Γ l →
  ∃ m', PushFront l (Node n) m = Ret (Some (Node n), m') ∧ traverse fuel l m' = NoFuel.
Proof.
  intros Hr Hn. destruct (PushFront_twice_run m Γ l n Hr Hn) as (m' & Hrun & Hlist & Hnext & Hlen).
  exists m'. split; [done|].
  destruct (nodup_cut n (Γ l)) as (ys & zs & E & Hy & _); [apply Hr|done|].
  pose proof (rep_ring m Γ l n Hr Hn) as Hring. unfold ring in Hring. rewrite E in Hring.
  assert (Hcyc : ∀ x, x ∈ ys ++ [n] → list_of (elem m' (Node x)) = Some l ∧
                   ∃ y, y ∈ ys ++ [n] ∧ next (elem m' (Node x)) = Some (Node y)).
  { intros x Hx. rewrite Hlist, Hnext. case_decide as Hc.
    - split; [done|]. rewrite E. destruct ys as [|y ys]; [exists n|exists y]; set_solver.
    - assert (x ≠ n) by congruence. assert (Hxy : x ∈ ys) by set_solver.
      rewrite decide_False by done. split; [apply (rep_member _ _ Hr); rewrite E; set_solver|].
      exact (seg_closed _ _ _ _ _ _ Hring x Hxy). }
  unfold traverse, Front, Len. monad. rewrite decide_False by (rewrite Hlen; pose proof (zlen_nonneg (Γ l)); lia).
  rewrite Hnext, decide_False, decide_True by done.
  eapply walk_cycle; [exact Hcyc|set_solver].
Qed.

(** ** Properties *)

(** C14. Refinement: from the zero value of the memory, any sequence of the
    package's operations whose insertions are of detached elements runs without
    a panic, and afterwards [Len], [Front], [Back] and the iteration idiom report
    exactly the list obtained by the same operations on plain lists - for every
    list, including those the operations did not touch. *)
Theorem internallist_refines os l fuel (Γ := abs_ops os (fun _ => [])) :
  ops_pre os (fun _ => []) → length (Γ l) ≤ fuel →
  ∃ m, run_ops os emptyMem = Ret (tt, m) ∧
    Len l m = Ret (zlen (Γ l), m) ∧
    Front l m = Ret (match Γ l with x :: _ => Some (Node x) | [] => None end, m) ∧
    Back l m = Ret (Node <$> last (Γ l), m) ∧
    traverse fuel l m = Ret (Node <$> Γ l, m).
Proof.
  intros Hp Hf. destruct (run_ops_refines os _ _ empty_rep Hp) as (m & Hrun & Hr).
  exists m. repeat split; eauto using Len_run, Front_run, Back_run, traverse_run.
Qed.

Definition demo_ops : list listop :=
  [OpPushBack 1 10; OpPushBack 1 11; OpPushFront 1 12; OpInsertAfter 1 13 12;
   OpMoveToBack 1 12; OpPushBack 2 14; OpMoveBefore 1 11 13; OpRemove 1 10;
   OpInsertBefore 1 10 12].

Lemma internallist_refines_witness :
  abs_ops demo_ops (fun _ => []) 1%positive = [11; 13; 10; 12]%positive ∧
  ∃ m, run_ops demo_ops emptyMem = Ret (tt, m) ∧
    Len 1 m = Ret (4%Z, m) ∧ Front 1 m = Ret (Some (Node 11), m) ∧
    Back 1 m = Ret (Some (Node 12), m) ∧
    traverse 4 1 m = Ret ([Node 11; Node 13; Node 10; Node 12], m).
Proof.
  split; [vm_compute; reflexivity|].
  apply (internallist_refines demo_ops 1 4).
  - simpl. repeat split; intros l; destruct (decide (1%positive = l)) as [<-|];
      try (vm_compute; set_solver); destruct (decide (2%positive = l)) as [<-|];
      try (vm_compute; set_solver); rewrite ?fn_lookup_insert_ne by done; set_solver.
  - vm_compute. lia.
Defined.

(** The package checks nothing when an element is pushed: pushing to the front
    an element the list already holds leaves a cycle, so that the iteration idiom
    of the package comment never ends, whatever number of steps it is given. *)
Theorem push_of_member_cycles m Γ l n fuel :
  rep m Γ → n ∈ Γ l →
  ∃ m', PushFront l (Node n) m = Ret (Some (Node n), m') ∧ traverse fuel l m' = NoFuel.
Proof. apply PushFront_twice_cycle. Qed.

Lemma push_of_member_cycles_witness :
  ∃ m, PushFront 1 (Node 11) emptyMem = Ret (Some (Node 11), m) ∧
  ∃ m', PushFront 1 (Node 11) m = Ret (Some (Node 11), m') ∧ traverse 1000 1 m' = NoFuel.
Proof.
  destruct (PushFront_refines emptyMem (fun _ => []) 1 11 empty_rep) as (m & Hrun & Hr).
  { intros l. set_solver. }
  exists m. split; [exact Hrun|].
  apply (push_of_member_cycles m _ 1 11 1000 Hr). rewrite fn_lookup_insert. set_solver.
Defined.

(** [MoveAfter] of an element that is in no list is a no-op: it does not insert
    the element (the sink's [AddEndpointAfter] calls it on a new endpoint). *)
Theorem move_detached_noop m Γ l n k :
  rep m Γ → detached Γ n → MoveAfter l (Node n) (Node k) m = Ret (tt, m).
Proof.
  intros Hr Hd. unfold MoveAfter, list_field. monad.
  rewrite decide_True; [done|]. left. rewrite (rep_member _ _ Hr). apply Hd.
Qed.

Lemma move_detached_noop_witness : MoveAfter 1 (Node 5) (Node 6) emptyMem = Ret (tt, emptyMem).
Proof. apply (move_detached_noop _ (fun _ => []) _ _ _ empty_rep). intros l. set_solver. Defined.
