(* ===== verification/Core.v ===== *)
(** * lc-lib/core: events and the back-off helper

    The data every other component passes around ([event.go], [stream.go]), the
    floating-point helpers of [util.go] and its exponential back-off. *)
From Stdlib Require Import SpecFloat.
From S2P Require Import Prelude.

(** A [Stream] is a pointer object identifying a file stream; [None] is the nil
    stream of standard input. *)
Abbreviation Stream := (option positive).

Record EventDescriptor := mkEventDescriptor {
  ed_Stream : Stream;
  ed_Offset : Z;
  ed_Event : list byte;
}.

#[global] Instance EventDescriptor_eq_dec : EqDecision EventDescriptor.
Proof. solve_decision. Defined.

(** ** Floating point

    [float64] is the IEEE binary64 format of the Standard Library's [SpecFloat];
    Go rounds every operation to nearest even, as these functions do. *)
Abbreviation float64 := spec_float.

Definition f64_of_Z (z : Z) : float64 := binary_normalize 53 1024 z 0 false.
Definition f64_add : float64 → float64 → float64 := SFadd 53 1024.
Definition f64_sub : float64 → float64 → float64 := SFsub 53 1024.
Definition f64_mul : float64 → float64 → float64 := SFmul 53 1024.
Definition f64_div : float64 → float64 → float64 := SFdiv 53 1024.
Definition f64_zero : float64 := S754_zero false.

(** The literal [n/d], rounded once as the Go compiler does. *)
Definition f64_lit (n d : Z) : float64 := f64_div (f64_of_Z n) (f64_of_Z d).

(** A value outside the range of int64 converts to the smallest int64, which is
    what the amd64 instruction Go uses yields (the language leaves it open). *)
Definition min_int64 : Z := (- 2 ^ 63)%Z.
Definition Z_to_int64 (z : Z) : Z :=
  if decide (- 2 ^ 63 ≤ z < 2 ^ 63)%Z then z else min_int64.

Definition f64_magnitude (round_up : bool) (m : positive) (e : Z) : Z :=
  if decide (0 ≤ e)%Z then (Z.pos m * 2 ^ e)%Z
  else if round_up then (- (- Z.pos m / 2 ^ (- e)))%Z else (Z.pos m / 2 ^ (- e))%Z.

(** Conversion to int64: truncation towards zero. *)
Definition f64_to_int64 (f : float64) : Z :=
  match f with
  | S754_zero _ => 0
  | S754_finite s m e =>
      Z_to_int64 (if s then - f64_magnitude false m e else f64_magnitude false m e)
  | _ => min_int64
  end%Z.

(** [int(math.Ceil(f))]. *)
Definition f64_ceil_int64 (f : float64) : Z :=
  match f with
  | S754_zero _ => 0
  | S754_finite s m e =>
      Z_to_int64 (if s then - f64_magnitude false m e else f64_magnitude true m e)
  | _ => min_int64
  end%Z.

(** ** Time: instants and durations in nanoseconds *)
Definition Nanosecond : Z := 1.
Definition Millisecond : Z := 1000000.
Definition Second : Z := 1000000000.

(** The zero [time.Time], January 1 of year 1, counted from the Unix epoch. *)
Definition zeroTime : Z := (- 62135596800 * Second)%Z.

(** [a.Sub(b)] saturates at the largest and smallest durations. *)
Definition time_Sub (a b : Z) : Z := Z.max (- 2 ^ 63) (Z.min (2 ^ 63 - 1) (a - b)).

(** ** [util.go]: exponential back-off

    [expCount] only ever holds a whole number far below 2^53, so [expCount++] is
    exact and [math.Pow(2, expCount)] is a power of two (or infinity); the
    product with [float64(delay)] then rounds only once, in the conversion of
    the delay, and is written with integers. *)
Definition expFactor : Z := 2.
Definition DefaultDelay : Z := Second.

Record ExpBackoff := mkBackoff {
  requiresInit : bool;
  defaultDelay : Z;
  maxDelay : Z;
  expCount : nat;
}.

Definition NewExpBackoff (default max : Z) : ExpBackoff := mkBackoff false default max 0.

(** An integer rounded to the 53 significant bits of a float64. *)
Definition round53 (z : Z) : Z :=
  match f64_of_Z z with
  | S754_finite s m e => if s then (- f64_magnitude false m e)%Z else f64_magnitude false m e
  | _ => 0
  end.

Definition float_delay (delay : Z) : Z :=
  if decide (Z.abs delay ≤ 2 ^ 53)%Z then delay else round53 delay.

Definition Trigger (e : ExpBackoff) : Z * ExpBackoff :=
  let d := if requiresInit e then DefaultDelay else defaultDelay e in
  let e := mkBackoff (requiresInit e) d (maxDelay e) (expCount e) in
  if decide (d = 0%Z ∧ expCount e = 0%nat)
  then (0%Z, mkBackoff (requiresInit e) d (maxDelay e) 1)
  else
    let delay := if decide (d = 0)%Z then DefaultDelay else d in
    let nextDelay := Z_to_int64 (float_delay delay * expFactor ^ Z.of_nat (expCount e)) in
    if decide (nextDelay < maxDelay e)%Z
    then (nextDelay, mkBackoff (requiresInit e) d (maxDelay e) (S (expCount e)))
    else (maxDelay e, e).

Definition Reset_backoff (e : ExpBackoff) : ExpBackoff :=
  mkBackoff (requiresInit e) (defaultDelay e) (maxDelay e) 0.

(** [n] triggers in a row: the delays. *)
Fixpoint triggers (n : nat) (e : ExpBackoff) : list Z :=
  match n with
  | O => []
  | S n' => let '(d, e') := Trigger e in d :: triggers n' e'
  end.

(** ** [util.go]: running averages.  [math.Exp] is a parameter. *)
Section Averages.
Context (math_Exp : float64 → float64).

Definition f64_is_zero (f : float64) : bool := SFeqb f f64_zero.

Definition CalculateRunningAverage (period totalPeriods average measurement : float64) : float64 :=
  if f64_is_zero average then measurement
  else f64_add measurement
         (f64_mul (math_Exp (f64_div period (SFopp totalPeriods))) (f64_sub average measurement)).

(** The pointer argument [secondsNoChange] is returned with the average. *)
Definition CalculateSpeed (duration : Z) (average measurement : float64) (secondsNoChange : Z)
  : float64 * Z :=
  let seconds := f64_div (f64_of_Z duration) (f64_of_Z Second) in
  let n := if f64_is_zero measurement then int64 (secondsNoChange + f64_ceil_int64 seconds) else 0%Z in
  if decide (5 ≤ n)%Z then (f64_zero, 0%Z)
  else (CalculateRunningAverage seconds (f64_of_Z 5) average measurement, n).
End Averages.

(** ** Back-off: properties *)

(** The documented schedule: doubling from the initial delay, capped. *)
Definition schedule (base max : Z) (k : nat) : Z := Z.min max (base * 2 ^ Z.of_nat k).

(** The delay computed is the exact power of two while the count is reachable. *)
Lemma delay_exact base max c :
  (0 < base ≤ 2 ^ 53)%Z → (max ≤ 2 ^ 61)%Z → c = 0%nat ∨ (base * 2 ^ (Z.of_nat c - 1) < max)%Z →
  Z_to_int64 (float_delay base * expFactor ^ Z.of_nat c) = (base * 2 ^ Z.of_nat c)%Z.
Proof.
  intros Hb Hm Hc. unfold float_delay. rewrite decide_True by lia.
  unfold Z_to_int64. rewrite decide_True; [done|]. change expFactor with 2%Z.
  pose proof (Z.pow_pos_nonneg 2 (Z.of_nat c)).
  assert (base * 2 ^ Z.of_nat c < 2 ^ 63)%Z; [|nia].
  destruct Hc as [->|Hc]; [simpl; lia|]. destruct c; [simpl; lia|].
  rewrite Nat2Z.inj_succ, Z.pow_succ_r by lia.
  replace (Z.of_nat (S c) - 1)%Z with (Z.of_nat c) in Hc by lia. lia.
Qed.

(** From count [c], having been triggered [k] times: either every trigger
    counted, or the cap was reached at [c]. *)
Lemma triggers_schedule base max b0 n c k :
  (0 < base ≤ 2 ^ 53)%Z → (max ≤ 2 ^ 61)%Z →
  b0 = base ∨ (b0 = 0 ∧ base = DefaultDelay)%Z ∧ (0 < c)%nat →
  (c ≤ k)%nat → c = k ∨ (max ≤ base * 2 ^ Z.of_nat c)%Z →
  c = 0%nat ∨ (base * 2 ^ (Z.of_nat c - 1) < max)%Z →
  triggers n (mkBackoff false b0 max c) = schedule base max <$> seq k n.
Proof.
  intros Hb Hm H0. revert c k H0. induction n as [|n IH]; intros c k H0 Hck Hcap Hc; [done|].
  assert (Hpow : (base * 2 ^ Z.of_nat c ≤ base * 2 ^ Z.of_nat k)%Z).
  { apply Z.mul_le_mono_nonneg_l; [lia|]. apply Z.pow_le_mono_r; lia. }
  cbn [triggers seq fmap list_fmap]. unfold Trigger. cbn [requiresInit defaultDelay maxDelay expCount].
  rewrite decide_False by (destruct H0 as [->|[_ ?]]; [|intros [_ ?]]; lia).
  replace (if decide (b0 = 0)%Z then DefaultDelay else b0) with base
    by (destruct H0 as [->|[[-> ->] _]]; case_decide; done || lia).
  rewrite (delay_exact base max c) by done. unfold schedule at 1.
  case_decide as Hlt.
  - assert (c = k) as -> by lia. f_equal; [lia|].
    apply IH; [destruct H0 as [|[? _]]; [by left|right; split; [done|lia]]|lia|by left|right].
    by replace (Z.of_nat (S k) - 1)%Z with (Z.of_nat k) by lia.
  - f_equal; [lia|]. apply IH; [done|lia|right; lia|done].
Qed.

(** C19. The back-off helper: with an initial delay it doubles at every trigger up
    to the maximum and stays there; with a zero initial delay the first retry is
    immediate and the next ones follow the doubling schedule of one second from
    its second entry on; a reset starts the schedule again.  So the first retry
    that waits waits two seconds, where the comment of [DefaultDelay] and
    docs/Configuration.md ("failure backoff", "reconnect backoff") say one: what
    the code does is stated here, not what they say. *)
Theorem backoff_schedule base max n :
  (0 < base ≤ 2 ^ 53)%Z → (0 < max ≤ 2 ^ 61)%Z →
  triggers n (NewExpBackoff base max) = schedule base max <$> seq 0 n ∧
  ((Second < max)%Z →
   triggers (S n) (NewExpBackoff 0 max) = 0%Z :: (schedule DefaultDelay max <$> seq 1 n)) ∧
  ∀ c, triggers n (Reset_backoff (mkBackoff false base max c)) = schedule base max <$> seq 0 n.
Proof.
  intros Hb Hm. split; [|split; [|intros c; apply triggers_schedule; simpl; auto; lia]].
  - apply triggers_schedule; auto; lia.
  - intros Hs. cbn [triggers]. unfold Trigger at 1. cbn. f_equal.
    apply triggers_schedule; [unfold DefaultDelay, Second; lia|lia|right; split; [done|lia]|done|by left|right].
    unfold DefaultDelay, Second in *. simpl. lia.
Qed.

Lemma backoff_schedule_witness :
  triggers 5 (NewExpBackoff (5 * Second) (60 * Second)) =
    [5 * Second; 10 * Second; 20 * Second; 40 * Second; 60 * Second]%Z ∧
  triggers 4 (NewExpBackoff 0 (60 * Second)) = [0; 2 * Second; 4 * Second; 8 * Second]%Z.
Proof.
  destruct (backoff_schedule (5 * Second) (60 * Second) 5) as (H & _); [unfold Second; lia..|].
  destruct (backoff_schedule (5 * Second) (60 * Second) 3) as (_ & H' & _); [unfold Second; lia..|].
  split; [exact H|apply H'; reflexivity].
Defined.

(** ** The environment

    What a Go program reads from outside at run time: the clock, random numbers
    and the order in which the runtime ranges over a map.  Reads are numbered, so
    two reads may differ; the laws are the documented ones. *)
Class Env := {
  clock : nat → Z;
  clock_mono : ∀ n, (clock n ≤ clock (S n))%Z;
  rand_Intn : nat → Z → Z;
  rand_Intn_range : ∀ n k, (0 < k → 0 ≤ rand_Intn n k < k)%Z;
  map_order : nat → list (list byte) → list (list byte);
  map_order_perm : ∀ n ks, map_order n ks ≡ₚ ks;
  math_Exp : float64 → float64;
}.

(** The network section of the configuration ([config.go]), as the publisher and
    its endpoints use it; [F] is the transport factory, address pools are
    pointers. *)
Record Network (F : Type) := mkNetwork {
  Factory : F;
  Backoff : Z;
  BackoffMax : Z;
  Timeout_ : Z;
  MaxPendingPayloads : Z;
  Method : list byte;
  Servers : list (list byte);
  AddressPools : list positive;
}.
Arguments mkNetwork {F}.
Arguments Factory {F}.
Arguments Backoff {F}.
Arguments BackoffMax {F}.
Arguments Timeout_ {F}.
Arguments MaxPendingPayloads {F}.
Arguments Method {F}.
Arguments Servers {F}.
Arguments AddressPools {F}.
