(* ===== verification/Payload.v ===== *)
(** * lc-lib/payload: a spool of events and its acknowledgement state *)
From S2P Require Import Prelude Core.

(** [Element] and [ResendElement] live in the list memory of [InternalList]; a
    payload is named there by the address of its structure. *)
Record Payload := mkPayload {
  events : list EventDescriptor;
  lastSequence : Z;
  sequenceLen : Z;
  ackEvents : Z;
  processed : Z;
  payload : option (list byte);
  Nonce : list byte;
  Resending : bool;
}.

Definition NewPayload (evs : list EventDescriptor) : Payload :=
  mkPayload evs 0 (zlen evs) 0 0 None [] false.

Definition Size (pp : Payload) : Z := sequenceLen pp.

(** A slice expression out of range panics. *)
Definition Events (pp : Payload) : outcome (list EventDescriptor) :=
  match slice (events pp) (ackEvents pp) (zlen (events pp)) with
  | Some l => Ret l
  | None => Panic
  end.

Definition Ack (pp : Payload) (sequence : Z) : Z * bool * Payload :=
  if decide (sequence ≤ lastSequence pp)%Z then (0%Z, false, pp)
  else if decide (sequenceLen pp ≤ sequence)%Z then
    ((sequenceLen pp - lastSequence pp)%Z, true,
     mkPayload (events pp) sequence (sequenceLen pp) (zlen (events pp))
       (processed pp) None (Nonce pp) (Resending pp))
  else
    let lines := (sequence - lastSequence pp)%Z in
    (lines, false,
     mkPayload (events pp) sequence (sequenceLen pp) (ackEvents pp + lines)
       (processed pp) None (Nonce pp) (Resending pp)).

Definition ResetSequence (pp : Payload) : Payload :=
  mkPayload (events pp) 0 (zlen (events pp) - ackEvents pp) (ackEvents pp)
    (processed pp) (payload pp) (Nonce pp) (Resending pp).

Definition HasAck (pp : Payload) : bool := negb (Z.eqb (ackEvents pp) 0).

Definition Complete (pp : Payload) : outcome bool :=
  rest ← Events pp; Ret (Z.eqb (zlen rest) 0).

Definition Rollup (pp : Payload) : outcome (list EventDescriptor * Payload) :=
  match slice (events pp) 0 (ackEvents pp), slice (events pp) (ackEvents pp) (zlen (events pp)) with
  | Some rollup, Some rest =>
      Ret (rollup, mkPayload rest (lastSequence pp) (sequenceLen pp) 0
                     (processed pp + ackEvents pp) (payload pp) (Nonce pp) (Resending pp))
  | _, _ => Panic
  end.

Definition set_Nonce (n : list byte) (pp : Payload) : Payload :=
  mkPayload (events pp) (lastSequence pp) (sequenceLen pp) (ackEvents pp)
    (processed pp) (payload pp) n (Resending pp).
Definition set_Resending (b : bool) (pp : Payload) : Payload :=
  mkPayload (events pp) (lastSequence pp) (sequenceLen pp) (ackEvents pp)
    (processed pp) (payload pp) (Nonce pp) b.

(** ** Histories of a payload *)

(** What may happen to a payload: the server acknowledges, the publisher
    resends it, or passes its acknowledged events to the registrar. *)
Inductive payload_op := PAck (sequence : Z) | PReset | PRollup.

(** Run a history, collecting the events rolled up. *)
Fixpoint run_payload (ops : list payload_op) (pp : Payload) : outcome (list EventDescriptor * Payload) :=
  match ops with
  | [] => Ret ([], pp)
  | PAck n :: ops' => run_payload ops' (snd (Ack pp n))
  | PReset :: ops' => run_payload ops' (ResetSequence pp)
  | PRollup :: ops' =>
      r ← Rollup pp; r' ← run_payload ops' (snd r); Ret (fst r ++ fst r', snd r')
  end.

(** ** The invariant *)

(** [ackEvents] stays inside [events]; while the sequence is not exhausted the
    unacknowledged events are exactly those of the sequence still to come. *)
Record payload_ok (pp : Payload) : Prop := mkPayloadOk {
  ok_ack : (0 ≤ ackEvents pp ≤ zlen (events pp))%Z;
  ok_last : (0 ≤ lastSequence pp)%Z;
  ok_seq : (lastSequence pp ≤ sequenceLen pp →
            sequenceLen pp - lastSequence pp = zlen (events pp) - ackEvents pp)%Z;
  ok_over : (sequenceLen pp < lastSequence pp → ackEvents pp = zlen (events pp))%Z;
}.

Lemma NewPayload_ok evs : payload_ok (NewPayload evs).
Proof. pose proof (zlen_nonneg evs). split; simpl; lia. Qed.

Lemma Ack_ok pp n : payload_ok pp → payload_ok (snd (Ack pp n)).
Proof.
  intros [Ha Hl Hs Ho]. unfold Ack. repeat case_decide; simpl; [by split|split; simpl; lia..].
Qed.

Lemma ResetSequence_ok pp : payload_ok pp → payload_ok (ResetSequence pp).
Proof. intros [Ha Hl Hs Ho]. split; simpl; lia. Qed.

Lemma Events_run pp :
  payload_ok pp → Events pp = Ret (drop (Z.to_nat (ackEvents pp)) (events pp)).
Proof. intros [Ha _ _ _]. unfold Events. by rewrite slice_full. Qed.

Lemma Rollup_run pp :
  payload_ok pp →
  ∃ pp', Rollup pp = Ret (take (Z.to_nat (ackEvents pp)) (events pp), pp') ∧
    payload_ok pp' ∧ events pp' = drop (Z.to_nat (ackEvents pp)) (events pp) ∧
    ackEvents pp' = 0%Z ∧ processed pp' = (processed pp + ackEvents pp)%Z.
Proof.
  intros [Ha Hl Hs Ho]. unfold Rollup. rewrite slice_full, slice_prefix by lia.
  eexists. split; [done|]. split; [|done].
  assert (Hd := zlen_drop (ackEvents pp) (events pp) ltac:(lia)).
  split; simpl; rewrite ?Hd; lia.
Qed.

Lemma Complete_run pp :
  payload_ok pp → Complete pp = Ret (bool_decide (ackEvents pp = zlen (events pp))).
Proof.
  intros Hok. unfold Complete. rewrite (Events_run _ Hok). monad. f_equal.
  destruct Hok as [Ha _ _ _]. rewrite zlen_drop by lia. case_bool_decide; lia.
Qed.

#[export] Hint Resolve NewPayload_ok Ack_ok ResetSequence_ok : courier.

Lemma events_Ack pp n : events (snd (Ack pp n)) = events pp.
Proof. unfold Ack. by repeat case_decide. Qed.

Lemma run_payload_ok ops pp :
  payload_ok pp →
  ∃ rolled pp', run_payload ops pp = Ret (rolled, pp') ∧ payload_ok pp' ∧
    rolled ++ events pp' = events pp ∧ processed pp' = (processed pp + zlen rolled)%Z.
Proof.
  revert pp. induction ops as [|[n| |] ops IH]; intros pp Hok; simpl.
  - eexists _, _. split; [done|]. autorewrite with courier_rw. split_and!; [done|done|lia].
  - destruct (IH (snd (Ack pp n))) as (r & pp' & -> & ? & He & Hp); [auto with courier|].
    rewrite events_Ack in He. eexists _, _. split; [done|]. split; [done|]. split; [done|].
    rewrite Hp. unfold Ack. by repeat case_decide.
  - destruct (IH (ResetSequence pp)) as (r & pp' & -> & ? & He & Hp); [auto with courier|].
    by eexists _, _.
  - destruct (Rollup_run pp Hok) as (pp1 & -> & Hok1 & He1 & Ha1 & Hp1).
    destruct (IH pp1 Hok1) as (r & pp' & Hrun & Hok' & He & Hp). monad. rewrite Hrun.
    eexists _, _. split; [done|]. split; [done|]. simpl.
    rewrite <-app_assoc, He, He1, take_drop, zlen_app, zlen_take, Hp, Hp1 by apply Hok.
    split; [done|lia].
Qed.

(** ** Properties *)

(** C7. No event is lost, repeated or reordered by a payload: whatever mixture of
    acknowledgements (of any sequence number), resends and roll-ups happens to a
    new payload, no slice expression panics, and the events passed to the
    registrar so far followed by those still held are the original spool; the
    [processed] counter counts the former. *)
Theorem payload_conserves_events evs ops :
  ∃ rolled pp rest, run_payload ops (NewPayload evs) = Ret (rolled, pp) ∧
    Events pp = Ret rest ∧ rolled ++ take (Z.to_nat (ackEvents pp)) (events pp) ++ rest = evs ∧
    processed pp = zlen rolled.
Proof.
  destruct (run_payload_ok ops (NewPayload evs)) as (r & pp & Hrun & Hok & He & Hp); [auto with courier|].
  eexists _, _, _. split; [done|]. split; [by apply Events_run|]. by rewrite take_drop.
Qed.

(** The meaning of an acknowledgement (docs/Protocol.md): while the payload is
    not over-acknowledged, [Ack n] acknowledges the events between the previous
    sequence number and [n], a number beyond the end counting as the end and a
    smaller one being ignored; the result is that number of events, the flag says
    that the payload is complete, and exactly these events leave [Events]. *)
Theorem payload_ack_meaning pp n :
  payload_ok pp → (lastSequence pp ≤ sequenceLen pp)%Z →
  let lines := Z.max 0 (Z.min n (sequenceLen pp) - lastSequence pp) in
  ∃ pp' rest, Ack pp n = (lines, bool_decide (lastSequence pp < n ∧ sequenceLen pp ≤ n)%Z, pp') ∧
    payload_ok pp' ∧
    Events pp = Ret rest ∧ Events pp' = Ret (drop (Z.to_nat lines) rest) ∧
    ((lastSequence pp < n ∧ sequenceLen pp ≤ n)%Z → Complete pp' = Ret true).
Proof.
  intros Hok Hle lines. pose proof (Ack_ok pp n Hok) as Hok'.
  exists (snd (Ack pp n)), (drop (Z.to_nat (ackEvents pp)) (events pp)).
  rewrite (Events_run _ Hok), (Events_run _ Hok'), (Complete_run _ Hok'), events_Ack, drop_drop.
  destruct Hok as [Ha Hl Hs Ho]. specialize (Hs Hle). clear Hok'.
  assert (Hok' := Ack_ok pp n (mkPayloadOk pp Ha Hl (fun _ => Hs) Ho)).
  refine (conj _ (conj Hok' (conj eq_refl (conj _ _)))).
  - unfold Ack. repeat case_decide; case_bool_decide; simpl; repeat f_equal; lia.
  - do 2 f_equal. unfold Ack. repeat case_decide; simpl; lia.
  - intros ?. unfold Ack. rewrite decide_False, decide_True by lia. simpl.
    by rewrite bool_decide_eq_true_2.
Qed.

Lemma payload_ack_meaning_witness :
  let e o := mkEventDescriptor None o [] in
  let pp := NewPayload [e 1%Z; e 2%Z; e 3%Z] in
  ∃ pp' rest, Ack pp 2 = (2%Z, false, pp') ∧ payload_ok pp' ∧ Events pp = Ret rest ∧
    Events pp' = Ret (drop 2 rest) ∧ ((0 < 2 ∧ 3 ≤ 2)%Z → Complete pp' = Ret true).
Proof. intros e pp. apply (payload_ack_meaning pp 2); [apply NewPayload_ok|vm_compute; discriminate]. Defined.

(** After [ResetSequence] a payload is numbered from its first unacknowledged
    event again: acknowledging [n] of the resent payload acknowledges exactly the
    first [n] events that were unacknowledged, and acknowledging as many as were
    resent completes it. *)
Theorem payload_resend_numbering pp n rest :
  payload_ok pp → Events pp = Ret rest → (0 < n ≤ zlen rest)%Z →
  ∃ pp', Ack (ResetSequence pp) n = (n, bool_decide (n = zlen rest), pp') ∧
    Size (ResetSequence pp) = zlen rest ∧
    Events pp' = Ret (drop (Z.to_nat n) rest).
Proof.
  intros Hok Hrest Hn. rewrite (Events_run _ Hok) in Hrest. injection Hrest as <-.
  pose proof (Ack_ok _ n (ResetSequence_ok _ Hok)) as Hok'. pose proof (ok_ack _ Hok) as Ha.
  rewrite zlen_drop in * by lia.
  exists (snd (Ack (ResetSequence pp) n)). rewrite (Events_run _ Hok'), events_Ack, drop_drop.
  split_and!; [|done|].
  - unfold Ack. simpl. repeat case_decide; case_bool_decide; simpl; repeat f_equal; lia.
  - do 2 f_equal. unfold Ack. simpl. repeat case_decide; simpl; lia.
Qed.

Lemma payload_resend_numbering_witness :
  let e o := mkEventDescriptor None o [] in
  let pp := snd (Ack (NewPayload [e 1%Z; e 2%Z; e 3%Z]) 1) in
  ∃ pp', Ack (ResetSequence pp) 2 = (2%Z, true, pp') ∧ Size (ResetSequence pp) = 2%Z ∧
    Events pp' = Ret [].
Proof.
  apply (payload_resend_numbering _ 2 [mkEventDescriptor None 2 []; mkEventDescriptor None 3 []]);
    [apply Ack_ok, NewPayload_ok|reflexivity|vm_compute; split; [reflexivity|discriminate]].
Defined.
