(* ===== verification/Codecs.v ===== *)
(** * lc-lib/codecs: pattern collections and the plain, filter and multiline codecs

    Text is a list of bytes.  Go's regular expressions are a parameter: a type
    of compiled expressions, [Compile] and [MatchString]; every theorem holds
    for any choice of them.  A codec's callback is called synchronously, so an
    operation returns the calls it made, in order. *)
From S2P Require Import Prelude Core.

Abbreviation text := (list byte).

(** One call of the callback: start offset, end offset, text. *)
Record emit := mkEmit { em_start : Z; em_end : Z; em_text : text }.

#[global] Instance emit_eq_dec : EqDecision emit.
Proof. solve_decision. Defined.

(** The [Codec] interface of [codecs.go].  [Event] reads the clock. *)
Class Codec (C : Type) := {
  Teardown : C → Z;
  Reset : C → C;
  Event : C → Z → Z → Z → text → outcome (C * list emit);
  Meter : C → C;
}.

(** Errors of the factories. *)
Inductive codec_error :=
| ErrNoPatterns
| ErrFilterNoPatterns
| ErrCompile (pattern : text)
| ErrUnknownMatch (match_ : text)
| ErrUnknownWhat (what_ : text)
| ErrMaxMultiline.

(** String constants as bytes. *)
Definition bytes_of (s : string) : text := String.list_byte_of_string s.

Definition newline : byte := "010"%byte.

(** [strings.Join(lines, sep)]. *)
Fixpoint join (lines : list text) : text :=
  match lines with
  | [] => []
  | [l] => l
  | l :: ls => l ++ newline :: join ls
  end.

Section Patterns.
Context {regex : Type} (Compile : text → option regex) (MatchString : regex → text → bool).

Record patternInstance := mkPattern { matcher : regex; negate : bool }.

(** A nil [patterns] slice is [None]. *)
Record PatternCollection := mkPatterns {
  patterns : option (list patternInstance);
  requiredMatches : Z;
}.

Definition noPatterns : PatternCollection := mkPatterns None 0.

(** The prefix of a pattern: reading [pattern[0]] of an empty string panics. *)
Definition split_prefix (pattern : text) : outcome (bool * text) :=
  match pattern with
  | [] => Panic
  | c :: rest =>
      Ret (if decide (c = "!"%byte) then (true, rest)
           else if decide (c = "="%byte) then (false, rest) else (false, pattern))
  end.

Fixpoint compile_all (ps : list text) : outcome (codec_error + list patternInstance) :=
  match ps with
  | [] => Ret (inr [])
  | p :: ps' =>
      np ← split_prefix p;
      match Compile (snd np) with
      | None => Ret (inl (ErrCompile (snd np)))
      | Some r =>
          rest ← compile_all ps';
          Ret (match rest with
               | inl e => inl e
               | inr pis => inr (mkPattern r (fst np) :: pis)
               end)
      end
  end.

Definition Set_ (ps : list text) (match_ : text) : outcome (codec_error + PatternCollection) :=
  match ps with
  | [] => Ret (inl ErrNoPatterns)
  | _ =>
      pis ← compile_all ps;
      Ret (match pis with
           | inl e => inl e
           | inr pis =>
               if decide (match_ = [] ∨ match_ = bytes_of "any")
               then inr (mkPatterns (Some pis) 1)
               else if decide (match_ = bytes_of "all")
               then inr (mkPatterns (Some pis) (zlen ps))
               else inl (ErrUnknownMatch match_)
           end)
  end.

Definition pattern_matches (t : text) (p : patternInstance) : bool :=
  negb (eqb (negate p) (MatchString (matcher p) t)).

Fixpoint match_loop (required : Z) (t : text) (ps : list patternInstance) (count : Z) : bool :=
  match ps with
  | [] => false
  | p :: ps' =>
      if pattern_matches t p
      then if decide (count + 1 = required)%Z then true
           else match_loop required t ps' (count + 1)
      else match_loop required t ps' count
  end.

Definition Match (c : PatternCollection) (t : text) : outcome bool :=
  match patterns c with
  | None => Panic
  | Some ps => Ret (match_loop (requiredMatches c) t ps 0)
  end.

(** ** The plain codec *)
Record CodecPlain := mkPlain { plain_lastOffset : Z }.

Definition NewCodecPlain (offset : Z) : CodecPlain := mkPlain offset.

#[export] Instance Codec_plain : Codec CodecPlain := {
  Teardown c := plain_lastOffset c;
  Reset c := c;
  Event c now startOffset endOffset t := Ret (mkPlain endOffset, [mkEmit startOffset endOffset t]);
  Meter c := c;
}.

(** ** The filter codec *)
Record CodecFilterFactory := mkFilterFactory {
  ff_patterns : PatternCollection;
}.

Definition NewFilterCodecFactory (Patterns : list text) (Match_ : text)
  : outcome (codec_error + CodecFilterFactory) :=
  if decide (Patterns = []) then Ret (inl ErrFilterNoPatterns)
  else
    r ← Set_ Patterns Match_;
    Ret (match r with inl e => inl e | inr c => inr (mkFilterFactory c) end).

Record CodecFilter := mkFilter {
  filter_config : CodecFilterFactory;
  filter_lastOffset : Z;
  filteredLines : Z;
  meterFiltered : Z;
}.

Definition NewCodecFilter (f : CodecFilterFactory) (offset : Z) : CodecFilter :=
  mkFilter f offset 0 0.

Definition filter_Event (c : CodecFilter) (startOffset endOffset : Z) (t : text)
  : outcome (CodecFilter * list emit) :=
  matched ← Match (ff_patterns (filter_config c)) t;
  Ret (if (matched : bool)
       then (mkFilter (filter_config c) endOffset (filteredLines c) (meterFiltered c),
             [mkEmit startOffset endOffset t])
       else (mkFilter (filter_config c) endOffset (filteredLines c + 1) (meterFiltered c), [])).

#[export] Instance Codec_filter : Codec CodecFilter := {
  Teardown c := filter_lastOffset c;
  Reset c := c;
  Event c now s e t := filter_Event c s e t;
  Meter c := mkFilter (filter_config c) (filter_lastOffset c) (filteredLines c) (filteredLines c);
}.

(** ** The multiline codec *)
Inductive multiline_what := WhatPrevious | WhatNext.

#[export] Instance multiline_what_eq_dec : EqDecision multiline_what.
Proof. solve_decision. Defined.

Record CodecMultilineFactory := mkMultilineFactory {
  mf_patterns : PatternCollection;
  what : multiline_what;
  PreviousTimeout : Z;
  MaxMultilineBytes : Z;
}.

Definition NewMultilineCodecFactory (spoolMaxBytes : Z) (Patterns : list text)
    (Match_ What : text) (timeout maxBytes : Z)
  : outcome (codec_error + CodecMultilineFactory) :=
  r ← Set_ Patterns Match_;
  Ret (match r with
       | inl e => inl e
       | inr ps =>
           let build w :=
             let maxBytes := if decide (maxBytes = 0)%Z then spoolMaxBytes else maxBytes in
             if decide (maxBytes > spoolMaxBytes)%Z then inl ErrMaxMultiline
             else inr (mkMultilineFactory ps w timeout maxBytes) in
           if decide (What = [] ∨ What = bytes_of "previous") then build WhatPrevious
           else if decide (What = bytes_of "next") then build WhatNext
           else inl (ErrUnknownWhat What)
       end).

(** The lock, the timer and the wait group are not state: [Event] and the
    deadline routine run one at a time under the lock. *)
Record CodecMultiline := mkMultiline {
  ml_config : CodecMultilineFactory;
  ml_lastOffset : Z;
  ml_endOffset : Z;
  ml_startOffset : Z;
  buffer : list text;
  bufferLines : Z;
  bufferLen : Z;
  timerDeadline : Z;
  meterLines : Z;
  meterBytes : Z;
}.

Definition NewCodecMultiline (f : CodecMultilineFactory) (offset now : Z) : CodecMultiline :=
  mkMultiline f offset offset 0 [] 0 0
    (if decide (PreviousTimeout f = 0)%Z then 0 else now + PreviousTimeout f)%Z 0 0.

Definition flush (c : CodecMultiline) : CodecMultiline * list emit :=
  if decide (buffer c = []) then (c, [])
  else
    (mkMultiline (ml_config c) (ml_endOffset c) (ml_endOffset c) (ml_startOffset c)
       [] 0 0 (timerDeadline c) (meterLines c) (meterBytes c),
     [mkEmit (ml_startOffset c) (ml_endOffset c) (join (buffer c))]).

Definition set_start (s : Z) (c : CodecMultiline) : CodecMultiline :=
  mkMultiline (ml_config c) (ml_lastOffset c) (ml_endOffset c) s (buffer c)
    (bufferLines c) (bufferLen c) (timerDeadline c) (meterLines c) (meterBytes c).

(** [c.endOffset = e; c.buffer = append(c.buffer, t)] and its counters. *)
Definition append_line (e : Z) (t : text) (len : Z) (c : CodecMultiline) : CodecMultiline :=
  mkMultiline (ml_config c) (ml_lastOffset c) e (ml_startOffset c) (buffer c ++ [t])
    (bufferLines c + 1) (bufferLen c + len) (timerDeadline c) (meterLines c) (meterBytes c).

Definition set_deadline (d : Z) (c : CodecMultiline) : CodecMultiline :=
  mkMultiline (ml_config c) (ml_lastOffset c) (ml_endOffset c) (ml_startOffset c) (buffer c)
    (bufferLines c) (bufferLen c) d (meterLines c) (meterBytes c).

(** The loop that cuts a line exceeding [MaxMultilineBytes]. *)
Fixpoint cut_loop (fuel : nat) (c : CodecMultiline) (endOffset : Z) (t : text) (textLen checkLen : Z)
  : outcome (CodecMultiline * text * Z * list emit) :=
  let max := MaxMultilineBytes (ml_config c) in
  if decide (checkLen < max)%Z then Ret (c, t, textLen, [])
  else
    match fuel with
    | O => NoFuel
    | S fuel' =>
        let overflow := (checkLen - max)%Z in
        let cut := (textLen - overflow)%Z in
        match slice t 0 cut, slice t cut (zlen t) with
        | Some head, Some tail =>
            let '(c1, out) := flush (append_line (endOffset - overflow) head cut c) in
            let c2 := set_start (ml_endOffset c1) c1 in
            let textLen' := (textLen - cut)%Z in
            r ← cut_loop fuel' c2 endOffset tail textLen' textLen';
            let '(c', t', n', out') := (r : CodecMultiline * text * Z * list emit) in
            Ret (c', t', n', out ++ out')
        | _, _ => Panic
        end
    end.

Definition multiline_Event (c : CodecMultiline) (now startOffset endOffset : Z) (t : text)
  : outcome (CodecMultiline * list emit) :=
  let f := ml_config c in
  matched ← Match (mf_patterns f) t;
  let '(c1, out1) :=
    if bool_decide (what f = WhatPrevious) && negb matched then flush c else (c, []) in
  let textLen := zlen t in
  let c2 := if decide (buffer c1 = []) then set_start startOffset c1 else c1 in
  let checkLen := (bufferLen c2 + textLen + bufferLines c2)%Z in
  r ← cut_loop (S (length t)) c2 endOffset t textLen checkLen;
  let '(c3, t', n', out2) := (r : CodecMultiline * text * Z * list emit) in
  let c4 := append_line endOffset t' n' c3 in
  Ret (if bool_decide (what f = WhatPrevious)
       then (if decide (PreviousTimeout f = 0)%Z then c4
             else set_deadline (now + PreviousTimeout f) c4, out1 ++ out2)
       else if negb matched
       then let '(c5, out3) := flush c4 in (c5, out1 ++ out2 ++ out3)
       else (c4, out1 ++ out2)).

#[export] Instance Codec_multiline : Codec CodecMultiline := {
  Teardown c := ml_lastOffset c;
  Reset c := mkMultiline (ml_config c) 0 (ml_endOffset c) (ml_startOffset c) [] 0 0
               (timerDeadline c) (meterLines c) (meterBytes c);
  Event c now s e t := multiline_Event c now s e t;
  Meter c := mkMultiline (ml_config c) (ml_lastOffset c) (ml_endOffset c) (ml_startOffset c)
               (buffer c) (bufferLines c) (bufferLen c) (timerDeadline c)
               (bufferLines c) (ml_endOffset c - ml_lastOffset c);
}.

(** One firing of the deadline routine's timer at time [now]; it runs only when
    [PreviousTimeout] is set, whatever [what] is.  The result says whether it
    flushed and when the timer fires next. *)
Definition deadline_tick (c : CodecMultiline) (now : Z) : CodecMultiline * list emit * Z :=
  if decide (now ≤ timerDeadline c)%Z
  then (c, [], timerDeadline c - now)%Z
  else let '(c', out) := flush c in (c', out, PreviousTimeout (ml_config c)).

(** ** The codecs behind the interface *)
Inductive AnyCodec :=
| Plain (c : CodecPlain)
| Filter (c : CodecFilter)
| Multiline (c : CodecMultiline).

Definition lift_codec {C} (wrap : C → AnyCodec) (r : outcome (C * list emit)) : outcome (AnyCodec * list emit) :=
  p ← r; Ret (wrap (fst p), snd p).

#[export] Instance Codec_any : Codec AnyCodec := {
  Teardown c := match c with Plain c => Teardown c | Filter c => Teardown c | Multiline c => Teardown c end;
  Reset c := match c with
             | Plain c => Plain (Reset c) | Filter c => Filter (Reset c)
             | Multiline c => Multiline (Reset c) end;
  Event c now s e t :=
    match c with
    | Plain c => lift_codec Plain (Event c now s e t)
    | Filter c => lift_codec Filter (Event c now s e t)
    | Multiline c => lift_codec Multiline (Event c now s e t)
    end;
  Meter c := match c with
             | Plain c => Plain (Meter c) | Filter c => Filter (Meter c)
             | Multiline c => Multiline (Meter c) end;
}.

(** The configuration side of the interface ([codecFactory]). *)
Inductive AnyFactory :=
| PlainFactory
| FilterFactory (f : CodecFilterFactory)
| MultilineFactory (f : CodecMultilineFactory).

Definition NewCodec (f : AnyFactory) (offset now : Z) : AnyCodec :=
  match f with
  | PlainFactory => Plain (NewCodecPlain offset)
  | FilterFactory f => Filter (NewCodecFilter f offset)
  | MultilineFactory f => Multiline (NewCodecMultiline f offset now)
  end.

(** ** Histories of a multiline codec *)

(** A line read by the harvester at time [now], or a firing of the timer. *)
Inductive ml_input :=
| MLine (now startOffset endOffset : Z) (t : text)
| MTick (now : Z).

Definition ml_step (c : CodecMultiline) (i : ml_input) : outcome (CodecMultiline * list emit) :=
  match i with
  | MLine now s e t => Event c now s e t
  | MTick now => Ret (fst (deadline_tick c now))
  end.

Fixpoint ml_run (c : CodecMultiline) (is_ : list ml_input) : outcome (CodecMultiline * list emit) :=
  match is_ with
  | [] => Ret (c, [])
  | i :: is' =>
      r ← ml_step c i; r' ← ml_run (fst r) is'; Ret (fst r', snd r ++ snd r')
  end.

Definition ml_bytes (i : ml_input) : text := match i with MLine _ _ _ t => t | MTick _ => [] end.

(** Lines in file order from offset [lo] on, each at least as long as its text. *)
Fixpoint in_order (lo : Z) (is_ : list ml_input) : Prop :=
  match is_ with
  | [] => True
  | MLine _ s e t :: is' => (lo ≤ s)%Z ∧ (s + zlen t ≤ e)%Z ∧ in_order e is'
  | MTick _ :: is' => in_order lo is'
  end.

Definition line_input (l : Z * Z * Z * text) : ml_input :=
  let '(now, s, e, t) := l in MLine now s e t.

(** The documented grouping (docs/codecs/Multiline.md), as complete blocks and
    the lines still pending: with "previous" a line that does not match starts a
    block, with "next" it ends one. *)
Fixpoint grouping {A : Type} (w : multiline_what) (matches : A → bool) (cur : list A) (ls : list A)
  : list (list A) * list A :=
  match ls with
  | [] => ([], cur)
  | l :: ls' =>
      if matches l then grouping w matches (cur ++ [l]) ls'
      else match w with
           | WhatPrevious =>
               let r := grouping w matches [l] ls' in
               (if decide (cur = []) then fst r else cur :: fst r, snd r)
           | WhatNext => let r := grouping w matches [] ls' in ((cur ++ [l]) :: fst r, snd r)
           end
  end.

(** ** The filter's reference: one line at a time *)
Fixpoint filter_run (c : CodecFilter) (ls : list emit) : outcome (CodecFilter * list emit) :=
  match ls with
  | [] => Ret (c, [])
  | l :: ls' =>
      r ← Event c 0 (em_start l) (em_end l) (em_text l);
      r' ← filter_run (fst r) ls'; Ret (fst r', snd r ++ snd r')
  end.

(** The meaning of a pattern string: "!" negates, "=" guards a literal "!". *)
Definition selects (t : text) (pattern : text) : bool :=
  match split_prefix pattern with
  | Ret (neg, e) => match Compile e with Some r => xorb neg (MatchString r t) | None => false end
  | _ => false
  end.

Definition compiles (pattern : text) : Prop :=
  ∃ neg e r, split_prefix pattern = Ret (neg, e) ∧ Compile e = Some r.

(** What a pattern list selects: any of its patterns, or all of them. *)
Definition selected (ps : list text) (match_ : text) (t : text) : bool :=
  if decide (match_ = bytes_of "all") then forallb (selects t) ps else existsb (selects t) ps.

(** What the cutting loop compares with the limit. *)
Definition checkLen (c : CodecMultiline) (t : text) : Z :=
  (bufferLen c + zlen t + bufferLines c)%Z.

(** ** Pattern matching *)
Definition matches_of (t : text) (ps : list patternInstance) : Z :=
  zlen (filter (fun p => pattern_matches t p = true) ps).

Lemma matches_of_cons t p ps :
  matches_of t (p :: ps) = ((if pattern_matches t p then 1 else 0) + matches_of t ps)%Z.
Proof.
  unfold matches_of. rewrite filter_cons. destruct (pattern_matches t p) eqn:E.
  - by rewrite decide_True, zlen_cons by done.
  - by rewrite decide_False by (cbn; congruence).
Qed.

Lemma matches_of_bound t ps : (0 ≤ matches_of t ps ≤ zlen ps)%Z.
Proof.
  induction ps as [|p ps IH]; [done|]. rewrite matches_of_cons, zlen_cons.
  destruct (pattern_matches t p); lia.
Qed.

Lemma match_loop_spec required t ps count :
  (count < required)%Z →
  match_loop required t ps count = bool_decide (required ≤ count + matches_of t ps)%Z.
Proof.
  revert count. induction ps as [|p ps IH]; intros count Hc; simpl.
  - rewrite bool_decide_eq_false_2; [done|]. unfold matches_of, zlen; simpl. lia.
  - rewrite matches_of_cons. pose proof (matches_of_bound t ps).
    destruct (pattern_matches t p); [case_decide|].
    + rewrite bool_decide_eq_true_2; [done|lia].
    + rewrite IH by lia. apply bool_decide_ext. lia.
    + by apply IH.
Qed.

Lemma matches_of_all t ps :
  bool_decide (zlen ps ≤ matches_of t ps)%Z = forallb (pattern_matches t) ps.
Proof.
  induction ps as [|p ps IH]; [done|]. simpl. rewrite <-IH, matches_of_cons, zlen_cons.
  pose proof (matches_of_bound t ps). destruct (pattern_matches t p); simpl.
  - apply bool_decide_ext. lia.
  - apply bool_decide_eq_false_2. lia.
Qed.

Lemma matches_of_any t ps :
  bool_decide (1 ≤ matches_of t ps)%Z = existsb (pattern_matches t) ps.
Proof.
  induction ps as [|p ps IH]; [done|]. simpl. rewrite <-IH, matches_of_cons.
  pose proof (matches_of_bound t ps). destruct (pattern_matches t p); simpl; [|done].
  apply bool_decide_eq_true_2. lia.
Qed.

Lemma compile_all_length ps pis : compile_all ps = Ret (inr pis) → length pis = length ps.
Proof.
  revert pis. induction ps as [|p ps IH]; intros pis; simpl; [by intros [= <-]|]. monad.
  destruct (split_prefix p) as [[neg p']| |]; simpl; [|done..].
  destruct (Compile p'); [|done]. destruct (compile_all ps) as [[e|pis']| |]; [done| |done..].
  intros [= <-]. simpl. by rewrite (IH pis').
Qed.

Lemma compile_all_selects t ps pis :
  compile_all ps = Ret (inr pis) → pattern_matches t <$> pis = selects t <$> ps.
Proof.
  revert pis. induction ps as [|p ps IH]; intros pis; simpl; [by intros [= <-]|]. monad.
  unfold selects at 1. destruct (split_prefix p) as [[neg p']| |]; simpl; [|done..].
  destruct (Compile p') as [r|]; [|done]. destruct (compile_all ps) as [[e|pis']| |]; [done| |done..].
  intros [= <-]. csimpl. rewrite (IH pis') by done. f_equal.
  unfold pattern_matches. simpl. by destruct neg, (MatchString r t).
Qed.

Lemma compile_all_panics ps :
  compile_all ps = Panic ↔ ∃ pre post, ps = pre ++ [] :: post ∧ Forall compiles pre.
Proof.
  split.
  - induction ps as [|p ps IH]; [done|]. simpl. monad.
    destruct p as [|c p']; [by exists [], ps|]. set (p := c :: p').
    destruct (split_prefix p) as [[neg e]| |] eqn:Es; [|by unfold split_prefix in Es|done].
    simpl. destruct (Compile e) as [r|] eqn:Ec; [|done].
    destruct (compile_all ps) as [[?|?]| |]; [done..| |done]. intros _.
    destruct IH as (pre & post & -> & Hpre); [done|]. exists (p :: pre), post.
    split; [done|]. constructor; [by exists neg, e, r|done].
  - intros (pre & post & -> & Hpre). induction Hpre as [|p pre (neg & e & r & Es & Ec) _ IH]; [done|].
    simpl. monad. rewrite Es. simpl. by rewrite Ec, IH.
Qed.

Lemma existsb_fmap {A} (f : A → bool) l : existsb f l = existsb id (f <$> l).
Proof. induction l as [|x l IH]; csimpl; [done|]. by rewrite IH. Qed.

Lemma forallb_fmap {A} (f : A → bool) l : forallb f l = forallb id (f <$> l).
Proof. induction l as [|x l IH]; csimpl; [done|]. by rewrite IH. Qed.

(** A collection that [Set_] accepted matches exactly the selected text. *)
Lemma Set_Match ps match_ pc t :
  Set_ ps match_ = Ret (inr pc) → Match pc t = Ret (selected ps match_ t).
Proof.
  unfold Set_. destruct ps as [|p0 ps0] eqn:Eps; [done|]. rewrite <-Eps. monad.
  destruct (compile_all ps) as [[?|pis]| |] eqn:Ec; [done| |done..].
  pose proof (compile_all_selects t _ _ Ec) as Hs. pose proof (compile_all_length _ _ Ec) as Hl.
  assert (Hpos : (0 < zlen pis)%Z) by (subst ps; unfold zlen; rewrite Hl; simpl; lia).
  unfold selected. rewrite (forallb_fmap (selects t)), (existsb_fmap (selects t)), <-Hs,
    <-(forallb_fmap (pattern_matches t)), <-(existsb_fmap (pattern_matches t)).
  unfold Match. case_decide as H1; [|case_decide as H2; [|done]]; intros [= <-]; simpl;
    rewrite match_loop_spec.
  - rewrite decide_False by (destruct H1 as [->| ->]; done). rewrite <-matches_of_any. by rewrite Z.add_0_l.
  - lia.
  - rewrite <-matches_of_all, Z.add_0_l. unfold zlen. by rewrite Hl.
  - unfold zlen in *. lia.
Qed.

Lemma Set_patterns ps match_ pc : Set_ ps match_ = Ret (inr pc) → patterns pc ≠ None.
Proof.
  unfold Set_. destruct ps; [done|]. monad. destruct (compile_all _) as [[?|?]| |]; [done| |done..].
  repeat case_decide; naive_solver.
Qed.

(** ** Joining *)
Lemma join_length (ls : list text) :
  ls ≠ [] → zlen (join ls) = (zlen (concat ls) + zlen ls - 1)%Z.
Proof.
  induction ls as [|l ls IH]; [done|]. intros _. destruct ls as [|l' ls].
  - simpl. autorewrite with courier_rw. lia.
  - change (join (l :: l' :: ls)) with (l ++ newline :: join (l' :: ls)).
    rewrite concat_cons, !zlen_app, !zlen_cons, IH by done. rewrite zlen_cons. lia.
Qed.

(** ** The multiline codec's invariant *)
Record multiline_ok (c : CodecMultiline) : Prop := mkMultilineOk {
  mlo_max : (0 < MaxMultilineBytes (ml_config c))%Z;
  mlo_lines : bufferLines c = zlen (buffer c);
  mlo_len : bufferLen c = zlen (concat (buffer c));
  mlo_fit : (bufferLen c + bufferLines c ≤ MaxMultilineBytes (ml_config c))%Z;
  mlo_pats : patterns (mf_patterns (ml_config c)) ≠ None;
}.

(** The end offset of the last event emitted, if any. *)
Definition last_end (d : Z) (out : list emit) : Z :=
  match last out with Some e => em_end e | None => d end.

Lemma last_end_app d out1 out2 : last_end d (out1 ++ out2) = last_end (last_end d out1) out2.
Proof.
  unfold last_end. destruct out2 as [|e out2 _] using rev_ind; [by rewrite app_nil_r|].
  by rewrite app_assoc, !last_snoc.
Qed.

(** What an operation that consumes the bytes [inp] guarantees about the new
    state and about what it emitted: nothing is lost or reordered, and no event
    is larger than the limit. *)
Record progress (c c' : CodecMultiline) (inp : text) (out : list emit) : Prop := mkProgress {
  pr_ok : multiline_ok c';
  pr_config : ml_config c' = ml_config c;
  pr_bytes : ∃ blocks, em_text <$> out = join <$> blocks ∧ Forall (fun b => b ≠ []) blocks ∧
     concat (buffer c) ++ inp = concat (concat blocks) ++ concat (buffer c');
  pr_size : Forall (fun e => zlen (em_text e) ≤ MaxMultilineBytes (ml_config c))%Z out;
  pr_last : ml_lastOffset c' = last_end (ml_lastOffset c) out;
}.

Lemma progress_trans c c1 c2 i1 i2 o1 o2 :
  progress c c1 i1 o1 → progress c1 c2 i2 o2 → progress c c2 (i1 ++ i2) (o1 ++ o2).
Proof.
  intros [Ho1 Hc1 (b1 & E1 & F1 & B1) S1 L1] [Ho2 Hc2 (b2 & E2 & F2 & B2) S2 L2].
  split; [done|congruence| | |].
  - exists (b1 ++ b2). rewrite !fmap_app, E1, E2. split; [done|]. split; [by apply Forall_app|].
    rewrite app_assoc, B1, concat_app, concat_app, <-!app_assoc. by rewrite B2.
  - apply Forall_app. rewrite Hc1 in S2. done.
  - by rewrite last_end_app, <-L1.
Qed.

Lemma progress_refl c : multiline_ok c → progress c c [] [].
Proof. intros Hok. split; [done|done| |done|done]. exists []. by rewrite app_nil_r. Qed.

Lemma flush_progress c : multiline_ok c → progress c (fst (flush c)) [] (snd (flush c)).
Proof.
  intros Hok. unfold flush. case_decide as Hb; [by apply progress_refl|].
  destruct Hok as [Hm Hl Hn Hf Hp]. split; simpl; [by split; simpl; rewrite ?zlen_nil; try lia|done| | |done].
  - exists [buffer c]. simpl. rewrite !app_nil_r. auto.
  - constructor; [|done]. simpl. rewrite join_length by done. lia.
Qed.

Lemma flush_buffer c : buffer (fst (flush c)) = [].
Proof. unfold flush. by case_decide. Qed.

(** ** Offsets *)

(** Events in order and not overlapping, from offset [lo] on. *)
Fixpoint ordered (lo : Z) (out : list emit) : Prop :=
  match out with
  | [] => True
  | e :: es => (lo ≤ em_start e)%Z ∧ (em_start e ≤ em_end e)%Z ∧ ordered (em_end e) es
  end.

Lemma ordered_app lo out1 out2 :
  ordered lo (out1 ++ out2) ↔ ordered lo out1 ∧ ordered (last_end lo out1) out2.
Proof.
  revert lo. induction out1 as [|e out1 IH]; intros lo; simpl; [tauto|].
  rewrite IH. replace (last_end (em_end e) out1) with (last_end lo (e :: out1)); [tauto|].
  change (e :: out1) with ([e] ++ out1). by rewrite last_end_app.
Qed.

(** Buffered text starts at or after the offset the codec would resume from, and
    lies before [hi]. *)
Definition placed (c : CodecMultiline) (hi : Z) : Prop :=
  (ml_lastOffset c ≤ hi)%Z ∧
  (buffer c ≠ [] → ml_lastOffset c ≤ ml_startOffset c ∧ ml_startOffset c ≤ ml_endOffset c ∧ ml_endOffset c ≤ hi)%Z.

Lemma flush_placed c hi :
  placed c hi → placed (fst (flush c)) hi ∧ ordered (ml_lastOffset c) (snd (flush c)).
Proof.
  intros [H1 H2]. unfold flush. case_decide as Hb; [done|]. specialize (H2 Hb).
  unfold placed. simpl. repeat split; try lia; done.
Qed.

(** ** Cutting long lines *)
Lemma append_progress c e t :
  multiline_ok c → (bufferLen c + zlen t + bufferLines c < MaxMultilineBytes (ml_config c))%Z →
  progress c (append_line e t (zlen t) c) t [].
Proof.
  intros [Hm Hl Hn Hf Hp] Hlt. split; simpl; [|done| |done|done].
  - split; simpl; rewrite ?zlen_app, ?zlen_cons, ?zlen_nil, ?concat_app, ?zlen_app; simpl; try lia; try done.
    rewrite app_nil_r. lia.
  - exists []. simpl. by rewrite concat_app, concat_cons, app_nil_r.
Qed.

Lemma set_start_progress c s : multiline_ok c → progress c (set_start s c) [] [].
Proof.
  intros Hok. split; simpl; [|done| |done|done]; [by destruct Hok; split|].
  exists []. by rewrite app_nil_r.
Qed.

(** One cut: the head of the line fills the buffer to the limit and is flushed. *)
Lemma cut_progress c e (head : text) :
  multiline_ok c → (bufferLen c + zlen head + bufferLines c = MaxMultilineBytes (ml_config c))%Z →
  progress c (fst (flush (append_line e head (zlen head) c))) head
    [mkEmit (ml_startOffset c) e (join (buffer c ++ [head]))] ∧
  snd (flush (append_line e head (zlen head) c)) =
    [mkEmit (ml_startOffset c) e (join (buffer c ++ [head]))] ∧
  ml_endOffset (fst (flush (append_line e head (zlen head) c))) = e ∧
  zlen (join (buffer c ++ [head])) = MaxMultilineBytes (ml_config c).
Proof.
  intros [Hm Hl Hn Hf Hp] Hcut.
  assert (Hne : buffer c ++ [head] ≠ []) by (by destruct (buffer c)).
  unfold flush. rewrite decide_False by done. simpl.
  assert (Hlen : zlen (join (buffer c ++ [head])) = MaxMultilineBytes (ml_config c)).
  { rewrite join_length, concat_app, !zlen_app, zlen_cons, zlen_nil by done. simpl.
    rewrite app_nil_r. lia. }
  split; [|done]. split; simpl; [split; simpl; rewrite ?zlen_nil; try lia; done|done| | |done].
  - exists [buffer c ++ [head]]. split; [done|]. split; [by constructor|].
    simpl. rewrite !app_nil_r, concat_app. simpl. by rewrite app_nil_r.
  - constructor; [|done]. simpl. lia.
Qed.

Lemma checkLen_empty c t : multiline_ok c → buffer c = [] → checkLen c t = zlen t.
Proof.
  intros [_ Hl Hn _ _] Hb. unfold checkLen. rewrite Hl, Hn, Hb. unfold zlen. simpl. lia.
Qed.

Lemma cut_step fuel c E t :
  multiline_ok c → (MaxMultilineBytes (ml_config c) ≤ checkLen c t)%Z →
  ∃ c2 head tail e, t = head ++ tail ∧ progress c c2 head [e] ∧
    em_start e = ml_startOffset c ∧ em_end e = (E - zlen tail)%Z ∧
    buffer c2 = [] ∧ ml_startOffset c2 = (E - zlen tail)%Z ∧
    (buffer c = [] → 0 < zlen head)%Z ∧
    cut_loop (S fuel) c E t (zlen t) (checkLen c t) =
      (r ← cut_loop fuel c2 E tail (zlen tail) (checkLen c2 tail);
       let '(c', t', n', out') := (r : CodecMultiline * text * Z * list emit) in
       Ret (c', t', n', [e] ++ out')).
Proof.
  intros Hok Hge. set (max := MaxMultilineBytes (ml_config c)) in *.
  set (over := (checkLen c t - max)%Z).
  assert (Hcut : (0 ≤ zlen t - over ≤ zlen t)%Z).
  { pose proof (mlo_fit _ Hok) as Hfit. unfold over, checkLen, max in *. lia. }
  set (head := take (Z.to_nat (zlen t - over)) t). set (tail := drop (Z.to_nat (zlen t - over)) t).
  assert (Hhead : zlen head = (zlen t - over)%Z) by (by apply zlen_take).
  assert (Htail : zlen tail = over) by (unfold tail; rewrite zlen_drop by done; lia).
  destruct (cut_progress c (E - over) head Hok) as (Hpr & Hout & Hend & _).
  { rewrite Hhead. unfold over, checkLen, max. lia. }
  pose proof (flush_buffer (append_line (E - over) head (zlen head) c)) as Hb1.
  destruct (flush (append_line (E - over) head (zlen head) c)) as [c1 o1] eqn:Ef.
  simpl in Hpr, Hout, Hend, Hb1. subst o1.
  set (e := mkEmit (ml_startOffset c) (E - over) (join (buffer c ++ [head]))) in *.
  assert (Hpr2 : progress c (set_start (E - over) c1) head [e]).
  { rewrite <-(app_nil_r head), <-(app_nil_r [e]). eapply progress_trans; [exact Hpr|].
    apply set_start_progress, Hpr. }
  exists (set_start (E - over) c1), head, tail, e. rewrite Htail.
  split; [symmetry; apply take_drop|]. do 4 (split; [done|]). split; [done|]. split.
  { intros Hb. rewrite Hhead. unfold over. rewrite checkLen_empty by done.
    pose proof (mlo_max _ Hok). unfold max. lia. }
  rewrite (checkLen_empty (set_start (E - over) c1)) by (apply Hpr2 || done).
  cbn [cut_loop]. fold max. rewrite decide_False by lia. fold over.
  rewrite slice_prefix, slice_full by done. fold head tail. rewrite Hhead in Ef. rewrite Ef, Hend, Htail.
  replace (zlen t - (zlen t - over))%Z with over by lia. done.
Qed.

Lemma cut_loop_run fuel c E t :
  multiline_ok c →
  (length t + (if decide (buffer c = []) then 0 else 1) ≤ fuel)%nat →
  ∃ c' t' used out, cut_loop fuel c E t (zlen t) (checkLen c t) = Ret (c', t', zlen t', out) ∧
    t = used ++ t' ∧ progress c c' used out ∧
    (checkLen c' t' < MaxMultilineBytes (ml_config c'))%Z ∧
    (out = [] → c' = c ∧ t' = t) ∧ (out ≠ [] → buffer c' = []) ∧
    (ml_lastOffset c ≤ ml_startOffset c → ml_startOffset c ≤ E - zlen t →
     ml_lastOffset c' ≤ ml_startOffset c' ∧
     ml_startOffset c' ≤ E - zlen t' ∧ ordered (ml_lastOffset c) out)%Z.
Proof.
  revert c t. induction fuel as [|fuel IH]; intros c t Hok Hfuel;
    (destruct (decide (checkLen c t < MaxMultilineBytes (ml_config c))%Z) as [Hlt|Hge];
     [exists c, t, [], []; split; [cbn [cut_loop]; by rewrite decide_True by done|];
      split; [done|]; split; [by apply progress_refl|]; split; [done|]; split; [done|];
      split; [done|]; intros; simpl; auto|]).
  - exfalso. pose proof (mlo_max _ Hok). case_decide as Hb; [|lia].
    rewrite checkLen_empty in Hge by done. unfold zlen in Hge. lia.
  - destruct (cut_step fuel c E t Hok) as (c2 & head & tail & e & -> & Hpr & Hs & He & Hb & Hst & Hpos & ->);
      [lia|].
    destruct (IH c2 tail) as (c' & t' & used & out & -> & -> & Hpr' & Hlt & Hnil & Hcons & Hord).
    { apply Hpr. } { rewrite decide_True by done. rewrite length_app in Hfuel.
      case_decide as Hbc; [specialize (Hpos Hbc); unfold zlen in Hpos|]; lia. }
    exists c', t', (head ++ used), ([e] ++ out). split; [done|]. split; [by rewrite app_assoc|].
    split; [by eapply progress_trans|]. split; [done|]. split; [done|].
    split; [intros _; destruct (decide (out = [])) as [->|]; [by destruct (Hnil eq_refl) as [-> _]|auto]|].
    intros Hl Hp. pose proof (pr_last _ _ _ _ Hpr) as Hlast. unfold last_end in Hlast. simpl in Hlast.
    rewrite !zlen_app in *. pose proof (zlen_nonneg head). destruct Hord as (H1 & H2 & H3); [lia|lia|].
    rewrite Hlast in H3. simpl. repeat split; try lia. done.
Qed.

Lemma set_deadline_progress c d : multiline_ok c → progress c (set_deadline d c) [] [].
Proof.
  intros Hok. split; simpl; [|done| |done|done]; [by destruct Hok; split|].
  exists []. by rewrite app_nil_r.
Qed.

Lemma Match_run (pc : PatternCollection) t : patterns pc ≠ None → ∃ b, Match pc t = Ret b.
Proof. unfold Match. destruct (patterns pc); [eauto|done]. Qed.

(** The conditional flush that opens [Event]. *)
Lemma maybe_flush (b : bool) c hi :
  multiline_ok c →
  ∃ c' out, (if b then flush c else (c, [])) = (c', out) ∧ progress c c' [] out ∧
    (placed c hi → placed c' hi ∧ ordered (ml_lastOffset c) out).
Proof.
  intros Hok. destruct b.
  - exists (fst (flush c)), (snd (flush c)). split; [by destruct (flush c)|].
    split; [by apply flush_progress|apply flush_placed].
  - exists c, []. split; [done|]. split; [by apply progress_refl|done].
Qed.

Lemma Event_run c now s e t :
  multiline_ok c →
  ∃ c' out, multiline_Event c now s e t = Ret (c', out) ∧ progress c c' t out ∧
    (placed c s → s + zlen t ≤ e → placed c' e ∧ ordered (ml_lastOffset c) out)%Z.
Proof.
  intros Hok. destruct (Match_run (mf_patterns (ml_config c)) t (mlo_pats _ Hok)) as [b Hb].
  unfold multiline_Event. rewrite Hb. monad.
  destruct (maybe_flush (bool_decide (what (ml_config c) = WhatPrevious) && negb b) c s Hok)
    as (c1 & o1 & -> & Hp1 & Hord1). cbn zeta.
  set (c2 := if decide (buffer c1 = []) then set_start s c1 else c1).
  assert (Hp2 : progress c1 c2 [] []).
  { unfold c2. case_decide; [apply set_start_progress|apply progress_refl]; apply Hp1. }
  assert (Hpl2 : (placed c1 s → ml_lastOffset c2 ≤ ml_startOffset c2 ∧ ml_startOffset c2 ≤ s)%Z).
  { intros [Ha Hc]. unfold c2. case_decide; simpl; [lia|]. specialize (Hc H). lia. }
  destruct (cut_loop_run (S (length t)) c2 e t) as (c3 & t' & used & o2 & Hrun & Ht & Hp3 & Hlt & _ & _ & Hord3);
    [apply Hp2|case_decide; lia|].
  change (bufferLen c2 + zlen t + bufferLines c2)%Z with (checkLen c2 t). rewrite Hrun.
  pose proof (append_progress c3 e t' (pr_ok _ _ _ _ Hp3) Hlt) as Hp4.
  assert (Hp : progress c (append_line e t' (zlen t') c3) t (o1 ++ o2)).
  { pose proof (progress_trans _ _ _ _ _ _ _ (progress_trans _ _ _ _ _ _ _
      (progress_trans _ _ _ _ _ _ _ Hp1 Hp2) Hp3) Hp4) as H. rewrite !app_nil_r in H. by rewrite Ht. }
  assert (Hpl : (placed c s → s + zlen t ≤ e →
            placed (append_line e t' (zlen t') c3) e ∧ ordered (ml_lastOffset c) (o1 ++ o2))%Z).
  { intros Hpl Hse. destruct (Hord1 Hpl) as [Hpl1 Ho1]. destruct (Hpl2 Hpl1).
    destruct Hord3 as (Ha & Hb' & Ho2); [lia..|]. pose proof (zlen_nonneg t').
    split; [unfold placed; simpl; split; [|intros _]; lia|].
    rewrite ordered_app. split; [done|].
    rewrite <-(pr_last _ _ _ _ Hp1). rewrite (pr_last _ _ _ _ Hp2) in Ho2. exact Ho2. }
  clear Hord1 Hpl2 Hord3 Hp1 Hp2 Hp3 Hp4 Hrun. case_bool_decide.
  - eexists _, _. split; [reflexivity|]. case_decide; [done|]. split; [|exact Hpl].
    rewrite <-(app_nil_r t), <-(app_nil_r (o1 ++ o2)). eapply progress_trans; [exact Hp|].
    apply set_deadline_progress, Hp.
  - destruct (maybe_flush (negb b) (append_line e t' (zlen t') c3) e)
      as (c5 & o3 & Hf & Hp5 & Hord5); [apply Hp|].
    exists c5, (o1 ++ o2 ++ o3). rewrite (app_assoc o1). split; [|split].
    + destruct (negb b); rewrite Hf || injection Hf as <- <-; by rewrite ?app_nil_r, ?(app_assoc o1).
    + rewrite <-(app_nil_r t). by eapply progress_trans.
    + intros H1 H2. destruct (Hpl H1 H2) as [Ha Ho]. destruct (Hord5 Ha) as [Hb' Ho']. split; [done|].
      apply ordered_app. split; [done|]. by rewrite (pr_last _ _ _ _ Hp) in Ho'.
Qed.

Lemma ml_step_run c i lo :
  multiline_ok c →
  ∃ c' out, ml_step c i = Ret (c', out) ∧ progress c c' (ml_bytes i) out ∧
    (placed c lo → in_order lo [i] →
     placed c' (match i with MLine _ _ e _ => e | MTick _ => lo end) ∧ ordered (ml_lastOffset c) out).
Proof.
  intros Hok. destruct i as [now s e t|now]; simpl.
  - destruct (Event_run c now s e t Hok) as (c' & out & Hrun & Hp & Hpl).
    exists c', out. split; [exact Hrun|]. split; [done|]. intros [Ha Hb] (Hlo & Hse & _).
    apply Hpl; [|done]. split; [lia|]. intros Hne. specialize (Hb Hne). lia.
  - unfold deadline_tick. case_decide; simpl.
    + exists c, []. split; [done|]. split; [by apply progress_refl|done].
    + pose proof (flush_progress c Hok). pose proof (flush_placed c lo).
      destruct (flush c) as [c' out]. exists c', out. split; [done|]. auto.
Qed.

Lemma ml_run_spec c is_ :
  multiline_ok c →
  ∃ c' out, ml_run c is_ = Ret (c', out) ∧ progress c c' (concat (ml_bytes <$> is_)) out ∧
    ∀ lo, placed c lo → in_order lo is_ → ordered (ml_lastOffset c) out.
Proof.
  revert c. induction is_ as [|i is_ IH]; intros c Hok.
  { exists c, []. split; [done|]. split; [by apply progress_refl|done]. }
  destruct (ml_step_run c i 0 Hok) as (c1 & o1 & Hrun & Hp1 & _).
  destruct (IH c1 (pr_ok _ _ _ _ Hp1)) as (c2 & o2 & Hrun2 & Hp2 & Hord2).
  exists c2, (o1 ++ o2). split; [cbn [ml_run]; rewrite Hrun; monad; by rewrite Hrun2|].
  split; [by eapply progress_trans|]. intros lo Hpl Hin.
  destruct (ml_step_run c i lo Hok) as (c1' & o1' & Hrun' & _ & Hord).
  rewrite Hrun in Hrun'. injection Hrun' as <- <-.
  destruct Hord as [Hpl1 Ho1]; [done|by destruct i; simpl in *; intuition|].
  apply ordered_app. split; [done|]. rewrite <-(pr_last _ _ _ _ Hp1).
  eapply Hord2; [exact Hpl1|]. destruct i; simpl in Hin; intuition.
Qed.

Lemma NewCodecMultiline_ok f offset now :
  (0 < MaxMultilineBytes f)%Z → patterns (mf_patterns f) ≠ None →
  multiline_ok (NewCodecMultiline f offset now).
Proof. intros. split; simpl; rewrite ?zlen_nil; try lia; done. Qed.

(** ** Lines that fit *)
Lemma join_snoc_len ls t :
  zlen (join (ls ++ [t])) = (zlen (concat ls) + zlen t + zlen ls)%Z.
Proof.
  rewrite join_length by (by destruct ls). rewrite concat_app, !zlen_app. simpl.
  rewrite app_nil_r, zlen_cons, zlen_nil. lia.
Qed.

(** The loop does nothing when the line fits. *)
Lemma cut_loop_fits c1 s e t :
  (checkLen c1 t < MaxMultilineBytes (ml_config c1))%Z →
  let c2 := if decide (buffer c1 = []) then set_start s c1 else c1 in
  cut_loop (S (length t)) c2 e t (zlen t) (bufferLen c2 + zlen t + bufferLines c2) = Ret (c2, t, zlen t, []) ∧
  buffer c2 = buffer c1 ∧ ml_config c2 = ml_config c1.
Proof.
  intros Hlt c2. assert (Hc2 : (bufferLen c2 + zlen t + bufferLines c2 = checkLen c1 t)%Z ∧
    ml_config c2 = ml_config c1 ∧ buffer c2 = buffer c1) by (unfold c2; by case_decide).
  destruct Hc2 as (-> & Hcfg & Hb). split; [|done]. cbn [cut_loop]. by rewrite Hcfg, decide_True.
Qed.

Lemma flush_ok_empty c : multiline_ok c → checkLen (fst (flush c)) [] = 0%Z.
Proof.
  intros Hok. rewrite checkLen_empty; [done|apply flush_progress, Hok|apply flush_buffer].
Qed.

Lemma flush_texts c : em_text <$> snd (flush c) = if decide (buffer c = []) then [] else [join (buffer c)].
Proof. unfold flush. by case_decide. Qed.

Lemma Event_fits c now s e t b (w := what (ml_config c))
    (cur := if bool_decide (w = WhatPrevious) && negb b then [] else buffer c) :
  multiline_ok c → Match (mf_patterns (ml_config c)) t = Ret b →
  (zlen (join (cur ++ [t])) < MaxMultilineBytes (ml_config c))%Z →
  ∃ c' out, multiline_Event c now s e t = Ret (c', out) ∧ multiline_ok c' ∧ ml_config c' = ml_config c ∧
    em_text <$> out =
      match w, b with
      | _, true => []
      | WhatPrevious, false => if decide (buffer c = []) then [] else [join (buffer c)]
      | WhatNext, false => [join (buffer c ++ [t])]
      end ∧
    buffer c' = match w, b with
                | _, true => buffer c ++ [t]
                | WhatPrevious, false => [t]
                | WhatNext, false => []
                end.
Proof.
  intros Hok Hm Hfit. destruct (Event_run c now s e t Hok) as (c' & out & Hrun & Hp & _).
  exists c', out. split; [done|]. split; [apply Hp|]. split; [apply Hp|].
  rewrite join_snoc_len in Hfit. revert Hrun. clear Hp. unfold multiline_Event. rewrite Hm. monad.
  set (c1o := if bool_decide (what (ml_config c) = WhatPrevious) && negb b then flush c else (c, [])).
  assert (H1 : (checkLen (fst c1o) t < MaxMultilineBytes (ml_config (fst c1o)))%Z ∧ buffer (fst c1o) = cur).
  { unfold c1o, cur, w in *. destruct (bool_decide _ && negb b).
    - rewrite checkLen_empty, (pr_config _ _ _ _ (flush_progress c Hok));
        [|apply flush_progress, Hok|apply flush_buffer]. split; [|apply flush_buffer].
      unfold zlen in *. simpl in *. lia.
    - destruct Hok as [_ Hl Hn _ _]. split; [|done]. simpl. unfold checkLen. lia. }
  destruct c1o as [c1 o1] eqn:E1. simpl in H1. destruct H1 as [Hlt Hcur]. cbn zeta.
  pose proof (cut_loop_fits c1 s e t Hlt) as Hc2. cbn zeta in Hc2.
  remember (if decide (buffer c1 = []) then set_start s c1 else c1) as c2 eqn:Ec2. clear Ec2.
  destruct Hc2 as (-> & Hb2 & Hcfg2).
  assert (Hcfg : ml_config c1 = ml_config c).
  { unfold c1o in E1. destruct (_ && _); [|by injection E1 as <-].
    pose proof (pr_config _ _ _ _ (flush_progress c Hok)) as Hc. by rewrite E1 in Hc. }
  pose proof (flush_texts c) as Hft. unfold c1o in E1. fold w in E1 |- *. unfold cur in *. clearbody w.
  destruct w, b; simpl in E1, Hcur |- *; try (injection E1 as <- <-).
  - intros [= <- <-]. destruct (decide (PreviousTimeout _ = _)); simpl; by rewrite Hb2.
  - rewrite E1 in Hft. simpl in Hft. rewrite app_nil_r. intros [= <- <-].
    rewrite Hft. destruct (decide (PreviousTimeout _ = _)); simpl; by rewrite Hb2, Hcur.
  - intros [= <- <-]. simpl. by rewrite Hb2.
  - unfold flush. simpl. rewrite Hb2. rewrite decide_False by (by destruct (buffer c)).
    by intros [= <- <-].
Qed.

(** ** The reference grouping *)
Lemma grouping_prefix {A} w (m : A → bool) cur ls :
  ∃ h tl, fst (grouping w m cur ls) ++ [snd (grouping w m cur ls)] = h :: tl ∧ cur `prefix_of` h.
Proof.
  revert cur. induction ls as [|l ls IH]; intros cur; simpl; [by exists cur, []|].
  destruct (m l).
  - destruct (IH (cur ++ [l])) as (h & tl & -> & Hp). exists h, tl. split; [done|].
    etrans; [|exact Hp]. by apply prefix_app_r.
  - destruct w; simpl.
    + case_decide as Hc; simpl; [|by eexists _, _].
      destruct (IH [l]) as (h & tl & -> & Hp). exists h, tl. subst. split; [done|]. apply prefix_nil.
    + eexists _, _. split; [done|]. by apply prefix_app_r.
Qed.

Lemma join_prefix_le (a b : list text) : a ≠ [] → a `prefix_of` b → (zlen (join a) ≤ zlen (join b))%Z.
Proof.
  intros Ha [k ->]. rewrite !join_length by (by destruct a). rewrite concat_app, !zlen_app.
  pose proof (zlen_nonneg (concat k)). pose proof (zlen_nonneg k). lia.
Qed.

Lemma grouping_run (m : text → bool) ls c (r := grouping (what (ml_config c)) m (buffer c) (snd <$> ls)) :
  multiline_ok c → (∀ t, Match (mf_patterns (ml_config c)) t = Ret (m t)) →
  Forall (fun b => zlen (join b) < MaxMultilineBytes (ml_config c))%Z (fst r ++ [snd r]) →
  ∃ c' out, ml_run c (line_input <$> ls) = Ret (c', out) ∧
    em_text <$> out = join <$> fst r ∧ buffer c' = snd r.
Proof.
  revert c r. induction ls as [|[[[now s] e] t] ls IH]; intros c r Hok Hm Hfit; [by exists c, []|].
  assert (Hext : ∃ h, h ∈ fst r ++ [snd r] ∧
    (if bool_decide (what (ml_config c) = WhatPrevious) && negb (m t) then [] else buffer c) ++ [t] `prefix_of` h).
  { unfold r. csimpl. destruct (m t) eqn:Em; [rewrite andb_false_r|].
    - destruct (grouping_prefix (what (ml_config c)) m (buffer c ++ [t]) (snd <$> ls)) as (h & tl & -> & Hp).
      exists h. split; [apply list_elem_of_here|done].
    - destruct (what (ml_config c)); simpl.
      + destruct (grouping_prefix WhatPrevious m [t] (snd <$> ls)) as (h & tl & Hh & Hp). exists h. split; [|done].
        destruct (grouping WhatPrevious m [t] (snd <$> ls)) as [gs lst]. simpl in Hh.
        case_decide; simpl; rewrite Hh; set_solver.
      + eexists. split; [apply list_elem_of_here|done]. }
  destruct Hext as (h & Hh & Hpre). rewrite Forall_forall in Hfit.
  destruct (Event_fits c now s e t (m t) Hok (Hm t)) as (c1 & o1 & Hrun & Hok1 & Hcfg & Ho & Hb).
  { eapply Z.le_lt_trans; [apply join_prefix_le; [|exact Hpre]|by apply Hfit]. by intros [_ ?]%app_eq_nil. }
  assert (Hr : r = (let r' := grouping (what (ml_config c1)) m (buffer c1) (snd <$> ls) in
    (match what (ml_config c), m t with
     | _, true => fst r'
     | WhatPrevious, false => if decide (buffer c = []) then fst r' else buffer c :: fst r'
     | WhatNext, false => (buffer c ++ [t]) :: fst r'
     end, snd r'))).
  { unfold r. rewrite Hcfg, Hb. csimpl. destruct (m t), (what (ml_config c));
      try apply surjective_pairing; reflexivity. }
  destruct (IH c1) as (c2 & o2 & Hrun2 & Ho2 & Hb2); [done|by rewrite Hcfg| |].
  { rewrite Hcfg, Forall_forall. intros b Hbin. rewrite <-Hcfg in Hbin. apply Hfit. rewrite Hr. simpl.
    clear - Hbin. destruct (what (ml_config c)), (m t); repeat case_decide; set_solver. }
  exists c2, (o1 ++ o2). split; [|split].
  - csimpl. cbn [ml_run ml_step line_input]. unfold Event, Codec_multiline. rewrite Hrun. monad. by rewrite Hrun2.
  - rewrite fmap_app, Ho, Ho2, Hr. simpl.
    destruct (what (ml_config c)), (m t); repeat case_decide; done.
  - by rewrite Hb2, Hr.
Qed.

(** ** The filter codec *)
Lemma filter_run_spec ps match_ c ls :
  Set_ ps match_ = Ret (inr (ff_patterns (filter_config c))) →
  filter_run c ls =
    Ret (mkFilter (filter_config c) (last_end (filter_lastOffset c) ls)
           (filteredLines c + zlen (filter (fun l => selected ps match_ (em_text l) = false) ls)) (meterFiltered c),
         filter (fun l => selected ps match_ (em_text l) = true) ls).
Proof.
  revert c. induction ls as [|[s e t] ls IH]; intros c Hset; simpl.
  { destruct c as [f o n m]. unfold zlen. simpl. by rewrite Z.add_0_r. }
  unfold filter_Event. rewrite (Set_Match _ _ _ _ Hset). monad.
  change (mkEmit s e t :: ls) with ([mkEmit s e t] ++ ls).
  rewrite !filter_app, last_end_app, zlen_app.
  destruct (selected ps match_ t) eqn:Es; rewrite IH by done; simpl; rewrite !filter_cons, !filter_nil;
    simpl; rewrite Es; repeat case_decide; simplify_eq; rewrite ?zlen_cons; change (zlen []) with 0%Z; rewrite ?Z.add_0_l, ?Z.add_0_r, ?Z.add_assoc; try done.
Qed.

(** ** Properties *)

(** A pattern list accepted by [Set_] selects text as documented: with
    "any" (or nothing) some pattern must match, with "all" each one must, a "!"
    prefix negating and an "=" prefix being dropped; [Match] never panics then. *)
Theorem pattern_collection_match ps match_ pc :
  Set_ ps match_ = Ret (inr pc) →
  (match_ = [] ∨ match_ = bytes_of "any" ∨ match_ = bytes_of "all") ∧ Forall compiles ps ∧
  ∀ t, Match pc t = Ret (if decide (match_ = bytes_of "all") then forallb (selects t) ps
                         else existsb (selects t) ps).
Proof.
  intros Hset. split; [|split; [|intros t; by apply Set_Match]].
  - revert Hset. unfold Set_. destruct ps; [done|]. monad. destruct (compile_all _) as [[?|?]| |]; [done| |done..].
    repeat case_decide; naive_solver.
  - assert (Hc : ∃ pis, compile_all ps = Ret (inr pis)).
    { revert Hset. unfold Set_. destruct ps; [done|]. monad. destruct (compile_all _) as [[?|?]| |]; naive_solver. }
    clear Hset. destruct Hc as [pis Hc]. revert pis Hc. induction ps as [|p ps IH]; intros pis; [constructor|].
    simpl. monad. destruct (split_prefix p) as [[neg p']| |] eqn:Es; simpl; [|done..].
    destruct (Compile p') as [r|] eqn:Er; [|done]. destruct (compile_all ps) as [[?|pis']| |]; [done| |done..].
    intros _. constructor; [by exists neg, p', r|by eapply IH].
Qed.

(** Building a pattern collection panics exactly when an empty pattern
    string is reached, all the patterns before it being valid; it never fails to
    terminate. *)
Theorem pattern_set_panics ps match_ :
  (Set_ ps match_ = Panic ↔ ∃ pre post, ps = pre ++ [] :: post ∧ Forall compiles pre) ∧
  Set_ ps match_ ≠ NoFuel.
Proof.
  assert (Hnf : compile_all ps ≠ NoFuel).
  { induction ps as [|[|c p] ps IH]; [done..|]. simpl. monad. case_goal; congruence. }
  unfold Set_. destruct ps as [|p ps].
  - split; [|done]. split; [done|]. by intros ([|] & ? & ? & ?).
  - rewrite <-compile_all_panics. monad. destruct (compile_all (p :: ps)) as [[?|?]| |]; [by split..|by split|done].
Qed.

(** C17. A filter codec passes on exactly the selected lines, unchanged and in
    order, counts the others, and its resume offset is the end of the last line
    it saw, passed on or not - the comment of [Teardown] says the last one shipped,
    which would have the lines dropped at the end read again after a restart. *)
Theorem filter_selects ps match_ f offset ls :
  NewFilterCodecFactory ps match_ = Ret (inr f) →
  ∃ c, filter_run (NewCodecFilter f offset) ls =
         Ret (c, filter (fun l => selected ps match_ (em_text l) = true) ls) ∧
    Teardown c = last_end offset ls ∧
    filteredLines c = zlen (filter (fun l => selected ps match_ (em_text l) = false) ls) ∧
    meterFiltered (Meter c) = filteredLines c.
Proof.
  unfold NewFilterCodecFactory. case_decide; [done|]. monad.
  destruct (Set_ ps match_) as [[?|pc]| |] eqn:Hset; [done| |done..]. intros [= <-].
  rewrite (filter_run_spec ps match_) by done. eexists. split; [reflexivity|]. done.
Qed.

Lemma NewMultilineCodecFactory_ok sp ps match_ w timeout mx f :
  NewMultilineCodecFactory sp ps match_ w timeout mx = Ret (inr f) → (0 < sp)%Z → (0 ≤ mx)%Z →
  (0 < MaxMultilineBytes f ≤ sp)%Z ∧ patterns (mf_patterns f) ≠ None ∧
  ∀ t, Match (mf_patterns f) t = Ret (selected ps match_ t).
Proof.
  unfold NewMultilineCodecFactory. monad.
  destruct (Set_ ps match_) as [[?|pc]| |] eqn:Hset; [done| |done..]. intros Hf Hsp Hmx.
  pose proof (Set_patterns _ _ _ Hset). pose proof (fun t => Set_Match _ _ _ t Hset).
  repeat case_decide; simplify_eq; simpl; (split; [lia|done]).
Qed.


(** C16. Fed the lines of a file in order, a multiline codec emits events whose
    byte ranges are in order and do not overlap, starting at or after the offset
    it was created with, and [Teardown] is the end of the last event emitted (or
    that offset): resuming there skips nothing that was not emitted. *)
Theorem multiline_offsets sp ps match_ w timeout mx f offset now is_ :
  NewMultilineCodecFactory sp ps match_ w timeout mx = Ret (inr f) → (0 < sp)%Z → (0 ≤ mx)%Z →
  in_order offset is_ →
  ∃ c' out, ml_run (NewCodecMultiline f offset now) is_ = Ret (c', out) ∧
    ordered offset out ∧ Teardown c' = last_end offset out.
Proof.
  intros Hf Hsp Hmx Hin. destruct (NewMultilineCodecFactory_ok _ _ _ _ _ _ _ Hf Hsp Hmx) as ((? & ?) & Hp & _).
  destruct (ml_run_spec (NewCodecMultiline f offset now) is_) as (c' & out & Hrun & Hpr & Hord);
    [by apply NewCodecMultiline_ok|].
  exists c', out. split; [done|]. split; [|apply Hpr].
  apply (Hord offset); [|done]. split; simpl; [lia|done].
Qed.

(** C11. While no block reaches the limit and the timer does not fire, a
    multiline codec computes the documented grouping: the events are the complete
    blocks, joined, and the pending block is what the codec holds. *)
Theorem multiline_groups sp ps match_ w timeout mx f offset now ls
    (g := grouping (what f) (selected ps match_) [] (snd <$> ls)) :
  NewMultilineCodecFactory sp ps match_ w timeout mx = Ret (inr f) → (0 < sp)%Z → (0 ≤ mx)%Z →
  Forall (fun b => zlen (join b) < MaxMultilineBytes f)%Z (fst g ++ [snd g]) →
  ∃ c' out, ml_run (NewCodecMultiline f offset now) (line_input <$> ls) = Ret (c', out) ∧
    em_text <$> out = join <$> fst g ∧ buffer c' = snd g.
Proof.
  intros Hf Hsp Hmx Hfit. destruct (NewMultilineCodecFactory_ok _ _ _ _ _ _ _ Hf Hsp Hmx) as ((? & ?) & Hp & Hm).
  by apply (grouping_run (selected ps match_) ls (NewCodecMultiline f offset now));
    [apply NewCodecMultiline_ok|..].
Qed.
End Patterns.

(** ** Concrete runs

    The matcher of the examples: a compiled expression is its text, and it
    matches the lines that start with it. *)
Definition starts_with (pre t : text) : bool := bool_decide (take (length pre) t = pre).

#[local] Instance example_filter_codec : Codec (@CodecFilter text) := Codec_filter starts_with.
#[local] Instance example_multiline_codec : Codec (@CodecMultiline text) := Codec_multiline starts_with.

Definition example_line (now s e : Z) (t : string) : Z * Z * Z * text := (now, s, e, bytes_of t).

Definition example_lines : list (Z * Z * Z * text) :=
  [example_line 0 0 1 "DEBUG First line"; example_line 0 2 3 "NEXT line";
   example_line 0 4 5 "NEXT another"; example_line 0 6 7 "DEBUG Next line"].

Definition example_factory (match_ what_ : string) (timeout mx : Z) : CodecMultilineFactory :=
  match NewMultilineCodecFactory Some 10485760 [bytes_of "NEXT "] (bytes_of match_) (bytes_of what_) timeout mx with
  | Ret (inr f) => f
  | _ => mkMultilineFactory noPatterns WhatPrevious 0 0
  end.

Example multiline_previous_test :
  ml_run starts_with (NewCodecMultiline (example_factory "" "previous" 0 0) 0 0) (line_input <$> example_lines) =
  Ret (mkMultiline (example_factory "" "previous" 0 0) 5 7 6 [bytes_of "DEBUG Next line"] 1 15 0 0 0,
       [mkEmit 0 5 (join [bytes_of "DEBUG First line"; bytes_of "NEXT line"; bytes_of "NEXT another"])]).
Proof. reflexivity. Qed.

(** With "next" a timeout should be ignored, but the timer started by [NewCodec]
    still flushes an incomplete block. *)
Lemma multiline_next_timeout_flushes :
  ∃ c out, ml_run starts_with (NewCodecMultiline (example_factory "" "next" 3 0) 0 0)
    [MLine 0 0 9 (bytes_of "NEXT line"); MTick 4] = Ret (c, out) ∧
    out = [mkEmit 0 9 (bytes_of "NEXT line")].
Proof. eexists _, _. split; reflexivity. Qed.

Lemma pattern_collection_match_witness :
  ∃ pc, Set_ Some [bytes_of "!NEXT "; bytes_of "=DEBUG"] (bytes_of "all") = Ret (inr pc) ∧
    Match starts_with pc (bytes_of "DEBUG line") = Ret true ∧ Match starts_with pc (bytes_of "NEXT line") = Ret false.
Proof.
  eexists. split; [reflexivity|].
  destruct (pattern_collection_match Some starts_with [bytes_of "!NEXT "; bytes_of "=DEBUG"] (bytes_of "all") _ eq_refl)
    as (_ & _ & H).
  split; [exact (H (bytes_of "DEBUG line"))|exact (H (bytes_of "NEXT line"))].
Defined.

Lemma filter_selects_witness :
  ∃ f c, NewFilterCodecFactory Some [bytes_of "NEXT "] [] = Ret (inr f) ∧
    filter_run starts_with (NewCodecFilter f 0) [mkEmit 0 5 (bytes_of "NEXT "); mkEmit 6 8 (bytes_of "no")] =
      Ret (c, [mkEmit 0 5 (bytes_of "NEXT ")]) ∧ Teardown c = 8%Z.
Proof.
  eexists. destruct (filter_selects Some starts_with [bytes_of "NEXT "] [] _ 0
    [mkEmit 0 5 (bytes_of "NEXT "); mkEmit 6 8 (bytes_of "no")] eq_refl) as (c & H & Ht & _).
  exists c. split; [reflexivity|]. split; [exact H|exact Ht].
Defined.


Lemma multiline_offsets_witness :
  ∃ c' out, ml_run starts_with (NewCodecMultiline (example_factory "" "" 0 0) 0 0)
      [MLine 0 0 17 (bytes_of "DEBUG First line"); MTick 1; MLine 1 17 26 (bytes_of "NEXT one");
       MLine 2 26 32 (bytes_of "other")] = Ret (c', out) ∧ ordered 0 out ∧ Teardown c' = 26%Z.
Proof.
  destruct (multiline_offsets Some starts_with 10485760 [bytes_of "NEXT "] [] [] 0 0
    (example_factory "" "" 0 0) 0 0
    [MLine 0 0 17 (bytes_of "DEBUG First line"); MTick 1; MLine 1 17 26 (bytes_of "NEXT one");
       MLine 2 26 32 (bytes_of "other")] eq_refl) as (c' & out & Hrun & Hord & Ht); [lia..| |].
  { repeat split; vm_compute; congruence. }
  exists c', out. split; [exact Hrun|]. split; [exact Hord|]. etrans; [exact Ht|].
  vm_compute in Hrun. injection Hrun as <- <-. reflexivity.
Defined.

Lemma multiline_groups_witness :
  ∃ c' out, ml_run starts_with (NewCodecMultiline (example_factory "" "next" 0 0) 0 0)
      (line_input <$> example_lines) = Ret (c', out) ∧
    em_text <$> out = [bytes_of "DEBUG First line"; join (bytes_of <$> ["NEXT line"; "NEXT another"; "DEBUG Next line"])].
Proof.
  destruct (multiline_groups Some starts_with 10485760 [bytes_of "NEXT "] [] (bytes_of "next") 0 0
    (example_factory "" "next" 0 0) 0 0 example_lines eq_refl) as (c' & out & Hrun & Ht & _); [lia..| |].
  { eapply bool_decide_eq_true_1. vm_compute. reflexivity. }
  exists c', out. split; [exact Hrun|exact Ht].
Defined.
