(* ===== verification/Encodings.v ===== *)
(** * What the standard library makes of texts: UTF-8 and URLs

    A Go string is a sequence of bytes.  encoding/json writes it as UTF-8, each byte
    that is not part of a rune replaced; net/url takes a text apart and undoes its
    escapes (Go 1.5, the version docs/BuildingFromSource.md names). *)
From S2P Require Import Prelude Codecs.

(** ** UTF-8 *)
Definition byte_in (lo hi : N) (c : byte) : bool := N.leb lo (Byte.to_N c) && N.leb (Byte.to_N c) hi.

(** [utf8.DecodeRuneInString]: the length of the rune at the start. *)
Definition rune_len (s : text) : option nat :=
  let tail := byte_in 0x80 0xBF in
  match s with
  | [] => None
  | a :: s1 =>
      if byte_in 0 0x7F a then Some 1
      else match s1 with
      | [] => None
      | b :: s2 =>
          if byte_in 0xC2 0xDF a then (if tail b then Some 2 else None)
          else match s2 with
          | [] => None
          | c :: s3 =>
              if byte_in 0xE0 0xEF a then
                let first := if byte_in 0xE0 0xE0 a then byte_in 0xA0 0xBF b
                             else if byte_in 0xED 0xED a then byte_in 0x80 0x9F b else tail b in
                if first && tail c then Some 3 else None
              else match s3 with
              | [] => None
              | d :: _ =>
                  if byte_in 0xF0 0xF4 a then
                    let first := if byte_in 0xF0 0xF0 a then byte_in 0x90 0xBF b
                                 else if byte_in 0xF4 0xF4 a then byte_in 0x80 0x8F b else tail b in
                    if first && tail c && tail d then Some 4 else None
                  else None
              end
          end
      end
  end.

(** U+FFFD. *)
Definition replacement : text := ["239"; "191"; "189"]%byte.

(** What is left of a string once it is JSON: the next [skip] bytes belong to the
    rune that has been read. *)
Fixpoint coerce_from (skip : nat) (s : text) : text :=
  match s with
  | [] => []
  | b :: s' =>
      match skip with
      | S k => b :: coerce_from k s'
      | O => match rune_len s with
             | Some n => b :: coerce_from (pred n) s'
             | None => replacement ++ coerce_from 0 s'
             end
      end
  end.

Definition coerce_utf8 (s : text) : text := coerce_from 0 s.

(** [utf8.ValidString]. *)
Definition valid_utf8 (s : text) : bool := bool_decide (coerce_utf8 s = s).

Example coerce_valid : coerce_utf8 (bytes_of "a€ é 𝄞") = bytes_of "a€ é 𝄞".
Proof. vm_compute. reflexivity. Qed.
Example coerce_latin1 : coerce_utf8 ("233"%byte :: bytes_of "t") = replacement ++ bytes_of "t".
Proof. vm_compute. reflexivity. Qed.
(** A surrogate, and an encoding that is too long. *)
Example coerce_surrogate : coerce_utf8 ["237"; "160"; "128"]%byte = replacement ++ replacement ++ replacement.
Proof. vm_compute. reflexivity. Qed.
Example coerce_overlong : coerce_utf8 ["192"; "175"]%byte = replacement ++ replacement.
Proof. vm_compute. reflexivity. Qed.

(** ** Escapes in URLs *)
Definition space : byte := " "%byte.
Definition plus : byte := "+"%byte.
Definition percent : byte := "%"%byte.
Definition question : byte := "?"%byte.
Definition pound : byte := "#"%byte.
Definition ampersand : byte := "&"%byte.
Definition semicolon : byte := ";"%byte.
Definition equals : byte := "="%byte.

(** The value of a hexadecimal digit. *)
Definition unhex (c : byte) : option N :=
  let n := Byte.to_N c in
  if N.leb 48 n && N.leb n 57 then Some (n - 48)%N
  else if N.leb 65 n && N.leb n 70 then Some (n - 55)%N
  else if N.leb 97 n && N.leb n 102 then Some (n - 87)%N
  else None.

(** [unescape]: [%XX] is decoded; a plus sign is a space in a query and itself in a
    path or a fragment. *)
Fixpoint unescape (query : bool) (s : text) : option text :=
  match s with
  | [] => Some []
  | c :: s' =>
      if decide (c = percent) then
        match s' with
        | h :: l :: s'' =>
            match unhex h, unhex l with
            | Some h, Some l =>
                match Byte.of_N (h * 16 + l) with Some b => cons b <$> unescape query s'' | None => None end
            | _, _ => None
            end
        | _ => None
        end
      else cons (if decide (c = plus) then (if query then space else plus) else c) <$> unescape query s'
  end.

Abbreviation path_unescape := (unescape false).

(** ** Taking a URL apart *)

(** The part before the first byte that [p] holds of, and the part after it. *)
Fixpoint split_first (p : byte → bool) (s : text) : text * option text :=
  match s with
  | [] => ([], None)
  | c :: s' => if p c then ([], Some s') else let '(a, b) := split_first p s' in (c :: a, b)
  end.

Record URL := mkURL { url_Path : text; url_RawQuery : text }.

(** [url.Parse] of a URL with scheme and host, from the slash after the host on:
    the fragment, then the query, then the path. *)
Definition url_Parse (rest : text) : option URL :=
  let '(u, fragment) := split_first (fun c => bool_decide (c = pound)) rest in
  let '(path, query) := split_first (fun c => bool_decide (c = question)) u in
  match path_unescape path, path_unescape (default [] fragment) with
  | Some path, Some _ => Some (mkURL path (default [] query))
  | _, _ => None
  end.

(** [ParseQuery], as far as it succeeds; a pair that cannot be decoded is left out. *)
Fixpoint parse_pairs (fuel : nat) (query : text) : list (text * text) :=
  match fuel, query with
  | S fuel', _ :: _ =>
      let '(kv, rest) := split_first (fun c => bool_decide (c = ampersand ∨ c = semicolon)) query in
      let '(key, value) := split_first (fun c => bool_decide (c = equals)) kv in
      let pairs := parse_pairs fuel' (default [] rest) in
      match kv, unescape true key, unescape true (default [] value) with
      | _ :: _, Some k, Some v => (k, v) :: pairs
      | _, _, _ => pairs
      end
  | _, _ => []
  end.

Definition url_Query (query : text) : list (text * text) := parse_pairs (length query) query.

(** [Values.Get]: the first value of the key. *)
Definition Values_Get (key : text) (values : list (text * text)) : text :=
  match filter (fun kv => fst kv = key) values with (_, v) :: _ => v | [] => [] end.

(** ** Lemmas *)
Lemma split_first_app p a c b : forallb (fun x => negb (p x)) a = true → p c = true → split_first p (a ++ c :: b) = (a, Some b).
Proof.
  intros Ha Hc. induction a as [|x a IH]; cbn [app split_first]; [by rewrite Hc|].
  cbn [forallb] in Ha. apply andb_true_iff in Ha as [Hx Ha]. rewrite (IH Ha). by destruct (p x).
Qed.

Lemma split_first_none p a : forallb (fun x => negb (p x)) a = true → split_first p a = (a, None).
Proof.
  induction a as [|x a IH]; cbn [split_first forallb]; [done|]. intros [Hx Ha]%andb_true_iff. rewrite (IH Ha). by destruct (p x).
Qed.

Lemma path_unescape_plain s : forallb (fun c => bool_decide (c ≠ percent)) s = true → path_unescape s = Some s.
Proof.
  induction s as [|c s IH]; [done|]. cbn [forallb unescape]. intros [Hc%bool_decide_eq_true Hs]%andb_true_iff.
  rewrite decide_False by done. rewrite (IH Hs). simpl. by case_decide as Hp; [rewrite Hp|].
Qed.

(** The fuel is enough: what is left of a query is shorter. *)
Lemma split_first_length p s : length (default [] (snd (split_first p s))) < S (length s).
Proof.
  induction s as [|c s IH]; simpl; [lia|]. destruct (p c); simpl; [lia|]. destruct (split_first p s) as [a b]. simpl in *. lia.
Qed.

Lemma parse_pairs_fuel fuel query : length query ≤ fuel → parse_pairs fuel query = url_Query query.
Proof.
  unfold url_Query. remember (length query) as n eqn:Hn. revert fuel query Hn.
  induction n as [n IH] using lt_wf_ind. intros fuel query -> Hf. destruct query as [|c query]; [by destruct fuel|].
  destruct fuel as [|fuel]; [simpl in Hf; lia|]. cbn [length parse_pairs]. cbn [split_first].
  assert (Hrec : ∀ rest, length rest ≤ length query → parse_pairs fuel rest = parse_pairs (length query) rest).
  { intros rest Hl. rewrite (IH (length rest) ltac:(simpl; lia) fuel rest eq_refl) by (simpl in Hf; lia).
    symmetry. apply (IH (length rest)); [simpl; lia|done|done]. }
  destruct (bool_decide (c = ampersand ∨ c = semicolon)); cbn [from_option id].
  - rewrite Hrec by done. done.
  - pose proof (split_first_length (fun c => bool_decide (c = ampersand ∨ c = semicolon)) query) as Hl.
    destruct (split_first _ query) as [kv rest]. cbn [snd] in Hl. rewrite Hrec by lia. done.
Qed.
