(* ===== verification/AdminApi.v ===== *)
(** * lc-lib/admin: the status tree

    The containers the admin API navigates: nodes, arrays and key-value sets,
    over any type [E] of entries that implements the [APINavigatable] interface.
    Updates are synchronous.  The JSON encoding of values is the standard
    library's, a parameter of [AdminServer]. *)
From stdpp Require Import sorting pretty.
From S2P Require Import Prelude Core Codecs.

(** Errors of the API. *)
Inductive api_error :=
| ErrNotImplemented
| ErrNotFound
| ErrSyntax (path : text)
| ErrEntry (message : text).

(** The interface every entry implements.  An entry [E] is a pointer to an object
    in the store [St]; rendering may touch the store, and [Update] refreshes the
    object in it, or fails. *)
Class APINavigatable (St E : Type) := {
  HumanReadable : text → E → M St (api_error + text);
  Update : E → M St (option api_error);
}.

Definition APIIndentation : text := bytes_of "  ".

(** ** [sort.Strings]: lexicographic order of bytes *)
Fixpoint text_leb (a b : text) : bool :=
  match a, b with
  | [], _ => true
  | _, [] => false
  | x :: a', y :: b' =>
      if decide (x = y) then text_leb a' b'
      else N.ltb (Byte.to_N x) (Byte.to_N y)
  end.

Definition text_le (a b : text) : Prop := text_leb a b = true.

#[export] Instance text_le_dec a b : Decision (text_le a b).
Proof. unfold text_le. apply _. Defined.

Definition sorted_keys {E} (m : gmap text E) : list text :=
  merge_sort text_le (fst <$> map_to_list m).

(** ** [strconv.ParseInt(s, 10, 0)] and [strconv.FormatInt(z, 10)] *)
Definition digit_value (c : byte) : option Z :=
  let n := Z.of_N (Byte.to_N c) in
  if decide (48 ≤ n ≤ 57)%Z then Some (n - 48)%Z else None.

Fixpoint digits_value (acc : Z) (s : text) : option Z :=
  match s with
  | [] => Some acc
  | c :: s' => match digit_value c with Some d => digits_value (acc * 10 + d) s' | None => None end
  end.

Definition in_int64 (z : Z) : option Z :=
  if decide (- 2 ^ 63 ≤ z < 2 ^ 63)%Z then Some z else None.

Definition ParseInt (s : text) : option Z :=
  let '(neg, ds) := match s with
                    | "-"%byte :: r => (true, r)
                    | "+"%byte :: r => (false, r)
                    | _ => (false, s)
                    end in
  match ds with
  | [] => None
  | _ => match digits_value 0 ds with
         | Some z => in_int64 (if neg then - z else z)%Z
         | None => None
         end
  end.

Definition FormatInt (z : Z) : text := bytes_of (pretty z).

(** ** Rendering a map of entries, as the three containers do *)
Section Render.
Context {St E : Type}.

Definition render_entry (indent key part : text) : text :=
  indent ++ key ++
  (if decide (newline ∈ part) then bytes_of ":" ++ [newline] ++ part
   else bytes_of ": " ++ part ++ [newline]).

Fixpoint render_keys (hr : text → E → M St (api_error + text)) (indent : text) (m : gmap text E) (keys : list text)
  : M St (api_error + text) :=
  match keys with
  | [] => mret (inr [])
  | k :: ks =>
      match m !! k with
      | None => render_keys hr indent m ks
      | Some e =>
          r ← hr (indent ++ APIIndentation) e;
          match r with
          | inl err => mret (inl err)
          | inr part =>
              r' ← render_keys hr indent m ks;
              match r' with
              | inl err => mret (inl err)
              | inr rest => mret (inr (render_entry indent k part ++ rest))
              end
          end
      end
  end.

Definition render_map (hr : text → E → M St (api_error + text)) (indent : text) (m : gmap text E) : M St (api_error + text) :=
  if decide (m = ∅) then mret (inr (bytes_of "none"))
  else render_keys hr indent m (sorted_keys m).

(** Entries that are rendered without touching the store. *)
Definition render_text (hr : text → E → text) (indent : text) (m : gmap text E) : text :=
  if decide (m = ∅) then bytes_of "none"
  else concat (omap (fun k => (fun e => render_entry indent k (hr (indent ++ APIIndentation) e)) <$> m !! k) (sorted_keys m)).

Lemma render_map_text (hr : text → E → M St (api_error + text)) (hr' : text → E → text) indent m s :
  (∀ k e i, m !! k = Some e → hr i e s = Ret (inr (hr' i e), s)) → render_map hr indent m s = Ret (inr (render_text hr' indent m), s).
Proof.
  intros Hhr. unfold render_map, render_text. case_decide; [done|]. generalize (sorted_keys m). intros ks.
  induction ks as [|k ks IH]; simpl; [done|]. destruct (m !! k) as [e|] eqn:He; simpl; [|done].
  rewrite (bind_run _ _ _ _ _ (Hhr k e _ He)). by rewrite (bind_run _ _ _ _ _ IH).
Qed.
End Render.

Section Containers.
Context {St E : Type} `{APINavigatable St E}.

(** Refreshing entries one after the other, up to the first error. *)
Fixpoint update_all (es : list E) : M St (option api_error) :=
  match es with
  | [] => mret None
  | e :: es' =>
      r ← Update e;
      match (r : option api_error) with
      | Some err => mret (Some err)
      | None => update_all es'
      end
  end.

(** ** [APINode].  A nil map and an empty one behave alike. *)
Record APINode := mkNode { children : gmap text E }.

Definition node_SetEntry (path : text) (entry : E) (n : APINode) : APINode :=
  mkNode (<[path := entry]> (children n)).

Definition node_RemoveEntry (path : text) (n : APINode) : APINode :=
  mkNode (delete path (children n)).

Definition node_Get (path : text) (n : APINode) : option E := children n !! path.

Definition node_HumanReadable (indent : text) (n : APINode) : M St (api_error + text) :=
  render_map HumanReadable indent (children n).

(** [map_order] is the order in which Go happens to range over the map. *)
Definition node_Update (map_order : list E → list E) (n : APINode) : M St (option api_error) :=
  update_all (map_order (snd <$> map_to_list (children n))).

(** ** [APIArray] *)
Record apiArrayEntry := mkArrayEntry { row : Z; entry : E }.

(** [entryMap] is nil until the first entry is added. *)
Record APIArray := mkArray {
  entryMap : option (gmap text apiArrayEntry);
  entries : list E;
}.

Definition newArray : APIArray := mkArray None [].

Definition AddEntry (key : text) (e : E) (a : APIArray) : outcome APIArray :=
  let m := default ∅ (entryMap a) in
  match m !! key with
  | Some _ => Panic
  | None =>
      Ret (mkArray (Some (<[key := mkArrayEntry (zlen (entries a)) e]> m)) (entries a ++ [e]))
  end.

(** The shifting loop from index [i] on. *)
Fixpoint shift_down (fuel : nat) (i : Z) (l : list E) : list E :=
  match fuel with
  | O => l
  | S fuel' =>
      if decide (i + 1 < zlen l)%Z
      then match l !! Z.to_nat (i + 1) with
           | Some e => shift_down fuel' (i + 1) (<[Z.to_nat i := e]> l)
           | None => l
           end
      else l
  end.

Definition RemoveEntry (key : text) (a : APIArray) : outcome APIArray :=
  match entryMap a with
  | None => Panic
  | Some m =>
      match m !! key with
      | None => Panic
      | Some ent =>
          match slice (shift_down (length (entries a)) (row ent) (entries a)) 0 (zlen (entries a) - 1) with
          | None => Panic
          | Some l => Ret (mkArray (Some (delete key m)) l)
          end
      end
  end.

Definition array_Get (path : text) (a : APIArray) : api_error + option E :=
  match entryMap a with
  | None => inr None
  | Some m =>
      match m !! path with
      | Some ent => inr (Some (entry ent))
      | None =>
          match ParseInt path with
          | None => inl (ErrSyntax path)
          | Some n =>
              if decide (n < 0 ∨ zlen (entries a) ≤ n)%Z then inr None
              else inr (entries a !! Z.to_nat n)
          end
      end
  end.

Definition array_HumanReadable (indent : text) (a : APIArray) : M St (api_error + text) :=
  render_map (fun i ent => HumanReadable i (entry ent)) indent (default ∅ (entryMap a)).

Definition array_Update (a : APIArray) : M St (option api_error) := update_all (entries a).
End Containers.

Arguments APINode : clear implicits.
Arguments APIArray : clear implicits.
Arguments apiArrayEntry : clear implicits.

(** ** [APIKeyValue]: a set of values, which are data or values that nest *)
Inductive APIData :=
| APINull
| APINumber (n : Z)
| APIFloat (f : float64)
| APIString (s : text).

Record APIKeyValue (V : Type) := mkKeyValue { kv_entries : gmap text V }.
Arguments mkKeyValue {V}.
Arguments kv_entries {V}.

Definition kv_SetEntry {V} (key : text) (e : V) (d : APIKeyValue V) : APIKeyValue V :=
  mkKeyValue (<[key := e]> (kv_entries d)).

Definition kv_RemoveEntry {V} (key : text) (d : APIKeyValue V) : APIKeyValue V :=
  match kv_entries d !! key with
  | None => d
  | Some _ => mkKeyValue (delete key (kv_entries d))
  end.

Definition kv_HumanReadable {St V} (hr : text → V → M St (api_error + text)) (indent : text) (d : APIKeyValue V) : M St (api_error + text) :=
  render_map hr indent (kv_entries d).

Section KeyValue.
(** [strconv.FormatFloat(f, 'g', -1, 64)]. *)
Context (FormatFloat : float64 → text).

Definition data_HumanReadable (d : APIData) : text :=
  match d with
  | APINull => bytes_of "n/a"
  | APINumber n => FormatInt n
  | APIFloat f => FormatFloat f
  | APIString s => s
  end.
End KeyValue.

(** ** Histories of an array *)
Section ArrayHistory.
Context {E : Type}.

Inductive array_op :=
| OpAdd (key : text) (e : E)
| OpDel (key : text).

Definition array_step (o : array_op) (a : APIArray E) : outcome (APIArray E) :=
  match o with OpAdd k e => AddEntry k e a | OpDel k => RemoveEntry k a end.

Fixpoint array_run (os : list array_op) (a : APIArray E) : outcome (APIArray E) :=
  match os with
  | [] => Ret a
  | o :: os' => a' ← array_step o a; array_run os' a'
  end.

(** The reference: the entries by key; [None] when an operation is misused. *)
Fixpoint keyed (os : list array_op) (m : gmap text E) : option (gmap text E) :=
  match os with
  | [] => Some m
  | OpAdd k e :: os' => match m !! k with Some _ => None | None => keyed os' (<[k := e]> m) end
  | OpDel k :: os' => match m !! k with Some _ => keyed os' (delete k m) | None => None end
  end.

(** ** Lemmas *)
Lemma shift_down_length fuel i (l : list E) : length (shift_down fuel i l) = length l.
Proof.
  revert i l. induction fuel as [|fuel IH]; intros i l; simpl; [done|].
  case_decide; [|done]. destruct (l !! Z.to_nat (i + 1)); [|done]. by rewrite IH, length_insert.
Qed.

(** In range, shifting and then dropping the last entry deletes entry [i]. *)
Lemma shift_down_delete fuel i (l : list E) :
  i < length l → length l ≤ fuel + i →
  take (length l - 1) (shift_down fuel (Z.of_nat i) l) = delete i l.
Proof.
  revert i l. induction fuel as [|fuel IH]; intros i l Hi Hf; [lia|].
  cbn [shift_down]. unfold zlen. case_decide as Hlt.
  - replace (Z.of_nat i + 1)%Z with (Z.of_nat (S i)) by lia. rewrite !Nat2Z.id.
    destruct (lookup_lt_is_Some_2 l (S i)) as [e He]; [lia|]. rewrite He.
    pose proof (IH (S i) (<[i := e]> l)) as IH'. rewrite length_insert in IH'. rewrite IH' by lia.
    apply list_eq. intros k. destruct (decide (k < i)); [|destruct (decide (k = i)) as [->|]].
    + rewrite !list_lookup_delete_lt by lia. rewrite list_lookup_insert_ne by lia. done.
    + rewrite list_lookup_delete_lt, list_lookup_delete_ge by lia. by rewrite list_lookup_insert_eq by lia.
    + rewrite (list_lookup_delete_ge l) by lia. destruct (decide (k < S i)); [lia|].
      rewrite list_lookup_delete_ge by lia. by rewrite list_lookup_insert_ne by lia.
  - assert (i = length l - 1) as -> by lia.
    rewrite delete_take_drop, drop_ge, app_nil_r by lia. done.
Qed.

Definition keys_ok (a : APIArray E) (m : gmap text E) : Prop :=
  entry <$> default ∅ (entryMap a) = m ∧ length (entries a) = size m ∧
  (entryMap a = None → m = ∅) ∧
  (∀ k ent, default ∅ (entryMap a) !! k = Some ent → (0 ≤ row ent)%Z).

Lemma array_step_ok o os a m m' :
  keys_ok a m → keyed (o :: os) m = Some m' →
  ∃ a1 m1, array_step o a = Ret a1 ∧ keys_ok a1 m1 ∧ keyed os m1 = Some m'.
Proof.
  intros (Hm & Hlen & Hnil & Hrow) Hk. destruct o as [k e|k]; simpl in Hk |- *.
  - destruct (m !! k) eqn:Ek; [done|]. unfold AddEntry.
    rewrite <-Hm, lookup_fmap, fmap_None in Ek. rewrite Ek.
    eexists _, _. split; [reflexivity|]. split; [|exact Hk]. split; [|split; [|split]]; simpl.
    + by rewrite fmap_insert, Hm.
    + rewrite length_app, Hlen, map_size_insert_None; [simpl; lia|].
      by rewrite <-Hm, lookup_fmap, Ek.
    + done.
    + intros k' ent. rewrite lookup_insert_Some. intros [[_ <-]|[_ ?]]; [apply zlen_nonneg|eauto].
  - destruct (m !! k) eqn:Ek; [|done]. unfold RemoveEntry.
    destruct (entryMap a) as [em|] eqn:Em; [|by rewrite (Hnil eq_refl) in Ek]. simpl in Hm, Hrow.
    pose proof Ek as Ek'. rewrite <-Hm, lookup_fmap, fmap_Some in Ek'. destruct Ek' as (ent & Ee & _). rewrite Ee.
    assert (Hpos : 0 < size m).
    { assert (size m ≠ 0) by (apply map_size_ne_0_lookup; by exists k, e). lia. }
    set (l := shift_down _ _ _). assert (Hl : length l = length (entries a)) by apply shift_down_length.
    rewrite slice_prefix by (unfold zlen; lia).
    eexists _, _. split; [reflexivity|]. split; [|exact Hk]. split; [|split; [|split]]; simpl.
    + by rewrite fmap_delete, Hm.
    + rewrite length_take, map_size_delete, Ek. unfold zlen. simpl. lia.
    + done.
    + intros k' ent'. rewrite lookup_delete_Some. intros [_ ?]. eauto.
Qed.

Lemma array_run_ok os a m m' :
  keys_ok a m → keyed os m = Some m' → ∃ a', array_run os a = Ret a' ∧ keys_ok a' m'.
Proof.
  revert a m. induction os as [|o os IH]; intros a m Ha Hk; [injection Hk as <-; by exists a|].
  destruct (array_step_ok _ _ _ _ _ Ha Hk) as (a1 & m1 & Hs & Ha1 & Hk1).
  destruct (IH a1 m1 Ha1 Hk1) as (a2 & Hr & Ha2). exists a2. simpl. monad. by rewrite Hs.
Qed.

(** Through any sequence of additions of new keys and removals of present
    ones an API array never panics, finds every entry by its key, and holds as
    many rows as keys. *)
Theorem api_array_keys os m :
  keyed os ∅ = Some m →
  ∃ a, array_run os newArray = Ret a ∧ length (entries a) = size m ∧
    ∀ k e, m !! k = Some e → array_Get k a = inr (Some e).
Proof.
  intros Hk. destruct (array_run_ok os newArray ∅ m) as (a & Hr & Ha & Hlen & Hnil & _); [|done|].
  { split; [simpl; by rewrite fmap_empty|]. split; [done|]. split; [done|]. intros k ent. simpl. by rewrite lookup_empty. }
  exists a. do 2 (split; [done|]). intros k e He. rewrite <-Ha, lookup_fmap, fmap_Some in He.
  destruct He as (ent & Hent & ->). unfold array_Get. destruct (entryMap a); [|done]. simpl in Hent. by rewrite Hent.
Qed.
End ArrayHistory.

Definition sample_ops : list (array_op (E := Z)) := [OpAdd (bytes_of "x") 1%Z; OpAdd (bytes_of "y") 2%Z; OpDel (bytes_of "x")].

Lemma sample_keyed : ∃ m, keyed sample_ops ∅ = Some m ∧ m !! bytes_of "y" = Some 2%Z.
Proof.
  assert (Hne : bytes_of "x" ≠ bytes_of "y") by discriminate. unfold sample_ops. generalize dependent (bytes_of "x"). intros x Hne.
  exists (delete x (<[bytes_of "y" := 2%Z]> (<[x := 1%Z]> ∅))). cbn [keyed].
  rewrite lookup_empty, lookup_insert_ne, lookup_empty, lookup_insert_ne, lookup_insert_eq by done.
  split; [done|]. by rewrite lookup_delete_ne, lookup_insert_eq.
Qed.

Lemma api_array_keys_witness : ∃ a, array_run sample_ops newArray = Ret a ∧ array_Get (bytes_of "y") a = inr (Some 2%Z).
Proof.
  destruct sample_keyed as (m & Hm & Hy). destruct (api_array_keys sample_ops m Hm) as (a & Hr & _ & Hg).
  exists a. split; [exact Hr|]. exact (Hg _ _ Hy).
Defined.

(** Removing an entry leaves the row numbers of the others as they were, so a
    later removal takes out the wrong row: after removing the first and then the
    second of three entries, row 0 is the second, and the third is lost. *)
Theorem api_array_stale_rows (x y z : Z) :
  ∃ a, array_run [OpAdd (bytes_of "x") x; OpAdd (bytes_of "y") y; OpAdd (bytes_of "z") z;
         OpDel (bytes_of "x"); OpDel (bytes_of "y")] newArray = Ret a ∧
    entries a = [y] ∧ array_Get (bytes_of "z") a = inr (Some z) ∧ array_Get (bytes_of "0") a = inr (Some y).
Proof. eexists. split; [vm_compute; reflexivity|]. repeat split. Qed.
