(* ===== verification/AddressPool.v ===== *)
(** * lc-lib/addresspool: the addresses of a server entry

    A [Pool] resolves a server entry of the configuration into addresses and
    hands them out one at a time, resolving again when they are exhausted.  The
    resolver is a value passed to each call, since its answers change with time;
    the textual forms of addresses ([net.ParseIP], [TCPAddr.String]) are
    parameters. *)
From S2P Require Import Prelude Core Codecs AdminApi.

Inductive pool_error :=
| ErrHostPort (server : text)
| ErrPort (port : text)
| ErrSrvLookup (host : text)
| ErrSrvNoTargets (host : text)
| ErrLookup (host : text)
| ErrNoAddresses (host : text).

(** ** [net.SplitHostPort] *)
Definition colon : byte := ":"%byte.
Definition lbracket : byte := "["%byte.
Definition rbracket : byte := "]"%byte.

Fixpoint split_last_colon (s : text) : option (text * text) :=
  match s with
  | [] => None
  | c :: s' =>
      match split_last_colon s' with
      | Some (h, p) => Some (c :: h, p)
      | None => if decide (c = colon) then Some ([], s') else None
      end
  end.

Fixpoint split_bracket (s : text) : option (text * text) :=
  match s with
  | [] => None
  | c :: s' =>
      if decide (c = rbracket) then Some ([], s')
      else match split_bracket s' with Some (h, r) => Some (c :: h, r) | None => None end
  end.

Definition SplitHostPort (s : text) : option (text * text) :=
  match s with
  | c :: s' =>
      if decide (c = lbracket) then
        match split_bracket s' with
        | Some (h, d :: p) =>
            if decide (d = colon ∧ (colon ∉ p) ∧ (lbracket ∉ h ++ p) ∧ (rbracket ∉ p))
            then Some (h, p) else None
        | _ => None
        end
      else
        match split_last_colon s with
        | Some (h, p) =>
            if decide ((colon ∉ h) ∧ (lbracket ∉ s) ∧ (rbracket ∉ s)) then Some (h, p) else None
        | None => None
        end
  | [] => None
  end.

(** [strconv.ParseUint(s, 10, 16)]. *)
Definition ParseUint16 (s : text) : option Z :=
  match s with
  | [] => None
  | _ => match digits_value 0 s with
         | Some z => if decide (z < 2 ^ 16)%Z then Some z else None
         | None => None
         end
  end.

Section Pool.
Context {IP : Type} (ParseIP : text → option IP) (addr_String : IP * Z → text).

Record TCPAddr := mkAddr { addr_IP : IP; addr_Port : Z }.
Record SRV := mkSRV { Target : text; srv_Port : Z }.

(** What the resolver answers at the time of a call; [None] is an error. *)
Record resolver := mkResolver {
  LookupSRV : text → text → text → option (list SRV);
  LookupIP : text → option (list IP);
}.

(** [addresses] is nil until looked up and once exhausted. *)
Record Pool := mkPool {
  server : text;
  rfc2782 : bool;
  rfc2782Service : text;
  hostIsIP : bool;
  host : text;
  desc : text;
  addresses : option (list TCPAddr);
}.

Definition NewPool (s : text) : Pool := mkPool s false [] false [] [] None.

Definition SetRfc2782 (enabled : bool) (service : text) (p : Pool) : Pool :=
  mkPool (server p) enabled service (hostIsIP p) (host p) (desc p) (addresses p).

Definition IsLast (p : Pool) : bool := match addresses p with None => true | Some _ => false end.

Definition Host (p : Pool) : text := host p.
Definition Desc (p : Pool) : text := desc p.

Definition set_host (h : text) (p : Pool) : Pool :=
  mkPool (server p) (rfc2782 p) (rfc2782Service p) (hostIsIP p) h (desc p) (addresses p).
Definition set_hostIsIP (b : bool) (p : Pool) : Pool :=
  mkPool (server p) (rfc2782 p) (rfc2782Service p) b (host p) (desc p) (addresses p).
Definition set_desc (d : text) (p : Pool) : Pool :=
  mkPool (server p) (rfc2782 p) (rfc2782Service p) (hostIsIP p) (host p) d (addresses p).
Definition set_addresses (a : option (list TCPAddr)) (p : Pool) : Pool :=
  mkPool (server p) (rfc2782 p) (rfc2782Service p) (hostIsIP p) (host p) (desc p) a.

(** [p.addresses = append(p.addresses, ...)]. *)
Definition append_addresses (a : list TCPAddr) (p : Pool) : Pool :=
  set_addresses (Some (default [] (addresses p) ++ a)) p.

(** Each call returns its result (or error) and the pool it leaves behind. *)
Definition processSrv (r : resolver) (s : text) (p : Pool) : (pool_error + list SRV) * Pool :=
  let p := set_hostIsIP false (set_host s p) in
  let '(service, protocol) :=
    if rfc2782 p then (rfc2782Service p, bytes_of "tcp") else ([], []) in
  match LookupSRV r service protocol (host p) with
  | None => (inl (ErrSrvLookup (host p)), p)
  | Some [] => (inl (ErrSrvNoTargets (host p)), p)
  | Some srvs => (inr srvs, p)
  end.

Definition populateLookup (r : resolver) (h : text) (port : Z) (p : Pool) : (pool_error + bool) * Pool :=
  match ParseIP h with
  | Some ip => (inr true, append_addresses [mkAddr ip port] p)
  | None =>
      match LookupIP r h with
      | None => (inl (ErrLookup h), p)
      | Some [] => (inl (ErrNoAddresses h), p)
      | Some ips => (inr false, append_addresses ((fun ip => mkAddr ip port) <$> ips) p)
      end
  end.

Fixpoint populateSrvs (r : resolver) (srvs : list SRV) (p : Pool) : option pool_error * Pool :=
  match srvs with
  | [] => (None, p)
  | s :: srvs' =>
      match populateLookup r (Target s) (srv_Port s) p with
      | (inl err, p') => (Some err, p')
      | (inr _, p') => populateSrvs r srvs' p'
      end
  end.

Definition populateAddresses (r : resolver) (p : Pool) : option pool_error * Pool :=
  match server p with
  | "@"%byte :: name =>
      match processSrv r name p with
      | (inl err, p') => (Some err, p')
      | (inr srvs, p') => populateSrvs r srvs p'
      end
  | _ =>
      match SplitHostPort (server p) with
      | None => (Some (ErrHostPort (server p)), set_host [] p)
      | Some (h, portStr) =>
          let p := set_host h p in
          match ParseUint16 portStr with
          | None => (Some (ErrPort portStr), p)
          | Some port =>
              match populateLookup r (host p) port p with
              | (inl err, p') => (Some err, set_hostIsIP false p')
              | (inr b, p') => (None, set_hostIsIP b p')
              end
          end
      end
  end.

Definition Next_desc (next : TCPAddr) (p : Pool) : text :=
  let s := addr_String (addr_IP next, addr_Port next) in
  if hostIsIP p then s else s ++ bytes_of " (" ++ host p ++ bytes_of ")".

(** The second half of [Next]: taking the first address. *)
Definition take_next (p : Pool) : outcome ((pool_error + TCPAddr) * Pool) :=
  match default [] (addresses p) with
  | [] => Panic
  | next :: rest =>
      let p := set_addresses (if decide (0 < zlen rest)%Z then Some rest else None) p in
      Ret (inr next, set_desc (Next_desc next p) p)
  end.

Definition Pool_Next (r : resolver) (p : Pool) : outcome ((pool_error + TCPAddr) * Pool) :=
  match addresses p with
  | Some _ => take_next p
  | None =>
      match populateAddresses r (set_addresses (Some []) p) with
      | (Some err, p') => Ret (inl err, set_addresses None p')
      | (None, p') => take_next p'
      end
  end.

(** [n] calls in a row, each with the resolver of its time. *)
Fixpoint next_run (rs : list resolver) (p : Pool) : outcome (list (pool_error + TCPAddr) * Pool) :=
  match rs with
  | [] => Ret ([], p)
  | r :: rs' =>
      x ← Pool_Next r p; y ← next_run rs' (snd x); Ret (fst x :: fst y, snd y)
  end.

(** ** The reference: what a server entry resolves to *)
Definition resolve_host (r : resolver) (h : text) (port : Z) : option (list TCPAddr) :=
  match ParseIP h with
  | Some ip => Some [mkAddr ip port]
  | None => match LookupIP r h with
            | None | Some [] => None
            | Some ips => Some ((fun ip => mkAddr ip port) <$> ips)
            end
  end.

Fixpoint resolve_srvs (r : resolver) (srvs : list SRV) : option (list TCPAddr) :=
  match srvs with
  | [] => Some []
  | s :: srvs' =>
      a ← resolve_host r (Target s) (srv_Port s); b ← resolve_srvs r srvs'; Some (a ++ b)
  end.

Definition resolve (r : resolver) (p : Pool) : option (list TCPAddr) :=
  match server p with
  | "@"%byte :: name =>
      match (if rfc2782 p then LookupSRV r (rfc2782Service p) (bytes_of "tcp") name else LookupSRV r [] [] name) with
      | None | Some [] => None
      | Some srvs => resolve_srvs r srvs
      end
  | _ =>
      hp ← SplitHostPort (server p); port ← ParseUint16 (snd hp); resolve_host r (fst hp) port
  end.

(** ** Lemmas *)
Definition same_server (p p' : Pool) : Prop :=
  server p' = server p ∧ rfc2782 p' = rfc2782 p ∧ rfc2782Service p' = rfc2782Service p.

Lemma populateLookup_spec r h port p p' res a :
  populateLookup r h port p = (res, p') → addresses p = Some a →
  same_server p p' ∧
  match res with
  | inl _ => resolve_host r h port = None
  | inr _ => ∃ b, resolve_host r h port = Some b ∧ b ≠ [] ∧ addresses p' = Some (a ++ b)
  end.
Proof.
  unfold populateLookup, resolve_host, append_addresses. intros H Ha.
  destruct (ParseIP h) as [ip|]; [injection H as <- <-; simpl; rewrite Ha; split; [done|by eexists]|].
  destruct (LookupIP r h) as [[|ip ips]|]; injection H as <- <-; simpl; rewrite ?Ha; repeat split.
  eexists. split; [reflexivity|done].
Qed.

Lemma populateSrvs_spec r srvs p p' res a :
  populateSrvs r srvs p = (res, p') → addresses p = Some a →
  same_server p p' ∧
  match res with
  | Some _ => resolve_srvs r srvs = None
  | None => ∃ b, resolve_srvs r srvs = Some b ∧ (srvs ≠ [] → b ≠ []) ∧ addresses p' = Some (a ++ b)
  end.
Proof.
  revert p a. induction srvs as [|s srvs IH]; intros p a; simpl; intros Hr Ha.
  - injection Hr as <- <-. split; [done|]. exists []. by rewrite app_nil_r.
  - destruct (populateLookup r (Target s) (srv_Port s) p) as [[e|b] p1] eqn:E;
      destruct (populateLookup_spec _ _ _ _ _ _ _ E Ha) as ((?&?&?) & Hres).
    + injection Hr as <- <-. by rewrite Hres.
    + destruct Hres as (b1 & -> & Hb1 & Ha1). destruct (IH p1 (a ++ b1) Hr Ha1) as ((?&?&?) & Hres).
      split; [unfold same_server; intuition congruence|]. destruct res; simpl.
      * by rewrite Hres.
      * destruct Hres as (b2 & -> & _ & ->). exists (b1 ++ b2). rewrite app_assoc. split; [done|].
        split; [|done]. by destruct b1.
Qed.

Lemma populateAddresses_spec r p p' res :
  populateAddresses r p = (res, p') → addresses p = Some [] →
  same_server p p' ∧
  match res with
  | Some _ => resolve r p = None
  | None => ∃ b, resolve r p = Some b ∧ b ≠ [] ∧ addresses p' = Some b
  end.
Proof.
  unfold populateAddresses, resolve, processSrv. intros H Ha.
  assert (Hstd : ∀ res p', (match SplitHostPort (server p) with
      | None => (Some (ErrHostPort (server p)), set_host [] p)
      | Some (h, portStr) =>
          let p := set_host h p in
          match ParseUint16 portStr with
          | None => (Some (ErrPort portStr), p)
          | Some port =>
              match populateLookup r (host p) port p with
              | (inl err, p') => (Some err, set_hostIsIP false p')
              | (inr b, p') => (None, set_hostIsIP b p')
              end
          end
      end) = (res, p') → same_server p p' ∧
      match res with
      | Some _ => (hp ← SplitHostPort (server p); port ← ParseUint16 (snd hp); resolve_host r (fst hp) port) = None
      | None => ∃ b, (hp ← SplitHostPort (server p); port ← ParseUint16 (snd hp); resolve_host r (fst hp) port) = Some b
                 ∧ b ≠ [] ∧ addresses p' = Some b
      end).
  { clear H res p'. intros res p' H. destruct (SplitHostPort (server p)) as [[h ps]|]; [|by injection H as <- <-].
    simpl in H |- *. destruct (ParseUint16 ps) as [port|]; [|by injection H as <- <-]. simpl.
    destruct (populateLookup r h port (set_host h p)) as [[e|b] p1] eqn:E;
      destruct (populateLookup_spec _ _ _ _ _ _ _ E Ha) as ((?&?&?) & Hres); injection H as <- <-;
      (split; [done|]); done. }
  destruct (server p) as [|c name]; [by apply Hstd|].
  destruct (decide (c = "@"%byte)) as [->|Hc]; [|by destruct c; try (by apply Hstd); destruct Hc].
  clear Hstd. simpl in H. destruct (rfc2782 p) eqn:Er; simpl in H;
    (destruct (LookupSRV r _ _ name) as [[|s srvs]|]; [by injection H as <- <-| |by injection H as <- <-]);
    destruct (populateSrvs_spec r (s :: srvs) _ _ _ [] H Ha) as ((?&?&?) & Hres);
    (split; [done|]); (destruct res; [done|]); destruct Hres as (b & ? & Hb & ?); exists b; auto.
Qed.

(** [k] calls on a pool holding the addresses [l] return the first [k] of them. *)
Lemma take_run l rs p :
  addresses p = Some l → length rs = length l → l ≠ [] →
  ∃ p', next_run rs p = Ret (inr <$> l, p') ∧ IsLast p' = true ∧ same_server p p'.
Proof.
  revert rs p. induction l as [|a l IH]; intros rs p Ha Hlen Hne; [done|].
  destruct rs as [|r rs]; [done|]. simpl. unfold Pool_Next, take_next. rewrite Ha. simpl. monad.
  destruct l as [|b l].
  - destruct rs; [|done]. eexists. split; [reflexivity|]. done.
  - rewrite decide_True by zlen_lia. simpl.
    set (p1 := set_desc _ _). destruct (IH rs p1) as (p' & -> & Hl & (?&?&?)); [done|simpl in *; lia|done|].
    exists p'. split; [done|]. split; [done|]. unfold same_server in *. simpl in *. auto.
Qed.

(** A pool never panics.  When its addresses are exhausted the next call
    resolves the server entry again: on failure it reports an error and stays
    exhausted; otherwise that call and the following ones return exactly the
    addresses of that resolution, in order, whatever the resolver says meanwhile,
    after which the pool is exhausted again. *)
Theorem pool_rounds p r rs :
  IsLast p = true →
  match resolve r p with
  | None => ∃ e p', Pool_Next r p = Ret (inl e, p') ∧ IsLast p' = true ∧ same_server p p'
  | Some l => l ≠ [] ∧ (length (r :: rs) = length l →
      ∃ p', next_run (r :: rs) p = Ret (inr <$> l, p') ∧ IsLast p' = true ∧ same_server p p')
  end.
Proof.
  intros Hlast. unfold IsLast in Hlast. destruct (addresses p) eqn:Ha; [done|]. clear Hlast.
  destruct (populateAddresses r (set_addresses (Some []) p)) as [[err|] p1] eqn:E;
    destruct (populateAddresses_spec _ _ _ _ E eq_refl) as (Hs & Hres);
    change (resolve r (set_addresses (Some []) p)) with (resolve r p) in Hres.
  - rewrite Hres. unfold Pool_Next. rewrite Ha, E. eexists _, _. split; [reflexivity|]. done.
  - destruct Hres as (l & -> & Hne & Hl). split; [done|]. intros Hlen.
    destruct (take_run l (r :: rs) p1) as (p' & Hrun & Hlast & Hs'); [done..|].
    exists p'. split; [|split; [done|unfold same_server in *; simpl in *; intuition congruence]].
    rewrite <-Hrun. simpl. unfold Pool_Next at 1 2. by rewrite Ha, E, Hl.
Qed.
End Pool.

Lemma pool_rounds_witness :
  let r := mkResolver (fun _ _ _ => None) (fun h => if decide (h = bytes_of "localhost") then Some [1%Z; 2%Z] else None) in
  ∃ p', next_run (fun _ => None) (fun _ => []) [r; r] (NewPool (bytes_of "localhost:80")) =
    Ret ([inr (mkAddr 1%Z 80); inr (mkAddr 2%Z 80)], p') ∧ IsLast p' = true.
Proof.
  intros r.
  destruct (pool_rounds (fun _ => None) (fun _ => []) (NewPool (bytes_of "localhost:80")) r [r] eq_refl) as [_ H].
  destruct (H eq_refl) as (p' & Hrun & Hl & _). exists p'. split; [exact Hrun|exact Hl].
Defined.
