(* ===== verification/Transports.v ===== *)
(** * lc-lib/transports: the transport interface and its events *)
From S2P Require Import Prelude Core Codecs.

(** Errors of a transport are opaque messages. *)
Abbreviation go_error := text.

(** The [Transport] interface, with its factory's [NewTransport].  [T] is the
    state of a transport and [F] the factory configured for the network; the
    events a transport sends arrive later on the sink's channel. *)
Class Transport (T F : Type) := {
  NewTransport : F → bool → T;
  transport_Fail : T → T;
  transport_Ping : T → option go_error * T;
  transport_ReloadConfig : F → bool → T → bool * T;
  transport_Shutdown : T → T;
  transport_Write : text → list EventDescriptor → T → option go_error * T;
}.

Inductive StatusChange := Started | Failed | Finished.

(** The events, addressed to the observer [O] (an endpoint). *)
Inductive TransportEvent (O : Type) :=
| StatusEvent (observer : O) (statusChange : StatusChange)
| AckEvent (observer : O) (nonce : text) (sequence : Z)
| PongEvent (observer : O).
Arguments StatusEvent {O}.
Arguments AckEvent {O}.
Arguments PongEvent {O}.

Definition event_Observer {O} (e : TransportEvent O) : O :=
  match e with StatusEvent o _ | AckEvent o _ _ | PongEvent o => o end.

(** ** [binary.BigEndian]: reading panics on a short slice *)
Definition byte_Z (b : byte) : Z := Z.of_N (Byte.to_N b).
Definition Z_byte (z : Z) : byte := default "000"%byte (Byte.of_N (Z.to_N (z mod 256))).

Definition be_Uint32 (s : text) : outcome Z :=
  match s with
  | a :: b :: c :: d :: _ =>
      Ret (byte_Z a * 2 ^ 24 + byte_Z b * 2 ^ 16 + byte_Z c * 2 ^ 8 + byte_Z d)%Z
  | _ => Panic
  end.

Definition be_PutUint32 (z : Z) : text :=
  [Z_byte (Z.shiftr z 24); Z_byte (Z.shiftr z 16); Z_byte (Z.shiftr z 8); Z_byte z].

Definition NewAckEventWithBytes {O} (observer : O) (nonce sequence : text) : outcome (TransportEvent O) :=
  z ← be_Uint32 sequence; Ret (AckEvent observer nonce z).

(** ** Lemmas *)
Lemma byte_Z_range b : (0 ≤ byte_Z b < 256)%Z.
Proof. unfold byte_Z. pose proof (Byte.to_N_bounded b). lia. Qed.

Lemma byte_Z_byte z : byte_Z (Z_byte z) = (z mod 256)%Z.
Proof.
  unfold byte_Z, Z_byte. pose proof (Z.mod_pos_bound z 256).
  destruct (Byte.of_N (Z.to_N (z mod 256))) as [b|] eqn:E.
  - apply Byte.to_of_N in E. simpl. rewrite E. lia.
  - apply Byte.of_N_None_iff in E. lia.
Qed.

Lemma be_roundtrip z rest : (0 ≤ z < 2 ^ 32)%Z → be_Uint32 (be_PutUint32 z ++ rest) = Ret z.
Proof.
  intros Hz. simpl. rewrite !byte_Z_byte, !Z.shiftr_div_pow2 by lia. f_equal.
  Z.to_euclidean_division_equations. lia.
Qed.

Lemma be_PutUint32_length z : zlen (be_PutUint32 z) = 4%Z.
Proof. reflexivity. Qed.

(** A word read from the wire is in range. *)
Lemma be_Uint32_range s z : be_Uint32 s = Ret z → (0 ≤ z < 2 ^ 32)%Z.
Proof.
  destruct s as [|a [|b [|c [|d s]]]]; try done. simpl. intros [= <-].
  pose proof (byte_Z_range a). pose proof (byte_Z_range b). pose proof (byte_Z_range c). pose proof (byte_Z_range d). lia.
Qed.
