(* ===== verification/Endpoint.v ===== *)
(** * lc-lib/endpoint: endpoints and the sink that manages them

    The publisher's routine owns the sink, its endpoints and the payloads; the
    file models that shared store as one [World] and every method as a state
    passing function on it.  Objects are named by positive numbers from one
    allocator.  Intrusive list elements are named after the object and the field
    they are, so that [Value] is [owner].

    The transport is an instance of [Transport]; what the publisher adds to the
    store is the parameter [X].  A closure registered as a timeout is the value
    of [callback] that describes it. *)
From S2P Require Import Prelude InternalList Core Payload Codecs AdminApi AddressPool Transports.

(** ** Names of elements and lists *)
Definition readyElement (e : positive) : positive := (e~0~0~0)%positive.
Definition failedElement (e : positive) : positive := (e~0~0~1)%positive.
Definition orderedElement (e : positive) : positive := (e~0~1~0)%positive.
Definition timeoutElement (t : positive) : positive := (t~0~1~1)%positive.
Definition payloadElement (p : positive) : positive := (p~1~0~0)%positive.
Definition resendElement (p : positive) : positive := (p~1~0~1)%positive.

Definition half (n : positive) : positive :=
  match n with (p~0)%positive | (p~1)%positive => p | xH => xH end.

Definition owner (n : positive) : positive := half (half (half n)).

Definition timeoutList : positive := 1.
Definition readyList : positive := 2.
Definition failedList : positive := 3.
Definition orderedList : positive := 4.
Definition payloadList : positive := 5.
Definition resendList : positive := 6.

(** ** [status.go] *)
Inductive status := endpointStatusIdle | endpointStatusActive | endpointStatusFailed | endpointStatusClosing.

#[export] Instance status_eq_dec : EqDecision status.
Proof. solve_decision. Defined.

(** The constants, whose order [IsAlive] relies on. *)
Definition status_num (s : status) : Z :=
  match s with
  | endpointStatusIdle => 0 | endpointStatusActive => 1
  | endpointStatusFailed => 2 | endpointStatusClosing => 3
  end%Z.

Definition status_String (s : status) : text :=
  match s with
  | endpointStatusIdle => bytes_of "Idle"
  | endpointStatusActive => bytes_of "Active"
  | endpointStatusFailed => bytes_of "Failed"
  | endpointStatusClosing => bytes_of "Shutting down"
  end.

(** ** The store *)

(** The closures registered as timeouts: of [sink_status.go], of the publisher and
    of its random method. *)
Inductive callback :=
| CbMarkActive (e : positive)
| CbTimeoutPending (e : positive)
| CbTimeoutKeepalive (e : positive)
| CbConnectRandom (m : positive).

Record Timeout := mkTimeout { timeoutDue : Z; timeoutFunc : option callback }.

Section World.
Context {T F IP : Type} `{Transport T F} `{Env}.

Record Endpoint := mkEndpoint {
  ep_status : status;
  ep_server : text;
  addressPool : positive;
  finishOnFail : bool;
  transport : T;
  pendingPayloads : gmap text positive;
  numPayloads : Z;
  pongPending : bool;
  lineCount : Z;
  averageLatency : float64;
  transmissionStart : Z;
  estDelTime : Z;
  warming : bool;
  backoff : ExpBackoff;
}.

(** [api] is nil unless the admin API is enabled; [timer] is the instant the
    timeout timer will fire, if it is running. *)
Record Sink := mkSink {
  sk_endpoints : gmap text positive;
  sk_config : Network F;
  sk_timer : option Z;
  sk_api : option (APIArray positive);
}.

Section Store.
Context {X : Type}.

Record World := mkWorld {
  w_mem : Mem;
  w_next : positive;
  w_tick : nat;
  w_endpoints : gmap positive Endpoint;
  w_payloads : gmap positive Payload;
  w_timeouts : gmap positive Timeout;
  w_pools : gmap positive (Pool (IP := IP));
  w_sink : Sink;
  w_ext : X;
}.

Definition set_mem (m : Mem) (w : World) : World :=
  mkWorld m (w_next w) (w_tick w) (w_endpoints w) (w_payloads w) (w_timeouts w) (w_pools w) (w_sink w) (w_ext w).
Definition set_next (n : positive) (w : World) : World :=
  mkWorld (w_mem w) n (w_tick w) (w_endpoints w) (w_payloads w) (w_timeouts w) (w_pools w) (w_sink w) (w_ext w).
Definition set_tick (n : nat) (w : World) : World :=
  mkWorld (w_mem w) (w_next w) n (w_endpoints w) (w_payloads w) (w_timeouts w) (w_pools w) (w_sink w) (w_ext w).
Definition set_endpoints (m : gmap positive Endpoint) (w : World) : World :=
  mkWorld (w_mem w) (w_next w) (w_tick w) m (w_payloads w) (w_timeouts w) (w_pools w) (w_sink w) (w_ext w).
Definition set_payloads (m : gmap positive Payload) (w : World) : World :=
  mkWorld (w_mem w) (w_next w) (w_tick w) (w_endpoints w) m (w_timeouts w) (w_pools w) (w_sink w) (w_ext w).
Definition set_timeouts (m : gmap positive Timeout) (w : World) : World :=
  mkWorld (w_mem w) (w_next w) (w_tick w) (w_endpoints w) (w_payloads w) m (w_pools w) (w_sink w) (w_ext w).
Definition set_pools (m : gmap positive (Pool (IP := IP))) (w : World) : World :=
  mkWorld (w_mem w) (w_next w) (w_tick w) (w_endpoints w) (w_payloads w) (w_timeouts w) m (w_sink w) (w_ext w).
Definition set_sink (s : Sink) (w : World) : World :=
  mkWorld (w_mem w) (w_next w) (w_tick w) (w_endpoints w) (w_payloads w) (w_timeouts w) (w_pools w) s (w_ext w).
Definition set_ext (x : X) (w : World) : World :=
  mkWorld (w_mem w) (w_next w) (w_tick w) (w_endpoints w) (w_payloads w) (w_timeouts w) (w_pools w) (w_sink w) x.

Definition W (A : Type) : Type := M World A.

(** Pointer operations on the lists. *)
Definition lists {A} (m : M Mem A) : W A := zoom w_mem set_mem m.

(** One read of the environment. *)
Definition read_env {A} (f : nat → A) : W A :=
  n ← gets w_tick; modify (set_tick (S n));; mret (f n).

Definition Now : W Z := read_env clock.

(** Allocation, and reading and updating objects through their pointers. *)
Definition alloc : W positive :=
  n ← gets w_next; modify (set_next (Pos.succ n));; mret n.

Definition get_endpoint (e : positive) : W Endpoint := o ← gets (fun w => w_endpoints w !! e); deref o.
Definition put_endpoint (e : positive) (ep : Endpoint) : W unit :=
  modify (fun w => set_endpoints (<[e := ep]> (w_endpoints w)) w).
Definition get_payload (p : positive) : W Payload := o ← gets (fun w => w_payloads w !! p); deref o.
Definition put_payload (p : positive) (pl : Payload) : W unit :=
  modify (fun w => set_payloads (<[p := pl]> (w_payloads w)) w).
Definition get_timeout (t : positive) : W Timeout := o ← gets (fun w => w_timeouts w !! t); deref o.
Definition put_timeout (t : positive) (x : Timeout) : W unit :=
  modify (fun w => set_timeouts (<[t := x]> (w_timeouts w)) w).
Definition get_sink : W Sink := gets w_sink.
Definition put_sink (s : Sink) : W unit := modify (set_sink s).

(** A pure call that may panic. *)
Definition lift {A} (o : outcome A) : W A :=
  match o with Ret a => mret a | Panic => panic | NoFuel => out_of_fuel end.

(** [for x := l.Front(); x != nil; x = x.Next()] over elements whose [Value]s are
    read: the owners in order.  A well-formed list has at most as many elements
    as the memory. *)
Definition iterate (l : positive) : W (list positive) :=
  n ← gets (fun w => size (elems (w_mem w)));
  as_ ← lists (traverse (S n) l);
  mret (omap (fun a => match a with Node x => Some (owner x) | Root _ => None end) as_).

Definition list_Front (l : positive) : W (option positive) :=
  a ← lists (Front l);
  mret (match (a : option addr) with Some (Node x) => Some (owner x) | _ => None end).

(** ** Endpoint fields *)
Definition ep_set_status (s : status) (e : Endpoint) : Endpoint :=
  mkEndpoint s (ep_server e) (addressPool e) (finishOnFail e) (transport e) (pendingPayloads e) (numPayloads e)
    (pongPending e) (lineCount e) (averageLatency e) (transmissionStart e) (estDelTime e) (warming e) (backoff e).
Definition ep_set_transport (t : T) (e : Endpoint) : Endpoint :=
  mkEndpoint (ep_status e) (ep_server e) (addressPool e) (finishOnFail e) t (pendingPayloads e) (numPayloads e)
    (pongPending e) (lineCount e) (averageLatency e) (transmissionStart e) (estDelTime e) (warming e) (backoff e).
Definition ep_set_pending (m : gmap text positive) (n : Z) (e : Endpoint) : Endpoint :=
  mkEndpoint (ep_status e) (ep_server e) (addressPool e) (finishOnFail e) (transport e) m n
    (pongPending e) (lineCount e) (averageLatency e) (transmissionStart e) (estDelTime e) (warming e) (backoff e).
Definition ep_set_pong (b : bool) (e : Endpoint) : Endpoint :=
  mkEndpoint (ep_status e) (ep_server e) (addressPool e) (finishOnFail e) (transport e) (pendingPayloads e) (numPayloads e)
    b (lineCount e) (averageLatency e) (transmissionStart e) (estDelTime e) (warming e) (backoff e).
Definition ep_set_lineCount (n : Z) (e : Endpoint) : Endpoint :=
  mkEndpoint (ep_status e) (ep_server e) (addressPool e) (finishOnFail e) (transport e) (pendingPayloads e) (numPayloads e)
    (pongPending e) n (averageLatency e) (transmissionStart e) (estDelTime e) (warming e) (backoff e).
Definition ep_set_latency (f : float64) (e : Endpoint) : Endpoint :=
  mkEndpoint (ep_status e) (ep_server e) (addressPool e) (finishOnFail e) (transport e) (pendingPayloads e) (numPayloads e)
    (pongPending e) (lineCount e) f (transmissionStart e) (estDelTime e) (warming e) (backoff e).
Definition ep_set_start (t : Z) (e : Endpoint) : Endpoint :=
  mkEndpoint (ep_status e) (ep_server e) (addressPool e) (finishOnFail e) (transport e) (pendingPayloads e) (numPayloads e)
    (pongPending e) (lineCount e) (averageLatency e) t (estDelTime e) (warming e) (backoff e).
Definition ep_set_estDelTime (t : Z) (e : Endpoint) : Endpoint :=
  mkEndpoint (ep_status e) (ep_server e) (addressPool e) (finishOnFail e) (transport e) (pendingPayloads e) (numPayloads e)
    (pongPending e) (lineCount e) (averageLatency e) (transmissionStart e) t (warming e) (backoff e).
Definition ep_set_warm (b : bool) (k : ExpBackoff) (e : Endpoint) : Endpoint :=
  mkEndpoint (ep_status e) (ep_server e) (addressPool e) (finishOnFail e) (transport e) (pendingPayloads e) (numPayloads e)
    (pongPending e) (lineCount e) (averageLatency e) (transmissionStart e) (estDelTime e) b k.

Definition update_endpoint (e : positive) (f : Endpoint → Endpoint) : W unit :=
  ep ← get_endpoint e; put_endpoint e (f ep).

Definition IsIdle (e : Endpoint) : bool := bool_decide (ep_status e = endpointStatusIdle).
Definition IsActive (e : Endpoint) : bool := bool_decide (ep_status e = endpointStatusActive).
Definition IsFailed (e : Endpoint) : bool := bool_decide (ep_status e = endpointStatusFailed).
Definition IsClosing (e : Endpoint) : bool := bool_decide (ep_status e = endpointStatusClosing).
Definition IsAlive (e : Endpoint) : bool :=
  negb (IsIdle e) && bool_decide (status_num (ep_status e) < status_num endpointStatusFailed)%Z.

(** ** [endpoint.go] *)

(** Called by [Init] on the new object. *)
Definition resetPayloads (e : positive) : W unit :=
  now ← Now;
  update_endpoint e (fun ep => ep_set_estDelTime now (ep_set_pending ∅ 0 ep)).

(** [orderedElement.Prev()] and [Next()]. *)
Definition endpoint_Prev (e : positive) : W (option positive) :=
  a ← lists (Prev (Node (orderedElement e)));
  mret (match (a : option addr) with Some (Node x) => Some (owner x) | _ => None end).
Definition endpoint_Next (e : positive) : W (option positive) :=
  a ← lists (Next (Node (orderedElement e)));
  mret (match (a : option addr) with Some (Node x) => Some (owner x) | _ => None end).

Definition shutdownTransport (e : positive) : W unit :=
  ep ← get_endpoint e;
  if IsClosing ep then put_endpoint e (ep_set_transport (transport_Shutdown (transport ep)) ep) else mret tt.

(** Sixteen random bytes. *)
Fixpoint random_bytes (n : nat) : W text :=
  match n with
  | O => mret []
  | S n' => r ← read_env (fun k => rand_Intn k 255); rest ← random_bytes n'; mret (Z_byte r :: rest)
  end.

Definition generateNonce : W text := random_bytes 16.

(** Drawing until the nonce is not pending on the endpoint. *)
Fixpoint fresh_nonce (fuel : nat) (pending : gmap text positive) : W text :=
  nonce ← generateNonce;
  match pending !! nonce with
  | None => mret nonce
  | Some _ => match fuel with O => out_of_fuel | S fuel' => fresh_nonce fuel' pending end
  end.

(** Each draw collides with a chance below [size pending / 255^16]. *)
Definition nonce_fuel : nat := 100.

(** The sums of [updateEstDelTime] are discarded: [time.Time.Add] returns the sum
    and leaves its receiver alone. *)
Definition updateEstDelTime (e : positive) : W unit :=
  now ← Now; update_endpoint e (ep_set_estDelTime now).

Definition queuePayload (e p : positive) : W (option go_error) :=
  ep ← get_endpoint e;
  if negb (IsActive ep) then panic
  else
    pl ← get_payload p;
    when (bool_decide (Nonce pl = []))
      (nonce ← fresh_nonce nonce_fuel (pendingPayloads ep); put_payload p (set_Nonce nonce pl));;
    pl ← get_payload p;
    update_endpoint e (fun ep =>
      ep_set_pending (<[Nonce pl := p]> (pendingPayloads ep)) (numPayloads ep + 1) ep);;
    updateEstDelTime e;;
    ep ← get_endpoint e;
    when (bool_decide (numPayloads ep = 1%Z))
      (now ← Now; update_endpoint e (ep_set_start now));;
    ep ← get_endpoint e;
    evs ← lift (Events pl);
    let '(err, t) := transport_Write (Nonce pl) evs (transport ep) in
    update_endpoint e (ep_set_transport t);;
    mret err.

Definition SendPing (e : positive) : W (option go_error) :=
  ep ← get_endpoint e;
  let '(err, t) := transport_Ping (transport ep) in
  put_endpoint e (ep_set_transport t (ep_set_pong true ep));;
  mret err.

Definition IsPinging (ep : Endpoint) : bool := pongPending ep.
Definition EstDelTime (ep : Endpoint) : Z := estDelTime ep.
Definition AverageLatency (ep : Endpoint) : Z := f64_to_int64 (averageLatency ep).
Definition NumPending (ep : Endpoint) : Z := numPayloads ep.
Definition IsWarming (ep : Endpoint) : bool := warming ep && bool_decide (numPayloads ep ≠ 0%Z).

Definition ReduceLatency (e : positive) : W unit :=
  update_endpoint e (fun ep => ep_set_latency (f64_mul (averageLatency ep) (f64_lit 99 100)) ep).

Definition PullBackPending (e : positive) : W (list positive) :=
  ep ← get_endpoint e;
  keys ← read_env (fun n => map_order n (fst <$> map_to_list (pendingPayloads ep)));
  resetPayloads e;;
  mret (omap (fun k => pendingPayloads ep !! k) keys).

Definition endpoint_ReloadConfig (e : positive) (config : Network F) (finishOnFail : bool) : W bool :=
  ep ← get_endpoint e;
  let '(b, t) := transport_ReloadConfig (Factory config) finishOnFail (transport ep) in
  put_endpoint e (ep_set_transport t ep);;
  mret b.

Definition forceFailure (e : positive) : W unit :=
  update_endpoint e (fun ep => ep_set_transport (transport_Fail (transport ep)) ep).

(** ** [sink_timeout.go] *)
Definition resetTimeoutTimer : W unit :=
  n ← lists (Len timeoutList);
  s ← get_sink;
  if decide (n = 0)%Z then put_sink (mkSink (sk_endpoints s) (sk_config s) None (sk_api s))
  else
    f ← list_Front timeoutList;
    t ← deref f;
    x ← get_timeout t;
    put_sink (mkSink (sk_endpoints s) (sk_config s) (Some (timeoutDue x)) (sk_api s)).

(** The element is taken out; [timeoutFunc] stays. *)
Definition ClearTimeout (t : positive) : W unit :=
  x ← get_timeout t;
  match timeoutFunc x with
  | None => mret tt
  | Some _ => lists (Remove timeoutList (Node (timeoutElement t)))
  end.

(** The last entry before the first one due after [due]. *)
Fixpoint due_before (due : Z) (ts : list positive) (previous : option positive) : W (option positive) :=
  match ts with
  | [] => mret previous
  | t :: ts' =>
      x ← get_timeout t;
      if decide (due < timeoutDue x)%Z then mret previous else due_before due ts' (Some t)
  end.

Definition RegisterTimeout (t : positive) (duration : Z) (func : callback) : W unit :=
  ClearTimeout t;;
  now ← Now;
  let due := (now + duration)%Z in
  put_timeout t (mkTimeout due (Some func));;
  ts ← iterate timeoutList;
  previous ← due_before due ts None;
  match previous with
  | None => lists (PushFront timeoutList (Node (timeoutElement t)));; mret tt
  | Some k => lists (InsertAfter timeoutList (Node (timeoutElement t)) (Node (timeoutElement k)));; mret tt
  end;;
  resetTimeoutTimer.

Section Timeouts.
(** How a registered closure runs. *)
Context (run_callback : callback → W unit).

Fixpoint timeouts_loop (fuel : nat) (t : positive) : W unit :=
  match fuel with
  | O => out_of_fuel
  | S fuel' =>
      lists (Remove timeoutList (Node (timeoutElement t)));;
      x ← get_timeout t;
      match timeoutFunc x with
      | None => mret tt
      | Some cb => put_timeout t (mkTimeout (timeoutDue x) None);; run_callback cb
      end;;
      next ← list_Front timeoutList;
      match next with
      | None => mret tt
      | Some t' =>
          now ← Now;
          x' ← get_timeout t';
          if decide (now < timeoutDue x')%Z then mret tt else timeouts_loop fuel' t'
      end
  end.

Definition ProcessTimeouts (fuel : nat) : W unit :=
  next ← list_Front timeoutList;
  match next with
  | None => mret tt
  | Some t => timeouts_loop fuel t;; resetTimeoutTimer
  end.
End Timeouts.

(** ** [sink_status.go] and [sink_process.go] *)

(** The [Observer] interface. *)
Record Observer := mkObserver {
  OnAck : positive → positive → bool → Z → W unit;
  OnFail : positive → W unit;
  OnFinish : positive → W bool;
  OnPong : positive → W unit;
  OnStarted : positive → W unit;
}.

Definition set_status (e : positive) (s : status) : W unit := update_endpoint e (ep_set_status s).

Definition markActive (e : positive) (o : Observer) : W unit :=
  ep ← get_endpoint e;
  if negb (IsIdle ep) then mret tt
  else
    set_status e endpointStatusActive;;
    lists (PushBack readyList (Node (readyElement e)));;
    OnStarted o e.

Definition moveFailed (e : positive) (o : option Observer) : W unit :=
  ep ← get_endpoint e;
  if negb (IsAlive ep) then mret tt
  else
    ClearTimeout e;;
    when (IsActive ep) (lists (Remove readyList (Node (readyElement e))));;
    let shutdown := IsClosing ep in
    update_endpoint e (fun ep => ep_set_latency f64_zero (ep_set_status endpointStatusFailed ep));;
    lists (PushFront failedList (Node (failedElement e)));;
    match o with Some o => OnFail o e | None => mret tt end;;
    when shutdown (shutdownTransport e).

Definition recoverFailed (e : positive) : W unit :=
  ep ← get_endpoint e;
  if negb (IsFailed ep) then mret tt
  else
    set_status e endpointStatusIdle;;
    lists (Remove failedList (Node (failedElement e)));;
    ep ← get_endpoint e;
    let '(delay, k) := Trigger (backoff ep) in
    put_endpoint e (ep_set_warm (warming ep) k ep);;
    RegisterTimeout e delay (CbMarkActive e).

(** ** [sink_list.go] *)
Definition sink_Count : W Z := s ← get_sink; mret (Z.of_nat (size (sk_endpoints s))).

Definition sink_Front : W (option positive) := list_Front orderedList.

Definition FindEndpoint (server : text) : W (option positive) :=
  s ← get_sink; mret (sk_endpoints s !! server).

Definition set_sink_endpoints (m : gmap text positive) : W unit :=
  s ← get_sink; put_sink (mkSink m (sk_config s) (sk_timer s) (sk_api s)).

Definition NewPool_alloc (server : text) : W positive :=
  p ← alloc; modify (fun w => set_pools (<[p := NewPool server]> (w_pools w)) w);; mret p.

(** The sum of the average latencies of the ready endpoints. *)
Fixpoint sum_latency (es : list positive) (acc : float64) : W float64 :=
  match es with
  | [] => mret acc
  | e :: es' =>
      ep ← get_endpoint e; sum_latency es' (f64_add acc (f64_of_Z (AverageLatency ep)))
  end.

(** A new endpoint after [Endpoint.Init]: transport, empty pending map, warming.
    Its elements point back to it by their number; its timeout and its payloads are
    set up in the store. *)
Definition Init (s : Sink) (server : text) (pool : positive) (finish : bool) (initialLatency : float64) : Endpoint :=
  mkEndpoint endpointStatusIdle server pool finish
    (NewTransport (Factory (sk_config s)) finish) ∅ 0 false 0 initialLatency zeroTime zeroTime true
    (NewExpBackoff (Backoff (sk_config s)) (BackoffMax (sk_config s))).

Definition addEndpoint (server : text) (pool : positive) (finish : bool) : W positive :=
  n ← lists (Len readyList);
  initialLatency ←
    (if decide (n = 0)%Z then mret f64_zero
     else
       es ← iterate readyList;
       sum ← sum_latency es f64_zero;
       mret (f64_mul (f64_div sum (f64_of_Z n)) (f64_lit 101 100)));
  s ← get_sink;
  e ← alloc;
  put_timeout e (mkTimeout zeroTime None);;
  put_endpoint e (Init s server pool finish initialLatency);;
  resetPayloads e;;
  set_sink_endpoints (<[server := e]> (sk_endpoints s));;
  mret e.

(** [s.api.AddEntry] when the API is enabled. *)
Definition api_add (server : text) (e : positive) : W unit :=
  s ← get_sink;
  match sk_api s with
  | None => mret tt
  | Some a => a' ← lift (AddEntry server e a); put_sink (mkSink (sk_endpoints s) (sk_config s) (sk_timer s) (Some a'))
  end.

Definition api_remove (server : text) : W unit :=
  s ← get_sink;
  match sk_api s with
  | None => mret tt
  | Some a => a' ← lift (RemoveEntry server a); put_sink (mkSink (sk_endpoints s) (sk_config s) (sk_timer s) (Some a'))
  end.

Definition AddEndpoint (server : text) (pool : positive) (finish : bool) : W positive :=
  e ← addEndpoint server pool finish;
  lists (PushBack orderedList (Node (orderedElement e)));;
  api_add server e;;
  mret e.

Definition AddEndpointAfter (server : text) (pool : positive) (finish : bool) (after : option positive) : W positive :=
  e ← addEndpoint server pool finish;
  match after with
  | None => lists (PushFront orderedList (Node (orderedElement e)));; mret tt
  | Some a => lists (MoveAfter orderedList (Node (orderedElement e)) (Node (orderedElement a)))
  end;;
  api_add server e;;
  mret e.

Definition MoveEndpointAfter (e : positive) (after : option positive) : W unit :=
  match after with
  | None => lists (PushFront orderedList (Node (orderedElement e)));; mret tt
  | Some a => lists (MoveAfter orderedList (Node (orderedElement e)) (Node (orderedElement a)))
  end.

(** The endpoint leaves the list its status puts it on. *)
Definition leave_list (e : positive) (ep : Endpoint) : W unit :=
  if IsActive ep then lists (Remove readyList (Node (readyElement e)))
  else if IsFailed ep then lists (Remove failedList (Node (failedElement e)))
  else mret tt.

Definition removeEndpoint (server : text) : W unit :=
  found ← FindEndpoint server;
  match found with
  | None => mret tt
  | Some e =>
      ep ← get_endpoint e;
      leave_list e ep;;
      x ← get_timeout e;
      match timeoutFunc x with
      | None => mret tt
      | Some _ => lists (Remove timeoutList (Node (timeoutElement e)));; resetTimeoutTimer
      end;;
      lists (Remove orderedList (Node (orderedElement e)));;
      api_remove server;;
      s ← get_sink;
      set_sink_endpoints (delete server (sk_endpoints s))
  end.

Definition ShutdownEndpoint (server : text) : W bool :=
  found ← FindEndpoint server;
  match found with
  | None => mret false
  | Some e =>
      ep ← get_endpoint e;
      if IsClosing ep then mret false
      else
        leave_list e ep;;
        set_status e endpointStatusClosing;;
        if negb (bool_decide (NumPending ep = 0%Z)) then mret true
        else
          x ← get_timeout e;
          match timeoutFunc x with
          | None => mret tt
          | Some _ => lists (Remove timeoutList (Node (timeoutElement e)))
          end;;
          shutdownTransport e;;
          mret true
  end.

(** ** [sink.go] *)
Definition NewSink (config : Network F) : Sink := mkSink ∅ config None None.

(** The variable [server] after the loop over [config.Servers] that found nothing:
    the last server listed, or the empty string. *)
Definition loop_server (servers : list text) : text := default [] (last servers).

Fixpoint reload_loop (fuel : nat) (config : Network F) (e : option positive) : W unit :=
  match e with
  | None => mret tt
  | Some e =>
      match fuel with
      | O => out_of_fuel
      | S fuel' =>
          ep ← get_endpoint e;
          when (negb (bool_decide (ep_server ep ∈ Servers config)))
            (ShutdownEndpoint (loop_server (Servers config));; mret tt);;
          next ← endpoint_Next e;
          reload_loop fuel' config next
      end
  end.

(** A well-formed ordered list has at most as many elements as the memory. *)
Definition sink_ReloadConfig (config : Network F) : W unit :=
  n ← gets (fun w => size (elems (w_mem w)));
  front ← sink_Front;
  reload_loop (S n) config front.

Definition sink_Shutdown : W unit :=
  s ← get_sink;
  servers ← read_env (fun n => map_order n (fst <$> map_to_list (sk_endpoints s)));
  forM_ servers (fun server => ShutdownEndpoint server;; mret tt).

(** ** [sink_endpoint.go] *)
Definition CanQueue : W bool := n ← lists (Len readyList); mret (bool_decide (0 < n)%Z).

Definition delivery_time (ep : Endpoint) (events : Z) : Z :=
  (EstDelTime ep + int64 (AverageLatency ep * events))%Z.

Fixpoint best_loop (events : Z) (es : list positive) (best : positive) (bestEDT : Z) : W positive :=
  match es with
  | [] => mret best
  | e :: es' =>
      ep ← get_endpoint e;
      if IsWarming ep then best_loop events es' best bestEDT
      else
        let edt := delivery_time ep events in
        if decide (edt < bestEDT)%Z
        then ReduceLatency best;; best_loop events es' e edt
        else ReduceLatency e;; best_loop events es' best bestEDT
  end.

(** A nil endpoint is returned when none is ready. *)
Definition QueuePayload (p : positive) : W (option positive * option go_error) :=
  n ← lists (Len readyList);
  front ← list_Front readyList;
  if decide (n = 1)%Z then
    e ← deref front; err ← queuePayload e p; mret (Some e, err)
  else
    match front with
    | None => mret (None, None)
    | Some e0 =>
        pl ← get_payload p;
        ep0 ← get_endpoint e0;
        es ← iterate readyList;
        best ← best_loop (Size pl) es e0 (delivery_time ep0 (Size pl));
        err ← queuePayload best p;
        mret (Some best, err)
    end.

Definition sink_ForceFailure (e : positive) : W unit :=
  ep ← get_endpoint e;
  if IsFailed ep then mret tt
  else moveFailed e None;; forceFailure e.

(** ** Events from the transports *)

(** [endpoint.processAck]: whether the payload is complete. *)
Definition endpoint_processAck (e : positive) (nonce : text) (sequence : Z) (o : Observer) : W bool :=
  ep ← get_endpoint e;
  match pendingPayloads ep !! nonce with
  | None => mret false
  | Some p =>
      pl ← get_payload p;
      let firstAck := negb (HasAck pl) in
      let '(lines, complete, pl') := Ack pl sequence in
      put_payload p pl';;
      (if complete then
         now ← Now;
         let ep := ep_set_pending (delete nonce (pendingPayloads ep)) (numPayloads ep - 1)
                     (ep_set_lineCount (lineCount ep + lines) ep) in
         put_endpoint e
           (ep_set_latency
              (CalculateRunningAverage math_Exp (f64_of_Z 1) (f64_of_Z 5) (averageLatency ep)
                 (f64_div (f64_of_Z (time_Sub now (transmissionStart ep))) (f64_of_Z (Size pl')))) ep);;
         updateEstDelTime e;;
         ep ← get_endpoint e;
         when (bool_decide (0 < numPayloads ep)%Z) (now ← Now; update_endpoint e (ep_set_start now));;
         update_endpoint e (fun ep => ep_set_warm false (Reset_backoff (backoff ep)) ep)
       else update_endpoint e (fun ep => ep_set_lineCount (lineCount ep + lines) ep));;
      OnAck o e p firstAck lines;;
      mret complete
  end.

Definition processPong (e : positive) (o : Observer) : W unit :=
  ep ← get_endpoint e;
  if negb (pongPending ep) then mret tt
  else put_endpoint e (ep_set_pong false ep);; OnPong o e.

Definition sink_processAck (e : positive) (nonce : text) (sequence : Z) (o : Observer) : W unit :=
  complete ← endpoint_processAck e nonce sequence o;
  if negb complete then mret tt
  else
    ep ← get_endpoint e;
    if negb (IsClosing ep) || bool_decide (0 < NumPending ep)%Z then mret tt
    else shutdownTransport e.

Definition processStatusChange (e : positive) (c : StatusChange) (o : Observer) : W unit :=
  match c with
  | Failed => moveFailed e (Some o)
  | Started =>
      ep ← get_endpoint e;
      if IsFailed ep then recoverFailed e else markActive e o
  | Finished =>
      ep ← get_endpoint e;
      removeEndpoint (ep_server ep);;
      s ← get_sink;
      if decide (ep_server ep ∈ Servers (sk_config s)) then
        again ← OnFinish o e;
        when again
          (pool ← NewPool_alloc (ep_server ep);
           ep ← get_endpoint e;
           AddEndpoint (ep_server ep) pool (finishOnFail ep);; mret tt)
      else mret tt
  end.

Definition ProcessEvent (ev : TransportEvent positive) (o : Observer) : W unit :=
  match ev with
  | StatusEvent e c => processStatusChange e c o
  | AckEvent e nonce sequence => sink_processAck e nonce sequence o
  | PongEvent e => processPong e o
  end.
End Store.
End World.
