(* ===== verification/Registrar.v ===== *)
(** * lc-lib/registrar: the resume offsets and their file

    The registrar's state maps each file stream to the offset to resume from.
    Events reach it in spools through a channel; after each spool the state is
    written to a file by way of a temporary one.  The file model follows the
    Unix sources ([registrar_other.go], [filestateos_linux.go]); JSON is a pair
    of parameters, of which only the class [RegistryJSON] is assumed, and
    os.FileInfo a type with the two numbers used. *)
From S2P Require Import Prelude Core Codecs Encodings.

(** ** The interface a spooler of registrar events offers its clients *)
Class EventSpooler (R E : Type) := {
  spool_Add : E → R → R;
  spool_Send : R → R;
  spool_Close : R → R;
}.

(** What a spooler of acknowledgements promises to the publisher: it keeps what is
    added, in order.  [spool_log] is everything accepted so far. *)
Class SpoolerLog (R : Type) `{EventSpooler R (list EventDescriptor)} := {
  spool_log : R → list EventDescriptor;
  spool_log_add : ∀ evs r, spool_log (spool_Add evs r) = spool_log r ++ evs;
  spool_log_send : ∀ r, spool_log (spool_Send r) = spool_log r;
  spool_log_close : ∀ r, spool_log (spool_Close r) = spool_log r;
}.

Section Registrar.
Context {FileInfo : Type} (fi_Ino fi_Dev : FileInfo → Z).

(** ** [filestate.go] *)
Record FileState := mkFileState {
  Inode : Z;
  Device : Z;
  Source : text;
  Offset : Z;
}.

#[export] Instance FileState_eq_dec : EqDecision FileState.
Proof. solve_decision. Defined.

(** [PopulateFileIds] and [FileStateOS.SameAs]. *)
Definition PopulateFileIds (info : FileInfo) (fs : FileState) : FileState :=
  mkFileState (fi_Ino info) (fi_Dev info) (Source fs) (Offset fs).

Definition FileState_SameAs (fs : FileState) (info : FileInfo) : bool :=
  let state := PopulateFileIds info (mkFileState 0 0 [] 0) in
  bool_decide (Inode fs = Inode state) && bool_decide (Device fs = Device state).

(** A [FileIdentity] is what the registrar stored, or, once promoted by [Update],
    the file information itself. *)
Inductive FileIdentity :=
| IdState (fs : FileState)
| IdInfo (info : FileInfo).

(** [os.SameFile] compares device and inode on Unix. *)
Definition SameFile (a b : FileInfo) : bool :=
  bool_decide (fi_Dev a = fi_Dev b) && bool_decide (fi_Ino a = fi_Ino b).

Definition SameAs (i : FileIdentity) (info : FileInfo) : bool :=
  match i with
  | IdState fs => FileState_SameAs fs info
  | IdInfo fi => SameFile info fi
  end.

Definition identity_Stat (i : FileIdentity) : option FileInfo :=
  match i with IdState _ => None | IdInfo info => Some info end.

Definition identity_Update (info : FileInfo) (i : FileIdentity) : FileIdentity := IdInfo info.

(** ** The events *)
Inductive RegEvent :=
| RegAck (events : list EventDescriptor)
| RegDeleted (stream : Stream)
| RegDiscover (stream : Stream) (source : text) (offset : Z) (info : FileInfo)
| RegRenamed (stream : Stream) (source : text).

Abbreviation state_map := (gmap Stream FileState).

(** One event of an acknowledgement. *)
Definition ack_one (st : state_map) (ev : EventDescriptor) : state_map :=
  match st !! ed_Stream ev with
  | None => st
  | Some fs => <[ed_Stream ev := mkFileState (Inode fs) (Device fs) (Source fs) (ed_Offset ev)]> st
  end.

Definition AckEvent_Process (events : list EventDescriptor) (st : state_map) : state_map := foldl ack_one st events.
Definition DeletedEvent_Process (stream : Stream) (st : state_map) : state_map := delete stream st.
Definition DiscoverEvent_Process (stream : Stream) (source : text) (offset : Z) (info : FileInfo) (st : state_map) : state_map :=
  <[stream := PopulateFileIds info (mkFileState 0 0 source offset)]> st.
(** The offset is kept; a stream that is not known is ignored. *)
Definition RenamedEvent_Process (stream : Stream) (source : text) (st : state_map) : state_map :=
  match st !! stream with
  | None => st
  | Some fs => <[stream := mkFileState (Inode fs) (Device fs) source (Offset fs)]> st
  end.

Definition Process (e : RegEvent) (st : state_map) : state_map :=
  match e with
  | RegAck events => AckEvent_Process events st
  | RegDeleted stream => DeletedEvent_Process stream st
  | RegDiscover stream source offset info => DiscoverEvent_Process stream source offset info st
  | RegRenamed stream source => RenamedEvent_Process stream source st
  end.

(** ** The files: the state file and its temporary *)
Record disk := mkDisk { file_main : option text; file_new : option text }.

Section Persist.
Context (encode : gmap text FileState → text) (decode : text → option (gmap text FileState)).

(** The order in which Go ranges over the state is [order]. *)
Definition toCanonical (order : list Stream) (st : state_map) : gmap text FileState :=
  foldl (fun c s => match st !! s with Some fs => <[Source fs := fs]> c | None => c end) ∅ order.

(** Of JSON: a registry is read back as it was written, when its numbers are those
    of the Go types and its names are UTF-8 - encoding/json replaces any other
    bytes. *)
Definition json_state (fs : FileState) : bool :=
  valid_utf8 (Source fs) && bool_decide (0 ≤ Inode fs < 2 ^ 64)%Z && bool_decide (0 ≤ Device fs < 2 ^ 64)%Z &&
  bool_decide (- 2 ^ 63 ≤ Offset fs < 2 ^ 63)%Z.
Definition json_registry (m : gmap text FileState) : Prop :=
  map_Forall (fun f fs => valid_utf8 f = true ∧ json_state fs = true) m.
Class RegistryJSON : Prop := registry_json : ∀ m, json_registry m → decode (encode m) = Some m.

(** A registry of a table: under each name the table has, the state of a stream of
    that name, and no other names.  (Two streams with one name would be reported as
    a bug by [toCanonical]; then one of them is recorded.) *)
Definition recorded (st : state_map) (data : gmap text FileState) : Prop :=
  ∀ f, match data !! f with
       | Some fs => ∃ s, st !! s = Some fs ∧ Source fs = f
       | None => ∀ s fs, st !! s = Some fs → Source fs ≠ f
       end.

(** A table that JSON carries. *)
Definition json_table (st : state_map) : Prop := map_Forall (fun _ fs => json_state fs = true) st.

(** An order in which Go may range over a table. *)
Definition range_order (st : state_map) (order : list Stream) : Prop := order ≡ₚ (fst <$> map_to_list st).

(** The steps of [writeRegistry] on the disk: create (truncating) the temporary
    file, write it, rename it over the state file; on Windows the state file is
    removed before.  Each may be the last one to happen before a crash. *)
Inductive write_step := SCreate | SEncode (data : text) | SRemove | SRename.

#[export] Instance write_step_eq_dec : EqDecision write_step.
Proof. solve_decision. Defined.

Definition write_steps (order : list Stream) (st : state_map) : list write_step :=
  [SCreate; SEncode (encode (toCanonical order st)); SRename].

Definition disk_step (d : disk) (s : write_step) : disk :=
  match s with
  | SCreate => mkDisk (file_main d) (Some [])
  | SEncode data =>
      match file_new d with Some old => mkDisk (file_main d) (Some (old ++ data)) | None => d end
  | SRemove => mkDisk None (file_new d)
  | SRename =>
      match file_new d with Some data => mkDisk (Some data) None | None => d end
  end.

(** [writeRegistry]; [fails] says whether creating the file or renaming it fails,
    an error that is returned.  Failures of the encoder are not looked at. *)
Definition writeRegistry (create_fails rename_fails : bool) (order : list Stream) (st : state_map) (d : disk)
  : bool * disk :=
  if create_fails then (false, d)
  else
    let d2 := disk_step (disk_step d SCreate) (SEncode (encode (toCanonical order st))) in
    if rename_fails then (false, d2) else (true, disk_step d2 SRename).

(** The data [LoadPrevious] reads: from the state file or else the temporary one;
    a decoding error is ignored and leaves no data.  [None]: nothing to load. *)
Definition load_data (d : disk) : option (gmap text FileState) :=
  match file_main d with
  | Some t => Some (default ∅ (decode t))
  | None => match file_new d with Some t => Some (default ∅ (decode t)) | None => None end
  end.

(** ** The registrar *)
Record Registrar := mkRegistrar {
  registrar_chan : list (list RegEvent);
  chan_closed : bool;
  references : Z;
  reg_state : state_map;
  reg_disk : disk;
}.

Definition NewRegistrar (d : disk) : Registrar := mkRegistrar [] false 0 ∅ d.

Definition Connect (r : Registrar) : Registrar :=
  mkRegistrar (registrar_chan r) (chan_closed r) (references r + 1) (reg_state r) (reg_disk r).

(** Closing a closed channel panics. *)
Definition dereferenceSpooler (r : Registrar) : outcome Registrar :=
  let n := (references r - 1)%Z in
  if decide (n = 0)%Z then
    if chan_closed r then Panic
    else Ret (mkRegistrar (registrar_chan r) true n (reg_state r) (reg_disk r))
  else Ret (mkRegistrar (registrar_chan r) (chan_closed r) n (reg_state r) (reg_disk r)).

(** [LoadPrevious] with a callback that names the stream of each file (or fails,
    leaving the streams named so far); [files] is the order in which Go ranges
    over the data. *)
Fixpoint load_streams {err : Type} (callback : text → FileState → err + Stream) (data : gmap text FileState)
    (files : list text) (st : state_map) : option err * state_map :=
  match files with
  | [] => (None, st)
  | f :: fs =>
      match data !! f with
      | None => load_streams callback data fs st
      | Some s =>
          match callback f s with
          | inl e => (Some e, st)
          | inr stream => load_streams callback data fs (<[stream := s]> st)
          end
      end
  end.

Inductive load_result (err : Type) :=
| LoadedNothing
| Loaded
| LoadCallbackError (e : err)
| LoadWriteError.
Arguments LoadedNothing {err}.
Arguments Loaded {err}.
Arguments LoadCallbackError {err}.
Arguments LoadWriteError {err}.

Definition LoadPrevious {err : Type} (callback : text → FileState → err + Stream) (files : list text)
    (create_fails rename_fails : bool) (order : list Stream) (r : Registrar) : load_result err * Registrar :=
  match load_data (reg_disk r) with
  | None => (LoadedNothing, r)
  | Some data =>
      let '(e, st) := load_streams callback data files ∅ in
      let r := mkRegistrar (registrar_chan r) (chan_closed r) (references r) st (reg_disk r) in
      match e with
      | Some e => (LoadCallbackError e, r)
      | None =>
          let '(ok, d) := writeRegistry create_fails rename_fails order st (reg_disk r) in
          (if (ok : bool) then Loaded else LoadWriteError,
           mkRegistrar (registrar_chan r) (chan_closed r) (references r) st d)
      end
  end.

(** One iteration of [Run]; [None] when the closed channel ends it.  A write that
    fails is only logged. *)
Definition registrar_step (create_fails rename_fails : bool) (order : list Stream) (r : Registrar) : option Registrar :=
  match registrar_chan r with
  | [] => if chan_closed r then None else Some r
  | spool :: rest =>
      let st := foldl (fun st e => Process e st) (reg_state r) spool in
      let '(_, d) := writeRegistry create_fails rename_fails order st (reg_disk r) in
      Some (mkRegistrar rest (chan_closed r) (references r) st d)
  end.

(** ** [eventspool.go] *)
Record EventSpool := mkSpool { sp_events : list RegEvent; sp_registrar : Registrar }.

Definition newEventSpool (r : Registrar) : EventSpool := mkSpool [] r.

Definition spool_push (events : list RegEvent) (r : Registrar) : Registrar :=
  mkRegistrar (registrar_chan r ++ [events]) (chan_closed r) (references r) (reg_state r) (reg_disk r).

#[export] Instance EventSpooler_spool : EventSpooler EventSpool RegEvent := {
  spool_Add e s := mkSpool (sp_events s ++ [e]) (sp_registrar s);
  spool_Send s :=
    if decide (sp_events s = []) then s
    else mkSpool [] (spool_push (sp_events s) (sp_registrar s));
  spool_Close s :=
    mkSpool (sp_events s) (match dereferenceSpooler (sp_registrar s) with Ret r => r | _ => sp_registrar s end);
}.

(** ** Histories *)

(** [Run] until the channel is empty, the writes failing as [fails] says. *)
Fixpoint drain (fails : list (bool * bool)) (order : list Stream) (r : Registrar) : option Registrar :=
  match fails with
  | [] => Some r
  | (c, n) :: fails' => match registrar_step c n order r with Some r' => drain fails' order r' | None => None end
  end.

(** The offset a stream resumes from, event by event: the reference. *)
Definition resume_one (s : Stream) (cur : option Z) (e : RegEvent) : option Z :=
  match e with
  | RegAck events =>
      match cur with
      | None => None
      | Some _ => match last (filter (fun ev => ed_Stream ev = s) events) with
                  | Some ev => Some (ed_Offset ev) | None => cur end
      end
  | RegDeleted s' => if decide (s' = s) then None else cur
  | RegDiscover s' _ offset _ => if decide (s' = s) then Some offset else cur
  | RegRenamed _ _ => cur
  end.

(** The offsets acknowledged for a stream, in order. *)
Definition stream_offsets (s : Stream) (events : list EventDescriptor) : list Z :=
  ed_Offset <$> filter (fun ev => ed_Stream ev = s) events.

(** What a crash during [writeRegistry] can leave: some of the steps done, and
    the write possibly torn. *)
Inductive crash_prefix : list write_step → list write_step → Prop :=
| crash_now ss : crash_prefix ss []
| crash_torn data data' ss : data' `prefix_of` data → crash_prefix (SEncode data :: ss) [SEncode data']
| crash_later s ss ss' : crash_prefix ss ss' → crash_prefix (s :: ss) (s :: ss').

(** ** Lemmas *)
Lemma ack_one_offset s st ev :
  Offset <$> ack_one st ev !! s =
    match Offset <$> st !! s with
    | None => None
    | Some o => Some (if decide (ed_Stream ev = s) then ed_Offset ev else o)
    end.
Proof.
  unfold ack_one. destruct (decide (ed_Stream ev = s)) as [<-|Hne].
  - destruct (st !! ed_Stream ev) eqn:E; simpl; [|by rewrite E]. by rewrite lookup_insert_eq.
  - destruct (st !! ed_Stream ev); [|by destruct (st !! s)]. rewrite lookup_insert_ne by done. by destruct (st !! s).
Qed.

Lemma Process_offset s e st :
  Offset <$> Process e st !! s = resume_one s (Offset <$> st !! s) e.
Proof.
  destruct e as [events|s'|s' src off info|s' src]; cbn [Process];
    unfold AckEvent_Process, DeletedEvent_Process, DiscoverEvent_Process, RenamedEvent_Process; simpl.
  - induction events as [|ev events IH] using rev_ind; simpl; [by destruct (st !! s)|].
    rewrite foldl_snoc, ack_one_offset, IH, filter_app, filter_cons, filter_nil.
    destruct (Offset <$> st !! s); simpl; [|done]. case_decide.
    + by rewrite last_snoc; destruct (last _).
    + rewrite app_nil_r. by destruct (last _).
  - case_decide as Hs; [subst; by rewrite lookup_delete_eq|by rewrite lookup_delete_ne].
  - case_decide as Hs; [subst; by rewrite lookup_insert_eq|by rewrite lookup_insert_ne].
  - destruct (st !! s') eqn:E; [|done]. destruct (decide (s' = s)) as [->|Hs].
    + by rewrite lookup_insert_eq, E.
    + by rewrite lookup_insert_ne.
Qed.

Lemma foldl_Process_offset s es st :
  Offset <$> foldl (fun st e => Process e st) st es !! s = foldl (resume_one s) (Offset <$> st !! s) es.
Proof. revert st. induction es as [|e es IH]; intros st; simpl; [done|]. by rewrite IH, Process_offset. Qed.

Lemma stream_offsets_app s l1 l2 : stream_offsets s (l1 ++ l2) = stream_offsets s l1 ++ stream_offsets s l2.
Proof. unfold stream_offsets. by rewrite filter_app, fmap_app. Qed.

Lemma resume_one_acks s o evs : resume_one s (Some o) (RegAck evs) = Some (default o (last (stream_offsets s evs))).
Proof. unfold stream_offsets. rewrite fmap_last. cbn [resume_one]. by destruct (last (filter _ evs)). Qed.

Lemma drain_run fails order r spools :
  registrar_chan r = spools → length fails = length spools →
  ∃ r', drain fails order r = Some r' ∧ registrar_chan r' = [] ∧ chan_closed r' = chan_closed r ∧
    references r' = references r ∧
    reg_state r' = foldl (fun st e => Process e st) (reg_state r) (concat spools).
Proof.
  revert r spools. induction fails as [|[c n] fails IH]; intros r spools Hc Hl; destruct spools as [|sp spools]; try done.
  - by exists r.
  - cbn [drain]. unfold registrar_step. rewrite Hc.
    destruct (writeRegistry c n order _ _) as [ok d] eqn:E.
    destruct (IH (mkRegistrar spools (chan_closed r) (references r)
      (foldl (fun st e => Process e st) (reg_state r) sp) d) spools eq_refl) as (r' & -> & ? & ? & ? & Hst); [by injection Hl|].
    exists r'. simpl in *. by rewrite foldl_app.
Qed.

(** ** Properties *)

(** C6. The registrar applies the spools it is sent in the order they were sent,
    whether or not the writes succeed: afterwards the offset of every stream is
    the one of the last acknowledged event of that stream since it was last
    discovered, unaffected by other streams, and deleted streams have none. *)
Theorem registrar_offsets r fails order s :
  length fails = length (registrar_chan r) →
  ∃ r', drain fails order r = Some r' ∧ registrar_chan r' = [] ∧
    Offset <$> reg_state r' !! s =
      foldl (resume_one s) (Offset <$> reg_state r !! s) (concat (registrar_chan r)).
Proof.
  intros Hl. destruct (drain_run fails order r _ eq_refl Hl) as (r' & Hd & Hc & _ & _ & Hst).
  exists r'. do 2 (split; [done|]). by rewrite Hst, foldl_Process_offset.
Qed.

Lemma toCanonical_inv order st f fs : toCanonical order st !! f = Some fs → ∃ s, st !! s = Some fs ∧ Source fs = f.
Proof.
  unfold toCanonical. induction order as [|s order IH] using rev_ind; [done|]. rewrite foldl_snoc.
  destruct (st !! s) as [fs'|] eqn:E; [|done]. intros [[<- <-]|[_ Hf]]%lookup_insert_Some; eauto.
Qed.

(** What is written is a registry of the table. *)
Lemma toCanonical_recorded order st : range_order st order → recorded st (toCanonical order st).
Proof.
  intros Hord f. destruct (toCanonical order st !! f) as [fs|] eqn:E; [by apply toCanonical_inv in E|].
  intros s fs Hs <-. assert (Hin : s ∈ order).
  { unfold range_order in Hord. rewrite Hord. apply list_elem_of_fmap. exists (s, fs). split; [done|]. by apply elem_of_map_to_list. }
  clear Hord. revert E Hin. unfold toCanonical.
  induction order as [|s' order IH] using rev_ind; [by intros _ ?%elem_of_nil|].
  rewrite elem_of_app, list_elem_of_singleton, foldl_snoc. intros E [Hin|<-].
  - apply IH; [|done]. destruct (st !! s'); [|done]. by apply lookup_insert_None in E as [E _].
  - rewrite Hs in E. by rewrite lookup_insert_eq in E.
Qed.

(** When no other stream has its name, the state of a stream is recorded. *)
Lemma recorded_unique st data s fs :
  recorded st data → st !! s = Some fs → (∀ s' fs', st !! s' = Some fs' → Source fs' = Source fs → s' = s) →
  data !! Source fs = Some fs.
Proof.
  intros Hrec Hs Huniq. specialize (Hrec (Source fs)). destruct (data !! Source fs) as [fs'|].
  - destruct Hrec as (s' & Hs' & Heq). pose proof (Huniq _ _ Hs' Heq) as ->. congruence.
  - by destruct (Hrec _ _ Hs).
Qed.

Lemma toCanonical_json order st : json_table st → json_registry (toCanonical order st).
Proof.
  intros Hj f fs Hf. apply toCanonical_inv in Hf as (s & Hs & <-). specialize (Hj s fs Hs). simpl in Hj. split; [|done].
  unfold json_state in Hj. by repeat (apply andb_true_iff in Hj as [Hj _]).
Qed.

(** What a crash anywhere in a later write leaves to be loaded. *)
Lemma crash_loads `{!RegistryJSON} order st d order' st' ss :
  json_table st → json_table st' → crash_prefix (write_steps order' st') ss →
  load_data (foldl disk_step (snd (writeRegistry false false order st d)) ss) =
    Some (if decide (ss = write_steps order' st') then toCanonical order' st' else toCanonical order st).
Proof.
  intros Hst Hst' Hp. pose proof (registry_json _ (toCanonical_json order st Hst)) as Hd. pose proof (registry_json _ (toCanonical_json order' st' Hst')) as Hd'.
  unfold write_steps in *.
  inversion Hp as [| |? ? ? Hp1]; subst; [rewrite decide_False by done; unfold load_data; simpl; by rewrite Hd|].
  inversion Hp1 as [|? ? ? Hpre|? ? ? Hp2]; subst; [rewrite decide_False by done; unfold load_data; simpl; by rewrite Hd..|].
  inversion Hp2 as [| |? ? ? Hp3]; subst; [rewrite decide_False by done; unfold load_data; simpl; by rewrite Hd|].
  inversion Hp3; subst. rewrite decide_True by done. unfold load_data. simpl. by rewrite Hd'.
Qed.

(** [LoadPrevious] gives each file the stream its callback names. *)
Lemma load_streams_run {err} (callback : text → FileState → err + Stream) (stream : text → Stream) data files st :
  (∀ f fs, data !! f = Some fs → callback f fs = inr (stream f)) →
  (∀ f g, is_Some (data !! f) → is_Some (data !! g) → stream f = stream g → f = g) →
  ∃ st', load_streams callback data files st = (None, st') ∧
    ∀ s fs, st' !! s = Some fs ↔
      (∃ f, f ∈ files ∧ data !! f = Some fs ∧ s = stream f) ∨
      (st !! s = Some fs ∧ ∀ f, f ∈ files → is_Some (data !! f) → s ≠ stream f).
Proof.
  intros Hcb Hinj. revert st. induction files as [|f files IH]; intros st; cbn [load_streams].
  { exists st. split; [done|]. intros s fs. split; [|intros [(f & ?%elem_of_nil & _)|[? _]]; done].
    intros Hs. right. split; [done|]. by intros f ?%elem_of_nil. }
  destruct (data !! f) as [fs0|] eqn:Ef.
  - rewrite (Hcb _ _ Ef). destruct (IH (<[stream f := fs0]> st)) as (st' & -> & Hst'). exists st'. split; [done|].
    intros s fs. rewrite Hst', lookup_insert_Some. split.
    + intros [(g & Hg & Hd & ->)|[[[<- <-]|[Hne Hs]] Hno]]; [left; exists g; split; [by right|done]|left; exists f; split; [by left|done]|].
      right. split; [done|]. intros g [->|Hg]%elem_of_cons Hd; [congruence|by apply Hno].
    + intros [(g & Hg & Hd & ->)|[Hs Hno]].
      * destruct (decide (g ∈ files)) as [Hg'|Hg']; [left; eauto|]. apply elem_of_cons in Hg as [->|Hg]; [|done].
        right. split; [left; split; [done|congruence]|]. intros h Hh [fsh Hdh] Heq. apply Hg'.
        apply Hinj in Heq; [by subst|by eexists|by eexists].
      * right. split; [right; split; [|done]; intros Heq; exact (Hno f ltac:(by left) (mk_is_Some _ _ Ef) (eq_sym Heq))|].
        intros g Hg. apply Hno. by right.
  - destruct (IH st) as (st' & -> & Hst'). exists st'. split; [done|]. intros s fs. rewrite Hst'. split.
    + intros [(g & Hg & Hd & ->)|[Hs Hno]]; [left; exists g; split; [by right|done]|]. right. split; [done|].
      intros g [->|Hg]%elem_of_cons Hd; [rewrite Ef in Hd; by destruct Hd|by apply Hno].
    + intros [(g & [->|Hg]%elem_of_cons & Hd & ->)|[Hs Hno]]; [congruence|left; eauto|]. right. split; [done|].
      intros g Hg. apply Hno. by right.
Qed.

(** Loading a registry: every state of it, under its new stream, and nothing else. *)
Lemma LoadPrevious_run {err} (callback : text → FileState → err + Stream) (stream : text → Stream) data files order r :
  load_data (reg_disk r) = Some data →
  (∀ f fs, data !! f = Some fs → callback f fs = inr (stream f)) →
  (∀ f g, is_Some (data !! f) → is_Some (data !! g) → stream f = stream g → f = g) →
  files ≡ₚ (fst <$> map_to_list data) →
  ∃ r', LoadPrevious callback files false false order r = (Loaded, r') ∧
    (∀ s' fs, reg_state r' !! s' = Some fs ↔ ∃ f, data !! f = Some fs ∧ s' = stream f) ∧
    reg_disk r' = snd (writeRegistry false false order (reg_state r') (reg_disk r)).
Proof.
  intros Hload Hcb Hinj Hfiles. unfold LoadPrevious. rewrite Hload.
  destruct (load_streams_run callback stream data files ∅ Hcb Hinj) as (st' & -> & Hst').
  eexists. split; [reflexivity|]. split; [|done]. intros s' fs. cbn [reg_state]. rewrite Hst', lookup_empty. split; [naive_solver|].
  intros (f & Hd & ->). left. exists f. split; [|done]. rewrite Hfiles. apply list_elem_of_fmap.
  exists (f, fs). split; [done|]. by apply elem_of_map_to_list.
Qed.

(** The table loaded writes the registry it was loaded from. *)
Lemma toCanonical_loaded (stream : text → Stream) data st order :
  (∀ f fs, data !! f = Some fs → Source fs = f) →
  (∀ s fs, st !! s = Some fs ↔ ∃ f, data !! f = Some fs ∧ s = stream f) →
  range_order st order → toCanonical order st = data.
Proof.
  intros Hsrc Hst Hord. apply map_eq. intros f. pose proof (toCanonical_recorded order st Hord f) as Hrec.
  destruct (toCanonical order st !! f) as [fs|].
  - destruct Hrec as (s & (f' & Hd & ->)%Hst & <-). by rewrite (Hsrc _ _ Hd).
  - destruct (data !! f) as [fs|] eqn:Ed; [|done]. exfalso. apply (Hrec (stream f) fs); [apply Hst; eauto|by apply Hsrc].
Qed.

Lemma range_order_loaded (stream : text → Stream) data st files order :
  (∀ s fs, st !! s = Some fs ↔ ∃ f, data !! f = Some fs ∧ s = stream f) → (∀ f g, stream f = stream g → f = g) →
  files ≡ₚ (fst <$> map_to_list data) → order ≡ₚ stream <$> files → range_order st order.
Proof.
  intros Hst Hinj Hfiles Hord. apply NoDup_Permutation.
  - rewrite Hord, Hfiles. apply NoDup_fmap_2_strong; [|apply NoDup_fst_map_to_list]. intros f g _ _. apply Hinj.
  - apply NoDup_fst_map_to_list.
  - intros s. rewrite Hord, Hfiles, !list_elem_of_fmap. split.
    + intros (f & -> & Hf). apply list_elem_of_fmap in Hf as ([g fs] & -> & Hd%elem_of_map_to_list).
      exists (stream g, fs). split; [done|]. apply elem_of_map_to_list, Hst. eauto.
    + intros ([a fs] & -> & (f & Hd & ->)%elem_of_map_to_list%Hst). exists f. split; [done|].
      apply list_elem_of_fmap. exists (f, fs). split; [done|]. by apply elem_of_map_to_list.
Qed.

(** C10. A registry that was written is read back by [LoadPrevious].  If the program
    stops anywhere during a later write, even with part of the data written, what is
    loaded is the whole of the new registry when the write was completed, and the
    whole of the previous one otherwise.  It has the name of every file in the
    table written and no other, each with the state of a stream of that name; the
    table loaded has exactly these states, each under the stream that the callback
    gives the file, and the write at the end leaves the same registry.  (For names
    that are UTF-8, and a callback that names different streams for different
    files.) *)
Theorem registry_roundtrip `{!RegistryJSON} order st d order' st' ss r (last := if decide (ss = write_steps order' st') then st' else st) :
  json_table st → json_table st' → range_order st order → range_order st' order' →
  crash_prefix (write_steps order' st') ss →
  reg_disk r = foldl disk_step (snd (writeRegistry false false order st d)) ss →
  ∃ data, recorded last data ∧
    ∀ err (callback : text → FileState → err + Stream) (stream : text → Stream) files order2,
      (∀ f fs, callback f fs = inr (stream f)) → (∀ f g, stream f = stream g → f = g) →
      files ≡ₚ (fst <$> map_to_list data) → order2 ≡ₚ stream <$> files →
      ∃ r', LoadPrevious callback files false false order2 r = (Loaded, r') ∧
        (∀ s' fs, reg_state r' !! s' = Some fs ↔ ∃ f, data !! f = Some fs ∧ s' = stream f) ∧
        load_data (reg_disk r') = Some data.
Proof.
  intros Hst Hst' Hord Hord' Hcrash Hdisk.
  set (data := if decide (ss = write_steps order' st') then toCanonical order' st' else toCanonical order st).
  assert (Hload : load_data (reg_disk r) = Some data) by (rewrite Hdisk; by apply crash_loads).
  assert (Hrec : recorded last data) by (unfold last, data; destruct (decide _); by apply toCanonical_recorded).
  assert (Hjson : json_registry data) by (unfold data; destruct (decide _); by apply toCanonical_json).
  exists data. split; [done|]. intros err callback stream files order2 Hcb Hinj Hfiles Hord2.
  destruct (LoadPrevious_run callback stream data files order2 r Hload) as (r' & Hr & Hst2 & Hd2); [auto..|].
  exists r'. split; [done|]. split; [done|]. rewrite Hd2. unfold load_data. simpl.
  rewrite (toCanonical_loaded stream data); [by rewrite registry_json| |done|].
  - intros f fs Hf. specialize (Hrec f). rewrite Hf in Hrec. by destruct Hrec as (s & _ & ->).
  - by apply (range_order_loaded stream data _ files).
Qed.

(** The channel is closed exactly when the last of the spoolers connected
    has closed, and a spooler too many panics. *)
Theorem registrar_references n r :
  references r = 0%Z → chan_closed r = false →
  let close k r := Nat.iter k (fun o => o ≫= dereferenceSpooler) (Ret (Nat.iter (S n) Connect r)) in
  (∀ k, k < S n → ∃ r', close k r = Ret r' ∧ chan_closed r' = false ∧ references r' = Z.of_nat (S n - k)) ∧
  ∃ r', close (S n) r = Ret r' ∧ chan_closed r' = true ∧ dereferenceSpooler (Connect r') = Panic.
Proof.
  intros Href Hcl close.
  assert (Hcon : ∀ k, references (Nat.iter k Connect r) = Z.of_nat k ∧ chan_closed (Nat.iter k Connect r) = false).
  { induction k as [|k [IH1 IH2]]; [done|]. simpl. split; [lia|done]. }
  assert (Hk : ∀ k, k < S n → ∃ r', close k r = Ret r' ∧ chan_closed r' = false ∧ references r' = Z.of_nat (S n - k)).
  { induction k as [|k IH]; intros Hk.
    - eexists. split; [reflexivity|]. destruct (Hcon (S n)) as [-> ->]. split; [done|lia].
    - destruct IH as (r' & Hr & Hc & Hr'); [lia|].
      change (close (S k) r) with (close k r ≫= dereferenceSpooler). rewrite Hr. monad. unfold dereferenceSpooler.
      rewrite decide_False by lia. eexists. split; [reflexivity|]. split; [done|]. simpl. lia. }
  split; [exact Hk|]. destruct (Hk n) as (r' & Hr & Hc & Hr'); [lia|].
  change (close (S n) r) with (close n r ≫= dereferenceSpooler). rewrite Hr. monad. unfold dereferenceSpooler at 1.
  rewrite decide_True, Hc by lia. eexists. split; [reflexivity|]. split; [done|].
  unfold dereferenceSpooler. simpl. rewrite decide_True by lia. done.
Qed.
End Persist.

(** The spool as the publisher uses it: acknowledgements become [AckEvent]s. *)
#[export] Instance EventSpooler_acks : EventSpooler EventSpool (list EventDescriptor) := {
  spool_Add evs s := spool_Add (RegAck evs) s;
  spool_Send s := spool_Send (E := RegEvent) s;
  spool_Close s := spool_Close (E := RegEvent) s;
}.

Definition event_acks (e : RegEvent) : list EventDescriptor :=
  match e with RegAck evs => evs | _ => [] end.

(** Everything acknowledged that waits in the channel or in the spool. *)
Definition spool_acks (s : EventSpool) : list EventDescriptor :=
  concat (event_acks <$> concat (registrar_chan (sp_registrar s))) ++ concat (event_acks <$> sp_events s).

#[export] Program Instance SpoolerLog_acks : SpoolerLog EventSpool := { spool_log := spool_acks }.
Next Obligation. intros evs r. unfold spool_acks. simpl. rewrite fmap_app, concat_app. simpl. by rewrite app_nil_r, app_assoc. Qed.
Next Obligation.
  intros r. unfold spool_acks. simpl. case_decide as Hr; [done|]. simpl.
  rewrite concat_app, fmap_app, concat_app. simpl. by rewrite !app_nil_r.
Qed.
Next Obligation.
  intros r. unfold spool_acks. simpl. f_equal. unfold dereferenceSpooler.
  repeat case_match; simplify_eq; done.
Qed.

(** ** [nulleventspool.go]: the spool used when nothing is to be persisted *)
Record NullEventSpool := mkNullSpool {}.

#[export] Instance EventSpooler_null {E} : EventSpooler NullEventSpool E := {
  spool_Add _ s := s;
  spool_Send s := s;
  spool_Close s := s;
}.
End Registrar.

(** ** Concrete runs *)
#[export] Instance FileState_countable : Countable FileState :=
  inj_countable' (fun f => (Inode f, Device f, Source f, Offset f))
    (fun t => let '(a, b, c, d) := t in mkFileState a b c d) (fun f => match f with mkFileState _ _ _ _ => eq_refl end).

(** A codec for registries, standing in for JSON: the bits of the countable
    encoding. *)
Fixpoint bits (p : positive) : text :=
  match p with xH => [] | xO p' => "0"%byte :: bits p' | xI p' => "1"%byte :: bits p' end.
Fixpoint unbits (t : text) : positive :=
  match t with
  | [] => 1
  | c :: t' => if decide (c = "0"%byte) then xO (unbits t') else xI (unbits t')
  end.

Lemma unbits_bits p : unbits (bits p) = p.
Proof. by induction p as [p IH|p IH|]; simpl; rewrite ?IH. Qed.

Definition example_encode (m : gmap text FileState) : text := bits (encode m).
Definition example_decode (t : text) : option (gmap text FileState) := decode (unbits t).

Definition example_fs : FileState := mkFileState 7 1 (bytes_of "/var/log/a") 42.

Lemma registrar_offsets_witness :
  ∃ r', drain (FileInfo := Z * Z) fst snd example_encode [(false, true); (false, false)] [Some 1%positive]
      (spool_push [RegAck [mkEventDescriptor (Some 1%positive) 90 []]]
        (spool_push [RegDiscover (Some 1%positive) (bytes_of "f") 10 (3, 4)%Z;
                     RegAck [mkEventDescriptor (Some 1%positive) 50 []]] (NewRegistrar (mkDisk None None)))) = Some r' ∧
    Offset <$> reg_state r' !! Some 1%positive = Some 90%Z.
Proof.
  destruct (registrar_offsets (FileInfo := Z * Z) fst snd example_encode
    (spool_push [RegAck [mkEventDescriptor (Some 1%positive) 90 []]]
        (spool_push [RegDiscover (Some 1%positive) (bytes_of "f") 10 (3, 4)%Z;
                     RegAck [mkEventDescriptor (Some 1%positive) 50 []]] (NewRegistrar (mkDisk None None))))
    [(false, true); (false, false)] [Some 1%positive] (Some 1%positive) eq_refl) as (r' & Hd & _ & Ho).
  exists r'. split; [exact Hd|]. rewrite Ho. reflexivity.
Defined.

#[export] Instance example_json : RegistryJSON example_encode example_decode.
Proof. intros m _. unfold example_encode, example_decode. rewrite unbits_bits. apply decode_encode. Qed.

Lemma example_table (s : Stream) : json_table {[s := example_fs]}.
Proof. intros a fs. rewrite lookup_singleton_Some. intros [_ <-]. vm_compute. reflexivity. Qed.

Lemma empty_table : json_table ∅.
Proof. by intros a fs ?%lookup_empty_Some. Qed.

(** The program stops with half of an empty registry written. *)
Lemma registry_roundtrip_witness :
  let st := {[Some 1%positive := example_fs]} : gmap Stream FileState in
  let d1 := foldl disk_step (snd (writeRegistry example_encode false false [Some 1%positive] st (mkDisk None None))) [SCreate; SEncode []] in
  let r := NewRegistrar (FileInfo := Z) d1 in
  ∃ files r', LoadPrevious (err := unit) example_encode example_decode (fun f _ => inr (Some (encode f))) files false false
      ((fun f => Some (encode f)) <$> files) r = (@Loaded unit, r') ∧
    reg_state r' !! Some (encode (bytes_of "/var/log/a")) = Some example_fs.
Proof.
  intros st d1 r.
  destruct (registry_roundtrip (FileInfo := Z) example_encode example_decode [Some 1%positive] st (mkDisk None None) [] ∅ [SCreate; SEncode []] r)
    as (data & Hrec & Hload).
  - apply example_table.
  - apply empty_table.
  - unfold range_order. reflexivity.
  - unfold range_order. reflexivity.
  - apply crash_later, crash_torn, prefix_nil.
  - reflexivity.
  - rewrite decide_False in Hrec by discriminate. exists (fst <$> map_to_list data).
    destruct (Hload unit (fun f _ => inr (Some (encode f))) (fun f => Some (encode f)) (fst <$> map_to_list data)
      ((fun f => Some (encode f)) <$> (fst <$> map_to_list data))) as (r' & Hr & Hst & _).
    + reflexivity.
    + intros f g Hfg. by apply (inj encode), (inj Some).
    + reflexivity.
    + reflexivity.
    + exists r'. split; [exact Hr|]. apply Hst. exists (bytes_of "/var/log/a"). split; [|reflexivity].
      apply (recorded_unique st data (Some 1%positive) example_fs Hrec); [apply lookup_singleton_eq|].
      intros s' fs'. unfold st. rewrite lookup_singleton_Some. by intros [<- _].
Defined.

(** A name that is not UTF-8 - Latin-1, say - is none that JSON carries: the entry
    is written under another name, and the file starts anew after a restart. *)
Example latin1_name : json_state (mkFileState 7 1 (bytes_of "/var/log/caf" ++ ["233"%byte]) 42) = false.
Proof. vm_compute. reflexivity. Qed.

Lemma registrar_references_witness :
  ∃ r', Nat.iter 2 (fun o => o ≫= dereferenceSpooler) (Ret (Nat.iter 2 Connect (NewRegistrar (FileInfo := Z) (mkDisk None None)))) = Ret r' ∧
    chan_closed r' = true.
Proof.
  destruct (registrar_references 1 (NewRegistrar (FileInfo := Z) (mkDisk None None)) eq_refl eq_refl) as (_ & r' & Hr & Hc & _).
  exists r'. split; [exact Hr|exact Hc].
Defined.
