(* ===== verification/RegistrarWindows.v ===== *)
(** * lc-lib/registrar/registrar_windows.go, and writes that fail

    On Windows a file is not renamed over another: [writeRegistry] removes the
    state file first.  What a crash leaves then depends on what [LoadPrevious]
    makes of the temporary file, and on the write it ends with.  The last part is
    about the error of the encoder, which neither variant looks at. *)
From S2P Require Import Prelude Core Codecs Registrar.

Section Windows.
Context (encode : gmap text FileState → text) (decode : text → option (gmap text FileState)).
Implicit Types (d : disk) (st : gmap Stream FileState) (order : list Stream).

(** Whether the state file is there is asked first; an error of [os.Stat] other
    than its absence counts as there. *)
Definition windows_steps order st (there : bool) : list write_step :=
  [SCreate; SEncode (encode (toCanonical order st))] ++ (if there then [SRemove] else []) ++ [SRename].

(** Each of the calls may fail; the error of [os.Remove] is only reported when the
    rename fails too. *)
Definition writeRegistry_windows (create_fails stat_error remove_fails rename_fails : bool) order st d : bool * disk :=
  if create_fails then (false, d)
  else
    let d2 := disk_step (disk_step d SCreate) (SEncode (encode (toCanonical order st))) in
    let there := stat_error || bool_decide (file_main d2 ≠ None) in
    let d3 := if there && negb remove_fails then disk_step d2 SRemove else d2 in
    if rename_fails then (false, d3) else (true, disk_step d3 SRename).

(** Without failures it is the steps. *)
Lemma writeRegistry_windows_steps order st d :
  writeRegistry_windows false false false false order st d =
  (true, foldl disk_step d (windows_steps order st (bool_decide (file_main d ≠ None)))).
Proof. unfold writeRegistry_windows, windows_steps. simpl. rewrite andb_true_r. by case_bool_decide. Qed.

(** What a crash leaves of a state file that was there. *)
Lemma windows_crash order st d ss :
  crash_prefix (windows_steps order st true) ss → file_main d ≠ None →
  let d' := foldl disk_step d ss in
  file_main d' = file_main d ∨ (file_main d' = None ∧ file_new d' = Some (encode (toCanonical order st))) ∨
  file_main d' = Some (encode (toCanonical order st)).
Proof.
  unfold windows_steps. simpl. intros Hp Hd.
  inversion Hp as [| |? ? ? Hp1]; subst; [by left|]. inversion Hp1 as [|? ? ? Hpre|? ? ? Hp2]; subst; [by left..|].
  inversion Hp2 as [| |? ? ? Hp3]; subst; [by left|]. inversion Hp3 as [| |? ? ? Hp4]; subst; [by right; left|].
  inversion Hp4; subst. by right; right.
Qed.

(** C39. A registry that is there survives a crash anywhere in a write on Windows:
    what is loaded is the previous one or the new one, from the temporary file if
    the state file was already removed.  It does not survive a second crash: the
    write at the end of [LoadPrevious] starts by truncating the temporary file,
    which may then be the only copy, and nothing is loaded the next time.  (Of the
    encoding only what it does on the two registries is used.) *)
Theorem windows_registry (valid : gmap text FileState → Prop) order st order' st' d :
  (∀ m, valid m → decode (encode m) = Some m) → valid (toCanonical order st) → valid (toCanonical order' st') →
  file_main d = Some (encode (toCanonical order st)) →
  (∀ ss, crash_prefix (windows_steps order' st' true) ss →
    load_data decode (foldl disk_step d ss) = Some (toCanonical order st) ∨
    load_data decode (foldl disk_step d ss) = Some (toCanonical order' st')) ∧
  (decode [] = None → ∃ ss ss', crash_prefix (windows_steps order' st' true) ss ∧
    load_data decode (foldl disk_step d ss) = Some (toCanonical order' st') ∧
    crash_prefix (windows_steps order' st' (bool_decide (file_main (foldl disk_step d ss) ≠ None))) ss' ∧
    load_data decode (foldl disk_step (foldl disk_step d ss) ss') = Some ∅).
Proof.
  intros Hvalid Hv%Hvalid Hv'%Hvalid Hmain. split.
  - intros ss Hss. destruct (windows_crash _ _ d ss Hss) as [Hm|[[Hm Hn]|Hm]]; [by rewrite Hmain|..]; unfold load_data; rewrite Hm.
    + left. by rewrite Hmain, Hv.
    + right. by rewrite Hn, Hv'.
    + right. by rewrite Hv'.
  - intros Hnil. exists [SCreate; SEncode (encode (toCanonical order' st')); SRemove], [SCreate]. split; [|split; [|split]].
    + do 3 apply crash_later. apply crash_now.
    + unfold load_data. simpl. by rewrite Hv'.
    + apply crash_later, crash_now.
    + unfold load_data. simpl. by rewrite Hnil.
Qed.

(** A state file that could not be written in full, on a full disk for instance:
    the encoder's error is not looked at, and the rename puts what was written in
    the place of the registry. *)
Definition write_short (written : text) : list write_step := [SCreate; SEncode written; SRename].

Lemma short_write_replaces written d :
  load_data decode (foldl disk_step d (write_short written)) = Some (default ∅ (decode written)).
Proof. done. Qed.
End Windows.

Lemma windows_registry_witness :
  let d := mkDisk (Some (example_encode (toCanonical [Some 1%positive] {[Some 1%positive := example_fs]}))) None in
  load_data example_decode (foldl disk_step d [SCreate; SEncode (example_encode ∅); SRemove]) =
    Some (toCanonical [Some 1%positive] {[Some 1%positive := example_fs]}) ∨
  load_data example_decode (foldl disk_step d [SCreate; SEncode (example_encode ∅); SRemove]) = Some (toCanonical [] ∅).
Proof.
  intros d. refine (proj1 (windows_registry example_encode example_decode json_registry _ _ [] ∅ d (registry_json _ _) _ _ eq_refl) _ _).
  - apply toCanonical_json, example_table.
  - apply toCanonical_json, empty_table.
  - do 3 apply crash_later. apply crash_now.
Defined.
