(* ===== verification/StdinRegistrar.v ===== *)
(** * src/stdin_registrar.go: the registrar of a run that reads standard input

    It keeps no file: it only waits until the last event read from standard input
    has been acknowledged, so that the program can end.  The select of [Run] is a
    choice among the cases whose channel is ready; the events, the call of [Wait]
    and the shutdown of the pipeline come from outside.  The last theorem composes
    it with the filter codec, whose resume offset may lie behind the last event. *)
From S2P Require Import Prelude Core Codecs Registrar.

Section StdinRegistrar.
Context {FileInfo : Type} (fi_Ino fi_Dev : FileInfo → Z).
Abbreviation event := (RegEvent (FileInfo := FileInfo)).

(** The channels hold what was sent and not received; [in_shutdown] is the signal
    channel of the pipeline, [in_done] that [Run] has returned, which is what
    [Wait] waits for. *)
Record StdinRegistrar := mkStdin {
  in_registrar_chan : list (list event);
  in_chan_closed : bool;
  signal_chan : list Z;
  in_references : Z;
  wait_offset : option Z;
  last_offset : Z;
  in_state : gmap Stream FileState;
  in_shutdown : bool;
  in_done : bool;
}.

Definition newStdinRegistrar : StdinRegistrar :=
  mkStdin [] false [] 0 None 0 {[None := mkFileState 0 0 [] 0]} false false.

Definition in_Connect (r : StdinRegistrar) : StdinRegistrar :=
  mkStdin (in_registrar_chan r) (in_chan_closed r) (signal_chan r) (in_references r + 1) (wait_offset r) (last_offset r)
    (in_state r) (in_shutdown r) (in_done r).

(** Closing a closed channel panics. *)
Definition in_dereferenceSpooler (r : StdinRegistrar) : outcome StdinRegistrar :=
  let n := (in_references r - 1)%Z in
  if decide (n = 0 ∧ in_chan_closed r = true)%Z then Panic
  else Ret (mkStdin (in_registrar_chan r) (in_chan_closed r || bool_decide (n = 0)%Z) (signal_chan r) n (wait_offset r)
    (last_offset r) (in_state r) (in_shutdown r) (in_done r)).

(** [Wait] up to waiting for [Run] to return. *)
Definition Wait (offset : Z) (r : StdinRegistrar) : StdinRegistrar :=
  mkStdin (in_registrar_chan r) (in_chan_closed r) (signal_chan r ++ [offset]) (in_references r) (wait_offset r) (last_offset r)
    (in_state r) (in_shutdown r) (in_done r).

Definition in_LoadPrevious (r : StdinRegistrar) : bool := false.

(** ** The events spool *)
Record StdinEventSpool := mkStdinSpool { in_events : list event; in_registrar : StdinRegistrar }.

Definition newStdinEventSpool (r : StdinRegistrar) : StdinEventSpool := mkStdinSpool [] r.

Definition in_push (events : list event) (r : StdinRegistrar) : StdinRegistrar :=
  mkStdin (in_registrar_chan r ++ [events]) (in_chan_closed r) (signal_chan r) (in_references r) (wait_offset r) (last_offset r)
    (in_state r) (in_shutdown r) (in_done r).

#[export] Instance EventSpooler_stdin : EventSpooler StdinEventSpool event := {
  spool_Add e s := match e with RegAck _ => mkStdinSpool (in_events s ++ [e]) (in_registrar s) | _ => s end;
  spool_Send s := if decide (in_events s = []) then s else mkStdinSpool [] (in_push (in_events s) (in_registrar s));
  spool_Close s :=
    mkStdinSpool (in_events s) (match in_dereferenceSpooler (in_registrar s) with Ret r => r | _ => in_registrar s end);
}.

(** ** [Run] *)
Definition in_set_done (done : bool) (r : StdinRegistrar) : StdinRegistrar :=
  mkStdin (in_registrar_chan r) (in_chan_closed r) (signal_chan r) (in_references r) (wait_offset r) (last_offset r)
    (in_state r) (in_shutdown r) done.

Definition receive_signal (signal : Z) (rest : list Z) (r : StdinRegistrar) : StdinRegistrar :=
  mkStdin (in_registrar_chan r) (in_chan_closed r) rest (in_references r) (Some signal) (last_offset r) (in_state r) (in_shutdown r)
    (bool_decide (last_offset r = signal)).

Definition receive_events (events : list event) (rest : list (list event)) (r : StdinRegistrar) : outcome StdinRegistrar :=
  let st := foldl (fun st e => Process fi_Ino fi_Dev e st) (in_state r) events in
  match st !! None with
  | None => Panic
  | Some fs =>
      Ret (mkStdin rest (in_chan_closed r) (signal_chan r) (in_references r) (wait_offset r) (Offset fs) st (in_shutdown r)
        (match wait_offset r with Some w => bool_decide (w ≤ Offset fs)%Z | None => false end))
  end.

Inductive stdin_case := CaseSignal | CaseEvents | CaseShutdown.

(** One turn, for the case picked; nothing happens if it is not ready.  A closed
    channel is always ready, and gives no events. *)
Definition stdin_turn (c : stdin_case) (r : StdinRegistrar) : outcome StdinRegistrar :=
  if in_done r then Ret r
  else
    match c with
    | CaseSignal => match signal_chan r with [] => Ret r | s :: rest => Ret (receive_signal s rest r) end
    | CaseEvents =>
        match in_registrar_chan r with
        | [] => if in_chan_closed r then receive_events [] [] r else Ret r
        | es :: rest => receive_events es rest r
        end
    | CaseShutdown => Ret (in_set_done (in_shutdown r) r)
    end.

(** What can happen: a turn, a spool of acknowledgements sent by the publisher,
    the call of [Wait], and the shutdown of the pipeline. *)
Inductive stdin_input := Turn (c : stdin_case) | SendAcks (acks : list (list EventDescriptor)) | WaitFor (offset : Z) | StdinShutdown.

Definition stdin_step (i : stdin_input) (r : StdinRegistrar) : outcome StdinRegistrar :=
  match i with
  | Turn c => stdin_turn c r
  | SendAcks acks => Ret (in_registrar (spool_Send (E := event) (foldl (fun s a => spool_Add (RegAck a) s) (newStdinEventSpool r) acks)))
  | WaitFor w => Ret (Wait w r)
  | StdinShutdown =>
      Ret (mkStdin (in_registrar_chan r) (in_chan_closed r) (signal_chan r) (in_references r) (wait_offset r) (last_offset r)
        (in_state r) true (in_done r))
  end.

Fixpoint stdin_run (is_ : list stdin_input) (r : StdinRegistrar) : outcome StdinRegistrar :=
  match is_ with
  | [] => Ret r
  | i :: is_' => r' ← stdin_step i r; stdin_run is_' r'
  end.

Definition sent_offsets (i : stdin_input) : list Z :=
  match i with SendAcks acks => stream_offsets None (concat acks) | _ => [] end.

(** The history a program run has: one [Wait] for [w], no shutdown before. *)
Definition stdin_history (w : Z) (i : stdin_input) : Prop :=
  match i with WaitFor w' => w' = w | StdinShutdown => False | SendAcks _ | Turn _ => True end.

(** ** Lemmas *)
Definition acks_of (events : list event) : list EventDescriptor := events ≫= event_acks.
Definition is_ack (e : event) : Prop := match e with RegAck _ => True | _ => False end.

(** Acknowledgements keep the entry of standard input and set its offset. *)
Lemma Process_acks events st o :
  Forall is_ack events → Offset <$> st !! None = Some o →
  Offset <$> foldl (fun st e => Process fi_Ino fi_Dev e st) st events !! None = Some (default o (last (stream_offsets None (acks_of events)))).
Proof.
  intros Ha Ho. rewrite foldl_Process_offset, Ho. clear Ho. revert o. induction Ha as [|e events He Ha IH]; intros o; [done|].
  cbn [foldl]. destruct e as [evs| | |]; try done. rewrite resume_one_acks, IH.
  change (acks_of (RegAck evs :: events)) with (evs ++ acks_of events).
  rewrite stream_offsets_app, last_app. by destruct (last (stream_offsets None (acks_of events))).
Qed.

(** The state of a history: what was received, and what waits in the channel. *)
Record stdin_ok (w : Z) (sent : list Z) (r : StdinRegistrar) : Prop := {
  ok_sent : ∃ got, sent = got ++ stream_offsets None (acks_of (concat (in_registrar_chan r))) ∧ last_offset r = default 0%Z (last got);
  ok_acks : Forall (Forall is_ack) (in_registrar_chan r);
  ok_offset : Offset <$> in_state r !! None = Some (last_offset r);
  ok_signal : Forall (eq w) (signal_chan r) ∧ (wait_offset r = None ∨ wait_offset r = Some w);
  ok_running : in_shutdown r = false;
  ok_done : in_done r = true ↔ wait_offset r = Some w ∧ last_offset r = w;
}.

Lemma stdin_ok_new w : stdin_ok w [] newStdinRegistrar.
Proof.
  split; simpl; [by exists []|constructor|done|split; [constructor|by left]|done|].
  split; [done|by intros [? _]].
Qed.

Lemma receive_events_ok w sent r events rest :
  Forall (fun z => z ≤ w)%Z sent → (0 ≤ w)%Z → stdin_ok w sent r → in_done r = false →
  (in_registrar_chan r = events :: rest ∨ events = [] ∧ rest = [] ∧ in_registrar_chan r = []) →
  ∃ r', receive_events events rest r = Ret r' ∧ stdin_ok w sent r'.
Proof.
  intros Hle Hw [(got & Hsent & Hlast) Hacks Hoff [Hsig Hwait] Hrun Hdone] Hnd Hchan.
  assert (Hev : Forall is_ack events ∧ Forall (Forall is_ack) rest ∧ concat (in_registrar_chan r) = events ++ concat rest).
  { destruct Hchan as [Hch|(-> & -> & Hch)]; rewrite Hch in *; [by apply Forall_cons in Hacks as [??]|by repeat constructor]. }
  destruct Hev as (He & Hr & Hc). unfold receive_events.
  pose proof (Process_acks events (in_state r) (last_offset r) He Hoff) as Hp.
  destruct (foldl _ (in_state r) events !! None) as [fs|] eqn:Efs; [|done]. simpl in Hp. injection Hp as Hfs.
  eexists. split; [reflexivity|]. rewrite Hc in Hsent. unfold acks_of in Hsent. rewrite bind_app, stream_offsets_app, app_assoc in Hsent.
  assert (Hnew : Offset fs = default 0%Z (last (got ++ stream_offsets None (acks_of events)))).
  { rewrite Hfs, last_app, Hlast. by destruct (last (stream_offsets None (acks_of events))). }
  split; simpl; [by eexists|done|by rewrite Efs|done|done|].
  assert (Hle' : (Offset fs ≤ w)%Z).
  { rewrite Hnew. destruct (last (got ++ _)) as [z|] eqn:Ez; simpl; [|done]. apply last_Some_elem_of in Ez.
    rewrite Forall_forall in Hle. apply Hle. rewrite Hsent. unfold acks_of in Ez. by apply elem_of_app; left. }
  destruct Hwait as [->| ->]; simpl; [naive_solver|]. rewrite bool_decide_eq_true. naive_solver lia.
Qed.

Lemma foldl_add_acks acks (r : StdinRegistrar) es :
  foldl (fun s a => spool_Add (E := event) (RegAck a) s) (mkStdinSpool es r) acks = mkStdinSpool (es ++ (RegAck <$> acks)) r.
Proof.
  revert es. induction acks as [|a acks IH]; intros es; simpl; [by rewrite app_nil_r|]. rewrite IH. by rewrite <-app_assoc.
Qed.

Lemma acks_of_acks acks : acks_of (RegAck <$> acks) = concat acks.
Proof. unfold acks_of. induction acks as [|a acks IH]; [done|]. csimpl. by rewrite IH. Qed.

Lemma stdin_step_ok w sent i r :
  stdin_history w i → Forall (fun z => z ≤ w)%Z (sent ++ sent_offsets i) → (0 ≤ w)%Z → stdin_ok w sent r →
  ∃ r', stdin_step i r = Ret r' ∧ stdin_ok w (sent ++ sent_offsets i) r'.
Proof.
  intros Hi Hle Hw Hok. pose proof Hok as [(got & Hsent & Hlast) Hacks Hoff [Hsig Hwait] Hrun Hdone].
  destruct i as [c|acks|w'|]; simpl in *; [|..|done].
  - rewrite app_nil_r in *. unfold stdin_turn. destruct (in_done r) eqn:Ed; [by exists r|]. destruct c.
    + destruct (signal_chan r) as [|s rest] eqn:Es; [by exists r|]. inversion Hsig; subst. eexists. split; [reflexivity|].
      split; simpl; [by exists got|done|done|split; [done|by right]|done|]. rewrite bool_decide_eq_true. naive_solver.
    + destruct (in_registrar_chan r) as [|es rest] eqn:Ec.
      * destruct (in_chan_closed r); [|by exists r]. apply receive_events_ok; auto.
      * apply receive_events_ok; auto.
    + eexists. split; [reflexivity|]. rewrite Hrun. split; simpl; [by exists got|done|done|done|done|done].
  - unfold newStdinEventSpool. rewrite foldl_add_acks. eexists. split; [reflexivity|]. simpl. case_decide as Hn.
    + simpl. assert (acks = []) as -> by (by destruct acks). simpl. rewrite app_nil_r. by split; [exists got|..].
    + simpl. split; simpl; [|by apply Forall_app; split; [done|]; constructor; [|done]; apply Forall_fmap, Forall_true|done..].
      exists got. split; [|done]. unfold acks_of in *. rewrite concat_app, bind_app, stream_offsets_app, Hsent, <-app_assoc. simpl.
      rewrite app_nil_r. do 2 f_equal. by rewrite <-acks_of_acks.
  - subst w'. eexists. split; [reflexivity|]. rewrite app_nil_r. split; simpl; [by exists got|done|done|split; [|done]|done|done].
    apply Forall_app. split; [done|]. by constructor.
Qed.

Lemma stdin_run_ok w is_ sent r :
  Forall (stdin_history w) is_ → Forall (fun z => z ≤ w)%Z (sent ++ (is_ ≫= sent_offsets)) → (0 ≤ w)%Z → stdin_ok w sent r →
  ∃ r', stdin_run is_ r = Ret r' ∧ stdin_ok w (sent ++ (is_ ≫= sent_offsets)) r'.
Proof.
  revert sent r. induction is_ as [|i is_ IH]; intros sent r His Hle Hw Hok; simpl in *; [exists r; by rewrite app_nil_r|].
  inversion His; subst. rewrite app_assoc in *. apply Forall_app in Hle as Hle'. destruct Hle' as [Hle1 _].
  destruct (stdin_step_ok w sent i r) as (r1 & Hr1 & Hok1); [done..|].
  destruct (IH _ r1 H2 Hle Hw Hok1) as (r' & Hr' & Hok'). exists r'. split; [|done]. rewrite Hr1. exact Hr'.
Qed.

(** ** Properties *)

(** While no shutdown comes and nothing beyond the offset [w] waited for is
    acknowledged: no turn panics, and [Run] has returned (so that [Wait] returns)
    exactly when the signal was received and the last offset received is [w].
    Since the offsets received are those sent, in order, up to those still in the
    channel, the program never ends before the event at [w] was acknowledged, and
    never goes on waiting once that and the signal have been received. *)
Theorem stdin_exits_exactly w is_ :
  Forall (stdin_history w) is_ → Forall (fun z => z ≤ w)%Z (is_ ≫= sent_offsets) → (0 ≤ w)%Z →
  ∃ r got, stdin_run is_ newStdinRegistrar = Ret r ∧
    (is_ ≫= sent_offsets) = got ++ stream_offsets None (acks_of (concat (in_registrar_chan r))) ∧
    (in_done r = true ↔ wait_offset r = Some w ∧ default 0%Z (last got) = w).
Proof.
  intros His Hle Hw. destruct (stdin_run_ok w is_ [] _ His Hle Hw (stdin_ok_new w)) as (r & Hr & [(got & Hs & Hl) _ _ _ _ Hd]).
  exists r, got. by rewrite <-Hl.
Qed.
End StdinRegistrar.

(** ** Together with the filter codec *)
Section Filtered.
Context {RE FileInfo : Type} (fi_Ino fi_Dev : FileInfo → Z).
Context (Compile : text → option RE) (MatchString : RE → text → bool).

(** What can be acknowledged: the events the harvester made of the lines emitted. *)
Definition acks_of_emits (out : list emit) (i : stdin_input) : Prop :=
  Forall (fun z => z ∈ em_end <$> out) (sent_offsets i).

Lemma ordered_below d out z : ordered d out → z ∈ em_end <$> out → (z ≤ last_end d out)%Z.
Proof.
  revert d. induction out as [|e out IH]; intros d Ho; [by intros ?%not_elem_of_nil|].
  change (e :: out) with ([e] ++ out) in *. apply ordered_app in Ho as [H1 H2]. rewrite last_end_app, fmap_app, elem_of_app.
  change (last_end d [e]) with (em_end e) in *. intros [->%list_elem_of_singleton|Hz]; [|by apply IH].
  assert (Hge : ∀ d out, ordered d out → (d ≤ last_end d out)%Z); [|by apply Hge].
  clear. intros d out. revert d. induction out as [|e out IH]; intros d Ho; [done|].
  change (e :: out) with ([e] ++ out) in *. apply ordered_app in Ho as [(? & ? & _) H2]. rewrite last_end_app.
  change (last_end d [e]) with (em_end e) in *. specialize (IH _ H2). lia.
Qed.

(** With a filter codec that drops the last line of standard input the offset
    waited for, the codec's resume offset, is the end of that line, which no event
    has: whatever is acknowledged, the registrar never returns by itself, and the
    program waits for it without looking at its signals. *)
Theorem filtered_stdin_never_exits ps match_ f ls l is_ c out :
  NewFilterCodecFactory Compile ps match_ = Ret (inr f) → ordered 0 (ls ++ [l]) → (em_start l < em_end l)%Z →
  selected Compile MatchString ps match_ (em_text l) = false →
  filter_run MatchString (NewCodecFilter f 0) (ls ++ [l]) = Ret (c, out) →
  Forall (stdin_history (filter_lastOffset c)) is_ → Forall (acks_of_emits out) is_ →
  ∃ r, stdin_run fi_Ino fi_Dev is_ newStdinRegistrar = Ret r ∧ in_done r = false.
Proof.
  intros Hf Ho Hl Hsel Hrun His Hacks.
  destruct (NewFilterCodecFactory Compile ps match_) as [[e|f']| |] eqn:Hnew; try done. injection Hf as ->.
  unfold NewFilterCodecFactory in Hnew. case_decide; [done|]. monad_in Hnew.
  destruct (Set_ Compile ps match_) as [[?|pc]| |] eqn:Hset; try done. injection Hnew as <-.
  rewrite (filter_run_spec Compile MatchString ps match_) in Hrun by done. injection Hrun as <- <-.
  simpl in *. rewrite last_end_app in *. change (last_end ?d [l]) with (em_end l) in *. set (w := em_end l) in *.
  rewrite filter_app, filter_cons_False, filter_nil, app_nil_r in Hacks by (by rewrite Hsel).
  apply ordered_app in Ho as [Ho1 (Ho2 & _ & _)].
  assert (Hlt : Forall (fun z => z < w)%Z (is_ ≫= sent_offsets)).
  { apply Forall_forall. intros z (i & Hz & Hi)%list_elem_of_bind. pose proof (proj1 (Forall_forall _ _) Hacks _ Hi) as Ha.
    pose proof (proj1 (Forall_forall _ _) Ha _ Hz) as (e & -> & [_ He]%list_elem_of_filter)%list_elem_of_fmap.
    assert (em_end e ≤ last_end 0 ls)%Z by (apply ordered_below; [done|]; apply list_elem_of_fmap; eauto). unfold w. lia. }
  assert (Hw : (0 < w)%Z).
  { assert (Hge : (0 ≤ last_end 0 ls)%Z); [|unfold w; lia]. destruct (last ls) as [e|] eqn:E; unfold last_end; rewrite E; [|done].
    clear -Ho1 E. revert E. assert (Hd : (0 ≤ 0)%Z) by done. revert Hd Ho1. generalize 0%Z at 2 3 as d.
    induction ls as [|a ls IH]; intros d Hd Ho E; [done|]. destruct Ho as (? & ? & Ho). destruct ls as [|b ls]; [injection E as <-; lia|].
    apply (IH (em_end a)); [lia|done|done]. }
  destruct (stdin_run_ok fi_Ino fi_Dev w is_ [] newStdinRegistrar His) as (r & Hr & [(got & Hs & Hlast) _ _ _ _ Hd]); simpl.
  { eapply Forall_impl; [exact Hlt|]. simpl. lia. } { lia. } { apply stdin_ok_new. }
  exists r. split; [done|]. destruct (in_done r); [|done]. destruct Hd as [Hd _]. destruct (Hd eq_refl) as [_ Hz]. exfalso.
  simpl in Hs. rewrite Hlast in Hz. destruct (last got) as [z|] eqn:E; simpl in Hz; [|lia].
  apply last_Some_elem_of in E. rewrite Forall_forall in Hlt. specialize (Hlt z). rewrite Hs, elem_of_app in Hlt. specialize (Hlt (or_introl E)). lia.
Qed.
End Filtered.

(** ** Concrete histories *)
Definition stdin_event (offset : Z) : EventDescriptor := mkEventDescriptor None offset [].

Definition stdin_sample : list stdin_input :=
  [SendAcks [[stdin_event 5]; [stdin_event 7]]; WaitFor 9; Turn CaseEvents; Turn CaseSignal; SendAcks [[stdin_event 9]]; Turn CaseEvents].

Lemma stdin_exits_exactly_witness :
  ∃ r, stdin_run (FileInfo := unit) (fun _ => 0%Z) (fun _ => 0%Z) stdin_sample newStdinRegistrar = Ret r ∧ in_done r = true.
Proof.
  destruct (stdin_exits_exactly (FileInfo := unit) (fun _ => 0%Z) (fun _ => 0%Z) 9 stdin_sample) as (r & got & Hr & Hs & Hd).
  - by repeat constructor.
  - apply (bool_decide_eq_true_1 _). vm_compute. reflexivity.
  - lia.
  - exists r. split; [exact Hr|]. vm_compute in Hr. injection Hr as <-. reflexivity.
Defined.

Lemma filtered_stdin_never_exits_witness (ls := [mkEmit 0 5 (bytes_of "NEXT ")]) (l := mkEmit 6 8 (bytes_of "no")) :
  ∃ f c out r, NewFilterCodecFactory Some [bytes_of "NEXT "] [] = Ret (inr f) ∧
    filter_run starts_with (NewCodecFilter f 0) (ls ++ [l]) = Ret (c, out) ∧ filter_lastOffset c = 8%Z ∧
    stdin_run (FileInfo := unit) (fun _ => 0%Z) (fun _ => 0%Z)
      [SendAcks [[stdin_event 5]]; Turn CaseEvents; WaitFor 8; Turn CaseSignal] newStdinRegistrar = Ret r ∧ in_done r = false.
Proof.
  destruct (NewFilterCodecFactory Some [bytes_of "NEXT "] []) as [[e|f]| |] eqn:Hf; [vm_compute in Hf; discriminate Hf| |vm_compute in Hf; discriminate Hf..].
  destruct (filter_run starts_with (NewCodecFilter f 0) (ls ++ [l])) as [[c out]| |] eqn:Hc;
    [|vm_compute in Hf; injection Hf as <-; vm_compute in Hc; discriminate Hc..].
  assert (Hw : filter_lastOffset c = 8%Z ∧ out = ls) by (vm_compute in Hf; injection Hf as <-; vm_compute in Hc; by injection Hc as <- <-).
  destruct Hw as [Hw ->].
  destruct (filtered_stdin_never_exits (FileInfo := unit) (fun _ => 0%Z) (fun _ => 0%Z) Some starts_with [bytes_of "NEXT "] [] f ls l
    [SendAcks [[stdin_event 5]]; Turn CaseEvents; WaitFor 8; Turn CaseSignal] c ls Hf) as (r & Hr & Hd).
  - repeat split; vm_compute; congruence.
  - simpl. lia.
  - vm_compute. reflexivity.
  - exact Hc.
  - rewrite Hw. by repeat constructor.
  - repeat constructor.
  - exists f, c, ls, r. split; [reflexivity|]. split; [exact Hc|]. split; [exact Hw|]. split; [exact Hr|exact Hd].
Defined.
