(* ===== verification/Publisher.v ===== *)
(** * lc-lib/publisher: distributing payloads and ordering acknowledgements

    The publisher hands payloads to the sink's endpoints, resends those of failed
    endpoints, and passes acknowledgements to the registrar in the order the
    events were read.  Its own state is the [X] of the endpoint store; the
    methods (failover, load balancing, random) are objects of it.  The registrar
    is any instance of [EventSpooler]. *)
From S2P Require Import Prelude InternalList Core Payload Codecs AdminApi AddressPool Transports Endpoint Registrar.

(** Acknowledged events, as they are passed to the registrar. *)
Abbreviation acked := (list EventDescriptor).

Definition keepaliveTimeout : Z := (900 * Second)%Z.

(** [l[i]] panics out of range. *)
Definition index {A} (l : list A) (i : Z) : option A :=
  if decide (0 ≤ i)%Z then l !! Z.to_nat i else None.

Section Publisher.
Context {T F IP R : Type} `{Transport T F} `{Env} `{EventSpooler R acked}.

(** ** The methods' objects *)
Inductive method :=
| MethodFailover (config : Network F) (currentEndpoint : option positive) (failoverPosition : Z)
| MethodLoadbalance (config : Network F)
| MethodRandom (config : Network F) (activeServer : Z) (mbackoff : ExpBackoff).

(** [ifSpoolChan] and [onShutdown] are channels that may be nil. *)
Record Publisher := mkPublisher {
  pub_config : Network F;
  pub_method : positive;
  pub_methods : gmap positive method;
  pub_numPayloads : Z;
  outOfSync : Z;
  registrarSpool : R;
  shuttingDown : bool;
  pub_lineCount : Z;
  lineSpeed : float64;
  lastLineCount : Z;
  lastMeasurement : Z;
  secondsNoAck : Z;
  onShutdown : bool;
  ifSpoolChan : bool;
  nextSpool : option (list EventDescriptor);
}.

Abbreviation PW := (World (T := T) (F := F) (IP := IP) (X := Publisher)).
Abbreviation P A := (M PW A).

Definition get_pub : P Publisher := gets w_ext.
Definition put_pub (x : Publisher) : P unit := modify (set_ext x).

Definition p_set_config (c : Network F) (x : Publisher) : Publisher :=
  mkPublisher c (pub_method x) (pub_methods x) (pub_numPayloads x) (outOfSync x) (registrarSpool x) (shuttingDown x)
    (pub_lineCount x) (lineSpeed x) (lastLineCount x) (lastMeasurement x) (secondsNoAck x) (onShutdown x) (ifSpoolChan x) (nextSpool x).
Definition p_set_method (m : positive) (ms : gmap positive method) (x : Publisher) : Publisher :=
  mkPublisher (pub_config x) m ms (pub_numPayloads x) (outOfSync x) (registrarSpool x) (shuttingDown x)
    (pub_lineCount x) (lineSpeed x) (lastLineCount x) (lastMeasurement x) (secondsNoAck x) (onShutdown x) (ifSpoolChan x) (nextSpool x).
Definition p_set_numPayloads (n : Z) (x : Publisher) : Publisher :=
  mkPublisher (pub_config x) (pub_method x) (pub_methods x) n (outOfSync x) (registrarSpool x) (shuttingDown x)
    (pub_lineCount x) (lineSpeed x) (lastLineCount x) (lastMeasurement x) (secondsNoAck x) (onShutdown x) (ifSpoolChan x) (nextSpool x).
Definition p_set_outOfSync (n : Z) (x : Publisher) : Publisher :=
  mkPublisher (pub_config x) (pub_method x) (pub_methods x) (pub_numPayloads x) n (registrarSpool x) (shuttingDown x)
    (pub_lineCount x) (lineSpeed x) (lastLineCount x) (lastMeasurement x) (secondsNoAck x) (onShutdown x) (ifSpoolChan x) (nextSpool x).
Definition p_set_spool (r : R) (x : Publisher) : Publisher :=
  mkPublisher (pub_config x) (pub_method x) (pub_methods x) (pub_numPayloads x) (outOfSync x) r (shuttingDown x)
    (pub_lineCount x) (lineSpeed x) (lastLineCount x) (lastMeasurement x) (secondsNoAck x) (onShutdown x) (ifSpoolChan x) (nextSpool x).
Definition p_set_shutdown (x : Publisher) : Publisher :=
  mkPublisher (pub_config x) (pub_method x) (pub_methods x) (pub_numPayloads x) (outOfSync x) (registrarSpool x) true
    (pub_lineCount x) (lineSpeed x) (lastLineCount x) (lastMeasurement x) (secondsNoAck x) false false None.
Definition p_set_lineCount (n : Z) (x : Publisher) : Publisher :=
  mkPublisher (pub_config x) (pub_method x) (pub_methods x) (pub_numPayloads x) (outOfSync x) (registrarSpool x) (shuttingDown x)
    n (lineSpeed x) (lastLineCount x) (lastMeasurement x) (secondsNoAck x) (onShutdown x) (ifSpoolChan x) (nextSpool x).
Definition p_set_measure (sp : float64) (n t sec : Z) (x : Publisher) : Publisher :=
  mkPublisher (pub_config x) (pub_method x) (pub_methods x) (pub_numPayloads x) (outOfSync x) (registrarSpool x) (shuttingDown x)
    (pub_lineCount x) sp n t sec (onShutdown x) (ifSpoolChan x) (nextSpool x).
Definition p_set_held (chan : bool) (s : option (list EventDescriptor)) (x : Publisher) : Publisher :=
  mkPublisher (pub_config x) (pub_method x) (pub_methods x) (pub_numPayloads x) (outOfSync x) (registrarSpool x) (shuttingDown x)
    (pub_lineCount x) (lineSpeed x) (lastLineCount x) (lastMeasurement x) (secondsNoAck x) (onShutdown x) chan s.

Definition update_pub (f : Publisher → Publisher) : P unit := x ← get_pub; put_pub (f x).

Definition get_method (m : positive) : P method :=
  x ← get_pub; deref (pub_methods x !! m).
Definition put_method (m : positive) (o : method) : P unit :=
  update_pub (fun x => p_set_method (pub_method x) (<[m := o]> (pub_methods x)) x).

(** Sink calls, at this store. *)
Definition Register (t : positive) (duration : Z) (cb : callback) : P unit := RegisterTimeout t duration cb.

(** ** [method_failover.go] *)
Fixpoint prev_search (fuel : nat) (target : option positive) (previous : option positive) : P bool :=
  match previous with
  | None => mret false
  | Some q =>
      if decide (previous = target) then mret true
      else
        match fuel with
        | O => out_of_fuel
        | S fuel' => q' ← endpoint_Prev q; prev_search fuel' target q'
        end
  end.

(** A well-formed ordered list has at most as many elements as the memory. *)
Definition list_fuel : P nat := gets (fun w => S (size (elems (w_mem w)))).

Definition failover_onFail (m : positive) (e : positive) : P unit :=
  o ← get_method m;
  match o with
  | MethodFailover config current position =>
      if negb (bool_decide (current = Some e)) then mret tt
      else
        n ← sink_Count;
        if decide (n = zlen (Servers config)) then mret tt
        else
          let position := (position + 1)%Z in
          put_method m (MethodFailover config current position);;
          newServer ← deref (index (Servers config) position);
          found ← FindEndpoint newServer;
          match found with
          | Some q =>
              MoveEndpointAfter q current;;
              put_method m (MethodFailover config (Some q) position)
          | None =>
              pool ← deref (index (AddressPools config) position);
              q ← AddEndpoint newServer pool false;
              put_method m (MethodFailover config (Some q) position)
          end
  | _ => mret tt
  end.

Definition failover_onFinish (m : positive) (e : positive) : P bool :=
  o ← get_method m;
  match o with
  | MethodFailover _ current _ => fuel ← list_fuel; prev_search fuel (Some e) current
  | _ => mret false
  end.

(** [for next := endpoint.Next(); next != nil; next = next.Next()]. *)
Fixpoint shutdown_later (fuel : nat) (m : positive) (next : option positive) : P unit :=
  match next with
  | None => mret tt
  | Some q =>
      match fuel with
      | O => out_of_fuel
      | S fuel' =>
          ep ← get_endpoint q;
          ShutdownEndpoint (ep_server ep);;
          o ← get_method m;
          match o with
          | MethodFailover config current position => put_method m (MethodFailover config current (position - 1))
          | _ => mret tt
          end;;
          q' ← endpoint_Next q;
          shutdown_later fuel' m q'
      end
  end.

Definition failover_onStarted (m : positive) (e : positive) : P unit :=
  o ← get_method m;
  match o with
  | MethodFailover config current position =>
      if decide (current = Some e) then mret tt
      else
        fuel ← list_fuel;
        previous ← endpoint_Prev e;
        better ← prev_search fuel current previous;
        if (better : bool) then mret tt
        else
          put_method m (MethodFailover config (Some e) position);;
          next ← endpoint_Next e;
          shutdown_later fuel m next
  | _ => mret tt
  end.

(** The loop over the configured servers; [last] is the endpoint to go after. *)
Fixpoint failover_reload_loop (m : positive) (config : Network F) (servers : list text)
    (last : option positive) (foundCurrent : bool) : P unit :=
  match servers with
  | [] => mret tt
  | server :: servers' =>
      o ← get_method m;
      match o with
      | MethodFailover c current position =>
          is_current ← (match current with
                        | None => mret false
                        | Some q => ep ← get_endpoint q; mret (bool_decide (ep_server ep = server))
                        end);
          let foundCurrent := foundCurrent || is_current in
          found ← FindEndpoint server;
          match found with
          | None =>
              if (foundCurrent : bool) then failover_reload_loop m config servers' last foundCurrent
              else
                pool ← NewPool_alloc server;
                q ← AddEndpointAfter server pool false last;
                match current with
                | None =>
                    put_method m (MethodFailover c (Some q) position);;
                    failover_reload_loop m config servers' (Some q) true
                | Some _ => failover_reload_loop m config servers' (Some q) foundCurrent
                end
          | Some q =>
              if (foundCurrent : bool) then
                ShutdownEndpoint server;; failover_reload_loop m config servers' last foundCurrent
              else
                MoveEndpointAfter q last;;
                endpoint_ReloadConfig q config false;;
                failover_reload_loop m config servers' (Some q) foundCurrent
          end
      | _ => mret tt
      end
  end.

Definition failover_reloadConfig (m : positive) (config : Network F) : P unit :=
  o ← get_method m;
  match o with
  | MethodFailover _ current position =>
      put_method m (MethodFailover config current position);;
      failover_reload_loop m config (Servers config) None false
  | _ => mret tt
  end.

Definition newMethodFailover (config : Network F) : P positive :=
  m ← alloc;
  put_method m (MethodFailover config None 0);;
  failover_reloadConfig m config;;
  mret m.

(** ** [method_loadbalance.go] *)
Fixpoint loadbalance_reload_loop (config : Network F) (n : Z) (servers : list text) (last : option positive) : P unit :=
  match servers with
  | [] => mret tt
  | server :: servers' =>
      found ← FindEndpoint server;
      match found with
      | None =>
          pool ← deref (index (AddressPools config) n);
          q ← AddEndpointAfter server pool false last;
          loadbalance_reload_loop config (n + 1) servers' (Some q)
      | Some q =>
          MoveEndpointAfter q last;;
          endpoint_ReloadConfig q config false;;
          loadbalance_reload_loop config (n + 1) servers' (Some q)
      end
  end.

Definition loadbalance_reloadConfig (m : positive) (config : Network F) : P unit :=
  put_method m (MethodLoadbalance config);;
  loadbalance_reload_loop config 0 (Servers config) None.

Definition newMethodLoadbalance (config : Network F) : P positive :=
  m ← alloc;
  put_method m (MethodLoadbalance config);;
  loadbalance_reloadConfig m config;;
  mret m.

(** ** [method_random.go] *)
Fixpoint draw_server (fuel : nat) (n active : Z) : P Z :=
  match fuel with
  | O => out_of_fuel
  | S fuel' =>
      if decide (n ≤ 0)%Z then panic
      else
        selected ← read_env (fun k => rand_Intn k n);
        if decide (selected = active) then draw_server fuel' n active else mret selected
  end.

(** With three servers or more, each draw is the active one with chance 1/n. *)
Definition draw_fuel : nat := 1000.

Definition connectRandom (m : positive) : P unit :=
  o ← get_method m;
  match o with
  | MethodRandom config active k =>
      let n := zlen (Servers config) in
      selected ← (if decide (n = 1)%Z then mret 0%Z
                  else if decide (n = 2 ∧ active ≠ -1)%Z then mret (Z.rem (active + 1) 2)
                  else draw_server draw_fuel n active);
      put_method m (MethodRandom config selected k);;
      server ← deref (index (Servers config) selected);
      pool ← deref (index (AddressPools config) selected);
      AddEndpoint server pool true;;
      mret tt
  | _ => mret tt
  end.

Fixpoint position_of (server : text) (servers : list text) (n : Z) : option Z :=
  match servers with
  | [] => None
  | s :: ss => if decide (s = server) then Some n else position_of server ss (n + 1)
  end.

(** One endpoint left by another method: kept if it is the first suitable one. *)
Definition random_consider (m : positive) (config : Network F) (e : positive) (foundAcceptable : bool) : P bool :=
  ep ← get_endpoint e;
  if IsClosing ep then mret foundAcceptable
  else if IsFailed ep || foundAcceptable then
    ShutdownEndpoint (ep_server ep);; mret foundAcceptable
  else
    match position_of (ep_server ep) (Servers config) 0 with
    | Some k =>
        o ← get_method m;
        match o with
        | MethodRandom c _ b => put_method m (MethodRandom c k b)
        | _ => mret tt
        end;;
        endpoint_ReloadConfig e config true;;
        mret true
    | None => ShutdownEndpoint (ep_server ep);; mret false
    end.

Fixpoint random_adopt (fuel : nat) (m : positive) (config : Network F) (e : option positive) (foundAcceptable : bool)
  : P unit :=
  match e with
  | None => mret tt
  | Some e =>
      match fuel with
      | O => out_of_fuel
      | S fuel' =>
          found ← random_consider m config e foundAcceptable;
          next ← endpoint_Next e;
          random_adopt fuel' m config next found
      end
  end.

Definition newMethodRandom (config : Network F) : P positive :=
  Now;;
  m ← alloc;
  put_method m (MethodRandom config (-1) (NewExpBackoff (Backoff config) (BackoffMax config)));;
  put_timeout m (mkTimeout zeroTime None);;
  n ← sink_Count;
  if decide (n = 0)%Z then connectRandom m;; mret m
  else
    fuel ← list_fuel;
    front ← sink_Front;
    random_adopt fuel m config front false;;
    mret m.

Definition random_onFinish (m : positive) : P bool :=
  o ← get_method m;
  match o with
  | MethodRandom config active k =>
      let '(delay, k') := Trigger k in
      put_method m (MethodRandom config active k');;
      RegisterTimeout m delay (CbConnectRandom m);;
      mret false
  | _ => mret false
  end.

Definition random_onStarted (m : positive) : P unit :=
  o ← get_method m;
  match o with
  | MethodRandom config active k => put_method m (MethodRandom config active (Reset_backoff k))
  | _ => mret tt
  end.

Definition random_reloadConfig (m : positive) (config : Network F) : P unit :=
  o ← get_method m;
  match o with
  | MethodRandom old active k =>
      currentServer ← deref (index (Servers old) active);
      put_method m (MethodRandom config active k);;
      front ← sink_Front;
      match front with
      | None => mret tt
      | Some e =>
          if decide (currentServer ∈ Servers config)
          then endpoint_ReloadConfig e config true;; mret tt
          else ShutdownEndpoint currentServer;; mret tt
      end
  | _ => mret tt
  end.

(** ** The [method] interface *)
Definition method_onFail (e : positive) : P unit :=
  x ← get_pub;
  o ← get_method (pub_method x);
  match o with
  | MethodFailover _ _ _ => failover_onFail (pub_method x) e
  | MethodLoadbalance _ | MethodRandom _ _ _ => mret tt
  end.

Definition method_onFinish (e : positive) : P bool :=
  x ← get_pub;
  o ← get_method (pub_method x);
  match o with
  | MethodFailover _ _ _ => failover_onFinish (pub_method x) e
  | MethodLoadbalance _ => mret true
  | MethodRandom _ _ _ => random_onFinish (pub_method x)
  end.

Definition method_onStarted (e : positive) : P unit :=
  x ← get_pub;
  o ← get_method (pub_method x);
  match o with
  | MethodFailover _ _ _ => failover_onStarted (pub_method x) e
  | MethodLoadbalance _ => mret tt
  | MethodRandom _ _ _ => random_onStarted (pub_method x)
  end.

Definition method_reloadConfig (config : Network F) : P unit :=
  x ← get_pub;
  o ← get_method (pub_method x);
  match o with
  | MethodFailover _ _ _ => failover_reloadConfig (pub_method x) config
  | MethodLoadbalance _ => loadbalance_reloadConfig (pub_method x) config
  | MethodRandom _ _ _ => random_reloadConfig (pub_method x) config
  end.

(** ** Sending *)
Definition forceEndpointFailure (e : positive) : P unit := sink_ForceFailure e.

Definition timeoutPending (e : positive) : P unit :=
  ep ← get_endpoint e;
  if IsPinging ep then forceEndpointFailure e else forceEndpointFailure e.

Definition timeoutKeepalive (e : positive) : P unit :=
  x ← get_pub;
  Register e (Timeout_ (pub_config x)) (CbTimeoutPending e);;
  err ← SendPing e;
  match err with None => mret tt | Some _ => forceEndpointFailure e end.

(** Whether the payload was sent.  Without an error the endpoint is used: a nil
    one panics. *)
Definition sendPayload (p : positive) : P bool :=
  r ← QueuePayload p;
  match snd r with
  | Some _ => e ← deref (fst r); forceEndpointFailure e;; mret false
  | None =>
      e ← deref (fst r);
      ep ← get_endpoint e;
      when (bool_decide (NumPending ep = 1%Z))
        (x ← get_pub; Register e (Timeout_ (pub_config x)) (CbTimeoutPending e));;
      mret true
  end.

Definition sendEvents (events : list EventDescriptor) : P bool :=
  p ← alloc;
  put_payload p (NewPayload events);;
  lists (PushBack payloadList (Node (payloadElement p)));;
  update_pub (fun x => p_set_numPayloads (pub_numPayloads x + 1) x);;
  sendPayload p.

Definition eventsHeld : P bool :=
  n ← lists (Len resendList);
  x ← get_pub;
  mret (bool_decide (0 < n)%Z || match nextSpool x with Some _ => true | None => false end).

(** The loop over the resend list. *)
Fixpoint resend_loop (fuel : nat) (didSend : bool) : P bool :=
  n ← lists (Len resendList);
  if decide (n ≤ 0)%Z then mret didSend
  else
    match fuel with
    | O => out_of_fuel
    | S fuel' =>
        front ← list_Front resendList;
        p ← deref front;
        ok ← sendPayload p;
        if (ok : bool) then
          pl ← get_payload p;
          put_payload p (ResetSequence (set_Resending false pl));;
          lists (Remove resendList (Node (resendElement p)));;
          resend_loop fuel' true
        else resend_loop fuel' didSend
    end.

(** Every iteration sends a payload or fails an endpoint. *)
Definition resend_fuel : P nat :=
  n ← lists (Len resendList); k ← lists (Len readyList); mret (Z.to_nat (n + k + 1)).

Definition tryQueueHeld : P bool :=
  x ← get_pub;
  held ← eventsHeld;
  can ← CanQueue;
  if shuttingDown x || negb held || negb can then mret false
  else
    n ← lists (Len resendList);
    if decide (0 < n)%Z then fuel ← resend_fuel; resend_loop fuel false
    else
      match nextSpool x with
      | Some events =>
          if decide (pub_numPayloads x < MaxPendingPayloads (pub_config x))%Z then
            ok ← sendEvents events;
            if (ok : bool) then update_pub (p_set_held true None);; mret true else mret false
          else mret false
      | None => mret false
      end.

(** Payloads of a failed endpoint go to the back of the resend list. *)
Fixpoint hold_all (ps : list positive) : P unit :=
  match ps with
  | [] => mret tt
  | p :: ps' =>
      pl ← get_payload p;
      put_payload p (ResetSequence (set_Resending true pl));;
      lists (PushBack resendList (Node (resendElement p)));;
      hold_all ps'
  end.

Definition pullBackPending (e : positive) : P unit :=
  ps ← PullBackPending e;
  hold_all ps;;
  tryQueueHeld;; mret tt.

(** ** The observer *)
Definition pub_OnStarted (e : positive) : P unit :=
  method_onStarted e;;
  ep ← get_endpoint e;
  if negb (bool_decide (NumPending ep = 0%Z)) then mret tt
  else
    sent ← tryQueueHeld;
    if (sent : bool) then mret tt else Register e keepaliveTimeout (CbTimeoutKeepalive e).

Definition pub_OnFinish (e : positive) : P bool :=
  x ← get_pub;
  if shuttingDown x then mret false
  else
    ep ← get_endpoint e;
    when (negb (bool_decide (NumPending ep = 0%Z))) (pullBackPending e);;
    method_onFinish e.

Definition pub_OnFail (e : positive) : P unit :=
  ep ← get_endpoint e;
  when (negb (bool_decide (NumPending ep = 0%Z))) (pullBackPending e);;
  method_onFail e.

(** The loop that passes acknowledgements on in order, from the payload [p] at
    the front; the result counts the payloads completed. *)
Fixpoint ack_loop (fuel : nat) (p : positive) (out_of_sync numComplete : Z) : P Z :=
  match fuel with
  | O => out_of_fuel
  | S fuel' =>
      pl ← get_payload p;
      if negb (HasAck pl) then mret numComplete
      else
        r ← lift (Rollup pl);
        put_payload p (snd r);;
        update_pub (fun x => p_set_spool (spool_Add (fst r) (registrarSpool x)) x);;
        complete ← lift (Complete (snd r));
        if negb complete then mret numComplete
        else
          lists (Remove payloadList (Node (payloadElement p)));;
          update_pub (p_set_outOfSync (out_of_sync - 1));;
          n ← lists (Len payloadList);
          if decide (n = 0)%Z then mret (numComplete + 1)%Z
          else
            front ← list_Front payloadList;
            p' ← deref front;
            ack_loop fuel' p' (out_of_sync - 1) (numComplete + 1)
  end.

Definition pub_OnAck (e p : positive) (firstAck : bool) (lines : Z) : P unit :=
  ep ← get_endpoint e;
  x ← get_pub;
  (if decide (0 < NumPending ep)%Z then Register e (Timeout_ (pub_config x)) (CbTimeoutPending e)
   else Register e keepaliveTimeout (CbTimeoutKeepalive e));;
  pl ← get_payload p;
  complete ← lift (Complete pl);
  when (Resending pl && complete)
    (put_payload p (set_Resending false pl);; lists (Remove resendList (Node (resendElement p))));;
  front ← list_Front payloadList;
  first ← deref front;
  numComplete ←
    (if decide (p = first) then
       x ← get_pub;
       n ← lists (Len payloadList);
       k ← ack_loop (S (Z.to_nat n)) p (outOfSync x + 1) 0;
       update_pub (fun x => p_set_spool (spool_Send (registrarSpool x)) x);;
       mret k
     else
       when firstAck (update_pub (fun x => p_set_outOfSync (outOfSync x + 1) x));;
       mret 0%Z);
  update_pub (fun x =>
    p_set_lineCount (pub_lineCount x + lines)
      (if decide (numComplete = 0)%Z then x else p_set_numPayloads (pub_numPayloads x - numComplete) x));;
  when complete (tryQueueHeld;; mret tt).

Definition pub_OnPong (e : positive) : P unit :=
  ep ← get_endpoint e;
  when (bool_decide (NumPending ep = 0%Z)) (Register e keepaliveTimeout (CbTimeoutKeepalive e)).

Definition observer : Observer (T := T) (F := F) (IP := IP) (X := Publisher) :=
  mkObserver pub_OnAck pub_OnFail pub_OnFinish pub_OnPong pub_OnStarted.

(** The registered closures. *)
Definition run_callback (cb : callback) : P unit :=
  match cb with
  | CbMarkActive e => markActive e observer
  | CbTimeoutPending e => timeoutPending e
  | CbTimeoutKeepalive e => timeoutKeepalive e
  | CbConnectRandom m => connectRandom m
  end.

(** ** The loop *)
Definition takeMeasurements : P unit :=
  x ← get_pub;
  now ← Now;
  let '(speed, sec) :=
    CalculateSpeed math_Exp (time_Sub now (lastMeasurement x)) (lineSpeed x)
      (f64_of_Z (pub_lineCount x - lastLineCount x)) (secondsNoAck x) in
  now' ← Now;
  put_pub (p_set_measure speed (pub_lineCount x) now' sec x).

Definition initMethod : P unit :=
  x ← get_pub;
  let config := pub_config x in
  m ← (if decide (Method config = bytes_of "random") then newMethodRandom config
       else if decide (Method config = bytes_of "failover") then newMethodFailover config
       else if decide (Method config = bytes_of "loadbalance") then newMethodLoadbalance config
       else panic);
  update_pub (fun x => p_set_method m (pub_methods x) x).

(** The sink keeps the configuration it was created with; only its endpoints are
    compared with the new one. *)
Definition pub_reloadConfig (config : Network F) : P unit :=
  x ← get_pub;
  let oldMethod := Method (pub_config x) in
  put_pub (p_set_config config x);;
  sink_ReloadConfig config;;
  (if negb (bool_decide (Method config = oldMethod)) then initMethod else method_reloadConfig config);;
  tryQueueHeld;; mret tt.

(** What [runOnce] selects. *)
Inductive pub_input :=
| InEvent (ev : TransportEvent positive)
| InSpool (events : list EventDescriptor)
| InTimeout
| InMeasure
| InConfig (config : Network F)
| InShutdown.

(** A nil channel is never selected.  The timeout timer's channel may be ready at
    any time: [Stop] and [Reset] leave an expiry that was not received in it. *)
Definition selectable (i : pub_input) (w : PW) : bool :=
  match i with
  | InSpool _ => ifSpoolChan (w_ext w)
  | InShutdown => onShutdown (w_ext w)
  | _ => true
  end.

(** The number of timeouts one call may process: without a bound of its own, the
    loop goes on while callbacks register timeouts that are already due. *)
Definition timeouts_fuel : nat := 1000.

Definition receive_spool (events : list EventDescriptor) : P unit :=
  x ← get_pub;
  n ← lists (Len resendList);
  can ← CanQueue;
  sent ← (if decide (MaxPendingPayloads (pub_config x) ≤ pub_numPayloads x)%Z then mret false
          else if decide (n ≠ 0)%Z then mret false
          else if (can : bool) then sendEvents events
          else mret false);
  if (sent : bool) then mret tt else update_pub (p_set_held false (Some events)).

Definition runOnce (i : pub_input) : P bool :=
  match i with
  | InEvent ev =>
      ProcessEvent ev observer;;
      x ← get_pub;
      n ← sink_Count;
      mret (shuttingDown x && bool_decide (n = 0%Z))
  | InSpool events => receive_spool events;; mret false
  | InTimeout => ProcessTimeouts run_callback timeouts_fuel;; mret false
  | InMeasure => takeMeasurements;; mret false
  | InConfig config => pub_reloadConfig config;; mret false
  | InShutdown =>
      update_pub p_set_shutdown;;
      sink_Shutdown;;
      n ← sink_Count;
      mret (bool_decide (n = 0%Z))
  end.

(** A new publisher on an empty sink ([NewPublisher]). *)
Definition initial_world (config : Network F) (api : bool) (spool : R) : PW :=
  mkWorld emptyMem 1 0 ∅ ∅ ∅ ∅
    (mkSink ∅ config None (if api then Some newArray else None))
    (mkPublisher config 1 ∅ 0 0 spool false 0 f64_zero 0 zeroTime 0 true true None).

Definition NewPublisher (config : Network F) (api : bool) (spool : R) : outcome (unit * PW) :=
  initMethod (initial_world config api spool).

(** [Run] over the inputs selected, until it ends. *)
Fixpoint pub_run (is_ : list pub_input) : P bool :=
  match is_ with
  | [] => mret false
  | i :: is_' =>
      w ← get;
      if selectable i w then
        stop ← runOnce i;
        if (stop : bool) then update_pub (fun x => p_set_spool (spool_Close (registrarSpool x)) x);; mret true
        else pub_run is_'
      else pub_run is_'
  end.
End Publisher.
