(* ===== verification/PublisherOrder.v ===== *)
(** * The publisher's store: invariant and order of acknowledgements

    The invariant ties the intrusive lists to the objects they link (an endpoint
    on the ready list is active, a held payload is not pending, and so on) and
    accounts for every event received: those passed to the registrar, then those
    of the payloads in the publisher's list, then those still held.  It is kept
    by every operation of the sink and of the publisher other than the methods'
    reloads ([PublisherReload]), for transports whose [Write] accepts what it is given. *)
From S2P Require Import Prelude InternalList Core Payload Codecs AdminApi AddressPool Transports Endpoint Registrar Publisher.

Section Order.
Context {T F IP R : Type} `{Transport T F} `{Env} `{SpoolerLog R}.

Abbreviation PW := (World (T := T) (F := F) (IP := IP) (X := Publisher (F := F) (R := R))).
Implicit Types w : PW.

(** ** Views of the store *)
Definition st w (e : positive) : option status := ep_status <$> w_endpoints w !! e.
Definition pend w (e : positive) : option (gmap text positive) := pendingPayloads <$> w_endpoints w !! e.
Definition is_pending w (p : positive) : Prop := ∃ e m k, pend w e = Some m ∧ m !! k = Some p.

(** The element [n] is not on the list [l]. *)
Definition notin (l n : positive) w : Prop := list_of (elem (w_mem w) (Node n)) ≠ Some l.

(** The publisher's shutdown flag, spool channel and held spool. *)
Definition pubview w : bool * bool * option (list EventDescriptor) :=
  (shuttingDown (w_ext w), ifSpoolChan (w_ext w), nextSpool (w_ext w)).
Definition log_of w : list EventDescriptor := spool_log (registrarSpool (w_ext w)).

(** What membership of a list says about the element; [x] is a payload in transit
    between the resend list and an endpoint. *)
Definition okmem (x : option positive) (l n : positive) w : Prop :=
  (l = timeoutList ∧ ∃ t y, n = timeoutElement t ∧ w_timeouts w !! t = Some y ∧ timeoutFunc y ≠ None) ∨
  (l = readyList ∧ ∃ e, n = readyElement e ∧ st w e = Some endpointStatusActive) ∨
  (l = failedList ∧ ∃ e, n = failedElement e ∧ st w e = Some endpointStatusFailed) ∨
  (l = orderedList ∧ ∃ e, n = orderedElement e ∧ st w e ≠ None) ∨
  (l = payloadList ∧ ∃ p, n = payloadElement p ∧ w_payloads w !! p ≠ None) ∨
  (l = resendList ∧ ∃ p, n = resendElement p ∧ w_payloads w !! p ≠ None ∧ (x ≠ Some p → ¬ is_pending w p)).

Record Inv (x : option positive) (recv tl : list EventDescriptor) (pv : bool * bool * option (list EventDescriptor))
    w (Γ : abs) : Prop := mkInv {
  v_rep : rep (w_mem w) Γ;
  v_mem : ∀ l n, n ∈ Γ l → okmem x l n w;
  v_pend : ∀ e m k p, pend w e = Some m → m !! k = Some p →
    w_payloads w !! p ≠ None ∧ ∀ e' m' k', pend w e' = Some m' → m' !! k' = Some p → e' = e ∧ k' = k;
  v_fresh : ∀ i, (w_next w ≤ i)%positive →
    w_endpoints w !! i = None ∧ w_payloads w !! i = None ∧ w_timeouts w !! i = None;
  v_ok : ∀ p pl, w_payloads w !! p = Some pl → payload_ok pl;
  v_held : ∃ ps pls, Γ payloadList = payloadElement <$> ps ∧
    Forall2 (fun p pl => w_payloads w !! p = Some pl) ps pls ∧
    log_of w ++ concat (events <$> pls) ++ tl = recv;
  v_pub : pubview w = pv;
}.

Definition inv x recv tl pv w : Prop := ∃ Γ, Inv x recv tl pv w Γ.

(** ** Elements carry the field they are *)
Lemma okmem_list x x' l l' n w w' : okmem x l n w → okmem x' l' n w' → l = l'.
Proof.
  unfold okmem, timeoutElement, readyElement, failedElement, orderedElement, payloadElement, resendElement.
  intros Ha Hb. repeat destruct Ha as [Ha|Ha]; repeat destruct Hb as [Hb|Hb]; destruct Ha as [-> Ha], Hb as [-> Hb];
    try done; naive_solver.
Qed.

Lemma notin_iff x recv tl pv w Γ l n : Inv x recv tl pv w Γ → notin l n w ↔ n ∉ Γ l.
Proof. intros Hi. unfold notin. by rewrite (rep_member _ _ (v_rep _ _ _ _ _ _ Hi)). Qed.

Lemma detached_of x recv tl pv w Γ x' l n :
  Inv x recv tl pv w Γ → okmem x' l n w → notin l n w → detached Γ n.
Proof.
  intros Hi Ho Hn l' Hin. pose proof (v_mem _ _ _ _ _ _ Hi _ _ Hin) as Ho'.
  rewrite (okmem_list _ _ _ _ _ _ _ Ho Ho') in Hn. by apply (notin_iff _ _ _ _ _ _ _ _ Hi) in Hn.
Qed.

(** ** Worlds that agree on what the invariant reads *)
Definition agree w w' : Prop :=
  w_mem w' = w_mem w ∧ w_next w' = w_next w ∧ (∀ e, st w' e = st w e) ∧ (∀ e, pend w' e = pend w e) ∧
  w_payloads w' = w_payloads w ∧ w_timeouts w' = w_timeouts w ∧ pubview w' = pubview w ∧ log_of w' = log_of w.

Lemma agree_okmem x l n w w' : agree w w' → okmem x l n w → okmem x l n w'.
Proof.
  intros (_ & _ & Hst & Hp & Hpay & Hto & _). unfold okmem, is_pending. setoid_rewrite Hst. setoid_rewrite Hp.
  rewrite Hpay, Hto. done.
Qed.

Lemma st_none w e : st w e = None ↔ w_endpoints w !! e = None.
Proof. unfold st. by rewrite fmap_None. Qed.

Lemma agree_inv x recv tl pv w w' : agree w w' → inv x recv tl pv w → inv x recv tl pv w'.
Proof.
  intros Ha [Γ [Hr Hm Hp Hf Ho Hh Hv]]. exists Γ. pose proof (agree_okmem x) as Hok.
  destruct Ha as (Em & En & Est & Epend & Epay & Eto & Epv & Elog) eqn:EHa.
  split.
  - by rewrite Em.
  - intros l n Hin. eapply Hok; eauto.
  - setoid_rewrite Epend. rewrite Epay. exact Hp.
  - intros i. rewrite En, Epay, Eto. intros Hi. rewrite <-st_none, Est, st_none. by apply Hf.
  - by rewrite Epay.
  - rewrite Epay, Elog. exact Hh.
  - by rewrite Epv.
Qed.

(** ** Reading *)
Definition reads {S A} (m : M S A) : Prop := ∀ s a s', m s = Ret (a, s') → s' = s.

Lemma hoare_reads {S A} (P : S → Prop) (m : M S A) : reads m → hoare P m (fun a s => P s ∧ m s = Ret (a, s)).
Proof. intros Hm s a s' HP Hr. pose proof (Hm _ _ _ Hr) as ->. done. Qed.

Lemma lists_reads {A} (m : M Mem A) : reads m → reads (lists m : M PW A).
Proof.
  intros Hm w a w'. unfold lists. monad. destruct (m (w_mem w)) as [[b s]| |] eqn:E; [|done..].
  intros [= <- <-]. rewrite (Hm _ _ _ E). by destruct w.
Qed.

Lemma Len_reads l : reads (Len l).
Proof. by intros s a s' [= <- <-]. Qed.

Lemma Front_reads l : reads (Front l).
Proof. intros s a s'. unfold Front, Len. monad. repeat case_match; congruence. Qed.

Lemma Next_reads a : reads (Next a).
Proof. intros s b s'. unfold Next. monad. repeat case_match; congruence. Qed.

Lemma Prev_reads a : reads (Prev a).
Proof. intros s b s'. unfold Prev. monad. repeat case_match; congruence. Qed.

Lemma walk_reads fuel p : reads (walk fuel p).
Proof.
  revert p. induction fuel as [|fuel IH]; intros p s a s'; simpl; destruct p as [c|]; monad; try congruence.
  destruct (Next c s) as [[n s1]| |] eqn:En; [|done..]. rewrite (Next_reads _ _ _ _ En).
  destruct (walk fuel n s) as [[xs s2]| |] eqn:Ew; [|done..]. intros [= <- <-]. exact (IH _ _ _ _ Ew).
Qed.

Lemma traverse_reads fuel l : reads (traverse fuel l).
Proof.
  intros s a s'. unfold traverse. monad. destruct (Front l s) as [[p s1]| |] eqn:Ef; [|done..].
  rewrite (Front_reads _ _ _ _ Ef). apply walk_reads.
Qed.

(** ** Primitive steps *)
Section Triples.
Context (x : option positive) (recv tl : list EventDescriptor) (pv : bool * bool * option (list EventDescriptor)).
Abbreviation I := (inv x recv tl pv).

(** A step whose effect the invariant does not read. *)
Lemma keeps_agree {A} (m : M PW A) : (∀ w a w', m w = Ret (a, w') → agree w w') → keeps I m.
Proof. intros Hm w a w' HI Hr. eapply agree_inv; [by eapply Hm|done]. Qed.

Lemma agree_refl w : agree w w.
Proof. by repeat split. Qed.

Lemma agree_trans w w1 w2 : agree w w1 → agree w1 w2 → agree w w2.
Proof.
  intros (?&?&?&?&?&?&?&?) (?&?&?&?&?&?&?&?). repeat split; intros; etrans; eauto.
Qed.

Lemma keeps_ret {A} (a : A) : keeps I (mret a).
Proof. by apply hoare_ret. Qed.

Lemma keeps_gets {A} (f : PW → A) : keeps I (gets f).
Proof. by apply hoare_gets. Qed.

Lemma keeps_deref {A} (p : option A) : keeps I (deref p).
Proof. by apply hoare_deref. Qed.

Lemma keeps_lift {A} (o : outcome A) : keeps I (lift o).
Proof. destruct o; [apply keeps_ret|apply hoare_panic|apply hoare_fuel]. Qed.

Lemma keeps_read_env {A} (f : nat → A) : keeps I (read_env f).
Proof. apply keeps_agree. intros w a w' Hr. revert Hr. unfold read_env. monad. by intros [= <- <-]. Qed.

Lemma keeps_reads {A} (m : M PW A) : reads m → keeps I m.
Proof. intros Hm. apply keeps_agree. intros w a w' Hr. rewrite (Hm _ _ _ Hr). apply agree_refl. Qed.

Lemma keeps_put_sink s : keeps I (put_sink s).
Proof. apply keeps_agree. intros w a w' [= <- <-]. by repeat split. Qed.

Lemma keeps_set_pools f : keeps I (modify (fun w => set_pools (f w) w)).
Proof. apply keeps_agree. intros w a w' [= <- <-]. by repeat split. Qed.

Lemma keeps_update_pub f :
  (∀ y, shuttingDown (f y) = shuttingDown y ∧ ifSpoolChan (f y) = ifSpoolChan y ∧ nextSpool (f y) = nextSpool y ∧
        spool_log (registrarSpool (f y)) = spool_log (registrarSpool y)) →
  keeps I (update_pub f).
Proof.
  intros Hf. apply keeps_agree. intros w a w'. unfold update_pub, get_pub, put_pub. monad. intros [= <- <-].
  destruct (Hf (w_ext w)) as (H1' & H2' & H3' & H4'). repeat split; unfold pubview, log_of; simpl; congruence.
Qed.

Lemma update_endpoint_run e f w a w' :
  update_endpoint e f w = Ret (a, w') →
  ∃ ep, w_endpoints w !! e = Some ep ∧ w' = set_endpoints (<[e := f ep]> (w_endpoints w)) w.
Proof.
  unfold update_endpoint, get_endpoint, put_endpoint. monad.
  destruct (w_endpoints w !! e) as [ep|] eqn:E; [|done]. intros [= <- <-]. by exists ep.
Qed.

Lemma agree_set_endpoint e ep ep' w :
  w_endpoints w !! e = Some ep → ep_status ep' = ep_status ep → pendingPayloads ep' = pendingPayloads ep →
  agree w (set_endpoints (<[e := ep']> (w_endpoints w)) w).
Proof.
  intros He Hs Hp. repeat split; intros e'; unfold st, pend; simpl;
    (destruct (decide (e = e')) as [<-|]; [rewrite lookup_insert_eq, He; simpl; congruence|by rewrite lookup_insert_ne]).
Qed.

Lemma keeps_update_endpoint e f :
  (∀ ep, ep_status (f ep) = ep_status ep ∧ pendingPayloads (f ep) = pendingPayloads ep) →
  keeps I (update_endpoint e f).
Proof.
  intros Hf. apply keeps_agree. intros w a w' Hr.
  destruct (update_endpoint_run _ _ _ _ _ Hr) as (ep & He & ->). by eapply agree_set_endpoint; [|apply Hf..].
Qed.

(** [put_endpoint e ep'] after reading [ep] there. *)
Lemma hoare_put_endpoint e ep ep' :
  ep_status ep' = ep_status ep → pendingPayloads ep' = pendingPayloads ep →
  hoare (fun w => I w ∧ w_endpoints w !! e = Some ep) (put_endpoint e ep') (fun _ => I).
Proof.
  intros Hs Hp w a w' [HI He] [= <- <-]. by eapply agree_inv; [eapply agree_set_endpoint|].
Qed.

Lemma hoare_get_endpoint (P : PW → Prop) e :
  hoare P (get_endpoint e) (fun ep w => P w ∧ w_endpoints w !! e = Some ep).
Proof.
  intros w ep w' HP. unfold get_endpoint. monad. destruct (w_endpoints w !! e) eqn:E; [|done].
  by intros [= <- <-].
Qed.

Lemma hoare_get_payload (P : PW → Prop) p :
  hoare P (get_payload p) (fun pl w => P w ∧ w_payloads w !! p = Some pl).
Proof.
  intros w pl w' HP. unfold get_payload. monad. destruct (w_payloads w !! p) eqn:E; [|done].
  by intros [= <- <-].
Qed.

Lemma hoare_get_timeout (P : PW → Prop) t :
  hoare P (get_timeout t) (fun y w => P w ∧ w_timeouts w !! t = Some y).
Proof.
  intros w y w' HP. unfold get_timeout. monad. destruct (w_timeouts w !! t) eqn:E; [|done].
  by intros [= <- <-].
Qed.

Lemma keeps_get_endpoint e : keeps I (get_endpoint e).
Proof. eapply hoare_conseq; [apply (hoare_get_endpoint I)|done|by intros a w [? _]]. Qed.

Lemma keeps_get_payload p : keeps I (get_payload p).
Proof. eapply hoare_conseq; [apply (hoare_get_payload I)|done|by intros a w [? _]]. Qed.

Lemma keeps_get_timeout t : keeps I (get_timeout t).
Proof. eapply hoare_conseq; [apply (hoare_get_timeout I)|done|by intros a w [? _]]. Qed.

(** ** List operations *)
Lemma lists_run {A} (m : M Mem A) w a w' :
  lists m w = Ret (a, w') → ∃ s, m (w_mem w) = Ret (a, s) ∧ w' = set_mem s w.
Proof.
  unfold lists. monad. destruct (m (w_mem w)) as [[b s]| |]; [|done..]. intros [= <- <-]. by exists s.
Qed.

(** Replacing the memory by one that represents [Γ'], with nothing new on a list
    and the payload list untouched. *)
Lemma inv_mem w Γ s Γ' :
  Inv x recv tl pv w Γ → rep s Γ' → Γ' payloadList = Γ payloadList →
  (∀ l n, n ∈ Γ' l → n ∈ Γ l ∨ okmem x l n w) → inv x recv tl pv (set_mem s w).
Proof.
  intros [Hr Hm Hp Hf Ho Hh Hv] Hs Hpl Hsub. exists Γ'. split; try done.
  - intros l n Hin. destruct (Hsub _ _ Hin) as [Hin'|Hok]; [by apply Hm|done].
  - by rewrite Hpl.
Qed.

Lemma without_subset n l (Γ : abs) : ∀ l' k, k ∈ <[l := without n (Γ l)]> Γ l' → k ∈ Γ l'.
Proof.
  intros l' k. destruct (decide (l = l')) as [<-|Hne].
  - rewrite fn_lookup_insert. rewrite elem_of_without. by intros [? _].
  - by rewrite fn_lookup_insert_ne.
Qed.

Lemma hoare_Remove l n :
  l ≠ payloadList → hoare I (lists (Remove l (Node n))) (fun _ w => I w ∧ notin l n w).
Proof.
  intros Hl w a w' [Γ Hi] Hr. destruct (lists_run _ _ _ _ Hr) as (s & Hs & ->).
  destruct (Remove_refines (w_mem w) Γ l n (v_rep _ _ _ _ _ _ Hi)) as (s' & Hs' & Hrep).
  rewrite Hs in Hs'. injection Hs' as -> ->. split.
  - eapply inv_mem; [done|done|by rewrite fn_lookup_insert_ne|].
    intros l' k Hk. left. by eapply without_subset.
  - unfold notin. simpl. rewrite (rep_member _ _ Hrep), fn_lookup_insert, elem_of_without. naive_solver.
Qed.

Lemma keeps_Remove l n : l ≠ payloadList → keeps I (lists (Remove l (Node n))).
Proof. intros Hl. eapply hoare_conseq; [by apply hoare_Remove|done|by intros a w [? _]]. Qed.

(** The three insertions, of an element that is allowed on the list and not there. *)
Lemma hoare_insertion {A} (m : M Mem A) l n (f : list positive → list positive) :
  l ≠ payloadList → (∀ xs k, k ∈ f xs → k ∈ xs ∨ k = n) →
  (∀ s Γ, rep s Γ → detached Γ n → ∃ a, refines m s a (<[l := f (Γ l)]> Γ)) →
  hoare (fun w => I w ∧ okmem x l n w ∧ notin l n w) (lists m) (fun _ => I).
Proof.
  intros Hl Hf Hm w a w' ([Γ Hi] & Hok & Hn) Hr. destruct (lists_run _ _ _ _ Hr) as (s & Hs & ->).
  destruct (Hm (w_mem w) Γ (v_rep _ _ _ _ _ _ Hi)) as (a' & s' & Hs' & Hrep);
    [by eapply detached_of|]. rewrite Hs in Hs'. injection Hs' as -> ->.
  eapply inv_mem; [done|done|by rewrite fn_lookup_insert_ne|].
  intros l' k. destruct (decide (l = l')) as [<-|Hne].
  - rewrite fn_lookup_insert. intros Hk. destruct (Hf _ _ Hk) as [?| ->]; auto.
  - rewrite fn_lookup_insert_ne by done. auto.
Qed.

Lemma insert_after_sub n k xs y : y ∈ insert_after n k xs → y ∈ xs ∨ y = n.
Proof. induction xs as [|z xs IH]; simpl; [auto|]. case_decide; rewrite !elem_of_cons; naive_solver. Qed.

Lemma hoare_PushFront l n :
  l ≠ payloadList →
  hoare (fun w => I w ∧ okmem x l n w ∧ notin l n w) (lists (PushFront l (Node n))) (fun _ => I).
Proof.
  intros Hl. apply (hoare_insertion _ l n (fun xs => n :: xs)); [done|set_solver|].
  intros s Γ Hs Hd. eexists. by apply PushFront_refines.
Qed.

Lemma hoare_PushBack l n :
  l ≠ payloadList →
  hoare (fun w => I w ∧ okmem x l n w ∧ notin l n w) (lists (PushBack l (Node n))) (fun _ => I).
Proof.
  intros Hl. apply (hoare_insertion _ l n (fun xs => xs ++ [n])); [done|set_solver|].
  intros s Γ Hs Hd. eexists. by apply PushBack_refines.
Qed.

Lemma hoare_InsertAfter l n k :
  l ≠ payloadList →
  hoare (fun w => I w ∧ okmem x l n w ∧ notin l n w) (lists (InsertAfter l (Node n) (Node k))) (fun _ => I).
Proof.
  intros Hl. apply (hoare_insertion _ l n (insert_after n k)); [done|intros; by eapply insert_after_sub|].
  intros s Γ Hs Hd. eexists. by apply InsertAfter_refines.
Qed.

Lemma keeps_MoveAfter l n k : l ≠ payloadList → keeps I (lists (MoveAfter l (Node n) (Node k))).
Proof.
  intros Hl w a w' [Γ Hi] Hr. destruct (lists_run _ _ _ _ Hr) as (s & Hs & ->).
  destruct (MoveAfter_refines (w_mem w) Γ l n k (v_rep _ _ _ _ _ _ Hi)) as (s' & Hs' & Hrep).
  rewrite Hs in Hs'. injection Hs' as -> ->. simpl in Hrep. case_decide as Hc.
  - eapply inv_mem; [done|done|by rewrite fn_lookup_insert_ne|].
    intros l' y. destruct (decide (l = l')) as [<-|Hne].
    + rewrite fn_lookup_insert. intros [Hy| ->]%insert_after_sub; left; [|apply Hc].
      by apply elem_of_without in Hy as [? _].
    + rewrite fn_lookup_insert_ne by done. auto.
  - by eapply inv_mem; [| |done|auto].
Qed.

(** ** Timeouts *)
Lemma reads_stable {A} (P : PW → Prop) (m : M PW A) : reads m → hoare P m (fun _ => P).
Proof. intros Hm w a w' HP Hr. by rewrite (Hm _ _ _ Hr). Qed.

Lemma gets_reads {A} (f : PW → A) : reads (gets f).
Proof. by intros w a w' [= <- <-]. Qed.

Lemma bind_reads {A B} (m : M PW A) (f : A → M PW B) : reads m → (∀ a, reads (f a)) → reads (m ≫= f).
Proof.
  intros Hm Hf w b w'. monad. destruct (m w) as [[a w1]| |] eqn:E; [|done..].
  rewrite (Hm _ _ _ E). apply Hf.
Qed.

Lemma ret_reads {A} (a : A) : reads (mret (M := M PW) a).
Proof. by intros w b w' [= <- <-]. Qed.

Lemma list_Front_reads l : reads (list_Front l : M PW _).
Proof. apply bind_reads; [apply lists_reads, Front_reads|intros; apply ret_reads]. Qed.

Lemma iterate_reads l : reads (iterate l : M PW _).
Proof.
  apply bind_reads; [apply gets_reads|intros n]. apply bind_reads; [apply lists_reads, traverse_reads|].
  intros; apply ret_reads.
Qed.

Lemma get_timeout_reads t : reads (get_timeout t : M PW _).
Proof. intros w y w'. unfold get_timeout. monad. destruct (w_timeouts w !! t); [|done]. by intros [= <- <-]. Qed.

Lemma due_before_reads due ts k : reads (due_before due ts k : M PW _).
Proof.
  revert k. induction ts as [|t ts IH]; intros k; simpl; [apply ret_reads|].
  apply bind_reads; [apply get_timeout_reads|]. intros y. case_decide; [apply ret_reads|apply IH].
Qed.

Lemma keeps_resetTimeoutTimer : keeps I resetTimeoutTimer.
Proof.
  apply keeps_bind; [apply keeps_reads, lists_reads, Len_reads|intros n].
  apply keeps_bind; [apply keeps_gets|intros s]. case_decide; [apply keeps_put_sink|].
  apply keeps_bind; [apply keeps_reads, list_Front_reads|intros f].
  apply keeps_bind; [apply keeps_deref|intros t].
  apply keeps_bind; [apply keeps_get_timeout|intros y]. apply keeps_put_sink.
Qed.

Lemma v_absent w Γ l n : Inv x recv tl pv w Γ → ¬ okmem x l n w → notin l n w.
Proof. intros Hi Hn. rewrite (notin_iff _ _ _ _ _ _ _ _ Hi). intros Hin. by apply Hn, (v_mem _ _ _ _ _ _ Hi). Qed.

Lemma hoare_ClearTimeout t :
  hoare I (ClearTimeout t) (fun _ w => I w ∧ w_timeouts w !! t ≠ None ∧ notin timeoutList (timeoutElement t) w).
Proof.
  eapply hoare_bind; [apply hoare_get_timeout|]. intros y. simpl. destruct (timeoutFunc y) as [cb|] eqn:E.
  - intros w a w' [HI Ht] Hr. destruct (hoare_Remove timeoutList (timeoutElement t) ltac:(done) w a w' HI Hr) as [HI' Hn].
    split; [done|]. split; [|done]. destruct (lists_run _ _ _ _ Hr) as (s & _ & ->). simpl. by rewrite Ht.
  - apply hoare_ret. intros w [[Γ Hi] Ht]. split; [by exists Γ|]. rewrite Ht. split; [done|].
    apply (v_absent w Γ); [done|]. unfold okmem, timeoutElement, readyElement, failedElement, orderedElement, payloadElement, resendElement.
    naive_solver.
Qed.

(** Writing a timeout that exists: its element may stay on the list only if a
    closure is registered. *)
Lemma hoare_put_timeout t y :
  hoare (fun w => I w ∧ w_timeouts w !! t ≠ None ∧ notin timeoutList (timeoutElement t) w) (put_timeout t y)
    (fun _ w => I w ∧ notin timeoutList (timeoutElement t) w ∧ w_timeouts w !! t = Some y).
Proof.
  intros w a w' ([Γ Hi] & Ht & Hn) [= <- <-]. split; [|split; [done|simpl; by rewrite lookup_insert_eq]].
  pose proof Hi as [Hr Hm Hp Hf Ho Hh Hv]. exists Γ. split; try done.
  - intros l n Hin. pose proof (Hm l n Hin) as Hok.
    destruct Hok as [[-> (t' & y' & -> & Ht' & Hy)]|Hok]; [|by right].
    left. split; [done|]. exists t', y'. split; [done|]. simpl. rewrite lookup_insert_ne; [done|].
    intros <-. by apply (notin_iff _ _ _ _ _ _ _ _ Hi) in Hn.
  - intros i Hi'. destruct (Hf i Hi') as (?&?&?). repeat split; try done. simpl. rewrite lookup_insert_ne; [done|naive_solver].
Qed.

Lemma keeps_RegisterTimeout t d cb : keeps I (RegisterTimeout t d cb).
Proof.
  eapply hoare_bind; [apply hoare_ClearTimeout|intros ?; cbv beta].
  apply (hoare_bind _ (fun _ w => I w ∧ w_timeouts w !! t ≠ None ∧ notin timeoutList (timeoutElement t) w)).
  { intros w b w' (HI & Ht & Hn) Hr. split; [by eapply keeps_read_env|]. revert Hr. unfold Now, read_env. monad. by intros [= <- <-]. }
  intros now. eapply hoare_bind; [apply hoare_put_timeout|intros ?; cbv beta].
  eapply hoare_bind; [apply reads_stable, iterate_reads|intros ts].
  eapply hoare_bind; [apply reads_stable, due_before_reads|intros k].
  assert (Hok : ∀ w, I w ∧ notin timeoutList (timeoutElement t) w ∧ w_timeouts w !! t = Some (mkTimeout (now + d) (Some cb)) →
    I w ∧ okmem x timeoutList (timeoutElement t) w ∧ notin timeoutList (timeoutElement t) w).
  { intros w (? & ? & ?). split; [done|]. split; [|done]. left. split; [done|]. by eexists _, _. }
  apply (hoare_bind _ (fun _ => I)); [|intros ?; apply keeps_resetTimeoutTimer].
  destruct k as [k|]; (apply (hoare_bind _ (fun _ => I)); [|intros ?; by apply hoare_ret]);
    eapply hoare_conseq; try exact Hok; try (by apply hoare_InsertAfter); try (by apply hoare_PushFront); done.
Qed.

(** ** Statuses *)

(** Changing the status of an endpoint that is on neither list of its old one. *)
Lemma hoare_set_status e f :
  (∀ ep, pendingPayloads (f ep) = pendingPayloads ep) →
  ∀ s, (∀ ep, ep_status (f ep) = s) →
  hoare (fun w => I w ∧ (s = endpointStatusActive ∨ notin readyList (readyElement e) w) ∧
                  (s = endpointStatusFailed ∨ notin failedList (failedElement e) w))
    (update_endpoint e f) (fun _ w => I w ∧ st w e = Some s).
Proof.
  intros Hpend s Hst w a w' ([Γ Hi] & Hready & Hfailed) Hr.
  destruct (update_endpoint_run _ _ _ _ _ Hr) as (ep & He & ->).
  assert (Hst' : ∀ e', st (set_endpoints (<[e := f ep]> (w_endpoints w)) w) e' = if decide (e = e') then Some s else st w e').
  { intros e'. unfold st. simpl. case_decide; [subst; by rewrite lookup_insert_eq; simpl; rewrite Hst|by rewrite lookup_insert_ne]. }
  assert (Hp' : ∀ e', pend (set_endpoints (<[e := f ep]> (w_endpoints w)) w) e' = pend w e').
  { intros e'. unfold pend. simpl. destruct (decide (e = e')) as [<-|]; [|by rewrite lookup_insert_ne].
    rewrite lookup_insert_eq, He. simpl. by rewrite Hpend. }
  split; [|rewrite Hst'; by rewrite decide_True].
  pose proof Hi as [Hrep Hm Hp Hf Ho Hh Hv]. exists Γ. split; try done.
  - intros l n Hin. pose proof (Hm l n Hin) as Hok. unfold okmem, is_pending in *.
    setoid_rewrite Hst'. setoid_rewrite Hp'. simpl.
    destruct Hok as [?|[[-> (e' & -> & Hs)]|[[-> (e' & -> & Hs)]|[[-> (e' & -> & Hs)]|[?|?]]]]]; [by left| | | |by do 4 right; left|by do 5 right].
    + right; left. split; [done|]. exists e'. split; [done|]. case_decide; [|done]. subst e'.
      destruct Hready as [->|Hn]; [done|]. by apply (notin_iff _ _ _ _ _ _ _ _ Hi) in Hn.
    + right; right; left. split; [done|]. exists e'. split; [done|]. case_decide; [|done]. subst e'.
      destruct Hfailed as [->|Hn]; [done|]. by apply (notin_iff _ _ _ _ _ _ _ _ Hi) in Hn.
    + right; right; right; left. split; [done|]. exists e'. split; [done|]. by case_decide.
  - setoid_rewrite Hp'. done.
  - intros i Hi'. destruct (Hf i Hi') as (?&?&?). repeat split; try done. simpl. rewrite lookup_insert_ne; [done|naive_solver].
Qed.

(** An endpoint is not on the list of a status it does not have. *)
Lemma not_ready w e s : I w → st w e = Some s → s ≠ endpointStatusActive → notin readyList (readyElement e) w.
Proof.
  intros [Γ Hi] Hs Hne. apply (v_absent w Γ); [done|].
  unfold okmem, timeoutElement, readyElement, failedElement, orderedElement, payloadElement, resendElement. naive_solver.
Qed.

Lemma not_failed w e s : I w → st w e = Some s → s ≠ endpointStatusFailed → notin failedList (failedElement e) w.
Proof.
  intros [Γ Hi] Hs Hne. apply (v_absent w Γ); [done|].
  unfold okmem, timeoutElement, readyElement, failedElement, orderedElement, payloadElement, resendElement. naive_solver.
Qed.

Lemma st_of w e ep : w_endpoints w !! e = Some ep → st w e = Some (ep_status ep).
Proof. unfold st. by intros ->. Qed.

(** ** Allocation *)
Definition fresh (i : positive) w : Prop :=
  w_endpoints w !! i = None ∧ w_payloads w !! i = None ∧ w_timeouts w !! i = None ∧ (i < w_next w)%positive.

Lemma hoare_alloc : hoare I alloc (fun i w => I w ∧ fresh i w).
Proof.
  intros w i w' [Γ Hi]. unfold alloc. monad. intros [= <- <-]. pose proof Hi as [Hr Hm Hp Hf Ho Hh Hv].
  destruct (Hf (w_next w)) as (?&?&?); [lia|]. split; [|by repeat split; simpl; try lia].
  exists Γ. split; try done. intros j Hj. apply Hf. simpl in Hj. lia.
Qed.

Lemma okmem_timeout_neq i t y w :
  w_timeouts w !! i = None → w_timeouts w !! t = Some y → i ≠ t.
Proof. intros Hi Ht ->. congruence. Qed.

(** A timeout for a new object. *)
Lemma hoare_new_timeout i d :
  hoare (fun w => I w ∧ fresh i w) (put_timeout i (mkTimeout d None))
    (fun _ w => I w ∧ w_endpoints w !! i = None ∧ w_payloads w !! i = None ∧ (i < w_next w)%positive).
Proof.
  intros w a w' ([Γ Hi] & He & Hpl & Ht & Hlt) [= <- <-]. pose proof Hi as [Hr Hm Hp Hf Ho Hh Hv].
  split; [|done]. exists Γ. split; try done.
  - intros l n Hin. destruct (Hm l n Hin) as [[-> (t & y & -> & Hty & Hy)]|Hok]; [|by right].
    left. split; [done|]. exists t, y. split; [done|]. split; [|done]. simpl.
    rewrite lookup_insert_ne; [done|]. by eapply okmem_timeout_neq.
  - intros j Hj. destruct (Hf j Hj) as (?&?&?). repeat split; try done. simpl.
    rewrite lookup_insert_ne; [done|simpl in Hj; lia].
Qed.

(** A new endpoint: idle, with nothing pending. *)
Lemma hoare_new_endpoint e ep :
  ep_status ep = endpointStatusIdle → pendingPayloads ep = ∅ →
  hoare (fun w => I w ∧ w_endpoints w !! e = None ∧ w_payloads w !! e = None ∧ (e < w_next w)%positive)
    (put_endpoint e ep)
    (fun _ w => I w ∧ okmem x orderedList (orderedElement e) w ∧ notin orderedList (orderedElement e) w).
Proof.
  intros Hidle Hempty w a w' ([Γ Hi] & He & Hpl & Hlt) [= <- <-]. pose proof Hi as [Hr Hm Hp Hf Ho Hh Hv].
  set (w' := set_endpoints (<[e := ep]> (w_endpoints w)) w).
  assert (Hst : ∀ e', e ≠ e' → st w' e' = st w e') by (intros; unfold st; simpl; by rewrite lookup_insert_ne).
  assert (Hste : st w' e = Some endpointStatusIdle) by (unfold st; simpl; rewrite lookup_insert_eq; simpl; congruence).
  assert (Hold : st w e = None) by (by apply st_none).
  assert (Hpd : ∀ e' m k p, pend w' e' = Some m → m !! k = Some p → pend w e' = Some m).
  { intros e' m k p. unfold pend. simpl. destruct (decide (e = e')) as [<-|]; [|by rewrite lookup_insert_ne].
    rewrite lookup_insert_eq. simpl. rewrite Hempty. intros [= <-]. by rewrite lookup_empty. }
  assert (Hm' : ∀ l n, n ∈ Γ l → okmem x l n w').
  { intros l n Hin. destruct (Hm l n Hin) as [?|[[-> (e' & -> & Hs)]|[[-> (e' & -> & Hs)]|[[-> (e' & -> & Hs)]|[?|[-> (p & -> & Hpay & Hnp)]]]]]];
      [by left|right; left|right; right; left|right; right; right; left|by do 4 right; left|do 5 right];
      (split; [done|]).
    - exists e'. split; [done|]. rewrite Hst; [done|congruence].
    - exists e'. split; [done|]. rewrite Hst; [done|congruence].
    - exists e'. split; [done|]. rewrite Hst; [done|congruence].
    - exists p. split; [done|]. split; [done|]. intros Hx (e' & m & k & Hm1 & Hk). apply (Hnp Hx). exists e', m, k. eauto. }
  assert (HI : Inv x recv tl pv w' Γ).
  { split; try done.
    - intros e' m k p Hm1 Hk. destruct (Hp e' m k p) as [? Huniq]; [by eapply Hpd|done|]. split; [done|].
      intros e2 m2 k2 Hm2 Hk2. eapply Huniq; [by eapply Hpd|done].
    - intros j Hj. destruct (Hf j Hj) as (?&?&?). repeat split; try done. simpl. rewrite lookup_insert_ne; [done|simpl in Hj; lia]. }
  split; [by exists Γ|]. split.
  - do 3 right. left. split; [done|]. exists e. by rewrite Hste.
  - change (notin orderedList (orderedElement e) w). apply (v_absent w Γ); [done|].
    unfold okmem, timeoutElement, readyElement, failedElement, orderedElement, payloadElement, resendElement. naive_solver.
Qed.

Lemma keeps_resetPayloads_empty e :
  hoare (fun w => I w ∧ okmem x orderedList (orderedElement e) w ∧ notin orderedList (orderedElement e) w ∧ pend w e = Some ∅)
    (resetPayloads e)
    (fun _ w => I w ∧ okmem x orderedList (orderedElement e) w ∧ notin orderedList (orderedElement e) w).
Proof.
  intros w a w' (HI & Hok & Hn & Hpe) Hr.
  assert (Ha : agree w w').
  { revert Hr. unfold resetPayloads, Now, read_env, update_endpoint, get_endpoint, put_endpoint. monad. simpl.
    destruct (w_endpoints w !! e) as [ep|] eqn:He; [|done]. intros [= <- <-].
    unfold pend in Hpe. rewrite He in Hpe. simpl in Hpe. injection Hpe as Hpe.
    repeat split; intros e'; unfold st, pend; simpl;
      (destruct (decide (e = e')) as [<-|]; [rewrite lookup_insert_eq, He; simpl; congruence|by rewrite lookup_insert_ne]). }
  split; [by eapply agree_inv|]. split; [by eapply agree_okmem|]. unfold notin in *. by rewrite (proj1 Ha).
Qed.

Lemma get_endpoint_reads e : reads (get_endpoint e : M PW _).
Proof. intros w y w'. unfold get_endpoint. monad. destruct (w_endpoints w !! e); [|done]. by intros [= <- <-]. Qed.

Lemma sum_latency_reads es acc : reads (sum_latency es acc : M PW _).
Proof.
  revert acc. induction es as [|e es IH]; intros acc; simpl; [apply ret_reads|].
  apply bind_reads; [apply get_endpoint_reads|intros; apply IH].
Qed.

Lemma hoare_addEndpoint server pool fin :
  hoare I (addEndpoint server pool fin)
    (fun e w => I w ∧ okmem x orderedList (orderedElement e) w ∧ notin orderedList (orderedElement e) w).
Proof.
  apply (hoare_bind _ (fun _ => I)); [apply keeps_reads, lists_reads, Len_reads|intros n; cbv beta].
  apply (hoare_bind _ (fun _ => I)).
  { case_decide; [apply keeps_ret|]. apply keeps_bind; [apply keeps_reads, iterate_reads|intros es].
    apply keeps_bind; [apply keeps_reads, sum_latency_reads|intros; apply keeps_ret]. }
  intros lat; cbv beta. apply (hoare_bind _ (fun _ => I)); [apply keeps_gets|intros s; cbv beta].
  eapply hoare_bind; [apply hoare_alloc|intros e; cbv beta].
  eapply hoare_bind; [apply hoare_new_timeout|intros ?; cbv beta].
  apply (hoare_bind _ (fun _ w => I w ∧ okmem x orderedList (orderedElement e) w ∧
    notin orderedList (orderedElement e) w ∧ pend w e = Some ∅)).
  { intros w b w' HI Hr. destruct (hoare_new_endpoint e (mkEndpoint endpointStatusIdle server pool fin
      (NewTransport (Factory (sk_config s)) fin) ∅ 0 false 0 lat zeroTime zeroTime true
      (NewExpBackoff (Backoff (sk_config s)) (BackoffMax (sk_config s)))) eq_refl eq_refl w b w' HI Hr) as (Ha1 & Ha2 & Ha3).
    do 3 (split; [done|]). injection Hr as <- <-. unfold pend. simpl. by rewrite lookup_insert_eq. }
  intros ?; cbv beta.
  eapply hoare_bind; [apply keeps_resetPayloads_empty|intros ?; cbv beta].
  intros w b w' HQ. unfold set_sink_endpoints, get_sink, put_sink. monad. intros [= <- <-].
  destruct HQ as (HI & Hok & Hn). split; [|done]. eapply agree_inv; [|exact HI]. by repeat split.
Qed.

Lemma keeps_api_add server e : keeps I (api_add server e).
Proof.
  apply keeps_bind; [apply keeps_gets|intros s]. destruct (sk_api s); [|apply keeps_ret].
  apply keeps_bind; [apply keeps_lift|intros]. apply keeps_put_sink.
Qed.

Lemma keeps_api_remove server : keeps I (api_remove server).
Proof.
  apply keeps_bind; [apply keeps_gets|intros s]. destruct (sk_api s); [|apply keeps_ret].
  apply keeps_bind; [apply keeps_lift|intros]. apply keeps_put_sink.
Qed.

Lemma keeps_AddEndpoint server pool fin : keeps I (AddEndpoint server pool fin).
Proof.
  eapply hoare_bind; [apply hoare_addEndpoint|intros e; cbv beta].
  apply (hoare_bind _ (fun _ => I)); [by apply hoare_PushBack|intros ?; cbv beta].
  apply keeps_bind; [apply keeps_api_add|intros; apply keeps_ret].
Qed.

Lemma keeps_AddEndpointAfter server pool fin after : keeps I (AddEndpointAfter server pool fin after).
Proof.
  eapply hoare_bind; [apply hoare_addEndpoint|intros e; cbv beta].
  apply (hoare_bind _ (fun _ => I)).
  - destruct after as [a|].
    + eapply hoare_conseq; [by apply (keeps_MoveAfter orderedList)|by intros w (?&?&?)|done].
    + apply (hoare_bind _ (fun _ => I)); [by apply hoare_PushFront|intros ?; by apply hoare_ret].
  - intros ?; cbv beta. apply keeps_bind; [apply keeps_api_add|intros; apply keeps_ret].
Qed.

(** ** Steps on the status lists *)
Lemma hoare_leave_list e ep :
  hoare (fun w => I w ∧ w_endpoints w !! e = Some ep) (leave_list e ep)
    (fun _ w => I w ∧ notin readyList (readyElement e) w ∧ notin failedList (failedElement e) w ∧ w_endpoints w !! e = Some ep).
Proof.
  unfold leave_list, IsActive, IsFailed. intros w a w' [HI He].
  pose proof (st_of _ _ _ He) as Hst.
  assert (Hkeep : ∀ l n b w', lists (Remove l (Node n)) w = Ret (b, w') → w_endpoints w' !! e = Some ep).
  { intros l n b w2 Hr. by destruct (lists_run _ _ _ _ Hr) as (s & _ & ->). }
  destruct (bool_decide (ep_status ep = endpointStatusActive)) eqn:Ea; [apply bool_decide_eq_true_1 in Ea|].
  - intros Hr. destruct (hoare_Remove readyList (readyElement e) ltac:(done) w a w' HI Hr) as [HI' Hn].
    do 2 (split; [done|]). split; [|by eapply Hkeep]. eapply not_failed; [exact HI'|by apply st_of, (Hkeep _ _ _ _ Hr)|by rewrite Ea].
  - apply bool_decide_eq_false_1 in Ea.
    destruct (bool_decide (ep_status ep = endpointStatusFailed)) eqn:Ef; [apply bool_decide_eq_true_1 in Ef|].
    + intros Hr. destruct (hoare_Remove failedList (failedElement e) ltac:(done) w a w' HI Hr) as [HI' Hn].
      split; [done|]. split; [|split; [done|by eapply Hkeep]]. eapply not_ready; [exact HI'|by apply st_of, (Hkeep _ _ _ _ Hr)|done].
    + apply bool_decide_eq_false_1 in Ef. intros [= <- <-].
      split; [done|]. split; [by eapply not_ready|]. split; [by eapply not_failed|done].
Qed.

Lemma keeps_shutdownTransport e : keeps I (shutdownTransport e).
Proof.
  eapply hoare_bind; [apply hoare_get_endpoint|intros ep; cbv beta].
  destruct (IsClosing ep); [by apply hoare_put_endpoint|by apply hoare_ret; intros w [? _]].
Qed.

Lemma keeps_FindEndpoint server : keeps I (FindEndpoint server).
Proof. apply keeps_bind; [apply keeps_gets|intros; apply keeps_ret]. Qed.

Lemma keeps_clear_element e (y : Timeout) (m : M PW unit) :
  keeps I m →
  keeps I (match timeoutFunc y with
           | None => mret tt
           | Some _ => lists (Remove timeoutList (Node (timeoutElement e)));; m end).
Proof.
  intros Hm. destruct (timeoutFunc y); [|apply keeps_ret].
  apply keeps_bind; [by apply keeps_Remove|intros; exact Hm].
Qed.

Lemma keeps_removeEndpoint server : keeps I (removeEndpoint server).
Proof.
  apply keeps_bind; [apply keeps_FindEndpoint|intros [e|]]; [|apply keeps_ret].
  eapply hoare_bind; [apply hoare_get_endpoint|intros ep; cbv beta].
  apply (hoare_bind _ (fun _ => I)).
  { eapply hoare_conseq; [apply hoare_leave_list|done|by intros a w (? & _)]. }
  intros ?; cbv beta. apply keeps_bind; [apply keeps_get_timeout|intros y].
  apply keeps_bind; [apply keeps_clear_element, keeps_resetTimeoutTimer|intros ?].
  apply keeps_bind; [by apply keeps_Remove|intros ?].
  apply keeps_bind; [apply keeps_api_remove|intros ?].
  apply keeps_bind; [apply keeps_gets|intros s]. unfold set_sink_endpoints.
  apply keeps_bind; [apply keeps_gets|intros ?]. apply keeps_put_sink.
Qed.

Lemma keeps_ShutdownEndpoint server : keeps I (ShutdownEndpoint server).
Proof.
  apply keeps_bind; [apply keeps_FindEndpoint|intros [e|]]; [|apply keeps_ret].
  eapply hoare_bind; [apply hoare_get_endpoint|intros ep; cbv beta].
  destruct (IsClosing ep); [by apply hoare_ret; intros w [? _]|].
  eapply hoare_bind; [apply hoare_leave_list|intros ?; cbv beta].
  apply (hoare_bind _ (fun _ => I)).
  { eapply hoare_conseq; [by apply (hoare_set_status e (ep_set_status endpointStatusClosing) (fun _ => eq_refl) endpointStatusClosing)| |].
    - intros w (? & ? & ? & _). auto.
    - by intros b w [? _]. }
  intros ?; cbv beta. case_match; [apply keeps_ret|].
  apply keeps_bind; [apply keeps_get_timeout|intros y].
  apply keeps_bind.
  { destruct (timeoutFunc y); [by apply keeps_Remove|apply keeps_ret]. }
  intros ?. apply keeps_bind; [apply keeps_shutdownTransport|intros; apply keeps_ret].
Qed.

Lemma keeps_sink_Shutdown : keeps I sink_Shutdown.
Proof.
  apply keeps_bind; [apply keeps_gets|intros s]. apply keeps_bind; [apply keeps_read_env|intros servers].
  apply keeps_forM. intros server _. apply keeps_bind; [apply keeps_ShutdownEndpoint|intros; apply keeps_ret].
Qed.

(** [ClearTimeout] says nothing new about the endpoints. *)
Lemma ClearTimeout_endpoints t w a w' : ClearTimeout t w = Ret (a, w') → w_endpoints w' = w_endpoints w.
Proof.
  unfold ClearTimeout, get_timeout. monad. destruct (w_timeouts w !! t) as [y|]; [|done].
  destruct (timeoutFunc y); [|by intros [= <- <-]]. intros Hr. by destruct (lists_run _ _ _ _ Hr) as (s & _ & ->).
Qed.

(** Up to the observer's call, a failing endpoint moves to the failed list. *)
Lemma hoare_moveFailed_lists e ep :
  IsAlive ep = true →
  hoare (fun w => I w ∧ w_endpoints w !! e = Some ep)
    (ClearTimeout e;;
     when (IsActive ep) (lists (Remove readyList (Node (readyElement e))));;
     update_endpoint e (fun ep => ep_set_latency f64_zero (ep_set_status endpointStatusFailed ep));;
     lists (PushFront failedList (Node (failedElement e))))
    (fun _ => I).
Proof.
  intros Halive. assert (Hact : ep_status ep = endpointStatusActive).
  { unfold IsAlive, IsIdle in Halive. by destruct (ep_status ep). }
  apply (hoare_bind _ (fun _ w => I w ∧ w_endpoints w !! e = Some ep)).
  { intros w a w' [HI He] Hr. destruct (hoare_ClearTimeout e w a w' HI Hr) as (? & _). split; [done|].
    by rewrite (ClearTimeout_endpoints _ _ _ _ Hr). }
  intros ?; cbv beta. unfold IsActive. rewrite bool_decide_eq_true_2 by done.
  apply (hoare_bind _ (fun _ w => I w ∧ notin readyList (readyElement e) w ∧ notin failedList (failedElement e) w)).
  { intros w b w' [HI He] Hr. destruct (hoare_Remove readyList (readyElement e) ltac:(done) w b w' HI Hr) as [HI' Hn].
    do 2 (split; [done|]). eapply (not_failed w' e (ep_status ep)); [done| |by rewrite Hact].
    apply st_of. by destruct (lists_run _ _ _ _ Hr) as (s & _ & ->). }
  intros ?; cbv beta.
  apply (hoare_bind _ (fun _ w => I w ∧ okmem x failedList (failedElement e) w ∧ notin failedList (failedElement e) w)).
  { intros w b w' (HI & Hnr & Hnf) Hr.
    destruct (hoare_set_status e (fun ep => ep_set_latency f64_zero (ep_set_status endpointStatusFailed ep))
      (fun _ => eq_refl) endpointStatusFailed (fun _ => eq_refl) w b w') as [HI' Hst]; [by auto|done|].
    split; [done|]. split; [right; right; left; split; [done|by exists e]|].
    by destruct (update_endpoint_run _ _ _ _ _ Hr) as (? & _ & ->). }
  intros ?; cbv beta. eapply hoare_conseq; [by apply hoare_PushFront|done|done].
Qed.

Lemma IsAlive_not_closing (ep : Endpoint (T := T)) : IsAlive ep = true → IsClosing ep = false.
Proof. unfold IsAlive, IsIdle, IsClosing. by destruct (ep_status ep). Qed.

(** A sequence of four steps followed by the rest. *)
Lemma hoare_after4 {A B C D E} (P Q : PW → Prop) (R' : E → PW → Prop)
    (a : M PW A) (b : M PW B) (c : M PW C) (d : M PW D) (k : M PW E) :
  hoare P (a;; b;; c;; d) (fun _ => Q) → hoare Q k R' → hoare P (a;; b;; c;; d;; k) R'.
Proof.
  intros Hp Hk w y w' HP. specialize (Hp w). revert Hp. monad.
  destruct (a w) as [[? w1]| |]; [|done..]. destruct (b w1) as [[? w2]| |]; [|done..].
  destruct (c w2) as [[? w3]| |]; [|done..]. destruct (d w3) as [[z w4]| |]; [|done..].
  intros Hp Hr. eapply Hk; [|exact Hr]. by eapply Hp.
Qed.

Lemma keeps_moveFailed_None e : keeps I (moveFailed e None).
Proof.
  eapply hoare_bind; [apply hoare_get_endpoint|intros ep; cbv beta].
  destruct (IsAlive ep) eqn:Ha; simpl; [|by apply hoare_ret; intros w [? _]].
  rewrite (IsAlive_not_closing ep) by done.
  eapply hoare_after4; [by apply hoare_moveFailed_lists|].
  apply keeps_bind; intros; apply keeps_ret.
Qed.

Lemma keeps_sink_ForceFailure e : keeps I (sink_ForceFailure e).
Proof.
  apply keeps_bind; [apply keeps_get_endpoint|intros ep]. destruct (IsFailed ep); [apply keeps_ret|].
  apply keeps_bind; [apply keeps_moveFailed_None|intros; by apply keeps_update_endpoint].
Qed.

Lemma keeps_recover_delay e :
  keeps I (ep ← get_endpoint e;
           let '(delay, k) := Trigger (backoff ep) in
           put_endpoint e (ep_set_warm (warming ep) k ep);;
           RegisterTimeout e delay (CbMarkActive e)).
Proof.
  eapply hoare_bind; [apply hoare_get_endpoint|intros ep2; cbv beta].
  destruct (Trigger (backoff ep2)) as [delay k].
  apply (hoare_bind _ (fun _ => I)); [by apply hoare_put_endpoint|intros; apply keeps_RegisterTimeout].
Qed.

Lemma keeps_recoverFailed e : keeps I (recoverFailed e).
Proof.
  eapply hoare_bind; [apply hoare_get_endpoint|intros ep; cbv beta].
  destruct (IsFailed ep) eqn:Ef; simpl; [|by apply hoare_ret; intros w [? _]].
  apply bool_decide_eq_true_1 in Ef.
  (* between the change of status and the removal the element is on the failed
     list without being failed: take the two steps together *)
  apply (hoare_conseq _ (fun w => I w ∧ st w e = Some endpointStatusFailed) _ (fun _ => I));
    [|intros w [? He]; split; [done|]; by rewrite (st_of _ _ _ He), Ef|done].
  intros w b w' [HI Hst] Hr. revert Hr. monad. unfold set_status.
  destruct (update_endpoint e (ep_set_status endpointStatusIdle) w) as [[[] w1]| |] eqn:E1; [|done..].
  destruct (lists (Remove failedList (Node (failedElement e))) w1) as [[[] w2]| |] eqn:E2; [|done..].
  assert (HI2 : I w2).
  { destruct (update_endpoint_run _ _ _ _ _ E1) as (ep1 & He1 & ->).
    destruct (lists_run _ _ _ _ E2) as (s & Hs & ->). simpl in Hs.
    assert (Hr1 : lists (Remove failedList (Node (failedElement e))) w = Ret (tt, set_mem s w)).
    { unfold lists. monad. by rewrite Hs. }
    destruct (hoare_Remove failedList (failedElement e) ltac:(done) w _ _ HI Hr1) as [HI1 Hn1].
    assert (Hu : update_endpoint e (ep_set_status endpointStatusIdle) (set_mem s w) =
      Ret (tt, set_mem s (set_endpoints (<[e := ep_set_status endpointStatusIdle ep1]> (w_endpoints w)) w))).
    { unfold update_endpoint, get_endpoint, put_endpoint. monad. simpl. by rewrite He1. }
    eapply (hoare_set_status e (ep_set_status endpointStatusIdle) (fun _ => eq_refl) endpointStatusIdle (fun _ => eq_refl));
      [|exact Hu]. split; [done|]. split; [|by right]. right. by eapply not_ready. }
  intros Hr. eapply (keeps_recover_delay e); [exact HI2|exact Hr].
Qed.

(** ** Transport calls *)
Lemma keeps_SendPing e : keeps I (SendPing e).
Proof.
  eapply hoare_bind; [apply hoare_get_endpoint|intros ep; cbv beta].
  destruct (transport_Ping (transport ep)) as [err t].
  apply (hoare_bind _ (fun _ => I)); [by apply hoare_put_endpoint|intros; apply keeps_ret].
Qed.

Lemma keeps_endpoint_ReloadConfig e c b : keeps I (endpoint_ReloadConfig e c b).
Proof.
  eapply hoare_bind; [apply hoare_get_endpoint|intros ep; cbv beta].
  destruct (transport_ReloadConfig (Factory c) b (transport ep)) as [r t].
  apply (hoare_bind _ (fun _ => I)); [by apply hoare_put_endpoint|intros; apply keeps_ret].
Qed.

(** ** Payloads free to be sent *)
Definition free (p : positive) w : Prop := w_payloads w !! p ≠ None ∧ ¬ is_pending w p.

Lemma agree_free p w w' : agree w w' → free p w → free p w'.
Proof.
  intros (_ & _ & _ & Hp & Hpay & _) [H1' H2']. split; [by rewrite Hpay|].
  intros (e & m & k & Hm & Hk). apply H2'. exists e, m, k. by rewrite <-Hp.
Qed.

Lemma free_agree {A} (m : M PW A) p :
  (∀ w a w', m w = Ret (a, w') → agree w w') → hoare (fun w => I w ∧ free p w) m (fun _ w => I w ∧ free p w).
Proof.
  intros Hm w a w' [HI Hf] Hr. specialize (Hm _ _ _ Hr). split; [by eapply agree_inv|by eapply agree_free].
Qed.

(** Changing a payload without touching its events. *)
Lemma inv_put_payload w p pl pl' :
  I w → w_payloads w !! p = Some pl → payload_ok pl' → events pl' = events pl →
  I (set_payloads (<[p := pl']> (w_payloads w)) w).
Proof.
  intros [Γ [Hr Hm Hp Hf Ho (ps & pls & Hps & Hpls & Heq) Hv]] Hpl Hok Hev. exists Γ.
  assert (Hne : ∀ q, <[p := pl']> (w_payloads w) !! q ≠ None ↔ w_payloads w !! q ≠ None).
  { intros q. destruct (decide (p = q)) as [<-|]; [by rewrite lookup_insert_eq, Hpl|by rewrite lookup_insert_ne]. }
  split; try done.
  - intros l n Hin. pose proof (Hm l n Hin) as Hok'. unfold okmem, is_pending, pend, st in *. simpl.
    setoid_rewrite Hne. done.
  - intros e m k q Hm1 Hk. destruct (Hp e m k q Hm1 Hk). split; [simpl; by rewrite Hne|done].
  - intros j Hj. destruct (Hf j Hj) as (?&?&?). repeat split; try done. simpl. rewrite lookup_insert_ne; [done|]. intros ->. congruence.
  - intros q pl2. simpl. rewrite lookup_insert_Some. intros [[_ <-]|[_ ?]]; [done|eauto].
  - exists ps, ((fun q => if decide (p = q) then pl' else default pl' (w_payloads w !! q)) <$> ps).
    split; [done|]. split.
    + apply Forall2_fmap_r, Forall2_same_length_lookup_2; [done|]. intros j q q2 Hj Hj2. rewrite Hj in Hj2. injection Hj2 as <-.
      simpl. case_decide as Hd; [subst; by rewrite lookup_insert_eq|]. rewrite lookup_insert_ne by done.
      destruct (Forall2_lookup_l _ _ _ _ _ Hpls Hj) as (pl2 & _ & ->). done.
    + rewrite <-Heq. do 3 f_equal. clear Heq Hps. change (log_of (set_payloads (<[p := pl']> (w_payloads w)) w)) with (log_of w).
      induction Hpls as [|q pl2 ps pls Hq _ IH]; [done|]. csimpl. rewrite IH. f_equal.
      case_decide as Hd; [subst; congruence|]. by rewrite Hq.
Qed.

Lemma hoare_put_payload p pl pl' :
  payload_ok pl' → events pl' = events pl →
  hoare (fun w => I w ∧ w_payloads w !! p = Some pl) (put_payload p pl') (fun _ => I).
Proof. intros Hok Hev w a w' [HI Hp] [= <- <-]. by eapply inv_put_payload. Qed.

Lemma set_Nonce_ok n pl : payload_ok pl → payload_ok (set_Nonce n pl).
Proof. by intros [? ? ? ?]. Qed.

Lemma set_Resending_ok b pl : payload_ok pl → payload_ok (set_Resending b pl).
Proof. by intros [? ? ? ?]. Qed.

Lemma payload_ok_of w p pl : I w → w_payloads w !! p = Some pl → payload_ok pl.
Proof. intros [Γ Hi]. apply (v_ok _ _ _ _ _ _ Hi). Qed.
End Triples.

(** ** Sending a payload *)
Section Sending.
Context (recv : list EventDescriptor) (pv : bool * bool * option (list EventDescriptor)).
Context (Write_ok : ∀ nonce evs t, fst (transport_Write (T := T) (F := F) nonce evs t) = None).

(** The payload will be in transit, or is not waiting to be resent. *)
Definition settles (y : option positive) (p : positive) w : Prop :=
  y = Some p ∨ notin resendList (resendElement p) w.

(** Registering a free payload with an endpoint puts it in transit. *)
Lemma inv_add_pending y tl w e ep p nonce n :
  inv None recv tl pv w → free p w → settles y p w → w_endpoints w !! e = Some ep →
  inv y recv tl pv
    (set_endpoints (<[e := ep_set_pending (<[nonce := p]> (pendingPayloads ep)) n ep]> (w_endpoints w)) w).
Proof.
  intros [Γ Hi] [Hpay Hnp] Hy He. pose proof Hi as [Hr Hm Hp Hf Ho Hh Hv].
  set (w' := set_endpoints _ w). exists Γ.
  assert (Hst : ∀ e', st w' e' = st w e').
  { intros e'. unfold st. simpl. destruct (decide (e = e')) as [<-|]; [by rewrite lookup_insert_eq, He|by rewrite lookup_insert_ne]. }
  assert (Hpd : ∀ e' m k q, pend w' e' = Some m → m !! k = Some q →
    (q = p ∧ e' = e ∧ k = nonce) ∨ (q ≠ p ∧ ∃ m0, pend w e' = Some m0 ∧ m0 !! k = Some q)).
  { intros e' m k q. unfold pend at 1. simpl. destruct (decide (e = e')) as [<-|Hne].
    - rewrite lookup_insert_eq. simpl. intros [= <-]. rewrite lookup_insert_Some. intros [[<- <-]|[Hk Hq]]; [by left|].
      right. assert (Hpe : pend w e = Some (pendingPayloads ep)) by (unfold pend; by rewrite He).
      split; [|by eexists]. intros ->. apply Hnp. by exists e, (pendingPayloads ep), k.
    - rewrite lookup_insert_ne by done. intros Hm1 Hk. right. split; [|by exists m].
      intros ->. apply Hnp. by exists e', m, k. }
  split; try done.
  - intros l n' Hin. pose proof (Hm l n' Hin) as Hok. unfold okmem in *. setoid_rewrite Hst.
    destruct Hok as [?|[?|[?|[?|[?|[-> (q & -> & Hq & Hnq)]]]]]]; [by left|by right; left|by do 2 right; left|by do 3 right; left|by do 4 right; left|].
    do 5 right. split; [done|]. exists q. split; [done|]. split; [done|]. intros Hx (e' & m & k & Hm1 & Hk).
    destruct (Hpd _ _ _ _ Hm1 Hk) as [(-> & _)|(_ & m0 & Hm0 & Hk0)].
    { destruct Hy as [->|Hn]; [done|]. by apply (notin_iff _ _ _ _ _ _ _ _ Hi) in Hn. }
    apply (Hnq ltac:(done)). by exists e', m0, k.
  - intros e' m k q Hm1 Hk. destruct (Hpd _ _ _ _ Hm1 Hk) as [(-> & -> & ->)|(Hne & m0 & Hm0 & Hk0)].
    + split; [done|]. intros e2 m2 k2 Hm2 Hk2. destruct (Hpd _ _ _ _ Hm2 Hk2) as [(_ & ? & ?)|(? & _)]; done.
    + destruct (Hp _ _ _ _ Hm0 Hk0) as [Hq Huniq]. split; [done|]. intros e2 m2 k2 Hm2 Hk2.
      destruct (Hpd _ _ _ _ Hm2 Hk2) as [(? & _)|(_ & m3 & Hm3 & Hk3)]; [done|]. by eapply Huniq.
  - intros j Hj. destruct (Hf j Hj) as (?&?&?). repeat split; try done. simpl. rewrite lookup_insert_ne; [done|]. intros ->. congruence.
Qed.

(** Once off the resend list the payload is no longer in transit. *)
Lemma inv_settled tl w p : inv (Some p) recv tl pv w → notin resendList (resendElement p) w → inv None recv tl pv w.
Proof.
  intros [Γ Hi] Hn. pose proof (proj1 (notin_iff _ _ _ _ _ _ _ _ Hi) Hn) as Hin. destruct Hi as [Hr Hm Hp Hf Ho Hh Hv].
  exists Γ. split; try done. intros l n Hl. pose proof (Hm l n Hl) as Hok. unfold okmem in *.
  destruct Hok as [?|[?|[?|[?|[?|[-> (q & -> & Hq & Hnq)]]]]]]; [by left|by right; left|by do 2 right; left|by do 3 right; left|by do 4 right; left|].
  do 5 right. split; [done|]. exists q. split; [done|]. split; [done|]. intros _. apply Hnq. intros [= ->]. done.
Qed.

Lemma random_bytes_agree n w a w' : random_bytes n w = Ret (a, w') → agree w w'.
Proof.
  revert w a. induction n as [|n IH]; intros w a; simpl; [intros [= <- <-]; by repeat split|].
  unfold read_env. monad. destruct (random_bytes n (set_tick (S (w_tick w)) w)) as [[t w1]| |] eqn:E; [|done..].
  intros [= <- <-]. eapply agree_trans; [|by eapply IH]. by repeat split.
Qed.

Lemma fresh_nonce_agree fuel m w a w' : fresh_nonce fuel m w = Ret (a, w') → agree w w'.
Proof.
  revert w. induction fuel as [|fuel IH]; intros w; simpl; unfold generateNonce; monad;
    (destruct (random_bytes 16 w) as [[t w1]| |] eqn:E; [|done..]); apply random_bytes_agree in E;
    (destruct (m !! t); [|by intros [= <- <-]]); [done|]. intros Hr. eapply agree_trans; [exact E|by eapply IH].
Qed.

Definition ready_to_send y tl p w : Prop := inv None recv tl pv w ∧ free p w ∧ settles y p w.

Lemma agree_settles y p w w' : agree w w' → settles y p w → settles y p w'.
Proof. intros [Hm _] [?|Hn]; [by left|right]. unfold notin in *. by rewrite Hm. Qed.

Lemma ready_agree {A} (m : M PW A) y tl p :
  (∀ w a w', m w = Ret (a, w') → agree w w') → hoare (ready_to_send y tl p) m (fun _ => ready_to_send y tl p).
Proof.
  intros Hm w a w' (HI & Hf & Hs) Hr. specialize (Hm _ _ _ Hr).
  split; [by eapply agree_inv|]. split; [by eapply agree_free|by eapply agree_settles].
Qed.


Lemma hoare_nonce (y : option positive) (tl : list EventDescriptor) (p : positive) (pl : Payload) (m : gmap text positive) :
  hoare (fun w => ready_to_send y tl p w ∧ w_payloads w !! p = Some pl)
    (when (bool_decide (Nonce pl = []))
      (nonce ← fresh_nonce nonce_fuel m; put_payload p (set_Nonce nonce pl)))
    (fun _ => ready_to_send y tl p).
Proof.
  unfold when. case_bool_decide; [|by apply hoare_ret; intros w [? _]].
  intros w a w' [(HI & Hf & Hs) Hpl]. monad.
  destruct (fresh_nonce nonce_fuel m w) as [[t w1]| |] eqn:E; [|done..].
  apply fresh_nonce_agree in E. intros [= <- <-].
  assert (HI1 : inv None recv tl pv w1) by (by eapply agree_inv). assert (Hf1 : free p w1) by (by eapply agree_free).
  assert (Hs1 : settles y p w1) by (by eapply agree_settles).
  assert (Hpl1 : w_payloads w1 !! p = Some pl) by (by destruct E as (_ & _ & _ & _ & -> & _)).
  split.
  - eapply inv_put_payload; [done|done|eapply set_Nonce_ok, payload_ok_of; done|done].
  - destruct Hf1 as [_ Hnp]. split; [|exact Hs1]. split; [simpl; by rewrite lookup_insert_eq|exact Hnp].
Qed.

Lemma keeps_updateEstDelTime x tl e : keeps (inv x recv tl pv) (updateEstDelTime e).
Proof. apply keeps_bind; [apply keeps_read_env|intros now]. by apply keeps_update_endpoint. Qed.

Lemma hoare_queuePayload y tl e p :
  hoare (ready_to_send y tl p) (queuePayload e p) (fun err w => err = None ∧ inv y recv tl pv w).
Proof.
  eapply hoare_bind; [apply hoare_get_endpoint|intros ep; cbv beta].
  destruct (negb (IsActive ep)); [apply hoare_panic|].
  apply (hoare_bind _ (fun pl w => ready_to_send y tl p w ∧ w_payloads w !! p = Some pl)).
  { eapply hoare_conseq; [apply (hoare_get_payload (ready_to_send y tl p))|by intros w [? _]|done]. }
  intros pl; cbv beta. eapply hoare_bind; [apply hoare_nonce|intros ?; cbv beta].
  eapply hoare_bind; [apply hoare_get_payload|intros pl2; cbv beta].
  apply (hoare_bind _ (fun _ => inv y recv tl pv)).
  { intros w b w' [(HI & Hf & Hs) Hpl2] Hr. destruct (update_endpoint_run _ _ _ _ _ Hr) as (ep2 & He2 & ->).
    by apply inv_add_pending. }
  intros ?; cbv beta. apply (hoare_bind _ (fun _ => inv y recv tl pv)); [apply keeps_updateEstDelTime|intros ?; cbv beta].
  apply (hoare_bind _ (fun _ => inv y recv tl pv)); [apply keeps_get_endpoint|intros ep3; cbv beta].
  apply (hoare_bind _ (fun _ => inv y recv tl pv)).
  { apply keeps_when, keeps_bind; [apply keeps_read_env|intros; by apply keeps_update_endpoint]. }
  intros ?; cbv beta. apply (hoare_bind _ (fun _ => inv y recv tl pv)); [apply keeps_get_endpoint|intros ep4; cbv beta].
  apply (hoare_bind _ (fun _ => inv y recv tl pv)); [apply keeps_lift|intros evs; cbv beta].
  pose proof (Write_ok (Nonce pl2) evs (transport ep4)) as Herr.
  destruct (transport_Write (Nonce pl2) evs (transport ep4)) as [err t]. simpl in Herr. subst err.
  apply (hoare_bind _ (fun _ => inv y recv tl pv)); [by apply keeps_update_endpoint|intros ?; cbv beta].
  by apply hoare_ret.
Qed.

(** Choosing the endpoint only touches latencies. *)
Lemma ReduceLatency_agree e w a w' : ReduceLatency e w = Ret (a, w') → agree w w'.
Proof.
  intros Hr. destruct (update_endpoint_run _ _ _ _ _ Hr) as (ep & He & ->). by eapply agree_set_endpoint.
Qed.

Lemma best_loop_agree evs es best edt w a w' : best_loop evs es best edt w = Ret (a, w') → agree w w'.
Proof.
  revert best edt w. induction es as [|e es IH]; intros best edt w; simpl; [intros [= <- <-]; by repeat split|].
  monad. destruct (get_endpoint e w) as [[ep w1]| |] eqn:E; [|done..].
  apply get_endpoint_reads in E. subst w1. destruct (IsWarming ep); [apply IH|].
  case_decide; monad; (destruct (ReduceLatency _ w) as [[? w1]| |] eqn:E; [|done..]); apply ReduceLatency_agree in E;
    intros Hr; (eapply agree_trans; [exact E|by eapply IH]).
Qed.

Lemma hoare_QueuePayload y tl p :
  hoare (ready_to_send y tl p) (QueuePayload p)
    (fun r w => snd r = None ∧ (fst r ≠ None → inv y recv tl pv w)).
Proof.
  apply (hoare_bind _ (fun _ => ready_to_send y tl p)); [apply reads_stable, lists_reads, Len_reads|intros n; cbv beta].
  apply (hoare_bind _ (fun _ => ready_to_send y tl p)); [apply reads_stable, list_Front_reads|intros front; cbv beta].
  case_decide.
  - apply (hoare_bind _ (fun _ => ready_to_send y tl p)); [by apply hoare_deref|intros e; cbv beta].
    eapply hoare_bind; [apply hoare_queuePayload|intros err; cbv beta]. by apply hoare_ret; intros w [-> ?].
  - destruct front as [e0|]; [|by apply hoare_ret].
    apply (hoare_bind _ (fun _ => ready_to_send y tl p)).
    { eapply hoare_conseq; [apply (hoare_get_payload (ready_to_send y tl p))|done|by intros a w [? _]]. }
    intros pl; cbv beta. apply (hoare_bind _ (fun _ => ready_to_send y tl p)); [apply reads_stable, get_endpoint_reads|intros ep0; cbv beta].
    apply (hoare_bind _ (fun _ => ready_to_send y tl p)); [apply reads_stable, iterate_reads|intros es; cbv beta].
    apply (hoare_bind _ (fun _ => ready_to_send y tl p)).
    { apply ready_agree. intros w a w'. apply best_loop_agree. }
    intros best; cbv beta. eapply hoare_bind; [apply hoare_queuePayload|intros err; cbv beta].
    by apply hoare_ret; intros w [-> ?].
Qed.

(** A free payload is sent: it is in transit, or settled. *)
Lemma hoare_sendPayload y tl p :
  hoare (ready_to_send y tl p) (sendPayload p) (fun ok w => ok = true ∧ inv y recv tl pv w).
Proof.
  eapply hoare_bind; [apply hoare_QueuePayload|intros [r err]; cbv beta]. simpl.
  destruct err as [err|]; [by intros w a w' [? _]|]. destruct r as [e|]; [|apply hoare_panic].
  apply (hoare_bind _ (fun _ => inv y recv tl pv)); [by apply hoare_ret; intros w [_ ?]; auto|intros e'; cbv beta].
  apply (hoare_bind _ (fun _ => inv y recv tl pv)); [apply keeps_get_endpoint|intros ep; cbv beta].
  apply (hoare_bind _ (fun _ => inv y recv tl pv)).
  { apply keeps_when, keeps_bind; [apply keeps_gets|intros; apply keeps_RegisterTimeout]. }
  intros ?; cbv beta. by apply hoare_ret.
Qed.

(** ** New payloads *)
Lemma inv_new_payload tl w p evs :
  inv None recv tl pv w → fresh p w →
  let w' := set_payloads (<[p := NewPayload evs]> (w_payloads w)) w in
  inv None recv tl pv w' ∧ ¬ is_pending w' p ∧ notin payloadList (payloadElement p) w' ∧ notin resendList (resendElement p) w'.
Proof.
  intros [Γ Hi] (He & Hpay & Ht & Hlt) w'. pose proof Hi as [Hr Hm Hp Hf Ho Hh Hv].
  assert (Hmono : ∀ q, w_payloads w !! q ≠ None → w_payloads w' !! q ≠ None).
  { intros q Hq. simpl. destruct (decide (p = q)) as [<-|]; [done|by rewrite lookup_insert_ne]. }
  assert (Hno : ∀ l n q, n ∈ Γ l → n = payloadElement q ∨ n = resendElement q → q ≠ p).
  { intros l n q Hin Hn ->. pose proof (Hm l n Hin) as Hok. revert Hok.
    unfold okmem, timeoutElement, readyElement, failedElement, orderedElement, payloadElement, resendElement in *. naive_solver. }
  split; [exists Γ; split; try done|split; [|split]].
  - intros l n Hin. destruct (Hm l n Hin) as [?|[?|[?|[?|[[-> (q & -> & Hq)]|[-> (q & -> & Hq & Hnq)]]]]]];
      [by left|by right; left|by do 2 right; left|by do 3 right; left|do 4 right; left|do 5 right]; (split; [done|]);
      exists q; eauto.
  - intros e m k q Hm1 Hk. destruct (Hp e m k q Hm1 Hk). eauto.
  - intros j Hj. destruct (Hf j Hj) as (?&?&?). repeat split; try done. simpl. rewrite lookup_insert_ne; [done|simpl in Hj; lia].
  - intros q pl. simpl. rewrite lookup_insert_Some. intros [[_ <-]|[_ ?]]; [apply NewPayload_ok|eauto].
  - destruct Hh as (ps & pls & Hps & Hpls & Heq). exists ps, pls. split; [done|]. split; [|done].
    eapply Forall2_impl; [exact Hpls|]. simpl. intros q pl Hq. rewrite lookup_insert_ne; [done|]. intros ->. congruence.
  - intros (e & m & k & Hm1 & Hk). destruct (Hp e m k p Hm1 Hk) as [? _]. done.
  - change (notin payloadList (payloadElement p) w). rewrite (notin_iff _ _ _ _ _ _ _ _ Hi). intros Hin. by eapply Hno; eauto.
  - change (notin resendList (resendElement p) w). rewrite (notin_iff _ _ _ _ _ _ _ _ Hi). intros Hin. by eapply Hno; eauto.
Qed.

(** Appending the new payload accounts for its events. *)
Lemma hoare_push_payload tl p evs :
  hoare (fun w => inv None recv (evs ++ tl) pv w ∧ w_payloads w !! p = Some (NewPayload evs) ∧ ¬ is_pending w p ∧
                  notin payloadList (payloadElement p) w ∧ notin resendList (resendElement p) w)
    (lists (PushBack payloadList (Node (payloadElement p))))
    (fun _ => ready_to_send None tl p).
Proof.
  intros w a w' ([Γ Hi] & Hp & Hnp & Hn & Hnr) Hr. destruct (lists_run _ _ _ _ Hr) as (s & Hs & ->).
  assert (Hok : okmem None payloadList (payloadElement p) w).
  { do 4 right. left. split; [done|]. exists p. by rewrite Hp. }
  pose proof (detached_of _ _ _ _ _ _ _ _ _ Hi Hok Hn) as Hd.
  destruct (PushBack_refines (w_mem w) Γ payloadList (payloadElement p) (v_rep _ _ _ _ _ _ Hi) Hd) as (s' & Hs' & Hrep).
  rewrite Hs in Hs'. injection Hs' as -> ->.
  pose proof (proj1 (notin_iff _ _ _ _ _ _ _ _ Hi) Hnr) as Hnr'.
  destruct Hi as [Hrp Hm Hpd Hf Ho (ps & pls & Hps & Hpls & Heq) Hv].
  split; [|split; [split; [simpl; by rewrite Hp|done]|right]].
  - exists (<[payloadList := Γ payloadList ++ [payloadElement p]]> Γ). split; try done.
    + intros l n. destruct (decide (payloadList = l)) as [<-|Hne].
      * rewrite fn_lookup_insert, elem_of_app, list_elem_of_singleton. intros [Hin| ->]; [by apply Hm|done].
      * rewrite fn_lookup_insert_ne by done. apply Hm.
    + exists (ps ++ [p]), (pls ++ [NewPayload evs]). rewrite fn_lookup_insert, Hps, fmap_app. split; [done|].
      split; [apply Forall2_app; [done|by constructor]|].
      rewrite fmap_app, concat_app. simpl. rewrite app_nil_r, <-app_assoc. exact Heq.
  - unfold notin. simpl. rewrite (rep_member _ _ Hrep). by rewrite fn_lookup_insert_ne.
Qed.

Lemma ready_update_pub y tl p f :
  (∀ z, shuttingDown (f z) = shuttingDown z ∧ ifSpoolChan (f z) = ifSpoolChan z ∧ nextSpool (f z) = nextSpool z ∧
        spool_log (registrarSpool (f z)) = spool_log (registrarSpool z)) →
  hoare (ready_to_send y tl p) (update_pub f) (fun _ => ready_to_send y tl p).
Proof.
  intros Hf. apply ready_agree. intros w a w'. unfold update_pub, get_pub, put_pub. monad. intros [= <- <-].
  destruct (Hf (w_ext w)) as (H1' & H2' & H3' & H4'). repeat split; unfold pubview, log_of; simpl; congruence.
Qed.

Lemma hoare_sendEvents tl evs :
  hoare (inv None recv (evs ++ tl) pv) (sendEvents evs) (fun ok w => ok = true ∧ inv None recv tl pv w).
Proof.
  eapply hoare_bind; [apply hoare_alloc|intros p; cbv beta].
  eapply (hoare_bind _ (fun _ w => inv None recv (evs ++ tl) pv w ∧ w_payloads w !! p = Some (NewPayload evs) ∧ ¬ is_pending w p ∧
                  notin payloadList (payloadElement p) w ∧ notin resendList (resendElement p) w)).
  { intros w a w' [HI Hf] [= <- <-]. destruct (inv_new_payload _ w p evs HI Hf) as (? & ? & ? & ?).
    split; [done|]. split; [simpl; by rewrite lookup_insert_eq|done]. }
  intros ?; cbv beta. eapply hoare_bind; [apply hoare_push_payload|intros ?; cbv beta].
  eapply hoare_bind; [by apply ready_update_pub|intros ?; cbv beta]. apply hoare_sendPayload.
Qed.

(** ** Resending *)
Lemma list_Front_member x tl l :
  hoare (inv x recv tl pv) (list_Front l)
    (fun r w => inv x recv tl pv w ∧ ∀ p, r = Some p → ∃ n, okmem x l n w ∧ owner n = p).
Proof.
  intros w r w' [Γ Hi] Hr. pose proof (list_Front_reads _ _ _ _ Hr) as ->. split; [by exists Γ|].
  revert Hr. unfold list_Front, lists. monad. rewrite (Front_run _ Γ l (v_rep _ _ _ _ _ _ Hi)).
  pose proof (v_mem _ _ _ _ _ _ Hi l) as Hm. destruct (Γ l) as [|n ns]; intros [= <-]; [done|].
  intros p [= <-]. exists n. split; [apply Hm, list_elem_of_here|done].
Qed.

Lemma resend_member n p w : okmem None resendList n w → owner n = p → n = resendElement p ∧ free p w.
Proof.
  intros Hok Hp. destruct Hok as [[? _]|[[? _]|[[? _]|[[? _]|[[? _]|[_ (q & -> & Hq & Hnq)]]]]]]; try done.
  change (q = p) in Hp. subst p. split; [done|]. split; [done|by apply Hnq].
Qed.

Lemma keeps_resend_loop tl fuel did : keeps (inv None recv tl pv) (resend_loop fuel did).
Proof.
  revert did. induction fuel as [|fuel IH]; intros did; simpl;
    (apply keeps_bind; [apply keeps_reads, lists_reads, Len_reads|intros n]); (case_decide; [apply keeps_ret|]); [apply hoare_fuel|].
  eapply hoare_bind; [apply list_Front_member|intros front; cbv beta].
  destruct front as [p|]; [|apply (hoare_bind _ (fun _ _ => False)); [apply hoare_panic|by intros ? ? ? ? []]].
  apply (hoare_bind _ (fun p' w => p' = p ∧ ready_to_send (Some p) tl p w)).
  { apply hoare_ret. intros w [HI Hm]. split; [done|]. destruct (Hm p eq_refl) as (n' & Hok & Ho).
    destruct (resend_member _ _ _ Hok Ho) as [_ Hf]. split; [done|]. split; [done|by left]. }
  intros p'; cbv beta. intros w a w' [-> HI]. revert w a w' HI.
  apply (hoare_bind (ready_to_send (Some p) tl p) (fun ok w => ok = true ∧ inv (Some p) recv tl pv w)); [apply hoare_sendPayload|].
  intros ok; cbv beta. intros w a w' [-> HI]. revert w a w' HI.
  apply (hoare_bind (inv (Some p) recv tl pv) (fun pl w => inv (Some p) recv tl pv w ∧ w_payloads w !! p = Some pl)); [apply hoare_get_payload|].
  intros pl; cbv beta. apply (hoare_bind _ (fun _ => inv (Some p) recv tl pv)).
  { intros w a w' [HI Hp] Hr. eapply hoare_put_payload; [| |exact (conj HI Hp)|exact Hr]; [|done].
    apply ResetSequence_ok, set_Resending_ok. by eapply payload_ok_of. }
  intros ?; cbv beta. apply (hoare_bind _ (fun _ => inv None recv tl pv)); [|intros; apply IH].
  eapply hoare_conseq; [by apply (hoare_Remove (Some p) recv tl pv resendList)|done|].
  intros ? w [HI Hn]. by eapply inv_settled.
Qed.

(** ** Pulling payloads back from an endpoint *)

(** Payloads that are pending nowhere and not waiting to be resent. *)
Definition idle_payloads (ps : list positive) w : Prop :=
  NoDup ps ∧ ∀ p, p ∈ ps → free p w ∧ notin resendList (resendElement p) w.

Lemma NoDup_omap_inj (m : gmap text positive) ks :
  NoDup ks → (∀ k k' p, m !! k = Some p → m !! k' = Some p → k = k') → NoDup (omap (fun k => m !! k) ks).
Proof.
  intros Hnd Hinj. induction Hnd as [|k ks Hk _ IH]; simpl; [constructor|].
  destruct (m !! k) as [p|] eqn:E; [|done]. constructor; [|done].
  rewrite list_elem_of_omap. intros (k' & Hk' & E'). by rewrite (Hinj k k' p) in Hk.
Qed.

Lemma inv_reset tl w e ep now :
  inv None recv tl pv w → w_endpoints w !! e = Some ep →
  let w' := set_endpoints (<[e := ep_set_estDelTime now (ep_set_pending ∅ 0 ep)]> (w_endpoints w)) w in
  inv None recv tl pv w' ∧
  ∀ k p, pendingPayloads ep !! k = Some p → free p w' ∧ notin resendList (resendElement p) w'.
Proof.
  intros [Γ Hi] He w'. pose proof Hi as [Hr Hm Hp Hf Ho Hh Hv].
  assert (Hpe : pend w e = Some (pendingPayloads ep)) by (unfold pend; by rewrite He).
  assert (Hst : ∀ e', st w' e' = st w e').
  { intros e'. unfold st. simpl. destruct (decide (e = e')) as [<-|]; [by rewrite lookup_insert_eq, He|by rewrite lookup_insert_ne]. }
  assert (Hpd : ∀ e' m k q, pend w' e' = Some m → m !! k = Some q → e' ≠ e ∧ pend w e' = Some m).
  { intros e' m k q. unfold pend. simpl. destruct (decide (e = e')) as [<-|Hne].
    - rewrite lookup_insert_eq. simpl. intros [= <-]. by rewrite lookup_empty.
    - rewrite lookup_insert_ne by done. by intros. }
  split.
  - exists Γ. split; try done.
    + intros l n Hin. pose proof (Hm l n Hin) as Hok. unfold okmem in *. setoid_rewrite Hst.
      destruct Hok as [?|[?|[?|[?|[?|[-> (q & -> & Hq & Hnq)]]]]]]; [by left|by right; left|by do 2 right; left|by do 3 right; left|by do 4 right; left|].
      do 5 right. split; [done|]. exists q. split; [done|]. split; [done|]. intros Hx (e' & m & k & Hm1 & Hk).
      apply (Hnq Hx). exists e', m, k. split; [|done]. by eapply Hpd.
    + intros e' m k q Hm1 Hk. destruct (Hpd _ _ _ _ Hm1 Hk) as [_ Hm0]. destruct (Hp _ _ _ _ Hm0 Hk) as [? Huniq].
      split; [done|]. intros e2 m2 k2 Hm2 Hk2. eapply Huniq; [by eapply Hpd|done].
    + intros j Hj. destruct (Hf j Hj) as (?&?&?). repeat split; try done. simpl. rewrite lookup_insert_ne; [done|]. intros ->. congruence.
  - intros k p Hk. destruct (Hp e _ k p Hpe Hk) as [Hpay Huniq]. split; [split; [done|]|].
    + intros (e2 & m2 & k2 & Hm2 & Hk2). destruct (Hpd _ _ _ _ Hm2 Hk2) as [Hne Hm3]. by destruct (Huniq _ _ _ Hm3 Hk2).
    + change (notin resendList (resendElement p) w). rewrite (notin_iff _ _ _ _ _ _ _ _ Hi). intros Hin.
      pose proof (Hm _ _ Hin) as Hok.
      destruct Hok as [[? _]|[[? _]|[[? _]|[[? _]|[[? _]|[_ (q & Hq & _ & Hnq)]]]]]]; try done.
      injection Hq as <-. apply Hnq; [done|]. by exists e, (pendingPayloads ep), k.
Qed.

Lemma hoare_PullBackPending tl e :
  hoare (inv None recv tl pv) (PullBackPending e) (fun ps w => inv None recv tl pv w ∧ idle_payloads ps w).
Proof.
  intros w ps w' HI. unfold PullBackPending, resetPayloads, Now, read_env, update_endpoint, get_endpoint, put_endpoint. monad. simpl.
  destruct (w_endpoints w !! e) as [ep|] eqn:He; [|done]. simpl. rewrite He. intros [= <- <-].
  set (ks := map_order (w_tick w) (map_to_list (pendingPayloads ep)).*1).
  set (w1 := set_tick _ (set_tick _ w)).
  assert (HI1 : inv None recv tl pv w1) by (eapply agree_inv; [|exact HI]; by repeat split).
  destruct (inv_reset tl w1 e ep (clock (S (w_tick w))) HI1 He) as [HI2 Hidle].
  split; [exact HI2|]. split.
  - apply NoDup_omap_inj.
    + unfold ks. rewrite map_order_perm. apply NoDup_fst_map_to_list.
    + intros k k' p Hk Hk'. destruct HI as [Γ Hi].
      assert (Hpe : pend w e = Some (pendingPayloads ep)) by (unfold pend; by rewrite He).
      destruct (v_pend _ _ _ _ _ _ Hi e _ k' p Hpe Hk') as [_ Huniq]. by destruct (Huniq e _ k Hpe Hk).
  - intros p. rewrite list_elem_of_omap. intros (k & _ & Hk). by eapply Hidle.
Qed.

Lemma hoare_push_resend tl p ps :
  hoare (fun w => inv None recv tl pv w ∧ idle_payloads (p :: ps) w) (lists (PushBack resendList (Node (resendElement p))))
    (fun _ w => inv None recv tl pv w ∧ idle_payloads ps w).
Proof.
  intros w a w' [HI [Hnd Hidle]] Hr. apply NoDup_cons in Hnd as [Hp Hnd].
  destruct (Hidle p ltac:(set_solver)) as [Hf Hn].
  assert (Hok : okmem None resendList (resendElement p) w).
  { do 5 right. split; [done|]. exists p. split; [done|]. split; [apply Hf|intros _; apply Hf]. }
  split; [by eapply (hoare_PushBack None recv tl pv resendList); [| |exact Hr]|].
  split; [done|]. intros q Hq. destruct (Hidle q ltac:(set_solver)) as [Hfq Hnq].
  destruct HI as [Γ Hi]. pose proof (detached_of _ _ _ _ _ _ _ _ _ Hi Hok Hn) as Hd.
  destruct (lists_run _ _ _ _ Hr) as (s & Hs & ->).
  destruct (PushBack_refines (w_mem w) Γ resendList (resendElement p) (v_rep _ _ _ _ _ _ Hi) Hd) as (s' & Hs' & Hrep).
  rewrite Hs in Hs'. injection Hs' as _ ->. split; [exact Hfq|].
  unfold notin. simpl. rewrite (rep_member _ _ Hrep), fn_lookup_insert, elem_of_app, list_elem_of_singleton.
  apply (notin_iff _ _ _ _ _ _ _ _ Hi) in Hnq. intros [?|Heq]; [done|]. injection Heq as ->. done.
Qed.

Lemma hoare_hold_all tl ps :
  hoare (fun w => inv None recv tl pv w ∧ idle_payloads ps w) (hold_all ps) (fun _ => inv None recv tl pv).
Proof.
  induction ps as [|p ps IH]; simpl; [by apply hoare_ret; intros w [? _]|].
  eapply hoare_bind; [apply hoare_get_payload|intros pl; cbv beta].
  apply (hoare_bind _ (fun _ w => inv None recv tl pv w ∧ idle_payloads (p :: ps) w)).
  { intros w a w' [[HI [Hnd Hidle]] Hp] Hr. split.
    - eapply hoare_put_payload; [| |exact (conj HI Hp)|exact Hr]; [|done].
      apply ResetSequence_ok, set_Resending_ok. by eapply payload_ok_of.
    - injection Hr as <- <-. split; [done|]. intros q Hq. destruct (Hidle q Hq) as [[Hq1 Hq2] Hn]. split; [|exact Hn].
      split; [|exact Hq2]. simpl. destruct (decide (p = q)) as [<-|]; [by rewrite lookup_insert_eq|by rewrite lookup_insert_ne]. }
  intros ?; cbv beta. eapply hoare_bind; [apply hoare_push_resend|intros ?; cbv beta]. apply IH.
Qed.

(** ** Passing acknowledgements on *)
Definition isfront (p : positive) w : Prop := list_Front payloadList w = Ret (Some p, w).

Lemma isfront_inv x tl w Γ p :
  Inv x recv tl pv w Γ → isfront p w → ∃ ps, Γ payloadList = payloadElement <$> (p :: ps).
Proof.
  intros Hi. unfold isfront, list_Front, lists. monad. rewrite (Front_run _ Γ payloadList (v_rep _ _ _ _ _ _ Hi)).
  destruct (v_held _ _ _ _ _ _ Hi) as (ps & _ & Hps & _). rewrite Hps.
  destruct ps as [|q ps]; [done|]. csimpl. intros [= Hq _]. exists ps. by rewrite <-Hq.
Qed.

Lemma Forall2_payload_insert (m : gmap positive Payload) p pl ps pls :
  p ∉ ps → Forall2 (fun q plq => m !! q = Some plq) ps pls →
  Forall2 (fun q plq => <[p := pl]> m !! q = Some plq) ps pls.
Proof.
  intros Hp. induction 1 as [|q plq ps pls Hq _ IH]; constructor.
  - rewrite lookup_insert_ne by set_solver. done.
  - apply IH. set_solver.
Qed.

(** The roll-up of the first payload moves its events into the log. *)
Lemma hoare_rollup tl p pl rolled pl' :
  Rollup pl = Ret (rolled, pl') →
  hoare (fun w => inv None recv tl pv w ∧ isfront p w ∧ w_payloads w !! p = Some pl)
    (put_payload p pl';; update_pub (fun z => p_set_spool (spool_Add rolled (registrarSpool z)) z))
    (fun _ w => inv None recv tl pv w ∧ isfront p w ∧ w_payloads w !! p = Some pl').
Proof.
  intros Hroll w a w' (HI & Hfront & Hp). unfold put_payload, update_pub, get_pub, put_pub. monad. intros [= <- <-].
  pose proof (payload_ok_of _ _ _ _ _ _ _ HI Hp) as Hok.
  destruct (Rollup_run pl Hok) as (pl2 & Hroll2 & Hok2 & Hev & _). rewrite Hroll in Hroll2. injection Hroll2 as -> ->.
  split; [|split; [|by simpl; rewrite lookup_insert_eq]].
  - destruct HI as [Γ Hi]. destruct (isfront_inv _ _ _ _ _ Hi Hfront) as [ps' Hps'].
    pose proof (rep_nodup _ _ (v_rep _ _ _ _ _ _ Hi) payloadList) as Hnd.
    destruct Hi as [Hr Hm Hpd Hf Ho (ps & pls & Hps & Hpls & Heq) Hv]. exists Γ.
    assert (Hne : ∀ q, <[p := pl2]> (w_payloads w) !! q ≠ None ↔ w_payloads w !! q ≠ None).
    { intros q. destruct (decide (p = q)) as [<-|]; [by rewrite lookup_insert_eq, Hp|by rewrite lookup_insert_ne]. }
    split; try done.
    + intros l n Hin. pose proof (Hm l n Hin) as Hok'. unfold okmem, is_pending, pend, st in *. simpl.
      setoid_rewrite Hne. done.
    + intros e m k q Hm1 Hk. destruct (Hpd e m k q Hm1 Hk). split; [simpl; by rewrite Hne|done].
    + intros j Hj. destruct (Hf j Hj) as (?&?&?). repeat split; try done. simpl. rewrite lookup_insert_ne; [done|]. intros ->. congruence.
    + intros q pl3. simpl. rewrite lookup_insert_Some. intros [[_ <-]|[_ ?]]; [done|eauto].
    + assert (ps = p :: ps') as -> by (eapply (inj (fmap payloadElement)); by rewrite <-Hps, <-Hps').
      apply Forall2_cons_inv_l in Hpls as (plp & pls' & Hplp & Hpls' & ->). rewrite Hp in Hplp. injection Hplp as <-.
      exists (p :: ps'), (pl2 :: pls'). split; [done|]. split.
      * constructor; [simpl; by rewrite lookup_insert_eq|].
        rewrite Hps', fmap_cons, NoDup_cons in Hnd. destruct Hnd as [Hnin _].
        apply Forall2_payload_insert; [|done]. intros Hin. apply Hnin, list_elem_of_fmap. by exists p.
      * unfold log_of. simpl. rewrite spool_log_add, Hev, <-Heq. unfold log_of. simpl.
        rewrite <-(take_drop (Z.to_nat (ackEvents pl)) (events pl)) at 3. by rewrite <-!app_assoc.
  - revert Hfront. unfold isfront, list_Front, lists. monad. simpl.
    destruct (Front payloadList (w_mem w)) as [[b s]| |] eqn:E; [|done..]. apply Front_reads in E. subst s. by intros [= ->].
Qed.

(** A completed first payload leaves the list; nothing of it is left. *)
Lemma hoare_remove_complete tl p pl :
  events pl = [] →
  hoare (fun w => inv None recv tl pv w ∧ isfront p w ∧ w_payloads w !! p = Some pl)
    (lists (Remove payloadList (Node (payloadElement p)))) (fun _ => inv None recv tl pv).
Proof.
  intros Hev w a w' ([Γ Hi] & Hfront & Hp) Hr. destruct (lists_run _ _ _ _ Hr) as (s & Hs & ->).
  destruct (isfront_inv _ _ _ _ _ Hi Hfront) as [ps' Hps'].
  destruct (Remove_refines (w_mem w) Γ payloadList (payloadElement p) (v_rep _ _ _ _ _ _ Hi)) as (s' & Hs' & Hrep).
  rewrite Hs in Hs'. injection Hs' as -> ->.
  pose proof (rep_nodup _ _ (v_rep _ _ _ _ _ _ Hi) payloadList) as Hnd.
  destruct Hi as [Hrp Hm Hpd Hf Ho (ps & pls & Hps & Hpls & Heq) Hv].
  exists (<[payloadList := without (payloadElement p) (Γ payloadList)]> Γ). split; try done.
  - intros l n Hin. apply Hm. by eapply without_subset.
  - assert (ps = p :: ps') as -> by (eapply (inj (fmap payloadElement)); by rewrite <-Hps, <-Hps').
    apply Forall2_cons_inv_l in Hpls as (plp & pls' & Hplp & Hpls' & ->).
    rewrite Hp in Hplp. injection Hplp as <-. exists ps', pls'. split; [|split; [done|]].
    + rewrite fn_lookup_insert, Hps'. rewrite Hps', fmap_cons, NoDup_cons in Hnd.
      rewrite fmap_cons. by apply (without_mid _ []); [set_solver|apply Hnd].
    + rewrite <-Heq. csimpl. by rewrite Hev.
Qed.

Lemma hoare_front_isfront tl :
  hoare (inv None recv tl pv) (list_Front payloadList)
    (fun r w => inv None recv tl pv w ∧ ∀ p, r = Some p → isfront p w).
Proof.
  intros w r w' HI Hr. pose proof (list_Front_reads _ _ _ _ Hr) as ->. split; [done|]. intros p ->. exact Hr.
Qed.

Lemma hoare_after2 {A B E} (P Q : PW → Prop) (R' : E → PW → Prop) (a : M PW A) (b : M PW B) (k : M PW E) :
  hoare P (a;; b) (fun _ => Q) → hoare Q k R' → hoare P (a;; b;; k) R'.
Proof.
  intros Hp Hk w y w' HP. specialize (Hp w). revert Hp. monad.
  destruct (a w) as [[? w1]| |]; [|done..]. destruct (b w1) as [[z w2]| |]; [|done..].
  intros Hp Hr. eapply Hk; [|exact Hr]. by eapply Hp.
Qed.

Lemma hoare_ack_loop tl fuel p oos n :
  hoare (fun w => inv None recv tl pv w ∧ isfront p w) (ack_loop fuel p oos n) (fun _ => inv None recv tl pv).
Proof.
  revert p oos n. induction fuel as [|fuel IH]; intros p oos n; simpl; [apply hoare_fuel|].
  eapply hoare_bind; [apply hoare_get_payload|intros pl; cbv beta].
  destruct (negb (HasAck pl)); [by apply hoare_ret; intros w [[? _] _]|].
  intros w a w' [[HI Hfront] Hp]. pose proof (payload_ok_of _ _ _ _ _ _ _ HI Hp) as Hok.
  destruct (Rollup_run pl Hok) as (pl' & Hroll & Hok' & Hev & _). rewrite Hroll. cbn [lift]. revert w a w' HI Hfront Hp.
  match goal with |- ∀ w a w', _ → _ → _ → (mret ?r ≫= ?k) w = _ → _ =>
    enough (Hk : hoare (fun w => inv None recv tl pv w ∧ isfront p w ∧ w_payloads w !! p = Some pl) (k r) (fun _ => inv None recv tl pv))
      by (intros w a w' HI Hfront Hp Hr; by eapply Hk) end.
  cbv beta. cbn [fst snd]. eapply hoare_after2; [by apply hoare_rollup|].
  rewrite (Complete_run _ Hok'). cbn [lift].
  apply (hoare_bind _ (fun b w => b = bool_decide (ackEvents pl' = zlen (events pl')) ∧
    inv None recv tl pv w ∧ isfront p w ∧ w_payloads w !! p = Some pl')); [by apply hoare_ret|].
  intros b; cbv beta. intros w a w' [-> HI]. revert w a w' HI.
  match goal with |- ∀ w a w', _ → ?m w = _ → _ =>
    enough (Hk : hoare (fun w => inv None recv tl pv w ∧ isfront p w ∧ w_payloads w !! p = Some pl') m (fun _ => inv None recv tl pv))
      by exact Hk end.
  case_bool_decide as Hc; simpl; [|by apply hoare_ret; intros w (? & _)].
  assert (Hnil : events pl' = []).
  { destruct (Rollup_run pl Hok) as (pl2 & Hroll2 & _ & Hev2 & Hack & _). rewrite Hroll in Hroll2.
    injection Hroll2 as <-. rewrite Hack in Hc. destruct (events pl'); [done|]. unfold zlen in Hc. simpl in Hc. lia. }
  eapply hoare_bind; [by apply hoare_remove_complete|intros ?; cbv beta].
  apply (hoare_bind _ (fun _ => inv None recv tl pv)); [by apply keeps_update_pub|intros ?; cbv beta].
  apply (hoare_bind _ (fun _ => inv None recv tl pv)); [apply keeps_reads, lists_reads, Len_reads|intros m; cbv beta].
  case_decide; [apply keeps_ret|].
  eapply hoare_bind; [apply hoare_front_isfront|intros front; cbv beta].
  apply (hoare_bind _ (fun q w => inv None recv tl pv w ∧ isfront q w)); [|intros q; apply IH].
  apply hoare_deref. intros q w -> [HI Hq]. auto.
Qed.
End Sending.

(** ** The invariant of the whole store *)

(** The events received and not yet in a payload are the held spool, while the
    publisher is not shutting down; a spool is only received when none is held. *)
Definition coupled (pv : bool * bool * option (list EventDescriptor)) (tl : list EventDescriptor) : Prop :=
  let '(sd, ch, ns) := pv in
  (sd = false → tl = default [] ns) ∧ (ch = true → ns = None ∧ sd = false).

Definition top (recv : list EventDescriptor) w : Prop := ∃ tl pv, inv None recv tl pv w ∧ coupled pv tl.

Section Top.
Context (Write_ok : ∀ nonce evs t, fst (transport_Write (T := T) (F := F) nonce evs t) = None).
Context (recv : list EventDescriptor).

Lemma keeps_top {A} (m : M PW A) : (∀ tl pv, keeps (inv None recv tl pv) m) → keeps (top recv) m.
Proof. intros Hm w a w' (tl & pv & HI & Hc) Hr. exists tl, pv. split; [by eapply Hm|done]. Qed.

(** Changing the publisher's view of the spool. *)
Lemma inv_set_held tl pv w ch ns :
  inv None recv tl pv w → inv None recv tl (shuttingDown (w_ext w), ch, ns) (set_ext (p_set_held ch ns (w_ext w)) w).
Proof. intros [Γ [Hr Hm Hp Hf Ho Hh Hv]]. exists Γ. by split. Qed.

Lemma inv_pubview x tl pv w : inv x recv tl pv w → pubview w = pv.
Proof. intros [Γ Hi]. apply (v_pub _ _ _ _ _ _ Hi). Qed.

Lemma eventsHeld_reads : reads (eventsHeld : M PW bool).
Proof.
  apply bind_reads; [apply lists_reads, Len_reads|intros n]. apply bind_reads; [apply gets_reads|intros; apply ret_reads].
Qed.

Lemma CanQueue_reads : reads (CanQueue : M PW bool).
Proof. apply bind_reads; [apply lists_reads, Len_reads|intros; apply ret_reads]. Qed.

Lemma resend_fuel_reads : reads (resend_fuel : M PW nat).
Proof.
  apply bind_reads; [apply lists_reads, Len_reads|intros n].
  apply bind_reads; [apply lists_reads, Len_reads|intros; apply ret_reads].
Qed.

Lemma hoare_get_pub (P : PW → Prop) : hoare P get_pub (fun y w => P w ∧ y = w_ext w).
Proof. apply hoare_gets. intros w HP. by split. Qed.

Lemma keeps_tryQueueHeld : keeps (top recv) tryQueueHeld.
Proof.
  intros w0 a0 w0' (tl & pv & HI0 & Hc). revert w0 a0 w0' HI0.
  enough (Hk : hoare (inv None recv tl pv) tryQueueHeld (fun _ => top recv)) by exact Hk.
  apply (hoare_bind _ (fun y w => inv None recv tl pv w ∧ (shuttingDown y, ifSpoolChan y, nextSpool y) = pv)).
  { apply hoare_gets. intros w HI. split; [done|]. by eapply inv_pubview. }
  intros y. apply (hoare_bind _ (fun _ w => inv None recv tl pv w ∧ (shuttingDown y, ifSpoolChan y, nextSpool y) = pv));
    [apply reads_stable, eventsHeld_reads|intros held; cbv beta].
  apply (hoare_bind _ (fun _ w => inv None recv tl pv w ∧ (shuttingDown y, ifSpoolChan y, nextSpool y) = pv));
    [apply reads_stable, CanQueue_reads|intros can; cbv beta].
  destruct (shuttingDown y || negb held || negb can) eqn:Eg; [apply hoare_ret; intros w [? _]; by exists tl, pv|].
  apply orb_false_elim in Eg as [Eg _]. apply orb_false_elim in Eg as [Esd _].
  apply (hoare_bind _ (fun _ w => inv None recv tl pv w ∧ (shuttingDown y, ifSpoolChan y, nextSpool y) = pv));
    [apply reads_stable, lists_reads, Len_reads|intros n; cbv beta].
  case_decide.
  - apply (hoare_bind _ (fun _ w => inv None recv tl pv w)).
    { apply (hoare_conseq _ (inv None recv tl pv) _ (fun _ => inv None recv tl pv)); [apply reads_stable, resend_fuel_reads|by intros w [? _]|done]. }
    intros fuel; cbv beta. eapply hoare_conseq; [by apply keeps_resend_loop|done|]. intros ? w HI. by exists tl, pv.
  - destruct (nextSpool y) as [evs|] eqn:Ens; [|apply hoare_ret; intros w [? _]; by exists tl, pv].
    case_decide; [|apply hoare_ret; intros w [? _]; by exists tl, pv].
    intros w a w' [HI <-]. destruct Hc as [Htl Hch]. specialize (Htl Esd). simpl in Htl. subst tl. rewrite Esd in *.
    revert w a w' HI.
    enough (Hk : hoare (inv None recv evs (false, ifSpoolChan y, Some evs))
      (ok ← sendEvents evs; if (ok : bool) then update_pub (p_set_held true None);; mret true else mret false)
      (fun _ => top recv)) by exact Hk.
    apply (hoare_bind _ (fun ok w => ok = true ∧ inv None recv [] (false, ifSpoolChan y, Some evs) w)).
    { eapply hoare_conseq; [by apply hoare_sendEvents|intros w; by rewrite app_nil_r|done]. }
    intros ok; cbv beta. intros w a w' [-> HI]. unfold update_pub, get_pub, put_pub. monad. intros [= <- <-].
    exists [], (false, true, None). split; [|done].
    pose proof (inv_pubview _ _ _ _ HI) as Hv. unfold pubview in Hv. injection Hv as Hsd _ _.
    pose proof (inv_set_held _ _ _ true None HI) as HI'. by rewrite Hsd in HI'.
Qed.

Lemma keeps_pullBackPending e : keeps (top recv) (pullBackPending e).
Proof.
  intros w0 a0 w0' (tl & pv & HI0 & Hc). revert w0 a0 w0' HI0.
  enough (Hk : hoare (inv None recv tl pv) (pullBackPending e) (fun _ => top recv)) by exact Hk.
  eapply hoare_bind; [apply hoare_PullBackPending|intros ps; cbv beta].
  apply (hoare_bind _ (fun _ => top recv)).
  { eapply hoare_conseq; [by apply (hoare_hold_all recv pv Write_ok tl)|done|]. intros ? w HI. by exists tl, pv. }
  intros ?; cbv beta. apply keeps_bind; [apply keeps_tryQueueHeld|intros; by apply hoare_ret].
Qed.

(** ** Small steps on the whole invariant *)
Lemma top_ret {A} (a : A) : keeps (top recv) (mret a).
Proof. by apply hoare_ret. Qed.

Lemma top_reads {A} (m : M PW A) : reads m → keeps (top recv) m.
Proof. intros Hm. by apply reads_stable. Qed.

Lemma top_deref {A} (p : option A) : keeps (top recv) (deref p).
Proof. by apply hoare_deref. Qed.

Lemma top_lift {A} (o : outcome A) : keeps (top recv) (lift o).
Proof. apply keeps_top. intros. apply keeps_lift. Qed.

Lemma top_read_env {A} (f : nat → A) : keeps (top recv) (read_env f).
Proof. apply keeps_top. intros. apply keeps_read_env. Qed.

Lemma top_Register t d cb : keeps (top recv) (RegisterTimeout t d cb).
Proof. apply keeps_top. intros. apply keeps_RegisterTimeout. Qed.

Lemma top_update_pub f :
  (∀ y, shuttingDown (f y) = shuttingDown y ∧ ifSpoolChan (f y) = ifSpoolChan y ∧ nextSpool (f y) = nextSpool y ∧
        spool_log (registrarSpool (f y)) = spool_log (registrarSpool y)) →
  keeps (top recv) (update_pub f).
Proof. intros Hf. apply keeps_top. intros. by apply keeps_update_pub. Qed.

Lemma top_put_method m o : keeps (top recv) (put_method m o).
Proof. by apply top_update_pub. Qed.

Lemma get_method_reads m : reads (get_method m : M PW method).
Proof.
  apply bind_reads; [apply gets_reads|intros y]. destruct (pub_methods y !! m); [apply ret_reads|by intros w a w'].
Qed.

Lemma top_ShutdownEndpoint server : keeps (top recv) (ShutdownEndpoint server).
Proof. apply keeps_top. intros. apply keeps_ShutdownEndpoint. Qed.

Lemma top_AddEndpoint server pool fin : keeps (top recv) (AddEndpoint server pool fin).
Proof. apply keeps_top. intros. apply keeps_AddEndpoint. Qed.

Lemma top_AddEndpointAfter server pool fin after : keeps (top recv) (AddEndpointAfter server pool fin after).
Proof. apply keeps_top. intros. apply keeps_AddEndpointAfter. Qed.

Lemma top_MoveEndpointAfter e a : keeps (top recv) (MoveEndpointAfter e (Some a)).
Proof. apply keeps_top. intros. by apply (keeps_MoveAfter _ _ _ _ orderedList). Qed.

Lemma top_ReloadConfig e c b : keeps (top recv) (endpoint_ReloadConfig e c b).
Proof. apply keeps_top. intros. apply keeps_endpoint_ReloadConfig. Qed.

Lemma top_ForceFailure e : keeps (top recv) (sink_ForceFailure e).
Proof. apply keeps_top. intros. apply keeps_sink_ForceFailure. Qed.

Lemma top_alloc : keeps (top recv) alloc.
Proof. apply keeps_top. intros. eapply hoare_conseq; [apply hoare_alloc|done|by intros ? w [? _]]. Qed.

Lemma top_NewPool server : keeps (top recv) (NewPool_alloc server).
Proof.
  apply keeps_bind; [apply top_alloc|intros p]. apply keeps_bind; [|intros; apply top_ret].
  apply keeps_top. intros. apply keeps_set_pools.
Qed.

Lemma FindEndpoint_reads server : reads (FindEndpoint server : M PW _).
Proof. apply bind_reads; [apply gets_reads|intros; apply ret_reads]. Qed.

Lemma sink_Count_reads : reads (sink_Count : M PW _).
Proof. apply bind_reads; [apply gets_reads|intros; apply ret_reads]. Qed.

Lemma endpoint_Prev_reads e : reads (endpoint_Prev e : M PW _).
Proof. apply bind_reads; [apply lists_reads, Prev_reads|intros; apply ret_reads]. Qed.

Lemma endpoint_Next_reads e : reads (endpoint_Next e : M PW _).
Proof. apply bind_reads; [apply lists_reads, Next_reads|intros; apply ret_reads]. Qed.

Lemma prev_search_reads fuel t p : reads (prev_search fuel t p : M PW _).
Proof.
  revert p. induction fuel as [|fuel IH]; intros [q|]; simpl; try apply ret_reads;
    (case_decide; [apply ret_reads|]); [by intros w a w'|].
  apply bind_reads; [apply endpoint_Prev_reads|intros; apply IH].
Qed.

Lemma list_fuel_reads : reads (list_fuel : M PW _).
Proof. apply gets_reads. Qed.

Ltac top_step :=
  first [apply top_ret | apply top_put_method | apply top_Register | apply top_ShutdownEndpoint | apply top_AddEndpoint
        | apply top_MoveEndpointAfter | apply top_ReloadConfig | apply top_ForceFailure | apply top_deref | apply top_read_env
        | apply top_AddEndpointAfter | apply top_NewPool | apply top_alloc | apply keeps_tryQueueHeld | apply keeps_pullBackPending
        | apply hoare_panic | apply hoare_fuel
        | apply top_reads; first [apply get_method_reads | apply gets_reads | apply get_endpoint_reads | apply FindEndpoint_reads
            | apply sink_Count_reads | apply endpoint_Prev_reads | apply endpoint_Next_reads | apply prev_search_reads
            | apply list_fuel_reads | apply list_Front_reads | apply lists_reads, Len_reads | apply get_timeout_reads
            | apply bind_reads; [apply gets_reads|intros; apply ret_reads]]].
Ltac top_bind :=
  repeat match goal with
         | |- keeps _ (_ ≫= _) => apply keeps_bind; [solve [top_step]|intros ?; cbv beta]
         end.

Ltac top_goal := match goal with |- hoare ?P ?m _ => change (keeps P m) end.

Ltac top_split :=
  match goal with
  | |- keeps _ (match ?x with _ => _ end) => destruct x
  | |- keeps _ (if ?x then _ else _) => destruct x
  end.

(** ** The methods *)
Lemma top_failover_onFail m e : keeps (top recv) (failover_onFail m e).
Proof.
  unfold failover_onFail. top_bind. top_split; try top_step.
  case_bool_decide as Hc; simpl; [subst|top_step].
  top_bind. case_decide; [top_step|]. top_bind. top_split; top_bind; top_step.
Qed.

Lemma top_failover_onFinish m e : keeps (top recv) (failover_onFinish m e).
Proof. unfold failover_onFinish. top_bind. top_split; top_bind; top_step. Qed.

Lemma top_shutdown_later fuel m next : keeps (top recv) (shutdown_later fuel m next).
Proof.
  revert next. induction fuel as [|fuel IH]; intros [q|]; simpl; try top_step. top_bind.
  apply keeps_bind; [top_split; top_step|intros ?; cbv beta]. top_bind. apply IH.
Qed.

Lemma top_failover_onStarted m e : keeps (top recv) (failover_onStarted m e).
Proof.
  unfold failover_onStarted. top_bind. top_split; try top_step. case_decide; [top_step|]. top_bind.
  top_split; [top_step|]. top_bind. apply top_shutdown_later.
Qed.

Lemma top_draw fuel n active : keeps (top recv) (draw_server fuel n active).
Proof.
  induction fuel as [|fuel IH]; simpl; [top_step|]. case_decide; [top_step|]. top_bind. case_decide; [apply IH|top_step].
Qed.

Lemma top_connectRandom m : keeps (top recv) (connectRandom m).
Proof.
  unfold connectRandom. top_bind. top_split; try top_step.
  apply keeps_bind; [repeat case_decide; first [top_step|apply top_draw]|intros ?; cbv beta]. top_bind. top_step.
Qed.

Lemma top_method_onFail e : keeps (top recv) (method_onFail e).
Proof. unfold method_onFail. top_bind. top_split; [apply top_failover_onFail|top_step..]. Qed.

Lemma top_method_onFinish e : keeps (top recv) (method_onFinish e).
Proof.
  unfold method_onFinish. top_bind. top_split; [apply top_failover_onFinish|top_step|].
  unfold random_onFinish. top_bind. top_split; try top_step. top_split. top_bind. top_step.
Qed.

Lemma top_method_onStarted e : keeps (top recv) (method_onStarted e).
Proof.
  unfold method_onStarted. top_bind. top_split; [apply top_failover_onStarted|top_step|].
  unfold random_onStarted. top_bind. top_split; top_step.
Qed.

(** ** The observer *)
Lemma top_OnStarted e : keeps (top recv) (pub_OnStarted e).
Proof.
  unfold pub_OnStarted. apply keeps_bind; [apply top_method_onStarted|intros ?; cbv beta]. top_bind.
  top_split; [top_step|]. top_bind. top_split; top_step.
Qed.

Lemma top_OnFinish e : keeps (top recv) (pub_OnFinish e).
Proof.
  unfold pub_OnFinish. top_bind. top_split; [top_step|]. top_bind.
  apply keeps_bind; [apply keeps_when; top_step|intros ?; cbv beta]. apply top_method_onFinish.
Qed.

Lemma top_OnFail e : keeps (top recv) (pub_OnFail e).
Proof.
  unfold pub_OnFail. top_bind. apply keeps_bind; [apply keeps_when; top_step|intros ?; cbv beta]. apply top_method_onFail.
Qed.

Lemma top_OnPong e : keeps (top recv) (pub_OnPong e).
Proof. unfold pub_OnPong. top_bind. apply keeps_when. top_step. Qed.

Lemma top_ack_loop fuel p oos n :
  hoare (fun w => top recv w ∧ isfront p w) (ack_loop fuel p oos n) (fun _ => top recv).
Proof.
  intros w a w' [(tl & pv & HI & Hc) Hf] Hr. exists tl, pv. split; [|done].
  eapply (hoare_ack_loop recv pv Write_ok); [exact (conj HI Hf)|exact Hr].
Qed.

Lemma top_Remove l n : l ≠ payloadList → keeps (top recv) (lists (Remove l (Node n))).
Proof. intros Hl. apply keeps_top. intros. by apply keeps_Remove. Qed.

Lemma top_put_payload p pl pl' :
  (payload_ok pl → payload_ok pl') → events pl' = events pl →
  hoare (fun w => top recv w ∧ w_payloads w !! p = Some pl) (put_payload p pl') (fun _ => top recv).
Proof.
  intros Hok Hev w a w' [(tl & pv & HI & Hc) Hp] Hr. exists tl, pv. split; [|done].
  eapply hoare_put_payload; [| |exact (conj HI Hp)|exact Hr]; [apply Hok; by eapply payload_ok_of|done].
Qed.

Lemma top_OnAck e p first lines : keeps (top recv) (pub_OnAck e p first lines).
Proof.
  unfold pub_OnAck. top_bind. apply keeps_bind; [case_decide; top_step|intros ?; cbv beta].
  eapply hoare_bind; [apply hoare_get_payload|intros pl; cbv beta].
  apply (hoare_bind _ (fun _ w => top recv w ∧ w_payloads w !! p = Some pl)).
  { destruct (Complete pl); [by apply hoare_ret|apply hoare_panic|apply hoare_fuel]. }
  intros complete; cbv beta.
  apply (hoare_bind _ (fun _ => top recv)).
  { unfold when. destruct (Resending pl && complete); [|by apply hoare_ret; intros w [? _]].
    apply (hoare_bind _ (fun _ => top recv)); [apply top_put_payload; [apply set_Resending_ok|done]|].
    intros ?. by apply top_Remove. }
  intros ?; cbv beta.
  apply (hoare_bind _ (fun r w => top recv w ∧ ∀ q, r = Some q → isfront q w)).
  { intros w r w' (tl & pv & HI & Hc) Hr. destruct (hoare_front_isfront recv pv tl w r w' HI Hr) as [HI' Hf].
    split; [by exists tl, pv|done]. }
  intros front; cbv beta.
  apply (hoare_bind _ (fun q w => top recv w ∧ isfront q w)); [apply hoare_deref; intros q w -> [? Hf]; auto|intros q; cbv beta].
  apply (hoare_bind _ (fun _ => top recv)).
  - case_decide as Hq.
    + subst q. apply (hoare_bind _ (fun _ w => top recv w ∧ isfront p w)); [apply reads_stable, gets_reads|intros y; cbv beta].
      apply (hoare_bind _ (fun _ w => top recv w ∧ isfront p w)); [apply reads_stable, lists_reads, Len_reads|intros n; cbv beta].
      apply (hoare_bind _ (fun _ => top recv)); [apply top_ack_loop|intros k; cbv beta].
      apply (hoare_bind _ (fun _ => top recv)); [|intros ?; apply top_ret].
      apply top_update_pub. intros z. simpl. by rewrite spool_log_send.
    + apply (hoare_bind _ (fun _ => top recv)); [|intros ?; apply top_ret].
      apply (hoare_conseq _ (top recv) _ (fun _ => top recv)); [|by intros w [? _]|done].
      apply keeps_when. by apply top_update_pub.
  - intros k; cbv beta. apply keeps_bind.
    + apply top_update_pub. intros z. by destruct (decide (k = 0%Z)).
    + intros ?. apply keeps_when. top_bind. top_step.
Qed.

(** ** Status changes *)
Lemma hoare_markActive_lists e :
  hoare (fun w => top recv w ∧ st w e = Some endpointStatusIdle)
    (set_status e endpointStatusActive;; lists (PushBack readyList (Node (readyElement e)))) (fun _ => top recv).
Proof.
  intros w0 a0 w0' [(tl & pv & HI0 & Hc) Hst0]. pose proof (conj HI0 Hst0) as H0'. revert w0 a0 w0' HI0 Hst0 H0'.
  enough (Hk : hoare (fun w => inv None recv tl pv w ∧ st w e = Some endpointStatusIdle)
    (set_status e endpointStatusActive;; lists (PushBack readyList (Node (readyElement e)))) (fun _ => inv None recv tl pv)).
  { intros w a w' HI Hst HH Hr. exists tl, pv. split; [by eapply Hk|done]. }
  apply (hoare_bind _ (fun _ w => inv None recv tl pv w ∧ okmem None readyList (readyElement e) w ∧ notin readyList (readyElement e) w)).
  - intros w a w' [HI Hst] Hr.
    assert (Hn : notin readyList (readyElement e) w) by (by eapply not_ready).
    destruct (hoare_set_status None recv tl pv e (ep_set_status endpointStatusActive) (fun _ => eq_refl) endpointStatusActive
      (fun _ => eq_refl) w a w') as [HI' Hst'].
    { split; [done|]. split; [by left|]. right. by eapply not_failed. }
    { exact Hr. }
    split; [done|]. split; [right; left; split; [done|by exists e]|].
    by destruct (update_endpoint_run _ _ _ _ _ Hr) as (? & _ & ->).
  - intros ?; cbv beta. eapply hoare_conseq; [by apply (hoare_PushBack None recv tl pv readyList)|done|done].
Qed.

Lemma hoare_top_get_endpoint e :
  hoare (top recv) (get_endpoint e) (fun ep w => top recv w ∧ w_endpoints w !! e = Some ep).
Proof. apply hoare_get_endpoint. Qed.

Lemma top_markActive e : keeps (top recv) (markActive e observer).
Proof.
  eapply hoare_bind; [apply hoare_top_get_endpoint|intros ep; cbv beta].
  destruct (IsIdle ep) eqn:Ei; simpl; [|by apply hoare_ret; intros w [? _]].
  apply bool_decide_eq_true_1 in Ei. eapply hoare_after2.
  - eapply hoare_conseq; [apply hoare_markActive_lists| |done]. intros w [? He]. split; [done|]. by rewrite (st_of _ _ _ He), Ei.
  - apply top_OnStarted.
Qed.

Lemma top_moveFailed e : keeps (top recv) (moveFailed e (Some observer)).
Proof.
  eapply hoare_bind; [apply hoare_top_get_endpoint|intros ep; cbv beta].
  destruct (IsAlive ep) eqn:Ha; simpl; [|by apply hoare_ret; intros w [? _]].
  rewrite (IsAlive_not_closing ep) by done.
  eapply hoare_after4.
  - intros w a w' [(tl & pv & HI & Hc) He] Hr.
    pose proof (hoare_moveFailed_lists None recv tl pv e ep Ha w a w' (conj HI He) Hr) as HI'.
    instantiate (1 := top recv). by exists tl, pv.
  - apply keeps_bind; [apply top_OnFail|intros ?; apply top_ret].
Qed.

Lemma top_recoverFailed e : keeps (top recv) (recoverFailed e).
Proof. apply keeps_top. intros. apply keeps_recoverFailed. Qed.

Lemma top_removeEndpoint server : keeps (top recv) (removeEndpoint server).
Proof. apply keeps_top. intros. apply keeps_removeEndpoint. Qed.

Lemma top_processStatusChange e c : keeps (top recv) (processStatusChange e c observer).
Proof.
  destruct c; simpl.
  - top_bind. top_split; [apply top_recoverFailed|apply top_markActive].
  - apply top_moveFailed.
  - top_bind. apply keeps_bind; [apply top_removeEndpoint|intros ?; cbv beta]. top_bind.
    case_decide; [|top_step]. apply keeps_bind; [apply top_OnFinish|intros ?; cbv beta]. apply keeps_when. top_bind. top_step.
Qed.

(** ** Acknowledgements *)

(** Removing a completed payload from its endpoint's map. *)
Lemma inv_remove_pending tl pv w e ep nonce n :
  inv None recv tl pv w → w_endpoints w !! e = Some ep →
  ∀ ep', ep_status ep' = ep_status ep → pendingPayloads ep' = delete nonce (pendingPayloads ep) → numPayloads ep' = n →
  inv None recv tl pv (set_endpoints (<[e := ep']> (w_endpoints w)) w).
Proof.
  intros [Γ [Hr Hm Hp Hf Ho Hh Hv]] He ep' Hs Hpe _. exists Γ.
  set (w' := set_endpoints _ w).
  assert (Hst : ∀ e', st w' e' = st w e').
  { intros e'. unfold st. simpl. destruct (decide (e = e')) as [<-|]; [rewrite lookup_insert_eq, He; simpl; congruence|by rewrite lookup_insert_ne]. }
  assert (Hpd : ∀ e' m k q, pend w' e' = Some m → m !! k = Some q → ∃ m0, pend w e' = Some m0 ∧ m0 !! k = Some q).
  { intros e' m k q. unfold pend. simpl. destruct (decide (e = e')) as [<-|Hne].
    - rewrite lookup_insert_eq, He. simpl. intros [= <-]. rewrite Hpe, lookup_delete_Some. intros [_ ?]. by eexists.
    - rewrite lookup_insert_ne by done. eauto. }
  split; try done.
  - intros l n' Hin. pose proof (Hm l n' Hin) as Hok. unfold okmem in *. setoid_rewrite Hst.
    destruct Hok as [?|[?|[?|[?|[?|[-> (q & -> & Hq & Hnq)]]]]]]; [by left|by right; left|by do 2 right; left|by do 3 right; left|by do 4 right; left|].
    do 5 right. split; [done|]. exists q. split; [done|]. split; [done|]. intros Hx (e' & m & k & Hm1 & Hk).
    destruct (Hpd _ _ _ _ Hm1 Hk) as (m0 & ? & ?). apply (Hnq Hx). by exists e', m0, k.
  - intros e' m k q Hm1 Hk. destruct (Hpd _ _ _ _ Hm1 Hk) as (m0 & Hm0 & Hk0). destruct (Hp _ _ _ _ Hm0 Hk0) as [? Huniq].
    split; [done|]. intros e2 m2 k2 Hm2 Hk2. destruct (Hpd _ _ _ _ Hm2 Hk2) as (m3 & ? & ?). by eapply Huniq.
  - intros j Hj. destruct (Hf j Hj) as (?&?&?). repeat split; try done. simpl. rewrite lookup_insert_ne; [done|]. intros ->. congruence.
Qed.

Lemma top_update_endpoint e f :
  (∀ ep, ep_status (f ep) = ep_status ep ∧ pendingPayloads (f ep) = pendingPayloads ep) →
  keeps (top recv) (update_endpoint e f).
Proof. intros Hf. apply keeps_top. intros. by apply keeps_update_endpoint. Qed.

Lemma top_put_endpoint e ep ep' :
  ep_status ep' = ep_status ep → pendingPayloads ep' = pendingPayloads ep ∨ (∃ k, pendingPayloads ep' = delete k (pendingPayloads ep)) →
  hoare (fun w => top recv w ∧ w_endpoints w !! e = Some ep) (put_endpoint e ep') (fun _ => top recv).
Proof.
  intros Hs Hp w a w' [(tl & pv & HI & Hc) He] Hr. exists tl, pv. split; [|done].
  destruct Hp as [Hp|[k Hp]]; [by eapply hoare_put_endpoint|]. injection Hr as <- <-.
  by eapply inv_remove_pending.
Qed.

Lemma top_processAck e nonce sequence : keeps (top recv) (endpoint_processAck e nonce sequence observer).
Proof.
  eapply hoare_bind; [apply hoare_top_get_endpoint|intros ep; cbv beta].
  destruct (pendingPayloads ep !! nonce) as [p|]; [|by apply hoare_ret; intros w [? _]].
  eapply hoare_bind; [apply hoare_get_payload|intros pl; cbv beta].
  destruct (Ack pl sequence) as [[lines complete] pl'] eqn:Eack.
  apply (hoare_bind _ (fun _ w => top recv w ∧ w_endpoints w !! e = Some ep)).
  { intros w a w' [[HI He] Hp] Hr. split.
    - eapply top_put_payload; [| |exact (conj HI Hp)|exact Hr].
      + intros Hok. replace pl' with (snd (Ack pl sequence)) by (by rewrite Eack). by apply Ack_ok.
      + replace pl' with (snd (Ack pl sequence)) by (by rewrite Eack). apply events_Ack.
    - by injection Hr as <- <-. }
  intros ?; cbv beta. apply (hoare_bind _ (fun _ => top recv)).
  - destruct complete.
    + apply (hoare_bind _ (fun _ w => top recv w ∧ w_endpoints w !! e = Some ep)).
      { intros w b w' [HI He] Hr. split; [by eapply top_read_env|]. revert Hr. unfold Now, read_env. monad. by intros [= <- <-]. }
      intros now; cbv beta. apply (hoare_bind _ (fun _ => top recv)); [apply top_put_endpoint; [done|right; by exists nonce]|].
      intros ?; cbv beta. apply keeps_bind; [apply keeps_top; intros; by apply keeps_updateEstDelTime|intros ?; cbv beta].
      top_bind. apply keeps_bind; [apply keeps_when, keeps_bind; [top_step|intros; by apply top_update_endpoint]|].
      intros ?; cbv beta. by apply top_update_endpoint.
    + apply (hoare_conseq _ (top recv) _ (fun _ => top recv)); [by apply top_update_endpoint|by intros w [? _]|done].
  - intros ?; cbv beta. apply keeps_bind; [apply top_OnAck|intros; top_step].
Qed.

Lemma top_shutdownTransport e : keeps (top recv) (shutdownTransport e).
Proof. apply keeps_top. intros. apply keeps_shutdownTransport. Qed.

Lemma top_ProcessEvent ev : keeps (top recv) (ProcessEvent ev observer).
Proof.
  destruct ev as [e c|e nonce sequence|e]; simpl.
  - apply top_processStatusChange.
  - unfold sink_processAck. apply keeps_bind; [apply top_processAck|intros ?; cbv beta]. top_split; [top_step|].
    top_bind. top_split; [top_step|apply top_shutdownTransport].
  - eapply hoare_bind; [apply hoare_top_get_endpoint|intros ep; cbv beta].
    destruct (negb (pongPending ep)); [by apply hoare_ret; intros w [? _]|].
    apply (hoare_bind _ (fun _ => top recv)); [apply top_put_endpoint; [done|by left]|intros ?; apply top_OnPong].
Qed.

(** ** Timeouts *)
Lemma top_SendPing e : keeps (top recv) (SendPing e).
Proof. apply keeps_top. intros. apply keeps_SendPing. Qed.

Lemma top_run_callback cb : keeps (top recv) (run_callback cb).
Proof.
  destruct cb; simpl.
  - apply top_markActive.
  - unfold timeoutPending. top_bind. top_split; apply top_ForceFailure.
  - unfold timeoutKeepalive, Register. top_bind. apply keeps_bind; [apply top_SendPing|intros ?; cbv beta]. top_split; top_step.
  - apply top_connectRandom.
Qed.

Lemma top_timeouts_loop fuel t : keeps (top recv) (timeouts_loop run_callback fuel t).
Proof.
  revert t. induction fuel as [|fuel IH]; intros t; simpl; [apply hoare_fuel|].
  apply (hoare_bind _ (fun _ w => top recv w ∧ notin timeoutList (timeoutElement t) w)).
  { intros w a w' (tl & pv & HI & Hc) Hr. destruct (hoare_Remove None recv tl pv timeoutList (timeoutElement t) ltac:(done) w a w' HI Hr).
    split; [by exists tl, pv|done]. }
  intros ?; cbv beta. eapply hoare_bind; [apply hoare_get_timeout|intros y; cbv beta].
  apply (hoare_bind _ (fun _ => top recv)).
  { destruct (timeoutFunc y) as [cb|]; [|by apply hoare_ret; intros w [[? _] _]].
    apply (hoare_bind _ (fun _ => top recv)); [|intros ?; apply top_run_callback].
    intros w b w' [[(tl & pv & HI & Hc) Hn] Ht] Hr. exists tl, pv. split; [|done].
    eapply (hoare_put_timeout None recv tl pv t); [|exact Hr]. split; [done|]. split; [by rewrite Ht|done]. }
  intros ?; cbv beta. top_goal. top_bind. top_split; [|top_step]. unfold Now. top_bind. case_decide; [top_step|apply IH].
Qed.

Lemma top_resetTimeoutTimer : keeps (top recv) resetTimeoutTimer.
Proof. apply keeps_top. intros. apply keeps_resetTimeoutTimer. Qed.

Lemma top_ProcessTimeouts fuel : keeps (top recv) (ProcessTimeouts run_callback fuel).
Proof.
  unfold ProcessTimeouts. top_bind. top_split; [|top_step].
  apply keeps_bind; [apply top_timeouts_loop|intros ?; apply top_resetTimeoutTimer].
Qed.

(** ** The loop *)
Lemma top_takeMeasurements : keeps (top recv) takeMeasurements.
Proof.
  apply keeps_top. intros tl pv. apply keeps_agree. intros w a w'.
  unfold takeMeasurements, get_pub, put_pub, Now, read_env. monad.
  destruct (CalculateSpeed _ _ _ _ _) as [sp sec]. intros [= <- <-]. by repeat split.
Qed.

Lemma top_shutdown :
  keeps (top recv) (update_pub p_set_shutdown;; sink_Shutdown).
Proof.
  apply keeps_bind; [|intros ?; apply keeps_top; intros; apply keeps_sink_Shutdown].
  intros w a w' (tl & pv & [Γ [Hr Hm Hp Hf Ho Hh Hv]] & Hc) [= <- <-].
  exists tl, (true, false, None). split; [|by split]. exists Γ. by split.
Qed.
End Top.

Section Run.
Context (Write_ok : ∀ nonce evs t, fst (transport_Write (T := T) (F := F) nonce evs t) = None).

Lemma inv_extend x recv tl pv w evs : inv x recv tl pv w → inv x (recv ++ evs) (tl ++ evs) pv w.
Proof.
  intros [Γ [Hr Hm Hp Hf Ho (ps & pls & Hps & Hpls & <-) Hv]]. exists Γ. split; try done.
  exists ps, pls. by rewrite <-!app_assoc.
Qed.

Lemma hoare_receive_spool recv evs :
  hoare (fun w => top recv w ∧ ifSpoolChan (w_ext w) = true) (receive_spool evs) (fun _ => top (recv ++ evs)).
Proof.
  intros w0 a0 w0' [(tl & pv & HI & Hc) Hch]. pose proof (inv_pubview _ _ _ _ _ HI) as Hv.
  destruct pv as [[sd ch] ns]. injection Hv as Hsd Hch' Hns. rewrite Hch in Hch'. subst ch.
  destruct Hc as [Htl Hc]. destruct (Hc eq_refl) as [-> ->]. specialize (Htl eq_refl). simpl in Htl. subst tl.
  pose proof (inv_extend _ _ _ _ _ evs HI) as HI'. simpl in HI'. clear HI Hch Hsd Hns Hc. revert w0 a0 w0' HI'.
  set (pv := (false, true, None)) in *. set (recv' := recv ++ evs).
  enough (Hk : hoare (inv None recv' evs pv) (receive_spool evs) (fun _ => top recv')) by exact Hk.
  assert (Hread : ∀ A (m : M PW A), reads m → hoare (inv None recv' evs pv) m (fun _ => inv None recv' evs pv)).
  { intros. by apply reads_stable. }
  unfold receive_spool.
  apply (hoare_bind _ (fun _ => inv None recv' evs pv)); [apply Hread, gets_reads|intros y; cbv beta].
  apply (hoare_bind _ (fun _ => inv None recv' evs pv)); [apply Hread, lists_reads, Len_reads|intros n; cbv beta].
  apply (hoare_bind _ (fun _ => inv None recv' evs pv)); [apply Hread, CanQueue_reads; done|intros can; cbv beta].
  apply (hoare_bind _ (fun ok w => inv None recv' (if (ok : bool) then [] else evs) pv w)).
  { repeat case_decide; try by apply hoare_ret. destruct can; [|by apply hoare_ret].
    eapply hoare_conseq; [apply (hoare_sendEvents recv' pv Write_ok [] evs)|intros w; by rewrite app_nil_r|].
    by intros ok w [-> ?]. }
  intros [|]; cbv beta; [apply hoare_ret; intros w HI; by exists [], pv|].
  intros w a w' HI. unfold update_pub, get_pub, put_pub. monad. intros [= <- <-].
  exists evs, (false, false, Some evs). split; [|done].
  pose proof (inv_pubview _ _ _ _ _ HI) as Hv. injection Hv as Hsd _ _.
  pose proof (inv_set_held _ _ _ _ false (Some evs) HI) as HI2. by rewrite Hsd in HI2.
Qed.

Lemma keeps_and {A} (I' P : PW → Prop) (m : M PW A) : keeps I' m → hoare (fun w => I' w ∧ P w) m (fun _ => I').
Proof. intros Hm w a w' [HI _]. by apply Hm. Qed.
End Run.
End Order.
