(* ===== verification/PublisherReload.v ===== *)
(** * The publisher: reloads and runs

    Creating and reloading the methods, what a reload of the configuration needs
    to keep the invariant of [PublisherOrder], and the invariant along every run. *)
From S2P Require Import Prelude InternalList Core Payload Codecs AdminApi AddressPool Transports Endpoint Registrar Publisher PublisherOrder.

Section Reload.
Context {T F IP R : Type} `{Transport T F} `{Env} `{SpoolerLog R}.

Abbreviation PW := (World (T := T) (F := F) (IP := IP) (X := Publisher (F := F) (R := R))).
Implicit Types w : PW.
Abbreviation top := (PublisherOrder.top (T := T) (F := F) (IP := IP) (R := R)).

Context (Write_ok : ∀ nonce evs t, fst (transport_Write (T := T) (F := F) nonce evs t) = None).

(** ** The initial store *)
Lemma top_initial config api spool :
  top (spool_log spool) (initial_world (T := T) (IP := IP) config api spool).
Proof.
  exists [], (false, true, None). split; [|done]. exists (fun _ => []). split.
  - apply empty_rep.
  - by intros l n ?%elem_of_nil.
  - intros e m k p. unfold pend. simpl. by rewrite lookup_empty.
  - intros j _. simpl. by rewrite !lookup_empty.
  - intros p pl. simpl. by rewrite lookup_empty.
  - exists [], []. simpl. by rewrite app_nil_r.
  - done.
Qed.

(** The sink has no endpoint yet for the first of these servers. *)
Definition first_new (servers : list text) w : Prop :=
  ∀ s, head servers = Some s → sk_endpoints (w_sink w) !! s = None.

(** The method keeps a current endpoint, and it is for the first of these servers. *)
Definition first_current (m : positive) (servers : list text) w : Prop :=
  ∃ c q position, pub_methods (w_ext w) !! m = Some (MethodFailover c (Some q) position) ∧
    ep_server <$> w_endpoints w !! q = head servers.

Lemma failover_reload_keeps recv m config servers last fc :
  fc = true ∨ last ≠ None → keeps (top recv) (failover_reload_loop m config servers last fc).
Proof.
  revert last fc. induction servers as [|server servers IH]; intros last fc Hor; simpl; [by apply top_ret|].
  apply keeps_bind; [apply top_reads, get_method_reads|intros [c current position| |]; try by apply top_ret].
  apply keeps_bind.
  { destruct current; [|by apply top_ret]. apply keeps_bind; [apply top_reads, get_endpoint_reads|intros; by apply top_ret]. }
  intros ic; cbv beta. apply keeps_bind; [apply top_reads, FindEndpoint_reads|intros [q|]; cbv beta].
  - destruct (fc || ic) eqn:Ef.
    + apply keeps_bind; [apply top_ShutdownEndpoint|intros ?]. apply IH. by left.
    + apply orb_false_elim in Ef as [-> _]. destruct Hor as [?|Hl]; [done|]. destruct last as [a|]; [|done].
      apply keeps_bind; [apply top_MoveEndpointAfter|intros ?].
      apply keeps_bind; [apply top_ReloadConfig|intros ?]. apply IH. by right.
  - destruct (fc || ic); [apply IH; by left|].
    apply keeps_bind; [apply top_NewPool|intros pool]. apply keeps_bind; [apply top_AddEndpointAfter|intros q].
    destruct current; [apply IH; by right|]. apply keeps_bind; [apply top_put_method|intros ?]. apply IH. by left.
Qed.

Lemma hoare_FindEndpoint_none recv server servers :
  hoare (fun w => top recv w ∧ first_new (server :: servers) w) (FindEndpoint server) (fun r w => r = None ∧ top recv w).
Proof.
  intros w r w' [HI Hn]. unfold FindEndpoint, get_sink. monad. intros [= <- <-]. by rewrite (Hn _ eq_refl).
Qed.

Lemma failover_reload_first recv m config :
  hoare (fun w => top recv w ∧ first_new (Servers config) w)
    (failover_reload_loop m config (Servers config) None false) (fun _ => top recv).
Proof.
  destruct (Servers config) as [|server servers]; simpl; [by apply hoare_ret; intros w [? _]|].
  apply (hoare_bind _ (fun _ w => top recv w ∧ first_new (server :: servers) w)); [apply reads_stable, get_method_reads|].
  intros [c current position| |]; cbv beta; try (by apply hoare_ret; intros w [? _]).
  apply (hoare_bind _ (fun _ w => top recv w ∧ first_new (server :: servers) w)).
  { apply reads_stable. destruct current; [|apply ret_reads]. apply bind_reads; [apply get_endpoint_reads|intros; apply ret_reads]. }
  intros ic; cbv beta. eapply hoare_bind; [apply hoare_FindEndpoint_none|intros r; cbv beta].
  intros w a w' [-> HI]. revert w a w' HI. cbn [orb].
  match goal with |- ∀ w a w', _ → ?m w = _ → _ => enough (Hk : keeps (top recv) m) by exact Hk end.
  destruct ic; [apply failover_reload_keeps; by left|].
  apply keeps_bind; [apply top_NewPool|intros pool]. apply keeps_bind; [apply top_AddEndpointAfter|intros q].
  destruct current; [apply failover_reload_keeps; by right|].
  apply keeps_bind; [apply top_put_method|intros ?]. apply failover_reload_keeps. by left.
Qed.

(** With the current endpoint listed first, every later server counts as found. *)
Lemma failover_reload_current recv m config :
  hoare (fun w => top recv w ∧ first_current m (Servers config) w)
    (failover_reload_loop m config (Servers config) None false) (fun _ => top recv).
Proof.
  destruct (Servers config) as [|server servers]; [by apply hoare_ret; intros w [? _]|].
  intros w a w' [HI (c & q & position & Hm & Hq)] Hr. cbn [failover_reload_loop head] in *.
  destruct (w_endpoints w !! q) as [ep|] eqn:Eq; [|done]. injection Hq as Hq.
  assert (Hget : get_method m w = Ret (MethodFailover c (Some q) position, w)).
  { unfold get_method, get_pub. monad. by rewrite Hm. }
  rewrite (bind_run _ _ _ _ _ Hget) in Hr. cbv beta iota in Hr.
  assert (Hic : (ep ← get_endpoint q; mret (bool_decide (ep_server ep = server)) : M PW bool) w = Ret (true, w)).
  { unfold get_endpoint. monad. rewrite Eq. monad. by rewrite bool_decide_true. }
  rewrite (bind_run _ _ _ _ _ Hic) in Hr. cbv beta zeta in Hr. rewrite orb_true_r in Hr. revert w a w' HI Hr Hget Hic Hm Eq.
  match goal with |- ∀ w a w', _ → ?m w = _ → _ => enough (Hk : keeps (top recv) m) by (intros w a w' HI Hr _ _ _ _; by eapply Hk) end.
  apply keeps_bind; [apply top_reads, FindEndpoint_reads|intros [q'|]; cbv beta].
  - apply keeps_bind; [apply top_ShutdownEndpoint|intros ?]. apply failover_reload_keeps. by left.
  - apply failover_reload_keeps. by left.
Qed.

Lemma loadbalance_reload_keeps recv config n servers last :
  last ≠ None → keeps (top recv) (loadbalance_reload_loop config n servers last).
Proof.
  revert n last. induction servers as [|server servers IH]; intros n last Hl; simpl; [by apply top_ret|].
  apply keeps_bind; [apply top_reads, FindEndpoint_reads|intros [q|]; cbv beta].
  - destruct last as [a|]; [|done]. apply keeps_bind; [apply top_MoveEndpointAfter|intros ?].
    apply keeps_bind; [apply top_ReloadConfig|intros ?]. by apply IH.
  - apply keeps_bind; [apply top_deref|intros pool]. apply keeps_bind; [apply top_AddEndpointAfter|intros q]. by apply IH.
Qed.

Lemma loadbalance_reload_first recv config :
  hoare (fun w => top recv w ∧ first_new (Servers config) w) (loadbalance_reload_loop config 0 (Servers config) None) (fun _ => top recv).
Proof.
  destruct (Servers config) as [|server servers]; simpl; [by apply hoare_ret; intros w [? _]|].
  eapply hoare_bind; [apply hoare_FindEndpoint_none|intros r; cbv beta].
  intros w a w' [-> HI]. revert w a w' HI.
  match goal with |- ∀ w a w', _ → ?m w = _ → _ => enough (Hk : keeps (top recv) m) by exact Hk end.
  apply keeps_bind; [apply top_deref|intros pool]. apply keeps_bind; [apply top_AddEndpointAfter|intros q].
  by apply loadbalance_reload_keeps.
Qed.

(** Steps that leave the sink alone. *)
Lemma hoare_same_sink {A} recv servers (m : M PW A) :
  keeps (top recv) m → (∀ w a w', m w = Ret (a, w') → w_sink w' = w_sink w) →
  hoare (fun w => top recv w ∧ first_new servers w) m (fun _ w => top recv w ∧ first_new servers w).
Proof.
  intros Hm Hs w a w' [HI Hn] Hr. split; [by eapply Hm|]. unfold first_new. by rewrite (Hs _ _ _ Hr).
Qed.

Lemma hoare_new_method recv m d :
  hoare (fun w => top recv w ∧ fresh m w) (put_timeout m (mkTimeout d None)) (fun _ => top recv).
Proof.
  intros w a w' [(tl & pv & HI & Hc) Hf] Hr. exists tl, pv. split; [|done].
  by eapply (hoare_new_timeout None recv tl pv m d); [exact (conj HI Hf)|].
Qed.

Lemma top_random_consider recv m config e b : keeps (top recv) (random_consider m config e b).
Proof.
  unfold random_consider. apply keeps_bind; [apply top_reads, get_endpoint_reads|intros ep; cbv beta].
  destruct (IsClosing ep); [by apply top_ret|]. destruct (IsFailed ep || b).
  { apply keeps_bind; [apply top_ShutdownEndpoint|intros; by apply top_ret]. }
  destruct (position_of _ _ _).
  - apply keeps_bind; [apply top_reads, get_method_reads|intros o; cbv beta].
    apply keeps_bind; [destruct o; first [by apply top_ret|apply top_put_method]|intros ?].
    apply keeps_bind; [apply top_ReloadConfig|intros; by apply top_ret].
  - apply keeps_bind; [apply top_ShutdownEndpoint|intros; by apply top_ret].
Qed.

Lemma top_random_adopt recv fuel m config e b : keeps (top recv) (random_adopt fuel m config e b).
Proof.
  revert e b. induction fuel as [|fuel IH]; intros [e|] b; simpl; try (by apply top_ret); [apply hoare_fuel|].
  apply keeps_bind; [apply top_random_consider|intros found]. apply keeps_bind; [apply top_reads, endpoint_Next_reads|intros; apply IH].
Qed.

Lemma top_newMethodRandom recv config : keeps (top recv) (newMethodRandom config).
Proof.
  apply keeps_bind; [apply top_read_env|intros ?].
  apply (hoare_bind _ (fun m w => top recv w ∧ fresh m w)).
  { intros w m w' (tl & pv & HI & Hc) Hr. destruct (hoare_alloc None recv tl pv w m w' HI Hr). split; [by exists tl, pv|done]. }
  intros m; cbv beta. apply (hoare_bind _ (fun _ w => top recv w ∧ fresh m w)).
  { intros w b w' [HI Hf] Hr. split; [by eapply top_put_method|]. by injection Hr as <- <-. }
  intros ?; cbv beta. apply (hoare_bind _ (fun _ => top recv)); [apply hoare_new_method|intros ?; cbv beta].
  apply keeps_bind; [apply top_reads, sink_Count_reads|intros n; cbv beta]. case_decide.
  - apply keeps_bind; [by apply top_connectRandom|intros; by apply top_ret].
  - apply keeps_bind; [apply top_reads, list_fuel_reads|intros fuel].
    apply keeps_bind; [apply top_reads, list_Front_reads|intros front].
    apply keeps_bind; [apply top_random_adopt|intros; by apply top_ret].
Qed.

Definition method_name (name : string) (config : Network F) : bool := bool_decide (Method config = bytes_of name).

Lemma hoare_newMethodFailover recv config :
  hoare (fun w => top recv w ∧ first_new (Servers config) w) (newMethodFailover config) (fun _ => top recv).
Proof.
  eapply hoare_bind; [apply hoare_same_sink; [apply top_alloc|by intros ??? [= <- <-]]|intros m; cbv beta].
  eapply hoare_bind; [apply hoare_same_sink; [apply top_put_method|by intros ??? [= <- <-]]|intros ?; cbv beta].
  apply (hoare_bind _ (fun _ => top recv)); [|intros ?; by apply top_ret].
  apply (hoare_bind _ (fun _ w => top recv w ∧ first_new (Servers config) w)); [apply reads_stable, get_method_reads|].
  intros [c cur pos| |]; cbv beta; try (by apply hoare_ret; intros w [? _]).
  eapply hoare_bind; [apply hoare_same_sink; [apply top_put_method|by intros ??? [= <- <-]]|intros ?; cbv beta].
  apply failover_reload_first.
Qed.

Lemma hoare_loadbalance_reloadConfig recv m config :
  hoare (fun w => top recv w ∧ first_new (Servers config) w) (loadbalance_reloadConfig m config) (fun _ => top recv).
Proof.
  eapply hoare_bind; [apply hoare_same_sink; [apply top_put_method|by intros ??? [= <- <-]]|intros ?; cbv beta].
  apply loadbalance_reload_first.
Qed.

Lemma hoare_newMethodLoadbalance recv config :
  hoare (fun w => top recv w ∧ first_new (Servers config) w) (newMethodLoadbalance config) (fun _ => top recv).
Proof.
  eapply hoare_bind; [apply hoare_same_sink; [apply top_alloc|by intros ??? [= <- <-]]|intros m; cbv beta].
  eapply hoare_bind; [apply hoare_same_sink; [apply top_put_method|by intros ??? [= <- <-]]|intros ?; cbv beta].
  apply (hoare_bind _ (fun _ => top recv)); [apply hoare_loadbalance_reloadConfig|intros ?; by apply top_ret].
Qed.

(** A new method on a sink that may have endpoints already. *)
Lemma hoare_initMethod recv config :
  hoare (fun w => top recv w ∧ pub_config (w_ext w) = config ∧ (method_name "random" config = true ∨ first_new (Servers config) w))
    initMethod (fun _ => top recv).
Proof.
  intros w a w' (HI & Hc & Hor) Hr. unfold initMethod, get_pub in Hr.
  rewrite (bind_run (gets w_ext) _ w (w_ext w) w) in Hr by done. rewrite Hc in Hr. revert Hr.
  match goal with |- ?m w = _ → _ =>
    enough (Hk : hoare (fun w => top recv w ∧ (method_name "random" config = true ∨ first_new (Servers config) w)) m (fun _ => top recv))
      by (intros Hr; by eapply Hk) end.
  clear. apply (hoare_bind _ (fun _ => top recv)); [|intros m; by apply top_update_pub].
  case_decide as Hm; [apply keeps_and, top_newMethodRandom|].
  assert (Hf : method_name "random" config = false) by (by apply bool_decide_eq_false).
  apply (hoare_conseq _ (fun w => top recv w ∧ first_new (Servers config) w) _ (fun _ => top recv));
    [|intros w [? [?|?]]; [congruence|done]|done].
  repeat case_decide; [apply hoare_newMethodFailover|apply hoare_newMethodLoadbalance|apply hoare_panic].
Qed.

(** ** What a reload of the sink leaves alone *)
Definition frame w0 w : Prop :=
  sk_endpoints (w_sink w) = sk_endpoints (w_sink w0) ∧ w_ext w = w_ext w0 ∧
  ∀ e, ep_server <$> w_endpoints w !! e = ep_server <$> w_endpoints w0 !! e.

Lemma frame_reads {A} w0 (m : M PW A) : reads m → keeps (frame w0) m.
Proof. intros Hm w a w' Hf Hr. by rewrite (Hm _ _ _ Hr). Qed.

Lemma frame_lists {A} w0 (m : M Mem A) : keeps (frame w0) (lists m).
Proof. intros w a w' Hf Hr. by destruct (lists_run _ _ _ _ Hr) as (s & _ & ->). Qed.

Lemma frame_ret {A} w0 (a : A) : keeps (frame w0) (mret a).
Proof. by apply hoare_ret. Qed.

(** Writing an endpoint that was read, with its server unchanged. *)
Lemma frame_put_endpoint w0 e ep ep' :
  ep_server ep' = ep_server ep → hoare (fun w => frame w0 w ∧ w_endpoints w !! e = Some ep) (put_endpoint e ep') (fun _ => frame w0).
Proof.
  intros Hs w a w' [(Hsk & Hx & He) Hep] [= <- <-]. split; [done|]. split; [done|]. intros e'. simpl. rewrite <-He.
  destruct (decide (e = e')) as [<-|]; [rewrite lookup_insert_eq, Hep; simpl; congruence|by rewrite lookup_insert_ne].
Qed.

Ltac frame_bind := apply keeps_bind; [first [apply frame_lists|apply frame_ret|apply frame_reads]|intros ?; cbv beta].

Lemma frame_ShutdownEndpoint w0 server : keeps (frame w0) (ShutdownEndpoint server).
Proof.
  unfold ShutdownEndpoint. frame_bind; [apply FindEndpoint_reads|]. case_match; [|apply frame_ret].
  frame_bind; [apply get_endpoint_reads|]. case_match; [apply frame_ret|].
  apply keeps_bind; [unfold leave_list; repeat case_match; first [apply frame_lists|apply frame_ret]|intros ?; cbv beta].
  apply keeps_bind.
  { eapply hoare_bind; [apply hoare_get_endpoint|intros ep; cbv beta]. by apply frame_put_endpoint. }
  intros ?; cbv beta. case_match; [apply frame_ret|]. frame_bind; [apply get_timeout_reads|].
  apply keeps_bind; [case_match; first [apply frame_lists|apply frame_ret]|intros ?; cbv beta].
  apply keeps_bind; [|intros ?; apply frame_ret].
  eapply hoare_bind; [apply hoare_get_endpoint|intros ep; cbv beta].
  case_match; [by apply frame_put_endpoint|by apply hoare_ret; intros w [? _]].
Qed.

Lemma frame_sink_ReloadConfig w0 config : keeps (frame w0) (sink_ReloadConfig config).
Proof.
  unfold sink_ReloadConfig. frame_bind; [apply gets_reads|]. frame_bind; [apply list_Front_reads|].
  match goal with |- keeps _ (reload_loop ?f _ ?e) => generalize f, e end. clear.
  intros fuel. induction fuel as [|fuel IH]; intros [e|]; simpl; try apply frame_ret; [apply hoare_fuel|].
  frame_bind; [apply get_endpoint_reads|].
  apply keeps_bind; [apply keeps_when, keeps_bind; [apply frame_ShutdownEndpoint|intros; apply frame_ret]|intros ?; cbv beta].
  frame_bind; [apply endpoint_Next_reads|]. apply IH.
Qed.

Lemma top_sink_ReloadConfig recv config : keeps (top recv) (sink_ReloadConfig config).
Proof.
  unfold sink_ReloadConfig. apply keeps_bind; [apply top_reads, gets_reads|intros n; cbv beta].
  apply keeps_bind; [apply top_reads, list_Front_reads|intros front; cbv beta]. generalize (S n), front. clear.
  intros fuel. induction fuel as [|fuel IH]; intros [e|]; simpl; try apply top_ret; [apply hoare_fuel|].
  apply keeps_bind; [apply top_reads, get_endpoint_reads|intros ep; cbv beta].
  apply keeps_bind; [apply keeps_when, keeps_bind; [apply top_ShutdownEndpoint|intros; apply top_ret]|intros ?; cbv beta].
  apply keeps_bind; [apply top_reads, endpoint_Next_reads|intros next; cbv beta]. apply IH.
Qed.

(** ** Reloads that keep the order *)

Definition is_random (o : option (method (F := F))) : bool :=
  match o with Some (MethodRandom _ _ _) => true | _ => false end.

(** The random method moves no endpoint; the others move the endpoint of the first
    server to the front, which is safe when it is new, or when it is the current
    one of a failover method that stays. *)
Definition reload_safe (config : Network F) w : bool :=
  let x := w_ext w in
  let o := pub_methods x !! pub_method x in
  let same := bool_decide (Method config = Method (pub_config x)) in
  (if same then is_random o else method_name "random" config) ||
  match Servers config with
  | [] => true
  | server :: _ =>
      bool_decide (sk_endpoints (w_sink w) !! server = None) ||
      same && match o with
              | Some (MethodFailover _ (Some q) _) => bool_decide (ep_server <$> w_endpoints w !! q = Some server)
              | _ => false
              end
  end.

(** What the method needs, on the store after the sink's reload. *)
Definition method_ready (config : Network F) (oldMethod : text) w : Prop :=
  let m := pub_method (w_ext w) in
  first_new (Servers config) w ∨
  (if bool_decide (Method config = oldMethod)
   then is_random (pub_methods (w_ext w) !! m) = true ∨ first_current m (Servers config) w
   else method_name "random" config = true).

Lemma reload_safe_ready config w : reload_safe config w = true → method_ready config (Method (pub_config (w_ext w))) w.
Proof.
  unfold reload_safe, method_ready. intros [Hx|Hx]%orb_true_elim.
  { right. case_bool_decide; [by left|done]. }
  destruct (Servers config) as [|server servers] eqn:Es; [left; by intros s|]. apply orb_true_elim in Hx as [Hx|Hx].
  - left. intros s [= <-]. by apply bool_decide_eq_true_1 in Hx.
  - right. apply andb_true_iff in Hx as [-> Hx]. right.
    destruct (pub_methods _ !! _) as [[c [q|] position| |]|] eqn:Em; [|done..].
    exists c, q, position. split; [done|]. by apply bool_decide_eq_true_1 in Hx.
Qed.

Lemma frame_ready config old w w' : frame w w' → method_ready config old w → method_ready config old w'.
Proof.
  intros (Hsk & Hx & He) [Hn|Hm]; [left|right].
  - intros s Hs. rewrite Hsk. by apply Hn.
  - rewrite Hx. case_bool_decide; [|done]. destruct Hm as [?|(c & q & position & Hp & Hq)]; [by left|right].
    exists c, q, position. by rewrite Hx, He.
Qed.

Lemma top_random_reloadConfig recv m config : keeps (top recv) (random_reloadConfig m config).
Proof.
  unfold random_reloadConfig. apply keeps_bind; [apply top_reads, get_method_reads|intros o; cbv beta].
  destruct o; try apply top_ret. apply keeps_bind; [apply top_deref|intros s; cbv beta].
  apply keeps_bind; [apply top_put_method|intros ?; cbv beta]. apply keeps_bind; [apply top_reads, list_Front_reads|intros [e|]; cbv beta]; [|apply top_ret].
  case_decide; (apply keeps_bind; [first [apply top_ReloadConfig|apply top_ShutdownEndpoint]|intros; apply top_ret]).
Qed.

Lemma hoare_get_method P m :
  hoare P (get_method m) (fun o w => P w ∧ pub_methods (w_ext w) !! m = Some o).
Proof.
  intros w o w' HP. unfold get_method, get_pub. monad.
  destruct (pub_methods _ !! m) as [o'|] eqn:E; [|done]. intros [= <- <-]. done.
Qed.

Lemma hoare_failover_reloadConfig recv m config :
  hoare (fun w => top recv w ∧ (first_new (Servers config) w ∨ first_current m (Servers config) w))
    (failover_reloadConfig m config) (fun _ => top recv).
Proof.
  eapply hoare_bind; [apply hoare_get_method|intros o; cbv beta].
  destruct o as [c current position| |]; [|by apply hoare_ret; intros w [[? _] _]..].
  apply (hoare_bind _ (fun _ w => top recv w ∧ (first_new (Servers config) w ∨ first_current m (Servers config) w))).
  - intros w a w' [[HI Hor] Ho] Hr. split; [by eapply top_put_method|]. injection Hr as _ <-.
    destruct Hor as [Hn|(c' & q & position' & Hp & Hq)]; [by left|right].
    rewrite Ho in Hp. injection Hp as -> -> ->. exists config, q, position'. split; [|done]. apply lookup_insert_eq.
  - intros _; cbv beta. intros w a w' [HI [Hn|Hc]] Hr; [by eapply failover_reload_first|by eapply failover_reload_current].
Qed.

Lemma hoare_method_reload recv config old :
  hoare (fun w => top recv w ∧ pub_config (w_ext w) = config ∧ method_ready config old w)
    (if negb (bool_decide (Method config = old)) then initMethod else method_reloadConfig config) (fun _ => top recv).
Proof.
  unfold method_ready. case_bool_decide as Hm; cbv zeta; cbn [negb].
  - unfold method_reloadConfig, get_pub. intros w a w' (HI & _ & Hor).
    rewrite (bind_run (gets w_ext) _ w (w_ext w) w) by done. unfold get_method at 1, get_pub. monad.
    destruct (pub_methods (w_ext w) !! pub_method (w_ext w)) as [[c cur position|c|c n k]|] eqn:Eo; cbn beta iota; [| | |done].
    + intros Hr. eapply hoare_failover_reloadConfig; [split; [exact HI|]|exact Hr].
      destruct Hor as [?|[?|?]]; [by left|done|by right].
    + intros Hr. eapply hoare_loadbalance_reloadConfig; [split; [exact HI|]|exact Hr].
      destruct Hor as [?|[?|(c' & q & position & Hp & _)]]; [done|done|congruence].
    + intros Hr. by eapply top_random_reloadConfig.
  - eapply hoare_conseq; [apply (hoare_initMethod recv config)| |done].
    intros w (HI & Hc & [?|?]); (split; [done|split; [done|]]); [by right|by left].
Qed.

Lemma hoare_reloadConfig recv config :
  hoare (fun w => top recv w ∧ reload_safe config w = true) (pub_reloadConfig config) (fun _ => top recv).
Proof.
  intros w a w' [HI Hs]. apply reload_safe_ready in Hs. unfold pub_reloadConfig, get_pub.
  rewrite (bind_run (gets w_ext) _ w (w_ext w) w) by done. cbv zeta. set (old := Method (pub_config (w_ext w))) in *.
  set (w1 := set_ext (p_set_config config (w_ext w)) w).
  rewrite (bind_run (put_pub _) _ w tt w1) by done.
  assert (HI1 : top recv w1).
  { by apply (top_update_pub recv (p_set_config config) (fun _ => conj eq_refl (conj eq_refl (conj eq_refl eq_refl))) w tt w1 HI). }
  assert (Hc1 : pub_config (w_ext w1) = config) by done.
  assert (Hr1 : method_ready config old w1) by exact Hs.
  clearbody w1 old. clear HI Hs w. revert a w'.
  match goal with |- ∀ a w', ?m _ = _ → _ => enough (Hk : hoare (fun w => top recv w ∧ frame w1 w) m (fun _ => top recv)) end.
  { intros a w' Hr. eapply Hk; [|exact Hr]. by split. }
  apply (hoare_bind _ (fun _ w => top recv w ∧ frame w1 w)).
  { intros w a w' [HI Hf] Hr. split; [by eapply top_sink_ReloadConfig|by eapply frame_sink_ReloadConfig]. }
  intros ?; cbv beta. apply (hoare_bind _ (fun _ => top recv)).
  - eapply hoare_conseq; [apply (hoare_method_reload recv config old)| |done].
    intros w [HI Hf]. split; [done|]. split; [|by eapply frame_ready]. destruct Hf as (_ & -> & _). done.
  - intros ?; cbv beta. apply keeps_bind; [by apply keeps_tryQueueHeld|intros; apply top_ret].
Qed.

(** ** Inputs and runs *)

(** What is received from the spooler by an input that is selected. *)
Definition input_events (i : pub_input (F := F)) : list EventDescriptor :=
  match i with InSpool evs => evs | _ => [] end.

Definition input_safe (i : pub_input (F := F)) w : bool :=
  match i with InConfig config => reload_safe config w | _ => true end.

Lemma hoare_runOnce recv i :
  hoare (fun w => top recv w ∧ selectable i w = true ∧ input_safe i w = true) (runOnce i) (fun _ => top (recv ++ input_events i)).
Proof.
  destruct i as [ev|evs| | |config|]; simpl; rewrite ?app_nil_r.
  - apply keeps_and.
    apply keeps_bind; [by apply top_ProcessEvent|intros ?; cbv beta].
    apply keeps_bind; [by apply top_reads, gets_reads|intros ?; cbv beta].
    apply keeps_bind; [by apply top_reads, sink_Count_reads|intros ?; by apply top_ret].
  - apply (hoare_bind _ (fun _ => top (recv ++ evs))); [|intros ?; by apply hoare_ret].
    eapply hoare_conseq; [by apply hoare_receive_spool|by intros w (? & ? & _)|done].
  - apply keeps_and.
    apply keeps_bind; [by apply top_ProcessTimeouts|intros ?; by apply top_ret].
  - apply keeps_and.
    apply keeps_bind; [by apply top_takeMeasurements|intros ?; by apply top_ret].
  - apply (hoare_bind _ (fun _ => top recv)); [|intros ?; by apply top_ret].
    eapply hoare_conseq; [apply hoare_reloadConfig|by intros w (? & _ & ?)|done].
  - apply keeps_and.
    eapply hoare_after2; [by apply top_shutdown|].
    apply keeps_bind; [by apply top_reads, sink_Count_reads|intros ?; by apply top_ret].
Qed.

(** The events received during a run. *)
Fixpoint received (is_ : list (pub_input (F := F))) w : list EventDescriptor :=
  match is_ with
  | [] => []
  | i :: is_' =>
      if selectable i w then
        input_events i ++
        match runOnce i w with
        | Ret (false, w') => received is_' w'
        | _ => []
        end
      else received is_' w
  end.

(** Every configuration a run receives is safe to reload when it is received. *)
Fixpoint run_safe (is_ : list (pub_input (F := F))) w : bool :=
  match is_ with
  | [] => true
  | i :: is_' =>
      if selectable i w then
        input_safe i w &&
        match runOnce i w with
        | Ret (false, w') => run_safe is_' w'
        | _ => true
        end
      else run_safe is_' w
  end.

Lemma top_pub_run recv is_ w b w' :
  run_safe is_ w = true → top recv w → pub_run is_ w = Ret (b, w') → top (recv ++ received is_ w) w'.
Proof.
  revert recv w. induction is_ as [|i is_ IH]; intros recv w Hsafe HI; simpl in *.
  - intros [= <- <-]. by rewrite app_nil_r.
  - monad. destruct (selectable i w) eqn:Hs; [|by apply IH].
    apply andb_true_iff in Hsafe as [Hi Hsafe].
    destruct (runOnce i w) as [[stop w1]| |] eqn:E; [|done..].
    pose proof (hoare_runOnce recv i w stop w1 (conj HI (conj Hs Hi)) E) as HI1.
    destruct stop; [|intros Hr; rewrite app_assoc; by eapply IH].
    rewrite app_nil_r. intros Hr. revert Hr. monad. unfold update_pub, get_pub, put_pub. monad. intros [= <- <-].
    destruct HI1 as (tl & pv & HI1 & Hc). exists tl, pv. split; [|done].
    eapply agree_inv; [|exact HI1]. repeat split. unfold log_of. simpl. by rewrite spool_log_close.
Qed.

(** Histories without a reload are safe. *)
Definition no_reload (i : pub_input (F := F)) : bool := match i with InConfig _ => false | _ => true end.

Lemma no_reload_safe is_ w : forallb no_reload is_ = true → run_safe is_ w = true.
Proof.
  revert w. induction is_ as [|i is_ IH]; intros w Hall; [done|]. simpl in *. apply andb_true_iff in Hall as [Hi Hall].
  destruct (selectable i w); [|by apply IH]. apply andb_true_iff. split; [by destruct i|].
  destruct (runOnce i w) as [[[|] w']| |]; try done. by apply IH.
Qed.

(** A new publisher satisfies the invariant. *)
Lemma top_NewPublisher config api spool w :
  NewPublisher (T := T) (IP := IP) config api spool = Ret (tt, w) → top (spool_log spool) w.
Proof.
  intros Hnew. eapply (hoare_initMethod (spool_log spool) config); [|exact Hnew].
  split; [apply top_initial|]. split; [done|]. right. intros s _. simpl. by rewrite lookup_empty.
Qed.

(** ** Reading the invariant back *)
Lemma top_payloads recv w :
  top recv w → ∃ ps pls tl, iterate payloadList w = Ret (ps, w) ∧ Forall2 (fun p pl => w_payloads w !! p = Some pl) ps pls ∧
    log_of w ++ concat (events <$> pls) ++ tl = recv ∧ (shuttingDown (w_ext w) = false → tl = default [] (nextSpool (w_ext w))).
Proof.
  intros (tl & pv & [Γ Hi] & Hc). pose proof Hi as [Hr Hm Hp Hf Ho (ps & pls & Hps & Hpls & Heq) Hv].
  exists ps, pls, tl. split; [|split; [done|split; [done|]]].
  - unfold iterate, lists. monad. rewrite (traverse_run _ Γ); [|done|].
    + rewrite Hps. f_equal. f_equal; [|by destruct w]. clear. induction ps as [|p ps IH]; [done|]. csimpl. by rewrite IH.
    + apply le_S. rewrite <-(length_fmap Node). rewrite <-size_dom.
      rewrite <-(size_list_to_set (C := gset addr) (Node <$> Γ payloadList))
        by (apply NoDup_fmap_2; [intros ? ? [=]; done|apply Hr]).
      apply subseteq_size. intros a. rewrite elem_of_list_to_set, list_elem_of_fmap. intros (n & -> & Hn).
      apply (rep_member _ _ Hr) in Hn. rewrite elem_of_dom. unfold elem in Hn.
      destruct (elems (w_mem w) !! Node n); [by eexists|done].
  - unfold pubview in Hv. subst pv. apply Hc.
Qed.
End Reload.
