(* ===== verification/PublisherProps.v ===== *)
(** * Properties of the publisher

    The order of acknowledgements for every history, then what a forced failure
    does to the payloads of an endpoint, and concrete histories of reloads and of
    a transport whose [Write] fails. *)
From S2P Require Import Prelude InternalList Core Payload Codecs AdminApi AddressPool Transports Endpoint Registrar Publisher PublisherOrder PublisherReload.

(** ** A concrete environment, transport and spooler *)
#[export] Program Instance example_env : Env := {
  clock n := (Z.of_nat n * Second)%Z;
  rand_Intn n k := (if decide (0 < k) then Z.of_nat n mod k else 0)%Z;
  map_order _ ks := ks;
  math_Exp f := f;
}.
Next Obligation. intros n. unfold Second. lia. Qed.
Next Obligation. intros n k Hk. simpl. rewrite decide_True by done. by apply Z.mod_pos_bound. Qed.
Next Obligation. done. Qed.

(** A transport that records its writes; the factory is the number of writes it
    accepts before failing. *)
Record recorder := mkRecorder { writes : list (text * list EventDescriptor); accepts : nat; failed_calls : nat; shutdown_calls : nat }.

Definition example_write (n : text) (evs : list EventDescriptor) (t : recorder) : option go_error * recorder :=
  match accepts t with
  | O => (Some (bytes_of "write"), t)
  | S k => (None, mkRecorder (writes t ++ [(n, evs)]) k (failed_calls t) (shutdown_calls t))
  end.

#[export] Instance example_transport : Transport recorder nat := {
  NewTransport k _ := mkRecorder [] k 0 0;
  transport_Fail t := mkRecorder (writes t) (accepts t) (S (failed_calls t)) (shutdown_calls t);
  transport_Ping t := (None, t);
  transport_ReloadConfig _ _ t := (false, t);
  transport_Shutdown t := mkRecorder (writes t) (accepts t) (failed_calls t) (S (shutdown_calls t));
  transport_Write := example_write;
}.

(** One that accepts everything. *)
#[export] Instance accepting_transport : Transport (list (list EventDescriptor)) unit := {
  NewTransport _ _ := [];
  transport_Fail t := t;
  transport_Ping t := (None, t);
  transport_ReloadConfig _ _ t := (false, t);
  transport_Shutdown t := t;
  transport_Write _ evs t := (None, t ++ [evs]);
}.

#[export] Instance log_spooler : EventSpooler (list EventDescriptor) acked := {
  spool_Add e s := s ++ e; spool_Send s := s; spool_Close s := s }.

#[export] Program Instance log_spooler_log : SpoolerLog (list EventDescriptor) := { spool_log s := s }.
Next Obligation. done. Qed.
Next Obligation. done. Qed.
Next Obligation. done. Qed.

Definition example_config {F : Type} (f : F) (method_ : string) (servers : list string) : Network F :=
  mkNetwork f (5 * Second) (60 * Second) (15 * Second) 10 (bytes_of method_) (bytes_of <$> servers)
    (Pos.of_nat <$> seq 100 (length servers)).

Definition example_run {T F : Type} `{Transport T F} (c : Network F) (is_ : list pub_input) :=
  match NewPublisher (T := T) (IP := unit) c true ([] : list EventDescriptor) with
  | Ret (_, w) => pub_run is_ w
  | Panic => Panic
  | NoFuel => NoFuel
  end.

Definition example_ev (n : Z) : EventDescriptor := mkEventDescriptor None n [].

(** The nonce drawn from the read numbered [k] on. *)
Definition example_nonce (k : nat) : text := Z_byte <$> (Z.of_nat <$> seq k 16).

Section Properties.
Context {T F IP R : Type} `{Transport T F} `{Env} `{SpoolerLog R}.

(** C3. From a new publisher with any method, through any history of transport
    events, spools, timeouts, measurements, a shutdown and configuration reloads
    that are safe when they come (see [reload_safe]: the method is or becomes
    random, or the first server listed is new, or it is the current one of a
    failover method), for transports whose [Write] does not fail: the events
    passed to the registrar so far, then those of the payloads still in the
    publisher's list, then those held back, are exactly the events received from
    the spooler, in the order received.  So the registrar only ever sees a prefix
    of what was read: no event is lost, acknowledged twice or out of order,
    however endpoints fail and acknowledge. *)
Theorem publisher_order (config : Network F) api (spool : R) is_ w0 b
    (w : World (T := T) (IP := IP) (X := Publisher (F := F) (R := R))) :
  (∀ nonce evs t, fst (transport_Write (T := T) (F := F) nonce evs t) = None) →
  NewPublisher config api spool = Ret (tt, w0) → run_safe is_ w0 = true → pub_run is_ w0 = Ret (b, w) →
  ∃ ps pls held, iterate payloadList w = Ret (ps, w) ∧
    Forall2 (fun p pl => w_payloads w !! p = Some pl) ps pls ∧
    spool_log (registrarSpool (w_ext w)) ++ concat (events <$> pls) ++ held = spool_log spool ++ received is_ w0 ∧
    (shuttingDown (w_ext w) = false → held = default [] (nextSpool (w_ext w))).
Proof.
  intros Hw Hnew Hsafe Hrun.
  exact (top_payloads _ _ (top_pub_run Hw _ _ _ _ _ Hsafe (top_NewPublisher _ _ _ _ Hnew) Hrun)).
Qed.

(** A failure forced on an active endpoint (a network timeout, an unanswered
    ping, a failed write) leaves every pending payload with the endpoint: the
    observer is not told, and the failure the transport itself reports afterwards
    is ignored.  Nothing is put on the resend list, so those payloads wait on an
    endpoint that will not send them again, and hold up the acknowledgements of
    all later events. *)
Theorem forced_failure_keeps_pending e ep o
    (w w' : World (T := T) (F := F) (IP := IP) (X := Publisher (F := F) (R := R))) :
  w_endpoints w !! e = Some ep → IsActive ep = true →
  (sink_ForceFailure e;; ProcessEvent (StatusEvent e Failed) o) w = Ret (tt, w') →
  ∃ ep', w_endpoints w' !! e = Some ep' ∧ IsFailed ep' = true ∧
    pendingPayloads ep' = pendingPayloads ep ∧ numPayloads ep' = numPayloads ep ∧
    w_payloads w' = w_payloads w ∧ w_ext w' = w_ext w.
Proof.
  intros He Hact. assert (Hst : ep_status ep = endpointStatusActive) by (by apply bool_decide_eq_true_1 in Hact).
  unfold sink_ForceFailure, moveFailed, ClearTimeout, forceFailure, update_endpoint, get_timeout, get_endpoint, put_endpoint.
  unfold IsFailed, IsAlive, IsIdle, IsClosing, IsActive. monad. rewrite He, Hst. monad. simpl.
  rewrite He. monad. rewrite Hst. simpl.
  destruct (w_timeouts w !! e) as [y|]; [|done]. monad.
  assert (Hlists : ∀ (m : M Mem unit) (v v' : World (T := T) (F := F) (IP := IP) (X := Publisher (F := F) (R := R))) u,
    lists m v = Ret (u, v') → w_endpoints v' = w_endpoints v ∧ w_payloads v' = w_payloads v ∧ w_ext v' = w_ext v).
  { intros m v v' u Hr. by destruct (lists_run _ _ _ _ Hr) as (s & _ & ->). }
  assert (Hlists' : ∀ (m : M Mem (option addr)) (v v' : World (T := T) (F := F) (IP := IP) (X := Publisher (F := F) (R := R))) u,
    lists m v = Ret (u, v') → w_endpoints v' = w_endpoints v ∧ w_payloads v' = w_payloads v ∧ w_ext v' = w_ext v).
  { intros m v v' u Hr. by destruct (lists_run _ _ _ _ Hr) as (s & _ & ->). }
  assert (Hclear : ∀ (c : option callback) (v v' : World (T := T) (F := F) (IP := IP) (X := Publisher (F := F) (R := R))) u,
    match c with None => mret tt | Some _ => lists (Remove timeoutList (Node (timeoutElement e))) end v = Ret (u, v') →
    w_endpoints v' = w_endpoints v ∧ w_payloads v' = w_payloads v ∧ w_ext v' = w_ext v).
  { intros [c|] v v' u; [apply Hlists|by intros [= _ <-]]. }
  match goal with |- context [(match timeoutFunc y with Some _ => ?f | None => ?g end) w] =>
    destruct ((match timeoutFunc y with Some _ => f | None => g end) w) as [[u1 w1]| |] eqn:E1 end; [|done..].
  apply Hclear in E1 as (He1 & Hp1 & Hx1).
  destruct (lists (Remove readyList _) w1) as [[u2 w2]| |] eqn:E2; [|done..].
  apply Hlists in E2 as (He2 & Hp2 & Hx2). rewrite He2, He1, He. monad.
  destruct (lists (PushFront failedList _) _) as [[u3 w3]| |] eqn:E3; [|done..].
  apply Hlists' in E3 as (He3 & Hp3 & Hx3). simpl in He3, Hp3, Hx3. monad. simpl.
  rewrite He3, He2, He1, lookup_insert_eq. monad. simpl.
  unfold moveFailed, get_endpoint, IsAlive, IsIdle, IsFailed, IsActive, IsClosing. monad. simpl. rewrite ?lookup_insert_eq. monad. simpl.
  intros [= <-]. simpl. eexists. rewrite lookup_insert_eq. split; [reflexivity|]. simpl.
  repeat split; congruence.
Qed.
End Properties.

(** ** Concrete histories *)
Definition started {F : Type} (e : positive) : pub_input (F := F) := InEvent (StatusEvent e Started).
Definition failed {F : Type} (e : positive) : pub_input (F := F) := InEvent (StatusEvent e Failed).
Definition acked_event {F : Type} (e : positive) (k : nat) (n : Z) : pub_input (F := F) := InEvent (AckEvent e (example_nonce k) n).

Definition two_servers (method_ : string) : Network unit := example_config tt method_ ["a:1"; "b:1"]%string.
Definition spool_1 : list EventDescriptor := [example_ev 1; example_ev 2].
Definition spool_2 : list EventDescriptor := [example_ev 3; example_ev 4; example_ev 5].

(** Acknowledged in the opposite order. *)
Definition history_reordered : list (pub_input (F := unit)) :=
  [started 2; started 3; InSpool spool_1; InSpool spool_2; acked_event 3 23 3; acked_event 2 4 2].

(** The first endpoint fails and the second takes over its payload. *)
Definition history_failing : list (pub_input (F := unit)) :=
  [started 2; started 3; InSpool spool_1; InSpool spool_2; acked_event 3 23 3; failed 2; acked_event 3 4 2].

(** Load balancing is replaced by the random method while payloads are in flight:
    the first endpoint is kept and the second closes once it has acknowledged. *)
Definition history_reloading : list (pub_input (F := unit)) :=
  [started 2; started 3; InSpool spool_1; InSpool spool_2; InConfig (two_servers "random"); acked_event 3 23 3;
   InEvent (StatusEvent 3%positive Finished); acked_event 2 4 2].

Definition run_log {T F : Type} (r : outcome (bool * World (T := T) (F := F) (IP := unit)
    (X := Publisher (F := F) (R := list EventDescriptor)))) : option (list EventDescriptor) :=
  match r with Ret (_, w) => Some (registrarSpool (w_ext w)) | _ => None end.

Example history_reordered_log :
  run_log (T := list (list EventDescriptor)) (example_run (two_servers "loadbalance") history_reordered) = Some (spool_1 ++ spool_2).
Proof. vm_compute. reflexivity. Qed.

Example history_failing_log :
  run_log (T := list (list EventDescriptor)) (example_run (two_servers "loadbalance") history_failing) = Some (spool_1 ++ spool_2).
Proof. vm_compute. reflexivity. Qed.

Example history_reloading_log :
  run_log (T := list (list EventDescriptor)) (example_run (two_servers "loadbalance") history_reloading) = Some (spool_1 ++ spool_2).
Proof. vm_compute. reflexivity. Qed.

Lemma publisher_order_witness :
  match NewPublisher (T := list (list EventDescriptor)) (IP := unit) (two_servers "loadbalance") true ([] : list EventDescriptor) with
  | Ret (_, w0) =>
      match pub_run history_reloading w0 with
      | Ret (_, w) => ∃ ps pls held, iterate payloadList w = Ret (ps, w) ∧
          Forall2 (fun p pl => w_payloads w !! p = Some pl) ps pls ∧
          spool_log (registrarSpool (w_ext w)) ++ concat (events <$> pls) ++ held = received history_reloading w0 ∧
          (shuttingDown (w_ext w) = false → held = default [] (nextSpool (w_ext w)))
      | _ => False
      end
  | _ => False
  end.
Proof.
  assert (Hrun : match NewPublisher (T := list (list EventDescriptor)) (IP := unit) (two_servers "loadbalance") true ([] : list EventDescriptor) with
    | Ret (_, w0) => match pub_run history_reloading w0 with Ret _ => run_safe history_reloading w0 = true | _ => False end
    | _ => False end) by (vm_compute; reflexivity).
  destruct (NewPublisher _ _ _) as [[[] w0]| |] eqn:E0; [|done..].
  destruct (pub_run history_reloading w0) as [[b w]| |] eqn:E1; [|done..].
  exact (publisher_order _ _ _ history_reloading _ _ _ ltac:(done) E0 Hrun E1).
Defined.

Lemma forced_failure_keeps_pending_witness :
  match example_run (T := list (list EventDescriptor)) (two_servers "loadbalance") [started 2; started 3; InSpool spool_1] with
  | Ret (_, w) =>
      match w_endpoints w !! 2%positive, (sink_ForceFailure 2;; ProcessEvent (StatusEvent 2%positive Failed) observer) w with
      | Some ep, Ret (_, w') => ∃ ep', w_endpoints w' !! 2%positive = Some ep' ∧ IsFailed ep' = true ∧
          pendingPayloads ep' = pendingPayloads ep ∧ numPayloads ep' = numPayloads ep ∧
          w_payloads w' = w_payloads w ∧ w_ext w' = w_ext w
      | _, _ => False
      end
  | _ => False
  end.
Proof.
  assert (Hrun : match example_run (T := list (list EventDescriptor)) (two_servers "loadbalance") [started 2; started 3; InSpool spool_1] with
    | Ret (_, w) => match w_endpoints w !! 2%positive, (sink_ForceFailure 2;; ProcessEvent (StatusEvent 2%positive Failed) observer) w with
      | Some ep, Ret (_, w') => IsActive ep = true
      | _, _ => False end
    | _ => False end) by (vm_compute; reflexivity).
  destruct (example_run _ _) as [[b w]| |]; [|done..].
  destruct (w_endpoints w !! 2%positive) as [ep|] eqn:Ee; [|done].
  destruct ((sink_ForceFailure 2;; ProcessEvent (StatusEvent 2%positive Failed) observer) w) as [[[] w']| |] eqn:Er; [|done..].
  exact (forced_failure_keeps_pending _ _ _ _ _ Ee Hrun Er).
Defined.

(** ** Configuration reloads *)
Definition last_world {T F : Type} (r : outcome (bool * World (T := T) (F := F) (IP := unit)
    (X := Publisher (F := F) (R := list EventDescriptor)))) :=
  match r with Ret (_, w) => Some w | _ => None end.

Lemma reload_loop_stuck {T F IP X : Type} `{Transport T F} `{Env} (w : World (T := T) (F := F) (IP := IP) (X := X)) e ep config :
  w_endpoints w !! e = Some ep → ep_server ep ∈ Servers config → endpoint_Next e w = Ret (Some e, w) →
  ∀ fuel, reload_loop fuel config (Some e) w = NoFuel.
Proof.
  intros He Hs Hn fuel. induction fuel as [|fuel IH]; [done|]. cbn [reload_loop].
  rewrite (bind_run (get_endpoint e) _ w ep w) by (unfold get_endpoint; monad; by rewrite He).
  rewrite bool_decide_true by done. cbn [negb].
  change ((endpoint_Next e ≫= λ next, reload_loop fuel config next) w = NoFuel). by rewrite (bind_run _ _ _ _ _ Hn).
Qed.

(** With the loadbalance method, reloading the very configuration the
    publisher was started with leaves the sink's ordered list cyclic, so that the
    loop of the next reload over the endpoints never ends. *)
Theorem loadbalance_reload_never_ends fuel (config := two_servers "loadbalance") :
  match last_world (example_run (T := list (list EventDescriptor)) config [InConfig config]) with
  | Some w => (front ← sink_Front; reload_loop fuel config front) w = NoFuel
  | None => False
  end.
Proof.
  assert (Hw : match last_world (example_run (T := list (list EventDescriptor)) config [InConfig config]) with
    | Some w => match w_endpoints w !! 2%positive with Some ep => ep_server ep = bytes_of "a:1" | None => False end ∧
        endpoint_Next 2 w = Ret (Some 2%positive, w) ∧ sink_Front w = Ret (Some 2%positive, w)
    | None => False end) by (vm_compute; repeat split).
  destruct (last_world _) as [w|]; [|done]. destruct Hw as (He & Hn & Hf).
  destruct (w_endpoints w !! 2%positive) as [ep|] eqn:E; [|done].
  rewrite (bind_run _ _ _ _ _ Hf). apply (reload_loop_stuck w 2 ep config); [done| |done].
  rewrite He. simpl. set_solver.
Qed.

(** With the failover method the same reload closes the endpoint in use. *)
Example failover_reload_closes (config := example_config 5 "failover" ["a:1"; "b:1"]%string) :
  match last_world (example_run (T := recorder) config [started 3; InSpool spool_1; InConfig config]) with
  | Some w => ep_status <$> w_endpoints w !! 3%positive = Some endpointStatusClosing
  | None => False
  end.
Proof. vm_compute. reflexivity. Qed.

(** ** A transport whose [Write] fails *)

(** The spool whose send failed stays in the publisher's list and is held as well:
    it is pending twice, and its first copy is never sent again. *)
Example failed_write_duplicates (config := example_config 0 "loadbalance" ["a:1"; "b:1"]%string) :
  match last_world (example_run (T := recorder) config [started 2; started 3; InSpool spool_1]) with
  | Some w => nextSpool (w_ext w) = Some spool_1 ∧
      match iterate payloadList w with
      | Ret (ps, _) => (fun p => events <$> w_payloads w !! p) <$> ps = [Some spool_1]
      | _ => False
      end
  | None => False
  end.
Proof. vm_compute. split; reflexivity. Qed.

(** A resend whose [Write] fails panics on the nil endpoint. *)
Example failed_resend_panics (config := example_config 1 "failover" ["a:1"]%string) :
  example_run (T := recorder) config [started 3; InSpool spool_1; failed 3; started 3; InTimeout] = Panic.
Proof. vm_compute. reflexivity. Qed.

(** A payload that times out is stranded on its endpoint even when that endpoint
    recovers: it is active, with a pending payload it wrote only once. *)
Example timed_out_payload_stranded (config := example_config 5 "loadbalance" ["a:1"; "b:1"]%string) :
  match last_world (example_run (T := recorder) config
    [started 2; started 3; InSpool spool_1; InTimeout; failed 2; started 2; InTimeout]) with
  | Some w => match w_endpoints w !! 2%positive with
      | Some ep => ep_status ep = endpointStatusActive ∧ size (pendingPayloads ep) = 1 ∧ length (writes (transport ep)) = 1
      | None => False
      end
  | None => False
  end.
Proof. vm_compute. repeat split. Qed.
