(* ===== verification/ConfigParser.v ===== *)
(** * lc-lib/config: json.go and parser.go

    The comment stripper in front of the JSON decoder, and the reflective copy of a
    decoded configuration into the program's structures.  A decoded configuration
    is a tree of values; the decoders themselves are parameters.  A structure is
    described by the list of its fields, in declaration order, each with the code
    the reflection selects for its type. *)
From stdpp Require Import pretty.
From S2P Require Import Prelude Core Codecs.

(** ** json.go: comments *)
Inductive strip_state :=
| MainBody            (* 0 *)
| DoubleQuoted        (* 1 *)
| SingleQuoted        (* 2 *)
| LineComment         (* 3 *)
| PotentialStart      (* 4 *)
| DoubleEscape        (* 5 *)
| SingleEscape        (* 6 *)
| BlockComment        (* 7 *)
| PotentialEnd.       (* 8 *)

Definition dquote : byte := "034"%byte.
Definition squote : byte := "'"%byte.
Definition hash : byte := "#"%byte.
Definition fslash : byte := "/"%byte.
Definition star : byte := "*"%byte.
Definition backslash : byte := "\"%byte.
Definition carriage_return : byte := "013"%byte.

(** The loop over the rest of the buffer: [s] is where the text not yet written
    starts, [p] the position, [stripped] what was written. *)
Fixpoint strip_loop (buffer rest : text) (st : strip_state) (s p : Z) (stripped : text) : outcome text :=
  match rest with
  | [] =>
      match slice buffer s p with Some t => Ret (stripped ++ t) | None => Panic end
  | b :: rest' =>
      let next st' := strip_loop buffer rest' st' s (p + 1) stripped in
      match st with
      | MainBody =>
          if decide (b = dquote) then next DoubleQuoted
          else if decide (b = squote) then next SingleQuoted
          else if decide (b = hash) then
            match slice buffer s p with
            | Some t => strip_loop buffer rest' LineComment s (p + 1) (stripped ++ t)
            | None => Panic
            end
          else if decide (b = fslash) then next PotentialStart
          else next MainBody
      | DoubleQuoted =>
          if decide (b = backslash) then next DoubleEscape
          else if decide (b = dquote) then next MainBody else next DoubleQuoted
      | SingleQuoted =>
          if decide (b = backslash) then next SingleEscape
          else if decide (b = squote) then next MainBody else next SingleQuoted
      | LineComment =>
          if decide (b = carriage_return ∨ b = newline)
          then strip_loop buffer rest' MainBody (p + 1) (p + 1) stripped
          else next LineComment
      | PotentialStart =>
          if decide (b = star) then
            match slice buffer s (p - 1) with
            | Some t => strip_loop buffer rest' BlockComment s (p + 1) (stripped ++ t)
            | None => Panic
            end
          else next MainBody
      | DoubleEscape => next DoubleQuoted
      | SingleEscape => next SingleQuoted
      | BlockComment => if decide (b = star) then next PotentialEnd else next BlockComment
      | PotentialEnd =>
          if decide (b = fslash) then strip_loop buffer rest' MainBody (p + 1) (p + 1) stripped
          else next BlockComment
      end
  end.

Definition strip_comments (buffer : text) : outcome text := strip_loop buffer buffer MainBody 0 0 [].

(** ** json.go: pretty errors *)

(** [bytes.LastIndex(t, "\n")], -1 if there is none. *)
Fixpoint LastIndexFrom (t : text) (i found : Z) : Z :=
  match t with
  | [] => found
  | b :: t' => LastIndexFrom t' (i + 1) (if decide (b = newline) then i else found)
  end.

Definition LastIndex (t : text) : Z := LastIndexFrom t 0 (-1).

Fixpoint Index_newline (t : text) (i : Z) : Z :=
  match t with
  | [] => -1
  | b :: t' => if decide (b = newline) then i else Index_newline t' (i + 1)
  end.

Definition Count_newline (t : text) : Z := zlen (filter (fun b => b = newline) t).

(** The line shown, its number and the column of the caret. *)
Record syntax_report := mkReport { rp_line : text; rp_number : Z; rp_pos : Z }.

Definition parseJSONSyntaxError (js : text) (offset : Z) : outcome syntax_report :=
  head ← (match slice js 0 offset with Some t => Ret t | None => Panic end);
  let start := (LastIndex head + 1)%Z in
  tail ← (match slice js start (zlen js) with Some t => Ret t | None => Panic end);
  let e := Index_newline tail 0 in
  let end_ := if decide (0 ≤ e)%Z then (e + start)%Z else zlen js in
  before ← (match slice js 0 start with Some t => Ret t | None => Panic end);
  line ← (match slice js start end_ with Some t => Ret t | None => Panic end);
  let pos := (offset - start - 1)%Z in
  Ret (mkReport line (Count_newline before) (if decide (0 < pos)%Z then pos else 0%Z)).

(** ** Decoded configurations

    What [json.Unmarshal] and [yaml.Unmarshal] leave in an [interface{}]: JSON
    numbers are floats and JSON maps have string keys; YAML integers are ints and
    YAML maps have keys of any type ([iface]). *)
#[warnings="-register-all"] Inductive value :=
| VNil
| VBool (b : bool)
| VFloat (f : float64)
| VInt (z : Z)
| VString (s : text)
| VSlice (vs : list value)
| VMap (iface : bool) (kvs : list (value * value)).

Inductive config_error :=
| MustBeArray (option_ : text)
| MustBeMap (option_ : text)
| BadDuration (option_ : text)
| NotADuration (option_ : text)
| BadLogLevel (option_ : text)
| FloatEncountered (option_ : text)
| NotAnInteger (option_ : text)
| NotAvailable (option_ : text)
| NonStringKey (path : text)
| Unreadable (path : text)
| UnknownExtension (ext : text)
| BadGlob (glob : text)
| Invalid (message : text).

(** A configuration function returns an error or a result, or panics in the
    reflection package. *)
Abbreviation R A := (outcome (config_error + A)).

Definition ok {A} (a : A) : R A := Ret (inr a).
Definition err {A} (e : config_error) : R A := Ret (inl e).

Definition R_bind {A B} (m : R A) (f : A → R B) : R B :=
  match m with
  | Ret (inr a) => f a
  | Ret (inl e) => Ret (inl e)
  | Panic => Panic
  | NoFuel => NoFuel
  end.

Notation "'let!' x := m 'in' k" := (R_bind m (fun x => k)) (at level 10, x pattern, m at level 100, k at level 200).

Definition slash : text := [fslash].

(** ** parser.go *)

(** The reflect value of a section: [None] is the zero value, no data. *)
Abbreviation raw := (option value).

Definition is_key (tag : text) (k : value) : bool :=
  match k with VString s => bool_decide (s = tag) | _ => false end.

Fixpoint map_find (tag : text) (kvs : list (value * value)) : option value :=
  match kvs with
  | [] => None
  | (k, v) :: kvs' => if is_key tag k then Some v else map_find tag kvs'
  end.

Definition map_delete (tag : text) (kvs : list (value * value)) : list (value * value) :=
  filter (fun kv => is_key tag (fst kv) = false) kvs.

(** [MapIndex], the unwrapping and the removal of [populateEntry]: a nil value
    unwraps to the zero value; reflection panics on a value that is not a map. *)
Definition map_take (tag : text) (r : raw) : outcome (raw * raw) :=
  match r with
  | None => Ret (None, None)
  | Some (VMap i kvs) =>
      let v := match map_find tag kvs with Some VNil => None | v => v end in
      Ret (v, Some (VMap i (map_delete tag kvs)))
  | Some _ => Panic
  end.

(** A field is populated from the section it is in, which loses the entries used. *)
Definition field (T : Type) : Type := raw → text → T → R (raw * T).

Definition key_text (k : value) : text := match k with VString s => s | _ => [] end.

Definition reportUnusedConfig (r : raw) (path : text) : R unit :=
  match r with
  | None => ok tt
  | Some (VMap _ []) => ok tt
  | Some (VMap _ ((k, _) :: _)) => err (NotAvailable (path ++ key_text k))
  | Some _ => Panic
  end.

(** The [Unused] field is a map with string keys. *)
Fixpoint unused_map (kvs : list (value * value)) : outcome (list (value * value)) :=
  match kvs with
  | [] => Ret []
  | (VString k, v) :: kvs' => rest ← unused_map kvs'; Ret ((VString k, v) :: rest)
  | _ => Panic
  end.

Fixpoint populateFields {T} (fields : list (field T)) (r : raw) (path : text) (t : T) : R (raw * T) :=
  match fields with
  | [] => ok (r, t)
  | f :: fields' => let! (r', t') := f r path t in populateFields fields' r' path t'
  end.

Definition populateStruct {T} (InitDefaults : T → T) (fields : list (field T))
    (set_unused : option (list (value * value) → T → T)) (r : raw) (path : text) (t : T) : R (raw * T) :=
  let! (r, t) := populateFields fields r path (InitDefaults t) in
  match set_unused with
  | Some set =>
      match r with
      | Some (VMap _ kvs) => unused ← unused_map kvs; ok (r, set unused t)
      | _ => Panic
      end
  | None => let! _ := reportUnusedConfig r path in ok (r, t)
  end.

(** [populateEntry] for a field that is a structure, populated by [p]. *)
Definition entry_struct {T U} (tag : text) (get : T → U) (set : U → T → T) (p : raw → text → U → R (raw * U)) : field T :=
  fun r path t =>
    '(v, r') ← map_take tag r;
    let! (_, u) := p v (path ++ tag ++ slash) (get t) in ok (r', set u t).

(** [populateEntry] for any other field: [conv] is [populateValue] at its type. *)
Definition entry_value {T U} (tag : text) (get : T → U) (set : U → T → T) (conv : value → text → text → U → R U) : field T :=
  fun r path t =>
    '(v, r') ← map_take tag r;
    match v with
    | None => ok (r', t)
    | Some v => let! u := conv v path tag (get t) in ok (r', set u t)
    end.

(** The [embed] modifier: the same section. *)
Definition embed {T U} (get : T → U) (set : U → T → T) (p : raw → text → U → R (raw * U)) : field T :=
  fun r path t => let! (r', u) := p r path (get t) in ok (r', set u t).

Section Values.
(** [time.ParseDuration] and the logging package's [LogLevel]. *)
Context (ParseDuration : text → option Z) (LogLevel : text → option Z).

(** [populateValue], type by type.  A field of a scalar type that is neither an
    integer, a duration nor a level panics on a value of another type. *)
Definition conv_string (v : value) (path tag : text) (old : text) : R text :=
  match v with VString s => ok s | _ => Panic end.

Definition conv_bool (v : value) (path tag : text) (old : bool) : R bool :=
  match v with VBool b => ok b | _ => Panic end.

Definition f64_floor_eq (f : float64) : bool :=
  match f with
  | SpecFloat.S754_zero _ => true
  | SpecFloat.S754_infinity _ => true
  | SpecFloat.S754_nan => false
  | SpecFloat.S754_finite _ m e => bool_decide (0 ≤ e)%Z || bool_decide (Z.pos m mod 2 ^ (- e) = 0)%Z
  end.

Definition conv_int64 (v : value) (path tag : text) (old : Z) : R Z :=
  match v with
  | VFloat f => if f64_floor_eq f then ok (f64_to_int64 f) else err (FloatEncountered (path ++ tag))
  | VInt z => ok z
  | _ => err (NotAnInteger (path ++ tag))
  end.

(** Numbers are seconds.  The product is of int64s.  An int is neither a float64
    nor a string, and is skipped. *)
Definition conv_duration (v : value) (path tag : text) (old : Z) : R Z :=
  match v with
  | VFloat f =>
      if SpecFloat.SFltb f (f64_of_Z (- 2 ^ 63)) || SpecFloat.SFltb (f64_of_Z (2 ^ 63 - 1)) f
      then err (BadDuration (path ++ tag))
      else ok (int64 (f64_to_int64 f * Second))
  | VString s => match ParseDuration s with Some d => ok d | None => err (NotADuration (path ++ tag)) end
  | _ => ok old
  end.

Definition conv_level (v : value) (path tag : text) (old : Z) : R Z :=
  match v with
  | VString s => match LogLevel s with Some l => ok l | None => err (BadLogLevel (path ++ tag)) end
  | _ => err (BadLogLevel (path ++ tag))
  end.

(** A [map[string]interface{}]: assigned when it is one, else copied key by key
    (a nil value has no type, which panics). *)
Fixpoint copy_map (kvs : list (value * value)) (old : list (value * value)) : outcome (list (value * value)) :=
  match kvs with
  | [] => Ret old
  | (VString k, v) :: kvs' =>
      match v with VNil => Panic | _ => copy_map kvs' (map_delete k old ++ [(VString k, v)]) end
  | _ => Panic
  end.

Definition conv_map (v : value) (path tag : text) (old : list (value * value)) : R (list (value * value)) :=
  match v with
  | VMap false kvs => ok kvs
  | VMap true kvs => m ← copy_map kvs old; ok m
  | _ => err (MustBeMap (path ++ tag))
  end.

(** [populateSlice] of strings: appending another type panics. *)
Fixpoint append_strings (old : list text) (vs : list value) : R (list text) :=
  match vs with
  | [] => ok old
  | VString s :: vs' => append_strings (old ++ [s]) vs'
  | _ => Panic
  end.

Definition conv_strings (v : value) (path tag : text) (old : list text) : R (list text) :=
  match v with
  | VSlice vs => append_strings old vs
  | _ => err (MustBeArray (path ++ tag))
  end.

(** [populateSlice] of structures; a nil element unwraps to the zero value. *)
Fixpoint populateSlice {U} (new : U) (p : raw → text → U → R (raw * U)) (vs : list value) (path : text) (i : Z) (old : list U)
  : R (list U) :=
  match vs with
  | [] => ok old
  | v :: vs' =>
      let! (_, u) := p (match v with VNil => None | _ => Some v end) (path ++ bytes_of "[" ++ bytes_of (pretty i) ++ bytes_of "]/") new in
      populateSlice new p vs' path (i + 1) (old ++ [u])
  end.

Definition conv_slice {U} (new : U) (p : raw → text → U → R (raw * U)) (v : value) (path tag : text) (old : list U) : R (list U) :=
  match v with
  | VSlice vs => populateSlice new p vs (path ++ tag ++ slash) 0 old
  | _ => err (MustBeArray (path ++ tag))
  end.
End Values.

(** ** What the documentation says of comments

    docs/Configuration.md: a line comment starts with a pound sign outside of a
    string and goes to the end of the line; a block comment starts with a slash and
    an asterisk and goes to the next asterisk followed by a slash.  A text is a
    sequence of these pieces. *)
Inductive string_char := SPlain (c : byte) | SEscape (c : byte).
Inductive token :=
| TByte (c : byte)                              (* outside strings and comments *)
| TSlash (c : byte)                             (* a slash that starts no comment, with the next byte *)
| TString (single : bool) (cs : list string_char)
| TLine (t : text) (eol : byte)                 (* # ... *)
| TBlock (body : text).                         (* /* ... */ *)

Definition quote_of (single : bool) : byte := if single then squote else dquote.
Definition char_text (c : string_char) : text := match c with SPlain c => [c] | SEscape c => [backslash; c] end.
Definition string_text (cs : list string_char) : text := concat (char_text <$> cs).

Definition token_text (t : token) : text :=
  match t with
  | TByte c => [c]
  | TSlash c => [fslash; c]
  | TString q cs => [quote_of q] ++ string_text cs ++ [quote_of q]
  | TLine t eol => [hash] ++ t ++ [eol]
  | TBlock body => [fslash; star] ++ body ++ [star; fslash]
  end.

Definition token_code (t : token) : text :=
  match t with TLine _ _ | TBlock _ => [] | _ => token_text t end.

Definition is_eol (c : byte) : Prop := c = carriage_return ∨ c = newline.

Definition ordinary (c : byte) : Prop := c ≠ dquote ∧ c ≠ squote ∧ c ≠ hash ∧ c ≠ fslash.

(** The body of a block comment holds no asterisk followed by a slash: the comment
    ends where the documentation says. *)
Definition token_ok (t : token) : Prop :=
  match t with
  | TByte c => ordinary c
  | TSlash c => ordinary c ∧ c ≠ star
  | TString q cs => Forall (fun c => match c with SPlain c => c ≠ quote_of q ∧ c ≠ backslash | _ => True end) cs
  | TLine t eol => Forall (fun c => ¬ is_eol c) t ∧ is_eol eol
  | TBlock body => ∀ pre post, body ≠ pre ++ [star; fslash] ++ post
  end.

(** Whether a text ends in an odd number of asterisks.  A block comment whose body
    does is not ended where it should be: the code takes asterisks in pairs. *)
Definition odd_stars (t : text) : bool := foldl (fun odd c => bool_decide (c = star) && negb odd) false t.

Definition token_safe (t : token) : Prop := match t with TBlock body => odd_stars body = false | _ => True end.

(** ** Lemmas: the comment stripper *)

(** In the code states, the text so far is what was written and the window from
    [s] to [p]; in a comment it is what was written. *)
Definition in_comment (st : strip_state) : bool :=
  match st with LineComment | BlockComment | PotentialEnd => true | _ => false end.

Definition so_far (buffer : text) (st : strip_state) (s p : Z) (stripped out : text) : Prop :=
  (0 ≤ s ≤ p)%Z ∧ (p ≤ zlen buffer)%Z ∧
  if in_comment st then stripped = out else ∃ t, slice buffer s p = Some t ∧ stripped ++ t = out.

Lemma slice_snoc (pre rest : text) s c t :
  (0 ≤ s ≤ zlen pre)%Z → slice (pre ++ c :: rest) s (zlen pre) = Some t →
  slice (pre ++ c :: rest) s (zlen pre + 1) = Some (t ++ [c]).
Proof.
  intros Hs. unfold slice. rewrite zlen_app, zlen_cons. pose proof (zlen_nonneg rest).
  rewrite !bool_decide_true by lia. intros [= <-]. f_equal.
  replace (Z.to_nat (zlen pre + 1 - s)) with (S (Z.to_nat (zlen pre - s))) by lia.
  apply take_S_r. rewrite lookup_drop. replace (Z.to_nat s + Z.to_nat (zlen pre - s)) with (length pre) by zlen_lia.
  by apply list_lookup_middle.
Qed.

(** Running over [t] from the state [st] with the text [out] leads to [st'] with
    [out']. *)
Definition runs (st : strip_state) (out t : text) (st' : strip_state) (out' : text) : Prop :=
  ∀ buffer pre rest s stripped, buffer = pre ++ t ++ rest → so_far buffer st s (zlen pre) stripped out →
  ∃ s' stripped', so_far buffer st' s' (zlen (pre ++ t)) stripped' out' ∧
    strip_loop buffer (t ++ rest) st s (zlen pre) stripped = strip_loop buffer rest st' s' (zlen (pre ++ t)) stripped'.

Lemma runs_trans st1 o1 t1 st2 o2 t2 st3 o3 : runs st1 o1 t1 st2 o2 → runs st2 o2 t2 st3 o3 → runs st1 o1 (t1 ++ t2) st3 o3.
Proof.
  intros H1 H2 buffer pre rest s stripped Hb Hso. rewrite <-app_assoc in Hb |- *.
  destruct (H1 _ _ _ _ _ Hb Hso) as (s' & str' & Hso' & ->). rewrite app_assoc in Hb |- *.
  exact (H2 _ _ _ _ _ Hb Hso').
Qed.

Lemma runs_nil st o : runs st o [] st o.
Proof. intros buffer pre rest s stripped _ Hso. exists s, stripped. by rewrite app_nil_r. Qed.

Lemma so_far_snoc (pre : text) c rest s : (0 ≤ s ≤ zlen pre)%Z → (0 ≤ s ≤ zlen (pre ++ [c]))%Z ∧ (zlen (pre ++ [c]) ≤ zlen (pre ++ c :: rest))%Z.
Proof. unfold zlen. rewrite !length_app. simpl. lia. Qed.

(** One byte that is kept. *)
Lemma runs_keep st o c st' :
  in_comment st = false → in_comment st' = false →
  (∀ buffer rest s p stripped, strip_loop buffer (c :: rest) st s p stripped = strip_loop buffer rest st' s (p + 1) stripped) →
  runs st o [c] st' (o ++ [c]).
Proof.
  intros Hst Hst' Hstep buffer pre rest s stripped -> (Hs & Hp & Hso). rewrite Hst in Hso. destruct Hso as (t & Ht & <-).
  destruct (so_far_snoc pre c rest s Hs). exists s, stripped. cbn [app]. rewrite Hstep. rewrite (zlen_app pre). split; [|done].
  split; [by rewrite <-(zlen_app pre [c])|]. split; [by rewrite <-(zlen_app pre [c])|]. rewrite Hst'.
  exists (t ++ [c]). split; [by apply slice_snoc|by rewrite app_assoc].
Qed.

(** One byte of a comment. *)
Lemma runs_skip st o c st' :
  in_comment st = true → in_comment st' = true →
  (∀ buffer rest s p stripped, strip_loop buffer (c :: rest) st s p stripped = strip_loop buffer rest st' s (p + 1) stripped) →
  runs st o [c] st' o.
Proof.
  intros Hst Hst' Hstep buffer pre rest s stripped -> (Hs & Hp & Hso). rewrite Hst in Hso.
  destruct (so_far_snoc pre c rest s Hs). exists s, stripped. cbn [app]. rewrite Hstep. split; [|by rewrite (zlen_app pre)].
  split; [done|]. split; [done|]. by rewrite Hst'.
Qed.

(** The byte that ends a comment. *)
Lemma runs_end st o c :
  in_comment st = true →
  (∀ buffer rest s p stripped, strip_loop buffer (c :: rest) st s p stripped = strip_loop buffer rest MainBody (p + 1) (p + 1) stripped) →
  runs st o [c] MainBody o.
Proof.
  intros Hst Hstep buffer pre rest s stripped -> (Hs & Hp & Hso). rewrite Hst in Hso. subst o.
  destruct (so_far_snoc pre c rest s Hs). exists (zlen (pre ++ [c])), stripped. cbn [app]. rewrite Hstep.
  split; [|by rewrite (zlen_app pre)]. split; [lia|]. split; [done|]. exists []. split; [|by rewrite app_nil_r].
  unfold slice. rewrite bool_decide_true by lia. by rewrite Z.sub_diag.
Qed.

(** The byte that starts a line comment, and the two that start a block. *)
Lemma runs_hash o : runs MainBody o [hash] LineComment o.
Proof.
  intros buffer pre rest s stripped -> (Hs & Hp & t & Ht & <-). destruct (so_far_snoc pre hash rest s Hs).
  exists s, (stripped ++ t). simpl. simpl in Ht. rewrite Ht. split; [done|by rewrite (zlen_app pre)].
Qed.

Lemma runs_open o : runs MainBody o [fslash; star] BlockComment o.
Proof.
  intros buffer pre rest s stripped -> (Hs & Hp & t & Ht & <-).
  exists s, (stripped ++ t). simpl in *. replace (zlen pre + 1 - 1)%Z with (zlen pre) by lia. rewrite Ht.
  split; [|f_equal; unfold zlen; rewrite length_app; simpl; lia].
  unfold so_far, zlen in *. rewrite !length_app in *. simpl in *. split; [lia|]. split; [lia|done].
Qed.

Lemma runs_many {A} st (render : A → text) (xs : list A) (keep : bool) :
  (∀ x o, x ∈ xs → runs st o (render x) st (if keep then o ++ render x else o)) →
  ∀ o, runs st o (concat (render <$> xs)) st (if keep then o ++ concat (render <$> xs) else o).
Proof.
  induction xs as [|x xs IH]; intros Hx o; simpl; [destruct keep; rewrite ?app_nil_r; apply runs_nil|].
  eapply runs_trans; [apply Hx; set_solver|]. destruct keep; [rewrite app_assoc|]; apply IH; set_solver.
Qed.

Definition in_quote (single : bool) : strip_state := if single then SingleQuoted else DoubleQuoted.
Definition in_escape (single : bool) : strip_state := if single then SingleEscape else DoubleEscape.

Ltac strip_step := intros; cbn [strip_loop in_quote in_escape quote_of] in *; by repeat (first [rewrite decide_True by (first [done|tauto]) | rewrite decide_False by (first [done|tauto])]).

Lemma runs_char q c o :
  match c with SPlain c => c ≠ quote_of q ∧ c ≠ backslash | _ => True end →
  runs (in_quote q) o (char_text c) (in_quote q) (o ++ char_text c).
Proof.
  intros Hc. destruct c as [c|c]; simpl.
  - destruct Hc. apply runs_keep; [by destruct q..|]. destruct q; strip_step.
  - change [backslash; c] with ([backslash] ++ [c]). rewrite app_assoc.
    apply (runs_trans _ _ _ (in_escape q) (o ++ [backslash])); (apply runs_keep; [by destruct q..|]); destruct q; strip_step.
Qed.

Lemma runs_string q cs o : token_ok (TString q cs) → runs MainBody o (token_text (TString q cs)) MainBody (o ++ token_text (TString q cs)).
Proof.
  intros Hcs. cbn [token_text]. rewrite !app_assoc. eapply (runs_trans _ _ _ (in_quote q) ((o ++ [quote_of q]) ++ string_text cs)).
  - apply (runs_trans _ _ _ (in_quote q) (o ++ [quote_of q])); [apply runs_keep; [done|by destruct q|destruct q; strip_step]|].
    apply (runs_many (in_quote q) char_text cs true). intros c o' Hc. apply runs_char. simpl in Hcs. rewrite Forall_forall in Hcs. by apply Hcs.
  - apply runs_keep; [by destruct q|done|destruct q; strip_step].
Qed.

Lemma odd_stars_snoc t c : odd_stars (t ++ [c]) = bool_decide (c = star) && negb (odd_stars t).
Proof. unfold odd_stars. by rewrite foldl_snoc. Qed.

Lemma odd_stars_replicate t n : last t ≠ Some star → odd_stars (t ++ replicate n star) = Nat.odd n.
Proof.
  intros Ht. induction n as [|n IH].
  - rewrite app_nil_r. destruct t as [|c t _] using rev_ind; [done|]. rewrite last_snoc in Ht. rewrite odd_stars_snoc.
    rewrite bool_decide_eq_false_2 by congruence. done.
  - rewrite replicate_S_end, app_assoc, odd_stars_snoc, IH, bool_decide_eq_true_2 by done. by rewrite Nat.odd_succ, <-Nat.negb_odd.
Qed.

Lemma odd_stars_last t : odd_stars t = true → ∃ t', t = t' ++ [star].
Proof.
  destruct t as [|c t _] using rev_ind; [done|]. rewrite odd_stars_snoc. intros [Hc%bool_decide_eq_true _]%andb_true_iff.
  subst. by exists t.
Qed.

(** In a body without an asterisk and a slash the comment does not end, and the
    state after it tells the parity of the asterisks. *)
Lemma runs_body body o : (∀ pre post, body ≠ pre ++ [star; fslash] ++ post) →
  runs BlockComment o body (if odd_stars body then PotentialEnd else BlockComment) o.
Proof.
  induction body as [|c body IH] using rev_ind; intros Hbody; [apply runs_nil|]. rewrite odd_stars_snoc.
  eapply runs_trans; [apply IH; intros pre post ->; apply (Hbody pre (post ++ [c])); by rewrite <-!app_assoc|].
  destruct (odd_stars body) eqn:Hodd.
  - rewrite andb_false_r. destruct (odd_stars_last _ Hodd) as [b' ->].
    assert (c ≠ fslash) by (intros ->; apply (Hbody b' []); by rewrite <-app_assoc). apply runs_skip; [done..|strip_step].
  - rewrite andb_true_r. case_bool_decide; (apply runs_skip; [done..|strip_step]).
Qed.

Lemma runs_block body o : token_ok (TBlock body) → odd_stars body = false → runs MainBody o (token_text (TBlock body)) MainBody o.
Proof.
  intros Hbody Hodd. cbn [token_text]. apply (runs_trans _ _ _ BlockComment o); [apply runs_open|].
  apply (runs_trans _ _ _ BlockComment o); [pose proof (runs_body body o Hbody) as Hr; by rewrite Hodd in Hr|].
  apply (runs_trans _ _ [star] PotentialEnd o [fslash]); [apply runs_skip; [done..|strip_step]|apply runs_end; [done|strip_step]].
Qed.

Lemma runs_line t eol o : token_ok (TLine t eol) → runs MainBody o (token_text (TLine t eol)) MainBody o.
Proof.
  intros [Ht He]. cbn [token_text]. apply (runs_trans _ _ _ LineComment o); [apply runs_hash|].
  apply (runs_trans _ _ _ LineComment o).
  - pose proof (runs_many LineComment (fun c : byte => [c]) t false) as Hm.
    replace (concat ((fun c : byte => [c]) <$> t)) with t in Hm by (clear; induction t as [|c t IH]; [done|exact (f_equal (cons c) IH)]).
    apply Hm. intros c o' Hc. rewrite Forall_forall in Ht. specialize (Ht c Hc). unfold is_eol in Ht.
    apply runs_skip; [done..|strip_step].
  - unfold is_eol in He. apply runs_end; [done|strip_step].
Qed.

Lemma runs_token t o : token_ok t → token_safe t → runs MainBody o (token_text t) MainBody (o ++ token_code t).
Proof.
  intros Ht Hsafe. destruct t as [c|c|q cs|t eol|body].
  - destruct Ht as (? & ? & ? & ?). apply runs_keep; [done..|strip_step].
  - simpl. change [fslash; c] with ([fslash] ++ [c]). rewrite app_assoc. destruct Ht as [_ Ht].
    apply (runs_trans _ _ _ PotentialStart (o ++ [fslash])); (apply runs_keep; [done..|strip_step]).
  - by apply runs_string.
  - simpl. rewrite app_nil_r. by apply runs_line.
  - simpl. rewrite app_nil_r. by apply runs_block.
Qed.

(** C15. Comment stripping: from a text made of the documented pieces - plain bytes,
    strings with escapes, line comments that end in a line break, and block comments
    that end at the first asterisk followed by a slash - the comments, and nothing
    else, are removed: a comment marker inside a string is kept, a quote inside a
    comment is not a string.  Not covered, because there the code does something
    else: a block comment whose body ends in an odd number of asterisks (one that
    ends in two asterisks and a slash, [two_stars]), a text that ends inside a
    comment (a last line that is a comment without a line break,
    [unfinished_line]), and a slash in front of a quote, a pound sign or another
    slash (which no JSON text has outside of strings and comments). *)
Theorem comments_stripped (ts : list token) :
  Forall token_ok ts → Forall token_safe ts → strip_comments (concat (token_text <$> ts)) = Ret (concat (token_code <$> ts)).
Proof.
  intros Hts Hsafe. assert (Hrun : ∀ o, runs MainBody o (concat (token_text <$> ts)) MainBody (o ++ concat (token_code <$> ts))).
  { induction Hts as [|t ts Ht _ IH]; intros o; simpl; [rewrite app_nil_r; apply runs_nil|]. apply Forall_cons in Hsafe as [Hsafe Hsafes].
    eapply runs_trans; [by apply runs_token|]. rewrite app_assoc. by apply IH. }
  destruct (Hrun [] (concat (token_text <$> ts)) [] [] 0%Z []) as (s & stripped & Hso & Hr).
  - by rewrite app_nil_r.
  - split; [done|]. split; [apply zlen_nonneg|]. exists []. split; [|done]. unfold slice.
    rewrite bool_decide_true; [done|]. split; [done|split; [done|apply zlen_nonneg]].
  - unfold strip_comments. rewrite app_nil_r in Hr. simpl in Hso. change (zlen []) with 0%Z in Hr. rewrite Hr. cbn [strip_loop app].
    destruct Hso as (_ & _ & t & -> & <-). done.
Qed.

Fixpoint has_star_slash (t : text) : bool :=
  match t with c :: (d :: _) as t' => (bool_decide (c = star) && bool_decide (d = fslash)) || has_star_slash t' | _ => false end.

Lemma no_star_slash t : has_star_slash t = false → ∀ pre post, t ≠ pre ++ [star; fslash] ++ post.
Proof.
  intros Ht pre post ->. induction pre as [|c pre IH]; [done|].
  destruct pre as [|d pre]; apply orb_false_iff in Ht as [_ Ht]; by apply IH.
Qed.

Definition quoted (s : string) : text := [dquote] ++ bytes_of s ++ [dquote].

Definition example_config_text : list token :=
  [TByte "{"%byte; TString false (SPlain <$> bytes_of "a # b"); TByte ":"%byte; TBlock (bytes_of " # it's a ** "); TByte "1"%byte;
   TLine (bytes_of " the " ++ quoted "end") newline; TByte "}"%byte].

Lemma comments_stripped_witness :
  strip_comments (bytes_of "{" ++ quoted "a # b" ++ bytes_of ":/* # it's a ** */1# the " ++ quoted "end" ++ [newline] ++ bytes_of "}") =
  Ret (bytes_of "{" ++ quoted "a # b" ++ bytes_of ":1}").
Proof.
  apply (comments_stripped example_config_text); unfold example_config_text, token_ok, token_safe, ordinary, is_eol.
  - repeat (apply Forall_cons; split); try apply Forall_nil; try (by repeat split); try (by repeat constructor).
    + apply no_star_slash. vm_compute. reflexivity.
    + split; [|by right]. repeat constructor; intros [H|H]; discriminate H.
  - by repeat constructor.
Defined.

(** A comment that ends in two asterisks before the slash is not ended there, and
    a file that ends inside a comment gets the text before it a second time. *)
Example two_stars : strip_comments (bytes_of "1/* x **/2") = Ret (bytes_of "11/* x **/2").
Proof. reflexivity. Qed.

Example unfinished_line : strip_comments (bytes_of "{}# done") = Ret (bytes_of "{}{}# done").
Proof. reflexivity. Qed.
