(* ===== verification/AdminServer.v ===== *)
(** * lc-lib/admin: the server and the client of the status tree

    Connection addresses ([transport.go]), the section of the configuration
    ([config.go]), the loop of the listener with its reload and shutdown, the
    requests it answers ([server.go], [apiroot.go]) and the client that makes them
    ([client.go]).  Listening, the HTTP servers and JSON are parameters; URLs are
    those of [Encodings]. *)
From S2P Require Import Prelude Core Codecs Encodings ConfigParser AdminApi.

(** ** [transport.go]: addresses and transports *)
Definition colon : byte := ":"%byte.

(** [strings.SplitN(s, ":", 2)]: the part before the first colon and the rest. *)
Fixpoint split_colon (s : text) : text * option text :=
  match s with
  | [] => ([], None)
  | c :: s' => if decide (c = colon) then ([], Some s') else let '(a, b) := split_colon s' in (c :: a, b)
  end.

Definition splitAdminConnectString (s : text) : text * text :=
  match split_colon s with (a, Some b) => (a, b) | (a, None) => (bytes_of "tcp", a) end.

(** The transports registered by [transport_tcp.go] and [transport_unix.go]. *)
Definition registered (transport : text) : bool :=
  bool_decide (transport ∈ [bytes_of "tcp"; bytes_of "tcp4"; bytes_of "tcp6"; bytes_of "unix"]).

(** ** [config.go] *)
Record AdminConfig := mkAdminConfig { Enabled : bool; Bind : text }.

Definition DefaultAdminBind : text := bytes_of "tcp:127.0.0.1:12345".

Definition Admin_InitDefaults (c : AdminConfig) : AdminConfig := mkAdminConfig false DefaultAdminBind.

Definition admin_fields : list (field AdminConfig) :=
  [entry_value (bytes_of "enabled") Enabled (fun v c => mkAdminConfig v (Bind c)) conv_bool;
   entry_value (bytes_of "listen address") Bind (fun v c => mkAdminConfig (Enabled c) v) conv_string].

Definition Admin_Validate (c : AdminConfig) : option text :=
  if decide (Enabled c = true ∧ Bind c = [])
  then Some (bytes_of "/admin/listen address must be specified if /admin/enabled is true") else None.

(** ** [server.go]: the loop *)
Section Loop.
(** Whether the n-th attempt to listen succeeds. *)
Context (net_listen : nat → text → text → bool).

(** The HTTP servers are numbered in the order they are made; [sv_server] is
    [l.server].  A server is told to stop, and later has stopped, which closes
    its stop channel; [closingOldServer] is such a channel. *)
Record Server := mkServer {
  sv_config : AdminConfig;
  sv_server : nat;
  sv_binds : list text;
  sv_stopping : gset nat;
  sv_stopped : gset nat;
  closingOldServer : option nat;
  reloadingConfig : option AdminConfig;
  shuttingDown : bool;
  shutdownStarted : bool;
  sv_signal : bool;
  sv_exited : bool;
  sv_tick : nat;
}.

Definition listen (bind : text) (n : nat) : bool :=
  let '(transport, address) := splitAdminConnectString bind in registered transport && net_listen n transport address.

(** [NewServer] and the start of [Run]. *)
Definition NewServer (config : AdminConfig) : option Server :=
  if listen (Bind config) 0 then
    Some (mkServer config 0 [Bind config] ∅ ∅ None None false false false false 1)
  else None.

Definition shutdownServer (s : Server) : nat * Server :=
  (sv_server s, mkServer (sv_config s) (sv_server s) (sv_binds s) ({[sv_server s]} ∪ sv_stopping s) (sv_stopped s) (closingOldServer s)
    (reloadingConfig s) (shuttingDown s) (shutdownStarted s) (sv_signal s) (sv_exited s) (sv_tick s)).

(** [initServer] and [startServer]. *)
Definition initServer (bind : text) (s : Server) : Server :=
  mkServer (sv_config s) (length (sv_binds s)) (sv_binds s ++ [bind]) (sv_stopping s) (sv_stopped s) (closingOldServer s)
    (reloadingConfig s) (shuttingDown s) (shutdownStarted s) (sv_signal s) (sv_exited s) (sv_tick s).

Definition tick_listen (s : Server) : Server :=
  mkServer (sv_config s) (sv_server s) (sv_binds s) (sv_stopping s) (sv_stopped s) (closingOldServer s)
    (reloadingConfig s) (shuttingDown s) (shutdownStarted s) (sv_signal s) (sv_exited s) (S (sv_tick s)).

Definition reloadServer (config : AdminConfig) (s : Server) : option nat * Server :=
  if listen (Bind config) (sv_tick s) then
    let '(stopChan, s') := shutdownServer (tick_listen s) in
    (Some stopChan, initServer (Bind config) s')
  else (None, tick_listen s).

Definition set_closing (c : option nat) (s : Server) : Server :=
  mkServer (sv_config s) (sv_server s) (sv_binds s) (sv_stopping s) (sv_stopped s) c
    (reloadingConfig s) (shuttingDown s) (shutdownStarted s) (sv_signal s) (sv_exited s) (sv_tick s).
Definition set_flags (reloading : option AdminConfig) (down started exited : bool) (s : Server) : Server :=
  mkServer (sv_config s) (sv_server s) (sv_binds s) (sv_stopping s) (sv_stopped s) (closingOldServer s)
    reloading down started (sv_signal s) exited (sv_tick s).

Definition start_shutdown (s : Server) : Server :=
  let '(c, s') := shutdownServer s in
  set_closing (Some c) (set_flags (reloadingConfig s') true true (sv_exited s') s').

Definition start_reload (config : AdminConfig) (s : Server) : Server :=
  let '(c, s') := reloadServer config s in set_closing c s'.

(** One turn of the select: the case taken, [None] when its channel is not ready. *)
Inductive server_case := OnShutdown | OnConfig (aconfig : AdminConfig) | OnClosed.

Definition server_select (c : server_case) (s : Server) : option Server :=
  if sv_exited s then None
  else
    match c with
    | OnShutdown =>
        if sv_signal s then
          match closingOldServer s with
          | None => Some (start_shutdown s)
          | Some _ => Some (set_flags (reloadingConfig s) true (shutdownStarted s) (sv_exited s) s)
          end
        else None
    | OnConfig aconfig =>
        if Enabled aconfig then
          if decide (Bind aconfig ≠ Bind (sv_config s)) then
            match closingOldServer s with
            | Some _ => Some (set_flags (Some aconfig) (shuttingDown s) (shutdownStarted s) (sv_exited s) s)
            | None => Some (start_reload aconfig s)
            end
          else Some s
        else Some s
    | OnClosed =>
        match closingOldServer s with
        | None => None
        | Some k =>
            if decide (k ∈ sv_stopped s) then
              if shuttingDown s then
                if shutdownStarted s then Some (set_flags (reloadingConfig s) true true true s)
                else Some (start_shutdown s)
              else
                match reloadingConfig s with
                | Some config => Some (start_reload config s)
                | None => Some s
                end
            else None
        end
    end.

(** A server that was told to stop has stopped. *)
Definition server_stops (k : nat) (s : Server) : Server :=
  mkServer (sv_config s) (sv_server s) (sv_binds s) (sv_stopping s) ({[k]} ∪ sv_stopped s) (closingOldServer s)
    (reloadingConfig s) (shuttingDown s) (shutdownStarted s) (sv_signal s) (sv_exited s) (sv_tick s).
Definition signal_shutdown (s : Server) : Server :=
  mkServer (sv_config s) (sv_server s) (sv_binds s) (sv_stopping s) (sv_stopped s) (closingOldServer s)
    (reloadingConfig s) (shuttingDown s) (shutdownStarted s) true (sv_exited s) (sv_tick s).

(** What happens without anything further from outside, and with it. *)
Inductive server_own : Server → Server → Prop :=
| own_shutdown s s' : server_select OnShutdown s = Some s' → server_own s s'
| own_closed s s' : server_select OnClosed s = Some s' → server_own s s'
| own_stops s k : k ∈ sv_stopping s → server_own s (server_stops k s).

Inductive server_step : Server → Server → Prop :=
| step_own s s' : server_own s s' → server_step s s'
| step_config s c s' : server_select (OnConfig c) s = Some s' → server_step s s'
| step_signal s : server_step s (signal_shutdown s).

(** *** The invariant *)

(** Every server but the current one and the one being closed has stopped. *)
Record server_ok (s : Server) : Prop := {
  so_server : sv_server s < length (sv_binds s);
  so_old : ∀ k, k < length (sv_binds s) → k ≠ sv_server s → closingOldServer s ≠ Some k → k ∈ sv_stopped s;
  so_closing : ∀ k, closingOldServer s = Some k → k ∈ sv_stopping s ∧ k < length (sv_binds s);
  so_started : shutdownStarted s = true → closingOldServer s = Some (sv_server s) ∧ shuttingDown s = true;
  so_down : shuttingDown s = true → closingOldServer s ≠ None;
  so_exited : sv_exited s = true → shutdownStarted s = true ∧ sv_server s ∈ sv_stopped s;
}.

Lemma server_ok_new config s : NewServer config = Some s → server_ok s.
Proof.
  unfold NewServer. destruct (listen _ _); [|done]. intros [= <-]. split; simpl; [lia|intros k Hk Hne; lia|done..].
Qed.

Lemma start_shutdown_ok s :
  server_ok s → sv_exited s = false → (∀ k, closingOldServer s = Some k → k ∈ sv_stopped s) → server_ok (start_shutdown s).
Proof.
  intros [H1 H2 H3 H4 H5 H6] He Hc. unfold start_shutdown, shutdownServer. split; simpl; try done.
  - intros k Hk Hne _. destruct (decide (closingOldServer s = Some k)) as [Hk'|Hk']; [by apply Hc|by apply H2].
  - intros k [= <-]. set_solver.
  - congruence.
Qed.

Lemma start_reload_ok config s :
  server_ok s → shuttingDown s = false → sv_exited s = false → (∀ k, closingOldServer s = Some k → k ∈ sv_stopped s) →
  server_ok (start_reload config s).
Proof.
  intros [H1 H2 H3 H4 H5 H6] Hd He Hc. unfold start_reload, reloadServer. destruct (listen _ _); simpl.
  - split; simpl; rewrite ?length_app; simpl; try congruence.
    + lia.
    + intros k Hk Hne Hk'. destruct (decide (closingOldServer s = Some k)) as [Hc'|Hc']; [by apply Hc|].
      apply H2; [lia|congruence|done].
    + intros k [= <-]. set_solver by lia.
    + intros Hs. destruct (H4 Hs). congruence.
  - split; simpl; try done; try congruence.
    + intros k Hk Hne _. destruct (decide (closingOldServer s = Some k)) as [Hc'|Hc']; [by apply Hc|by apply H2].
    + intros Hs. destruct (H4 Hs). congruence.
Qed.

Lemma server_select_ok c s s' : server_select c s = Some s' → server_ok s → server_ok s'.
Proof.
  intros Hs Ho. pose proof Ho as [H1 H2 H3 H4 H5 H6]. unfold server_select in Hs.
  destruct (sv_exited s) eqn:He; [done|]. destruct c as [|a|].
  - destruct (sv_signal s); [|done]. destruct (closingOldServer s) as [k|] eqn:Ek; injection Hs as <-.
    + split; simpl; rewrite ?Ek; try done. intros Hst. split; [|done]. by destruct (H4 Hst).
    + apply start_shutdown_ok; [done|done|]. congruence.
  - destruct (Enabled a); [|by injection Hs as <-]. case_decide; [|by injection Hs as <-].
    destruct (closingOldServer s) as [k|] eqn:Ek; injection Hs as <-.
    + by split; simpl; rewrite ?Ek.
    + apply start_reload_ok; [done| |done|congruence]. destruct (shuttingDown s); [|done]. by destruct H5.
  - destruct (closingOldServer s) as [k|] eqn:Ek; [|done]. case_decide as Hk; [|done].
    destruct (shuttingDown s) eqn:Ed; [destruct (shutdownStarted s) eqn:Est|destruct (reloadingConfig s)]; injection Hs as <-.
    + destruct (H4 eq_refl) as [Hc _]. split; simpl; try done; rewrite ?Ek; try done.
      intros _. split; [done|]. by injection Hc as ->.
    + apply start_shutdown_ok; [done|done|congruence].
    + apply start_reload_ok; [done|done|done|congruence].
    + done.
Qed.

Lemma server_own_ok s s' : server_own s s' → server_ok s → server_ok s'.
Proof.
  intros [s1 s2 Hs|s1 s2 Hs|s1 k Hk]; [by apply (server_select_ok OnShutdown)|by apply (server_select_ok OnClosed)|].
  intros [H1 H2 H3 H4 H5 H6]. split; simpl; try done; set_solver.
Qed.

Lemma server_steps_ok s s' : rtc server_step s s' → server_ok s → server_ok s'.
Proof.
  induction 1 as [|s s1 s' Hs _ IH]; [done|]. intros Ho. apply IH.
  destruct Hs as [s1 s2 Hs|s1 c s2 Hs|s1]; [by eapply server_own_ok|by eapply server_select_ok|].
  destruct Ho as [H1 H2 H3 H4 H5 H6]. by split.
Qed.

(** The end of the loop from a state whose shutdown has been noticed. *)
Lemma server_finishes s :
  server_ok s → sv_exited s = false → shuttingDown s = true →
  ∃ s', rtc server_own s s' ∧ sv_exited s' = true ∧ sv_binds s' = sv_binds s.
Proof.
  assert (Hfin : ∀ s, server_ok s → sv_exited s = false → shutdownStarted s = true →
    ∃ s', rtc server_own s s' ∧ sv_exited s' = true ∧ sv_binds s' = sv_binds s).
  { intros s0 Ho He Hst. destruct (so_started _ Ho Hst) as [Hc Hd]. destruct (so_closing _ Ho _ Hc) as [Hk _].
    eexists. split; [eapply rtc_l; [apply (own_stops s0 _ Hk)|apply rtc_once, own_closed]|].
    - unfold server_select. simpl. rewrite He, Hc, Hd, Hst. rewrite decide_True by set_solver. reflexivity.
    - done. }
  intros Ho He Hd. destruct (shutdownStarted s) eqn:Hst; [by apply Hfin|].
  destruct (closingOldServer s) as [k|] eqn:Hc; [|by destruct (so_down _ Ho Hd)].
  destruct (so_closing _ Ho _ Hc) as [Hk _]. set (s1 := server_stops k s).
  assert (H1 : server_select OnClosed s1 = Some (start_shutdown s1)).
  { unfold server_select. simpl. rewrite He, Hc, Hd, Hst. by rewrite decide_True by set_solver. }
  assert (Ho1 : server_ok s1) by (eapply server_own_ok; [by apply own_stops|done]).
  destruct (Hfin (start_shutdown s1)) as (s' & Hr & Hx & Hb); [|done|done|].
  { eapply server_select_ok; [exact H1|done]. }
  exists s'. split; [|done]. eapply rtc_l; [by apply own_stops|]. eapply rtc_l; [by apply own_closed|done].
Qed.

(** ** Properties of the loop *)

(** Once the pipeline is shut down the listener can always end, whatever
    reloads are in progress, queued or have failed; and when it has ended every
    server it ever started has stopped, so no address is left open. *)
Theorem admin_shutdown_exits config s0 s :
  NewServer config = Some s0 → rtc server_step s0 s → sv_signal s = true →
  (∃ s', rtc server_own s s' ∧ sv_exited s' = true) ∧
  (sv_exited s = true → ∀ k, k < length (sv_binds s) → k ∈ sv_stopped s).
Proof.
  intros Hnew Hr Hsig. pose proof (server_steps_ok _ _ Hr (server_ok_new _ _ Hnew)) as Ho. split.
  - destruct (sv_exited s) eqn:He; [by exists s|].
    assert (∃ s1, server_select OnShutdown s = Some s1 ∧ shuttingDown s1 = true ∧ sv_exited s1 = false) as (s1 & Hs1 & Hd & He1).
    { unfold server_select. rewrite He, Hsig. destruct (closingOldServer s); eexists; (split; [reflexivity|]); done. }
    destruct (server_finishes s1) as (s' & Hr' & Hx & _); [by eapply server_select_ok|done|done|].
    exists s'. split; [|done]. eapply rtc_l; [by apply own_shutdown|done].
  - intros He k Hk. destruct (so_exited _ Ho He) as [Hst Hin]. destruct (so_started _ Ho Hst) as [Hc _].
    destruct (decide (k = sv_server s)) as [->|Hne]; [done|]. apply (so_old _ Ho); [done|done|]. rewrite Hc. congruence.
Qed.

(** A reload to another address works once: afterwards, when the old server has
    stopped, the loop spins, since the closed channel is selected again and again
    without any effect, and a reload back to the first address is ignored. *)
Theorem admin_reload_sticks config aconfig s0 :
  NewServer config = Some s0 → Enabled aconfig = true → Bind aconfig ≠ Bind config → listen (Bind aconfig) 1 = true →
  ∃ s1, server_select (OnConfig aconfig) s0 = Some s1 ∧ sv_binds s1 !! sv_server s1 = Some (Bind aconfig) ∧
    let s2 := server_stops 0 s1 in
    server_own s1 s2 ∧ server_select OnClosed s2 = Some s2 ∧
    ∀ e, server_select (OnConfig (mkAdminConfig e (Bind config))) s2 = Some s2.
Proof.
  unfold NewServer. destruct (listen (Bind config) 0); [|done]. intros [= <-] He Hne Hl.
  eexists. split; [unfold server_select; simpl; rewrite He, decide_True by done; reflexivity|].
  unfold start_reload, reloadServer. simpl. rewrite Hl. simpl. split; [done|]. split; [apply own_stops; simpl; set_solver|].
  split.
  - unfold server_select. simpl. by rewrite decide_True by set_solver.
  - intros e. unfold server_select. simpl. destruct e; [|done]. by rewrite decide_False by (intros Hn; by apply Hn).
Qed.
End Loop.

Definition sample_admin (bind : text) : AdminConfig := mkAdminConfig true bind.
Definition sample_listen (n : nat) (transport address : text) : bool := true.

Lemma admin_shutdown_exits_witness :
  ∃ s0 s, NewServer sample_listen (sample_admin (bytes_of "tcp:a")) = Some s0 ∧ rtc (server_step sample_listen) s0 s ∧ sv_signal s = true ∧
    closingOldServer s = Some 0 ∧ ∃ s', rtc (server_own sample_listen) s s' ∧ sv_exited s' = true.
Proof.
  set (s0 := mkServer (sample_admin (bytes_of "tcp:a")) 0 [bytes_of "tcp:a"] ∅ ∅ None None false false false false 1).
  set (s1 := start_reload sample_listen (sample_admin (bytes_of "tcp:b")) s0).
  assert (Hr : rtc (server_step sample_listen) s0 (signal_shutdown s1)).
  { eapply rtc_l; [eapply (step_config _ s0 (sample_admin (bytes_of "tcp:b"))); reflexivity|]. apply rtc_once, step_signal. }
  exists s0, (signal_shutdown s1). split; [reflexivity|]. split; [exact Hr|]. split; [reflexivity|]. split; [reflexivity|].
  exact (proj1 (admin_shutdown_exits sample_listen (sample_admin (bytes_of "tcp:a")) s0 (signal_shutdown s1) eq_refl Hr eq_refl)).
Defined.

Lemma admin_reload_sticks_witness :
  ∃ s0 s1, NewServer sample_listen (sample_admin (bytes_of "tcp:a")) = Some s0 ∧
    server_select sample_listen (OnConfig (sample_admin (bytes_of "tcp:b"))) s0 = Some s1 ∧
    server_select sample_listen OnClosed (server_stops 0 s1) = Some (server_stops 0 s1) ∧
    server_select sample_listen (OnConfig (sample_admin (bytes_of "tcp:a"))) (server_stops 0 s1) = Some (server_stops 0 s1).
Proof.
  destruct (NewServer sample_listen (sample_admin (bytes_of "tcp:a"))) as [s0|] eqn:E; [|discriminate E].
  destruct (admin_reload_sticks sample_listen (sample_admin (bytes_of "tcp:a")) (sample_admin (bytes_of "tcp:b")) s0 E eq_refl
    ltac:(discriminate) eq_refl) as (s1 & H1 & _ & _ & H2 & H3).
  exists s0, s1. split; [reflexivity|]. split; [exact H1|]. split; [exact H2|exact (H3 true)].
Defined.

(** ** [server.go]: the requests *)

(** What the entries of the tree do besides what [APINavigatable] says. *)
Class AdminEntry (St E Form : Type) `{APINavigatable St E} := {
  entry_Get : text → E → M St (api_error + option E);
  entry_Call : Form → E → M St (api_error + text);
  entry_JSON : E → M St (api_error + text);
}.

Definition slash : byte := "/"%byte.

(** [strings.Split(s, "/")]. *)
Fixpoint split_slash (s : text) : list text :=
  match s with
  | [] => [[]]
  | c :: s' =>
      if decide (c = slash) then [] :: split_slash s'
      else match split_slash s' with p :: ps => (c :: p) :: ps | [] => [[c]] end
  end.

Lemma split_slash_app a b : slash ∉ a → split_slash (a ++ slash :: b) = a :: split_slash b.
Proof.
  induction a as [|c a IH]; intros Ha; [done|].
  cbn [app split_slash]. rewrite decide_False by (intros ->; apply Ha; by left). rewrite IH; [done|]. intros Hin. apply Ha. by right.
Qed.

Lemma split_slash_one a : slash ∉ a → split_slash a = [a].
Proof.
  induction a as [|c a IH]; intros Ha; [done|]. cbn [split_slash].
  rewrite decide_False by (intros ->; apply Ha; by left). rewrite IH; [done|]. intros Hin. apply Ha. by right.
Qed.

Definition error_text (syntax : text → text) (e : api_error) : text :=
  match e with
  | ErrNotImplemented => bytes_of "Not Implemented"
  | ErrNotFound => bytes_of "Not Found"
  | ErrSyntax path => syntax path
  | ErrEntry message => message
  end.

Section Requests.
Context {St E Form : Type} `{AdminEntry St E Form}.
(** The message of [strconv.ParseInt]'s error, and the JSON of a result and of an
    error. *)
Context (syntax : text → text) (json_result json_error : text → text) (json_decode : text → option (option text)).
(** [ParseForm]: the values posted and those of the query, or the error of either. *)
Context (ParseForm : Form → text → api_error + Form).

(** A request as the server reads it: the path of its URL decoded, its query not. *)
Record request := mkRequest { rq_method : text; rq_path : text; rq_query : text; rq_posted : Form }.

Definition is_pretty (query : text) : bool := bool_decide (Values_Get (bytes_of "w") (url_Query query) = bytes_of "pretty").
Definition rq_pretty (r : request) : bool := is_pretty (rq_query r).
Record response := mkResponse { rs_code : Z; rs_type : text; rs_body : text }.

Definition StatusOK : Z := 200.
Definition StatusNotFound : Z := 404.
Definition StatusMethodNotAllowed : Z := 405.
Definition StatusInternalServerError : Z := 500.
Definition StatusNotImplemented : Z := 501.

(** [http.Error] ends the body with a newline. *)
Definition http_Error (message : text) (code : Z) : response := mkResponse code (bytes_of "text/plain; charset=utf-8") (message ++ [newline]).

Definition errorResponse (e : api_error) (code : Z) : response := http_Error (json_error (error_text syntax e)) code.

(** [handlePanic], for the errors the handlers panic with.  A runtime error is not
    answered here: the panic goes on. *)
Definition handlePanic (e : api_error) : response :=
  errorResponse e (match e with
    | ErrNotFound => StatusNotFound
    | ErrNotImplemented => StatusNotImplemented
    | _ => StatusInternalServerError
    end).

Definition reply (pretty : bool) (body : text) : response :=
  mkResponse StatusOK (if pretty then bytes_of "text/plain" else bytes_of "application/json") body.

Fixpoint navigate (parts : list text) (root : E) : M St (api_error + E) :=
  match parts with
  | [] => mret (inr root)
  | part :: parts' =>
      r ← entry_Get part root;
      match r with
      | inl e => mret (inl e)
      | inr None => mret (inl ErrNotFound)
      | inr (Some new) => navigate parts' new
      end
  end.

Definition path_parts (path : text) : option (list text) :=
  match path with
  | [] => None
  | c :: rest => if decide (c = slash) then Some (if decide (split_slash rest = [[]]) then [] else split_slash rest) else None
  end.

Definition handleRequest (r : request) (root : E) : M St response :=
  body ← (if rq_pretty r then HumanReadable [] root else entry_JSON root);
  match body with
  | inl e => mret (handlePanic e)
  | inr body => mret (reply (rq_pretty r) body)
  end.

Definition handleCall (r : request) (root : E) : M St response :=
  match ParseForm (rq_posted r) (rq_query r) with
  | inl e => mret (handlePanic e)
  | inr form =>
      result ← entry_Call form root;
      match result with
      | inl e => mret (handlePanic e)
      | inr result => mret (reply (rq_pretty r) (if rq_pretty r then result else json_result result))
      end
  end.

Definition handle (r : request) (root : E) : M St response :=
  if decide (rq_method r ∉ [bytes_of "GET"; bytes_of "POST"; bytes_of "PUT"])
  then mret (http_Error (bytes_of "Method Not Allowed") StatusMethodNotAllowed)
  else
    match path_parts (rq_path r) with
    | None => mret (handlePanic ErrNotFound)
    | Some parts =>
        e ← navigate parts root;
        match e with
        | inl e => mret (handlePanic e)
        | inr entry =>
            if decide (rq_method r ≠ bytes_of "GET") then handleCall r entry
            else
              u ← Update entry;
              match u with
              | Some e => mret (handlePanic e)
              | None => handleRequest r entry
              end
        end
    end.

(** ** [client.go] *)
Inductive client_error := ClientNotFound | ClientUnknown (message : text) | ClientJSON | ClientURL.

Definition handleError (code : Z) (body : text) : client_error + text :=
  if decide (code = StatusNotFound) then inl ClientNotFound
  else
    match json_decode body with
    | None => inl ClientJSON
    | Some (Some message) => inl (ClientUnknown message)
    | Some None => inr body
    end.

Definition handleResponse (r : response) : client_error + text :=
  if decide (rs_code r ≠ StatusOK) then handleError (rs_code r) (rs_body r) else inr (rs_body r).

(** The URL that both methods make of a path: the path is put into it as it is.  A
    query with a space or a control byte makes no request line that is understood. *)
Definition client_url (path : text) : option URL :=
  u ← url_Parse (slash :: path ++ bytes_of "?w=pretty");
  if forallb (fun c => negb (byte_in 0 0x20 c || byte_in 0x7F 0x7F c)) (url_RawQuery u) then Some u else None.

Definition exchange (r : request) (root : E) : M St (client_error + text) :=
  response ← handle r root; mret (handleResponse response).

(** One request: over HTTP to the server and back. *)
Definition client_do (method path : text) (posted : Form) (root : E) : M St (client_error + text) :=
  match client_url path with
  | None => mret (inl ClientURL)
  | Some u => exchange (mkRequest method (url_Path u) (url_RawQuery u) posted) root
  end.

(** [Client.Call] and [Client.Request]; [callMap] is [reload]. *)
Definition client_Call (path : text) (values : Form) : E → M St (client_error + text) := client_do (bytes_of "POST") path values.

Definition client_Request (empty : Form) (path : text) : E → M St (client_error + text) :=
  if decide (path = bytes_of "reload") then client_Call path empty else client_do (bytes_of "GET") path empty.

(** ** The promise: the client sees what the tree says *)

(** What the client is to report for an error of the tree: JSON carries its
    message. *)
Definition client_sees (e : api_error) : client_error :=
  match e with ErrNotFound => ClientNotFound | e => ClientUnknown (coerce_utf8 (error_text syntax e)) end.

(** The entry at the path of a URL, then its rendering or its call. *)
Definition tree_request (path : text) (act : E → M St (api_error + text)) (root : E) : M St (client_error + text) :=
  match path_parts path with
  | None => mret (inl ClientNotFound)
  | Some parts =>
      e ← navigate parts root;
      match e with
      | inl e => mret (inl (client_sees e))
      | inr entry =>
          r ← act entry;
          match r with inl e => mret (inl (client_sees e)) | inr t => mret (inr t) end
      end
  end.

Definition tree_show (pretty : bool) (entry : E) : M St (api_error + text) :=
  u ← Update entry;
  match u with
  | Some e => mret (inl e)
  | None => if pretty then HumanReadable [] entry else entry_JSON entry
  end.

Definition tree_call (query : text) (values : Form) (entry : E) : M St (api_error + text) :=
  match ParseForm values query with
  | inl e => mret (inl e)
  | inr form =>
      r ← entry_Call form entry;
      mret (match r with inl e => inl e | inr t => inr (if is_pretty query then t else json_result t) end)
  end.

(** The bytes that end the path of a URL or are escapes. *)
Definition url_plain (c : byte) : bool := bool_decide (c ∉ [percent; question; pound]).

Lemma client_url_plain path : forallb url_plain path = true → client_url path = Some (mkURL (slash :: path) (bytes_of "w=pretty")).
Proof.
  intros Hp. unfold client_url, url_Parse.
  assert (Hone : ∀ c, c ∈ [percent; question; pound] → forallb (fun x => negb (bool_decide (x = c))) (slash :: path) = true).
  { intros c Hc. cbn [forallb]. apply andb_true_iff. split; [by repeat (apply elem_of_cons in Hc as [->|Hc]; [done|]); apply elem_of_nil in Hc|].
    revert Hp. induction path as [|x path IH]; [done|]. cbn [forallb]. intros [Hx Hp]%andb_true_iff. rewrite (IH Hp), andb_true_r.
    apply bool_decide_eq_true in Hx. apply negb_true_iff, bool_decide_eq_false. intros ->. by apply Hx. }
  rewrite split_first_none.
  2: { rewrite app_comm_cons, forallb_app, Hone by set_solver. done. }
  change (bytes_of "?w=pretty") with (question :: bytes_of "w=pretty").
  rewrite app_comm_cons, (split_first_app _ (slash :: path)) by (done || (apply Hone; set_solver)).
  rewrite path_unescape_plain; [done|]. pose proof (Hone percent ltac:(set_solver)) as Hc. revert Hc. generalize (slash :: path). intros l.
  induction l as [|x l IH]; [done|]. cbn [forallb]. intros [Hx Hl]%andb_true_iff. rewrite (IH Hl), andb_true_r.
  apply negb_true_iff, bool_decide_eq_false in Hx. by apply bool_decide_eq_true.
Qed.

(** JSON carries a string as UTF-8. *)
Context (json_answers : ∀ m, json_decode (json_error m ++ [newline]) = Some (Some (coerce_utf8 m))).

Lemma client_error_sees e : handleResponse (handlePanic e) = inl (client_sees e).
Proof. unfold handleResponse, handlePanic, errorResponse, http_Error, handleError. destruct e; simpl; by rewrite ?json_answers. Qed.

Lemma client_reply_sees pretty body : handleResponse (reply pretty body) = inr body.
Proof. done. Qed.

(** The exchange for a call, and for any other request. *)
Lemma exchange_call path query values root s :
  exchange (mkRequest (bytes_of "POST") path query values) root s = tree_request path (tree_call query values) root s.
Proof.
  unfold exchange, tree_request, handle. cbn [rq_method rq_path].
  rewrite decide_False by (intros Hn; apply Hn; vm_compute; set_solver).
  destruct (path_parts path) as [parts|]; [|monad; by rewrite client_error_sees].
  monad. destruct (navigate parts root s) as [[[e|entry] s1]| |]; [by rewrite client_error_sees| |done..].
  rewrite decide_True by (intros Heq; vm_compute in Heq; discriminate Heq). unfold handleCall, tree_call. cbn [rq_posted rq_query].
  destruct (ParseForm values query) as [e|form]; monad; [by rewrite client_error_sees|].
  destruct (entry_Call form entry s1) as [[[e|t] s2]| |]; [by rewrite client_error_sees|done..].
Qed.

Lemma exchange_show path query values root s :
  exchange (mkRequest (bytes_of "GET") path query values) root s = tree_request path (tree_show (is_pretty query)) root s.
Proof.
  unfold exchange, tree_request, handle. cbn [rq_method rq_path].
  rewrite decide_False by (intros Hn; apply Hn; vm_compute; set_solver).
  destruct (path_parts path) as [parts|]; [|monad; by rewrite client_error_sees].
  monad. destruct (navigate parts root s) as [[[e|entry] s1]| |]; [by rewrite client_error_sees| |done..].
  rewrite decide_False by (intros Hn; by apply Hn). unfold tree_show, handleRequest. change (rq_pretty _) with (is_pretty query). monad.
  destruct (Update entry s1) as [[[e|] s2]| |]; [by rewrite client_error_sees| |done..].
  destruct (if is_pretty query then HumanReadable [] entry s2 else entry_JSON entry s2) as [[[e|t] s3]| |] eqn:Er;
    destruct (is_pretty query); rewrite Er; by rewrite ?client_error_sees.
Qed.

(** For a path without bytes that mean something in a URL. *)
Lemma Request_plain empty path root s : path ≠ bytes_of "reload" → forallb url_plain path = true →
  client_Request empty path root s = tree_request (slash :: path) (tree_show true) root s.
Proof.
  intros Hr Hp. unfold client_Request, client_do. rewrite decide_False, (client_url_plain _ Hp) by done. apply exchange_show.
Qed.

Lemma Request_reload empty root s :
  client_Request empty (bytes_of "reload") root s = tree_request (slash :: bytes_of "reload") (tree_call (bytes_of "w=pretty") empty) root s.
Proof. unfold client_Request, client_Call, client_do. rewrite decide_True by done. apply exchange_call. Qed.

(** C31. A request of the client, but for [reload], is answered with the entry that
    the path of its URL leads to, refreshed first: its rendering when the query of
    the URL asks for it, its JSON otherwise; [reload] and every call is answered
    with the result of the call, given the posted values and those of the query.
    An error comes back as it was in the tree: not found as such, any other with
    its message, as far as that is UTF-8.  Nothing else is reported, for any tree.
    The path of the URL is the path asked for, and the rendering is asked for, when
    the path has none of the bytes %, ? and #: the client does not escape them. *)
Theorem admin_exchange empty values path root s :
  (forallb url_plain path = true → client_url path = Some (mkURL (slash :: path) (bytes_of "w=pretty"))) ∧
  (∀ u, client_url path = Some u →
    (path ≠ bytes_of "reload" →
      client_Request empty path root s = tree_request (url_Path u) (tree_show (is_pretty (url_RawQuery u))) root s) ∧
    client_Call path values root s = tree_request (url_Path u) (tree_call (url_RawQuery u) values) root s) ∧
  client_Request empty (bytes_of "reload") root s = tree_request (slash :: bytes_of "reload") (tree_call (bytes_of "w=pretty") empty) root s.
Proof.
  split; [apply client_url_plain|]. split; [|apply Request_reload]. intros u Hu. split.
  - intros Hr. unfold client_Request, client_do. rewrite decide_False, Hu by done. apply exchange_show.
  - unfold client_Call, client_do. rewrite Hu. apply exchange_call.
Qed.
End Requests.

(** ** [apiroot.go], and the data and callback entries of [api.go] *)
Section Root.
(** [X] are the entries the parts of the program set under the root. *)
Context {St Form X : Type} `{AdminEntry St X Form}.
Context (FormatFloat : float64 → text) (JSON : APIData → text) (JSON_map : list (text * text) → text).

Inductive base_entry := APIDataEntry (d : APIData) | APICallbackEntry (f : Form → M St (api_error + text)).

Definition base_HumanReadable (e : base_entry) : text :=
  match e with APIDataEntry d => data_HumanReadable FormatFloat d | APICallbackEntry _ => bytes_of "callback" end.
Definition base_JSON (e : base_entry) : text :=
  match e with APIDataEntry d => JSON d | APICallbackEntry _ => bytes_of "null" end.
Definition base_Call (form : Form) (e : base_entry) : M St (api_error + text) :=
  match e with APIDataEntry _ => mret (inl ErrNotImplemented) | APICallbackEntry f => f form end.

(** What the root holds. *)
Inductive root_child := BaseEntry (e : base_entry) | PartEntry (x : X).

#[export] Instance APINavigatable_child : APINavigatable St root_child := {
  HumanReadable indent c := match c with BaseEntry b => mret (inr (base_HumanReadable b)) | PartEntry x => HumanReadable indent x end;
  Update c := match c with BaseEntry _ => mret None | PartEntry x => Update x end;
}.

(** The root: a node, and the debug entry which is only found by its name. *)
Record apiRoot := mkRoot { root_node : APINode root_child; debug : base_entry }.

Definition root_Get (path : text) (r : apiRoot) : option root_child :=
  if decide (path = bytes_of "debug") then Some (BaseEntry (debug r)) else node_Get path (root_node r).

(** [Config.SetEntry]. *)
Definition root_SetEntry (path : text) (x : X) (r : apiRoot) : apiRoot :=
  mkRoot (node_SetEntry path (PartEntry x) (root_node r)) (debug r).

(** [reload] is the reload function of the program; an error is its message. *)
Definition newAPIRoot (version : text) (debug_ : base_entry) (reload : M St (option text)) : apiRoot :=
  mkRoot
    (node_SetEntry (bytes_of "reload") (BaseEntry (APICallbackEntry (fun _ =>
       e ← reload;
       match e with
       | Some m => mret (inl (ErrEntry m))
       | None => mret (inr (bytes_of "Successfully reloaded configuration"))
       end)))
     (node_SetEntry (bytes_of "version") (BaseEntry (APIDataEntry (APIString version))) (mkNode ∅)))
    debug_.

(** An entry of the tree: the root or one below it. *)
Inductive root_entry := RootEntry (r : apiRoot) | ChildEntry (c : root_child).

(** The JSON of the entries of a node, by their keys. *)
Fixpoint node_JSON {E} (json : E → M St (api_error + text)) (m : gmap text E) (keys : list text) : M St (api_error + list (text * text)) :=
  match keys with
  | [] => mret (inr [])
  | k :: ks =>
      match m !! k with
      | None => node_JSON json m ks
      | Some e =>
          r ← json e;
          match r with
          | inl err => mret (inl err)
          | inr t => r' ← node_JSON json m ks; mret (match r' with inl err => inl err | inr l => inr ((k, t) :: l) end)
          end
      end
  end.

Definition child_JSON (c : root_child) : M St (api_error + text) :=
  match c with BaseEntry b => mret (inr (base_JSON b)) | PartEntry x => entry_JSON x end.

#[export] Instance APINavigatable_root : APINavigatable St root_entry := {
  HumanReadable indent e :=
    match e with RootEntry r => node_HumanReadable indent (root_node r) | ChildEntry c => HumanReadable indent c end;
  Update e := match e with RootEntry r => node_Update id (root_node r) | ChildEntry c => Update c end;
}.

#[export] Instance AdminEntry_root : AdminEntry St root_entry Form := {
  entry_Get path e :=
    match e with
    | RootEntry r => mret (inr (ChildEntry <$> root_Get path r))
    | ChildEntry (BaseEntry _) => mret (inr None)
    | ChildEntry (PartEntry x) =>
        r ← entry_Get path x;
        mret (match r with inl err => inl err | inr o => inr ((fun y => ChildEntry (PartEntry y)) <$> o) end)
    end;
  entry_Call form e :=
    match e with
    | RootEntry _ => mret (inl ErrNotImplemented)
    | ChildEntry (BaseEntry b) => base_Call form b
    | ChildEntry (PartEntry x) => entry_Call form x
    end;
  entry_JSON e :=
    match e with
    | RootEntry r =>
        l ← node_JSON child_JSON (children (root_node r)) (sorted_keys (children (root_node r)));
        mret (match l with inl err => inl err | inr l => inr (JSON_map l) end)
    | ChildEntry c => child_JSON c
    end;
}.
End Root.

(** A tree with nothing but the entries of the root. *)
#[local] Instance sample_navigatable_none : APINavigatable nat Empty_set := { HumanReadable _ e := match e with end; Update e := match e with end }.
#[local] Instance sample_entries_none : AdminEntry nat Empty_set unit :=
  { entry_Get _ e := match e with end; entry_Call _ e := match e with end; entry_JSON e := match e with end }.
Abbreviation sample_entry := (root_entry (St := nat) (Form := unit) (X := Empty_set)).
#[local] Instance sample_navigatable : APINavigatable nat sample_entry := APINavigatable_root (fun _ => []).
#[local] Instance sample_entries : AdminEntry nat sample_entry unit :=
  AdminEntry_root (fun _ => []) (fun _ => []) (fun _ => []).

(** A tree whose reload counts its calls and fails the second time. *)
Definition sample_reload : M nat (option text) := fun n => Ret (if decide (n = 1) then Some (bytes_of "broken") else None, S n).
Definition sample_root : sample_entry :=
  RootEntry (newAPIRoot (bytes_of "1.8.3") (APIDataEntry APINull) sample_reload).
(** Texts stand for their own JSON; a body that starts with a brace is an error. *)
Definition sample_json_error (m : text) : text := bytes_of "{" ++ coerce_utf8 m.
Definition sample_json_decode (body : text) : option (option text) :=
  match body with c :: m => if decide (c = "{"%byte) then Some (Some (take (length m - 1) m)) else None | [] => None end.
(** No form has values. *)
Definition sample_ParseForm (form : unit) (query : text) : api_error + unit := inr tt.

Lemma sample_json_answers m : sample_json_decode (sample_json_error m ++ [newline]) = Some (Some (coerce_utf8 m)).
Proof.
  unfold sample_json_error, sample_json_decode. simpl. rewrite length_app. simpl.
  replace (length (coerce_utf8 m) + 1 - 1) with (length (coerce_utf8 m)) by lia. by rewrite take_app_length.
Qed.

Definition sample_ask (path : text) (n : nat) : option (client_error + text) :=
  match client_Request id id sample_json_error sample_json_decode sample_ParseForm tt path sample_root n with Ret (x, _) => Some x | _ => None end.

Example sample_version : sample_ask (bytes_of "version") 0 = Some (inr (bytes_of "1.8.3")).
Proof. vm_compute. reflexivity. Qed.
Example sample_reloaded : sample_ask (bytes_of "reload") 0 = Some (inr (bytes_of "Successfully reloaded configuration")).
Proof. vm_compute. reflexivity. Qed.
Example sample_broken : sample_ask (bytes_of "reload") 1 = Some (inl (ClientUnknown (bytes_of "broken"))).
Proof. vm_compute. reflexivity. Qed.
Example sample_missing : sample_ask (bytes_of "version/x") 0 = Some (inl ClientNotFound).
Proof. vm_compute. reflexivity. Qed.
Example sample_tree : sample_ask [] 0 =
  Some (inr (bytes_of "reload: callback" ++ [newline] ++ bytes_of "version: 1.8.3" ++ [newline])).
Proof. vm_compute. reflexivity. Qed.

(** A path that is not escaped: an escape is undone, the rest of it can become the
    query and lose the [w=pretty] - the answer is then the JSON of the entry, here
    empty - or the fragment, and a wrong escape is no URL. *)
Example sample_escape : sample_ask (bytes_of "%76ersion") 0 = Some (inr (bytes_of "1.8.3")).
Proof. vm_compute. reflexivity. Qed.
Example sample_query : sample_ask (bytes_of "version?x") 0 = Some (inr []).
Proof. vm_compute. reflexivity. Qed.
Example sample_query_kept : sample_ask (bytes_of "version?w=pretty&") 0 = Some (inr (bytes_of "1.8.3")).
Proof. vm_compute. reflexivity. Qed.
Example sample_fragment : sample_ask (bytes_of "version#x") 0 = Some (inr []).
Proof. vm_compute. reflexivity. Qed.
Example sample_no_url : sample_ask (bytes_of "100%") 0 = Some (inl ClientURL).
Proof. vm_compute. reflexivity. Qed.

Lemma admin_exchange_witness :
  client_Request id id sample_json_error sample_json_decode sample_ParseForm tt (bytes_of "version") sample_root 0 =
    tree_request id (slash :: bytes_of "version") (tree_show true) sample_root 0.
Proof.
  destruct (admin_exchange (Form := unit) id id sample_json_error sample_json_decode sample_ParseForm sample_json_answers tt tt (bytes_of "version") sample_root 0)
    as (Hu & Hr & _).
  destruct (Hr _ (Hu eq_refl)) as [Hreq _]. apply Hreq. intros Heq. vm_compute in Heq. discriminate Heq.
Defined.
