(* ===== verification/Config.v ===== *)
(** * lc-lib/config/config.go: the configuration and its validation

    The structures with their defaults and option names, the loading of a file and
    its includes, the checks of [Load], and the conversion of the maps a YAML file
    leaves with keys of any type.  Reading and decoding a file, globbing, the host
    name and the registered codecs, transports and sections are parameters. *)
From S2P Require Import Prelude Core Codecs ConfigParser.

(** A [map[string]interface{}]. *)
Abbreviation attrs := (list (value * value)).

Record General := mkGeneral {
  GlobalFields : attrs;
  g_Host : text;
  LineBufferBytes : Z;
  LogFile : text;
  LogLevel : Z;
  LogStdout : bool;
  LogSyslog : bool;
  MaxLineBytes : Z;
  PersistDir : text;
  ProspectInterval : Z;
  SpoolSize : Z;
  SpoolMaxBytes : Z;
  SpoolTimeout : Z;
}.

Record CodecStub (CF : Type) := mkCodecStub { cs_Name : text; cs_Unused : attrs; cs_Factory : option CF }.
Arguments mkCodecStub {CF}.
Arguments cs_Name {CF}.
Arguments cs_Unused {CF}.
Arguments cs_Factory {CF}.

Record StreamConfig (CF : Type) := mkStreamConfig {
  AddHostField : bool;
  AddOffsetField : bool;
  AddPathField : bool;
  AddTimezoneField : bool;
  sc_Codecs : list (CodecStub CF);
  DeadTime : Z;
  Fields : attrs;
}.
Arguments mkStreamConfig {CF}.
Arguments AddHostField {CF}.
Arguments AddOffsetField {CF}.
Arguments AddPathField {CF}.
Arguments AddTimezoneField {CF}.
Arguments sc_Codecs {CF}.
Arguments DeadTime {CF}.
Arguments Fields {CF}.

Record File (CF : Type) := mkFile { Paths : list text; f_Stream : StreamConfig CF }.
Arguments mkFile {CF}.
Arguments Paths {CF}.
Arguments f_Stream {CF}.

(** The whole network section; [Core.Network] is the part the publisher uses.  An
    address pool is named by its server. *)
Record NetworkConfig (TF : Type) := mkNetworkConfig {
  nc_Factory : option TF;
  nc_AddressPools : list text;
  nc_Backoff : Z;
  nc_BackoffMax : Z;
  nc_MaxPendingPayloads : Z;
  nc_Method : text;
  Rfc2782Service : text;
  Rfc2782Srv : bool;
  nc_Servers : list text;
  nc_Timeout : Z;
  nc_Transport : text;
  nc_Unused : attrs;
}.
Arguments mkNetworkConfig {TF}.
Arguments nc_Factory {TF}.
Arguments nc_AddressPools {TF}.
Arguments nc_Backoff {TF}.
Arguments nc_BackoffMax {TF}.
Arguments nc_MaxPendingPayloads {TF}.
Arguments nc_Method {TF}.
Arguments Rfc2782Service {TF}.
Arguments Rfc2782Srv {TF}.
Arguments nc_Servers {TF}.
Arguments nc_Timeout {TF}.
Arguments nc_Transport {TF}.
Arguments nc_Unused {TF}.

(** ** Defaults *)
Definition zeroGeneral : General := mkGeneral [] [] 0 [] 0 false false 0 [] 0 0 0 0.

Section Defaults.
Context (DefaultGeneralPersistDir : text).

(** [logging.INFO] is 4. *)
Definition General_InitDefaults (g : General) : General :=
  mkGeneral (GlobalFields g) (g_Host g) 16384 (LogFile g) 4 true false 1048576 DefaultGeneralPersistDir
    (10 * Second) 1024 10485760 (5 * Second).
End Defaults.

Section Config.
Context {CF TF Sec : Type}.
Context (DefaultGeneralPersistDir : text).
Context (ParseDuration : text → option Z) (ParseLevel : text → option Z).

Definition zeroStream : StreamConfig CF := mkStreamConfig false false false false [] 0 [].
Definition zeroNetwork : NetworkConfig TF := mkNetworkConfig None [] 0 0 0 [] [] false [] 0 [] [].

Definition Stream_InitDefaults (s : StreamConfig CF) : StreamConfig CF :=
  mkStreamConfig true true true false (sc_Codecs s) (3600 * Second) (Fields s).

Definition Network_InitDefaults (n : NetworkConfig TF) : NetworkConfig TF :=
  mkNetworkConfig (nc_Factory n) (nc_AddressPools n) (5 * Second) (300 * Second) 10 (bytes_of "random")
    (bytes_of "courier") true (nc_Servers n) (15 * Second) (bytes_of "tls") (nc_Unused n).

(** ** Option tables *)
Definition general_fields : list (field General) :=
  [entry_value (bytes_of "global fields") GlobalFields (fun v g => mkGeneral v (g_Host g) (LineBufferBytes g) (LogFile g) (LogLevel g) (LogStdout g) (LogSyslog g) (MaxLineBytes g) (PersistDir g) (ProspectInterval g) (SpoolSize g) (SpoolMaxBytes g) (SpoolTimeout g)) conv_map;
   entry_value (bytes_of "host") g_Host (fun v g => mkGeneral (GlobalFields g) v (LineBufferBytes g) (LogFile g) (LogLevel g) (LogStdout g) (LogSyslog g) (MaxLineBytes g) (PersistDir g) (ProspectInterval g) (SpoolSize g) (SpoolMaxBytes g) (SpoolTimeout g)) conv_string;
   entry_value (bytes_of "line buffer bytes") LineBufferBytes (fun v g => mkGeneral (GlobalFields g) (g_Host g) v (LogFile g) (LogLevel g) (LogStdout g) (LogSyslog g) (MaxLineBytes g) (PersistDir g) (ProspectInterval g) (SpoolSize g) (SpoolMaxBytes g) (SpoolTimeout g)) conv_int64;
   entry_value (bytes_of "log file") LogFile (fun v g => mkGeneral (GlobalFields g) (g_Host g) (LineBufferBytes g) v (LogLevel g) (LogStdout g) (LogSyslog g) (MaxLineBytes g) (PersistDir g) (ProspectInterval g) (SpoolSize g) (SpoolMaxBytes g) (SpoolTimeout g)) conv_string;
   entry_value (bytes_of "log level") LogLevel (fun v g => mkGeneral (GlobalFields g) (g_Host g) (LineBufferBytes g) (LogFile g) v (LogStdout g) (LogSyslog g) (MaxLineBytes g) (PersistDir g) (ProspectInterval g) (SpoolSize g) (SpoolMaxBytes g) (SpoolTimeout g)) (conv_level ParseLevel);
   entry_value (bytes_of "log stdout") LogStdout (fun v g => mkGeneral (GlobalFields g) (g_Host g) (LineBufferBytes g) (LogFile g) (LogLevel g) v (LogSyslog g) (MaxLineBytes g) (PersistDir g) (ProspectInterval g) (SpoolSize g) (SpoolMaxBytes g) (SpoolTimeout g)) conv_bool;
   entry_value (bytes_of "log syslog") LogSyslog (fun v g => mkGeneral (GlobalFields g) (g_Host g) (LineBufferBytes g) (LogFile g) (LogLevel g) (LogStdout g) v (MaxLineBytes g) (PersistDir g) (ProspectInterval g) (SpoolSize g) (SpoolMaxBytes g) (SpoolTimeout g)) conv_bool;
   entry_value (bytes_of "max line bytes") MaxLineBytes (fun v g => mkGeneral (GlobalFields g) (g_Host g) (LineBufferBytes g) (LogFile g) (LogLevel g) (LogStdout g) (LogSyslog g) v (PersistDir g) (ProspectInterval g) (SpoolSize g) (SpoolMaxBytes g) (SpoolTimeout g)) conv_int64;
   entry_value (bytes_of "persist directory") PersistDir (fun v g => mkGeneral (GlobalFields g) (g_Host g) (LineBufferBytes g) (LogFile g) (LogLevel g) (LogStdout g) (LogSyslog g) (MaxLineBytes g) v (ProspectInterval g) (SpoolSize g) (SpoolMaxBytes g) (SpoolTimeout g)) conv_string;
   entry_value (bytes_of "prospect interval") ProspectInterval (fun v g => mkGeneral (GlobalFields g) (g_Host g) (LineBufferBytes g) (LogFile g) (LogLevel g) (LogStdout g) (LogSyslog g) (MaxLineBytes g) (PersistDir g) v (SpoolSize g) (SpoolMaxBytes g) (SpoolTimeout g)) (conv_duration ParseDuration);
   entry_value (bytes_of "spool size") SpoolSize (fun v g => mkGeneral (GlobalFields g) (g_Host g) (LineBufferBytes g) (LogFile g) (LogLevel g) (LogStdout g) (LogSyslog g) (MaxLineBytes g) (PersistDir g) (ProspectInterval g) v (SpoolMaxBytes g) (SpoolTimeout g)) conv_int64;
   entry_value (bytes_of "spool max bytes") SpoolMaxBytes (fun v g => mkGeneral (GlobalFields g) (g_Host g) (LineBufferBytes g) (LogFile g) (LogLevel g) (LogStdout g) (LogSyslog g) (MaxLineBytes g) (PersistDir g) (ProspectInterval g) (SpoolSize g) v (SpoolTimeout g)) conv_int64;
   entry_value (bytes_of "spool timeout") SpoolTimeout (fun v g => mkGeneral (GlobalFields g) (g_Host g) (LineBufferBytes g) (LogFile g) (LogLevel g) (LogStdout g) (LogSyslog g) (MaxLineBytes g) (PersistDir g) (ProspectInterval g) (SpoolSize g) (SpoolMaxBytes g) v) (conv_duration ParseDuration)].

Definition populate_general : raw → text → General → R (raw * General) :=
  populateStruct (General_InitDefaults DefaultGeneralPersistDir) general_fields None.

Definition network_fields : list (field (NetworkConfig TF)) :=
  [entry_value (bytes_of "failure backoff") nc_Backoff (fun v n => mkNetworkConfig (nc_Factory n) (nc_AddressPools n) v (nc_BackoffMax n) (nc_MaxPendingPayloads n) (nc_Method n) (Rfc2782Service n) (Rfc2782Srv n) (nc_Servers n) (nc_Timeout n) (nc_Transport n) (nc_Unused n)) (conv_duration ParseDuration);
   entry_value (bytes_of "failure backoff max") nc_BackoffMax (fun v n => mkNetworkConfig (nc_Factory n) (nc_AddressPools n) (nc_Backoff n) v (nc_MaxPendingPayloads n) (nc_Method n) (Rfc2782Service n) (Rfc2782Srv n) (nc_Servers n) (nc_Timeout n) (nc_Transport n) (nc_Unused n)) (conv_duration ParseDuration);
   entry_value (bytes_of "max pending payloads") nc_MaxPendingPayloads (fun v n => mkNetworkConfig (nc_Factory n) (nc_AddressPools n) (nc_Backoff n) (nc_BackoffMax n) v (nc_Method n) (Rfc2782Service n) (Rfc2782Srv n) (nc_Servers n) (nc_Timeout n) (nc_Transport n) (nc_Unused n)) conv_int64;
   entry_value (bytes_of "method") nc_Method (fun v n => mkNetworkConfig (nc_Factory n) (nc_AddressPools n) (nc_Backoff n) (nc_BackoffMax n) (nc_MaxPendingPayloads n) v (Rfc2782Service n) (Rfc2782Srv n) (nc_Servers n) (nc_Timeout n) (nc_Transport n) (nc_Unused n)) conv_string;
   entry_value (bytes_of "rfc 2782 service") Rfc2782Service (fun v n => mkNetworkConfig (nc_Factory n) (nc_AddressPools n) (nc_Backoff n) (nc_BackoffMax n) (nc_MaxPendingPayloads n) (nc_Method n) v (Rfc2782Srv n) (nc_Servers n) (nc_Timeout n) (nc_Transport n) (nc_Unused n)) conv_string;
   entry_value (bytes_of "rfc 2782 srv") Rfc2782Srv (fun v n => mkNetworkConfig (nc_Factory n) (nc_AddressPools n) (nc_Backoff n) (nc_BackoffMax n) (nc_MaxPendingPayloads n) (nc_Method n) (Rfc2782Service n) v (nc_Servers n) (nc_Timeout n) (nc_Transport n) (nc_Unused n)) conv_bool;
   entry_value (bytes_of "servers") nc_Servers (fun v n => mkNetworkConfig (nc_Factory n) (nc_AddressPools n) (nc_Backoff n) (nc_BackoffMax n) (nc_MaxPendingPayloads n) (nc_Method n) (Rfc2782Service n) (Rfc2782Srv n) v (nc_Timeout n) (nc_Transport n) (nc_Unused n)) conv_strings;
   entry_value (bytes_of "timeout") nc_Timeout (fun v n => mkNetworkConfig (nc_Factory n) (nc_AddressPools n) (nc_Backoff n) (nc_BackoffMax n) (nc_MaxPendingPayloads n) (nc_Method n) (Rfc2782Service n) (Rfc2782Srv n) (nc_Servers n) v (nc_Transport n) (nc_Unused n)) (conv_duration ParseDuration);
   entry_value (bytes_of "transport") nc_Transport (fun v n => mkNetworkConfig (nc_Factory n) (nc_AddressPools n) (nc_Backoff n) (nc_BackoffMax n) (nc_MaxPendingPayloads n) (nc_Method n) (Rfc2782Service n) (Rfc2782Srv n) (nc_Servers n) (nc_Timeout n) v (nc_Unused n)) conv_string].

Definition network_set_unused (u : attrs) (n : NetworkConfig TF) : NetworkConfig TF :=
  mkNetworkConfig (nc_Factory n) (nc_AddressPools n) (nc_Backoff n) (nc_BackoffMax n) (nc_MaxPendingPayloads n) (nc_Method n)
    (Rfc2782Service n) (Rfc2782Srv n) (nc_Servers n) (nc_Timeout n) (nc_Transport n) u.

Definition populate_network : raw → text → NetworkConfig TF → R (raw * NetworkConfig TF) :=
  populateStruct Network_InitDefaults network_fields (Some network_set_unused).

Definition codec_fields : list (field (CodecStub CF)) :=
  [entry_value (bytes_of "name") cs_Name (fun v c => mkCodecStub v (cs_Unused c) (cs_Factory c)) conv_string].

Definition populate_codec : raw → text → CodecStub CF → R (raw * CodecStub CF) :=
  populateStruct id codec_fields (Some (fun u c => mkCodecStub (cs_Name c) u (cs_Factory c))).

Definition stream_fields : list (field (StreamConfig CF)) :=
  [entry_value (bytes_of "add host field") AddHostField (fun v s => mkStreamConfig v (AddOffsetField s) (AddPathField s) (AddTimezoneField s) (sc_Codecs s) (DeadTime s) (Fields s)) conv_bool;
   entry_value (bytes_of "add offset field") AddOffsetField (fun v s => mkStreamConfig (AddHostField s) v (AddPathField s) (AddTimezoneField s) (sc_Codecs s) (DeadTime s) (Fields s)) conv_bool;
   entry_value (bytes_of "add path field") AddPathField (fun v s => mkStreamConfig (AddHostField s) (AddOffsetField s) v (AddTimezoneField s) (sc_Codecs s) (DeadTime s) (Fields s)) conv_bool;
   entry_value (bytes_of "add timezone field") AddTimezoneField (fun v s => mkStreamConfig (AddHostField s) (AddOffsetField s) (AddPathField s) v (sc_Codecs s) (DeadTime s) (Fields s)) conv_bool;
   entry_value (bytes_of "codecs") sc_Codecs (fun v s => mkStreamConfig (AddHostField s) (AddOffsetField s) (AddPathField s) (AddTimezoneField s) v (DeadTime s) (Fields s))
     (conv_slice (mkCodecStub [] [] None) populate_codec);
   entry_value (bytes_of "dead time") DeadTime (fun v s => mkStreamConfig (AddHostField s) (AddOffsetField s) (AddPathField s) (AddTimezoneField s) (sc_Codecs s) v (Fields s)) (conv_duration ParseDuration);
   entry_value (bytes_of "fields") Fields (fun v s => mkStreamConfig (AddHostField s) (AddOffsetField s) (AddPathField s) (AddTimezoneField s) (sc_Codecs s) (DeadTime s) v) conv_map].

Definition populate_stream : raw → text → StreamConfig CF → R (raw * StreamConfig CF) :=
  populateStruct Stream_InitDefaults stream_fields None.

(** [InitDefaults] of the embedded stream is promoted to the file. *)
Definition file_fields : list (field (File CF)) :=
  [entry_value (bytes_of "paths") Paths (fun v f => mkFile v (f_Stream f)) conv_strings;
   embed f_Stream (fun s f => mkFile (Paths f) s) populate_stream].

Definition populate_file : raw → text → File CF → R (raw * File CF) :=
  populateStruct (fun f => mkFile (Paths f) (Stream_InitDefaults (f_Stream f))) file_fields None.

(** A registered section: its structure and its [Validate]. *)
Context (populate_section : raw → text → Sec → R (raw * Sec)) (Validate : Sec → option text).

Record Config := mkConfig {
  Files : list (File CF);
  c_General : General;
  Includes : list text;
  c_Network : NetworkConfig TF;
  Stdin : StreamConfig CF;
  Sections : list (text * Sec);
}.

(** The sections registered, as their creators make them. *)
Definition NewConfig (registered : list (text * Sec)) : Config :=
  mkConfig [] zeroGeneral [] zeroNetwork zeroStream registered.

Definition set_General (g : General) (c : Config) : Config := mkConfig (Files c) g (Includes c) (c_Network c) (Stdin c) (Sections c).
Definition set_Network (n : NetworkConfig TF) (c : Config) : Config := mkConfig (Files c) (c_General c) (Includes c) n (Stdin c) (Sections c).
Definition set_Files (f : list (File CF)) (c : Config) : Config := mkConfig f (c_General c) (Includes c) (c_Network c) (Stdin c) (Sections c).
Definition set_Stdin (s : StreamConfig CF) (c : Config) : Config := mkConfig (Files c) (c_General c) (Includes c) (c_Network c) s (Sections c).

(** The [dynamic] field: each section takes the entry of its name. *)
Fixpoint populate_sections (done todo : list (text * Sec)) (r : raw) (path : text) (c : Config) : R (raw * Config) :=
  match todo with
  | [] => ok (r, mkConfig (Files c) (c_General c) (Includes c) (c_Network c) (Stdin c) done)
  | (name, s) :: todo' =>
      '(v, r') ← map_take name r;
      let! (_, s') := populate_section v (path ++ name ++ slash) s in
      populate_sections (done ++ [(name, s')]) todo' r' path c
  end.

Definition config_fields : list (field Config) :=
  [entry_value (bytes_of "files") Files set_Files (conv_slice (mkFile [] zeroStream) populate_file);
   entry_struct (bytes_of "general") c_General set_General populate_general;
   entry_value (bytes_of "includes") Includes (fun v c => mkConfig (Files c) (c_General c) v (c_Network c) (Stdin c) (Sections c)) conv_strings;
   entry_struct (bytes_of "network") c_Network set_Network populate_network;
   entry_struct (bytes_of "stdin") Stdin set_Stdin populate_stream;
   fun r path c => populate_sections [] (Sections c) r path c].

Definition PopulateConfig (r : raw) (path : text) (c : Config) : R (raw * Config) := populateStruct id config_fields None r path c.

(** ** Map keys *)

(** [fixMapKeys] ([iface] false) and [fixMapInterfaceKeys] on the values a map
    holds; a value that is no map - a list, too - is left as it is. *)
Fixpoint fix_value (path : text) (v : value) : config_error + value :=
  match v with
  | VMap iface kvs =>
      let fix go kvs : config_error + list (value * value) :=
        match kvs with
        | [] => inr []
        | (VString k, v) :: kvs' =>
            match fix_value (path ++ slash ++ k) v with
            | inl e => inl e
            | inr v' => match go kvs' with inl e => inl e | inr rest => inr ((VString k, v') :: rest) end
            end
        | _ => inl (NonStringKey path)
        end in
      match go kvs with inl e => inl e | inr kvs' => inr (VMap false kvs') end
  | _ => inr v
  end.

Definition fixMapKeys (path : text) (m : attrs) : config_error + attrs :=
  match fix_value path (VMap false m) with
  | inl e => inl e
  | inr (VMap _ m') => inr m'
  | inr _ => inr m
  end.

(** ** Load *)

(** [path.Ext]: from the last dot after the last slash. *)
Fixpoint Ext_rev (r acc : text) : text :=
  match r with
  | [] => []
  | b :: r' =>
      if decide (b = fslash) then []
      else if decide (b = "."%byte) then b :: acc
      else Ext_rev r' (b :: acc)
  end.

Definition Ext (p : text) : text := Ext_rev (rev p) [].

Context (loadJSONFile loadYAMLFile : text → R value).
Context (Glob : text → option (list text)) (Hostname : option text).
Context (registeredCodecs : text → option (General → text → attrs → R CF)).
Context (registeredTransports : text → option (attrs → R TF)).

Definition loadFile (p : text) : R value :=
  let ext := Ext p in
  if decide (ext = bytes_of ".json") then loadJSONFile p
  else if decide (ext = bytes_of ".conf") then loadJSONFile p
  else if decide (ext = bytes_of ".yaml") then loadYAMLFile p
  else err (UnknownExtension ext).

(** A decoded include must be a list (the decoder reports anything else). *)
Fixpoint load_includes (includes : list text) (c : Config) : R Config :=
  match includes with
  | [] => ok c
  | include :: rest =>
      let! v := loadFile include in
      match v with
      | VSlice vs =>
          let! files := populateSlice (mkFile [] zeroStream) populate_file vs (include ++ slash) 0 (Files c) in
          load_includes rest (set_Files files c)
      | _ => err (Unreadable include)
      end
  end.

Fixpoint load_globs (globs : list text) (c : Config) : R Config :=
  match globs with
  | [] => ok c
  | g :: rest =>
      match Glob g with
      | None => err (BadGlob g)
      | Some includes => let! c := load_includes includes c in load_globs rest c
      end
  end.

(** The first server listed twice. *)
Fixpoint repeated_server (seen servers : list text) : option text :=
  match servers with
  | [] => None
  | s :: servers' => if decide (s ∈ seen) then Some s else repeated_server (s :: seen) servers'
  end.

(** Each codec in turn; the error leaves the rest as it was. *)
Fixpoint init_codecs (g : General) (path : text) (cs : list (CodecStub CF)) : R (list (CodecStub CF)) :=
  match cs with
  | [] => ok []
  | c :: cs' =>
      match registeredCodecs (cs_Name c) with
      | None => err (Invalid (path ++ cs_Name c))
      | Some registrar =>
          let! f := registrar g path (cs_Unused c) in
          let! rest := init_codecs g path cs' in
          ok (mkCodecStub (cs_Name c) (cs_Unused c) (Some f) :: rest)
      end
  end.

Definition initStreamConfig (g : General) (path : text) (s : StreamConfig CF) (initFactories : bool) : R (StreamConfig CF) :=
  if negb initFactories then ok s
  else
    let codecs := match sc_Codecs s with [] => [mkCodecStub (bytes_of "plain") [] None] | cs => cs end in
    let! codecs := init_codecs g path codecs in
    match fixMapKeys (path ++ bytes_of "/fields") (Fields s) with
    | inl e => err e
    | inr fields =>
        ok (mkStreamConfig (AddHostField s) (AddOffsetField s) (AddPathField s) (AddTimezoneField s) codecs (DeadTime s) fields)
    end.

Fixpoint init_files (g : General) (k : Z) (fs : list (File CF)) (initFactories : bool) : R (list (File CF)) :=
  match fs with
  | [] => ok []
  | f :: fs' =>
      match Paths f with
      | [] => err (Invalid (bytes_of "No paths specified"))
      | _ =>
          let! s := initStreamConfig g (bytes_of "/files[]") (f_Stream f) initFactories in
          let! rest := init_files g (k + 1) fs' initFactories in
          ok (mkFile (Paths f) s :: rest)
      end
  end.

Fixpoint validate_sections (ss : list (text * Sec)) : option text :=
  match ss with
  | [] => None
  | (_, s) :: ss' => match Validate s with Some e => Some e | None => validate_sections ss' end
  end.

(** The checks of the general section, in order. *)
Definition check_general (g : General) : config_error + General :=
  if decide (PersistDir g = []) then inl (Invalid (bytes_of "/general/persist directory must be specified"))
  else if decide (2 * 1024 * 1024 * 1024 < SpoolMaxBytes g)%Z then inl (Invalid (bytes_of "/general/spool max bytes can not be greater than 2 GiB"))
  else if decide (LineBufferBytes g < 1)%Z then inl (Invalid (bytes_of "/general/line buffer bytes must be greater than 1"))
  else if decide (SpoolMaxBytes g < MaxLineBytes g)%Z then inl (Invalid (bytes_of "/general/max line bytes can not be greater than /general/spool max bytes"))
  else
    let host := if decide (g_Host g = []) then default (bytes_of "localhost.localdomain") Hostname else g_Host g in
    match fixMapKeys (bytes_of "/general/global fields") (GlobalFields g) with
    | inl e => inl e
    | inr fields =>
        inr (mkGeneral fields host (LineBufferBytes g) (LogFile g) (LogLevel g) (LogStdout g) (LogSyslog g) (MaxLineBytes g)
          (PersistDir g) (ProspectInterval g) (SpoolSize g) (SpoolMaxBytes g) (SpoolTimeout g))
    end.

(** Those of the network section. *)
Definition check_network (n : NetworkConfig TF) (initFactories : bool) : R (NetworkConfig TF) :=
  let m := if decide (nc_Method n = []) then bytes_of "random" else nc_Method n in
  if negb (bool_decide (m ∈ [bytes_of "random"; bytes_of "failover"; bytes_of "loadbalance"]))
  then err (Invalid (bytes_of "The network method (/network/method) is not recognised"))
  else
    match nc_Servers n with
    | [] => err (Invalid (bytes_of "No network servers were specified (/network/servers)"))
    | _ =>
        match repeated_server [] (nc_Servers n) with
        | Some s => err (Invalid (bytes_of "The list of network servers (/network/servers) must be unique"))
        | None =>
            let! factory :=
              (if initFactories then
                 match registeredTransports (nc_Transport n) with
                 | Some registrar => let! f := registrar (nc_Unused n) in ok (Some f)
                 | None => err (Invalid (bytes_of "Unrecognised transport"))
                 end
               else ok (nc_Factory n)) in
            ok (mkNetworkConfig factory (nc_Servers n) (nc_Backoff n) (nc_BackoffMax n) (nc_MaxPendingPayloads n) m
                  (Rfc2782Service n) (Rfc2782Srv n) (nc_Servers n) (nc_Timeout n) (nc_Transport n) (nc_Unused n))
        end
    end.

Definition validate (c : Config) (initFactories : bool) : R Config :=
  match check_general (c_General c) with
  | inl e => err e
  | inr g =>
      let! n := check_network (c_Network c) initFactories in
      let! files := init_files g 0 (Files c) initFactories in
      let! stdin := initStreamConfig g (bytes_of "/stdin") (Stdin c) initFactories in
      match validate_sections (Sections c) with
      | Some e => err (Invalid e)
      | None => ok (mkConfig files g (Includes c) n stdin (Sections c))
      end
  end.

Definition Load (c : Config) (p : text) (initFactories : bool) : R Config :=
  let! v := loadFile p in
  let! (_, c) := PopulateConfig (Some v) slash c in
  let! c := load_globs (Includes c) c in
  validate c initFactories.

Definition Get (name : text) (c : Config) : option Sec :=
  (list_find (fun ns => fst ns = name) (Sections c)) ≫= (fun '(_, ns) => Some (snd ns)).
End Config.

(** ** Lemmas *)
Lemma R_bind_inv {A B} (m : R A) (f : A → R B) b : R_bind m f = Ret (inr b) → ∃ a, m = Ret (inr a) ∧ f a = Ret (inr b).
Proof. destruct m as [[e|a]| |]; simpl; [done| |done..]. eauto. Qed.

(** Induction on values, through the lists of a map. *)
Lemma value_map_ind (P : value → Prop) :
  (∀ v, (∀ i kvs, v ≠ VMap i kvs) → P v) →
  (∀ i kvs, Forall (fun kv => P (snd kv)) kvs → P (VMap i kvs)) → ∀ v, P v.
Proof.
  intros Hleaf Hmap. fix IH 1. intros v. destruct v as [| | | | |vs|i kvs]; try (apply Hleaf; by intros).
  apply Hmap. induction kvs as [|[k v] kvs IHk]; constructor; [apply IH|done].
Qed.

(** Every map reached through maps has string keys only, whatever its type. *)
Fixpoint keys_ok (v : value) : bool :=
  match v with
  | VMap _ kvs =>
      (fix go kvs := match kvs with
        | [] => true
        | (k, v) :: kvs' => match k with VString _ => keys_ok v | _ => false end && go kvs'
        end) kvs
  | _ => true
  end.

(** ... and has the type the JSON encoder accepts. *)
Fixpoint concrete (v : value) : bool :=
  match v with
  | VMap iface kvs =>
      negb iface && (fix go kvs := match kvs with
        | [] => true
        | (k, v) :: kvs' => match k with VString _ => concrete v | _ => false end && go kvs'
        end) kvs
  | _ => true
  end.

(** What encoding/json encodes: numbers that are finite, lists of such values, maps
    of the type with string keys. *)
Definition finite (f : float64) : bool :=
  match f with SpecFloat.S754_zero _ | SpecFloat.S754_finite _ _ _ => true | _ => false end.

Fixpoint encodable (v : value) : bool :=
  match v with
  | VFloat f => finite f
  | VSlice vs => (fix go vs := match vs with [] => true | v :: vs' => encodable v && go vs' end) vs
  | VMap iface kvs =>
      negb iface && (fix go kvs := match kvs with
        | [] => true
        | (k, v) :: kvs' => match k with VString _ => encodable v | _ => false end && go kvs'
        end) kvs
  | _ => true
  end.

(** The values that are no maps, reached through maps, encode as they are. *)
Fixpoint leaves_ok (v : value) : bool :=
  match v with
  | VMap _ kvs => (fix go kvs := match kvs with [] => true | (k, v) :: kvs' => leaves_ok v && go kvs' end) kvs
  | _ => encodable v
  end.

(** The same tree with that type. *)
Fixpoint retype (v : value) : value :=
  match v with
  | VMap _ kvs => VMap false ((fix go kvs := match kvs with [] => [] | (k, v) :: kvs' => (k, retype v) :: go kvs' end) kvs)
  | _ => v
  end.

#[local] Opaque slash.

Lemma fix_value_spec v path :
  if keys_ok v then fix_value path v = inr (retype v) ∧ concrete (retype v) = true
  else ∃ p, fix_value path v = inl (NonStringKey p).
Proof.
  revert path. induction v as [v Hv|i kvs IH] using value_map_ind; intros path.
  { destruct v; try done. by destruct (Hv iface kvs). }
  cbn [keys_ok retype fix_value concrete negb andb].
  match goal with |- if ?f kvs then (match ?h kvs with _ => _ end = inr (VMap false (?r kvs))) ∧ ?c _ = true else _ =>
    enough (if f kvs then h kvs = inr (r kvs) ∧ c (r kvs) = true else ∃ p, h kvs = inl (NonStringKey p)) as Henough end.
  { destruct (_ kvs); [destruct Henough as [-> ?]; done|]. destruct Henough as [p ->]. eauto. }
  induction kvs as [|[k v] kvs IHk]; [done|]. inversion IH as [|? ? Hv Hkvs]; subst. specialize (IHk Hkvs). simpl in Hv.
  destruct k; try (simpl; eauto; done). specialize (Hv (path ++ slash ++ s)). simpl in Hv.
  destruct (keys_ok v); simpl.
  - destruct Hv as [-> Hc]. match goal with |- if ?b then _ else _ => destruct b end.
    + destruct IHk as [-> ->]. by rewrite Hc.
    + destruct IHk as [p ->]. eauto.
  - destruct Hv as [p ->]. eauto.
Qed.

(** Retyping makes a tree encodable, but for its leaves. *)
Lemma retype_encodable v : keys_ok v = true → encodable (retype v) = leaves_ok v.
Proof.
  induction v as [v Hv|i kvs IH] using value_map_ind; intros Hk.
  { destruct v; try done. by destruct (Hv iface kvs). }
  cbn [keys_ok retype encodable leaves_ok negb andb] in *. revert Hk.
  induction kvs as [|[k v] kvs IHk]; [done|]. inversion IH as [|? ? Hv Hkvs]; subst.
  destruct k; try done. intros [Hkv Hk]%andb_true_iff. simpl in Hv. by rewrite (Hv Hkv), (IHk Hkvs Hk).
Qed.

#[local] Transparent slash.

Section Theorems.
Context {CF TF Sec : Type}.
Context (DefaultGeneralPersistDir : text) (ParseDuration ParseLevel : text → option Z).
Context (populate_section : raw → text → Sec → R (raw * Sec)) (Validate : Sec → option text).
Context (loadJSONFile loadYAMLFile : text → R value) (Glob : text → option (list text)) (Hostname : option text).
Context (registeredCodecs : text → option (General → text → attrs → R CF)) (registeredTransports : text → option (attrs → R TF)).

(** What loading establishes. *)
Definition general_valid (g : General) : Prop :=
  PersistDir g ≠ [] ∧ (SpoolMaxBytes g ≤ 2 ^ 31)%Z ∧ (1 ≤ LineBufferBytes g)%Z ∧ (MaxLineBytes g ≤ SpoolMaxBytes g)%Z ∧
  (g_Host g = [] → Hostname = Some []) ∧ concrete (VMap false (GlobalFields g)) = true.

Definition network_valid (n : NetworkConfig TF) : Prop :=
  nc_Method n ∈ [bytes_of "random"; bytes_of "failover"; bytes_of "loadbalance"] ∧
  nc_Servers n ≠ [] ∧ NoDup (nc_Servers n) ∧ nc_AddressPools n = nc_Servers n ∧ is_Some (nc_Factory n).

Definition stream_valid (s : StreamConfig CF) : Prop :=
  sc_Codecs s ≠ [] ∧ Forall (fun c => is_Some (cs_Factory c)) (sc_Codecs s) ∧ concrete (VMap false (Fields s)) = true.

Lemma fixMapKeys_concrete path m m' : fixMapKeys path m = inr m' → concrete (VMap false m') = true.
Proof.
  unfold fixMapKeys. pose proof (fix_value_spec (VMap false m) path) as Hs.
  destruct (keys_ok (VMap false m)); [|by destruct Hs as [p ->]]. destruct Hs as [-> Hc]. by intros [= <-].
Qed.

Lemma check_general_valid g g' : check_general Hostname g = inr g' → general_valid g'.
Proof.
  unfold check_general. repeat case_decide; try done.
  all: destruct (fixMapKeys _ _) as [e|m] eqn:E; [done|]; intros [= <-]; apply fixMapKeys_concrete in E.
  all: unfold general_valid; simpl; repeat split; try done; try lia.
  destruct Hostname as [h|]; simpl; [by intros ->|done].
Qed.

Lemma repeated_server_None seen servers :
  repeated_server seen servers = None → NoDup servers ∧ ∀ s, s ∈ servers → s ∉ seen.
Proof.
  revert seen. induction servers as [|s servers IH]; intros seen; simpl; [intros _; split; [constructor|set_solver]|].
  case_decide as Hs; [done|]. intros Hr. destruct (IH _ Hr) as [Hnd Hsep].
  split; [constructor; [|done]; intros Hin; specialize (Hsep s Hin); set_solver|].
  intros x Hx. apply elem_of_cons in Hx as [->|Hx]; [done|]. specialize (Hsep x Hx). set_solver.
Qed.

Lemma check_network_valid n n' : check_network registeredTransports n true = Ret (inr n') → network_valid n'.
Proof.
  unfold check_network. case_bool_decide as Hm; [|done]. cbn [negb]. destruct (nc_Servers n) as [|s0 ss] eqn:Es; [done|].
  destruct (repeated_server [] _) eqn:Er; [done|]. intros Hr. apply R_bind_inv in Hr as (f & Hf & Hr). injection Hr as <-.
  apply repeated_server_None in Er as [Hnd _]. destruct (registeredTransports _) as [reg|]; [|done].
  apply R_bind_inv in Hf as (f0 & _ & Hf). injection Hf as <-. unfold network_valid. simpl. eauto 10.
Qed.

Lemma init_codecs_valid g path cs cs' : init_codecs registeredCodecs g path cs = Ret (inr cs') →
  Forall (fun c => is_Some (cs_Factory c)) cs' ∧ length cs' = length cs.
Proof.
  revert cs'. induction cs as [|c cs IH]; intros cs'; simpl; [by intros [= <-]|].
  destruct (registeredCodecs _); [|done]. intros Hr. apply R_bind_inv in Hr as (f & _ & Hr).
  apply R_bind_inv in Hr as (rest & Hrest & Hr). injection Hr as <-. destruct (IH _ Hrest) as [? Hl].
  split; [constructor; eauto|simpl; by rewrite Hl].
Qed.

Lemma initStreamConfig_valid g path s s' : initStreamConfig registeredCodecs g path s true = Ret (inr s') → stream_valid s'.
Proof.
  unfold initStreamConfig. cbn [negb]. intros Hr. apply R_bind_inv in Hr as (cs & Hcs & Hr).
  destruct (fixMapKeys _ _) as [e|m] eqn:E; [done|]. injection Hr as <-. apply init_codecs_valid in Hcs as [Hf Hl].
  unfold stream_valid. simpl. split; [|split; [done|by apply fixMapKeys_concrete in E]].
  intros ->. by destruct (sc_Codecs s).
Qed.

Lemma init_files_valid g k fs fs' : init_files registeredCodecs g k fs true = Ret (inr fs') →
  Forall (fun f => Paths f ≠ [] ∧ stream_valid (f_Stream f)) fs'.
Proof.
  revert k fs'. induction fs as [|f fs IH]; intros k fs'; simpl; [by intros [= <-]|].
  destruct (Paths f) as [|p ps] eqn:Ep; [done|]. intros Hr. apply R_bind_inv in Hr as (s & Hs & Hr).
  apply R_bind_inv in Hr as (rest & Hrest & Hr). injection Hr as <-.
  constructor; [|by eapply IH]. simpl. rewrite ?Ep. split; [done|by eapply initStreamConfig_valid].
Qed.

Lemma validate_sections_ok (ss : list (text * Sec)) : validate_sections Validate ss = None → Forall (fun s => Validate (snd s) = None) ss.
Proof. induction ss as [|[name s] ss IH]; simpl; [done|]. destruct (Validate s) eqn:E; [done|]. auto. Qed.

(** C13. A configuration that loads, with its factories, has: a persist directory, a
    line buffer of at least one byte, lines no longer than a spool and spools no
    longer than 2 GiB, a host name unless the system gives an empty one; a known
    network method, servers that are pairwise different, each with an address pool,
    and a transport that was built; for every file at least one path, and for every
    stream, standard input included, at least one codec, all built; in its field
    maps string keys only, and the encoder's type, in every map reached through
    maps; and every registered section passed its own check.  (Not checked, and so
    not stated: that the longest line has at least one byte or the spool size is
    not negative ([zero_line_accepted]); maps inside lists ([list_not_retyped]).) *)
Theorem load_valid (c : Config (CF := CF) (TF := TF) (Sec := Sec)) p cfg :
  Load DefaultGeneralPersistDir ParseDuration ParseLevel populate_section Validate loadJSONFile loadYAMLFile Glob Hostname
    registeredCodecs registeredTransports c p true = Ret (inr cfg) →
  general_valid (c_General cfg) ∧ network_valid (c_Network cfg) ∧ stream_valid (Stdin cfg) ∧
  Forall (fun f => Paths f ≠ [] ∧ stream_valid (f_Stream f)) (Files cfg) ∧
  Forall (fun s => Validate (snd s) = None) (Sections cfg).
Proof.
  unfold Load. intros Hr. apply R_bind_inv in Hr as (v & _ & Hr). apply R_bind_inv in Hr as ([r c1] & _ & Hr).
  apply R_bind_inv in Hr as (c2 & _ & Hr). unfold validate in Hr.
  destruct (check_general _ _) as [e|g] eqn:Eg; [done|]. apply R_bind_inv in Hr as (n & Hn & Hr).
  apply R_bind_inv in Hr as (fs & Hfs & Hr). apply R_bind_inv in Hr as (si & Hsi & Hr).
  destruct (validate_sections _ _) eqn:Es; [done|]. injection Hr as <-. simpl.
  eauto 10 using check_general_valid, check_network_valid, initStreamConfig_valid, init_files_valid, validate_sections_ok.
Qed.
End Theorems.

(** C18. Map keys: a tree of fields is accepted exactly when every map reached
    through maps has only string keys; it is then the same tree, with every such map
    of the type with string keys, and encoding/json encodes it exactly when it
    encodes the leaves: the lists and numbers in it.  Otherwise the error is
    reported.  (Maps inside lists are not looked at: one that YAML decoded, whatever
    its keys, is accepted and not encoded, as is a number that is not finite.) *)
Theorem fields_retyped path m :
  (keys_ok (VMap false m) = true →
    ∃ m', fixMapKeys path m = inr m' ∧ VMap false m' = retype (VMap false m) ∧ encodable (VMap false m') = leaves_ok (VMap false m)) ∧
  (keys_ok (VMap false m) = false → ∃ p, fixMapKeys path m = inl (NonStringKey p)).
Proof.
  pose proof (fix_value_spec (VMap false m) path) as Hs. pose proof (retype_encodable (VMap false m)) as He. unfold fixMapKeys.
  split; intros Hk; rewrite Hk in Hs; [destruct Hs as [-> Hc]; eexists; split; [reflexivity|]; split; [done|by apply He]|].
  destruct Hs as [p ->]. eauto.
Qed.

(** ** Concrete configurations *)
Definition vs (s : string) : value := VString (bytes_of s).
Definition section_of (kvs : list (string * value)) : value := VMap false ((fun '(k, v) => (vs k, v)) <$> kvs).

Definition example_file : value := section_of
  [("general", section_of [("persist directory", vs "/var/lib"); ("spool size", VFloat (f64_of_Z 512)); ("host", vs "h")]);
   ("network", section_of [("servers", VSlice [vs "a:1"; vs "b:2"]); ("transport", vs "tcp"); ("timeout", VFloat (f64_of_Z 20)); ("ssl", VBool true)]);
   ("files", VSlice [section_of [("paths", VSlice [vs "/var/log/*"]); ("fields", section_of [("type", vs "syslog")])]])]%string.

Definition example_load (v : value) : R (Config (CF := unit) (TF := unit) (Sec := unit)) :=
  Load [] (fun _ => None) (fun _ => None) (fun r _ s => ok (r, s)) (fun _ => None) (fun _ => ok v) (fun _ => Panic)
    (fun _ => None) None (fun name => if decide (name = bytes_of "plain") then Some (fun _ _ _ => ok tt) else None)
    (fun name => if decide (name = bytes_of "tcp") then Some (fun _ => ok tt) else None) (NewConfig []) (bytes_of "a.conf") true.

Lemma load_valid_witness :
  match example_load example_file with
  | Ret (inr cfg) =>
      (general_valid None (c_General cfg) ∧ network_valid (c_Network cfg) ∧ stream_valid (Stdin cfg) ∧
       Forall (fun f => Paths f ≠ [] ∧ stream_valid (f_Stream f)) (Files cfg) ∧ Forall (fun s => None (A := text) = None) (Sections cfg)) ∧
      SpoolSize (c_General cfg) = 512%Z ∧ MaxLineBytes (c_General cfg) = 1048576%Z ∧ nc_Timeout (c_Network cfg) = (20 * Second)%Z
  | _ => False
  end.
Proof.
  assert (Hv : match example_load example_file with
    | Ret (inr cfg) => SpoolSize (c_General cfg) = 512%Z ∧ MaxLineBytes (c_General cfg) = 1048576%Z ∧ nc_Timeout (c_Network cfg) = (20 * Second)%Z
    | _ => False end) by (vm_compute; repeat split).
  destruct (example_load example_file) as [[e|cfg]| |] eqn:E; [done| |done..]. split; [|exact Hv].
  exact (load_valid _ _ _ _ _ _ _ _ _ _ _ _ _ _ E).
Defined.

Lemma fields_retyped_witness :
  ∃ m', fixMapKeys [] [(vs "a", VMap true [(vs "b", VInt 1)])] = inr m' ∧
    VMap false m' = VMap false [(vs "a", VMap false [(vs "b", VInt 1)])] ∧ encodable (VMap false m') = true.
Proof. exact (proj1 (fields_retyped [] [(vs "a", VMap true [(vs "b", VInt 1)])]) eq_refl). Defined.

(** Without a network section, and with a section that is no map, the reflection
    panics instead of an error being reported. *)
Example no_network_panics : example_load (section_of [("general", section_of [("persist directory", vs "/v")])]%string) = Panic.
Proof. vm_compute. reflexivity. Qed.

Example wrong_type_panics : example_load (section_of [("general", VFloat (f64_of_Z 5))]%string) = Panic.
Proof. vm_compute. reflexivity. Qed.

(** A duration written as a YAML integer is ignored: the default stays. *)
Example integer_duration_ignored :
  conv_duration (fun _ => None) (VInt 20) slash (bytes_of "timeout") (15 * Second) = ok (15 * Second)%Z.
Proof. reflexivity. Qed.

(** A map inside a list keeps its type, which the event encoder refuses, and so are
    its keys; .nan is a number in YAML. *)
Example list_not_retyped :
  let m := [(vs "a", VSlice [VMap true [(VInt 1, VNil)]])] in fixMapKeys [] m = inr m ∧ encodable (VMap false m) = false.
Proof. split; reflexivity. Qed.

Example nan_accepted :
  let m := [(vs "a", VFloat SpecFloat.S754_nan)] in fixMapKeys [] m = inr m ∧ encodable (VMap false m) = false.
Proof. split; reflexivity. Qed.

(** A maximum of zero or less is accepted; the line reader needs at least one. *)
Example zero_line_accepted :
  match check_general None (mkGeneral [] [] 1 [] 4 true false (-1) (bytes_of "/v") 0 0 0 0) with
  | inr g => MaxLineBytes g = (-1)%Z | inl _ => False end.
Proof. reflexivity. Qed.
