(* ===== verification/ConfigFiles.v ===== *)
(** * lc-lib/config: reading the files

    [loadJSONFile] of json.go - the checks of the file, the comment stripper of
    [ConfigParser], the decoder and its pretty errors - and [loadYAMLFile] of
    yaml.go.  The operating system's answers and the decoders are parameters. *)
From S2P Require Import Prelude Core Codecs AdminApi ConfigParser Config.

(** What opening, [Stat] and the one [Read] answer: an error or the bytes read,
    which may be fewer than the size. *)
Inductive file_answer :=
| OpenError (e : text)
| StatError (e : text)
| Opened (size : Z) (read : text + text).

Inductive json_failure := SyntaxError (offset : Z) (message : text) | OtherJSONError (message : text).

Section Files.
Context (open_file : text → file_answer) (json_Unmarshal : text → json_failure + value).
Context (ReadFile : text → text + text) (yaml_Unmarshal : text → text + value).

(** The bytes that were not read are zero. *)
Definition read_buffer (size : Z) (data : text) : text :=
  take (Z.to_nat size) data ++ replicate (Z.to_nat size - length data) "000"%byte.

(** The message: the line, and a caret below the position. *)
Definition report_text (message : text) (r : syntax_report) : text :=
  bytes_of "json: " ++ message ++ bytes_of " on line " ++ FormatInt (rp_number r) ++ [newline] ++ rp_line r ++ [newline] ++
  replicate (Z.to_nat (rp_pos r)) " "%byte ++ bytes_of "^".

Definition json_error_of (js : text) (e : json_failure) : R value :=
  match e with
  | OtherJSONError m => err (Invalid m)
  | SyntaxError offset m => r ← parseJSONSyntaxError js offset; err (Invalid (report_text m r))
  end.

Definition loadJSONFile (path : text) : R value :=
  match open_file path with
  | OpenError e => err (Invalid (bytes_of "Failed to open config file: " ++ e))
  | StatError e => err (Invalid (bytes_of "Stat failed for config file: " ++ e))
  | Opened size read =>
      if decide (size = 0)%Z then err (Invalid (bytes_of "Empty configuration file"))
      else if decide (10 * 2 ^ 20 < size)%Z then err (Invalid (bytes_of "Config file too large"))
      else
        match read with
        | inl e => err (Invalid e)
        | inr data =>
            stripped ← strip_comments (read_buffer size data);
            if decide (stripped = []) then err (Invalid (bytes_of "Empty configuration file"))
            else match json_Unmarshal stripped with inr v => ok v | inl e => json_error_of stripped e end
        end
  end.

Definition loadYAMLFile (path : text) : R value :=
  match ReadFile path with
  | inl e => err (Invalid e)
  | inr data => match yaml_Unmarshal data with inl e => err (Invalid e) | inr v => ok v end
  end.

(** ** The stripper never slices out of range *)
Definition strip_ok (st : strip_state) (s p : Z) : Prop :=
  (0 ≤ s)%Z ∧ match st with PotentialStart => (s ≤ p - 1)%Z | _ => (s ≤ p)%Z end.

Lemma slice_total {A} (l : list A) i j : (0 ≤ i ≤ j)%Z → (j ≤ zlen l)%Z → ∃ t, slice l i j = Some t.
Proof. intros. unfold slice. rewrite bool_decide_eq_true_2 by lia. by eexists. Qed.

Lemma strip_loop_total buffer : ∀ rest st s p stripped, strip_ok st s p → (p + zlen rest)%Z = zlen buffer →
  ∃ t, strip_loop buffer rest st s p stripped = Ret t.
Proof.
  induction rest as [|b rest IH]; intros st s p stripped [Hs Hp] Hlen; cbn [strip_loop].
  { destruct (slice_total buffer s p) as [t Ht]; [destruct st; lia|zlen_lia|]. rewrite Ht. by eexists. }
  rewrite zlen_cons in Hlen. pose proof (zlen_nonneg rest) as Hr.
  destruct (slice_total buffer s p) as [t Ht]; [destruct st; lia|lia|].
  assert (Hn : ∀ st' o, strip_ok st' s (p + 1) → ∃ t, strip_loop buffer rest st' s (p + 1) o = Ret t) by (intros st' o Hok; apply IH; [done|lia]).
  assert (Hm : ∀ st' o, st' ≠ PotentialStart → ∃ t, strip_loop buffer rest st' s (p + 1) o = Ret t).
  { intros st' o Hne. apply Hn. split; [done|]. destruct st; destruct st'; done || lia. }
  assert (Hskip : ∀ o, ∃ t, strip_loop buffer rest MainBody (p + 1) (p + 1) o = Ret t).
  { intros o. apply IH; [|lia]. split; [destruct st; lia|]. lia. }
  destruct st; repeat case_decide; rewrite ?Ht; auto.
  - apply Hn. split; [done|]. lia.
  - destruct (slice_total buffer s (p - 1)) as [t' Ht']; [lia|lia|]. rewrite Ht'. auto.
Qed.

Lemma LastIndexFrom_bounds t : ∀ i found, (found < i)%Z → (found ≤ LastIndexFrom t i found < i + zlen t)%Z.
Proof.
  induction t as [|b t IH]; intros i found Hf; [change (zlen []) with 0%Z; simpl; lia|].
  rewrite zlen_cons. cbn [LastIndexFrom]. case_decide.
  - specialize (IH (i + 1)%Z i ltac:(lia)). lia.
  - specialize (IH (i + 1)%Z found ltac:(lia)). lia.
Qed.

Lemma Index_newline_bounds t : ∀ i, (0 ≤ i)%Z → (Index_newline t i = -1 ∨ i ≤ Index_newline t i < i + zlen t)%Z.
Proof.
  induction t as [|b t IH]; intros i Hi; [by left|]. rewrite zlen_cons. cbn [Index_newline]. pose proof (zlen_nonneg t).
  case_decide; [right; lia|]. destruct (IH (i + 1)%Z ltac:(lia)); [by left|right; lia].
Qed.

Lemma slice_length {A} (l t : list A) i j : slice l i j = Some t → zlen t = (j - i)%Z ∧ (0 ≤ i ≤ j)%Z ∧ (j ≤ zlen l)%Z.
Proof.
  unfold slice, zlen. case_bool_decide as Hb; [|done]. intros [= <-]. unfold zlen in Hb. rewrite length_take, length_drop. lia.
Qed.

Lemma parse_error_total js offset : (0 ≤ offset ≤ zlen js)%Z → ∃ r, parseJSONSyntaxError js offset = Ret r.
Proof.
  intros Ho. unfold parseJSONSyntaxError. destruct (slice_total js 0 offset) as [head Hh]; [lia|lia|]. rewrite Hh.
  cbn [mbind outcome_mbind outcome_bind]. apply slice_length in Hh as [Hlen _].
  pose proof (LastIndexFrom_bounds head 0 (-1) ltac:(lia)) as Hl. fold (LastIndex head) in Hl.
  destruct (slice_total js (LastIndex head + 1) (zlen js)) as [tail Ht]; [lia|lia|]. rewrite Ht.
  cbn [mbind outcome_mbind outcome_bind]. apply slice_length in Ht as [Hlen' _].
  destruct (slice_total js 0 (LastIndex head + 1)) as [before Hb]; [lia|lia|]. rewrite Hb. cbn [mbind outcome_mbind outcome_bind].
  match goal with |- context [slice js _ ?e] => destruct (slice_total js (LastIndex head + 1) e) as [line Hline] end.
  - destruct (Index_newline_bounds tail 0 ltac:(lia)) as [He|He]; case_decide; lia.
  - destruct (Index_newline_bounds tail 0 ltac:(lia)) as [He|He]; case_decide; lia.
  - rewrite Hline. by eexists.
Qed.

(** C37. Whatever a configuration file holds - unterminated strings and comments, a
    file cut short while it is read, no text at all - loading it returns a value or
    an error: neither the comment stripper nor the report of a syntax error slices
    out of range, for any offset the decoder reports inside its input. *)
Theorem json_file_total path :
  (∀ js offset m, json_Unmarshal js = inl (SyntaxError offset m) → (0 ≤ offset ≤ zlen js)%Z) →
  ∃ r, loadJSONFile path = Ret r.
Proof.
  intros Hoff. unfold loadJSONFile. destruct (open_file path) as [e|e|size [e|data]]; try case_decide; try case_decide; try (by eexists).
  destruct (strip_loop_total (read_buffer size data) (read_buffer size data) MainBody 0 0 []) as [t Ht]; [by split|lia|].
  unfold strip_comments. rewrite Ht. cbn [mbind outcome_mbind outcome_bind]. case_decide; [by eexists|].
  destruct (json_Unmarshal t) as [[offset m|m]|v] eqn:Hj; simpl; try (by eexists).
  destruct (parse_error_total t offset (Hoff _ _ _ Hj)) as [r Hr]. rewrite Hr. by eexists.
Qed.
End Files.

(** A file that was cut short in a string, and the error of a decoder that stops at
    the last byte. *)
Definition sample_open (path : text) : file_answer :=
  Opened 9 (inr (bytes_of "{" ++ [newline] ++ bytes_of " ?a")).
Definition sample_unmarshal (js : text) : json_failure + value := inl (SyntaxError 4 (bytes_of "invalid character '?'")).

Example sample_report : loadJSONFile sample_open sample_unmarshal [] =
  Ret (inl (Invalid (bytes_of "json: invalid character '?' on line 1" ++ [newline] ++ bytes_of " ?a" ++ replicate 4 "000"%byte ++ [newline] ++ bytes_of " ^"))).
Proof. vm_compute. reflexivity. Qed.

Lemma json_file_total_witness : ∃ r, loadJSONFile sample_open (fun js => inl (SyntaxError (zlen js) [])) [] = Ret r.
Proof.
  refine (json_file_total sample_open (fun js => inl (SyntaxError (zlen js) [])) [] _).
  intros js offset m [= <- _]. pose proof (zlen_nonneg js). lia.
Defined.
