(* ===== verification/LineReader.v ===== *)
(** * lc-lib/harvester/linereader.go: the tailing line reader

    [ReadSlice] returns the next line of an [io.Reader], or a segment of it when
    the line is longer than the maximum.  The reader is an instance of the class
    [Reader].  The theorem: whatever the size of the buffer and however the reads
    are chunked, interrupted by errors and resumed, the segments returned are the
    first segments of a reference cut of the whole byte stream. *)
From S2P Require Import Prelude Core Codecs.

(** Errors of [Read], and of [ReadSlice]. *)
Inductive read_error := EOF | ReadFailed (message : text).
Inductive line_error := ErrLineTooLong | ErrRead (e : read_error).

(** An [io.Reader]: at most as many bytes as the buffer holds, possibly with an
    error; a ghost log of what it has returned; and, as the interface asks of
    implementations, no empty result without an error for a buffer that is not
    empty. *)
Class Reader (RS : Type) := {
  Read : nat → RS → (text * option read_error) * RS;
  read_log : RS → text;
  Read_fits : ∀ k s, length (fst (fst (Read k s))) ≤ k;
  Read_log : ∀ k s, read_log (snd (Read k s)) = read_log s ++ fst (fst (Read k s));
  Read_progress : ∀ k s, 0 < k → fst (fst (Read k s)) = [] → snd (fst (Read k s)) ≠ None;
}.

(** [buf] holds the first [end] bytes of the buffer, which has [size] bytes: what
    lies beyond is never read. *)
Record LineReader := mkLineReader {
  buf : text;
  overflow : option (list text);
  size : Z;
  maxLine : Z;
  curMax : Z;
  start : Z;
}.

Definition NewLineReader (size maxLine : Z) : LineReader := mkLineReader [] None size maxLine maxLine 0.

(** Only the indices are reset. *)
Definition LineReader_Reset (lr : LineReader) : LineReader :=
  mkLineReader [] (overflow lr) (size lr) (maxLine lr) (curMax lr) 0.

Definition BufferedLen (lr : LineReader) : Z := (zlen (buf lr) - start lr)%Z.

(** [bytes.IndexByte], [None] for -1. *)
Fixpoint IndexByte (t : text) (c : byte) : option Z :=
  match t with
  | [] => None
  | x :: t' => if decide (x = c) then Some 0%Z else Z.succ <$> IndexByte t' c
  end.

Section Reading.
Context {RS : Type} `{Reader RS}.

Abbreviation L := (M (LineReader * RS)).

Definition get_reader : L LineReader := gets fst.
Definition put_reader (lr : LineReader) : L unit := modify (fun s => (lr, snd s)).

(** The read appends to the buffer at [end]. *)
Definition read_more : L (option read_error) := fun '(lr, rd) =>
  let '((data, err), rd') := Read (Z.to_nat (size lr - zlen (buf lr))) rd in
  Ret (err, (mkLineReader (buf lr ++ data) (overflow lr) (size lr) (maxLine lr) (curMax lr) (start lr), rd')).

Definition fill : L (option read_error) :=
  lr ← get_reader;
  (if decide (start lr = 0)%Z then mret tt
   else
     t ← deref (slice (buf lr) (start lr) (zlen (buf lr)));
     put_reader (mkLineReader t (overflow lr) (size lr) (maxLine lr) (curMax lr) 0));;
  read_more.

(** Take [n] bytes off the front of the window. *)
Definition take_line (n : Z) : L text :=
  lr ← get_reader;
  t ← deref (slice (buf lr) (start lr) (start lr + n));
  put_reader (mkLineReader (buf lr) (overflow lr) (size lr) (maxLine lr) (curMax lr) (start lr + n)%Z);;
  mret t.

(** Put a full buffer aside and continue with a new one. *)
Definition spill : L unit :=
  lr ← get_reader;
  put_reader (mkLineReader [] (Some (default [] (overflow lr) ++ [buf lr])) (size lr) (maxLine lr)
    (curMax lr - size lr) 0).

(** The end of [ReadSlice]: what was put aside comes first. *)
Definition finish_line (line : text) (err : option line_error) : L (option text * option line_error) :=
  lr ← get_reader;
  match overflow lr with
  | None => mret (Some line, err)
  | Some os =>
      put_reader (mkLineReader (buf lr) None (size lr) (maxLine lr) (maxLine lr) (start lr));;
      mret (Some (concat (os ++ [line])), err)
  end.

Fixpoint read_loop (fuel : nat) (err : option read_error) : L (option text * option line_error) :=
  lr ← get_reader;
  window ← deref (slice (buf lr) (start lr) (zlen (buf lr)));
  let found := match IndexByte window newline with
    | Some n => if decide (n < curMax lr)%Z then Some n else None
    | None => None
    end in
  match found with
  | Some n => line ← take_line (n + 1); finish_line line None
  | None =>
      match err with
      | Some e => mret (None, Some (ErrRead e))
      | None =>
          if decide (curMax lr ≤ BufferedLen lr)%Z
          then line ← take_line (curMax lr); finish_line line (Some ErrLineTooLong)
          else
            when (bool_decide (size lr ≤ BufferedLen lr)%Z) spill;;
            err' ← fill;
            match fuel with
            | O => out_of_fuel
            | S fuel' => read_loop fuel' err'
            end
      end
  end.

Definition ReadSlice (fuel : nat) : L (option text * option line_error) :=
  lr ← get_reader;
  err ← (if decide (zlen (buf lr) = 0)%Z then fill else mret None);
  read_loop fuel err.

(** Tailing: [n] calls, an error being retried later.  The lines returned, with
    whether they were cut. *)
Fixpoint tail_lines (fuel n : nat) : L (list (text * bool)) :=
  match n with
  | O => mret []
  | S n' =>
      r ← ReadSlice fuel;
      rest ← tail_lines fuel n';
      mret (match r with
            | (Some line, None) => (line, false) :: rest
            | (Some line, Some ErrLineTooLong) => (line, true) :: rest
            | _ => rest
            end)
  end.
End Reading.

(** ** The reference cut

    The next segment of a byte stream: up to and including the first line feed if
    that fits the maximum, else the maximum. *)
Definition next_segment (mx : Z) (t : text) : option (text * bool * text) :=
  match IndexByte t newline with
  | Some n =>
      if decide (n < mx)%Z then Some (take (Z.to_nat (n + 1)) t, false, drop (Z.to_nat (n + 1)) t)
      else Some (take (Z.to_nat mx) t, true, drop (Z.to_nat mx) t)
  | None => if decide (mx ≤ zlen t)%Z then Some (take (Z.to_nat mx) t, true, drop (Z.to_nat mx) t) else None
  end.

(** [t] is cut into the segments [out], then [rest]. *)
Fixpoint cut_into (mx : Z) (t : text) (out : list (text * bool)) (rest : text) : Prop :=
  match out with
  | [] => rest = t
  | (line, cut) :: out' => ∃ t', next_segment mx t = Some (line, cut, t') ∧ cut_into mx t' out' rest
  end.

(** What was read and not yet returned. *)
Definition pending (lr : LineReader) : text :=
  concat (default [] (overflow lr)) ++ drop (Z.to_nat (start lr)) (buf lr).

(** ** Lemmas *)
Lemma IndexByte_bound t c n : IndexByte t c = Some n → (0 ≤ n < zlen t)%Z.
Proof.
  revert n. induction t as [|x t IH]; intros n; [done|]. cbn [IndexByte]. rewrite zlen_cons.
  case_decide; [intros [= <-]; pose proof (zlen_nonneg t); lia|].
  destruct (IndexByte t c) as [m|]; [|done]. intros [= <-]. specialize (IH m eq_refl). lia.
Qed.

Lemma IndexByte_app_some a b c n : IndexByte a c = Some n → IndexByte (a ++ b) c = Some n.
Proof.
  revert n. induction a as [|x a IH]; intros n; [done|]. cbn [IndexByte app]. case_decide; [done|].
  destruct (IndexByte a c) as [m|]; [|done]. by rewrite (IH m eq_refl).
Qed.

Lemma IndexByte_app_none a b c : IndexByte a c = None → IndexByte (a ++ b) c = Z.add (zlen a) <$> IndexByte b c.
Proof.
  induction a as [|x a IH]; intros Ha; [cbn [app]; by destruct (IndexByte b c)|].
  cbn [IndexByte app] in *. case_decide; [done|]. destruct (IndexByte a c) eqn:E; [done|].
  rewrite IH by done. destruct (IndexByte b c); [|done]. simpl. f_equal. rewrite zlen_cons. lia.
Qed.

Lemma next_segment_bound mx t line b rest : (0 < mx)%Z → next_segment mx t = Some (line, b, rest) →
  t = line ++ rest ∧ line ≠ [] ∧ (zlen line ≤ mx)%Z.
Proof.
  intros Hmx. unfold next_segment.
  assert (Hcut : ∀ n, (0 < n ≤ mx)%Z → (n ≤ zlen t)%Z →
    t = take (Z.to_nat n) t ++ drop (Z.to_nat n) t ∧ take (Z.to_nat n) t ≠ [] ∧ (zlen (take (Z.to_nat n) t) ≤ mx)%Z).
  { intros n Hn Ht. rewrite take_drop, zlen_take by lia. split; [done|split; [|lia]].
    intros Hnil. apply (f_equal zlen) in Hnil. rewrite zlen_take, zlen_nil in Hnil by lia. lia. }
  destruct (IndexByte t newline) as [n|] eqn:E.
  - pose proof (IndexByte_bound _ _ _ E). case_decide; intros [= <- <- <-]; apply Hcut; lia.
  - case_decide; [|done]. intros [= <- <- <-]. apply Hcut; lia.
Qed.

(** A segment is decided by the bytes seen so far. *)
Lemma next_segment_app mx t d line b rest : (0 < mx)%Z →
  next_segment mx t = Some (line, b, rest) → next_segment mx (t ++ d) = Some (line, b, rest ++ d).
Proof.
  intros Hmx. unfold next_segment. destruct (IndexByte t newline) as [n|] eqn:E.
  - pose proof (IndexByte_bound _ _ _ E). rewrite (IndexByte_app_some _ _ _ _ E).
    case_decide; intros [= <- <- <-]; rewrite take_app_le, drop_app_le by zlen_lia; done.
  - rewrite (IndexByte_app_none _ _ _ E). case_decide; [|done]. intros [= <- <- <-].
    destruct (IndexByte d newline) as [m|] eqn:Ed; simpl.
    + pose proof (IndexByte_bound _ _ _ Ed). rewrite decide_False by lia. by rewrite take_app_le, drop_app_le by zlen_lia.
    + rewrite decide_True by (rewrite zlen_app; pose proof (zlen_nonneg d); lia).
      by rewrite take_app_le, drop_app_le by zlen_lia.
Qed.

Lemma cut_into_app mx t d out rest : (0 < mx)%Z → cut_into mx t out rest → cut_into mx (t ++ d) out (rest ++ d).
Proof.
  intros Hmx. revert t. induction out as [|[line b] out IH]; intros t; simpl; [by intros ->|].
  intros (t' & Hs & Hc). exists (t' ++ d). split; [by apply next_segment_app|by apply IH].
Qed.

Lemma cut_into_trans mx t out1 r1 out2 r2 : cut_into mx t out1 r1 → cut_into mx r1 out2 r2 → cut_into mx t (out1 ++ out2) r2.
Proof.
  revert t. induction out1 as [|[line b] out IH]; intros t; simpl; [by intros ->|].
  intros (t' & Hs & Hc) H2. eauto.
Qed.

Section Lines.
Context {RS : Type} `{Reader RS}.

(** The bytes put aside hold no line feed, and count towards the maximum. *)
Record lr_ok (mx : Z) (lr : LineReader) : Prop := mkLrOk {
  ok_size : (0 < size lr)%Z;
  ok_start : (0 ≤ start lr ≤ zlen (buf lr))%Z;
  ok_end : (zlen (buf lr) ≤ size lr)%Z;
  ok_max : maxLine lr = mx;
  ok_cur : (0 < curMax lr)%Z;
  ok_aside : curMax lr = (mx - zlen (concat (default [] (overflow lr))))%Z;
  ok_clean : IndexByte (concat (default [] (overflow lr))) newline = None;
}.

Definition aside (lr : LineReader) : Z := zlen (concat (default [] (overflow lr))).

Lemma pending_len mx lr : lr_ok mx lr → zlen (pending lr) = (aside lr + BufferedLen lr)%Z.
Proof.
  intros [? ? ?]. unfold pending, BufferedLen, aside. rewrite zlen_app. unfold zlen. rewrite length_drop. zlen_lia.
Qed.

Lemma NewLineReader_ok sz mx : (0 < sz)%Z → (0 < mx)%Z → lr_ok mx (NewLineReader sz mx).
Proof. intros. constructor; simpl; try rewrite zlen_nil; try done; lia. Qed.

Lemma fill_run mx lr (rd : RS) :
  lr_ok mx lr → (BufferedLen lr < size lr)%Z →
  ∃ err lr' rd' d, fill (lr, rd) = Ret (err, (lr', rd')) ∧ lr_ok mx lr' ∧ read_log rd' = read_log rd ++ d ∧
    pending lr' = pending lr ++ d ∧ (d = [] → err ≠ None) ∧ curMax lr' = curMax lr ∧ aside lr' = aside lr.
Proof.
  intros Hok Hcap. pose proof Hok as [? Hst ? ? ? ? ?].
  assert (Hshift : ∃ lr1, (if decide (start lr = 0)%Z then mret tt
      else t ← deref (slice (buf lr) (start lr) (zlen (buf lr)));
        put_reader (mkLineReader t (overflow lr) (size lr) (maxLine lr) (curMax lr) 0)) (lr, rd) = Ret (tt, (lr1, rd)) ∧
      buf lr1 = drop (Z.to_nat (start lr)) (buf lr) ∧ start lr1 = 0%Z ∧ overflow lr1 = overflow lr ∧
      size lr1 = size lr ∧ maxLine lr1 = maxLine lr ∧ curMax lr1 = curMax lr).
  { case_decide as H0.
    - exists lr. rewrite H0. by rewrite drop_0.
    - rewrite slice_full by lia. eexists. split; [reflexivity|]. done. }
  destruct Hshift as (lr1 & Hrun & Hb & Hs1 & Ho & Hsz & Hmx & Hcm).
  unfold fill. rewrite (bind_run get_reader _ _ lr (lr, rd)) by done. rewrite (bind_run _ _ _ _ _ Hrun).
  assert (Hlen : zlen (buf lr1) = BufferedLen lr).
  { rewrite Hb. unfold BufferedLen. rewrite zlen_drop; lia. }
  unfold read_more. pose proof (Read_fits (Z.to_nat (size lr1 - zlen (buf lr1))) rd) as Hfit.
  pose proof (Read_log (Z.to_nat (size lr1 - zlen (buf lr1))) rd) as Hlog.
  pose proof (Read_progress (Z.to_nat (size lr1 - zlen (buf lr1))) rd ltac:(lia)) as Hpr.
  destruct (Read _ rd) as [[d err] rd']. simpl in *.
  eexists err, _, rd', d. split; [reflexivity|]. unfold pending, aside. simpl. rewrite Ho, Hs1.
  assert (zlen d ≤ size lr1 - zlen (buf lr1))%Z by (unfold zlen at 1; lia).
  pose proof (zlen_nonneg (buf lr1)). pose proof (zlen_nonneg d).
  split; [constructor; simpl; rewrite ?zlen_app, ?Ho; try congruence; lia|].
  split; [done|]. split; [|done]. rewrite Hb. change (Z.to_nat 0) with 0. by rewrite !drop_0, app_assoc.
Qed.

Lemma take_finish_run mx lr (rd : RS) n err (k := Z.to_nat (aside lr + n)) :
  lr_ok mx lr → (0 ≤ n ≤ BufferedLen lr)%Z →
  ∃ lr', (line ← take_line n; finish_line line err) (lr, rd) = Ret ((Some (take k (pending lr)), err), (lr', rd)) ∧
    lr_ok mx lr' ∧ pending lr' = drop k (pending lr).
Proof.
  intros Hok Hn. pose proof Hok as [? Hst ? ? ? ? ?]. unfold BufferedLen in Hn.
  unfold take_line, finish_line, get_reader, put_reader. monad. unfold slice. rewrite bool_decide_true by lia.
  cbn [overflow buf start size maxLine fst snd]. unfold k, aside, pending, default, from_option, id in *.
  destruct (overflow lr) as [os|] eqn:Eo; simpl in *.
  - pose proof (zlen_nonneg (concat os)). rewrite concat_app. simpl. rewrite app_nil_r. replace (start lr + n - start lr)%Z with n by lia.
    rewrite Z2Nat.inj_add by (apply zlen_nonneg || lia). replace (Z.to_nat (zlen (concat os))) with (length (concat os)) by zlen_lia.
    rewrite take_app_add, drop_app_add, drop_drop, <-Z2Nat.inj_add by lia. eexists. split; [reflexivity|]. simpl.
    split; [|done]. constructor; simpl; rewrite ?zlen_nil; try done; lia.
  - rewrite zlen_nil in *. simpl. rewrite drop_drop, <-Z2Nat.inj_add by lia.
    replace (start lr + n - start lr)%Z with n by lia. eexists. split; [reflexivity|]. simpl.
    split; [|done]. constructor; simpl; rewrite ?zlen_nil; try done; lia.
Qed.

Lemma spill_run mx lr (rd : RS) :
  lr_ok mx lr → (size lr ≤ BufferedLen lr < curMax lr)%Z → IndexByte (pending lr) newline = None →
  ∃ lr', spill (lr, rd) = Ret (tt, (lr', rd)) ∧ lr_ok mx lr' ∧ pending lr' = pending lr ∧ (BufferedLen lr' < size lr')%Z.
Proof.
  intros Hok Hfull Hno. pose proof Hok as [? Hst ? ? ? ? ?]. unfold BufferedLen in Hfull.
  assert (Hs0 : start lr = 0%Z) by lia.
  assert (Hp : concat (default [] (overflow lr) ++ [buf lr]) = pending lr).
  { unfold pending. rewrite Hs0, concat_app. simpl. by rewrite app_nil_r, drop_0. }
  eexists. split; [reflexivity|]. unfold BufferedLen. split; [|split; [|simpl; unfold zlen; simpl; lia]].
  - constructor; simpl; rewrite ?zlen_nil, ?Hp; try done; try lia.
    rewrite (pending_len mx) by done. unfold BufferedLen, aside. lia.
  - rewrite <-Hp. unfold pending. simpl. by rewrite app_nil_r.
Qed.

(** What a call of [ReadSlice] returns, [d] being what it read. *)
Definition slice_result (mx : Z) (p d : text) (lr' : LineReader) (r : option text * option line_error) : Prop :=
  match r with
  | (Some line, None) => next_segment mx (p ++ d) = Some (line, false, pending lr')
  | (Some line, Some ErrLineTooLong) => next_segment mx (p ++ d) = Some (line, true, pending lr')
  | (None, Some (ErrRead e)) => pending lr' = p ++ d
  | _ => False
  end.

Definition slice_ok (mx : Z) (p : text) (rd : RS) (o : outcome ((option text * option line_error) * (LineReader * RS))) : Prop :=
  ∃ r lr' rd' d, o = Ret (r, (lr', rd')) ∧ lr_ok mx lr' ∧ read_log rd' = read_log rd ++ d ∧ slice_result mx p d lr' r.

Lemma slice_ok_more mx p rd d rd' o :
  read_log rd' = read_log rd ++ d → slice_ok mx (p ++ d) rd' o → slice_ok mx p rd o.
Proof.
  intros Hlog (r & lr' & rd'' & d' & Ho & Hok & Hlog' & Hr). exists r, lr', rd'', (d ++ d').
  rewrite Hlog', Hlog, app_assoc. repeat split; try done; try apply Hok.
  unfold slice_result in *. by rewrite app_assoc.
Qed.

Lemma slice_ok_line mx lr (rd : RS) n e :
  lr_ok mx lr → (0 ≤ n ≤ BufferedLen lr)%Z → e = None ∨ e = Some ErrLineTooLong →
  next_segment mx (pending lr) = Some (take (Z.to_nat (aside lr + n)) (pending lr),
    match e with None => false | _ => true end, drop (Z.to_nat (aside lr + n)) (pending lr)) →
  slice_ok mx (pending lr) rd ((line ← take_line n; finish_line line e) (lr, rd)).
Proof.
  intros Hok Hn He Hs. destruct (take_finish_run mx lr rd n e Hok Hn) as (lr' & Hr & Hok' & Hp').
  eexists _, lr', rd, []. split; [exact Hr|]. split; [done|]. split; [by rewrite app_nil_r|].
  unfold slice_result. rewrite app_nil_r, Hs, Hp'. by destruct He as [->| ->].
Qed.

(** The window's line feed, seen from the pending bytes. *)
Lemma window_feed mx lr : lr_ok mx lr →
  IndexByte (pending lr) newline = Z.add (aside lr) <$> IndexByte (drop (Z.to_nat (start lr)) (buf lr)) newline.
Proof. intros [? ? ? ? ? ? Hclean]. unfold pending, aside. by rewrite IndexByte_app_none. Qed.

Lemma read_loop_eq fuel err :
  read_loop (RS := RS) fuel err =
  (lr ← get_reader;
   window ← deref (slice (buf lr) (start lr) (zlen (buf lr)));
   match (match IndexByte window newline with
          | Some n => if decide (n < curMax lr)%Z then Some n else None | None => None end) with
   | Some n => line ← take_line (n + 1); finish_line line None
   | None =>
      match err with
      | Some e => mret (None, Some (ErrRead e))
      | None =>
          if decide (curMax lr ≤ BufferedLen lr)%Z
          then line ← take_line (curMax lr); finish_line line (Some ErrLineTooLong)
          else
            when (bool_decide (size lr ≤ BufferedLen lr)%Z) spill;;
            err' ← fill;
            match fuel with O => out_of_fuel | S fuel' => read_loop fuel' err' end
      end
   end).
Proof. by destruct fuel. Qed.

Lemma read_loop_run mx fuel err lr (rd : RS) :
  lr_ok mx lr → err ≠ None ∨ Z.to_nat (mx - zlen (pending lr)) ≤ fuel → slice_ok mx (pending lr) rd (read_loop fuel err (lr, rd)).
Proof.
  revert err lr rd. induction fuel as [fuel IH] using lt_wf_ind. intros err lr rd Hok Hf.
  pose proof Hok as [? Hst ? ? ? Has ?]. change (zlen (concat _)) with (aside lr) in Has.
  pose proof (window_feed _ _ Hok) as Hw. pose proof (pending_len _ _ Hok) as Hlen. rewrite read_loop_eq.
  rewrite (bind_run get_reader _ _ lr (lr, rd)) by done.
  rewrite (bind_run _ _ _ (drop (Z.to_nat (start lr)) (buf lr)) (lr, rd)) by (rewrite slice_full by lia; done).
  destruct (IndexByte (drop _ (buf lr)) newline) as [n|] eqn:En; simpl in Hw.
  - pose proof (IndexByte_bound _ _ _ En) as Hn. rewrite zlen_drop in Hn by lia. unfold BufferedLen in *.
    case_decide as Hc.
    + apply slice_ok_line; [done|unfold BufferedLen; lia|by left|]. unfold next_segment. rewrite Hw, decide_True by lia.
      by rewrite Z.add_assoc.
    + destruct err as [e|].
      { eexists _, lr, rd, []. split; [reflexivity|]. split; [done|]. unfold slice_result. by rewrite !app_nil_r. }
      rewrite decide_True by lia. apply slice_ok_line; [done|unfold BufferedLen; lia|by right|].
      unfold next_segment. rewrite Hw, decide_False by lia. by replace (aside lr + curMax lr)%Z with mx by lia.
  - destruct err as [e|].
    { eexists _, lr, rd, []. split; [reflexivity|]. split; [done|]. unfold slice_result. by rewrite !app_nil_r. }
    case_decide as Hc.
    + apply slice_ok_line; [done|lia|by right|]. unfold next_segment. rewrite Hw, decide_True by lia.
      by replace (aside lr + curMax lr)%Z with mx by lia.
    + assert (Hspill : ∃ lr1, when (bool_decide (size lr ≤ BufferedLen lr)%Z) spill (lr, rd) = Ret (tt, (lr1, rd)) ∧
        lr_ok mx lr1 ∧ pending lr1 = pending lr ∧ (BufferedLen lr1 < size lr1)%Z).
      { case_bool_decide as Hb; [|exists lr; split; [done|split; [done|split; [done|lia]]]]. apply spill_run; [done|lia|done]. }
      destruct Hspill as (lr1 & Hr1 & Hok1 & Hp1 & Hc1). rewrite (bind_run _ _ _ _ _ Hr1).
      destruct (fill_run mx lr1 rd Hok1 Hc1) as (err' & lr2 & rd2 & d & Hr2 & Hok2 & Hlog & Hp2 & Hd & _).
      rewrite (bind_run _ _ _ _ _ Hr2).
      assert (Hmx : (zlen (pending lr) < mx)%Z) by lia.
      destruct fuel as [|fuel]; [destruct Hf; [done|lia]|]. apply (slice_ok_more _ _ _ _ _ _ Hlog). rewrite <-Hp1, <-Hp2.
      apply IH; [lia|done|]. rewrite Hp2, zlen_app, Hp1. destruct Hf as [|Hf]; [done|].
      destruct d as [|x d]; [left; by apply Hd|right]. rewrite zlen_cons. pose proof (zlen_nonneg d). lia.
Qed.

Lemma ReadSlice_run mx fuel lr (rd : RS) :
  lr_ok mx lr → Z.to_nat mx ≤ fuel → slice_ok mx (pending lr) rd (ReadSlice fuel (lr, rd)).
Proof.
  intros Hok Hf. unfold ReadSlice. rewrite (bind_run get_reader _ _ lr (lr, rd)) by done.
  case_decide as H0.
  - destruct (fill_run mx lr rd Hok) as (err & lr1 & rd1 & d & Hr & Hok1 & Hlog & Hp & _).
    { destruct Hok. unfold BufferedLen. lia. }
    rewrite (bind_run _ _ _ _ _ Hr). apply (slice_ok_more _ _ _ _ _ _ Hlog). rewrite <-Hp.
    apply read_loop_run; [done|right]. pose proof (zlen_nonneg (pending lr1)). lia.
  - rewrite (bind_run (mret None) _ _ None (lr, rd)) by done.
    apply read_loop_run; [done|right]. pose proof (zlen_nonneg (pending lr)). lia.
Qed.

Lemma tail_lines_run mx fuel n lr (rd : RS) :
  lr_ok mx lr → (0 < mx)%Z → Z.to_nat mx ≤ fuel →
  ∃ out lr' rd' d, tail_lines fuel n (lr, rd) = Ret (out, (lr', rd')) ∧ lr_ok mx lr' ∧
    read_log rd' = read_log rd ++ d ∧ cut_into mx (pending lr ++ d) out (pending lr').
Proof.
  intros Hok Hmx Hf. revert lr rd Hok. induction n as [|n IH]; intros lr rd Hok; cbn [tail_lines].
  { exists [], lr, rd, []. rewrite !app_nil_r. done. }
  destruct (ReadSlice_run mx fuel lr rd Hok Hf) as (r & lr1 & rd1 & d1 & Hr & Hok1 & Hlog1 & Hs).
  rewrite (bind_run _ _ _ _ _ Hr).
  destruct (IH lr1 rd1 Hok1) as (out & lr2 & rd2 & d2 & Hr2 & Hok2 & Hlog2 & Hc).
  rewrite (bind_run _ _ _ _ _ Hr2).
  eexists _, lr2, rd2, (d1 ++ d2). split; [reflexivity|]. split; [done|].
  split; [by rewrite Hlog2, Hlog1, app_assoc|]. rewrite app_assoc.
  destruct r as [[line|] [[|e]|]]; simpl in Hs |- *; try done.
  - exists (pending lr1 ++ d2). split; [by apply next_segment_app|done].
  - exists (pending lr1 ++ d2). split; [by apply next_segment_app|done].
  - by rewrite <-Hs.
Qed.
End Lines.

(** An invariant of the reader's reads is one of [ReadSlice]. *)
Section Keeps.
Context {RS : Type} `{Reader RS} (I : RS → Prop) (HI : ∀ k s, I s → I (snd (Read k s))).

Abbreviation inv := (fun s : LineReader * RS => I (snd s)).

Lemma fill_keeps : keeps inv fill.
Proof.
  unfold fill. apply keeps_bind; [by apply hoare_gets|intros lr]. apply keeps_bind.
  - case_decide; [by apply hoare_ret|]. apply keeps_bind; [by apply hoare_deref|]. intros t. by apply hoare_modify.
  - intros _ [lr1 rd] e [lr2 rd2] Hi. unfold read_more. pose proof (HI (Z.to_nat (size lr1 - zlen (buf lr1))) rd Hi) as HI'.
    destruct (Read _ rd) as [[data err] rd']. by intros [= _ _ <-].
Qed.

Lemma finish_keeps n e : keeps inv (line ← take_line n; finish_line line e).
Proof.
  apply keeps_bind.
  - apply keeps_bind; [by apply hoare_gets|intros lr]. apply keeps_bind; [by apply hoare_deref|intros t].
    apply keeps_bind; [by apply hoare_modify|intros _]. by apply hoare_ret.
  - intros line. apply keeps_bind; [by apply hoare_gets|intros lr]. destruct (overflow lr); [|by apply hoare_ret].
    apply keeps_bind; [by apply hoare_modify|intros _]. by apply hoare_ret.
Qed.

Lemma read_loop_keeps fuel e : keeps inv (read_loop fuel e).
Proof.
  revert e. induction fuel as [|fuel IH]; intros e; rewrite read_loop_eq;
    (apply keeps_bind; [by apply hoare_gets|intros lr]; apply keeps_bind; [by apply hoare_deref|intros w];
     destruct (match IndexByte w newline with Some n => _ | None => None end); [apply finish_keeps|];
     destruct e; [by apply hoare_ret|]; case_decide; [apply finish_keeps|];
     apply keeps_bind; [apply keeps_when, keeps_bind; [by apply hoare_gets|intros ?; by apply hoare_modify]|intros _];
     apply keeps_bind; [apply fill_keeps|intros e']); [apply hoare_fuel|apply IH].
Qed.

Lemma ReadSlice_keeps fuel : keeps inv (ReadSlice fuel).
Proof.
  apply keeps_bind; [by apply hoare_gets|intros lr]. apply keeps_bind; [|intros e; apply read_loop_keeps].
  case_decide; [apply fill_keeps|by apply hoare_ret].
Qed.
End Keeps.

(** C9. Tailing a reader: for every size of the buffer, every maximum and every
    way the reads are chunked, interrupted by an end of file or an error and
    resumed, each call ends within a number of reads bounded by the maximum and
    does not panic; the lines returned are the first segments of the reference
    cut of all bytes read, and what is buffered is the rest: nothing is lost,
    repeated or reordered, and no line exceeds the maximum. *)
Theorem linereader_segments {RS : Type} `{Reader RS} sz mx n (rd : RS) :
  (0 < sz)%Z → (0 < mx)%Z → read_log rd = [] →
  ∃ out lr rd', tail_lines (Z.to_nat mx) n (NewLineReader sz mx, rd) = Ret (out, (lr, rd')) ∧
    cut_into mx (read_log rd') out (pending lr) ∧
    read_log rd' = concat (fst <$> out) ++ pending lr ∧
    Forall (fun '(line, cut) => line ≠ [] ∧ (zlen line ≤ mx)%Z) out.
Proof.
  intros Hsz Hmx Hlog.
  destruct (tail_lines_run mx (Z.to_nat mx) n _ rd (NewLineReader_ok sz mx Hsz Hmx) Hmx ltac:(done))
    as (out & lr & rd' & d & Hr & _ & Hd & Hc). rewrite Hlog in Hd. simpl in Hd, Hc.
  exists out, lr, rd'. rewrite Hd. split; [done|split; [done|]]. clear Hr Hd. change (pending _ ++ d) with d in Hc.
  revert d Hc. induction out as [|[line b] out IH]; intros d; simpl; [by intros ->|].
  intros (t' & Hs & Hc). apply next_segment_bound in Hs as (-> & Hne & Hle); [|done].
  destruct (IH t' Hc) as [Ht Hf]. split; [by rewrite Ht, app_assoc|]. by constructor.
Qed.

(** ** A reader that returns the given results, cut to the size of the buffer *)
Record script := mkScript { sc_chunks : list (text * option read_error); sc_log : text }.

#[export] Program Instance Reader_script : Reader script := {
  Read k s :=
    match sc_chunks s with
    | [] => (([], Some EOF), s)
    | (t, e) :: cs =>
        if decide (t = [] ∧ e = None) then (([], Some EOF), mkScript cs (sc_log s))
        else if decide (length t ≤ k) then ((t, e), mkScript cs (sc_log s ++ t))
        else ((take k t, None), mkScript ((drop k t, e) :: cs) (sc_log s ++ take k t))
    end;
  read_log := sc_log;
}.
Next Obligation. intros k [[|[t e] cs] l]; simpl; [lia|]. repeat case_decide; simpl; rewrite ?length_take; lia. Qed.
Next Obligation. intros k [[|[t e] cs] l]; simpl; [by rewrite app_nil_r|]. repeat case_decide; simpl; by rewrite ?app_nil_r. Qed.
Next Obligation.
  intros k [[|[t e] cs] l] Hk; simpl; [done|]. repeat case_decide; simpl; [done|naive_solver|].
  destruct t; [simpl in *; lia|]. destruct k; [lia|done].
Qed.

(** Three-byte buffers, a maximum of eight. *)
Definition example_reads : script := mkScript
  [(bytes_of "ab", None); (bytes_of "c" ++ [newline] ++ bytes_of "0123456789", None); ([], Some EOF);
   (bytes_of "x" ++ [newline] ++ bytes_of "tail", Some EOF)] [].

Lemma linereader_segments_witness :
  (∃ out lr rd', tail_lines 8 6 (NewLineReader 3 8, example_reads) = Ret (out, (lr, rd')) ∧
    cut_into 8 (read_log rd') out (pending lr) ∧ read_log rd' = concat (fst <$> out) ++ pending lr ∧
    Forall (fun '(line, cut) => line ≠ [] ∧ (zlen line ≤ 8)%Z) out) ∧
  match tail_lines 8 6 (NewLineReader 3 8, example_reads) with
  | Ret (out, (lr, _)) => out = [(bytes_of "abc" ++ [newline], false); (bytes_of "01234567", true); (bytes_of "89x" ++ [newline], false)] ∧
      pending lr = bytes_of "tail"
  | _ => False
  end.
Proof.
  split; [exact (linereader_segments 3 8 6 example_reads eq_refl eq_refl eq_refl)|]. vm_compute. split; reflexivity.
Defined.

(** [Reset] keeps the bytes put aside, so they come back in front of the first
    line read afterwards, and [BufferedLen] does not count them. *)
Example reset_keeps_overflow :
  match tail_lines 8 1 (NewLineReader 3 8, mkScript [(bytes_of "abcd", None)] []) with
  | Ret (_, (lr, _)) => BufferedLen lr = 1%Z ∧
      match tail_lines 8 1 (LineReader_Reset lr, mkScript [(bytes_of "x" ++ [newline], None)] []) with
      | Ret (out, _) => out = [(bytes_of "abcx" ++ [newline], false)]
      | _ => False
      end
  | _ => False
  end.
Proof. vm_compute. split; reflexivity. Qed.
