(* ===== verification/Harvester.v ===== *)
(** * lc-lib/harvester/harvester.go: reading one file

    The harvester reads lines from its file or from standard input, passes them
    through its codecs and sends the resulting events to the spooler.  The
    operating system, the requests to stop and the readiness of the channels are
    an environment whose answers are numbered, so two answers may differ.  The
    harvester's goroutine is sequential; the figures it publishes under its mutex
    are part of the state.  A codec returns its callback's calls in order, so the
    figures a codec is asked for while the output blocks are those after the line. *)
From S2P Require Import Prelude Core Codecs ConfigParser Config LineReader.

Inductive harvest_error :=
| HRead (e : read_error)
| HOpen (message : text)
| HStat (message : text)
| HSeek (message : text)
| HNotSameFile
| ErrFileTruncated
| ErrStopRequested.

(** Which case of the output select is taken. *)
Inductive selection := SelStop | SelSend | SelMeter.

(** The [os.FileInfo] of a file, its reads and the stop channel. *)
Class Host (FI : Type) := {
  fi_Size : FI → Z;
  fi_ModTime : FI → Z;
  SameFile : FI → FI → bool;
  file_Open : nat → text → option text;
  file_Stat : nat → text + FI;
  file_Tell_error : nat → option text;
  file_Read : nat → Z → nat → text * option read_error;
  file_Read_fits : ∀ n p k, length (fst (file_Read n p k)) ≤ k;
  file_Read_progress : ∀ n p k, 0 < k → fst (file_Read n p k) = [] → snd (file_Read n p k) ≠ None;
  stop_closed : nat → bool;
  output_choice : nat → selection;
}.

(** An open file: how many answers of the environment were used, its position,
    and (ghost) the bytes read since the last seek. *)
Record descriptor := mkDescriptor { fd_tick : nat; fd_pos : Z; fd_log : text }.

#[export] Program Instance Reader_file {FI} `{Host FI} : Reader descriptor := {
  Read k d :=
    let '(data, e) := file_Read (fd_tick d) (fd_pos d) k in
    ((data, e), mkDescriptor (S (fd_tick d)) (fd_pos d + zlen data) (fd_log d ++ data));
  read_log := fd_log;
}.
Next Obligation. intros FI ? k [n p l]. simpl. pose proof (file_Read_fits n p k). by destruct (file_Read n p k). Qed.
Next Obligation. intros FI ? k [n p l]. simpl. by destruct (file_Read n p k). Qed.
Next Obligation. intros FI ? k [n p l] Hk. simpl. pose proof (file_Read_progress n p k Hk). by destruct (file_Read n p k). Qed.

(** The figures. *)
Record Figures := mkFigures {
  staleOffset : Z;
  staleBytes : Z;
  lastStaleOffset : Z;
  lastReadTime : Z;
  h_lastMeasurement : Z;
  lastCheck : Z;
  h_lastLineCount : Z;
  lastByteCount : Z;
  secondsWithoutEvents : Z;
  h_lineSpeed : float64;
  byteSpeed : float64;
  h_lineCount : Z;
  byteCount : Z;
  lastEOF : option (Z * Z);
  lastSize : Z;
  lastOffset : Z;
}.

Definition zeroFigures : Figures :=
  mkFigures 0 0 0 zeroTime zeroTime zeroTime 0 0 0 f64_zero f64_zero 0 0 None 0 0.

(** [h_codecs] is [codec] followed by [codecChain]. *)
Record Harvester (C FI : Type) := mkHarvester {
  h_stream : Stream;
  h_isStream : bool;
  h_path : text;
  h_fileinfo : option FI;
  h_offset : Z;
  h_codecs : list C;
  h_split : bool;
  h_timezone : text;
  h_reader : LineReader;
  h_fd : descriptor;
  h_figures : Figures;
  h_output : list EventDescriptor;
}.
Arguments mkHarvester {C FI}.
Arguments h_stream {C FI}.
Arguments h_isStream {C FI}.
Arguments h_path {C FI}.
Arguments h_fileinfo {C FI}.
Arguments h_offset {C FI}.
Arguments h_codecs {C FI}.
Arguments h_split {C FI}.
Arguments h_timezone {C FI}.
Arguments h_reader {C FI}.
Arguments h_fd {C FI}.
Arguments h_figures {C FI}.
Arguments h_output {C FI}.

Section Harvester.
Context {C FI CF : Type} `{Codec C} `{Host FI} `{Env}.
Context (Encode : attrs → option text).
Context (general : General) (streamConfig : StreamConfig CF).

Abbreviation HV := (Harvester C FI).
Abbreviation H_ := (M HV).

Definition set_fileinfo (i : option FI) (h : HV) : HV :=
  mkHarvester (h_stream h) (h_isStream h) (h_path h) i (h_offset h) (h_codecs h) (h_split h) (h_timezone h) (h_reader h) (h_fd h) (h_figures h) (h_output h).
Definition set_offset (o : Z) (h : HV) : HV :=
  mkHarvester (h_stream h) (h_isStream h) (h_path h) (h_fileinfo h) o (h_codecs h) (h_split h) (h_timezone h) (h_reader h) (h_fd h) (h_figures h) (h_output h).
Definition set_codecs (cs : list C) (h : HV) : HV :=
  mkHarvester (h_stream h) (h_isStream h) (h_path h) (h_fileinfo h) (h_offset h) cs (h_split h) (h_timezone h) (h_reader h) (h_fd h) (h_figures h) (h_output h).
Definition set_split (b : bool) (h : HV) : HV :=
  mkHarvester (h_stream h) (h_isStream h) (h_path h) (h_fileinfo h) (h_offset h) (h_codecs h) b (h_timezone h) (h_reader h) (h_fd h) (h_figures h) (h_output h).
Definition set_reader (r : LineReader) (d : descriptor) (h : HV) : HV :=
  mkHarvester (h_stream h) (h_isStream h) (h_path h) (h_fileinfo h) (h_offset h) (h_codecs h) (h_split h) (h_timezone h) r d (h_figures h) (h_output h).
Definition set_figures (f : Figures) (h : HV) : HV :=
  mkHarvester (h_stream h) (h_isStream h) (h_path h) (h_fileinfo h) (h_offset h) (h_codecs h) (h_split h) (h_timezone h) (h_reader h) (h_fd h) f (h_output h).
Definition push_output (e : EventDescriptor) (h : HV) : HV :=
  mkHarvester (h_stream h) (h_isStream h) (h_path h) (h_fileinfo h) (h_offset h) (h_codecs h) (h_split h) (h_timezone h) (h_reader h) (h_fd h) (h_figures h) (h_output h ++ [e]).

(** One answer of the environment. *)
Definition ask {A} (f : nat → A) : H_ A :=
  h ← get;
  let d := h_fd h in
  modify (set_reader (h_reader h) (mkDescriptor (S (fd_tick d)) (fd_pos d) (fd_log d)));;
  mret (f (fd_tick d)).

Definition h_Now : H_ Z := ask clock.
Definition h_Since (t : Z) : H_ Z := now ← h_Now; mret (time_Sub now t).
Definition check_stop : H_ bool := ask stop_closed.

(** [file.Seek(pos, SEEK_SET)]. *)
Definition h_Seek (pos : Z) : H_ unit :=
  modify (fun h => set_reader (h_reader h) (mkDescriptor (fd_tick (h_fd h)) pos []) h).

(** ** Construction *)
Context (new_codec : CF → Z → Z → C).

(** The last codec is built first.  An empty list of codecs panics. *)
Definition build_codecs (offset now : Z) : outcome (list C) :=
  match sc_Codecs streamConfig with
  | [] => Panic
  | cs =>
      Ret (omap (fun c => (fun f => new_codec f offset now) <$> cs_Factory c) cs)
  end.

Definition NewHarvester (stream : option (positive * text * FI)) (offset now : Z) (timezone : text) : outcome HV :=
  cs ← build_codecs offset now;
  let '(s, b, p, i) := match stream with
    | Some (s, path, info) => (Some s, false, path, Some info)
    | None => (None, true, bytes_of "stdin", None)
    end in
  Ret (mkHarvester s b p i offset cs false timezone (NewLineReader 0 0) (mkDescriptor 0 0 []) zeroFigures []).

(** ** Events *)
Definition set_attr (k : string) (v : value) (m : attrs) : attrs :=
  map_delete (bytes_of k) m ++ [(VString (bytes_of k), v)].

Definition set_all (kvs m : attrs) : attrs :=
  foldl (fun m '(k, v) => map_delete (key_text k) m ++ [(k, v)]) m kvs.

(** The fields of an event.  No configuration value is a [[]string], so a
    configured "tags" is left alone. *)
Definition event_fields (split : bool) (path timezone : text) (e : emit) : attrs :=
  let m := [(VString (bytes_of "message"), VString (em_text e))] in
  let m := if AddHostField streamConfig then set_attr "host" (VString (g_Host general)) m else m in
  let m := if AddPathField streamConfig then set_attr "path" (VString path) m else m in
  let m := if AddOffsetField streamConfig then set_attr "offset" (VInt (em_start e)) m else m in
  let m := if AddTimezoneField streamConfig then set_attr "timezone" (VString timezone) m else m in
  let m := set_all (Fields streamConfig) (set_all (GlobalFields general) m) in
  if split then
    match map_find (bytes_of "tags") m with
    | Some _ => m
    | None => set_attr "tags" (VSlice [VString (bytes_of "splitline")]) m
    end
  else m.

(** ** Checks and figures *)
Definition statCheck : H_ (option harvest_error) :=
  r ← ask file_Stat;
  match r with
  | inl m => mret (Some (HStat m))
  | inr info =>
      h ← get;
      if decide (fi_Size info < h_offset h)%Z then mret (Some ErrFileTruncated)
      else
        age ← h_Since (lastReadTime (h_figures h));
        (** A nil [fileinfo] panics. *)
        old ← (if decide (DeadTime streamConfig < age)%Z
               then i ← deref (h_fileinfo h); mret (bool_decide (fi_ModTime i = fi_ModTime info))
               else mret false);
        if (old : bool) then mret (Some ErrStopRequested)
        else modify (set_fileinfo (Some info));; mret None
  end.

Definition set_check (t : Z) (f : Figures) : Figures :=
  mkFigures (staleOffset f) (staleBytes f) (lastStaleOffset f) (lastReadTime f) (h_lastMeasurement f) t (h_lastLineCount f) (lastByteCount f) (secondsWithoutEvents f) (h_lineSpeed f) (byteSpeed f) (h_lineCount f) (byteCount f) (lastEOF f) (lastSize f) (lastOffset f).
Definition set_measurement (t : Z) (f : Figures) : Figures :=
  mkFigures (staleOffset f) (staleBytes f) (lastStaleOffset f) (lastReadTime f) t (lastCheck f) (h_lastLineCount f) (lastByteCount f) (secondsWithoutEvents f) (h_lineSpeed f) (byteSpeed f) (h_lineCount f) (byteCount f) (lastEOF f) (lastSize f) (lastOffset f).
Definition set_stale (o l : Z) (f : Figures) : Figures :=
  mkFigures o (staleBytes f) l (lastReadTime f) (h_lastMeasurement f) (lastCheck f) (h_lastLineCount f) (lastByteCount f) (secondsWithoutEvents f) (h_lineSpeed f) (byteSpeed f) (h_lineCount f) (byteCount f) (lastEOF f) (lastSize f) (lastOffset f).
Definition set_eof (e : option (Z * Z)) (f : Figures) : Figures :=
  mkFigures (staleOffset f) (staleBytes f) (lastStaleOffset f) (lastReadTime f) (h_lastMeasurement f) (lastCheck f) (h_lastLineCount f) (lastByteCount f) (secondsWithoutEvents f) (h_lineSpeed f) (byteSpeed f) (h_lineCount f) (byteCount f) e (lastSize f) (lastOffset f).
Definition set_times (r m c : Z) (f : Figures) : Figures :=
  mkFigures (staleOffset f) (staleBytes f) (lastStaleOffset f) r m c (h_lastLineCount f) (lastByteCount f) (secondsWithoutEvents f) (h_lineSpeed f) (byteSpeed f) (h_lineCount f) (byteCount f) (lastEOF f) (lastSize f) (lastOffset f).

(** One line more; the counters are uint64. *)
Definition count_line (bytesread now : Z) (f : Figures) : Figures :=
  mkFigures (staleOffset f) (staleBytes f) (lastStaleOffset f) now (h_lastMeasurement f) (lastCheck f) (h_lastLineCount f) (lastByteCount f) (secondsWithoutEvents f) (h_lineSpeed f) (byteSpeed f) ((h_lineCount f + 1) mod 2 ^ 64) ((byteCount f + bytesread) mod 2 ^ 64) (lastEOF f) (lastSize f) (lastOffset f).

(** The body of the critical section of [takeMeasurements]. *)
Definition measure (duration offset : Z) (size : option Z) (f : Figures) : Figures :=
  let '(ls, n) := CalculateSpeed math_Exp duration (h_lineSpeed f) (f64_of_Z ((h_lineCount f - h_lastLineCount f) mod 2 ^ 64)) (secondsWithoutEvents f) in
  let '(bs, n) := CalculateSpeed math_Exp duration (byteSpeed f) (f64_of_Z ((byteCount f - lastByteCount f) mod 2 ^ 64)) n in
  let last := default (lastSize f) size in
  let last := if decide (last < offset)%Z then offset else last in
  let stale := if decide (offset < lastStaleOffset f)%Z then (lastStaleOffset f - offset)%Z else 0%Z in
  mkFigures (staleOffset f) stale (lastStaleOffset f) (lastReadTime f) (h_lastMeasurement f) (lastCheck f) (h_lineCount f) (byteCount f) n ls bs (h_lineCount f) (byteCount f) (lastEOF f) last offset.

Definition stale_check (h : HV) : HV :=
  let f := h_figures h in
  let n := BufferedLen (h_reader h) in
  if decide (n = 0)%Z then h
  else
    let l := if decide (staleOffset f = h_offset h ∧ lastStaleOffset f ≠ (h_offset h + n)%Z) then (h_offset h + n)%Z else lastStaleOffset f in
    set_figures (set_stale (h_offset h) l f) h.

Definition takeMeasurements (duration : Z) (isPipelineBlocked : bool) : H_ (option harvest_error) :=
  now ← h_Now;
  modify (fun h => set_figures (set_measurement now (h_figures h)) h);;
  h ← get;
  since ← h_Since (lastCheck (h_figures h));
  let doChecks := bool_decide (10 * Second ≤ since)%Z in
  when doChecks (modify (fun h => set_figures (set_check (h_lastMeasurement (h_figures h)) (h_figures h)) h));;
  when (doChecks && negb isPipelineBlocked) (modify stale_check);;
  e ← (if doChecks && negb (h_isStream h) then statCheck else mret None);
  match e with
  | Some e => mret (Some e)
  | None =>
      modify (fun h => set_figures (measure duration (h_offset h) (fi_Size <$> h_fileinfo h) (h_figures h)) h);;
      modify (fun h => set_codecs (Meter <$> h_codecs h) h);;
      stopped ← check_stop;
      mret (if (stopped : bool) then Some ErrStopRequested else None)
  end.

(** ** The output *)
Fixpoint send_loop (fuel : nat) (desc : EventDescriptor) : H_ unit :=
  match fuel with
  | O => out_of_fuel
  | S fuel' =>
      choice ← ask output_choice;
      match choice with
      | SelStop => mret tt
      | SelSend => modify (push_output desc)
      | SelMeter =>
          h ← get;
          duration ← h_Since (h_lastMeasurement (h_figures h));
          if decide (Second ≤ duration)%Z then
            e ← takeMeasurements duration true;
            match e with
            | Some ErrStopRequested => mret tt
            | _ => send_loop fuel' desc
            end
          else send_loop fuel' desc
      end
  end.

Definition eventCallback (fuel : nat) (e : emit) : H_ unit :=
  h ← get;
  let m := event_fields (h_split h) (h_path h) (h_timezone h) e in
  modify (set_split false);;
  match Encode m with
  | None => mret tt
  | Some encoded => send_loop fuel (mkEventDescriptor (h_stream h) (em_end e) encoded)
  end.

(** Lines, then the events a codec passes on, go through a codec one by one. *)
Fixpoint feed (c : C) (now : Z) (ins : list emit) : outcome (C * list emit) :=
  match ins with
  | [] => Ret (c, [])
  | e :: ins' =>
      '(c, out) ← Event c now (em_start e) (em_end e) (em_text e);
      '(c, outs) ← feed c now ins';
      Ret (c, out ++ outs)
  end.

Fixpoint chain (cs : list C) (now : Z) (ins : list emit) : outcome (list C * list emit) :=
  match cs with
  | [] => Ret ([], ins)
  | c :: cs' =>
      '(c, outs) ← feed c now ins;
      '(cs', final) ← chain cs' now outs;
      Ret (c :: cs', final)
  end.

Definition codec_Event (fuel : nat) (e : emit) : H_ unit :=
  now ← h_Now;
  h ← get;
  match chain (h_codecs h) now [e] with
  | Ret (cs, out) => modify (set_codecs cs);; forM_ out (eventCallback fuel)
  | Panic => panic
  | NoFuel => out_of_fuel
  end.

(** Every codec is torn down; the offset is that of the first. *)
Definition codecTeardown : H_ Z :=
  cs ← gets h_codecs;
  c ← deref (head cs);
  mret (Teardown c).

(** ** Reading *)
Definition line_fuel : nat := Z.to_nat (MaxLineBytes general).

(** [readline]: the text without its line ending, the bytes used; the back-off at
    the end of the file only waits. *)
Definition readline : H_ (option (text * Z) * option read_error) :=
  h ← get;
  match ReadSlice line_fuel (h_reader h, h_fd h) with
  | Ret ((line, e), (r, d)) =>
      modify (set_reader r d);;
      match line, e with
      | Some line, None =>
          let n := zlen line in
          (** [line[len(line)-2]], only looked at for two bytes or more. *)
          let crlf := bool_decide (1 < n)%Z && bool_decide (line !! Z.to_nat (n - 2) = Some carriage_return) in
          t ← deref (slice line 0 (n - if crlf then 2 else 1));
          mret (Some (t, n), None)
      | Some line, Some ErrLineTooLong => modify (set_split true);; mret (Some (line, zlen line), None)
      | Some line, Some (ErrRead e) => mret (Some (line, zlen line), Some e)
      | None, Some (ErrRead e) => mret (None, Some e)
      | None, _ => mret (None, Some EOF)
      end
  | Panic => panic
  | NoFuel => out_of_fuel
  end.

(** Only the first codec is reset. *)
Definition handleTruncation : H_ unit :=
  h_Seek 0;;
  modify (fun h => set_offset 0 (set_figures (set_stale 0 0 (h_figures h)) h));;
  modify (fun h => set_reader (LineReader_Reset (h_reader h)) (h_fd h) h);;
  modify (fun h => set_codecs (match h_codecs h with c :: cs => Reset c :: cs | [] => [] end) h).

Definition process_line (fuel : nat) (t : text) (bytesread : Z) : H_ unit :=
  h ← get;
  let lineOffset := h_offset h in
  modify (set_offset (lineOffset + bytesread));;
  codec_Event fuel (mkEmit lineOffset (lineOffset + bytesread) t);;
  now ← h_Now;
  modify (fun h => set_figures (count_line bytesread now (h_figures h)) h).

Definition performRead (fuel : nat) : H_ (option harvest_error) :=
  '(line, e) ← readline;
  h ← get;
  duration ← h_Since (h_lastMeasurement (h_figures h));
  measured ← (if decide (Second ≤ duration)%Z then takeMeasurements duration false else mret None);
  match measured with
  | Some ErrFileTruncated => handleTruncation;; mret None
  | Some e => mret (Some e)
  | None =>
      match e with
      | None =>
          '(t, n) ← deref line;
          process_line fuel t n;;
          mret None
      | Some EOF =>
          h ← get;
          if h_isStream h then mret (Some ErrStopRequested)
          else
            modify (fun h => set_figures (set_eof (Some (lastReadTime (h_figures h), h_offset h)) (h_figures h)) h);;
            stopped ← check_stop;
            mret (if (stopped : bool) then Some ErrStopRequested else None)
      | Some e => mret (Some (HRead e))
      end
  end.

Definition prepareHarvester : H_ (option harvest_error) :=
  h ← get;
  if h_isStream h then mret None
  else
    opened ← ask (fun n => file_Open n (h_path h));
    match opened with
    | Some m => mret (Some (HOpen m))
    | None =>
        r ← ask file_Stat;
        match r with
        | inl m => mret (Some (HStat m))
        | inr info =>
            old ← deref (h_fileinfo h);
            if SameFile info old then modify (set_fileinfo (Some info));; h_Seek (h_offset h);; mret None
            else mret (Some HNotSameFile)
        end
    end.

(** Everything before the loop. *)
Definition start_harvest : H_ (option harvest_error) :=
  prepared ← prepareHarvester;
  match prepared with
  | Some e => mret (Some e)
  | None =>
      h ← get;
      failed ← (if h_isStream h then modify (set_offset 0);; mret None
                else
                  bad ← ask file_Tell_error;
                  match bad with
                  | Some m => mret (Some (HSeek m))
                  | None => modify (fun h => set_offset (fd_pos (h_fd h)) h);; mret None
                  end);
      match failed with
      | Some e => mret (Some e)
      | None =>
          modify (fun h => set_reader (NewLineReader (LineBufferBytes general) (MaxLineBytes general)) (h_fd h) h);;
          now ← h_Now;
          modify (fun h => set_figures (set_times now now now (h_figures h)) h);;
          mret None
      end
  end.

(** The loop, for [n] reads: [None] if it is still running. *)
Fixpoint read_n (fuel n : nat) : H_ (option harvest_error) :=
  match n with
  | O => mret None
  | S n' =>
      e ← performRead fuel;
      match e with
      | Some e => mret (Some e)
      | None => read_n fuel n'
      end
  end.

(** What [harvest] returns once its loop has ended with [e]. *)
Definition finish_harvest (e : harvest_error) : H_ (Z * option harvest_error) :=
  offset ← codecTeardown;
  mret (offset, match e with ErrStopRequested => None | _ => Some e end).
End Harvester.
