(* ===== verification/HarvesterProps.v ===== *)
(** * Properties of the harvester

    A file that only grows, read by a harvester: for any codecs that do not panic,
    what is sent is what the codecs make of the lines of the file, in order; then
    the plain codec in particular. *)
From S2P Require Import Prelude Core Codecs ConfigParser Config LineReader Harvester.

(** The line without its ending; a segment that was cut has none. *)
Definition strip_eol (seg : text * bool) : text :=
  let '(line, cut) := seg in
  if cut then line
  else if decide ((1 < zlen line)%Z ∧ line !! (length line - 2) = Some carriage_return)
       then take (length line - 2) line else take (length line - 1) line.

(** A file that grows, its reads and its size; output that is always ready. *)
Class GrowingFile (FI : Type) `{Host FI} (content : nat → text) : Prop := {
  content_grows : ∀ n, content n `prefix_of` content (S n);
  content_read : ∀ n p k, (0 ≤ p ≤ zlen (content n))%Z → fst (file_Read n p k) `prefix_of` drop (Z.to_nat p) (content n);
  content_stat : ∀ n info, file_Stat n = inr info → fi_Size info = zlen (content n);
  output_ready : ∀ n, output_choice n = SelSend;
}.

Section Growing.
Context {FI CF : Type} {Hhost : Host FI} {Henv : Env} {content : nat → text} {Hgrow : GrowingFile FI content}.
Context (Encode : attrs → option text) (general : General) (streamConfig : StreamConfig CF).

(** The events of the segments [out] of a file from offset [o] on. *)
Fixpoint line_events (s : Stream) (path tz : text) (o : Z) (out : list (text * bool)) : list EventDescriptor :=
  match out with
  | [] => []
  | seg :: out' =>
      let e := (o + zlen (fst seg))%Z in
      match Encode (event_fields general streamConfig (snd seg) path tz (mkEmit o e (strip_eol seg))) with
      | Some enc => [mkEventDescriptor s e enc]
      | None => []
      end ++ line_events s path tz e out'
  end.

Definition total_len (out : list (text * bool)) : Z := zlen (concat (fst <$> out)).

Lemma total_len_cons seg out : total_len (seg :: out) = (zlen (fst seg) + total_len out)%Z.
Proof. apply zlen_app. Qed.

Lemma line_events_app s path tz o out seg :
  line_events s path tz o (out ++ [seg]) = line_events s path tz o out ++ line_events s path tz (o + total_len out) [seg].
Proof.
  revert o. induction out as [|seg' out IH]; intros o; simpl.
  - unfold total_len. simpl. by rewrite zlen_nil, Z.add_0_r.
  - rewrite IH, <-app_assoc. f_equal. f_equal. simpl. unfold total_len. simpl. by rewrite zlen_app, !Z.add_assoc.
Qed.

Lemma cut_into_len mx t out rest : cut_into mx t out rest → (total_len out ≤ zlen t)%Z.
Proof.
  revert t. induction out as [|[line b] out IH]; intros t; [intros _; apply zlen_nonneg|].
  intros (t' & Hs & Hc). rewrite total_len_cons. specialize (IH t' Hc). simpl.
  assert (zlen t = zlen line + zlen t')%Z; [|lia]. revert Hs. unfold next_segment.
  destruct (IndexByte t newline); repeat case_decide; try done; intros [= <- _ <-]; by rewrite <-zlen_app, take_drop.
Qed.

Lemma content_mono m n : (m ≤ n)%nat → content m `prefix_of` content n.
Proof. induction 1; [done|]. by etrans; [|apply content_grows]. Qed.

Lemma drop_prefix {A} (k : nat) (l1 l2 : list A) : l1 `prefix_of` l2 → k ≤ length l1 → drop k l1 `prefix_of` drop k l2.
Proof. intros [r ->] Hk. exists r. by rewrite drop_app_le. Qed.

(** ** What codecs make of lines *)
Section Codecs.
Context {C : Type} `{Codec C} (cs0 : list C).

Abbreviation HV := (Harvester C FI).

(** The event an emission becomes; [b] says whether a line was cut since the last. *)
Definition sent_event (s : Stream) (path tz : text) (b : bool) (e : emit) : list EventDescriptor :=
  match Encode (event_fields general streamConfig b path tz e) with
  | Some enc => [mkEventDescriptor s (em_end e) enc]
  | None => []
  end.

Fixpoint send_all (s : Stream) (path tz : text) (b : bool) (es : list emit) : list EventDescriptor :=
  match es with
  | [] => []
  | e :: es' => sent_event s path tz b e ++ send_all s path tz false es'
  end.

Definition split_after (b : bool) (es : list emit) : bool := match es with [] => b | _ :: _ => false end.

(** The codecs [cs0] have been given the segments [out] from offset [o] on, at any
    times and with measurements in between: the codecs they have become, whether a
    line was cut since the last event, and the events sent. *)
Inductive codec_trace (s : Stream) (path tz : text) (o : Z) : list (text * bool) → list C → bool → list EventDescriptor → Prop :=
| trace_start : codec_trace s path tz o [] cs0 false []
| trace_meter out cs b evs :
    codec_trace s path tz o out cs b evs → codec_trace s path tz o out (Meter <$> cs) b evs
| trace_line out cs b evs seg now cs' es :
    codec_trace s path tz o out cs b evs →
    chain cs now [mkEmit (o + total_len out) (o + total_len out + zlen (fst seg)) (strip_eol seg)] = Ret (cs', es) →
    codec_trace s path tz o (out ++ [seg]) cs' (split_after (b || snd seg) es) (evs ++ send_all s path tz (b || snd seg) es).

(** The codecs take any line. *)
Definition feedable (s : Stream) (path tz : text) (o : Z) : Prop :=
  ∀ out cs b evs now e, codec_trace s path tz o out cs b evs → ∃ r, chain cs now [e] = Ret r.

(** The harvester [h] of stream [s] started at [o] has sent the events of [out] and
    has read the segments [nx] - none or one - as well. *)
Record harvested (s : Stream) (path tz : text) (o : Z) (out nx : list (text * bool)) (h : HV) : Prop := mkHarvested {
  hv_start : (0 ≤ o ≤ zlen (content 0))%Z;
  hv_reader : lr_ok (MaxLineBytes general) (h_reader h);
  hv_pos : fd_pos (h_fd h) = (o + zlen (fd_log (h_fd h)))%Z;
  hv_log : fd_log (h_fd h) `prefix_of` drop (Z.to_nat o) (content (fd_tick (h_fd h)));
  hv_cut : cut_into (MaxLineBytes general) (fd_log (h_fd h)) (out ++ nx) (pending (h_reader h));
  hv_offset : h_offset h = (o + total_len out)%Z;
  hv_codecs : ∃ b, codec_trace s path tz o out (h_codecs h) b (h_output h) ∧ h_split h = b || existsb snd nx;
  hv_stream : h_stream h = s ∧ h_path h = path ∧ h_timezone h = tz ∧ h_isStream h = false;
  hv_info : is_Some (h_fileinfo h);
}.

Section Invariant.
Context (s : Stream) (path tz : text) (o : Z) (fed : feedable s path tz o).
Abbreviation good := (harvested s path tz o).

Lemma content_len n : (0 ≤ o ≤ zlen (content 0))%Z → (o ≤ zlen (content n))%Z.
Proof. intros Ho. assert (content 0 `prefix_of` content n) as [r ->] by (apply content_mono; lia). rewrite zlen_app. pose proof (zlen_nonneg r). lia. Qed.

Lemma tick_prefix (d : descriptor) n : (0 ≤ o ≤ zlen (content 0))%Z → (fd_tick d ≤ n)%nat →
  fd_log d `prefix_of` drop (Z.to_nat o) (content (fd_tick d)) → fd_log d `prefix_of` drop (Z.to_nat o) (content n).
Proof.
  intros Ho Hn Hlog. etrans; [exact Hlog|]. apply drop_prefix; [by apply content_mono|].
  pose proof (content_len (fd_tick d) Ho). zlen_lia.
Qed.

Lemma tick_good out nx h : good out nx h →
  good out nx (set_reader (h_reader h) (mkDescriptor (S (fd_tick (h_fd h))) (fd_pos (h_fd h)) (fd_log (h_fd h))) h).
Proof. intros [? ? ? Hlog ? ? ? ? ?]. constructor; simpl; try done. apply (tick_prefix (h_fd h)); [done|lia|done]. Qed.

Lemma figures_good out nx h f : good out nx h → good out nx (set_figures f h).
Proof. by intros []; constructor. Qed.

Lemma fileinfo_good out nx h i : good out nx h → good out nx (set_fileinfo (Some i) h).
Proof. intros []; constructor; simpl; eauto. Qed.

Lemma offset_bound out nx h n : good out nx h → (fd_tick (h_fd h) ≤ n)%nat → (h_offset h ≤ zlen (content n))%Z.
Proof.
  intros [Ho ? ? Hlog Hcut -> _ _ _] Hn. pose proof (content_len n Ho). pose proof (cut_into_len _ _ _ _ Hcut) as Hle.
  assert (total_len out ≤ total_len (out ++ nx))%Z.
  { unfold total_len. rewrite fmap_app, concat_app, zlen_app. pose proof (zlen_nonneg (concat (fst <$> nx))). lia. }
  assert (zlen (fd_log (h_fd h)) ≤ zlen (content n) - o)%Z; [|lia].
  pose proof (tick_prefix _ n Ho Hn Hlog) as Hp. apply prefix_length in Hp. rewrite length_drop in Hp. zlen_lia.
Qed.

(** An answer of the environment was given when the file held all read so far. *)
Lemma total_ask {A} out nx (f : nat → A) :
  total (good out nx) (ask f) (fun a h => good out nx h ∧ ∃ n, a = f n ∧ (h_offset h ≤ zlen (content n))%Z).
Proof.
  intros h Hh. unfold ask. monad. eexists _, _. split; [reflexivity|]. split; [by apply tick_good|].
  eexists. split; [done|]. simpl. by apply (offset_bound out nx).
Qed.

Lemma total_ask' {A} out nx (f : nat → A) : total (good out nx) (ask f) (fun _ => good out nx).
Proof. eapply total_conseq; [apply total_ask|done|]. by intros a h []. Qed.

Lemma total_since out nx t : total (good out nx) (h_Since t) (fun _ => good out nx).
Proof. eapply total_bind; [apply total_ask'|]. intros now. by apply total_ret. Qed.

Lemma total_figures out nx (f : HV → Figures) : total (good out nx) (modify (fun h => set_figures (f h) h)) (fun _ => good out nx).
Proof. apply total_modify. intros h. apply figures_good. Qed.

(** The checks of a growing file never find it truncated. *)
Lemma statCheck_good out nx :
  total (good out nx) (statCheck streamConfig) (fun e h => good out nx h ∧ e ≠ Some ErrFileTruncated).
Proof.
  unfold statCheck. eapply total_bind; [apply total_ask|]. intros [m|info]; [apply total_ret; by intros h []|].
  eapply (total_bind _ (fun h' h => good out nx h ∧ (h_offset h' ≤ fi_Size info)%Z ∧ is_Some (h_fileinfo h'))).
  { apply total_get. intros h (Hh & n & Hi & Hle). split; [done|]. split; [by rewrite (content_stat n info)|apply Hh]. }
  intros h'. case_decide as Hlt; [intros h (_ & ? & _); lia|].
  eapply (total_bind _ (fun _ h => good out nx h ∧ is_Some (h_fileinfo h'))).
  { intros h (Hh & _ & Hi). destruct (total_since out nx (lastReadTime (h_figures h')) h Hh) as (d & h2 & ? & ?). eauto 10. }
  intros age. eapply (total_bind _ (fun _ => good out nx)).
  { intros h (Hh & i & Hi). case_decide; [rewrite Hi|]; eexists _, h; (split; [reflexivity|done]). }
  intros [|]; [by apply total_ret|]. eapply (total_bind _ (fun _ => good out nx)); [|intros _; by apply total_ret].
  apply total_modify. intros h. apply fileinfo_good.
Qed.

Lemma measurements_good out nx duration :
  total (good out nx) (takeMeasurements streamConfig duration false) (fun e h => good out nx h ∧ e ≠ Some ErrFileTruncated).
Proof.
  unfold takeMeasurements. eapply total_bind; [apply total_ask'|intros now; cbv beta].
  eapply total_bind; [apply total_figures|intros ?; cbv beta]. eapply total_bind; [by apply (total_get _ (fun _ => good out nx))|intros h0; cbv beta].
  eapply total_bind; [apply total_since|intros since; cbv beta].
  eapply total_bind; [apply total_when, total_figures|intros ?; cbv beta].
  eapply total_bind; [apply total_when, total_modify|intros ?; cbv beta].
  { intros h Hh. unfold stale_check. case_decide; [done|]. by apply figures_good. }
  eapply (total_bind _ (fun e h => good out nx h ∧ e ≠ Some ErrFileTruncated)).
  { match goal with |- context [if ?b then _ else _] => destruct b end; [apply statCheck_good|by apply total_ret]. }
  intros [e|]; cbv beta; [by apply total_ret|].
  eapply (total_bind _ (fun _ => good out nx)); [apply total_modify; intros h [Hh _]; by apply figures_good|intros ?].
  eapply (total_bind _ (fun _ => good out nx)).
  { apply total_modify. intros h []. constructor; try done. simpl. destruct hv_codecs0 as (b & Hb & ?).
    exists b. split; [by apply trace_meter|done]. }
  intros ?. eapply total_bind; [apply total_ask'|]. intros stopped. by apply total_ret; destruct stopped.
Qed.

(** The same harvester [n] answers later. *)
Definition later (n : nat) (h : HV) : HV :=
  set_reader (h_reader h) (mkDescriptor (n + fd_tick (h_fd h)) (fd_pos (h_fd h)) (fd_log (h_fd h))) h.

Lemma later_good out nx n h : good out nx h → good out nx (later n h).
Proof. intros [? ? ? Hlog ? ? ? ? ?]. constructor; simpl; try done. apply (tick_prefix (h_fd h)); [done|lia|done]. Qed.

Lemma ask_run {A} (f : nat → A) h : ask f h = Ret (f (fd_tick (h_fd h)), later 1 h).
Proof. done. Qed.

Definition append_output (evs : list EventDescriptor) (h : HV) : HV := foldl (fun h ev => push_output ev h) h evs.

Lemma eventCallback_run fuel e (h : HV) : fuel ≠ 0 →
  ∃ n, eventCallback Encode general streamConfig fuel e h =
    Ret (tt, later n (set_split false (append_output (sent_event (h_stream h) (h_path h) (h_timezone h) (h_split h) e) h))).
Proof.
  intros Hf. unfold eventCallback. rewrite (bind_run get _ h h h) by done.
  rewrite (bind_run (modify _) _ h tt (set_split false h)) by done. unfold sent_event.
  destruct (Encode _) as [enc|]; [|exists 0; by destruct h as [? ? ? ? ? ? ? ? ? [] ? ?]].
  destruct fuel as [|fuel]; [done|]. cbn [send_loop]. rewrite (bind_run _ _ _ _ _ (ask_run _ _)), output_ready.
  exists 1. by destruct h.
Qed.

Lemma append_output_fields evs (h : HV) :
  append_output evs h = mkHarvester (h_stream h) (h_isStream h) (h_path h) (h_fileinfo h) (h_offset h) (h_codecs h) (h_split h)
    (h_timezone h) (h_reader h) (h_fd h) (h_figures h) (h_output h ++ evs).
Proof.
  revert h. induction evs as [|ev evs IH]; intros h; simpl; [by rewrite app_nil_r; destruct h|].
  rewrite IH. simpl. by rewrite <-app_assoc.
Qed.

(** All the emissions of a line. *)
Lemma callbacks_run fuel es (h : HV) : fuel ≠ 0 →
  ∃ n, forM_ es (eventCallback Encode general streamConfig fuel) h =
    Ret (tt, later n (set_split (split_after (h_split h) es)
      (append_output (send_all (h_stream h) (h_path h) (h_timezone h) (h_split h) es) h))).
Proof.
  intros Hf. revert h. induction es as [|e es IH]; intros h; [exists 0; by destruct h as [? ? ? ? ? ? ? ? ? [] ? ?]|].
  cbn [forM_ send_all split_after]. destruct (eventCallback_run fuel e h Hf) as (n & Hn).
  match type of Hn with _ = Ret (_, ?x) => destruct (IH x) as (m & Hm) end. exists (m + n).
  unfold M_bind. rewrite Hn, Hm. f_equal. f_equal. rewrite !append_output_fields. unfold later. simpl.
  rewrite <-app_assoc. replace (split_after false es) with false by (by destruct es). by rewrite Nat.add_assoc.
Qed.

(** One line goes through the codecs, and what they make of it is sent. *)
Lemma process_line_good out seg fuel : fuel ≠ 0 →
  total (good out [seg]) (process_line Encode general streamConfig fuel (strip_eol seg) (zlen (fst seg))) (fun _ => good (out ++ [seg]) []).
Proof.
  intros Hf h Hh. unfold process_line. rewrite (bind_run get _ h h h) by done.
  set (h1 := set_offset (h_offset h + zlen (fst seg)) h).
  rewrite (bind_run (modify _) _ h tt h1) by done.
  set (e := mkEmit (h_offset h) (h_offset h + zlen (fst seg)) (strip_eol seg)).
  pose proof Hh as [Ho Hr Hpos Hlog Hcut Hoff (b & Htr & Hsplit) (Hs1 & Hs2 & Hs3 & Hs4) Hi].
  destruct (fed _ _ _ _ (clock (fd_tick (h_fd h1))) e Htr) as ([cs' es] & Hchain).
  set (h2 := set_codecs cs' (later 1 h1)).
  destruct (callbacks_run fuel es h2 Hf) as (n & Hcall).
  rewrite append_output_fields in Hcall.
  match type of Hcall with _ = Ret (_, later n ?x) => set (h3 := x) in Hcall end.
  rewrite (bind_run (codec_Event _ _ _ _ _) _ h1 tt (later n h3)).
  2: { unfold codec_Event. rewrite (bind_run h_Now _ h1 (clock (fd_tick (h_fd h1))) (later 1 h1)) by done.
       rewrite (bind_run get _ _ (later 1 h1) (later 1 h1)) by done.
       change (h_codecs (later 1 h1)) with (h_codecs h). rewrite Hchain.
       rewrite (bind_run (modify _) _ _ tt h2) by done. exact Hcall. }
  rewrite (bind_run h_Now _ (later n h3) (clock (n + fd_tick (h_fd h3))) (later 1 (later n h3))) by done.
  eexists _, _. split; [reflexivity|]. apply figures_good, later_good, later_good. clear Hcall.
  constructor; try done.
  - apply (tick_prefix (h_fd h)); [done|simpl; lia|done].
  - by rewrite app_nil_r.
  - simpl. rewrite Hoff. unfold total_len. rewrite fmap_app, concat_app, zlen_app. simpl. rewrite app_nil_r. lia.
  - simpl in Hsplit. rewrite orb_false_r in Hsplit. exists (split_after (b || snd seg) es). simpl. rewrite orb_false_r, Hs1, Hs2, Hs3, Hsplit.
    split; [|done]. unfold e in Hchain. rewrite Hoff in Hchain. by eapply trace_line.
Qed.

(** A read appends what the file holds next. *)
Definition fd_ok (d : descriptor) : Prop :=
  fd_pos d = (o + zlen (fd_log d))%Z ∧ fd_log d `prefix_of` drop (Z.to_nat o) (content (fd_tick d)).

Lemma read_fd_ok : (0 ≤ o ≤ zlen (content 0))%Z → ∀ k d, fd_ok d → fd_ok (snd (Read k d)).
Proof.
  intros Ho k d [Hpos Hlog]. pose proof (content_len (fd_tick d) Ho) as Hlen.
  assert (Hle : (zlen (fd_log d) ≤ zlen (content (fd_tick d)) - o)%Z).
  { apply prefix_length in Hlog. rewrite length_drop in Hlog. zlen_lia. }
  pose proof (content_read (fd_tick d) (fd_pos d) k) as Hread. simpl.
  destruct (file_Read (fd_tick d) (fd_pos d) k) as [data e]. simpl in *.
  specialize (Hread ltac:(pose proof (zlen_nonneg (fd_log d)); lia)). split; simpl; [rewrite zlen_app; lia|].
  apply (tick_prefix (mkDescriptor (fd_tick d) 0 (fd_log d ++ data))); [done|simpl; lia|]. simpl.
  destruct Hlog as [r Hr]. rewrite Hr. apply prefix_app. rewrite Hpos in Hread.
  replace r with (drop (Z.to_nat (o + zlen (fd_log d))) (content (fd_tick d))); [done|].
  rewrite Z2Nat.inj_add by (apply zlen_nonneg || lia). rewrite <-drop_drop, Hr.
  replace (Z.to_nat (zlen (fd_log d))) with (length (fd_log d)) by zlen_lia. by rewrite drop_app_length.
Qed.

Lemma strip_line line : line ≠ [] →
  let crlf := bool_decide (1 < zlen line)%Z && bool_decide (line !! Z.to_nat (zlen line - 2) = Some carriage_return) in
  slice line 0 (zlen line - if crlf then 2 else 1) = Some (strip_eol (line, false)).
Proof.
  intros Hne. simpl. assert (0 < length line) by (destruct line; [done|simpl; lia]).
  replace (Z.to_nat (zlen line - 2)) with (length line - 2) by zlen_lia.
  case_decide as Hc.
  - destruct Hc as [H1 H2]. rewrite !bool_decide_true by done. simpl. rewrite slice_prefix by zlen_lia. f_equal. f_equal. zlen_lia.
  - replace (_ && _) with false; [rewrite slice_prefix by zlen_lia; f_equal; f_equal; zlen_lia|].
    symmetry. apply andb_false_iff. destruct (bool_decide (1 < zlen line)%Z) eqn:E1; [|by left]. right.
    apply bool_decide_eq_true_1 in E1. apply bool_decide_false. tauto.
Qed.

(** One line is read. *)
Lemma readline_good out : (0 < MaxLineBytes general)%Z →
  total (good out []) (readline general)
    (fun r h => match r with
      | (Some (t, n), None) => ∃ seg, t = strip_eol seg ∧ n = zlen (fst seg) ∧ good out [seg] h
      | (None, Some e) => good out [] h
      | _ => False
      end).
Proof.
  intros Hmx h Hh. unfold readline. rewrite (bind_run get _ h h h) by done.
  pose proof Hh as [Ho Hr Hpos Hlog Hcut Hoff (b0 & Htr & Hsplit) Hs Hi].
  destruct (ReadSlice_run (MaxLineBytes general) (line_fuel general) (h_reader h) (h_fd h) Hr ltac:(done))
    as (r & lr' & fd' & d & Hrun & Hok & Hd & Hres). rewrite Hrun.
  assert (Hfd : fd_ok fd').
  { apply (ReadSlice_keeps fd_ok (read_fd_ok Ho) (line_fuel general) (h_reader h, h_fd h) r (lr', fd')); [by split|done]. }
  destruct Hfd as [Hpos' Hlog']. simpl in Hd. rewrite app_nil_r in Hcut.
  pose proof (cut_into_app _ _ d _ _ Hmx Hcut) as Hcut'. rewrite <-Hd in Hcut'.
  assert (Hseg : ∀ line b, next_segment (MaxLineBytes general) (pending (h_reader h) ++ d) = Some (line, b, pending lr') →
    good out [(line, b)] (set_split (h_split h || b) (set_reader lr' fd' h)) ∧ line ≠ []).
  { intros line b Hn. split; [|by apply next_segment_bound in Hn as (_ & ? & _)].
    constructor; try done; simpl; [eapply cut_into_trans; [exact Hcut'|]; by exists (pending lr')|].
    exists b0. split; [done|]. simpl in Hsplit. rewrite orb_false_r in Hsplit. by rewrite Hsplit, orb_false_r. }
  destruct r as [[line|] [[|e]|]]; simpl in Hres; try done.
  - rewrite (bind_run (modify _) _ h tt (set_reader lr' fd' h)) by done.
    rewrite (bind_run (modify _) _ _ tt (set_split true (set_reader lr' fd' h))) by done.
    destruct (Hseg _ _ Hres) as [Hg _]. rewrite orb_true_r in Hg. eexists _, _. split; [reflexivity|]. exists (line, true). done.
  - rewrite (bind_run (modify _) _ h tt (set_reader lr' fd' h)) by done.
    destruct (Hseg _ _ Hres) as [Hg Hne]. rewrite (strip_line line Hne).
    rewrite (bind_run (deref _) _ _ (strip_eol (line, false)) (set_reader lr' fd' h)) by done.
    eexists _, _. split; [reflexivity|]. exists (line, false). split; [done|split; [done|]].
    rewrite orb_false_r in Hg. replace (set_reader lr' fd' h) with (set_split (h_split h) (set_reader lr' fd' h)); [done|].
    by destruct h.
  - rewrite (bind_run (modify _) _ h tt (set_reader lr' fd' h)) by done.
    eexists _, _. split; [reflexivity|]. constructor; try done; simpl; [by rewrite app_nil_r, Hres|by exists b0].
Qed.

(** The measurement that may follow a read. *)
Lemma maybe_measure_good out nx {A} (k : option harvest_error → M HV A) Q :
  (∀ e, e ≠ Some ErrFileTruncated → total (good out nx) (k e) Q) →
  total (good out nx)
    (h ← get; duration ← h_Since (h_lastMeasurement (h_figures h));
     measured ← (if decide (Second ≤ duration)%Z then takeMeasurements streamConfig duration false else mret None);
     k measured) Q.
Proof.
  intros Hk. eapply total_bind; [by apply (total_get _ (fun _ => good out nx))|intros h0; cbv beta].
  eapply total_bind; [apply total_since|intros duration; cbv beta].
  eapply (total_bind _ (fun e h => good out nx h ∧ e ≠ Some ErrFileTruncated)).
  { case_decide; [apply measurements_good|by apply total_ret]. }
  intros e h [Hh He]. by apply Hk.
Qed.

Lemma performRead_good out fuel : (0 < MaxLineBytes general)%Z → fuel ≠ 0 →
  total (good out []) (performRead Encode general streamConfig fuel)
    (fun e h => ∃ out' nx, good (out ++ out') nx h ∧ (e = None → nx = [])).
Proof.
  intros Hmx Hf. unfold performRead. eapply total_bind; [by apply readline_good|]. intros [line e].
  destruct line as [[t n]|], e as [e|]; try (by intros h []).
  - intros h ([line cut] & -> & -> & Hh). revert h Hh. apply maybe_measure_good. intros [e|] He.
    { destruct e; try done; apply total_ret; intros h Hh; exists [], [(line, cut)]; rewrite app_nil_r; done. }
    eapply (total_bind _ (fun p h => p = (strip_eol (line, cut), zlen line) ∧ good out [(line, cut)] h)); [intros h Hh; by eexists _, h|].
    intros p h [-> Hh]. revert h Hh. eapply total_bind; [by apply (process_line_good out (line, cut))|].
    intros ?. apply total_ret. intros h Hh. exists [(line, cut)], []. done.
  - apply maybe_measure_good. intros [e'|] He.
    { destruct e'; try done; apply total_ret; intros h Hh; exists [], []; rewrite app_nil_r; done. }
    destruct e as [|m]; [|apply total_ret; intros h Hh; exists [], []; by rewrite app_nil_r].
    eapply total_bind; [by apply (total_get _ (fun h' h => good out [] h))|intros h'; cbv beta].
    destruct (h_isStream h'); [apply total_ret; intros h Hh; exists [], []; by rewrite app_nil_r|].
    eapply total_bind; [apply total_figures|intros ?; cbv beta]. eapply total_bind; [apply total_ask'|intros stopped; cbv beta].
    apply total_ret. intros h Hh. exists [], []. by rewrite app_nil_r.
Qed.

Lemma read_n_good out fuel n : (0 < MaxLineBytes general)%Z → fuel ≠ 0 →
  total (good out []) (read_n Encode general streamConfig fuel n) (fun _ h => ∃ out' nx, good (out ++ out') nx h).
Proof.
  intros Hmx Hf. revert out. induction n as [|n IH]; intros out; cbn [read_n].
  { apply total_ret. intros h Hh. exists [], []. by rewrite app_nil_r. }
  eapply total_bind; [by apply performRead_good|]. intros [e|].
  { apply total_ret. intros h (out' & nx & Hh & _). eauto. }
  intros h (out' & nx & Hh & Hnx). rewrite (Hnx eq_refl) in Hh.
  destruct (IH _ h Hh) as (e & h' & Hr & out'' & nx' & Hh'). exists e, h'. split; [done|]. exists (out' ++ out''), nx'.
  by rewrite app_assoc.
Qed.
End Invariant.

(** The harvester at the start of its loop. *)
Lemma start_good s path info o now tz h0 h1 new_codec :
  build_codecs streamConfig new_codec o now = Ret cs0 →
  (0 < LineBufferBytes general)%Z → (0 < MaxLineBytes general)%Z → (0 ≤ o ≤ zlen (content 0))%Z →
  NewHarvester (FI := FI) streamConfig new_codec (Some (s, path, info)) o now tz = Ret h0 →
  start_harvest general h0 = Ret (None, h1) → harvested (Some s) path tz o [] [] h1.
Proof.
  intros Hcs Hsz Hmx Ho. unfold NewHarvester. rewrite Hcs. monad. intros [= <-].
  unfold start_harvest, prepareHarvester, ask, h_Seek, h_Now. monad. simpl.
  destruct (file_Open 0 path) as [m|]; simpl; [done|]. destruct (file_Stat 1) as [m|info']; simpl; [done|].
  destruct (SameFile info' info); simpl; [|done]. destruct (file_Tell_error 2) as [m|]; simpl; [done|]. intros [= <-].
  constructor; simpl; try done; rewrite ?zlen_nil; try lia; try by apply NewLineReader_ok.
  - apply prefix_nil.
  - change (total_len []) with 0%Z. lia.
  - exists false. split; [apply trace_start|done].
Qed.

Lemma cut_into_split mx t out1 out2 rest : cut_into mx t (out1 ++ out2) rest →
  ∃ t', t' = drop (Z.to_nat (total_len out1)) t ∧ cut_into mx t out1 t' ∧ cut_into mx t' out2 rest.
Proof.
  revert t. induction out1 as [|[line b] out1 IH]; intros t; [intros Hc; exists t; by rewrite drop_0|].
  intros (t1 & Hs & Hc). destruct (IH t1 Hc) as (t' & -> & H1 & H2). eexists. split; [done|].
  assert (Ht1 : t1 = drop (length line) t ∧ length line ≤ length t).
  { revert Hs. unfold next_segment. clear. 
    assert (Hgen : ∀ k, drop k t = drop (length (take k t)) t ∧ length (take k t) ≤ length t).
    { intros k. rewrite length_take. split; [|lia]. destruct (decide (k ≤ length t)); [by rewrite Nat.min_l|].
      rewrite !drop_ge by lia. done. }
    destruct (IndexByte t newline); repeat case_decide; intros [= <- _ <-]; apply Hgen. }
  destruct Ht1 as [-> Hle]. rewrite total_len_cons. simpl. rewrite drop_drop in H1, H2.
  replace (Z.to_nat (zlen line + total_len out1)) with (length line + Z.to_nat (total_len out1)) by
    (unfold total_len; zlen_lia). split; [|done]. exists (drop (length line) t). split; [done|]. done.
Qed.

(** What was read is a cut of the file, which can be cut again from the end of any
    segment. *)
Lemma harvested_cut s path tz o out nx h (content_ := content (fd_tick (h_fd h))) :
  (0 < MaxLineBytes general)%Z → harvested s path tz o out nx h →
  ∃ rest, cut_into (MaxLineBytes general) (drop (Z.to_nat o) content_) out rest ∧
    ∀ out1 out2, out = out1 ++ out2 → cut_into (MaxLineBytes general) (drop (Z.to_nat (o + total_len out1)) content_) out2 rest.
Proof.
  intros Hmx [Ho _ _ [r Hlog] Hcut _ _ _ _].
  apply cut_into_split in Hcut as (t' & _ & Hcut & _).
  pose proof (cut_into_app _ _ r _ _ Hmx Hcut) as Hcut'. rewrite <-Hlog in Hcut'.
  exists (t' ++ r). split; [done|].
  intros out1 out2 ->. apply cut_into_split in Hcut' as (t1 & -> & _ & H2). rewrite drop_drop in H2.
  rewrite Z2Nat.inj_add by (lia || apply zlen_nonneg). done.
Qed.

(** A run of the harvester with codecs that take any line. *)
Lemma harvest_run s path info o now tz h0 h1 new_codec fuel n :
  build_codecs streamConfig new_codec o now = Ret cs0 → feedable (Some s) path tz o →
  (0 < LineBufferBytes general)%Z → (0 < MaxLineBytes general)%Z → (0 ≤ o ≤ zlen (content 0))%Z → fuel ≠ 0 →
  NewHarvester (FI := FI) streamConfig new_codec (Some (s, path, info)) o now tz = Ret h0 →
  start_harvest general h0 = Ret (None, h1) →
  ∃ e h out nx, read_n Encode general streamConfig fuel n h1 = Ret (e, h) ∧ harvested (Some s) path tz o out nx h.
Proof.
  intros Hcs Hfed Hsz Hmx Ho Hf H0 H1.
  pose proof (start_good s path info o now tz h0 h1 new_codec Hcs Hsz Hmx Ho H0 H1) as Hg.
  destruct (read_n_good (Some s) path tz o Hfed [] fuel n Hmx Hf h1 Hg) as (e & h & Hr & out & nx & Hh).
  by exists e, h, out, nx.
Qed.
End Codecs.

(** ** The plain codec *)
Lemma plain_trace s path tz o out cs b evs :
  codec_trace [mkPlain o] s path tz o out cs b evs →
  cs = [mkPlain (o + total_len out)] ∧ b = false ∧ evs = line_events s path tz o out.
Proof.
  induction 1 as [|out cs b evs _ (-> & -> & ->)|out cs b evs seg now cs' es _ (-> & -> & ->) Hc].
  - by rewrite Z.add_0_r.
  - done.
  - injection Hc as <- <-. split; [|split; [done|]].
    + f_equal. f_equal. unfold total_len. rewrite fmap_app, concat_app, zlen_app. simpl. rewrite app_nil_r. lia.
    + by rewrite line_events_app.
Qed.

Lemma plain_feedable s path tz o : feedable [mkPlain o] s path tz o.
Proof. intros out cs b evs now [s' e t] (-> & _)%plain_trace. by eexists. Qed.

Lemma plain_codecs o now name unused (f : CF) new_codec :
  sc_Codecs streamConfig = [mkCodecStub name unused (Some f)] → (∀ f o now, new_codec f o now = NewCodecPlain o) →
  build_codecs streamConfig new_codec o now = Ret [mkPlain o].
Proof. intros Hcs Hnew. unfold build_codecs. rewrite Hcs. simpl. by rewrite Hnew. Qed.

(** What a harvester has sent, and from where it can be resumed. *)
Lemma plain_harvested s path tz o out nx h :
  harvested [mkPlain o] s path tz o out nx h →
  h_output h = line_events s path tz o out ∧ h_offset h = (o + total_len out)%Z ∧ codecTeardown h = Ret (h_offset h, h).
Proof.
  intros [_ _ _ _ _ Hoff (b & (Hc & _ & Hout)%plain_trace & _) _ _]. split; [done|]. split; [done|].
  unfold codecTeardown. monad. by rewrite Hc, Hoff.
Qed.

Lemma line_events_split s path tz o out1 out2 :
  line_events s path tz o (out1 ++ out2) = line_events s path tz o out1 ++ line_events s path tz (o + total_len out1) out2.
Proof.
  revert o. induction out1 as [|seg out1 IH]; intros o; [by rewrite Z.add_0_r|].
  cbn [app line_events]. by rewrite IH, <-app_assoc, total_len_cons, Z.add_assoc.
Qed.

(** The start and the end of an event within those sent. *)
Lemma line_events_at s path tz o out l1 e l2 :
  line_events s path tz o out = l1 ++ e :: l2 →
  ∃ out1 out2, out = out1 ++ out2 ∧ line_events s path tz o out1 = l1 ++ [e] ∧ ed_Offset e = (o + total_len out1)%Z.
Proof.
  revert o l1. induction out as [|seg out IH]; intros o l1 Hl; cbn [line_events] in Hl; [by destruct l1|].
  assert (Hcons : ∀ l1', line_events s path tz (o + zlen (fst seg)) out = l1' ++ e :: l2 →
    ∃ out1 out2, seg :: out = out1 ++ out2 ∧ ∃ out1', out1 = seg :: out1' ∧
      line_events s path tz (o + zlen (fst seg)) out1' = l1' ++ [e] ∧ ed_Offset e = (o + total_len out1)%Z).
  { intros l1' H'. destruct (IH _ _ H') as (o1 & o2 & -> & He & Ho). exists (seg :: o1), o2. split; [done|]. exists o1.
    rewrite total_len_cons. split; [done|]. split; [done|lia]. }
  destruct (Encode _) as [enc|] eqn:Ee; simpl in Hl.
  - destruct l1 as [|e1 l1]; simplify_eq/=.
    + exists [seg], out. cbn [line_events]. rewrite Ee, total_len_cons. change (total_len []) with 0%Z. split; [done|]. split; [done|simpl; lia].
    + destruct (Hcons l1) as (o1 & o2 & Ho1 & o1' & -> & He & Ho); [done|]. exists (seg :: o1'), o2. split; [done|]. split; [|done].
      cbn [line_events]. by rewrite Ee, He.
  - destruct (Hcons l1) as (o1 & o2 & Ho1 & o1' & -> & He & Ho); [done|]. exists (seg :: o1'), o2. split; [done|]. split; [|done].
    cbn [line_events]. by rewrite Ee.
Qed.

(** C4. A file that only grows, harvested from an offset [o] with the plain codec
    while the output is ready: however the reads are chunked and whatever checks,
    ends of file and errors come between, each read ends; the events sent are, in
    order, the segments of the reference cut of the bytes from [o] on, each
    carrying its own start and end offset in the file, and the offset kept for
    resuming is the end of the last one.  Cutting the file anew from the end
    offset of any of these events gives the remaining events: resuming neither
    loses nor repeats a line. *)
Theorem harvester_offsets s path info o now tz h0 h1 name unused (f : CF) new_codec fuel n :
  sc_Codecs streamConfig = [mkCodecStub name unused (Some f)] → (∀ f o now, new_codec f o now = NewCodecPlain o) →
  (0 < LineBufferBytes general)%Z → (0 < MaxLineBytes general)%Z → (0 ≤ o ≤ zlen (content 0))%Z → fuel ≠ 0 →
  NewHarvester (C := CodecPlain) (FI := FI) streamConfig new_codec (Some (s, path, info)) o now tz = Ret h0 →
  start_harvest general h0 = Ret (None, h1) →
  ∃ e h out rest (t := drop (Z.to_nat o) (content (fd_tick (h_fd h)))),
    read_n Encode general streamConfig fuel n h1 = Ret (e, h) ∧
    cut_into (MaxLineBytes general) t out rest ∧
    h_output h = line_events (Some s) path tz o out ∧
    h_offset h = (o + total_len out)%Z ∧ codecTeardown h = Ret (h_offset h, h) ∧
    ∀ out1 out2, out = out1 ++ out2 →
      cut_into (MaxLineBytes general) (drop (Z.to_nat (o + total_len out1)) (content (fd_tick (h_fd h)))) out2 rest ∧
      h_output h = line_events (Some s) path tz o out1 ++ line_events (Some s) path tz (o + total_len out1) out2.
Proof.
  intros Hcs Hnew Hsz Hmx Ho Hf H0 H1.
  destruct (harvest_run [mkPlain o] s path info o now tz h0 h1 new_codec fuel n) as (e & h & out & nx & Hr & Hh); try done.
  { by eapply plain_codecs. }
  { apply plain_feedable. }
  destruct (harvested_cut _ _ _ _ _ _ _ _ Hmx Hh) as (rest & Hcut & Hres).
  destruct (plain_harvested _ _ _ _ _ _ _ Hh) as (Hout & Hoff & Hc).
  exists e, h, out, rest. do 5 (split; [done|]).
  intros out1 out2 Heq. split; [by apply Hres|]. by rewrite Hout, Heq, line_events_split.
Qed.
End Growing.

(** ** A concrete file that grows while it is read *)
Definition example_log : text :=
  bytes_of "one" ++ [carriage_return; newline] ++ bytes_of "two" ++ [newline] ++ bytes_of "a long line" ++ [newline] ++ bytes_of "x".

(** A file that has grown to three more bytes of [log] at each answer. *)
Definition growing_content (log : text) (n : nat) : text := take (3 * n) log.

Definition growing_read (log : text) (n : nat) (p : Z) (k : nat) : text * option read_error :=
  let t := take k (drop (Z.to_nat p) (growing_content log n)) in (t, match t with [] => Some EOF | _ => None end).

Program Definition growing_host (log : text) : Host Z := {|
  fi_Size i := i;
  fi_ModTime i := i;
  SameFile _ _ := true;
  file_Open _ _ := None;
  file_Stat n := inr (zlen (growing_content log n));
  file_Tell_error _ := None;
  file_Read := growing_read log;
  stop_closed _ := false;
  output_choice _ := SelSend;
|}.
Next Obligation. intros log n p k. apply firstn_le_length. Qed.
Next Obligation. intros log n p k Hk. unfold growing_read. simpl. by intros ->. Qed.

Lemma growing_grows log : @GrowingFile Z (growing_host log) (growing_content log).
Proof.
  constructor; simpl; try done.
  - intros n. unfold growing_content. exists (take (3 * S n - 3 * n) (drop (3 * n) log)).
    rewrite take_take_drop. f_equal. lia.
  - intros n p k _. exists (drop k (drop (Z.to_nat p) (growing_content log n))). by rewrite take_drop.
  - intros n info [= <-]. done.
Qed.

Definition example_content : nat → text := growing_content example_log.

#[export] Instance example_host : Host Z := growing_host example_log.
#[export] Instance example_growing : GrowingFile Z example_content := growing_grows example_log.

#[export] Program Instance example_clock : Env := {
  clock n := (Z.of_nat n * Millisecond)%Z; rand_Intn n k := 0%Z; map_order _ ks := ks; math_Exp f := f }.
Next Obligation. intros n. unfold Millisecond. lia. Qed.
Next Obligation. intros n k Hk. simpl. lia. Qed.
Next Obligation. done. Qed.

Definition example_general : General := mkGeneral [] [] 4 [] 4 true false 8 (bytes_of "/v") 0 0 100 0.
Definition example_stream : StreamConfig unit := mkStreamConfig false false false false [mkCodecStub (bytes_of "plain") [] (Some tt)] 0 [].
Definition example_Encode (m : attrs) : option text :=
  match map_find (bytes_of "message") m, map_find (bytes_of "tags") m with
  | Some (VString t), None => Some t
  | Some (VString t), Some _ => Some (t ++ bytes_of "+")
  | _, _ => None
  end.

Definition example_start : outcome (option harvest_error * Harvester CodecPlain Z) :=
  match NewHarvester (C := CodecPlain) (FI := Z) example_stream (fun _ o _ => NewCodecPlain o) (Some (7%positive, bytes_of "/log", 0%Z)) 0 0 [] with
  | Ret h0 => start_harvest example_general h0
  | _ => Panic
  end.

Lemma harvester_offsets_witness :
  match example_start with
  | Ret (None, h1) =>
      ∃ e h out rest (t := drop (Z.to_nat 0) (example_content (fd_tick (h_fd h)))),
        read_n example_Encode example_general example_stream 1 9 h1 = Ret (e, h) ∧
        cut_into 8 t out rest ∧ h_output h = line_events example_Encode example_general example_stream (Some 7%positive) (bytes_of "/log") [] 0 out ∧
        h_offset h = (0 + total_len out)%Z ∧ codecTeardown h = Ret (h_offset h, h) ∧
        ∀ out1 out2, out = out1 ++ out2 →
          cut_into 8 (drop (Z.to_nat (0 + total_len out1)) (example_content (fd_tick (h_fd h)))) out2 rest ∧
          h_output h = line_events example_Encode example_general example_stream (Some 7%positive) (bytes_of "/log") [] 0 out1 ++
            line_events example_Encode example_general example_stream (Some 7%positive) (bytes_of "/log") [] (0 + total_len out1) out2
  | _ => False
  end.
Proof.
  assert (Hs : match example_start with Ret (None, _) => True | _ => False end) by (vm_compute; exact I).
  unfold example_start in *.
  destruct (NewHarvester _ _ _ _ _ _) as [h0| |] eqn:E0; [|done..].
  destruct (start_harvest example_general h0) as [[[e|] h1]| |] eqn:E1; [done| |done..].
  exact (harvester_offsets example_Encode example_general example_stream _ _ _ _ _ _ _ _ _ _ _ _ 1 9 eq_refl (fun _ _ _ => eq_refl)
    eq_refl eq_refl (conj (Z.le_refl 0) (Z.le_refl 0)) ltac:(discriminate) E0 E1).
Defined.

Example harvester_example :
  match example_start with
  | Ret (_, h1) => match read_n example_Encode example_general example_stream 1 9 h1 with
      | Ret (_, h) => (fun e => (ed_Event e, ed_Offset e)) <$> h_output h =
          [(bytes_of "one", 5%Z); (bytes_of "two", 9%Z); (bytes_of "a long l+", 17%Z); (bytes_of "ine", 21%Z)]
      | _ => False end
  | _ => False
  end.
Proof. vm_compute. reflexivity. Qed.
