(* ===== verification/HarvesterMultiline.v ===== *)
(** * The harvester with the multiline codec

    The blocks of the documented grouping, with their places in the file: what the
    harvester sends, and what it would send after a restart. *)
From S2P Require Import Prelude Core Codecs ConfigParser Config LineReader Harvester HarvesterProps.

(** ** The grouping, one line at a time and resumed *)
Section Grouping.
Context {A : Type} (w : multiline_what) (m : A → bool).

(** What one more line completes, and what is pending then. *)
Definition group_step (b : bool) (pend : list A) (l : A) : list (list A) * list A :=
  if b then ([], pend ++ [l])
  else match w with
       | WhatPrevious => (if decide (pend = []) then [] else [pend], [l])
       | WhatNext => ([pend ++ [l]], [])
       end.

Lemma grouping_snoc cur ls l :
  grouping w m cur (ls ++ [l]) =
    (let g := grouping w m cur ls in
     let st := group_step (m l) (snd g) l in (fst g ++ fst st, snd st)).
Proof.
  unfold group_step. revert cur. induction ls as [|k ls IH]; intros cur; cbn [app grouping].
  - destruct (m l); [done|]. destruct w; simpl; [|done]. by case_decide.
  - destruct (m k); [apply IH|]. destruct w; rewrite IH; simpl; [|done]. by case_decide.
Qed.

Lemma grouping_concat cur ls : concat (fst (grouping w m cur ls)) ++ snd (grouping w m cur ls) = cur ++ ls.
Proof.
  revert cur. induction ls as [|l ls IH]; intros cur; simpl; [by rewrite app_nil_r|].
  destruct (m l); [by rewrite IH, <-app_assoc|]. destruct w; simpl.
  - case_decide as Hc; simpl; [by subst; rewrite IH|]. by rewrite <-app_assoc, IH.
  - by rewrite <-!app_assoc, IH.
Qed.

(** From the end of any block on, the rest groups into the remaining blocks. *)
Lemma grouping_resume cur ls bs1 bs2 :
  fst (grouping w m cur ls) = bs1 ++ bs2 → (bs1 = [] → cur = []) →
  grouping w m [] (drop (length (concat bs1)) (cur ++ ls)) = (bs2, snd (grouping w m cur ls)).
Proof.
  revert cur bs1. induction ls as [|l ls IH]; intros cur bs1 Hg Hcur.
  { simpl in Hg. symmetry in Hg. apply app_eq_nil in Hg as [-> ->]. rewrite Hcur by done. done. }
  destruct bs1 as [|b bs1].
  { rewrite (Hcur eq_refl) in *. cbn [concat length app]. rewrite drop_0. cbn [app] in Hg. rewrite <-Hg. apply surjective_pairing. }
  clear Hcur. cbn [grouping] in *. destruct (m l) eqn:Em.
  { rewrite (cons_middle l cur ls), app_assoc. by apply IH. }
  destruct w eqn:Ew; cbn [fst snd] in *.
  - rewrite <-Ew in *. case_decide as Hc.
    + subst cur. by rewrite <-(IH [l] (b :: bs1)).
    + injection Hg as <- Hg. cbn [concat]. rewrite length_app, <-drop_drop, drop_app_length.
      destruct bs1 as [|b' bs1]; [|by apply (IH [l])]. cbn [app] in Hg. rewrite <-Hg.
      cbn [concat length grouping]. rewrite drop_0. cbn [grouping]. rewrite Em, Ew. rewrite decide_True by done. done.
  - rewrite <-Ew in *. injection Hg as <- Hg. cbn [concat]. rewrite length_app, <-drop_drop, (cons_middle l cur ls), app_assoc, drop_app_length.
    by apply (IH []).
Qed.
End Grouping.

Section Multiline.
Context {regex : Type} (Compile : text → option regex) (MatchString : regex → text → bool).
#[local] Instance multiline_codec : Codec (@CodecMultiline regex) := Codec_multiline MatchString.
Context (f : @CodecMultilineFactory regex).

Abbreviation seg := (text * bool)%type.

(** The event of a block that starts at [p]. *)
Definition block_emit (p : Z) (block : list seg) : emit := mkEmit p (p + total_len block) (join (strip_eol <$> block)).

Fixpoint block_emits (p : Z) (blocks : list (list seg)) : list emit :=
  match blocks with
  | [] => []
  | b :: bs => block_emit p b :: block_emits (p + total_len b) bs
  end.

Lemma block_emits_app p bs1 bs2 :
  block_emits p (bs1 ++ bs2) = block_emits p bs1 ++ block_emits (p + total_len (concat bs1)) bs2.
Proof.
  revert p. induction bs1 as [|b bs1 IH]; intros p; simpl; [by rewrite Z.add_0_r|]. rewrite IH. do 3 f_equal.
  unfold total_len. rewrite fmap_app, concat_app, zlen_app. lia.
Qed.

(** The codec holds the lines of [pend], which start at [p] in the file. *)
Record block_state (pend : list seg) (p : Z) (c : @CodecMultiline regex) : Prop := mkBlockState {
  bs_ok : multiline_ok c;
  bs_config : ml_config c = f;
  bs_buffer : buffer c = strip_eol <$> pend;
  bs_last : ml_lastOffset c = p;
  bs_start : pend ≠ [] → ml_startOffset c = p;
  bs_end : ml_endOffset c = (p + total_len pend)%Z;
}.

Lemma total_len_snoc (l : list seg) x : total_len (l ++ [x]) = (total_len l + zlen (fst x))%Z.
Proof. unfold total_len. rewrite fmap_app, concat_app, zlen_app. simpl. by rewrite app_nil_r. Qed.

Lemma total_len_app (l1 l2 : list seg) : total_len (l1 ++ l2) = (total_len l1 + total_len l2)%Z.
Proof. unfold total_len. by rewrite fmap_app, concat_app, zlen_app. Qed.

Lemma total_len_nil : total_len [] = 0%Z.
Proof. done. Qed.

Definition complete (pend : list seg) : list (list seg) := if decide (pend = []) then [] else [pend].

(** A flush emits the pending lines as one block. *)
Lemma flush_block pend p c : block_state pend p c →
  ∃ c1, flush c = (c1, block_emits p (complete pend)) ∧ block_state [] (p + total_len pend) c1.
Proof.
  intros [Hok Hcfg Hbuf Hlast Hstart Hend]. pose proof (pr_ok _ _ _ _ (flush_progress c Hok)) as Hok1.
  revert Hok1. unfold flush, complete, block_emits, block_emit. rewrite Hbuf. destruct pend as [|y pend].
  - rewrite !decide_True by done. intros _. exists c. split; [done|]. rewrite total_len_nil, Z.add_0_r in *.
    constructor; rewrite ?total_len_nil, ?Z.add_0_r; done.
  - rewrite !decide_False by done. intros Hok1. eexists. rewrite Hstart, Hend by done. split; [done|].
    rewrite Hstart, Hend in Hok1 by done. constructor; simpl; try done. rewrite total_len_nil. lia.
Qed.

(** A line that fits joins the pending ones. *)
Lemma append_block pend p c (x : seg) (s := (p + total_len pend)%Z) (e := (s + zlen (fst x))%Z) (t := strip_eol x) :
  block_state pend p c → (zlen (join (strip_eol <$> pend ++ [x])) < MaxMultilineBytes f)%Z →
  ∃ c2, (let c1 := if decide (buffer c = []) then set_start s c else c in
      cut_loop (S (length t)) c1 e t (zlen t) (bufferLen c1 + zlen t + bufferLines c1)) = Ret (c2, t, zlen t, []) ∧
    block_state (pend ++ [x]) p (append_line e t (zlen t) c2).
Proof.
  intros [Hok Hcfg Hbuf Hlast Hstart Hend] Hfit.
  assert (Hlt : (Codecs.checkLen c t < MaxMultilineBytes (ml_config c))%Z).
  { pose proof Hok as [_ Hlines Hlen _ _]. rewrite Hcfg. unfold Codecs.checkLen. rewrite Hlines, Hlen, Hbuf.
    rewrite fmap_app in Hfit. change (strip_eol <$> [x]) with [t] in Hfit. rewrite join_snoc_len in Hfit. lia. }
  pose proof (cut_loop_fits c s e t Hlt) as Hc. cbv zeta in Hc |- *. destruct Hc as (-> & Hb2 & Hcfg2).
  eexists. split; [done|]. set (c2 := if decide (buffer c = []) then set_start s c else c) in *.
  assert (Hc2 : multiline_ok c2 ∧ ml_lastOffset c2 = ml_lastOffset c ∧ bufferLen c2 = bufferLen c ∧ bufferLines c2 = bufferLines c ∧
    ml_startOffset c2 = if decide (pend = []) then s else ml_startOffset c).
  { subst c2. rewrite Hbuf. destruct pend; [rewrite !decide_True by done|rewrite !decide_False by done; done].
    split; [apply set_start_progress, Hok|done]. }
  destruct Hc2 as (Hok2 & Hl2 & Hn2 & Hk2 & Hs2). constructor; simpl.
  - apply append_progress; [done|]. unfold Codecs.checkLen in Hlt. by rewrite Hn2, Hk2, Hcfg2.
  - by rewrite Hcfg2.
  - by rewrite Hb2, Hbuf, fmap_app.
  - by rewrite Hl2.
  - intros _. rewrite Hs2. destruct (decide (pend = [])) as [->|]; [unfold s; rewrite total_len_nil; lia|by apply Hstart].
  - unfold e, s. rewrite total_len_snoc. lia.
Qed.

Lemma deadline_block pend p c d : block_state pend p c → block_state pend p (set_deadline d c).
Proof. intros [Hok ? ? ? ? ?]. constructor; try done. apply set_deadline_progress, Hok. Qed.

(** One line fed to a codec that has room for it. *)
Lemma event_block pend p c now (x : seg) matched
    (cur := if bool_decide (what f = WhatPrevious) && negb matched then [] else pend)
    (st := group_step (what f) matched pend x) :
  block_state pend p c → Match MatchString (mf_patterns f) (strip_eol x) = Ret matched →
  (zlen (join (strip_eol <$> cur ++ [x])) < MaxMultilineBytes f)%Z →
  ∃ c', multiline_Event MatchString c now (p + total_len pend) (p + total_len pend + zlen (fst x)) (strip_eol x) =
      Ret (c', block_emits p (fst st)) ∧
    block_state (snd st) (p + total_len (concat (fst st))) c'.
Proof.
  intros Hb Hm Hfit. unfold multiline_Event. rewrite (bs_config _ _ _ Hb), Hm. cbv [mbind outcome_mbind outcome_bind].
  subst cur st. unfold group_step. destruct (what f) eqn:Ew; [destruct matched|];
    change (bool_decide (WhatPrevious = WhatPrevious)) with true in *;
    change (bool_decide (WhatNext = WhatPrevious)) with false in *; cbn [andb negb] in *; cbv zeta.
  - destruct (append_block _ _ _ _ Hb Hfit) as (c2 & Hrun & Hb2). cbv zeta in Hrun. rewrite Hrun. cbn [fst snd concat app block_emits].
    rewrite total_len_nil, Z.add_0_r. destruct (decide (PreviousTimeout f = 0)%Z); (eexists; split; [done|]); [done|by apply deadline_block].
  - destruct (flush_block _ _ _ Hb) as (c1 & -> & Hb1). cbn [fst snd]. fold (complete pend).
    assert (Hs : (p + total_len (concat (complete pend)) = p + total_len pend)%Z).
    { unfold complete. destruct (decide _) as [->|]; [done|]. cbn [concat]. by rewrite app_nil_r. }
    destruct (append_block _ _ _ _ Hb1 Hfit) as (c2 & Hrun & Hb2). cbv zeta in Hrun. rewrite total_len_nil, Z.add_0_r in Hrun. rewrite Hrun.
    cbn [app] in Hb2. rewrite total_len_nil, Z.add_0_r in Hb2. rewrite Hs, app_nil_r.
    destruct (decide (PreviousTimeout f = 0)%Z); (eexists; split; [done|]); [done|by apply deadline_block].
  - destruct (append_block _ _ _ _ Hb Hfit) as (c2 & Hrun & Hb2). cbv zeta in Hrun. rewrite Hrun.
    destruct matched; cbn [fst snd concat app block_emits]; [eexists; split; [done|]; by rewrite total_len_nil, Z.add_0_r|].
    destruct (flush_block _ _ _ Hb2) as (c3 & -> & Hb3). unfold complete. rewrite decide_False by (by destruct pend).
    rewrite app_nil_r. by exists c3.
Qed.

(** ** The codec at the end of the harvester's chain *)
Context (M : text → bool) (HM : ∀ t, Match MatchString (mf_patterns f) t = Ret (M t)).
Context (Hmax : (0 < MaxMultilineBytes f)%Z) (Hpats : patterns (mf_patterns f) ≠ None).

Abbreviation blocks := (grouping (what f) (fun x : seg => M (strip_eol x)) []).

Definition fits (g : list (list seg) * list seg) : Prop :=
  Forall (fun b => zlen (join (strip_eol <$> b)) < MaxMultilineBytes f)%Z (fst g ++ [snd g]).

Lemma fits_prefix (a b : list seg) : a `prefix_of` b →
  (zlen (join (strip_eol <$> b)) < MaxMultilineBytes f)%Z → (zlen (join (strip_eol <$> a)) < MaxMultilineBytes f)%Z.
Proof.
  intros [r ->] Hb. destruct (decide (a = [])) as [->|Ha]; [done|].
  assert (zlen (join (strip_eol <$> a)) ≤ zlen (join (strip_eol <$> a ++ r)))%Z; [|lia].
  apply join_prefix_le; [by destruct a|]. rewrite fmap_app. by apply prefix_app_r.
Qed.

(** When all blocks fit, they fit before the last line, and that line fits. *)
Lemma fits_snoc out x (g := blocks out) (matched := M (strip_eol x)) : fits (blocks (out ++ [x])) →
  fits g ∧ (zlen (join (strip_eol <$> (if bool_decide (what f = WhatPrevious) && negb matched then [] else snd g) ++ [x])) < MaxMultilineBytes f)%Z.
Proof.
  rewrite grouping_snoc. fold g. cbv zeta. unfold fits, group_step. fold matched. cbn [fst snd]. rewrite !Forall_app, !Forall_singleton.
  destruct matched; [|destruct (what f)]; cbn [negb fst snd].
  - rewrite andb_false_r. intros [[? _] Hx]. split; [split; [done|]|done]. eapply fits_prefix; [|exact Hx]. by eexists.
  - change (bool_decide (WhatPrevious = WhatPrevious)) with true. cbn [andb app]. intros [[? Hc] Hx]. split; [split; [done|]|done].
    case_decide as Hn; [by rewrite Hn|]. by inversion Hc.
  - change (bool_decide (WhatNext = WhatPrevious)) with false. cbn [andb]. rewrite Forall_singleton. intros [[? Hx] _].
    split; [split; [done|]|done]. eapply fits_prefix; [|exact Hx]. by eexists.
Qed.

Lemma blocks_len out : total_len out = (total_len (concat (fst (blocks out))) + total_len (snd (blocks out)))%Z.
Proof.
  pose proof (grouping_concat (what f) (fun x : seg => M (strip_eol x)) [] out) as Hc. cbn [app] in Hc.
  rewrite <-Hc at 1. unfold total_len. by rewrite fmap_app, concat_app, zlen_app.
Qed.

Lemma new_block o now : block_state [] o (NewCodecMultiline f o now).
Proof.
  constructor; try done; [by apply (NewCodecMultiline_ok f o now)|]. rewrite total_len_nil. simpl. lia.
Qed.

Lemma meter_ok (c : @CodecMultiline regex) : multiline_ok c → multiline_ok (Meter c).
Proof. by intros []; constructor. Qed.

Lemma meter_block pend p c : block_state pend p c → block_state pend p (Meter c).
Proof. intros []; constructor; try done. by apply meter_ok. Qed.

Section Sent.
Context {CF : Type} (Encode : attrs → option text) (general : General) (streamConfig : StreamConfig CF).
Context (s : Stream) (path tz : text) (o now0 : Z).

(** The events of the blocks from [p] on, each with its mark of a cut line. *)
Definition block_events (flags : list bool) (p : Z) (bs : list (list seg)) : list EventDescriptor :=
  concat (zip_with (sent_event Encode general streamConfig s path tz) flags (block_emits p bs)).

Abbreviation trace := (codec_trace Encode general streamConfig [NewCodecMultiline f o now0] s path tz o).

Lemma multiline_keeps out cs b evs : trace out cs b evs → ∃ c, cs = [c] ∧ multiline_ok c.
Proof.
  induction 1 as [|out cs b evs _ (c & -> & Hc)|out cs b evs seg now cs' es _ (c & -> & Hc) Hrun].
  - eexists. split; [done|]. apply new_block.
  - eexists. split; [done|]. by apply meter_ok.
  - destruct (Event_run MatchString c now (o + total_len out) (o + total_len out + zlen (fst seg)) (strip_eol seg) Hc)
      as (c' & out' & He & Hp & _).
    revert Hrun. cbn [chain feed em_start em_end em_text]. change (@Event _ multiline_codec) with (@multiline_Event regex MatchString).
    rewrite He. intros [= <- <-]. exists c'. split; [done|]. apply Hp.
Qed.

Lemma multiline_feedable : feedable Encode general streamConfig [NewCodecMultiline f o now0] s path tz o.
Proof.
  intros out cs b evs now e Ht. destruct (multiline_keeps _ _ _ _ Ht) as (c & -> & Hc).
  destruct (Event_run MatchString c now (em_start e) (em_end e) (em_text e) Hc) as (c' & out' & He & _).
  cbn [chain feed]. change (@Event _ multiline_codec) with (@multiline_Event regex MatchString). rewrite He. by eexists.
Qed.

Lemma block_emits_length p bs : length (block_emits p bs) = length bs.
Proof. revert p. induction bs as [|b bs IH]; intros p; simpl; [done|]. by rewrite IH. Qed.

Lemma block_events_app fl1 fl2 p bs1 bs2 : length fl1 = length bs1 →
  block_events (fl1 ++ fl2) p (bs1 ++ bs2) = block_events fl1 p bs1 ++ block_events fl2 (p + total_len (concat bs1)) bs2.
Proof. intros Hl. unfold block_events. rewrite block_emits_app, zip_with_app by (by rewrite block_emits_length). by rewrite concat_app. Qed.

(** A line completes no block, or one. *)
Lemma step_events (b : bool) w m pend (x : seg) p (bs := fst (group_step w m pend x)) :
  ∃ flags, length flags = length bs ∧ send_all Encode general streamConfig s path tz b (block_emits p bs) = block_events flags p bs ∧
    Forall (eq b) flags.
Proof.
  assert (Hb : bs = [] ∨ ∃ blk, bs = [blk]).
  { subst bs. unfold group_step. destruct m, w; simpl; eauto. case_decide; eauto. }
  destruct Hb as [-> |[blk ->]]; [by exists []|]. exists [b]. split; [done|]. split; [done|]. by constructor.
Qed.

Definition uncut (out : list seg) : Prop := Forall (fun x => snd x = false) out.

(** While the blocks fit, the codec has emitted the complete ones and holds the last. *)
Lemma multiline_trace out cs b evs (g := blocks out) :
  trace out cs b evs → fits g →
  ∃ c flags, cs = [c] ∧ block_state (snd g) (o + total_len (concat (fst g))) c ∧
    length flags = length (fst g) ∧ evs = block_events flags o (fst g) ∧
    (uncut out → b = false ∧ Forall (eq false) flags).
Proof.
  intros Ht. subst g. revert Ht.
  induction 1 as [|out cs b evs _ IH|out cs b evs x now cs' es _ IH Hrun]; intros Hfit.
  - exists (NewCodecMultiline f o now0), []. split; [done|]. cbn [grouping fst snd concat]. rewrite total_len_nil, Z.add_0_r.
    split; [apply new_block|]. done.
  - destruct (IH Hfit) as (c & flags & -> & Hb & Hrest). exists (Meter c), flags. split; [done|]. split; [by apply meter_block|done].
  - destruct (fits_snoc out x Hfit) as [Hfit' Hx]. destruct (IH Hfit') as (c & flags & -> & Hb & Hlen & -> & Hcut).
    set (g := blocks out) in *. set (p := (o + total_len (concat (fst g)))%Z) in *.
    destruct (event_block _ _ _ now x _ Hb (HM _) Hx) as (c' & He & Hb').
    replace (p + total_len (snd g))%Z with (o + total_len out)%Z in He by (unfold p, g; rewrite (blocks_len out); lia).
    revert Hrun. cbn [chain feed em_start em_end em_text]. change (@Event _ multiline_codec) with (@multiline_Event regex MatchString).
    rewrite He. intros [= <- <-]. rewrite !app_nil_r.
    destruct (step_events (b || snd x) (what f) (M (strip_eol x)) (snd g) x p) as (fl & Hl & Hes & Hfl).
    exists c', (flags ++ fl). rewrite grouping_snoc. fold g. cbv zeta. cbn [fst snd]. split; [done|].
    split; [by rewrite concat_app, total_len_app, Z.add_assoc|]. rewrite !length_app, Hlen, Hl. split; [done|].
    rewrite block_events_app by done. split; [by rewrite Hes|].
    unfold uncut. rewrite Forall_app, Forall_singleton. intros [Hu Hx0]. destruct (Hcut Hu) as [-> Hflags]. rewrite Hx0 in *.
    split; [by destruct (block_emits _ _)|by apply Forall_app].
Qed.

End Sent.
End Multiline.

(** C5. A file that only grows, harvested from an offset [o] with the multiline codec
    (no timeout) while the output is ready: however the reads are chunked and
    whatever checks, ends of file and errors come between, each read ends, and the
    lines read are the reference cut of the bytes from [o] on.  While no block
    reaches the limit, the events sent are the complete blocks of the documented
    grouping of those lines, in order, each with its own start and end offset in
    the file; none is marked as cut when no line was; and the offset kept for
    resuming is where the block that is still pending starts, so that its lines
    are read again after a restart.  Cutting and grouping the file anew from the end
    of any of these events gives the remaining blocks and the same pending one. *)
Theorem harvester_multiline {FI CF regex : Type} {Hhost : Host FI} {Henv : Env} {content : nat → text}
    {Hgrow : GrowingFile FI content} (Compile : text → option regex) (MatchString : regex → text → bool)
    (Encode : attrs → option text) (general : General) (streamConfig : StreamConfig CF)
    sp ps match_ w mx fac s path info o now tz h0 h1 name unused (f : CF) new_codec fuel n
    (mlb := MaxLineBytes general) (group := grouping (what fac) (fun x => selected Compile MatchString ps match_ (strip_eol x)) []) :
  NewMultilineCodecFactory Compile sp ps match_ w 0 mx = Ret (inr fac) → (0 < sp)%Z → (0 ≤ mx)%Z →
  sc_Codecs streamConfig = [mkCodecStub name unused (Some f)] → (∀ f o now, new_codec f o now = NewCodecMultiline fac o now) →
  (0 < LineBufferBytes general)%Z → (0 < mlb)%Z → (0 ≤ o ≤ zlen (content O))%Z → fuel ≠ 0 →
  NewHarvester (FI := FI) streamConfig new_codec (Some (s, path, info)) o now tz = Ret h0 →
  start_harvest general h0 = Ret (None, h1) →
  ∃ e h out rest (t := content (fd_tick (h_fd h))) (g := group out),
    read_n (H := Codec_multiline MatchString) Encode general streamConfig fuel n h1 = Ret (e, h) ∧
    cut_into mlb (drop (Z.to_nat o) t) out rest ∧ h_offset h = (o + total_len out)%Z ∧
    (fits fac g → ∃ flags, length flags = length (fst g) ∧ (uncut out → Forall (eq false) flags) ∧
       h_output h = block_events Encode general streamConfig (Some s) path tz flags o (fst g) ∧
       codecTeardown (H := Codec_multiline MatchString) h = Ret ((o + total_len (concat (fst g)))%Z, h)) ∧
    ∀ bs1 bs2, fst g = bs1 ++ bs2 → ∃ out2 (p := (o + total_len (concat bs1))%Z),
      block_emits o (fst g) = block_emits o bs1 ++ block_emits p bs2 ∧
      cut_into mlb (drop (Z.to_nat p) t) out2 rest ∧ group out2 = (bs2, snd g).
Proof.
  intros Hfac Hsp Hmx0 Hcs Hnew Hsz Hmx Ho Hf H0 H1.
  destruct (NewMultilineCodecFactory_ok Compile MatchString _ _ _ _ _ _ _ Hfac Hsp Hmx0) as ([Hmax _] & Hpats & HM).
  set (cs0 := [NewCodecMultiline fac o now]).
  assert (Hbuild : build_codecs streamConfig new_codec o now = Ret cs0) by (unfold build_codecs; rewrite Hcs; simpl; by rewrite Hnew).
  destruct (harvest_run (H := Codec_multiline MatchString) Encode general streamConfig cs0 s path info o now tz h0 h1 new_codec fuel n)
    as (e & h & out & nx & Hr & Hh); try done.
  { by apply multiline_feedable. }
  destruct (harvested_cut _ _ _ _ _ _ _ _ _ _ _ Hmx Hh) as (rest & Hcut & Hres).
  pose proof Hh as [_ _ _ _ _ Hoff (b & Htr & _) _ _].
  exists e, h, out, rest. split; [done|]. split; [done|]. split; [done|]. split.
  - intros Hfit. edestruct (multiline_trace MatchString fac) as (c & flags & Hc & Hb & Hlen & Hev & Hun); [exact HM|done|done|exact Htr|exact Hfit|].
    exists flags. split; [done|]. split; [apply Hun|]. split; [done|]. unfold codecTeardown. monad. rewrite Hc. simpl.
    by rewrite (bs_last _ _ _ _ Hb).
  - intros bs1 bs2 Hbs. exists (drop (length (concat bs1)) out). split; [by rewrite Hbs, block_emits_app|].
    pose proof (grouping_concat (what fac) (fun x => selected Compile MatchString ps match_ (strip_eol x)) [] out) as Hcat.
    fold group in Hcat. rewrite Hbs, concat_app, <-app_assoc in Hcat. cbn [app] in Hcat. split.
    + apply (Hres (concat bs1)). assert (Ht : take (length (concat bs1)) out = concat bs1) by (rewrite <-Hcat; apply take_app_length).
      rewrite <-Ht at 1. symmetry. apply take_drop.
    + by apply (grouping_resume (what fac) _ [] out bs1 bs2).
Qed.

(** ** A concrete file

    Lines that start with a space continue the line before; the second line is
    longer than the limit of eight bytes. *)
Definition multiline_log : text :=
  bytes_of "one" ++ [newline] ++ bytes_of "too long line" ++ [newline] ++ bytes_of "x" ++ [newline].

#[local] Instance multiline_host : Host Z := growing_host multiline_log.
#[local] Instance multiline_growing : GrowingFile Z (growing_content multiline_log) := growing_grows multiline_log.
#[local] Instance text_codec : Codec (@CodecMultiline text) := Codec_multiline starts_with.

Definition space_factory : @CodecMultilineFactory text :=
  match NewMultilineCodecFactory Some 10485760 [bytes_of " "] [] (bytes_of "previous") 0 0 with
  | Ret (inr f) => f
  | _ => mkMultilineFactory noPatterns WhatPrevious 0 0
  end.

Definition multiline_start : outcome (option harvest_error * Harvester (@CodecMultiline text) Z) :=
  match NewHarvester (FI := Z) example_stream (fun _ o now => NewCodecMultiline space_factory o now) (Some (7%positive, bytes_of "/log", 0%Z)) 0 0 [] with
  | Ret h0 => start_harvest example_general h0
  | _ => Panic
  end.

Lemma harvester_multiline_witness :
  match multiline_start with
  | Ret (None, h1) =>
      ∃ e h out rest (t := growing_content multiline_log (fd_tick (h_fd h)))
        (group := grouping (what space_factory) (fun x => selected Some starts_with [bytes_of " "] [] (strip_eol x)) []) (g := group out),
        read_n example_Encode example_general example_stream 1 9 h1 = Ret (e, h) ∧
        cut_into 8 (drop (Z.to_nat 0) t) out rest ∧ h_offset h = (0 + total_len out)%Z ∧
        (fits space_factory g → ∃ flags, length flags = length (fst g) ∧ (uncut out → Forall (eq false) flags) ∧
           h_output h = block_events example_Encode example_general example_stream (Some 7%positive) (bytes_of "/log") [] flags 0 (fst g) ∧
           codecTeardown h = Ret ((0 + total_len (concat (fst g)))%Z, h)) ∧
        ∀ bs1 bs2, fst g = bs1 ++ bs2 → ∃ out2 (p := (0 + total_len (concat bs1))%Z),
          block_emits 0 (fst g) = block_emits 0 bs1 ++ block_emits p bs2 ∧
          cut_into 8 (drop (Z.to_nat p) t) out2 rest ∧ group out2 = (bs2, snd g)
  | _ => False
  end.
Proof.
  assert (Hs : match multiline_start with Ret (None, _) => True | _ => False end) by (vm_compute; exact I).
  unfold multiline_start in *.
  destruct (NewHarvester _ _ _ _ _ _) as [h0| |] eqn:E0; [|done..].
  destruct (start_harvest example_general h0) as [[[e|] h1]| |] eqn:E1; [done| |done..].
  exact (harvester_multiline Some starts_with example_Encode example_general example_stream 10485760 [bytes_of " "] [] (bytes_of "previous") 0
    space_factory _ _ _ _ _ _ _ _ _ _ _ _ 1 9 eq_refl eq_refl ltac:(discriminate) eq_refl (fun _ _ _ => eq_refl)
    eq_refl eq_refl (conj (Z.le_refl 0) (Z.le_refl 0)) ltac:(discriminate) E0 E1).
Defined.

(** The mark of a cut line falls on the wrong event: the first event is a line that
    was not cut, and the second holds both parts of the line that was. *)
Example split_mark_misplaced :
  match multiline_start with
  | Ret (_, h1) => match read_n example_Encode example_general example_stream 1 20 h1 with
      | Ret (_, h) => (fun e => (ed_Event e, ed_Offset e)) <$> h_output h =
          [(bytes_of "one+", 4%Z); (bytes_of "too long" ++ [newline] ++ bytes_of " line", 18%Z)]
      | _ => False end
  | _ => False
  end.
Proof. vm_compute. reflexivity. Qed.
