(* ===== verification/Spooler.v ===== *)
(** * lc-lib/spooler/spooler.go: grouping events into spools

    The loop receives events, flush requests, timeouts, configurations and the
    shutdown; sending a spool is itself a select, whose choices are a script in
    the state.  The timer only decides when a timeout may be received, so a
    timeout is an input that may come at any time.  How much [append] enlarges a
    full slice is up to the runtime: a parameter. *)
From S2P Require Import Prelude Core Codecs ConfigParser Config.

Definition event_header_size : Z := 4.

(** The select of [sendSpool]. *)
Inductive send_choice :=
| ChooseShutdown
| ChooseConfig (g : General)
| ChooseOutput.

Inductive spool_input :=
| SpoolEvent (e : EventDescriptor)
| SpoolFlush                          (* a nil event *)
| SpoolTimer
| SpoolShutdown
| SpoolConfig (g : General).

(** [spool_cap] is the capacity of the slice [s.spool]. *)
Record Spooler := mkSpooler {
  s_config : General;
  spool : list EventDescriptor;
  spool_cap : Z;
  spool_size : Z;
  s_output : list (list EventDescriptor);
  timer_start : Z;
  s_tick : nat;
  choices : list send_choice;
}.

Section Spooler.
Context `{Env} (grow : Z → Z).

Abbreviation S_ := (M Spooler).

Definition event_size (e : EventDescriptor) : Z := (zlen (ed_Event e) + event_header_size)%Z.

(** [make([]T, 0, n)] panics for a negative [n]. *)
Definition fresh_spool (s : Spooler) : outcome Spooler :=
  if decide (SpoolSize (s_config s) < 0)%Z then Panic
  else Ret (mkSpooler (s_config s) [] (SpoolSize (s_config s)) 0 (s_output s) (timer_start s) (s_tick s) (choices s)).

Definition NewSpooler (config : General) (script : list send_choice) : outcome Spooler :=
  fresh_spool (mkSpooler config [] 0 0 [] 0 0 script).

Definition new_spool : S_ unit := fun s => match fresh_spool s with Ret s' => Ret (tt, s') | Panic => Panic | NoFuel => NoFuel end.

Definition s_Now : S_ Z := fun s =>
  Ret (clock (s_tick s), mkSpooler (s_config s) (spool s) (spool_cap s) (spool_size s) (s_output s) (timer_start s) (S (s_tick s)) (choices s)).

Definition set_timer (t : Z) (s : Spooler) : Spooler :=
  mkSpooler (s_config s) (spool s) (spool_cap s) (spool_size s) (s_output s) t (s_tick s) (choices s).

Definition resetTimer : S_ unit := now ← s_Now; modify (set_timer now).

(** The next choice; an exhausted script always sends. *)
Definition next_choice : S_ send_choice := fun s =>
  match choices s with
  | [] => Ret (ChooseOutput, s)
  | c :: cs => Ret (c, mkSpooler (s_config s) (spool s) (spool_cap s) (spool_size s) (s_output s) (timer_start s) (s_tick s) cs)
  end.

Definition set_s_config (g : General) (s : Spooler) : Spooler :=
  mkSpooler g (spool s) (spool_cap s) (spool_size s) (s_output s) (timer_start s) (s_tick s) (choices s).

Definition push_spool (s : Spooler) : Spooler :=
  mkSpooler (s_config s) (spool s) (spool_cap s) (spool_size s) (s_output s ++ [spool s]) (timer_start s) (s_tick s) (choices s).

(** [sendSpool] and [reloadConfig] call each other: [reload] is what a
    configuration received while sending does. *)
Definition sendSpool_with (reload : General → S_ bool) : S_ bool :=
  c ← next_choice;
  go ← (match c with
        | ChooseShutdown => mret false
        | ChooseConfig g => reload g
        | ChooseOutput => modify push_spool;; mret true
        end);
  if (go : bool) then new_spool;; mret true else mret false.

Definition reload_with (send : S_ bool) (g : General) : S_ bool :=
  modify (set_s_config g);;
  now ← s_Now;
  s ← get;
  let passed := time_Sub now (timer_start s) in
  if decide (SpoolTimeout g ≤ passed ∨ SpoolSize g ≤ zlen (spool s))%Z then
    sent ← send;
    if (sent : bool) then now ← s_Now; modify (set_timer now);; mret true
    else mret false
  else mret true.

(** At most one nested call for each choice of the script. *)
Fixpoint sendSpool_loop (fuel : nat) : S_ bool :=
  match fuel with
  | O => out_of_fuel
  | S fuel' => sendSpool_with (reload_with (sendSpool_loop fuel'))
  end.

Definition sendSpool : S_ bool := fun s => sendSpool_loop (S (length (choices s))) s.

Definition reloadConfig (g : General) : S_ bool := reload_with sendSpool g.

(** [append(s.spool, event)]. *)
Definition append_event (e : EventDescriptor) (s : Spooler) : Spooler :=
  let n := (zlen (spool s) + 1)%Z in
  mkSpooler (s_config s) (spool s ++ [e]) (if decide (n ≤ spool_cap s)%Z then spool_cap s else grow (spool_cap s))
    (spool_size s + event_size e) (s_output s) (timer_start s) (s_tick s) (choices s).

(** One turn of the loop: [true] to go on. *)
Definition spooler_step (i : spool_input) : S_ bool :=
  match i with
  | SpoolFlush =>
      s ← get;
      if decide (0 < zlen (spool s))%Z then sendSpool else mret true
  | SpoolEvent e =>
      s ← get;
      if decide (0 < zlen (spool s) ∧ SpoolMaxBytes (s_config s) ≤ spool_size s + event_size e)%Z then
        sent ← sendSpool;
        if (sent : bool) then resetTimer;; modify (append_event e);; mret true else mret false
      else
        modify (append_event e);;
        s ← get;
        if decide (spool_cap s ≤ zlen (spool s))%Z then
          sent ← sendSpool;
          if (sent : bool) then resetTimer;; mret true else mret false
        else mret true
  | SpoolTimer =>
      s ← get;
      sent ← (if decide (0 < zlen (spool s))%Z then sendSpool else mret true);
      if (sent : bool) then resetTimer;; mret true else mret false
  | SpoolShutdown => mret false
  | SpoolConfig g => reloadConfig g
  end.

Definition spooler_start : S_ unit := now ← s_Now; modify (set_timer now).

(** The loop: the inputs not received when it ended. *)
Fixpoint spooler_run (is_ : list spool_input) : S_ (list spool_input) :=
  match is_ with
  | [] => mret []
  | i :: is_' => go ← spooler_step i; if (go : bool) then spooler_run is_' else mret (i :: is_')
  end.

(** ** Lemmas *)
Definition received_events (is_ : list spool_input) : list EventDescriptor :=
  omap (fun i => match i with SpoolEvent e => Some e | _ => None end) is_.

(** No configuration and no shutdown is chosen while sending; sizes are positive. *)
Definition sends (s : Spooler) : Prop := choices s = [].
Definition sized (g : General) : Prop := (0 ≤ SpoolSize g)%Z.
Definition input_sized (i : spool_input) : Prop := match i with SpoolConfig g => sized g | _ => True end.

(** What was sent, then the spool. *)
Definition spooled (s : Spooler) : list EventDescriptor := concat (s_output s) ++ spool s.

Definition steady (s : Spooler) : Prop := sends s ∧ sized (s_config s).

Lemma sendSpool_run s : steady s →
  ∃ s', sendSpool s = Ret (true, s') ∧ steady s' ∧ spool s' = [] ∧ spool_size s' = 0%Z ∧ s_config s' = s_config s ∧
    spool_cap s' = SpoolSize (s_config s) ∧ s_output s' = s_output s ++ [spool s].
Proof.
  intros [Hc Hs]. unfold sends, sized in *. unfold sendSpool. rewrite Hc. cbn [length sendSpool_loop]. unfold sendSpool_with.
  rewrite (bind_run next_choice _ s ChooseOutput s) by (unfold next_choice; by rewrite Hc).
  rewrite (bind_run (modify push_spool;; mret true) _ s true (push_spool s)) by done.
  unfold new_spool, fresh_spool. monad. simpl. rewrite decide_False by lia. eexists. split; [reflexivity|].
  unfold steady, sends, sized. simpl. done.
Qed.

Lemma spooled_send s s' : spool s' = [] → s_output s' = s_output s ++ [spool s] → spooled s' = spooled s.
Proof. intros H1 H2. unfold spooled. rewrite H1, H2, concat_app. simpl. by rewrite !app_nil_r. Qed.

Lemma resetTimer_run s : ∃ s', resetTimer s = Ret (tt, s') ∧ spool s' = spool s ∧ spool_size s' = spool_size s ∧
  s_config s' = s_config s ∧ spool_cap s' = spool_cap s ∧ s_output s' = s_output s ∧ choices s' = choices s.
Proof. eexists. split; [reflexivity|]. done. Qed.

(** The size and byte limits, for a configuration [g] that does not change. *)
Definition total_size (es : list EventDescriptor) : Z := foldr (fun e n => (event_size e + n)%Z) 0%Z es.

Definition spool_fits (g : General) (es : list EventDescriptor) : Prop :=
  (zlen es ≤ SpoolSize g)%Z ∧ (length es ≤ 1 ∨ (total_size es < SpoolMaxBytes g)%Z).

Record bounded (g : General) (s : Spooler) : Prop := mkBounded {
  bd_config : s_config s = g;
  bd_size : (2 ≤ SpoolSize g)%Z;
  bd_cap : spool_cap s = SpoolSize g;
  bd_room : (zlen (spool s) < SpoolSize g)%Z;
  bd_total : spool_size s = total_size (spool s);
  bd_fits : spool_fits g (spool s);
  bd_output : Forall (fun es => es ≠ [] ∧ spool_fits g es) (s_output s);
}.

Lemma total_size_app es1 es2 : total_size (es1 ++ es2) = (total_size es1 + total_size es2)%Z.
Proof. induction es1 as [|e es1 IH]; simpl; [done|lia]. Qed.

(** The spool, full or not, is sent. *)
Lemma bounded_send g s s' :
  s_config s = g → (2 ≤ SpoolSize g)%Z → spool s ≠ [] → spool_fits g (spool s) → Forall (fun es => es ≠ [] ∧ spool_fits g es) (s_output s) →
  spool s' = [] → spool_size s' = 0%Z → s_config s' = s_config s → spool_cap s' = SpoolSize (s_config s) → s_output s' = s_output s ++ [spool s] →
  bounded g s'.
Proof.
  intros <- Hsz Hne Hf Ho H1 H2 H3 H4 H5. constructor; rewrite ?H1, ?H3, ?H5, ?zlen_nil; try done; try lia.
  - split; [rewrite zlen_nil; lia|left; simpl; lia].
  - apply Forall_app. split; [done|]. by constructor.
Qed.

Lemma bounded_ext g s s' : spool s' = spool s → spool_size s' = spool_size s → s_config s' = s_config s → spool_cap s' = spool_cap s →
  s_output s' = s_output s → bounded g s → bounded g s'.
Proof. intros H1 H2 H3 H4 H5 []. by constructor; rewrite ?H1, ?H2, ?H3, ?H4, ?H5. Qed.

(** A step, when the output is always chosen. *)
Definition step_events (i : spool_input) : list EventDescriptor := match i with SpoolEvent e => [e] | _ => [] end.

Definition is_config (i : spool_input) : bool := match i with SpoolConfig _ => true | _ => false end.

Definition step_spec (i : spool_input) (s : Spooler) (o : outcome (bool * Spooler)) : Prop :=
  ∃ s', o = Ret (true, s') ∧ steady s' ∧ spooled s' = spooled s ++ step_events i ∧
    ∀ g, is_config i = false → bounded g s → bounded g s'.

(** Sending what is there, or not, and resetting the timer. *)
Lemma flush_run s (reset : bool) : steady s → ∃ s', (sent ← (if decide (0 < zlen (spool s))%Z then sendSpool else mret true);
    if (sent : bool) then (if reset then resetTimer else mret tt);; mret true else mret false) s = Ret (true, s') ∧ steady s' ∧
    spooled s' = spooled s ∧ ∀ g, bounded g s → bounded g s'.
Proof.
  intros Hs. destruct (decide (0 < zlen (spool s))%Z) as [Hlt|Hlt].
  - destruct (sendSpool_run s Hs) as (s1 & Hr & Hs1 & H1 & H2 & H3 & H4 & H5). rewrite (bind_run _ _ _ _ _ Hr).
    assert (Hb : ∀ g, bounded g s → bounded g s1).
    { intros g []. eapply (bounded_send g s); try done. intros E. by rewrite E in Hlt. }
    destruct reset; [|exists s1; split; [done|]; split; [done|]; split; [by apply spooled_send|done]].
    destruct (resetTimer_run s1) as (s2 & Hr2 & E1 & E2 & E3 & E4 & E5 & E6). rewrite (bind_run _ _ _ _ _ Hr2).
    exists s2. split; [done|]. destruct Hs1. split; [split; unfold sends; congruence|].
    split; [|intros g Hg; apply (bounded_ext g s1); auto]. rewrite <-(spooled_send s s1) by done. unfold spooled. congruence.
  - rewrite (bind_run (mret true) _ s true s) by done.
    destruct reset; [|exists s; split; [done|]; split; [done|]; by split].
    destruct (resetTimer_run s) as (s2 & Hr2 & E1 & E2 & E3 & E4 & E5 & E6). rewrite (bind_run _ _ _ _ _ Hr2).
    exists s2. split; [done|]. destruct Hs. split; [split; unfold sends; congruence|].
    split; [|intros g Hg; apply (bounded_ext g s); auto]. unfold spooled. congruence.
Qed.

(** What [append] does under the limits. *)
Lemma append_fits g e s : bounded g s → zlen (spool s) = 0%Z ∨ (spool_size s + event_size e < SpoolMaxBytes g)%Z →
  spool_fits g (spool s ++ [e]) ∧ spool_cap (append_event e s) = SpoolSize g ∧
  spool_size (append_event e s) = total_size (spool s ++ [e]).
Proof.
  intros [? ? Hcap Hroom Htot ? ?] Hc. rewrite total_size_app. simpl. rewrite decide_True by lia.
  split; [|split; [done|lia]]. split; [rewrite zlen_app; change (zlen [e]) with 1%Z; lia|]. rewrite length_app, total_size_app. simpl.
  destruct Hc as [Hz|Hz]; [left; unfold zlen in Hz; lia|right; lia].
Qed.

Lemma bounded_append g e s : bounded g s → zlen (spool s) = 0%Z ∨ (spool_size s + event_size e < SpoolMaxBytes g)%Z →
  (zlen (spool s) + 1 < SpoolSize g)%Z → bounded g (append_event e s).
Proof.
  intros Hb Hc Hroom. destruct (append_fits g e s Hb Hc) as (H1 & H2 & H3). destruct Hb. constructor; try done.
  simpl. rewrite zlen_app. done.
Qed.

Lemma steady_append e s : steady s → steady (append_event e s).
Proof. done. Qed.

Lemma spooled_append e s : spooled (append_event e s) = spooled s ++ [e].
Proof. apply app_assoc. Qed.

Lemma event_run e s : steady s → step_spec (SpoolEvent e) s (spooler_step (SpoolEvent e) s).
Proof.
  intros Hs. cbn [spooler_step]. rewrite (bind_run get _ s s s) by done. unfold step_spec. cbn [step_events].
  destruct (decide (0 < zlen (spool s) ∧ SpoolMaxBytes (s_config s) ≤ spool_size s + event_size e)%Z) as [[Hlt Hge]|Hno].
  - destruct (sendSpool_run s Hs) as (s1 & Hr & Hs1 & H1 & H2 & H3 & H4 & H5). rewrite (bind_run _ _ _ _ _ Hr).
    destruct (resetTimer_run s1) as (s2 & Hr2 & E1 & E2 & E3 & E4 & E5 & E6). rewrite (bind_run _ _ _ _ _ Hr2).
    rewrite (bind_run (modify _) _ s2 tt (append_event e s2)) by done.
    exists (append_event e s2). split; [done|]. split; [destruct Hs1; split; unfold sends; simpl; congruence|].
    rewrite spooled_append. split; [f_equal; rewrite <-(spooled_send s s1) by done; unfold spooled; congruence|].
    intros g _ Hg. assert (Hg2 : bounded g s2).
    { apply (bounded_ext g s1); try done. destruct Hg. eapply (bounded_send g s); try done. intros E. by rewrite E in Hlt. }
    apply bounded_append; [done|left; by rewrite E1, H1|rewrite E1, H1, zlen_nil; destruct Hg; lia].
  - rewrite (bind_run (modify _) _ s tt (append_event e s)) by done. set (s1 := append_event e s).
    rewrite (bind_run get _ s1 s1 s1) by done.
    assert (Hc : ∀ g, bounded g s → zlen (spool s) = 0%Z ∨ (spool_size s + event_size e < SpoolMaxBytes g)%Z).
    { intros g []. subst g. pose proof (zlen_nonneg (spool s)). lia. }
    destruct (decide (spool_cap s1 ≤ zlen (spool s1))%Z) as [Hfull|Hfull].
    + destruct (sendSpool_run s1 (steady_append e s Hs)) as (s2 & Hr & Hs2 & H1 & H2 & H3 & H4 & H5). rewrite (bind_run _ _ _ _ _ Hr).
      destruct (resetTimer_run s2) as (s3 & Hr2 & E1 & E2 & E3 & E4 & E5 & E6). rewrite (bind_run _ _ _ _ _ Hr2).
      exists s3. split; [done|]. destruct Hs2. split; [split; unfold sends; congruence|].
      rewrite <-(spooled_append e s). fold s1. rewrite <-(spooled_send s1 s2) by done. split; [unfold spooled; congruence|].
      intros g _ Hg. apply (bounded_ext g s2); try done. destruct (append_fits g e s Hg (Hc g Hg)) as (? & ? & ?).
      destruct Hg. eapply (bounded_send g s1); try done. subst s1. simpl. by destruct (spool s).
    + exists s1. split; [done|]. split; [done|]. split; [apply spooled_append|]. intros g _ Hg.
      apply bounded_append; [done|by apply Hc|]. destruct (append_fits g e s Hg (Hc g Hg)) as (_ & E & _).
      subst s1. rewrite E in Hfull. simpl in Hfull. rewrite zlen_app in Hfull. change (zlen [e]) with 1%Z in Hfull. lia.
Qed.

Lemma config_run g s : steady s → sized g → step_spec (SpoolConfig g) s (spooler_step (SpoolConfig g) s).
Proof.
  intros [Hc Hs] Hg. cbn [spooler_step]. unfold reloadConfig, reload_with, step_spec. cbn [step_events is_config]. rewrite app_nil_r.
  rewrite (bind_run (modify _) _ s tt (set_s_config g s)) by done. set (s1 := set_s_config g s).
  set (s2 := mkSpooler g (spool s) (spool_cap s) (spool_size s) (s_output s) (timer_start s) (S (s_tick s)) (choices s)).
  rewrite (bind_run s_Now _ s1 (clock (s_tick s)) s2) by done. rewrite (bind_run get _ s2 s2 s2) by done.
  destruct (decide _).
  - destruct (sendSpool_run s2 (conj Hc Hg)) as (s3 & Hr & Hs3 & H1 & H2 & H3 & H4 & H5). rewrite (bind_run _ _ _ _ _ Hr).
    eexists. split; [reflexivity|]. split; [done|]. split; [|done]. change (spooled s) with (spooled s2).
    rewrite <-(spooled_send s2 s3) by done. done.
  - exists s2. done.
Qed.

Lemma spooler_step_run i s : steady s → input_sized i → i ≠ SpoolShutdown → step_spec i s (spooler_step i s).
Proof.
  intros Hs Hi Hne. destruct i as [e| | | |g]; [by apply event_run| | |done|by apply config_run];
    cbn [spooler_step]; unfold step_spec; cbn [step_events is_config]; rewrite ?app_nil_r.
  - destruct (flush_run s false Hs) as (s' & Hr & H1 & H2 & H3). exists s'. split; [|auto].
    rewrite (bind_run get _ s s s) by done. case_decide; [|done].
    destruct (sendSpool_run s Hs) as (s1 & Hr1 & _). rewrite Hr1. rewrite (bind_run _ _ _ _ _ Hr1) in Hr. by injection Hr as <-.
  - destruct (flush_run s true Hs) as (s' & Hr & H1 & H2 & H3). exists s'. rewrite (bind_run get _ s s s) by done. auto.
Qed.

(** The whole loop, from a state between two inputs. *)
Lemma spooler_run_steady g is_ s : Forall input_sized is_ → steady s →
  ∃ rest s', spooler_run is_ s = Ret (rest, s') ∧ (rest = [] ∨ ∃ is2, rest = SpoolShutdown :: is2) ∧
    (∃ pre, is_ = pre ++ rest ∧ spooled s' = spooled s ++ received_events pre) ∧
    (bounded g s → existsb is_config is_ = false → bounded g s').
Proof.
  intros Hin. revert s. induction Hin as [|i is_ Hi Hin IH]; intros s Hs; cbn [spooler_run].
  { exists [], s. split; [done|]. split; [by left|]. split; [exists []; split; [done|symmetry; apply app_nil_r]|done]. }
  assert (i = SpoolShutdown ∨ i ≠ SpoolShutdown) as [->|Hne] by (destruct i; first [by left|by right]).
  { exists (SpoolShutdown :: is_), s. split; [done|]. split; [right; eauto|]. split; [exists []; split; [done|symmetry; apply app_nil_r]|done]. }
  destruct (spooler_step_run i s Hs Hi Hne) as (s1 & Hr & Hs1 & Hsp & Hb). rewrite (bind_run _ _ _ _ _ Hr).
  destruct (IH s1 Hs1) as (rest & s' & Hr' & Hrest & (pre & -> & Hsp') & Hb'). exists rest, s'. split; [done|]. split; [done|].
  split; [exists (i :: pre); split; [done|]; rewrite Hsp', Hsp, <-app_assoc; by destruct i|].
  simpl. intros Hbs Hcfg. apply orb_false_iff in Hcfg as [? ?]. auto.
Qed.

(** From a new spooler on. *)
Lemma spooler_start_run g is_ s0 :
  NewSpooler g [] = Ret s0 → Forall input_sized is_ →
  ∃ rest s, (spooler_start;; spooler_run is_) s0 = Ret (rest, s) ∧ (rest = [] ∨ ∃ is2, rest = SpoolShutdown :: is2) ∧
    (∃ pre, is_ = pre ++ rest ∧ spooled s = received_events pre) ∧
    ((2 ≤ SpoolSize g)%Z → existsb is_config is_ = false → bounded g s).
Proof.
  intros H0 Hin. unfold NewSpooler, fresh_spool in H0. simpl in H0. case_decide as Hneg; [done|]. injection H0 as <-.
  match goal with |- context [mkSpooler g [] ?c 0 [] 0 0 []] => set (s0 := mkSpooler g [] c 0 [] 0 0 []) end.
  set (s1 := set_timer (clock 0) (mkSpooler g [] (SpoolSize g) 0 [] 0 1 [])).
  rewrite (bind_run spooler_start _ s0 tt s1) by done.
  destruct (spooler_run_steady g is_ s1) as (rest & s' & Hr & Hrest & Hpre & Hb); [done|split; [done|]; unfold sized; simpl; lia|].
  exists rest, s'. split; [done|]. split; [done|]. split; [done|]. intros Hsz Hcfg.
  apply Hb; [|done]. constructor; simpl; rewrite ?zlen_nil; try done; try lia.
  split; [rewrite zlen_nil; lia|left; simpl; lia].
Qed.

(** C8. The spooler, while no configuration and no shutdown arrives during a send:
    every step ends; what was sent to the publisher, then the spool, is what was
    received, in order; it ends only at a shutdown, of which the rest is not
    received.  While the configuration is not replaced, every spool sent holds at
    least one event, at most the spool size, and, unless it is a single event,
    fewer bytes than the spool maximum, counted with the transmission's headers. *)
Theorem spooler_conserves g is_ s0 :
  NewSpooler g [] = Ret s0 → Forall input_sized is_ →
  ∃ rest s, (spooler_start;; spooler_run is_) s0 = Ret (rest, s) ∧
    (rest = [] ∨ ∃ is2, rest = SpoolShutdown :: is2) ∧
    (∃ pre, is_ = pre ++ rest ∧ spooled s = received_events pre) ∧
    ((2 ≤ SpoolSize g)%Z → existsb is_config is_ = false → Forall (fun es => es ≠ [] ∧ spool_fits g es) (s_output s)).
Proof.
  intros H0 Hin. destruct (spooler_start_run g is_ s0 H0 Hin) as (rest & s & Hr & Hrest & Hpre & Hb).
  exists rest, s. do 3 (split; [done|]). intros Hsz Hcfg. apply (bd_output g). by apply Hb.
Qed.
End Spooler.

(** ** Concrete histories *)
Definition small_general (size max_ timeout : Z) : General := mkGeneral [] [] 1 [] 4 true false 1 [] 0 size max_ timeout.
Definition event_of (n : Z) (t : string) : EventDescriptor := mkEventDescriptor None n (bytes_of t).

#[export] Program Instance ticking : Env := {
  clock n := (Z.of_nat n * Second)%Z; rand_Intn n k := 0%Z; map_order _ ks := ks; math_Exp f := f }.
Next Obligation. intros n. unfold Second. lia. Qed.
Next Obligation. intros n k Hk. simpl. lia. Qed.
Next Obligation. done. Qed.

Definition example_inputs : list spool_input :=
  [SpoolEvent (event_of 1 "a"); SpoolEvent (event_of 2 "b"); SpoolEvent (event_of 3 "c"); SpoolTimer;
   SpoolEvent (event_of 4 "dd"); SpoolEvent (event_of 5 "a very long event"); SpoolEvent (event_of 6 "e"); SpoolShutdown; SpoolTimer].

Definition start_spooler (g : General) (script : list send_choice) (is_ : list spool_input) : outcome (list spool_input * Spooler) :=
  match NewSpooler g script with
  | Ret s0 => (spooler_start;; spooler_run (Z.mul 2) is_) s0
  | _ => Panic
  end.

Lemma spooler_conserves_witness (g := small_general 2 20 60000000000) :
  match NewSpooler g [] with
  | Ret s0 =>
      ∃ rest s, (spooler_start;; spooler_run (Z.mul 2) example_inputs) s0 = Ret (rest, s) ∧
        (rest = [] ∨ ∃ is2, rest = SpoolShutdown :: is2) ∧
        (∃ pre, example_inputs = pre ++ rest ∧ spooled s = received_events pre) ∧
        ((2 ≤ SpoolSize g)%Z → existsb is_config example_inputs = false → Forall (fun es => es ≠ [] ∧ spool_fits g es) (s_output s))
  | _ => False
  end.
Proof.
  destruct (NewSpooler g []) as [s0| |] eqn:E; [|vm_compute in E; discriminate E..].
  exact (spooler_conserves (Z.mul 2) g example_inputs s0 E ltac:(repeat constructor)).
Defined.

Example example_spools :
  match start_spooler (small_general 2 20 60000000000) [] example_inputs with
  | Ret (rest, s) => (map (map ed_Offset) (s_output s), map ed_Offset (spool s), rest) =
      ([[1; 2]; [3]; [4]; [5]]%Z, [6]%Z, [SpoolShutdown; SpoolTimer])
  | _ => False
  end.
Proof. vm_compute. reflexivity. Qed.

(** A configuration that arrives while a spool is being handed over: the spool is
    emptied without having been sent, so its events are lost. *)
Example config_loses_spool (g := small_general 2 20 60000000000) :
  match start_spooler g [ChooseConfig (small_general 3 20 60000000000)] [SpoolEvent (event_of 1 "a"); SpoolEvent (event_of 2 "b")] with
  | Ret (_, s) => s_output s = [] ∧ spool s = []
  | _ => False
  end.
Proof. vm_compute. split; reflexivity. Qed.

(** A configuration whose timeout has passed sends the spool even when it is empty. *)
Example config_sends_empty (g := small_general 2 20 60000000000) :
  match start_spooler g [] [SpoolConfig (small_general 2 20 0)] with
  | Ret (_, s) => s_output s = [[]]
  | _ => False
  end.
Proof. vm_compute. reflexivity. Qed.
