(* ===== verification/Prospector.v ===== *)
(** * lc-lib/prospector: finding the files to harvest

    The prospector looks for files under the configured paths, recognises renamed
    and rotated ones by their identity, starts a harvester for each and tells the
    registrar about files found, renamed and gone.  The file system, the finish
    channels of the harvesters and the order in which Go ranges over a map are
    numbered answers of the environment; the registrar's spooler is known by its
    interface.  A [prospectorInfo] is a heap object named by an address, which is
    also the stream the registrar and the harvester know it by. *)
From S2P Require Import Prelude Core Codecs Registrar Config.

(** [errors.go]: an error that only says why a path is skipped, or any other. *)
Inductive prospector_error :=
| ProspectorSkipError (message : text)
| OtherError (message : text).

#[export] Instance prospector_error_eq_dec : EqDecision prospector_error.
Proof. solve_decision. Defined.

Definition Error (e : prospector_error) : text :=
  match e with ProspectorSkipError m | OtherError m => m end.

Definition newProspectorSkipError (message : text) : prospector_error := ProspectorSkipError message.

(** [harvester.FinishStatus]. *)
Record FinishStatus (FI : Type) := mkFinishStatus {
  LastEventOffset : Z;
  LastReadOffset : Z;
  fs_Error : option text;
  LastStat : option FI;
}.
Arguments mkFinishStatus {FI}.
Arguments LastEventOffset {FI}.
Arguments LastReadOffset {FI}.
Arguments fs_Error {FI}.
Arguments LastStat {FI}.

(** A harvester as the prospector sees it: what it was started with, whether it
    was asked to stop, and (ghost) whether its finish status was received. *)
Record launch (FI : Type) := mkLaunch {
  l_stream : positive;
  l_path : text;
  l_fileinfo : option FI;
  l_offset : Z;
  l_stopped : bool;
  l_done : bool;
}.
Arguments mkLaunch {FI}.
Arguments l_stream {FI}.
Arguments l_path {FI}.
Arguments l_fileinfo {FI}.
Arguments l_offset {FI}.
Arguments l_stopped {FI}.
Arguments l_done {FI}.

(** What the prospector asks its environment.  A harvester reports the information
    of the file it was started on: [prepareHarvester] checks that it opened that
    very file, and later only asks the open descriptor. *)
Class Watch (FI : Type) := {
  fi_Ino : FI → Z;
  fi_Dev : FI → Z;
  fi_Size : FI → Z;
  fi_ModTime : FI → Z;
  fi_IsDir : FI → bool;
  path_Glob : nat → text → option (list text);
  os_Stat : nat → text → text + FI;
  poll_finish : nat → positive → launch FI → option (FinishStatus FI);
  wait_finish : nat → positive → launch FI → FinishStatus FI;
  poll_finish_same : ∀ n h l st fi fi0, poll_finish n h l = Some st → LastStat st = Some fi → l_fileinfo l = Some fi0 →
    fi_Dev fi = fi_Dev fi0 ∧ fi_Ino fi = fi_Ino fi0;
  range_infos : nat → list positive → list positive;
  range_infos_perm : ∀ n ks, range_infos n ks ≡ₚ ks;
}.

Inductive info_status := statusOk | statusResume | statusFailed | statusInvalid.
Inductive info_orphaned := orphanedNo | orphanedMaybe | orphanedYes.
#[export] Instance info_status_eq_dec : EqDecision info_status.
Proof. solve_decision. Defined.
#[export] Instance info_orphaned_eq_dec : EqDecision info_orphaned.
Proof. solve_decision. Defined.

Record prospectorInfo (FI : Type) := mkInfo {
  pi_file : text;
  identity : option (FileIdentity (FileInfo := FI));
  lastSeen : Z;
  status : info_status;
  running : bool;
  orphaned : info_orphaned;
  finishOffset : Z;
  pi_harvester : option positive;
  pi_err : option prospector_error;
}.
Arguments mkInfo {FI}.
Arguments pi_file {FI}.
Arguments identity {FI}.
Arguments lastSeen {FI}.
Arguments status {FI}.
Arguments running {FI}.
Arguments orphaned {FI}.
Arguments finishOffset {FI}.
Arguments pi_harvester {FI}.
Arguments pi_err {FI}.

Record Prospector (CF FI R : Type) := mkProspector {
  p_files : list (File CF);
  ProspectInterval_ : Z;
  prospectorindex : gmap text positive;
  prospectors : gset positive;
  fromBeginning : bool;
  iteration : Z;
  lastscan : Z;
  p_spool : R;
  infos : gmap positive (prospectorInfo FI);
  harvesters : gmap positive (launch FI);
  p_tick : nat;
}.
Arguments mkProspector {CF FI R}.
Arguments p_files {CF FI R}.
Arguments ProspectInterval_ {CF FI R}.
Arguments prospectorindex {CF FI R}.
Arguments prospectors {CF FI R}.
Arguments fromBeginning {CF FI R}.
Arguments iteration {CF FI R}.
Arguments lastscan {CF FI R}.
Arguments p_spool {CF FI R}.
Arguments infos {CF FI R}.
Arguments harvesters {CF FI R}.
Arguments p_tick {CF FI R}.

Section Prospector.
Context {CF FI R : Type} `{Watch FI} `{Env} `{EventSpooler R (RegEvent (FileInfo := FI))}.

Abbreviation PS := (Prospector CF FI R).
Abbreviation PR := (M PS).
Abbreviation info := (prospectorInfo FI).

Definition identity_same : FileIdentity (FileInfo := FI) → FI → bool := SameAs fi_Ino fi_Dev.

(** ** State *)
Definition set_index (m : gmap text positive) (p : PS) : PS :=
  mkProspector (p_files p) (ProspectInterval_ p) m (prospectors p) (fromBeginning p) (iteration p) (lastscan p) (p_spool p) (infos p) (harvesters p) (p_tick p).
Definition set_prospectors (s : gset positive) (p : PS) : PS :=
  mkProspector (p_files p) (ProspectInterval_ p) (prospectorindex p) s (fromBeginning p) (iteration p) (lastscan p) (p_spool p) (infos p) (harvesters p) (p_tick p).
Definition set_scan (b : bool) (it : Z) (last : Z) (p : PS) : PS :=
  mkProspector (p_files p) (ProspectInterval_ p) (prospectorindex p) (prospectors p) b it last (p_spool p) (infos p) (harvesters p) (p_tick p).
Definition set_p_spool (r : R) (p : PS) : PS :=
  mkProspector (p_files p) (ProspectInterval_ p) (prospectorindex p) (prospectors p) (fromBeginning p) (iteration p) (lastscan p) r (infos p) (harvesters p) (p_tick p).
Definition set_infos (m : gmap positive info) (p : PS) : PS :=
  mkProspector (p_files p) (ProspectInterval_ p) (prospectorindex p) (prospectors p) (fromBeginning p) (iteration p) (lastscan p) (p_spool p) m (harvesters p) (p_tick p).
Definition set_harvesters (m : gmap positive (launch FI)) (p : PS) : PS :=
  mkProspector (p_files p) (ProspectInterval_ p) (prospectorindex p) (prospectors p) (fromBeginning p) (iteration p) (lastscan p) (p_spool p) (infos p) m (p_tick p).
Definition set_p_config (files : list (File CF)) (interval : Z) (p : PS) : PS :=
  mkProspector files interval (prospectorindex p) (prospectors p) (fromBeginning p) (iteration p) (lastscan p) (p_spool p) (infos p) (harvesters p) (p_tick p).
Definition tick (p : PS) : PS :=
  mkProspector (p_files p) (ProspectInterval_ p) (prospectorindex p) (prospectors p) (fromBeginning p) (iteration p) (lastscan p) (p_spool p) (infos p) (harvesters p) (S (p_tick p)).

(** One answer of the environment. *)
Definition p_ask {A} (f : nat → A) : PR A := fun p => Ret (f (p_tick p), tick p).

Definition p_Now : PR Z := p_ask clock.
Definition p_Since (t : Z) : PR Z := now ← p_Now; mret (time_Sub now t).

Definition get_info (i : positive) : PR info := p ← get; deref (infos p !! i).
Definition put_info (i : positive) (x : info) : PR unit := modify (fun p => set_infos (<[i := x]> (infos p)) p).
Definition alloc_info (x : info) : PR positive := fun p =>
  let i := fresh (dom (infos p)) in Ret (i, set_infos (<[i := x]> (infos p)) p).

Definition index_set (f : text) (i : positive) : PR unit := modify (fun p => set_index (<[f := i]> (prospectorindex p)) p).
Definition index_delete (f : text) : PR unit := modify (fun p => set_index (delete f (prospectorindex p)) p).
Definition prospectors_add (i : positive) : PR unit := modify (fun p => set_prospectors ({[i]} ∪ prospectors p) p).
Definition prospectors_delete (i : positive) : PR unit := modify (fun p => set_prospectors (prospectors p ∖ {[i]}) p).
Definition registrar_Add (e : RegEvent) : PR unit := modify (fun p => set_p_spool (spool_Add e (p_spool p)) p).

(** The order of one [range p.prospectors]. *)
Definition range_prospectors : PR (list positive) := fun p =>
  Ret (range_infos (p_tick p) (elements (prospectors p)), tick p).

(** ** [info.go] *)
Definition newProspectorInfoFromFileState (file : text) (filestate : FileState) : info :=
  mkInfo file (Some (IdState filestate)) 0 statusResume false orphanedNo (Offset filestate) None None.

Definition newProspectorInfoFromFileInfo (file : text) (fileinfo : FI) : info :=
  mkInfo file (Some (IdInfo fileinfo)) 0 statusOk false orphanedNo 0 None None.

Definition newProspectorInfoInvalid (file : text) (e : prospector_error) : info :=
  mkInfo file None 0 statusInvalid false orphanedNo 0 None (Some e).

(** [Info]: the path and the file information, nil for a stored identity. *)
Definition Info (x : info) : option (text * option FI) :=
  match identity x with Some id => Some (pi_file x, identity_Stat id) | None => None end.

Definition set_pi_file (f : text) (x : info) : info :=
  mkInfo f (identity x) (lastSeen x) (status x) (running x) (orphaned x) (finishOffset x) (pi_harvester x) (pi_err x).
Definition set_orphaned (o : info_orphaned) (x : info) : info :=
  mkInfo (pi_file x) (identity x) (lastSeen x) (status x) (running x) o (finishOffset x) (pi_harvester x) (pi_err x).
Definition set_status (s : info_status) (x : info) : info :=
  mkInfo (pi_file x) (identity x) (lastSeen x) s (running x) (orphaned x) (finishOffset x) (pi_harvester x) (pi_err x).
Definition set_finishOffset (o : Z) (x : info) : info :=
  mkInfo (pi_file x) (identity x) (lastSeen x) (status x) (running x) (orphaned x) o (pi_harvester x) (pi_err x).

Definition stopped_info (st : FinishStatus FI) (x : info) : info :=
  let failed := match fs_Error st with Some _ => true | None => false end in
  mkInfo (pi_file x)
    (match LastStat st, identity x with Some fi, Some id => Some (identity_Update fi id) | _, id => id end)
    (lastSeen x) (if failed then statusFailed else status x) false (orphaned x) (LastEventOffset st) None
    (match fs_Error st with Some m => Some (OtherError m) | None => pi_err x end).

(** Updating a missing identity is a nil dereference. *)
Definition setHarvesterStopped (st : FinishStatus FI) (x : info) : option info :=
  match LastStat st, identity x with Some _, None => None | _, _ => Some (stopped_info st x) end.

(** Receiving the status of a harvester. *)
Definition finished (h : positive) : PR unit :=
  modify (fun p => set_harvesters
    (alter (fun l => mkLaunch (l_stream l) (l_path l) (l_fileinfo l) (l_offset l) (l_stopped l) true) h (harvesters p)) p).

Definition isRunning (i : positive) : PR bool :=
  x ← get_info i;
  if negb (running x) then mret false
  else
    h ← deref (pi_harvester x);
    p ← get;
    l ← deref (harvesters p !! h);
    st ← p_ask (fun n => poll_finish n h l);
    match st with
    | Some st => finished h;; y ← deref (setHarvesterStopped st x); put_info i y;; mret false
    | None => mret true
    end.

(** [Stop] closes the stop channel; closing it again panics. *)
Definition stop_harvester (h : positive) : PR unit :=
  p ← get;
  l ← deref (harvesters p !! h);
  if l_stopped l then panic
  else modify (fun p => set_harvesters (<[h := mkLaunch (l_stream l) (l_path l) (l_fileinfo l) (l_offset l) true (l_done l)]> (harvesters p)) p).

Definition stop (i : positive) : PR unit :=
  x ← get_info i;
  if negb (running x) then mret tt else h ← deref (pi_harvester x); stop_harvester h.

Definition wait (i : positive) : PR unit :=
  x ← get_info i;
  if negb (running x) then mret tt
  else
    h ← deref (pi_harvester x);
    p ← get;
    l ← deref (harvesters p !! h);
    st ← p_ask (fun n => wait_finish n h l);
    finished h;;
    y ← deref (setHarvesterStopped st x);
    put_info i y.

Definition update (i : positive) (fileinfo : option FI) (it : Z) : PR unit :=
  x ← get_info i;
  id ← (match fileinfo with
        | None => mret (identity x)
        | Some fi => id ← deref (identity x); mret (Some (identity_Update fi id))
        end);
  put_info i (mkInfo (pi_file x) id it (status x) (running x) (orphaned x) (finishOffset x) (pi_harvester x) (pi_err x)).

(** ** [prospector.go] *)
Definition startHarvesterWithOffset (i : positive) (offset : Z) : PR unit :=
  x ← get_info i;
  '(path, fileinfo) ← deref (Info x);
  p ← get;
  let h := fresh (dom (harvesters p)) in
  modify (fun p => set_harvesters (<[h := mkLaunch i path fileinfo offset false false]> (harvesters p)) p);;
  put_info i (mkInfo (pi_file x) (identity x) (lastSeen x) statusOk true (orphaned x) (finishOffset x) (Some h) (pi_err x)).

Definition startHarvester (i : positive) : PR unit :=
  x ← get_info i;
  id ← deref (identity x);
  fi ← deref (identity_Stat id);
  p ← get;
  let offset := if fromBeginning p then 0%Z else fi_Size fi in
  registrar_Add (RegDiscover (Some i) (pi_file x) offset fi);;
  startHarvesterWithOffset i offset.

Fixpoint lookup_loop (file : text) (fi : FI) (ks : list positive) : PR (text * option positive) :=
  match ks with
  | [] => mret ([], None)
  | ki :: ks' =>
      x ← get_info ki;
      if decide (status x = statusInvalid) then lookup_loop file fi ks'
      else if decide (orphaned x = orphanedNo ∧ pi_file x = file) then lookup_loop file fi ks'
      else
        id ← deref (identity x);
        if identity_same id fi then
          p ← get;
          if decide (lastSeen x = iteration p) then mret (pi_file x, None)
          else
            prospectors_delete ki;;
            (if decide (orphaned x = orphanedNo) then index_delete (pi_file x)
             else put_info ki (set_orphaned orphanedNo x));;
            mret (pi_file x, Some ki)
        else lookup_loop file fi ks'
  end.

Definition lookupFileIds (file : text) (fi : FI) : PR (text * option positive) :=
  ks ← range_prospectors; lookup_loop file fi ks.

Definition message_Duplicate : text := bytes_of "Duplicate".
Definition message_Directory : text := bytes_of "Directory".

Definition is_duplicate_stub (x : info) : bool :=
  bool_decide (status x = statusInvalid) && bool_decide (pi_err x = Some (ProspectorSkipError message_Duplicate)).

(** A placeholder for a path that cannot be watched. *)
Definition add_stub (file : text) (e : prospector_error) : PR unit :=
  i ← alloc_info (newProspectorInfoInvalid file e);
  p ← get;
  update i None (iteration p);;
  prospectors_add i;;
  index_set file i.

Definition flagDuplicateError (file : text) (i : option positive) : PR unit :=
  logged ← (match i with Some i => x ← get_info i; mret (is_duplicate_stub x) | None => mret false end);
  if (logged : bool) then mret tt else add_stub file (newProspectorSkipError message_Duplicate).

(** What follows when [lookupFileIds] finds the file under another name. *)
Definition link_renamed (file : text) (i : positive) : PR unit :=
  x ← get_info i;
  put_info i (set_pi_file file x);;
  registrar_Add (RegRenamed (Some i) file).

(** The error branch. *)
Definition process_error (file : text) (known : option positive) (e : prospector_error) : PR unit :=
  same ← (match known with
          | None => mret false
          | Some i =>
              x ← get_info i;
              if decide (status x ≠ statusInvalid) then put_info i (set_orphaned orphanedMaybe x);; mret false
              else
                old ← deref (pi_err x);
                if decide (Error old = Error e) then p ← get; update i None (iteration p);; mret true
                else mret false
          end);
  if (same : bool) then mret tt else add_stub file e.

(** A path not in the index ([stub] is the placeholder it had, if any); the
    result is nil after a duplicate. *)
Definition process_unknown (file : text) (config : File CF) (stub : option positive) (fi : FI) : PR (option positive) :=
  '(previous, previousinfo) ← lookupFileIds file fi;
  if decide (previous ≠ []) then
    match previousinfo with
    | None => flagDuplicateError file stub;; mret None
    | Some i => link_renamed file i;; prospectors_add i;; mret (Some i)
    end
  else
    i ← alloc_info (newProspectorInfoFromFileInfo file fi);
    p ← get;
    old ← (if decide (fi_ModTime fi < lastscan p)%Z
           then age ← p_Since (fi_ModTime fi); mret (bool_decide (DeadTime (f_Stream config) < age)%Z)
           else mret false);
    (if (old : bool) then
       x ← get_info i;
       put_info i (set_finishOffset (fi_Size fi) x);;
       registrar_Add (RegDiscover (Some i) file (fi_Size fi) fi)
     else startHarvester i);;
    prospectors_add i;;
    mret (Some i).

(** A path in the index as [i]. *)
Definition process_known (file : text) (i : positive) (fi : FI) : PR (option positive) :=
  x ← get_info i;
  id ← deref (identity x);
  if identity_same id fi then mret (Some i)
  else
    put_info i (set_orphaned orphanedMaybe x);;
    '(previous, previousinfo) ← lookupFileIds file fi;
    if decide (previous ≠ []) then
      match previousinfo with
      | None => flagDuplicateError file None;; mret None
      | Some j => link_renamed file j;; prospectors_add j;; mret (Some j)
      end
    else
      j ← alloc_info (newProspectorInfoFromFileInfo file fi);
      startHarvester j;;
      prospectors_add j;;
      mret (Some j).

(** Whether a stopped harvester is to be started again. *)
Definition should_resume (i : positive) (config : File CF) (fi : FI) : PR bool :=
  run ← isRunning i;
  if (run : bool) then mret false
  else
    x ← get_info i;
    match status x with
    | statusResume =>
        unchanged ← (if decide (finishOffset x = fi_Size fi)
                     then age ← p_Since (fi_ModTime fi); mret (bool_decide (DeadTime (f_Stream config) < age)%Z)
                     else mret false);
        if (unchanged : bool) then put_info i (set_status statusOk x);; mret false else mret true
    | statusFailed => mret true
    | _ =>
        id ← deref (identity x);
        old ← deref (identity_Stat id);
        mret (bool_decide (fi_ModTime old ≠ fi_ModTime fi))
    end.

Definition process_seen (file : text) (config : File CF) (i : positive) (fi : FI) : PR unit :=
  resume ← should_resume i config fi;
  p ← get;
  update i (Some fi) (iteration p);;
  (if (resume : bool) then x ← get_info i; startHarvesterWithOffset i (finishOffset x) else mret tt);;
  index_set file i.

Definition processFile (file : text) (config : File CF) : PR unit :=
  p ← get;
  let known := prospectorindex p !! file in
  st ← p_ask (fun n => os_Stat n file);
  match st with
  | inl m => process_error file known (OtherError m)
  | inr fi =>
      if fi_IsDir fi then process_error file known (newProspectorSkipError message_Directory)
      else
        next ← (match known with
                | None => process_unknown file config None fi
                | Some i =>
                    x ← get_info i;
                    if decide (status x = statusInvalid) then process_unknown file config (Some i) fi
                    else process_known file i fi
                end);
        match next with
        | Some i => process_seen file config i fi
        | None => mret tt
        end
  end.

Definition scan (path : text) (config : File CF) : PR unit :=
  matches ← p_ask (fun n => path_Glob n path);
  match matches with
  | None => mret tt
  | Some files => forM_ files (fun file => processFile file config)
  end.

(** One entry of the clean-up at the end of a scan. *)
Definition mark_deleted (i : positive) : PR unit :=
  x ← get_info i;
  if decide (orphaned x = orphanedMaybe) then
    put_info i (set_orphaned orphanedYes x);;
    registrar_Add (RegDeleted (Some i))
  else mret tt.

Definition cleanup_one (i : positive) : PR unit :=
  x ← get_info i;
  p ← get;
  if decide (orphaned x = orphanedNo) then
    if decide (iteration p ≤ lastSeen x)%Z then mret tt
    else
      index_delete (pi_file x);;
      put_info i (set_orphaned orphanedMaybe x);;
      mark_deleted i
  else
    run ← isRunning i;
    (if (run : bool) then mret tt else prospectors_delete i);;
    mark_deleted i.

Definition scan_all : PR unit :=
  p ← get;
  forM_ (p_files p) (fun config => forM_ (Paths config) (fun path => scan path config)).

(** [runOnce] up to the delay. *)
Definition run_scan : PR unit :=
  newlastscan ← p_Now;
  modify (fun p => set_scan (fromBeginning p) (uint32 (iteration p + 1)) (lastscan p) p);;
  scan_all;;
  modify (fun p => set_scan true (iteration p) (lastscan p) p);;
  ks ← range_prospectors;
  forM_ ks cleanup_one;;
  modify (fun p => set_p_spool (spool_Send (p_spool p)) p);;
  modify (fun p => set_scan (fromBeginning p) (iteration p) newlastscan p).

(** What the delay loop receives; it ends at the latest with the timer. *)
Inductive delay_input := DelayTimer | DelayShutdown | DelayConfig (files : list (File CF)) (interval : Z).

Fixpoint delay_loop (deadline : Z) (is_ : list delay_input) : PR bool :=
  match is_ with
  | [] | DelayTimer :: _ => mret false
  | DelayShutdown :: _ => mret true
  | DelayConfig files interval :: is' =>
      modify (set_p_config files interval);;
      now ← p_Now;
      if decide (deadline < now)%Z then mret false else delay_loop deadline is'
  end.

Definition runOnce (is_ : list delay_input) : PR bool :=
  run_scan;;
  now ← p_Now;
  p ← get;
  delay_loop (now + ProspectInterval_ p) is_.

(** The end of [Run]: all harvesters are told to stop, then awaited. *)
Definition shutdown : PR unit :=
  ks ← range_prospectors;
  forM_ ks stop;;
  ks' ← range_prospectors;
  forM_ ks' wait;;
  modify (fun p => set_p_spool (spool_Close (p_spool p)) p).

(** [Run], one list of delay inputs for each iteration; [false] while it has not
    been asked to shut down. *)
Fixpoint Run (iss : list (list delay_input)) : PR bool :=
  match iss with
  | [] => mret false
  | is_ :: iss' =>
      last ← runOnce is_;
      if (last : bool) then shutdown;; mret true else Run iss'
  end.

(** [NewProspector] and [init]: [LoadPrevious] calls back for each file it has
    state for, and fails or says whether there was any. *)
Definition loadCallback (file : text) (state : FileState) : PR positive :=
  i ← alloc_info (newProspectorInfoFromFileState file state);
  index_set file i;;
  mret i.

Definition init (previous : list (text * FileState)) (result : text + bool) : PR (option text) :=
  forM_ previous (fun '(file, state) => loadCallback file state;; mret tt);;
  match result with
  | inl e => mret (Some e)
  | inr havePrevious =>
      (if (havePrevious : bool) then
         modify (fun p => set_scan true (iteration p) (lastscan p) p);;
         modify (fun p => set_prospectors (prospectors p ∪ list_to_set (snd <$> map_to_list (prospectorindex p))) p)
       else mret tt);;
      mret None
  end.

Definition NewProspector (files : list (File CF)) (interval : Z) (from_beginning : bool) (spool : R) : PS :=
  mkProspector files interval ∅ ∅ from_beginning 0 zeroTime spool ∅ ∅ 0.
End Prospector.
