(* ===== verification/ProspectorInv.v ===== *)
(** * lc-lib/prospector: the invariants

    [safe] is what keeps the operations from panicking, [watched] what keeps the
    collections consistent: the index names the entries not orphaned, no two
    entries have the same identity, and running entries are tracked.  [goes] says
    of a whole scan that it returns, keeps [safe], and keeps [watched] unless some
    call of [processFile] replaces a placeholder; [Run_calls] lists these calls. *)
From S2P Require Import Prelude Core Codecs Registrar Config Prospector.

Section Props.
Context {CF FI R : Type} `{Watch FI} `{Env} `{EventSpooler R (RegEvent (FileInfo := FI))}.
Abbreviation PS := (Prospector CF FI R).
Abbreviation info := (prospectorInfo FI).
Implicit Types (p q : PS) (x y : info) (i j h : positive) (c : Prop).

(** ** The identity of a file *)
Definition file_key (fi : FI) : Z * Z := (fi_Dev fi, fi_Ino fi).
Definition id_key (id : FileIdentity (FileInfo := FI)) : Z * Z :=
  match id with IdState fs => (Device fs, Inode fs) | IdInfo fi => file_key fi end.
Definition info_key (x : info) : option (Z * Z) := id_key <$> identity x.

Lemma identity_same_key id fi : identity_same id fi = bool_decide (id_key id = file_key fi).
Proof.
  unfold identity_same, SameAs, FileState_SameAs, SameFile, file_key.
  destruct id; simpl; unfold file_key; repeat case_bool_decide; simplify_eq/=; congruence.
Qed.

(** ** The invariants *)

(** An entry [i] is a placeholder, or has an identity; a running entry has a
    harvester started on the very file, neither stopped nor finished.  [e] is
    exempt from having file information when its status is [statusOk]. *)
Definition info_ok (e : option positive) (hs : gmap positive (launch FI)) (i : positive) (x : info) : Prop :=
  if decide (status x = statusInvalid) then identity x = None ∧ is_Some (pi_err x) ∧ running x = false
  else ∃ id, identity x = Some id ∧
    (status x = statusOk → e ≠ Some i → is_Some (identity_Stat id)) ∧
    (running x = true → is_Some (identity_Stat id) ∧ ∃ h l fi, pi_harvester x = Some h ∧ hs !! h = Some l ∧ l_stream l = i ∧
       l_done l = false ∧ l_stopped l = false ∧ l_fileinfo l = Some fi ∧ file_key fi = id_key id).

(** What keeps every operation from panicking. *)
Record safe (e : option positive) (p : PS) : Prop := {
  safe_index : ∀ f i, prospectorindex p !! f = Some i → is_Some (infos p !! i);
  safe_prospectors : ∀ i, i ∈ prospectors p → is_Some (infos p !! i);
  safe_info : ∀ i x, infos p !! i = Some x → info_ok e (harvesters p) i x;
  safe_launch : ∀ h l, harvesters p !! h = Some l → l_done l = false →
    ∃ x, infos p !! l_stream l = Some x ∧ running x = true ∧ pi_harvester x = Some h;
}.

(** The entries in use: those in the index are the ones not orphaned, two entries
    never have the same identity, and running entries are tracked.  While the
    path [F] is processed its own entry is exempt, and so is the entry [D] found
    for it. *)
Record watched (F : option text) (D : option positive) (p : PS) : Prop := {
  watched_index : ∀ g i, prospectorindex p !! g = Some i → F ≠ Some g →
    i ∈ prospectors p ∧ ∃ x, infos p !! i = Some x ∧ pi_file x = g ∧ orphaned x = orphanedNo;
  watched_live : ∀ i x, i ∈ prospectors p → infos p !! i = Some x → orphaned x = orphanedNo →
    F ≠ Some (pi_file x) → prospectorindex p !! pi_file x = Some i;
  watched_key : ∀ i j x y k, i ∈ prospectors p → j ∈ prospectors p → infos p !! i = Some x → infos p !! j = Some y →
    info_key x = Some k → info_key y = Some k → i = j;
  watched_running : ∀ i x, infos p !! i = Some x → running x = true → i ∈ prospectors p ∨ D = Some i;
}.

(** No other entry in use has the path [f]. *)
Definition only (f : text) (cur : option positive) (p : PS) : Prop :=
  ∀ i x, i ∈ prospectors p → infos p !! i = Some x → orphaned x = orphanedNo → pi_file x = f → cur = Some i.

(** ** Changing one entry *)

(** A failed entry has an error. *)
Definition failed_ok (x : info) : Prop := match status x, pi_err x with statusFailed, None => False | _, _ => True end.

Definition same_view (x y : info) : Prop :=
  pi_file x = pi_file y ∧ orphaned x = orphaned y ∧ info_key x = info_key y ∧
  (running y = true → running x = true) ∧ (failed_ok x → failed_ok y).

(** Two states with the same collections whose entries look the same. *)
Record looks_same (p p' : PS) : Prop := {
  looks_index : prospectorindex p' = prospectorindex p;
  looks_prospectors : prospectors p' = prospectors p;
  looks_infos : ∀ i y, infos p' !! i = Some y → ∃ x, infos p !! i = Some x ∧ same_view x y;
  looks_dom : ∀ i x, infos p !! i = Some x → ∃ y, infos p' !! i = Some y ∧ same_view x y;
}.

Lemma watched_looks F D p p' : looks_same p p' → watched F D p → watched F D p'.
Proof.
  intros [Hi Hp Hx Hx'] [W1 W2 W3 W4]. split; rewrite ?Hi, ?Hp.
  - intros g i Hg HF. destruct (W1 g i Hg HF) as (Hin & x & Hxi & <- & Ho). split; [done|].
    destruct (Hx' _ _ Hxi) as (y & Hy & Hv & Hv2 & _). exists y. split; [done|]. by rewrite <- Hv, <- Hv2.
  - intros i y Hin Hy Ho HF. destruct (Hx _ _ Hy) as (x & Hxi & Hv & Hv2 & _). rewrite <- Hv in *. apply W2; congruence.
  - intros i j y y' k Hin Hjn Hy Hy' Hk Hk'.
    destruct (Hx _ _ Hy) as (x & Hxi & _ & _ & Hv & _). destruct (Hx _ _ Hy') as (x' & Hxi' & _ & _ & Hv' & _).
    eapply (W3 i j x x' k); congruence.
  - intros i y Hy Hr. destruct (Hx _ _ Hy) as (x & Hxi & _ & _ & _ & Hv & _). eapply W4; eauto.
Qed.

Lemma only_looks f cur p p' : looks_same p p' → only f cur p → only f cur p'.
Proof.
  intros [Hi Hp Hx _] Ho i y. rewrite Hp. intros Hin Hy Hor Hf.
  destruct (Hx _ _ Hy) as (x & Hxi & Hv & Hv2 & _). eapply Ho; eauto; congruence.
Qed.

Lemma same_view_refl x : same_view x x.
Proof. by repeat split. Qed.

#[local] Hint Resolve same_view_refl : core.

Lemma looks_refl p : looks_same p p.
Proof. split; eauto. Qed.

Lemma looks_put p p' i x y :
  infos p !! i = Some x → same_view x y →
  prospectorindex p' = prospectorindex p → prospectors p' = prospectors p → infos p' = <[i := y]> (infos p) →
  looks_same p p'.
Proof.
  intros Hx Hv Hi Hp Hin. split; [done|done|rewrite Hin..]; intros j z.
  - destruct (decide (i = j)) as [<-|Hne]; [rewrite lookup_insert_eq|rewrite lookup_insert_ne by done; eauto].
    intros [= <-]. eauto.
  - destruct (decide (i = j)) as [<-|Hne]; [rewrite lookup_insert_eq|rewrite lookup_insert_ne by done; eauto].
    intros Hz. exists y. split; [done|congruence].
Qed.

Lemma looks_trans p p' p'' : looks_same p p' → looks_same p' p'' → looks_same p p''.
Proof.
  intros [A1 A2 A3 A4] [B1 B2 B3 B4]. split; [congruence|congruence|..].
  - intros i z Hz. destruct (B3 _ _ Hz) as (y & Hy & V1 & V2 & V3 & V4 & V5). destruct (A3 _ _ Hy) as (x & Hx & U1 & U2 & U3 & U4 & U5).
    exists x. split; [done|]. split_and!; try congruence; auto.
  - intros i x Hx. destruct (A4 _ _ Hx) as (y & Hy & U1 & U2 & U3 & U4 & U5). destruct (B4 _ _ Hy) as (z & Hz & V1 & V2 & V3 & V4 & V5).
    exists z. split; [done|]. split_and!; try congruence; auto.
Qed.

(** Replacing an entry by one that is in order, its harvester unchanged. *)
Lemma safe_put e p i x y :
  safe e p → infos p !! i = Some x → info_ok e (harvesters p) i y →
  running y = running x → pi_harvester y = pi_harvester x →
  safe e (set_infos (<[i := y]> (infos p)) p).
Proof.
  intros [S1 S2 S3 S4] Hx Hok Hr Hh. split; simpl.
  - intros f j Hj. destruct (decide (i = j)) as [<-|]; [rewrite lookup_insert_eq; eauto|rewrite lookup_insert_ne by done; eauto].
  - intros j Hj. destruct (decide (i = j)) as [<-|]; [rewrite lookup_insert_eq; eauto|rewrite lookup_insert_ne by done; eauto].
  - intros j z. destruct (decide (i = j)) as [<-|]; [rewrite lookup_insert_eq; by intros [= <-]|rewrite lookup_insert_ne by done; eauto].
  - intros h l Hl Hd. destruct (S4 h l Hl Hd) as (z & Hz & Hrz & Hhz).
    destruct (decide (i = l_stream l)) as [->|]; [rewrite lookup_insert_eq|rewrite lookup_insert_ne by done; eauto].
    exists y. split; [done|]. rewrite Hz in Hx. injection Hx as ->. split; congruence.
Qed.

Lemma info_ok_weaken e hs i x : info_ok None hs i x → info_ok e hs i x.
Proof. unfold info_ok. case_decide; [done|]. intros (id & Hid & Hs & Hr). exists id. split; [done|]. split; [|done]. intros; by apply Hs. Qed.

Lemma safe_weaken e p : safe None p → safe e p.
Proof. intros [S1 S2 S3 S4]. split; eauto using info_ok_weaken. Qed.

(** A fresh entry that is not running. *)
Lemma safe_alloc p x : safe None p → info_ok None (harvesters p) (fresh (dom (infos p))) x → running x = false →
  safe None (set_infos (<[fresh (dom (infos p)) := x]> (infos p)) p).
Proof.
  intros [S1 S2 S3 S4] Hok Hr.
  assert (Hnew : infos p !! fresh (dom (infos p)) = None) by (apply not_elem_of_dom, is_fresh).
  assert (Hne : ∀ j, is_Some (infos p !! j) → fresh (dom (infos p)) ≠ j) by (intros j Hj <-; rewrite Hnew in Hj; by destruct Hj).
  split; simpl.
  - intros f j Hj. rewrite lookup_insert_ne; eauto.
  - intros j Hj. rewrite lookup_insert_ne; eauto.
  - intros j y Hy. apply lookup_insert_Some in Hy as [[<- <-]|[_ Hy]]; eauto.
  - intros h l Hl Hd. destruct (S4 h l Hl Hd) as (z & Hz & ?). exists z. rewrite lookup_insert_ne; eauto.
Qed.

(** What the operations on a single entry leave alone. *)
Record steady (p p' : PS) : Prop := {
  steady_looks : looks_same p p';
  steady_iteration : iteration p' = iteration p;
  steady_spool : p_spool p' = p_spool p;
  steady_beginning : fromBeginning p' = fromBeginning p;
  steady_files : p_files p' = p_files p;
}.

Lemma steady_refl p : steady p p.
Proof. split; auto using looks_refl. Qed.

Lemma steady_trans p p' p'' : steady p p' → steady p' p'' → steady p p''.
Proof. intros [] []. split; [by eapply looks_trans|congruence..]. Qed.

Lemma safe_ext e p p' :
  prospectorindex p' = prospectorindex p → prospectors p' = prospectors p → infos p' = infos p → harvesters p' = harvesters p →
  safe e p → safe e p'.
Proof. intros E1 E2 E3 E4 []. split; rewrite ?E1, ?E2, ?E3, ?E4; auto. Qed.

Lemma watched_ext F D p p' :
  prospectorindex p' = prospectorindex p → prospectors p' = prospectors p → infos p' = infos p →
  watched F D p → watched F D p'.
Proof. intros E1 E2 E3 []. split; rewrite ?E1, ?E2, ?E3; auto. Qed.

Lemma info_ok_harvesters e hs hs' i x :
  (∀ h l, hs !! h = Some l → l_stream l = i → l_done l = false → hs' !! h = Some l) →
  info_ok e hs i x → info_ok e hs' i x.
Proof.
  intros Hs. unfold info_ok. case_decide; [done|]. intros (id & Hid & Hst & Hr). exists id. do 2 (split; [done|]).
  intros Hrun. destruct (Hr Hrun) as (Hstat & h & l & fi & ? & ? & ? & ? & ? & ?). split; [done|].
  exists h, l, fi. naive_solver.
Qed.

(** The harvester of a running entry has finished. *)
Lemma safe_finish e p i x y h (f : launch FI → launch FI) :
  safe e p → infos p !! i = Some x → running x = true → pi_harvester x = Some h →
  (∀ l, l_done (f l) = true) → running y = false →
  info_ok e (alter f h (harvesters p)) i y →
  safe e (set_infos (<[i := y]> (infos p)) (set_harvesters (alter f h (harvesters p)) p)).
Proof.
  intros Hs Hx Hr Hh Hf Hry Hok. assert (Hown : ∃ l, harvesters p !! h = Some l ∧ l_stream l = i).
  { pose proof (safe_info _ _ Hs _ _ Hx) as Hi. unfold info_ok in Hi. case_decide; [naive_solver congruence|].
    destruct Hi as (id & _ & _ & Hi). destruct (Hi Hr) as (_ & h' & l & fi & Hh' & ? & ? & _). exists l. split; congruence. }
  destruct Hown as (l0 & Hl0 & Hl0i). split; simpl.
  - intros g j Hj. pose proof (safe_index _ _ Hs _ _ Hj). destruct (decide (i = j)) as [<-|]; [rewrite lookup_insert_eq; eauto|by rewrite lookup_insert_ne].
  - intros j Hj. pose proof (safe_prospectors _ _ Hs _ Hj). destruct (decide (i = j)) as [<-|]; [rewrite lookup_insert_eq; eauto|by rewrite lookup_insert_ne].
  - intros j z Hz. apply lookup_insert_Some in Hz as [[<- <-]|[Hne Hz]]; [done|].
    eapply info_ok_harvesters; [|by eapply safe_info]. intros h' l Hl Hlj _.
    rewrite lookup_alter_ne; [done|]. intros <-. congruence.
  - intros h' l Hl Hd. destruct (decide (h = h')) as [<-|Hne].
    { rewrite lookup_alter_eq, Hl0 in Hl. injection Hl as <-. by rewrite Hf in Hd. }
    rewrite lookup_alter_ne in Hl by done. destruct (safe_launch _ _ Hs _ _ Hl Hd) as (z & Hz & Hrz & Hhz).
    exists z. rewrite lookup_insert_ne; [done|]. intros ->. congruence.
Qed.

Lemma stopped_info_key e p i x h l st :
  safe e p → infos p !! i = Some x → running x = true → pi_harvester x = Some h → harvesters p !! h = Some l →
  (∀ fi fi0, LastStat st = Some fi → l_fileinfo l = Some fi0 → fi_Dev fi = fi_Dev fi0 ∧ fi_Ino fi = fi_Ino fi0) →
  info_key (stopped_info st x) = info_key x ∧
  ∀ hs, info_ok e hs i (stopped_info st x).
Proof.
  intros Hs Hx Hr Hh Hl Hsame. pose proof (safe_info _ _ Hs _ _ Hx) as Hi. unfold info_ok in Hi.
  case_decide as Hinv; [naive_solver congruence|]. destruct Hi as (id & Hid & _ & Hi).
  destruct (Hi Hr) as ([fi1 Hstat] & h' & l' & fi & Hh' & Hl' & _ & _ & _ & Hfi & Hkey).
  assert (h' = h) as -> by congruence. assert (l' = l) as -> by congruence.
  assert (Hk : ∃ id', identity (stopped_info st x) = Some id' ∧ id_key id' = id_key id ∧ is_Some (identity_Stat id')).
  { unfold stopped_info. simpl. rewrite Hid. destruct (LastStat st) as [fi2|] eqn:E; [|eexists; eauto].
    eexists. split; [done|]. simpl. destruct (Hsame _ _ eq_refl Hfi) as [Hd Hn]. rewrite <- Hkey. unfold file_key.
    split; [congruence|eauto]. }
  destruct Hk as (id' & Hid' & Hk & Hst). split; [unfold info_key; rewrite Hid', Hid; simpl; congruence|].
  intros hs. unfold info_ok. rewrite decide_False.
  - exists id'. split; [done|]. split; [done|]. done.
  - unfold stopped_info. simpl. destruct (fs_Error st); congruence.
Qed.

Lemma setHarvesterStopped_known st x : is_Some (identity x) → setHarvesterStopped st x = Some (stopped_info st x).
Proof. unfold setHarvesterStopped. intros [id ->]. by destruct (LastStat st). Qed.

Lemma stopped_info_failed st x : failed_ok x → failed_ok (stopped_info st x).
Proof. unfold failed_ok, stopped_info. simpl. by destruct (fs_Error st). Qed.
#[local] Hint Resolve stopped_info_failed : core.

(** A running entry's harvester reads the file of the entry. *)
Lemma running_key e p i x h : safe e p → infos p !! i = Some x → running x = true → pi_harvester x = Some h →
  ∃ l fi, harvesters p !! h = Some l ∧ l_fileinfo l = Some fi ∧ info_key x = Some (file_key fi).
Proof.
  intros Hs Hx Hr Hh. pose proof (safe_info _ _ Hs _ _ Hx) as Hi. unfold info_ok in Hi.
  case_decide; [naive_solver congruence|]. destruct Hi as (id & Hid & _ & Hi).
  destruct (Hi Hr) as (_ & h' & l & fi & Hh' & Hl & _ & _ & _ & Hfi & Hk). exists l, fi.
  assert (h' = h) as -> by congruence. repeat (split; [done|]). unfold info_key. rewrite Hid. simpl. congruence.
Qed.

(** [isRunning] never panics, and only the entry's figures may change. *)
Lemma isRunning_run e p i x : safe e p → infos p !! i = Some x →
  ∃ b y p', isRunning i p = Ret (b, p') ∧ safe e p' ∧ steady p p' ∧ infos p' !! i = Some y ∧ running y = b ∧
    (∀ j, j ≠ i → infos p' !! j = infos p !! j) ∧ dom (harvesters p') = dom (harvesters p) ∧ lastSeen y = lastSeen x.
Proof.
  intros Hs Hx. unfold isRunning, get_info. monad. rewrite Hx. monad.
  destruct (running x) eqn:Hr; simpl.
  2: { eexists false, x, p. split; [done|]. split; [done|]. split; [apply steady_refl|]. by repeat split. }
  pose proof (safe_info _ _ Hs _ _ Hx) as Hi. unfold info_ok in Hi. case_decide as Hinv; [naive_solver congruence|].
  destruct Hi as (id & Hid & _ & Hi). destruct (Hi Hr) as (_ & h & l & fi & Hh & Hl & Hli & Hd & Hst & Hfi & Hkey).
  rewrite Hh. monad. rewrite Hl. monad. destruct (poll_finish (p_tick p) h l) as [st|] eqn:E.
  - rewrite (setHarvesterStopped_known st x) by eauto.
    pose proof (stopped_info_key e p i x h l st Hs Hx Hr Hh Hl) as [Hk Hok].
    { intros fi1 fi2 ? ?. by eapply poll_finish_same. }
    eexists false, _, _. split; [reflexivity|]. split.
    { refine (safe_finish e (tick p) i x _ h _ _ Hx Hr Hh _ _ (Hok _)); [by eapply (safe_ext e p)|done|done]. }
    simpl. rewrite lookup_insert_eq. repeat split; try done; simpl.
    + intros j z Hz. apply lookup_insert_Some in Hz as [[<- <-]|[_ Hz]]; [|eauto]. exists x. split; [done|]. split_and!; auto; done.
    + intros j z Hz. destruct (decide (i = j)) as [<-|]; [rewrite lookup_insert_eq|rewrite lookup_insert_ne by done; eauto].
      rewrite Hx in Hz. injection Hz as <-. eexists. split; [done|]. split_and!; auto; done.
    + intros j Hj. by rewrite lookup_insert_ne.
    + by rewrite dom_alter_L.
  - eexists true, x, _. split; [reflexivity|]. split; [by eapply (safe_ext e p)|]. split; [split; try done; split; eauto|]. by repeat split.
Qed.

Lemma info_ok_exempt hs i j x : i ≠ j → info_ok (Some i) hs j x → info_ok None hs j x.
Proof.
  intros Hne. unfold info_ok. case_decide; [done|]. intros (id & Hid & Hs & Hr). exists id. split; [done|]. split; [|done].
  intros Hst _. apply Hs; [done|congruence].
Qed.

(** An entry that is in order again ends its exemption. *)
Lemma safe_put_exempt p i x y :
  safe (Some i) p → infos p !! i = Some x → info_ok None (harvesters p) i y →
  running y = running x → pi_harvester y = pi_harvester x →
  safe None (set_infos (<[i := y]> (infos p)) p).
Proof.
  intros Hs Hx Hok Hr Hh. pose proof (safe_put (Some i) p i x y Hs Hx (info_ok_weaken _ _ _ _ Hok) Hr Hh) as [S1 S2 S3 S4].
  split; try done. intros j z Hz. destruct (decide (i = j)) as [<-|Hne].
  - simpl in Hz. rewrite lookup_insert_eq in Hz. by injection Hz as <-.
  - eapply info_ok_exempt; [done|]. by apply S3.
Qed.

Definition updated (id : option (FileIdentity (FileInfo := FI))) (it : Z) (x : info) : info :=
  mkInfo (pi_file x) id it (status x) (running x) (orphaned x) (finishOffset x) (pi_harvester x) (pi_err x).

Lemma update_file_run p i x fi it :
  safe (Some i) p → infos p !! i = Some x → info_key x = Some (file_key fi) →
  let p' := set_infos (<[i := updated (Some (IdInfo fi)) it x]> (infos p)) p in
  update i (Some fi) it p = Ret (tt, p') ∧ safe None p' ∧ steady p p'.
Proof.
  intros Hs Hx Hk p'. unfold info_key in Hk. destruct (identity x) as [id|] eqn:Hid; [|done]. injection Hk as Hk.
  split; [|split].
  - unfold update, get_info, put_info. monad. rewrite Hx. monad. rewrite Hid. done.
  - eapply safe_put_exempt; try done. pose proof (safe_info _ _ Hs _ _ Hx) as Hi. unfold info_ok in *.
    case_decide as Hinv; simpl in *; [naive_solver congruence|]. rewrite decide_False by done. destruct Hi as (id' & Hid' & _ & Hi).
    assert (id' = id) as -> by congruence. exists (IdInfo fi). split; [done|]. split; [eauto|]. intros Hr.
    destruct (Hi Hr) as (_ & h & l & fi1 & Hh & Hl & Hli & Hd & Hst & Hfi & Hkey). split; [eauto|]. exists h, l, fi1.
    repeat (split; [done|]). simpl. congruence.
  - split; try done. eapply (looks_put p _ i x (updated (Some (IdInfo fi)) it x)); try done. repeat split; try done.
    unfold info_key. rewrite Hid. simpl. by rewrite Hk.
Qed.

Lemma update_seen_run e p i x it :
  safe e p → infos p !! i = Some x →
  let p' := set_infos (<[i := updated (identity x) it x]> (infos p)) p in
  update i None it p = Ret (tt, p') ∧ safe e p' ∧ steady p p'.
Proof.
  intros Hs Hx p'. split; [|split].
  - unfold update, get_info, put_info. monad. by rewrite Hx.
  - eapply safe_put; try done. by apply (safe_info _ _ Hs _ _ Hx).
  - split; try done. by eapply (looks_put p _ i x (updated (identity x) it x)).
Qed.

(** ** Starting a harvester *)
Definition started (h : positive) (x : info) : info :=
  mkInfo (pi_file x) (identity x) (lastSeen x) statusOk true (orphaned x) (finishOffset x) (Some h) (pi_err x).

Definition start_state (i : positive) (x : info) (fi : FI) (offset : Z) (p : PS) : PS :=
  let h := fresh (dom (harvesters p)) in
  set_infos (<[i := started h x]> (infos p))
    (set_harvesters (<[h := mkLaunch i (pi_file x) (Some fi) offset false false]> (harvesters p)) p).

Lemma startHarvesterWithOffset_run p i x fi offset :
  safe None p → infos p !! i = Some x → identity x = Some (IdInfo fi) → running x = false →
  startHarvesterWithOffset i offset p = Ret (tt, start_state i x fi offset p) ∧ safe None (start_state i x fi offset p).
Proof.
  intros Hs Hx Hid Hr. split.
  { unfold startHarvesterWithOffset, get_info, put_info, Info. monad. rewrite Hx. monad. unfold start_state, started. by rewrite Hid. }
  unfold start_state. set (h := fresh _).
  assert (Hnew : harvesters p !! h = None) by (apply not_elem_of_dom, is_fresh).
  split; simpl.
  - intros g j Hj. pose proof (safe_index _ _ Hs _ _ Hj). destruct (decide (i = j)) as [<-|]; [rewrite lookup_insert_eq; eauto|by rewrite lookup_insert_ne].
  - intros j Hj. pose proof (safe_prospectors _ _ Hs _ Hj). destruct (decide (i = j)) as [<-|]; [rewrite lookup_insert_eq; eauto|by rewrite lookup_insert_ne].
  - intros j z Hz. apply lookup_insert_Some in Hz as [[<- <-]|[Hne Hz]].
    + unfold info_ok. simpl. exists (IdInfo fi). split; [done|]. split; [eauto|]. intros _. split; [eauto|].
      exists h, (mkLaunch i (pi_file x) (Some fi) offset false false), fi. rewrite lookup_insert_eq. done.
    + eapply info_ok_harvesters; [|by eapply safe_info]. intros h' l Hl Hlj _.
      rewrite lookup_insert_ne; [done|]. intros <-. congruence.
  - intros h' l Hl Hd. apply lookup_insert_Some in Hl as [[<- <-]|[Hne Hl]].
    + simpl. rewrite lookup_insert_eq. eauto.
    + destruct (safe_launch _ _ Hs _ _ Hl Hd) as (z & Hz & Hrz & Hhz).
      exists z. rewrite lookup_insert_ne; [done|]. intros ->. congruence.
Qed.

Lemma watched_put F D p i x y hs :
  watched F D p → infos p !! i = Some x → pi_file y = pi_file x → orphaned y = orphaned x → info_key y = info_key x →
  i ∈ prospectors p ∨ D = Some i →
  watched F D (set_infos (<[i := y]> (infos p)) (set_harvesters hs p)).
Proof.
  intros [W1 W2 W3 W4] Hx Hf Ho Hk Hin. split; simpl.
  - intros g j Hg HF. destruct (W1 g j Hg HF) as (Hj & z & Hz & Hzf & Hzo). split; [done|].
    destruct (decide (i = j)) as [<-|]; [rewrite lookup_insert_eq|rewrite lookup_insert_ne by done; eauto].
    exists y. split; [done|]. split; congruence.
  - intros j z Hj Hz Hzo HF. apply lookup_insert_Some in Hz as [[<- <-]|[Hne Hz]]; [|eauto].
    rewrite Hf in *. apply W2; congruence.
  - assert (Hback : ∀ j z, <[i := y]> (infos p) !! j = Some z → ∃ z', infos p !! j = Some z' ∧ info_key z' = info_key z).
    { intros j z Hz. apply lookup_insert_Some in Hz as [[<- <-]|[Hne Hz]]; eauto. }
    intros j j' z z' k Hj Hj' Hz Hz' Hkz Hkz'. destruct (Hback _ _ Hz) as (w & Hw & Hwk). destruct (Hback _ _ Hz') as (w' & Hw' & Hwk').
    eapply (W3 j j' w w' k); congruence.
  - intros j z Hz Hr. apply lookup_insert_Some in Hz as [[<- <-]|[Hne Hz]]; eauto.
Qed.

(** ** Resuming *)
Lemma should_resume_run p i x config fi : safe None p → infos p !! i = Some x → status x ≠ statusInvalid →
  ∃ b y p', should_resume i config fi p = Ret (b, p') ∧ safe (Some i) p' ∧ steady p p' ∧ infos p' !! i = Some y ∧
    (b = true → running y = false) ∧ (∀ j, j ≠ i → infos p' !! j = infos p !! j) ∧ dom (harvesters p') = dom (harvesters p) ∧
    (running y = true → b = false).
Proof.
  intros Hs Hx Hinv. destruct (isRunning_run None p i x Hs Hx) as (b & y & p1 & Hrun & Hs1 & Hst & Hy & Hb & Ho & Hdom & _).
  unfold should_resume. rewrite (bind_run _ _ _ _ _ Hrun). destruct b.
  { exists false, y, p1. split; [done|]. split; [by apply safe_weaken|]. done. }
  assert (Hk : ∃ id, identity y = Some id ∧ (status y = statusOk → is_Some (identity_Stat id)) ∧ status y ≠ statusInvalid).
  { pose proof (safe_info _ _ Hs1 _ _ Hy) as Hi. pose proof (safe_info _ _ Hs _ _ Hx) as Hi'. unfold info_ok in Hi, Hi'.
    rewrite decide_False in Hi' by done. destruct Hi' as (id' & Hid' & _). case_decide as Hinv'.
    - destruct Hi as [Hi _]. destruct (looks_dom _ _ (steady_looks _ _ Hst) _ _ Hx) as (y' & Hy' & _ & _ & Hkey & _).
      rewrite Hy in Hy'. injection Hy' as <-. unfold info_key in Hkey. by rewrite Hid', Hi in Hkey.
    - destruct Hi as (id & Hid & Hs' & _). exists id. split; [done|]. split; [|done]. intros E. by apply Hs'. }
  destruct Hk as (id & Hid & Hstat & Hninv).
  assert (Hdone : ∀ b q, prospectorindex q = prospectorindex p1 → prospectors q = prospectors p1 → infos q = infos p1 →
    harvesters q = harvesters p1 → iteration q = iteration p1 → p_spool q = p_spool p1 → fromBeginning q = fromBeginning p1 → p_files q = p_files p1 →
    ∃ b' y' p', Ret (b, q) = Ret (b', p') ∧ safe (Some i) p' ∧ steady p p' ∧ infos p' !! i = Some y' ∧ (b' = true → running y' = false) ∧
      (∀ j, j ≠ i → infos p' !! j = infos p !! j) ∧ dom (harvesters p') = dom (harvesters p) ∧ (running y' = true → b' = false)).
  { intros b q E1 E2 E3 E4 E5 E6 E7 E8. exists b, y, q. rewrite E3, E4. split; [done|]. split; [eapply safe_ext; [..|by apply safe_weaken]; done|].
    split; [|split; [done|]; split; [done|]; split; [done|]; split; [done|congruence]].
    eapply steady_trans; [done|]. split; try done. split; rewrite ?E3; eauto. }
  unfold get_info. monad. rewrite Hy. monad. destruct (status y) eqn:Hsy; [|case_decide as Hoff|by apply Hdone|done].
  - rewrite Hid. monad. destruct (Hstat eq_refl) as [fi0 ->]. monad. by apply Hdone.
  - unfold p_Since, p_Now, p_ask. monad. case_bool_decide; [|by apply Hdone]. monad.
    eexists false, (set_status statusOk y), _. split; [reflexivity|]. split; [|split; [|]].
    + eapply (safe_put (Some i) (tick p1) i y); try done; [by eapply (safe_ext _ p1); [..|apply safe_weaken]|].
      pose proof (safe_info _ _ Hs1 _ _ Hy) as Hi. unfold info_ok in *. rewrite decide_False in Hi by congruence. case_decide; [done|].
      destruct Hi as (id' & Hid' & _ & Hr). exists id'. split; [done|]. split; [done|]. simpl. intros Hr'. congruence.
    + eapply steady_trans; [done|]. split; try done. by eapply (looks_put p1 _ i y (set_status statusOk y)).
    + simpl. rewrite lookup_insert_eq. split; [done|]. split; [done|]. split; [|split; [done|simpl; congruence]]. intros j Hj. rewrite lookup_insert_ne by done. by apply Ho.
  - by apply Hdone.
Qed.

(** ** The end of [processFile] *)

Lemma entry_valid e p i x k : safe e p → infos p !! i = Some x → info_key x = Some k → status x ≠ statusInvalid.
Proof.
  intros Hs Hx Hk Hinv. pose proof (safe_info _ _ Hs _ _ Hx) as Hi. unfold info_ok in Hi. rewrite decide_True in Hi by done.
  destruct Hi as [Hi _]. unfold info_key in Hk. by rewrite Hi in Hk.
Qed.

Definition placed (p : PS) (i : positive) (f : text) : Prop :=
  i ∈ prospectors p ∧ ∃ x, infos p !! i = Some x ∧ pi_file x = f ∧ orphaned x = orphanedNo.

(** The entry in use at [f] becomes the one the index names. *)
Lemma placed_index_set p f i :
  watched (Some f) None p → only f (Some i) p → placed p i f →
  watched None None (set_index (<[f := i]> (prospectorindex p)) p).
Proof.
  intros [W1 W2 W3 W4] Honly (Hin & x & Hx & Hf & Ho). split; simpl.
  - intros g j Hg _. apply lookup_insert_Some in Hg as [[<- <-]|[Hne Hg]]; [by eauto|]. apply W1; [done|congruence].
  - intros j y Hj Hy Hyo _. destruct (decide (pi_file y = f)) as [Heq|Hne].
    + rewrite Heq, lookup_insert_eq. eapply Honly; eauto.
    + rewrite lookup_insert_ne by congruence. apply W2; [done..|congruence].
  - exact W3.
  - exact W4.
Qed.

Record seen_result (f : text) (i : positive) (x0 : info) (p p' : PS) : Prop := {
  seen_index : prospectorindex p' = <[f := i]> (prospectorindex p);
  seen_prospectors : prospectors p' = prospectors p;
  seen_iteration : iteration p' = iteration p;
  seen_spool : p_spool p' = p_spool p;
  seen_entry : ∃ x, infos p' !! i = Some x ∧ pi_file x = pi_file x0 ∧ orphaned x = orphaned x0 ∧ info_key x = info_key x0 ∧ (failed_ok x0 → failed_ok x) ∧ lastSeen x = iteration p;
  seen_others : ∀ j, j ≠ i → infos p' !! j = infos p !! j;
  seen_watched : watched (Some f) None p → only f (Some i) p → placed p i f → watched None None p';
  seen_launches : ∀ h, h ∈ dom (harvesters p') → h ∉ dom (harvesters p) →
    ∃ l x, harvesters p' !! h = Some l ∧ l_stream l = i ∧ infos p' !! i = Some x ∧ l_offset l = finishOffset x;
}.

Lemma process_seen_run p f config i x fi :
  safe None p → infos p !! i = Some x → info_key x = Some (file_key fi) →
  ∃ p', process_seen f config i fi p = Ret (tt, p') ∧ safe None p' ∧ seen_result f i x p p'.
Proof.
  intros Hs Hx Hk.
  destruct (should_resume_run p i x config fi Hs Hx) as (b & y & p1 & Hr & Hs1 & Hst & Hy & Hb & Hoth & Hdom & _);
    [by eapply entry_valid|].
  destruct (looks_dom _ _ (steady_looks _ _ Hst) _ _ Hx) as (y' & Hy' & Hyf & Hyo & Hyk & _ & Hyfl).
  assert (y' = y) as -> by congruence. clear Hy'.
  unfold process_seen. rewrite (bind_run _ _ _ _ _ Hr).
  destruct (update_file_run p1 i y fi (iteration p1) Hs1 Hy) as (Hu & Hs2 & Hst2); [congruence|]. simpl in Hu.
  set (z := updated (Some (IdInfo fi)) (iteration p1) y) in *. set (p2 := set_infos (<[i := z]> (infos p1)) p1) in *.
  assert (Hz : infos p2 !! i = Some z) by (unfold p2; simpl; by rewrite lookup_insert_eq).
  assert (Hst3 : steady p p2) by (by eapply steady_trans).
  assert (Hit : iteration p1 = iteration p) by apply (steady_iteration _ _ Hst).
  rewrite (bind_run _ _ p1 p1 p1 eq_refl). rewrite (bind_run _ _ _ _ _ Hu).
  assert (Hoth2 : ∀ j, j ≠ i → infos p2 !! j = infos p !! j) by (intros j Hj; unfold p2; simpl; rewrite lookup_insert_ne by done; by apply Hoth).
  assert (Hw2 : watched (Some f) None p → watched (Some f) None p2) by (by apply watched_looks, steady_looks).
  assert (Ho2 : only f (Some i) p → only f (Some i) p2) by (by apply only_looks, steady_looks).
  assert (Hzx : pi_file z = pi_file x ∧ orphaned z = orphaned x ∧ info_key z = info_key x) by (split; [simpl; congruence|split; [simpl; congruence|by rewrite Hk]]).
  assert (He2 : placed p i f → placed p2 i f).
  { intros (Hin & x' & Hx' & Hf & Ho). assert (x' = x) as -> by congruence. split; [by rewrite (looks_prospectors _ _ (steady_looks _ _ Hst3))|].
    exists z. destruct Hzx as (? & ? & _). repeat split; congruence. }
  destruct Hzx as (Hzf & Hzo & Hzk).
  assert (Hspool : p_spool p2 = p_spool p) by apply (steady_spool _ _ Hst3).
  assert (Hidx : prospectorindex p2 = prospectorindex p) by apply (looks_index _ _ (steady_looks _ _ Hst3)).
  assert (Hpr : prospectors p2 = prospectors p) by apply (looks_prospectors _ _ (steady_looks _ _ Hst3)).
  assert (Hdom2 : dom (harvesters p2) = dom (harvesters p)) by done.
  assert (Hit2 : iteration p2 = iteration p) by done. clearbody p2.
  destruct b.
  - specialize (Hb eq_refl).
    destruct (startHarvesterWithOffset_run p2 i z fi (finishOffset z) Hs2 Hz eq_refl Hb) as [Hstart Hs3].
    assert (Hget : (x ← get_info i; startHarvesterWithOffset i (finishOffset x)) p2 = Ret (tt, start_state i z fi (finishOffset z) p2)).
    { rewrite (bind_run _ _ _ z p2); [done|]. unfold get_info. monad. by rewrite Hz. }
    rewrite (bind_run _ _ _ _ _ Hget). eexists. split; [reflexivity|]. split.
    { destruct Hs3 as [A1 A2 A3 A4]. split; try done. intros g j. simpl. intros Hg. apply lookup_insert_Some in Hg as [[_ <-]|[_ Hg]]; [|by apply (A1 g j)].
      rewrite lookup_insert_eq. eauto. }
    split; simpl; try congruence.
    + exists (started (fresh (dom (harvesters p2))) z). rewrite lookup_insert_eq. simpl. rewrite Hit. split; [done|]. do 2 (split; [congruence|]). split; [by rewrite <- Hzk|]. split; [by intros _|done].
    + intros j Hj. rewrite lookup_insert_ne by done. by apply Hoth2.
    + intros Hw Honly Hpl. apply (placed_index_set (start_state i z fi (finishOffset z) p2) f i).
      * apply watched_put with (x := z); auto. left. rewrite Hpr. apply Hpl.
      * intros j w Hj. unfold start_state. simpl. intros Hw' Hwo Hwf. apply lookup_insert_Some in Hw' as [[<- <-]|[Hne Hw']]; [done|].
        by eapply (Ho2 Honly).
      * destruct (He2 Hpl) as (Hin & x' & Hx' & Hf & Ho). assert (x' = z) as -> by congruence. split; [done|]. exists (started (fresh (dom (harvesters p2))) z). simpl. rewrite lookup_insert_eq.
        repeat split; simpl; congruence.
    + intros h Hh Hnh. rewrite dom_insert_L in Hh.
      assert (Hfresh : h = fresh (dom (harvesters p2))) by (apply elem_of_union in Hh as [Hh|Hh]; [by apply elem_of_singleton in Hh|by rewrite Hdom2 in Hh]).
      rewrite <- Hfresh. exists (mkLaunch i (pi_file z) (Some fi) (finishOffset z) false false), (started h z).
      split; [apply lookup_insert_eq|]. split; [done|]. split; [apply lookup_insert_eq|done].
  - rewrite (bind_run (mret tt) _ p2 tt p2 eq_refl). eexists. split; [reflexivity|]. split.
    { destruct Hs2 as [A1 A2 A3 A4]. split; try done. intros g j. simpl. intros Hg. apply lookup_insert_Some in Hg as [[_ <-]|[_ Hg]]; [|by apply (A1 g j)].
      eauto. }
    split; simpl; try congruence.
    + exists z. split; [done|]. split_and!; simpl; try congruence. exact Hyfl.
    + done.
    + intros Hw Honly Hpl. apply (placed_index_set p2 f i); auto.
Qed.

(** ** [lookupFileIds] *)

(** Every entry has a path (globbing never yields an empty one), and a failed one
    has its error. *)
Definition named (p : PS) : Prop := ∀ i x, infos p !! i = Some x → pi_file x ≠ [] ∧ failed_ok x.

Lemma named_looks p p' : looks_same p p' → named p → named p'.
Proof. intros Hl Hn i y Hy. destruct (looks_infos _ _ Hl _ _ Hy) as (x & Hx & Hf & _ & _ & _ & Hok).
  rewrite <- Hf. destruct (Hn _ _ Hx). auto. Qed.

(** Taking the entry found out of the collections. *)
Definition detach (i : positive) (x : info) (p : PS) : PS :=
  let p1 := set_prospectors (prospectors p ∖ {[i]}) p in
  if decide (orphaned x = orphanedNo) then set_index (delete (pi_file x) (prospectorindex p1)) p1
  else set_infos (<[i := set_orphaned orphanedNo x]> (infos p1)) p1.

Inductive lookup_result (f : text) (fi : FI) (ks : list positive) (p : PS) : text * option positive → PS → Prop :=
| lookup_none :
    (∀ i x, i ∈ ks → infos p !! i = Some x → info_key x = Some (file_key fi) → orphaned x = orphanedNo ∧ pi_file x = f) →
    lookup_result f fi ks p ([], None) p
| lookup_duplicate i x :
    i ∈ ks → infos p !! i = Some x → info_key x = Some (file_key fi) → lastSeen x = iteration p →
    lookup_result f fi ks p (pi_file x, None) p
| lookup_found i x :
    i ∈ ks → infos p !! i = Some x → info_key x = Some (file_key fi) → lastSeen x ≠ iteration p →
    ¬ (orphaned x = orphanedNo ∧ pi_file x = f) →
    lookup_result f fi ks p (pi_file x, Some i) (detach i x p).

Lemma lookup_loop_run f fi ks p :
  safe None p → (∀ i, i ∈ ks → is_Some (infos p !! i)) →
  ∃ r p', lookup_loop f fi ks p = Ret (r, p') ∧ lookup_result f fi ks p r p'.
Proof.
  intros Hs. induction ks as [|i ks IH]; intros Hks; simpl.
  { eexists _, _. split; [reflexivity|]. constructor. by intros i x Hi%not_elem_of_nil. }
  destruct (Hks i) as [x Hx]; [set_solver|]. destruct IH as (r & p' & Hr & Hres); [intros; apply Hks; set_solver|].
  assert (Hskip : (info_key x = Some (file_key fi) → orphaned x = orphanedNo ∧ pi_file x = f) →
    ∃ r p', lookup_loop f fi ks p = Ret (r, p') ∧ lookup_result f fi (i :: ks) p r p').
  { intros Hi. exists r, p'. split; [done|]. inversion Hres as [Hn|j y ? ? ? ?|j y ? ? ? ?]; subst.
    - constructor. intros j y Hj Hy Hk. apply elem_of_cons in Hj as [->|Hj]; [|by eapply Hn].
      assert (y = x) as -> by congruence. by apply Hi.
    - eapply lookup_duplicate; [by right|..]; done.
    - eapply lookup_found; [by right|..]; done. }
  unfold get_info, prospectors_delete, index_delete, put_info. monad. rewrite Hx. monad.
  pose proof (safe_info _ _ Hs _ _ Hx) as Hi. unfold info_ok in Hi.
  case_decide as Hinv.
  { apply Hskip. unfold info_key. destruct Hi as [-> _]. done. }
  destruct Hi as (id & Hid & _ & _). case_decide as Hno; [by apply Hskip|].
  rewrite Hid. monad. rewrite identity_same_key. assert (Hk : info_key x = Some (id_key id)) by (unfold info_key; by rewrite Hid).
  case_bool_decide as Hkey; [|apply Hskip; congruence]. rewrite Hkey in Hk.
  case_decide as Hseen.
  { eexists _, _. split; [reflexivity|]. eapply lookup_duplicate; [by left|..]; done. }
  pose proof (lookup_found f fi (i :: ks) p i x) as Hf. unfold detach in Hf.
  case_decide as Ho; monad; eexists _, _; (split; [reflexivity|]); apply Hf; try done; by left.
Qed.

Lemma lookupFileIds_run f fi p : safe None p →
  ∃ r q, lookupFileIds f fi p = Ret (r, q) ∧ lookup_result f fi (elements (prospectors p)) (tick p) r q.
Proof.
  intros Hs. unfold lookupFileIds. rewrite (bind_run _ _ p (range_infos (p_tick p) (elements (prospectors p))) (tick p)) by done.
  destruct (lookup_loop_run f fi (range_infos (p_tick p) (elements (prospectors p))) (tick p)) as (r & q & Hr & Hres).
  { by eapply (safe_ext _ p). }
  { intros i Hi. rewrite range_infos_perm, elem_of_elements in Hi. by apply (safe_prospectors _ _ Hs). }
  exists r, q. split; [done|]. inversion Hres as [Hn|j y Hj|j y Hj]; subst; rewrite ?range_infos_perm in *.
  - constructor. intros j y Hj. apply Hn. by rewrite range_infos_perm.
  - by eapply lookup_duplicate.
  - by eapply lookup_found.
Qed.

(** The entry found, taken out, is the one of the file. *)
Lemma detach_safe e p i x : safe e p → infos p !! i = Some x → safe e (detach i x p).
Proof.
  intros Hs Hx. unfold detach. case_decide as Ho.
  - destruct Hs as [S1 S2 S3 S4]. split; simpl; auto.
    + intros g j Hg. apply lookup_delete_Some in Hg as [_ Hg]. eauto.
    + set_solver.
  - assert (Hs' : safe e (set_prospectors (prospectors p ∖ {[i]}) p)).
    { destruct Hs as [S1 S2 S3 S4]. split; simpl; auto. set_solver. }
    eapply safe_put; try done. by apply (safe_info _ _ Hs _ _ Hx).
Qed.

Lemma detach_watched F p i x f :
  watched F None p → F = None ∨ F = Some f → i ∈ prospectors p → infos p !! i = Some x → is_Some (info_key x) →
  ¬ (orphaned x = orphanedNo ∧ pi_file x = f) →
  watched F (Some i) (detach i x p).
Proof.
  intros [W1 W2 W3 W4] HF Hin Hx [k Hk] Hne. unfold detach. case_decide as Ho; split; simpl.
  - intros g j Hg HFg. apply lookup_delete_Some in Hg as [Hgf Hg]. destruct (W1 g j Hg HFg) as (Hj & y & Hy & Hyf & Hyo).
    split; [|eauto]. apply elem_of_difference. split; [done|]. intros ->%elem_of_singleton. congruence.
  - intros j y [Hj Hji]%elem_of_difference Hy Hyo HFy. rewrite lookup_delete_ne; [by apply W2|]. intros Heq.
    assert (Hix : prospectorindex p !! pi_file x = Some i). { apply W2; try done. destruct HF as [->| ->]; [done|]. intros [= ->]. by apply Hne. }
    pose proof (W2 j y Hj Hy Hyo HFy) as Hjx. rewrite <- Heq in Hjx. set_solver.
  - intros j j' y y' k' [Hj _]%elem_of_difference [Hj' _]%elem_of_difference. by apply W3.
  - intros j y Hy Hr. destruct (decide (j = i)) as [->|]; [by right|]. destruct (W4 j y Hy Hr) as [Hj|]; [|done]. left. set_solver.
  - intros g j Hg HFg. destruct (W1 g j Hg HFg) as (Hj & y & Hy & Hyf & Hyo).
    assert (j ≠ i) by (intros ->; congruence). split; [set_solver|]. exists y. by rewrite lookup_insert_ne.
  - intros j y [Hj Hji]%elem_of_difference Hy Hyo HFy. rewrite lookup_insert_ne in Hy by set_solver. by apply W2.
  - intros j j' y y' k' [Hj Hji]%elem_of_difference [Hj' Hji']%elem_of_difference. rewrite !lookup_insert_ne by set_solver. by apply W3.
  - intros j y Hy Hr. destruct (decide (j = i)) as [->|]; [by right|]. rewrite lookup_insert_ne in Hy by done.
    destruct (W4 j y Hy Hr) as [Hj|]; [|done]. left. set_solver.
Qed.

(** ** Adding an entry *)
Lemma watched_put_out F p i y hs :
  watched F (Some i) p → i ∉ prospectors p → watched F (Some i) (set_infos (<[i := y]> (infos p)) (set_harvesters hs p)).
Proof.
  intros [W1 W2 W3 W4] Hout.
  assert (Hback : ∀ j z, j ∈ prospectors p → <[i := y]> (infos p) !! j = Some z → infos p !! j = Some z).
  { intros j z Hj. rewrite lookup_insert_ne; [done|]. by intros ->. }
  split; simpl.
  - intros g j Hg HF. destruct (W1 g j Hg HF) as (Hj & z & Hz & Hr). split; [done|]. exists z.
    rewrite lookup_insert_ne; [done|]. by intros ->.
  - eauto.
  - eauto.
  - intros j z Hz Hr. apply lookup_insert_Some in Hz as [[<- <-]|[Hne Hz]]; [by right|]. eauto.
Qed.

Lemma watched_expect F p i : watched F None p → watched F (Some i) p.
Proof. intros [W1 W2 W3 W4]. split; auto. intros j x Hx Hr. destruct (W4 j x Hx Hr) as [?|?]; [by left|done]. Qed.

Definition new_key (p : PS) (k : option (Z * Z)) : Prop :=
  ∀ j z, j ∈ prospectors p → infos p !! j = Some z → is_Some k → info_key z ≠ k.

Lemma adopt p i y f :
  watched (Some f) (Some i) p → infos p !! i = Some y → pi_file y = f → orphaned y = orphanedNo →
  new_key p (info_key y) → only f None p →
  let p' := set_prospectors ({[i]} ∪ prospectors p) p in
  watched (Some f) None p' ∧ only f (Some i) p'.
Proof.
  intros [W1 W2 W3 W4] Hy Hf Ho Hk Honly p'. split; [split; simpl|].
  - intros g j Hg HF. destruct (W1 g j Hg HF) as [Hj Hz]. split; [set_solver|done].
  - intros j z [->%elem_of_singleton|Hj]%elem_of_union Hz Hzo HF; [|eauto]. congruence.
  - intros j j' z z' k Hj Hj' Hz Hz' Hkz Hkz'.
    apply elem_of_union in Hj as [->%elem_of_singleton|Hj]; apply elem_of_union in Hj' as [->%elem_of_singleton|Hj']; [done| | |eauto].
    + assert (z = y) as -> by congruence. exfalso. apply (Hk j' z'); [done..|eauto|congruence].
    + assert (z' = y) as -> by congruence. exfalso. apply (Hk j z); [done..|eauto|congruence].
  - intros j z Hz Hr. destruct (W4 j z Hz Hr) as [?|[= ->]]; left; set_solver.
  - intros j z. simpl. intros [->%elem_of_singleton|Hj]%elem_of_union Hz Hzo Hzf; [done|]. by pose proof (Honly j z Hj Hz Hzo Hzf).
Qed.

Lemma safe_add p i : safe None p → is_Some (infos p !! i) → safe None (set_prospectors ({[i]} ∪ prospectors p) p).
Proof. intros [S1 S2 S3 S4] Hi. split; simpl; auto. intros j [->%elem_of_singleton|Hj]%elem_of_union; auto. Qed.

Lemma safe_index_set p f i : safe None p → is_Some (infos p !! i) → safe None (set_index (<[f := i]> (prospectorindex p)) p).
Proof. intros [S1 S2 S3 S4] Hi. split; simpl; auto. intros g j Hg. apply lookup_insert_Some in Hg as [[_ <-]|[_ Hg]]; eauto. Qed.

(** When a path is not in the index, or its entry has just been orphaned, no
    entry in use has it. *)
Lemma unknown_only p f : watched None None p → prospectorindex p !! f = None → watched (Some f) None p ∧ only f None p.
Proof.
  intros [W1 W2 W3 W4] Hf. split; [split|].
  - intros g i Hg _. by apply W1.
  - intros i x Hi Hx Ho _. by apply W2.
  - exact W3.
  - exact W4.
  - intros i x Hi Hx Ho Hxf. pose proof (W2 i x Hi Hx Ho) as W. rewrite Hxf, Hf in W. by discriminate W.
Qed.

Lemma known_only p f i : watched None None p → prospectorindex p !! f = Some i → watched (Some f) None p ∧ only f (Some i) p.
Proof.
  intros [W1 W2 W3 W4] Hf. split; [split|].
  - intros g j Hg _. by apply W1.
  - intros j x Hj Hx Ho _. by apply W2.
  - exact W3.
  - exact W4.
  - intros j x Hj Hx Ho Hxf. pose proof (W2 j x Hj Hx Ho) as W. rewrite Hxf, Hf in W. by apply W.
Qed.

Lemma orphan_only p f i x o :
  watched None None p → prospectorindex p !! f = Some i → infos p !! i = Some x → o ≠ orphanedNo →
  let p' := set_infos (<[i := set_orphaned o x]> (infos p)) p in
  watched (Some f) None p' ∧ only f None p'.
Proof.
  intros Hw Hf Hx Ho p'. destruct (known_only p f i Hw Hf) as [[W1 W2 W3 W4] Honly].
  assert (Hback : ∀ j z, <[i := set_orphaned o x]> (infos p) !! j = Some z →
    (j = i ∧ z = set_orphaned o x) ∨ (j ≠ i ∧ infos p !! j = Some z)).
  { intros j z Hz. apply lookup_insert_Some in Hz as [[<- <-]|[Hne Hz]]; auto. }
  split; [split; simpl|].
  - intros g j Hg HF. destruct (W1 g j Hg HF) as (Hj & z & Hz & Hzf & Hzo). split; [done|]. exists z.
    rewrite lookup_insert_ne; [done|]. intros <-. destruct (watched_index _ _ _ Hw f i Hf) as (_ & y & Hy & Hyf & _); [done|]. congruence.
  - intros j z Hj Hz Hzo HF. apply Hback in Hz as [[-> ->]|[Hne Hz]]; [done|eauto].
  - intros j j' z z' k Hj Hj' Hz Hz' Hk Hk'.
    assert (∀ j z, <[i := set_orphaned o x]> (infos p) !! j = Some z → ∃ z', infos p !! j = Some z' ∧ info_key z' = info_key z) as Hb.
    { intros m w Hm. apply Hback in Hm as [[-> ->]|[_ Hm]]; eauto. }
    destruct (Hb _ _ Hz) as (u & Hu & Huk). destruct (Hb _ _ Hz') as (u' & Hu' & Huk'). eapply (W3 j j' u u' k); congruence.
  - intros j z Hz Hr. apply Hback in Hz as [[-> ->]|[Hne Hz]]; eauto.
  - intros j z Hj Hz Hzo Hzf. simpl in Hj, Hz. apply Hback in Hz as [[-> ->]|[Hne Hz]]; [done|].
    pose proof (Honly j z Hj Hz Hzo Hzf). congruence.
Qed.

(** ** Placeholders *)

(** What one operation does to the rest: entries only gain members. *)
Lemma fresh_info p i x : infos p !! i = Some x → i ≠ fresh (dom (infos p)).
Proof. intros Hx ->. apply elem_of_dom_2 in Hx. by apply is_fresh in Hx. Qed.

Lemma fresh_out p : safe None p → fresh (dom (infos p)) ∉ prospectors p.
Proof. intros Hs Hin. destruct (safe_prospectors _ _ Hs _ Hin) as [x Hx]. by eapply fresh_info. Qed.

Definition stub_state (f : text) (e : prospector_error) (p : PS) : PS :=
  let i := fresh (dom (infos p)) in
  let x := updated None (iteration p) (newProspectorInfoInvalid f e) in
  set_index (<[f := i]> (prospectorindex p)) (set_prospectors ({[i]} ∪ prospectors p) (set_infos (<[i := x]> (infos p)) p)).

Lemma named_insert (m : gmap positive info) i x :
  (∀ j y, m !! j = Some y → pi_file y ≠ [] ∧ failed_ok y) → pi_file x ≠ [] ∧ failed_ok x →
  ∀ j y, <[i := x]> m !! j = Some y → pi_file y ≠ [] ∧ failed_ok y.
Proof. intros Hn Hx j y Hy. apply lookup_insert_Some in Hy as [[_ <-]|[_ Hy]]; eauto. Qed.

Lemma add_stub_run p f e : safe None p → named p → f ≠ [] →
  add_stub f e p = Ret (tt, stub_state f e p) ∧ safe None (stub_state f e p) ∧ named (stub_state f e p) ∧
  (watched (Some f) None p → only f None p → watched None None (stub_state f e p)).
Proof.
  intros Hs Hn Hf. set (i := fresh (dom (infos p))). set (x0 := newProspectorInfoInvalid f e : info).
  assert (Hnew : infos p !! i = None) by (apply not_elem_of_dom, is_fresh).
  assert (Heq : stub_state f e p = set_index (<[f := i]> (prospectorindex p)) (set_prospectors ({[i]} ∪ prospectors p)
    (set_infos (<[i := updated None (iteration p) x0]> (infos p)) p))) by done.
  assert (Hrun : add_stub f e p = Ret (tt, stub_state f e p)).
  { unfold add_stub, alloc_info, update, get_info, put_info, prospectors_add, index_set. monad. fold i x0. simpl.
    rewrite lookup_insert_eq. monad. rewrite Heq. unfold updated, set_index, set_prospectors, set_infos. simpl. by rewrite insert_insert_eq. }
  split; [done|]. clear Hrun. rewrite Heq. clear Heq.
  set (x := updated None (iteration p) x0). set (q := set_infos (<[i := x]> (infos p)) p).
  assert (Hq : safe None q) by (apply safe_alloc; [done| |done]; unfold info_ok; simpl; eauto).
  assert (Hx : infos q !! i = Some x) by apply lookup_insert_eq.
  split. { apply (safe_index_set (set_prospectors ({[i]} ∪ prospectors q) q)); [apply safe_add; eauto|exists x; exact Hx]. } split; [exact (named_insert (infos p) i x Hn (conj Hf I))|].
  intros Hw Ho. destruct (adopt q i x f) as [Hw' Ho']; try done.
  - apply watched_put_out; [by apply watched_expect|by apply fresh_out].
  - by intros j z _ _ [k Hk].
  - intros j z Hj Hz. simpl in Hz. apply lookup_insert_Some in Hz as [[<- <-]|[Hne Hz]]; [exfalso; by apply (fresh_out p Hs)|]. by apply (Ho j z).
  - apply (placed_index_set (set_prospectors ({[i]} ∪ prospectors q) q) f i); [done..|]. split; [set_solver|]. by exists x.
Qed.

(** The placeholder that the index had for [f] has been replaced. *)
Definition displaces (p p' : PS) (f : text) : Prop :=
  ∃ i x, prospectorindex p !! f = Some i ∧ infos p !! i = Some x ∧ status x = statusInvalid ∧ prospectorindex p' !! f ≠ Some i.

(** What [processFile] leads to. *)
Record file_post (f : text) (p p' : PS) : Prop := {
  post_safe : safe None p';
  post_named : named p';
  post_iteration : iteration p' = iteration p;
  post_watched : watched None None p → ¬ displaces p p' f → watched None None p';
}.

Lemma file_post_stub f e p q :
  safe None q → named q → f ≠ [] → iteration q = iteration p → prospectorindex q = prospectorindex p →
  (∀ i x, infos p !! i = Some x → is_Some (infos q !! i)) →
  (watched None None p → (∀ i x, prospectorindex p !! f = Some i → infos p !! i = Some x → status x ≠ statusInvalid) →
    watched (Some f) None q ∧ only f None q) →
  file_post f p (stub_state f e q).
Proof.
  intros Hs Hn Hf Hit Hidx Hdom Hw. destruct (add_stub_run q f e Hs Hn Hf) as (_ & Hs' & Hn' & Hw').
  split; try done. intros Hp Hnd. destruct Hw as [Hw Ho]; [done| |by apply Hw'].
  intros i x Hi Hx Hst. apply Hnd. exists i, x. repeat (split; [done|]). simpl. rewrite lookup_insert_eq.
  intros [= <-]. destruct (Hdom _ _ Hx) as [y Hy]. by eapply fresh_info.
Qed.

Lemma process_error_run p f e : safe None p → named p → f ≠ [] →
  ∃ p', process_error f (prospectorindex p !! f) e p = Ret (tt, p') ∧ file_post f p p'.
Proof.
  intros Hs Hn Hf. unfold process_error. destruct (prospectorindex p !! f) as [i|] eqn:Hi.
  2: { rewrite (bind_run (mret false) _ p false p eq_refl). eexists. split; [by apply add_stub_run|].
       apply file_post_stub; try done. intros Hw _. by apply unknown_only. }
  destruct (safe_index _ _ Hs _ _ Hi) as [x Hx]. pose proof (safe_info _ _ Hs _ _ Hx) as Hok. unfold info_ok in Hok.
  unfold get_info at 1. destruct (decide (status x = statusInvalid)) as [Hst|Hst].
  - destruct Hok as (Hid & [old Hold] & Hrun). destruct (decide (Error old = Error e)) as [He|He].
    + destruct (update_seen_run None p i x (iteration p) Hs Hx) as (Hu & Hs' & Hst').
      eexists. split.
      { monad. rewrite Hx. monad. rewrite decide_False by auto. rewrite Hold. monad. rewrite decide_True by done. monad.
        rewrite Hu. reflexivity. }
      split; [done| |done|]; [by eapply named_looks, Hn; apply steady_looks|].
      intros Hw _. by eapply watched_looks, Hw; apply steady_looks.
    + eexists. split.
      { monad. rewrite Hx. monad. rewrite decide_False by auto. rewrite Hold. monad. rewrite decide_False by done. by apply add_stub_run. }
      apply file_post_stub; try done. intros Hw Hno. by destruct (Hno i x).
  - set (q := set_infos (<[i := set_orphaned orphanedMaybe x]> (infos p)) p).
    assert (Hsq : safe None q). { eapply safe_put; try done. by apply (safe_info _ _ Hs _ _ Hx). }
    assert (Hnq : named q) by exact (named_insert (infos p) i (set_orphaned orphanedMaybe x) Hn (Hn i x Hx)).
    eexists. split.
    { monad. rewrite Hx. monad. rewrite decide_True by done. by apply add_stub_run. }
    apply file_post_stub; try done.
    + intros j y Hy. unfold q. simpl. destruct (decide (i = j)) as [<-|]; [rewrite lookup_insert_eq; eauto|rewrite lookup_insert_ne by done; eauto].
    + intros Hw _. by apply orphan_only.
Qed.

(** ** [processFile] *)

(** The last part, reached with the entry [i] of the file in hand. *)
Lemma arrive p q f config i x fi :
  safe None q → named q → infos q !! i = Some x → info_key x = Some (file_key fi) → iteration q = iteration p →
  (∀ s y, prospectorindex p !! f = Some s → infos p !! s = Some y → status y = statusInvalid → s ≠ i) →
  (watched None None p → (∀ s y, prospectorindex p !! f = Some s → infos p !! s = Some y → status y ≠ statusInvalid) →
    watched (Some f) None q ∧ only f (Some i) q ∧ placed q i f) →
  ∃ p', process_seen f config i fi q = Ret (tt, p') ∧ file_post f p p'.
Proof.
  intros Hs Hn Hx Hk Hit Hstub Hw. destruct (process_seen_run q f config i x fi Hs Hx Hk) as (p' & Hr & Hs' & [S1 S2 S3 S4 S5 S6 S7 S8]).
  exists p'. split; [done|]. split; [done| |congruence|].
  - intros j y Hy. destruct (decide (j = i)) as [->|Hne].
    + destruct S5 as (y' & Hy' & Hf & _ & _ & Hok & _). assert (y' = y) as -> by congruence. rewrite Hf. destruct (Hn _ _ Hx). auto.
    + rewrite S6 in Hy by done. by eapply Hn.
  - intros Hp Hnd. destruct Hw as (Hw & Ho & Hpl); [done| |by apply S7].
    intros s y Hsi Hy Hinv. apply Hnd. exists s, y. repeat (split; [done|]). rewrite S1, lookup_insert_eq. intros [= ->]. by eapply Hstub.
Qed.

Definition announced (e : RegEvent) (p : PS) : PS := set_p_spool (spool_Add e (p_spool p)) p.

Lemma startHarvester_run p i x fi :
  safe None p → infos p !! i = Some x → identity x = Some (IdInfo fi) → running x = false →
  let offset := if fromBeginning p then 0%Z else fi_Size fi in
  let q := announced (RegDiscover (Some i) (pi_file x) offset fi) p in
  startHarvester i p = Ret (tt, start_state i x fi offset q) ∧ safe None (start_state i x fi offset q).
Proof.
  intros Hs Hx Hid Hr offset q.
  destruct (startHarvesterWithOffset_run q i x fi offset) as [Hrun Hs']; [by eapply (safe_ext _ p)|done..|]. split; [|done].
  unfold startHarvester, get_info, registrar_Add. monad. rewrite Hx. monad. rewrite Hid. monad. by rewrite <- Hrun.
Qed.

(** Putting the new entry [i], possibly started, into the collection. *)
Lemma settle p f fi i x q :
  safe None q → infos q !! i = Some x → pi_file x = f → orphaned x = orphanedNo → info_key x = Some (file_key fi) →
  let q' := set_prospectors ({[i]} ∪ prospectors q) q in
  safe None q' ∧ ((watched None None p → watched (Some f) (Some i) q ∧ only f None q ∧ new_key q (Some (file_key fi))) →
   watched None None p → watched (Some f) None q' ∧ only f (Some i) q' ∧ placed q' i f).
Proof.
  intros Hs Hx Hf Ho Hk q'. split; [apply safe_add; eauto|]. intros Hw Hp. destruct (Hw Hp) as (Hw1 & Honly & Hkey).
  destruct (adopt q i x f) as [Hw' Ho']; try done; [by rewrite Hk|]. do 2 (split; [done|]). split; [set_solver|]. by exists x.
Qed.

Lemma new_key_lookup p f fi :
  only f None p → (∀ i x, i ∈ elements (prospectors p) → infos p !! i = Some x → info_key x = Some (file_key fi) →
    orphaned x = orphanedNo ∧ pi_file x = f) → new_key p (Some (file_key fi)).
Proof.
  intros Ho Hn j z Hj Hz _ Hk. destruct (Hn j z) as [Hzo Hzf]; [by rewrite elem_of_elements|done..|].
  by pose proof (Ho j z Hj Hz Hzo Hzf).
Qed.

(** A new entry, not yet in the collections, of the file [fi] at [f]. *)
Record fresh_entry (p q : PS) (f : text) (fi : FI) (i : positive) : Prop := {
  fresh_safe : safe None q;
  fresh_named : named q;
  fresh_at : infos q !! i = Some (newProspectorInfoFromFileInfo f fi);
  fresh_iteration : iteration q = iteration p;
  fresh_stub : ∀ s y, infos p !! s = Some y → s ≠ i;
  fresh_watched : watched None None p → (∀ s y, prospectorindex p !! f = Some s → infos p !! s = Some y → status y ≠ statusInvalid) →
    (i ∉ prospectors q) ∧ watched (Some f) (Some i) q ∧ only f None q ∧ new_key q (Some (file_key fi));
}.

Lemma fresh_tick p q f fi i : fresh_entry p q f fi i → fresh_entry p (tick q) f fi i.
Proof.
  intros [F1 F2 F3 F4 F5 F6]. split; try done; [by eapply (safe_ext _ q)|].
  intros Hw Hns. destruct (F6 Hw Hns) as (Hi & Hw' & Ho & Hk). do 3 (split; [done||by eapply (watched_ext _ _ q)|]). done.
Qed.

Lemma new_entry_run p q f fi :
  safe None q → named q → f ≠ [] → iteration q = iteration p → (∀ s y, infos p !! s = Some y → is_Some (infos q !! s)) →
  (watched None None p → (∀ s y, prospectorindex p !! f = Some s → infos p !! s = Some y → status y ≠ statusInvalid) →
    watched (Some f) None q ∧ only f None q ∧ new_key q (Some (file_key fi))) →
  ∃ i q', alloc_info (newProspectorInfoFromFileInfo f fi) q = Ret (i, q') ∧ fresh_entry p q' f fi i ∧
    lastscan q' = lastscan q ∧ fromBeginning q' = fromBeginning q ∧ p_tick q' = p_tick q ∧ harvesters q' = harvesters q.
Proof.
  intros Hs Hn Hf Hit Hdom Hw. set (i := fresh (dom (infos q))). set (x := newProspectorInfoFromFileInfo f fi : info).
  exists i, (set_infos (<[i := x]> (infos q)) q). split; [done|]. split; [|done].
  assert (Hout : i ∉ prospectors q) by exact (fresh_out q Hs).
  assert (Hback : ∀ j z, j ∈ prospectors q → <[i := x]> (infos q) !! j = Some z → infos q !! j = Some z).
  { intros j z Hj. rewrite lookup_insert_ne; [done|]. by intros <-. }
  split; try done; simpl.
  - apply safe_alloc; [done| |done]. unfold info_ok. simpl. exists (IdInfo fi). split; [done|]. split; [eauto|done].
  - exact (named_insert (infos q) i x Hn (conj Hf I)).
  - apply lookup_insert_eq.
  - intros s y Hy ->. destruct (Hdom _ _ Hy) as [y' Hy']. by eapply fresh_info.
  - intros Hp Hns. destruct (Hw Hp Hns) as (Hw1 & Ho & Hk). split; [done|]. split; [|split].
    + apply (watched_put_out (Some f) q i x (harvesters q)); [by apply watched_expect|done].
    + intros j z Hj Hz. apply (Ho j z Hj). by apply Hback.
    + intros j z Hj Hz. apply (Hk j z Hj). by apply Hback.
Qed.

(** A new file is announced to the registrar and its harvester started. *)
Lemma launch_new_run p q f config fi i :
  fresh_entry p q f fi i → f ≠ [] →
  ∃ p', (startHarvester i;; prospectors_add i;; process_seen f config i fi) q = Ret (tt, p') ∧ file_post f p p'.
Proof.
  intros [Hs1 Hn1 Hx1 Hit Hstub Hw] Hf. set (x := newProspectorInfoFromFileInfo f fi : info) in *.
  destruct (startHarvester_run q i x fi Hs1 Hx1 eq_refl eq_refl) as [Hst Hs2].
  set (q2 := start_state i x fi _ _) in *. set (y := started (fresh (dom (harvesters q))) x).
  assert (Hx2 : infos q2 !! i = Some y) by (unfold q2, start_state; simpl; apply lookup_insert_eq).
  destruct (settle p f fi i y q2 Hs2 Hx2 eq_refl eq_refl eq_refl) as [Hs3 Hw3].
  set (q3 := set_prospectors ({[i]} ∪ prospectors q2) q2) in *.
  destruct (arrive p q3 f config i y fi) as (p' & Hr & Hpost); try done.
  - exact (named_insert (infos q) i y Hn1 (conj Hf I)).
  - intros s z _ Hz _. by eapply Hstub.
  - intros Hp Hns. apply Hw3; [|done]. intros _. destruct (Hw Hp Hns) as (Hout & Hw0 & Ho0 & Hk0).
    assert (Hback : ∀ j z, j ∈ prospectors q → infos q2 !! j = Some z → infos q !! j = Some z).
    { intros j z Hj. unfold q2, start_state. simpl. rewrite lookup_insert_ne; [done|]. by intros <-. }
    split; [|split].
    + apply (watched_put_out (Some f) (announced _ q) i); [|done]. by eapply (watched_ext _ _ q).
    + intros j z Hj Hz. apply (Ho0 j z Hj). by apply Hback.
    + intros j z Hj Hz. apply (Hk0 j z Hj). by apply Hback.
  - exists p'. split; [|done]. rewrite <- Hr. rewrite (bind_run _ _ _ _ _ Hst). done.
Qed.

(** A file older than the dead time is announced but not harvested. *)
Lemma skip_old_run p q f config fi i :
  fresh_entry p q f fi i → f ≠ [] →
  ∃ p', (x ← get_info i; put_info i (set_finishOffset (fi_Size fi) x);; registrar_Add (RegDiscover (Some i) f (fi_Size fi) fi);;
         prospectors_add i;; process_seen f config i fi) q = Ret (tt, p') ∧ file_post f p p'.
Proof.
  intros [Hs1 Hn1 Hx1 Hit Hstub Hw] Hf. set (y := set_finishOffset (fi_Size fi) (newProspectorInfoFromFileInfo f fi) : info).
  set (q2 := announced (RegDiscover (Some i) f (fi_Size fi) fi) (set_infos (<[i := y]> (infos q)) q)).
  assert (Hs2 : safe None q2).
  { eapply (safe_ext _ (set_infos (<[i := y]> (infos q)) q)); [done..|]. eapply safe_put; try done. apply (safe_info _ _ Hs1 _ _ Hx1). }
  assert (Hx2 : infos q2 !! i = Some y) by apply lookup_insert_eq.
  destruct (settle p f fi i y q2 Hs2 Hx2 eq_refl eq_refl eq_refl) as [Hs3 Hw3].
  set (q3 := set_prospectors ({[i]} ∪ prospectors q2) q2) in *.
  destruct (arrive p q3 f config i y fi) as (p' & Hr & Hpost); try done.
  - exact (named_insert (infos q) i y Hn1 (conj Hf I)).
  - intros s z _ Hz _. by eapply Hstub.
  - intros Hp Hns. apply Hw3; [|done]. intros _. destruct (Hw Hp Hns) as (Hout & Hw0 & Ho0 & Hk0).
    assert (Hback : ∀ j z, j ∈ prospectors q → infos q2 !! j = Some z → infos q !! j = Some z).
    { intros j z Hj. unfold q2. simpl. rewrite lookup_insert_ne; [done|]. by intros <-. }
    split; [|split].
    + eapply (watched_ext _ _ (set_infos (<[i := y]> (infos q)) q)); [done..|]. by apply (watched_put_out (Some f) q i y (harvesters q)).
    + intros j z Hj Hz. apply (Ho0 j z Hj). by apply Hback.
    + intros j z Hj Hz. apply (Hk0 j z Hj). by apply Hback.
  - exists p'. split; [|done]. rewrite <- Hr. unfold get_info, put_info, registrar_Add, prospectors_add. monad. by rewrite Hx1.
Qed.

(** A file found under another path keeps its entry. *)
Lemma relink_run p q0 f config j x fi :
  safe None q0 → named q0 → f ≠ [] → iteration q0 = iteration p →
  infos q0 !! j = Some x → info_key x = Some (file_key fi) → ¬ (orphaned x = orphanedNo ∧ pi_file x = f) →
  (∀ s y, prospectorindex p !! f = Some s → infos p !! s = Some y → status y = statusInvalid → s ≠ j) →
  (watched None None p → (∀ s y, prospectorindex p !! f = Some s → infos p !! s = Some y → status y ≠ statusInvalid) →
    watched (Some f) None q0 ∧ only f None q0 ∧ j ∈ prospectors q0) →
  ∃ p', (link_renamed f j;; prospectors_add j;; process_seen f config j fi) (detach j x q0) = Ret (tt, p') ∧ file_post f p p'.
Proof.
  intros Hs Hn Hf Hit Hx Hk Hne Hstub Hw. set (q := detach j x q0).
  set (x0 := if decide (orphaned x = orphanedNo) then x else set_orphaned orphanedNo x).
  assert (Hx0 : infos q !! j = Some x0).
  { unfold q, x0, detach. case_decide; [done|]. simpl. apply lookup_insert_eq. }
  assert (Ho0 : orphaned x0 = orphanedNo) by (unfold x0; by case_decide).
  assert (Hk0 : info_key x0 = Some (file_key fi)) by (unfold x0; by case_decide).
  assert (Hp0 : prospectors q = prospectors q0 ∖ {[j]}) by (unfold q, detach; by case_decide).
  assert (Hothers : ∀ k, k ≠ j → infos q !! k = infos q0 !! k).
  { intros k Hkj. unfold q, detach. case_decide; [done|]. simpl. by rewrite lookup_insert_ne. }
  assert (Hitq : iteration q = iteration q0) by (unfold q, detach; by case_decide).
  assert (Hsq : safe None q) by (by apply detach_safe).
  set (y := set_pi_file f x0). set (q1 := announced (RegRenamed (Some j) f) (set_infos (<[j := y]> (infos q)) q)).
  assert (Hs1 : safe None q1).
  { eapply (safe_ext _ (set_infos (<[j := y]> (infos q)) q)); [done..|]. eapply safe_put; try done. by apply (safe_info _ _ Hsq _ _ Hx0). }
  assert (Hy : infos q1 !! j = Some y) by apply lookup_insert_eq.
  destruct (settle p f fi j y q1 Hs1 Hy eq_refl Ho0 Hk0) as [Hs2 Hw2].
  set (q2 := set_prospectors ({[j]} ∪ prospectors q1) q1) in *.
  destruct (arrive p q2 f config j y fi) as (p' & Hr & Hpost); try done.
  - intros k z Hz. destruct (decide (k = j)) as [->|Hkj].
    + assert (z = y) as -> by (unfold q2 in Hz; simpl in Hz; rewrite lookup_insert_eq in Hz; by injection Hz).
      split; [done|]. unfold y, x0. destruct (Hn _ _ Hx) as [_ Hok]. by case_decide.
    + unfold q2, q1 in Hz. simpl in Hz. rewrite lookup_insert_ne in Hz by done. rewrite Hothers in Hz by done. by eapply Hn.
  - simpl. congruence.
  - intros Hp Hns. apply Hw2; [|done]. intros _. destruct (Hw Hp Hns) as (Hw0 & Honly & Hin).
    assert (Hsame : ∀ k z, k ∈ prospectors q1 → infos q1 !! k = Some z → k ≠ j ∧ k ∈ prospectors q0 ∧ infos q0 !! k = Some z).
    { intros k z Hkin Hz. unfold q1 in Hkin, Hz. simpl in Hkin, Hz. rewrite Hp0 in Hkin. assert (k ≠ j) by set_solver.
      rewrite lookup_insert_ne in Hz by done. rewrite Hothers in Hz by done. split; [done|]. split; [set_solver|done]. }
    split; [|split].
    + eapply (watched_ext _ _ (set_infos (<[j := y]> (infos q)) q)); [done..|].
      apply (watched_put_out (Some f) q j y (harvesters q)); [|rewrite Hp0; set_solver].
      apply (detach_watched (Some f) q0 j x f); [done|by right|done|done|eauto|done].
    + intros k z Hkin Hz Hzo Hzf. destruct (Hsame k z Hkin Hz) as (_ & Hkin' & Hz'). by apply (Honly k z).
    + intros k z Hkin Hz _ Hzk. destruct (Hsame k z Hkin Hz) as (Hkj & Hkin' & Hz').
      apply Hkj. by eapply (watched_key _ _ _ Hw0).
  - exists p'. split; [|done]. rewrite <- Hr. unfold link_renamed, get_info, put_info, registrar_Add, prospectors_add. monad.
    fold q. rewrite Hx0. monad. done.
Qed.

(** Nothing but the clock and the trail of answers changed. *)
Lemma file_post_ext f p p' : safe None p' → named p →
  prospectorindex p' = prospectorindex p → prospectors p' = prospectors p → infos p' = infos p → iteration p' = iteration p →
  file_post f p p'.
Proof.
  intros Hs Hn E1 E2 E3 E4. split; [done|unfold named; by rewrite E3|done|]. intros Hw _. by eapply (watched_ext _ _ p).
Qed.

(** The path was in the index, or not, without a valid entry. *)
Lemma process_unknown_run p f config fi :
  safe None p → named p → f ≠ [] →
  (∀ s y, prospectorindex p !! f = Some s → infos p !! s = Some y → status y = statusInvalid) →
  ∃ p', (next ← process_unknown f config (prospectorindex p !! f) fi;
         match next with Some i => process_seen f config i fi | None => mret tt end) p = Ret (tt, p') ∧ file_post f p p'.
Proof.
  intros Hs Hn Hf Hinv. destruct (lookupFileIds_run f fi p Hs) as (r & q & Hr & Hres).
  assert (Hnone : watched None None p → (∀ s y, prospectorindex p !! f = Some s → infos p !! s = Some y → status y ≠ statusInvalid) →
    watched (Some f) None (tick p) ∧ only f None (tick p)).
  { intros Hw Hns. destruct (prospectorindex p !! f) as [s|] eqn:Hi.
    - destruct (safe_index _ _ Hs _ _ Hi) as [y Hy]. by pose proof (Hns s y eq_refl Hy (Hinv s y eq_refl Hy)).
    - destruct (unknown_only p f Hw Hi). split; [|done]. by eapply (watched_ext _ _ p). }
  assert (Hst : safe None (tick p)) by (by eapply (safe_ext _ p)).
  unfold process_unknown. rewrite bind_assoc, (bind_run _ _ _ _ _ Hr).
  inversion Hres as [Hno|i x Hi Hx Hk Hseen|i x Hi Hx Hk Hseen Hne]; subst.
  - rewrite decide_False by auto.
    destruct (new_entry_run p (tick p) f fi) as (i & q1 & Ha & Hfr & _); try done.
    { intros Hw Hns. destruct (Hnone Hw Hns) as [Hw' Ho]. do 2 (split; [done|]). by eapply new_key_lookup. }
    rewrite bind_assoc, (bind_run _ _ _ _ _ Ha). rewrite bind_assoc, (bind_run _ _ q1 q1 q1 eq_refl).
    assert (Hold : ∃ b q2, (if decide (fi_ModTime fi < lastscan q1)%Z
        then age ← p_Since (fi_ModTime fi); mret (bool_decide (DeadTime (f_Stream config) < age)%Z) else mret false) q1 = Ret (b, q2) ∧
        fresh_entry p q2 f fi i).
    { case_decide; [|by exists false, q1]. eexists _, _. split; [reflexivity|]. by apply fresh_tick. }
    destruct Hold as (b & q2 & Hb & Hfr2). rewrite bind_assoc, (bind_run _ _ _ _ _ Hb). destruct b.
    + destruct (skip_old_run p q2 f config fi i Hfr2 Hf) as (p' & Hrun & Hpost). exists p'. split; [|done]. rewrite <- Hrun.
      unfold get_info. monad. destruct (infos q2 !! i); reflexivity.
    + destruct (launch_new_run p q2 f config fi i Hfr2 Hf) as (p' & Hrun & Hpost). exists p'. split; [|done]. rewrite <- Hrun.
      by rewrite bind_assoc.
  - rewrite decide_True by (by eapply Hn).
    assert (Hf' : ∃ p', flagDuplicateError f (prospectorindex p !! f) (tick p) = Ret (tt, p') ∧ file_post f p p').
    { unfold flagDuplicateError. destruct (prospectorindex p !! f) as [s|] eqn:Hsi.
      - destruct (safe_index _ _ Hs _ _ Hsi) as [y Hy].
        assert (Hl : (x0 ← get_info s; mret (is_duplicate_stub x0)) (tick p) = Ret (is_duplicate_stub y, tick p)).
        { unfold get_info. monad. simpl. by rewrite Hy. }
        rewrite (bind_run _ _ _ _ _ Hl). destruct (is_duplicate_stub y); [eexists; split; [reflexivity|by apply file_post_ext]|].
        eexists. split; [by apply add_stub_run|]. apply file_post_stub; try done. intros Hw Hns. apply Hnone; [done|]. intros s0 y0 Hs0. apply Hns. by rewrite Hsi.
      - rewrite (bind_run _ _ (tick p) false (tick p) eq_refl). eexists. split; [by apply add_stub_run|].
        apply file_post_stub; try done. intros Hw Hns. apply Hnone; [done|]. intros s0 y0 Hs0. apply Hns. by rewrite Hsi. }
    destruct Hf' as (p' & Hrun & Hpost). exists p'. split; [|done]. by rewrite bind_assoc, (bind_run _ _ _ _ _ Hrun).
  - rewrite decide_True by (by eapply Hn).
    destruct (relink_run p (tick p) f config i x fi) as (p' & Hrun & Hpost); try done.
    + intros s y Hsi Hy Hyi ->. assert (y = x) as -> by (simpl in Hx; congruence). by apply (entry_valid None p i x (file_key fi)).
    + intros Hw Hns. destruct (Hnone Hw Hns). rewrite elem_of_elements in Hi. done.
    + exists p'. split; [|done]. rewrite <- Hrun. by rewrite bind_assoc.
Qed.

Lemma process_known_run p f config i x fi :
  safe None p → named p → f ≠ [] → prospectorindex p !! f = Some i → infos p !! i = Some x → status x ≠ statusInvalid →
  ∃ p', (next ← process_known f i fi; match next with Some i => process_seen f config i fi | None => mret tt end) p = Ret (tt, p') ∧
    file_post f p p'.
Proof.
  intros Hs Hn Hf Hi Hx Hst. pose proof (safe_info _ _ Hs _ _ Hx) as Hok. unfold info_ok in Hok. rewrite decide_False in Hok by done.
  destruct Hok as (id & Hid & _). assert (Hkey : info_key x = Some (id_key id)) by (unfold info_key; by rewrite Hid).
  assert (Hget : get_info i p = Ret (x, p)) by (unfold get_info; monad; by rewrite Hx).
  assert (Hderef : deref (identity x) p = Ret (id, p)) by (by rewrite Hid).
  unfold process_known. rewrite bind_assoc, (bind_run _ _ _ _ _ Hget), bind_assoc, (bind_run _ _ _ _ _ Hderef).
  rewrite identity_same_key. case_bool_decide as Hsame.
  - rewrite (bind_run _ _ p (Some i) p eq_refl). rewrite Hsame in Hkey.
    apply (arrive p p f config i x fi); try done; [by intros s y Hsi Hy Hinv ->; congruence|].
    intros Hw _. destruct (known_only p f i Hw Hi). do 2 (split; [done|]).
    destruct (watched_index _ _ _ Hw f i Hi) as (Hin & y & ?); [done|]. split; [done|]. by exists y.
  - set (q := set_infos (<[i := set_orphaned orphanedMaybe x]> (infos p)) p).
    assert (Hsq : safe None q). { eapply safe_put; try done. apply (safe_info _ _ Hs _ _ Hx). }
    assert (Hnq : named q) by exact (named_insert (infos p) i (set_orphaned orphanedMaybe x) Hn (Hn i x Hx)).
    assert (Hdom : ∀ j y, infos p !! j = Some y → is_Some (infos q !! j)).
    { intros j y Hy. unfold q. simpl. destruct (decide (i = j)) as [<-|]; [rewrite lookup_insert_eq; eauto|rewrite lookup_insert_ne by done; eauto]. }
    assert (Hnone : watched None None p → watched (Some f) None (tick q) ∧ only f None (tick q)).
    { intros Hw. destruct (orphan_only p f i x orphanedMaybe Hw Hi Hx) as [Hw' Ho]; [done|]. split; [|done]. by eapply (watched_ext _ _ q). }
    assert (Hst' : safe None (tick q)) by (by eapply (safe_ext _ q)).
    assert (Hput : put_info i (set_orphaned orphanedMaybe x) p = Ret (tt, q)) by done.
    rewrite bind_assoc, (bind_run _ _ _ _ _ Hput).
    destruct (lookupFileIds_run f fi q Hsq) as (r & q1 & Hr & Hres). rewrite bind_assoc, (bind_run _ _ _ _ _ Hr).
    inversion Hres as [Hno|j y Hj Hy Hk Hseen|j y Hj Hy Hk Hseen Hne]; subst.
    + rewrite decide_False by auto.
      destruct (new_entry_run p (tick q) f fi) as (j & q1 & Ha & Hfr & _); try done.
      { intros Hw _. destruct (Hnone Hw) as [Hw' Ho]. do 2 (split; [done|]). by eapply new_key_lookup. }
      rewrite bind_assoc, (bind_run _ _ _ _ _ Ha).
      destruct (launch_new_run p q1 f config fi j Hfr Hf) as (p' & Hrun & Hpost). exists p'. split; [|done]. rewrite <- Hrun.
      by rewrite bind_assoc.
    + rewrite decide_True by (by eapply Hnq). rewrite bind_assoc. unfold flagDuplicateError. rewrite bind_assoc.
      rewrite (bind_run _ _ (tick q) false (tick q) eq_refl).
      destruct (add_stub_run (tick q) f (newProspectorSkipError message_Duplicate)) as (Hrun & _); try done.
      eexists. split; [by rewrite (bind_run _ _ _ _ _ Hrun)|]. apply file_post_stub; try done. intros Hw _. by apply Hnone.
    + rewrite decide_True by (by eapply Hnq).
      destruct (relink_run p (tick q) f config j y fi) as (p' & Hrun & Hpost); try done.
      * intros s z Hsi Hz Hzi. congruence.
      * intros Hw _. destruct (Hnone Hw). rewrite elem_of_elements in Hj. done.
      * exists p'. split; [|done]. rewrite <- Hrun. by rewrite bind_assoc.
Qed.

(** [processFile] always returns; it keeps the collections consistent unless it
    replaces a placeholder. *)
Lemma processFile_run p f config : safe None p → named p → f ≠ [] →
  ∃ p', processFile f config p = Ret (tt, p') ∧ file_post f p p'.
Proof.
  intros Hs Hn Hf. assert (Hst : safe None (tick p)) by (by eapply (safe_ext _ p)).
  assert (Hlift : ∀ m : M PS unit, (∃ p', m (tick p) = Ret (tt, p') ∧ file_post f (tick p) p') → ∃ p', m (tick p) = Ret (tt, p') ∧ file_post f p p').
  { intros m (p' & Hm & [P1 P2 P3 P4]). exists p'. split; [done|]. split; try done. intros Hw. apply P4. by eapply (watched_ext _ _ p). }
  unfold processFile. rewrite (bind_run _ _ p p p eq_refl), (bind_run _ _ p (os_Stat (p_tick p) f) (tick p) eq_refl).
  destruct (os_Stat (p_tick p) f) as [m|fi]; [apply Hlift, (process_error_run (tick p)); done|].
  destruct (fi_IsDir fi); [apply Hlift, (process_error_run (tick p)); done|]. apply Hlift.
  destruct (prospectorindex p !! f) as [i|] eqn:Hi.
  - destruct (safe_index _ _ Hs _ _ Hi) as [x Hx].
    assert (Hget : get_info i (tick p) = Ret (x, tick p)) by (unfold get_info; monad; simpl; by rewrite Hx).
    rewrite bind_assoc, (bind_run _ _ _ _ _ Hget). case_decide as Hinv.
    + pose proof (process_unknown_run (tick p) f config fi Hst Hn Hf) as Hu. simpl in Hu. rewrite Hi in Hu. apply Hu.
      intros s y [= <-] Hy. simpl in Hy. congruence.
    + by apply (process_known_run (tick p) f config i x fi).
  - pose proof (process_unknown_run (tick p) f config fi Hst Hn Hf) as Hu. simpl in Hu. rewrite Hi in Hu. by apply Hu.
Qed.

(** ** The clean-up *)
Record clean_post (p p' : PS) (i : positive) : Prop := {
  clean_safe : safe None p';
  clean_named : named p';
  clean_iteration : iteration p' = iteration p;
  clean_prospectors : ∀ j, j ≠ i → j ∈ prospectors p → j ∈ prospectors p';
  clean_watched : watched None None p → i ∈ prospectors p → watched None None p';
}.

Lemma same_view_orphaned x o : o ≠ orphanedNo → orphaned x ≠ orphanedNo →
  pi_file (set_orphaned o x) = pi_file x ∧ info_key (set_orphaned o x) = info_key x.
Proof. done. Qed.

(** Marking an orphan again leaves the collections as consistent as before. *)
Lemma watched_orphan p p' i x o :
  watched None None p → infos p !! i = Some x → orphaned x ≠ orphanedNo → o ≠ orphanedNo →
  prospectorindex p' = prospectorindex p → prospectors p' = prospectors p → infos p' = <[i := set_orphaned o x]> (infos p) →
  watched None None p'.
Proof.
  intros [W1 W2 W3 W4] Hx Ho Hno E1 E2 E3. split; rewrite ?E1, ?E2, ?E3.
  - intros g j Hg HF. destruct (W1 g j Hg HF) as (Hj & z & Hz & Hzf & Hzo). split; [done|]. exists z.
    rewrite lookup_insert_ne; [done|]. intros <-. congruence.
  - intros j z Hj Hz Hzo HF. apply lookup_insert_Some in Hz as [[<- <-]|[Hne Hz]]; [done|eauto].
  - assert (∀ j z, <[i := set_orphaned o x]> (infos p) !! j = Some z → ∃ z', infos p !! j = Some z' ∧ info_key z' = info_key z) as Hb.
    { intros m w Hm. apply lookup_insert_Some in Hm as [[<- <-]|[_ Hm]]; eauto. }
    intros j j' z z' k Hj Hj' Hz Hz' Hk Hk'.
    destruct (Hb _ _ Hz) as (u & Hu & Huk). destruct (Hb _ _ Hz') as (u' & Hu' & Huk'). eapply (W3 j j' u u' k); congruence.
  - intros j z Hz Hr. apply lookup_insert_Some in Hz as [[<- <-]|[Hne Hz]]; eauto.
Qed.

Lemma mark_deleted_run p i x : safe None p → named p → infos p !! i = Some x → orphaned x ≠ orphanedNo →
  ∃ p', mark_deleted i p = Ret (tt, p') ∧ safe None p' ∧ named p' ∧ iteration p' = iteration p ∧
    prospectors p' = prospectors p ∧ (watched None None p → watched None None p').
Proof.
  intros Hs Hn Hx Ho. unfold mark_deleted.
  rewrite (bind_run (get_info i) _ p x p) by (unfold get_info; monad; by rewrite Hx). case_decide as Hm; [|by exists p].
  set (q := set_infos (<[i := set_orphaned orphanedYes x]> (infos p)) p).
  exists (announced (RegDeleted (Some i)) q). split; [done|]. split; [|split; [|split; [done|split; [done|]]]].
  - eapply (safe_ext _ q); [done..|]. eapply safe_put; try done. apply (safe_info _ _ Hs _ _ Hx).
  - exact (named_insert (infos p) i (set_orphaned orphanedYes x) Hn (Hn i x Hx)).
  - intros Hw. eapply (watched_orphan p _ i x orphanedYes); done.
Qed.

Lemma cleanup_one_run p i : safe None p → named p → is_Some (infos p !! i) →
  ∃ p', cleanup_one i p = Ret (tt, p') ∧ clean_post p p' i.
Proof.
  intros Hs Hn [x Hx]. unfold cleanup_one.
  rewrite (bind_run (get_info i) _ p x p) by (unfold get_info; monad; by rewrite Hx). rewrite (bind_run _ _ p p p eq_refl).
  case_decide as Ho.
  - case_decide as Hseen; [exists p; split; [done|]; by split|].
    set (q := set_infos (<[i := set_orphaned orphanedMaybe x]> (infos p)) (set_index (delete (pi_file x) (prospectorindex p)) p)).
    assert (Hsq : safe None q).
    { eapply (safe_put None (set_index _ p)); try done; [|apply (safe_info _ _ Hs _ _ Hx)].
      destruct Hs as [S1 S2 S3 S4]. split; try done. simpl. intros g j Hg. apply lookup_delete_Some in Hg as [_ Hg]. eauto. }
    assert (Hnq : named q) by exact (named_insert (infos p) i (set_orphaned orphanedMaybe x) Hn (Hn i x Hx)).
    destruct (mark_deleted_run q i (set_orphaned orphanedMaybe x) Hsq Hnq) as (p' & Hr & Hs' & Hn' & Hit & Hpr & Hw); [apply lookup_insert_eq|done|].
    exists p'. split; [by rewrite <- Hr|]. split; try done; [by rewrite Hpr|].
    intros Hp Hin. apply Hw. pose proof (watched_live _ _ _ Hp i x Hin Hx Ho) as Hidx. specialize (Hidx ltac:(done)).
    destruct (orphan_only p (pi_file x) i x orphanedMaybe Hp Hidx Hx) as [[W1 W2 W3 W4] Honly]; [done|].
    split; try done.
    + intros g j Hg _. simpl in Hg. apply lookup_delete_Some in Hg as [Hne Hg]. by apply (W1 g j Hg); congruence.
    + intros j z Hj Hz Hzo _. simpl. rewrite lookup_delete_ne; [apply (W2 j z Hj Hz Hzo); intros [= Heq]|intros Heq];
        by pose proof (Honly j z Hj Hz Hzo (eq_sym Heq)).
  - destruct (isRunning_run None p i x Hs Hx) as (b & y & p1 & Hr & Hs1 & Hst & Hy & Hb & Hoth & _ & _).
    rewrite (bind_run _ _ _ _ _ Hr). destruct (looks_dom _ _ (steady_looks _ _ Hst) _ _ Hx) as (y' & Hy' & _ & Hyo & _).
    assert (y' = y) as -> by congruence. rewrite Hyo in Ho.
    assert (Hn1 : named p1) by (by eapply named_looks, Hn; apply steady_looks).
    assert (Hw1 : watched None None p → watched None None p1) by (by apply watched_looks, steady_looks).
    destruct b.
    + destruct (mark_deleted_run p1 i y Hs1 Hn1 Hy Ho) as (p' & Hm & Hs' & Hn' & Hit & Hpr & Hw).
      exists p'. split; [by rewrite <- Hm|]. split; auto; [|].
      * rewrite Hit. apply (steady_iteration _ _ Hst).
      * intros j _. by rewrite Hpr, (looks_prospectors _ _ (steady_looks _ _ Hst)).
    + set (q := set_prospectors (prospectors p1 ∖ {[i]}) p1).
      assert (Hsq : safe None q). { destruct Hs1 as [S1 S2 S3 S4]. split; try done. simpl. set_solver. }
      destruct (mark_deleted_run q i y Hsq Hn1 Hy Ho) as (p' & Hm & Hs' & Hn' & Hit & Hpr & Hw).
      exists p'. split; [by rewrite <- Hm|]. split; auto; [| |].
      * rewrite Hit. apply (steady_iteration _ _ Hst).
      * intros j Hne. rewrite Hpr. simpl. rewrite (looks_prospectors _ _ (steady_looks _ _ Hst)). set_solver.
      * intros Hp Hin. apply Hw. destruct (Hw1 Hp) as [W1 W2 W3 W4]. split; simpl.
        -- intros g j Hg HF. destruct (W1 g j Hg HF) as (Hj & z & Hz & Hzf & Hzo). split; [|by exists z].
           apply elem_of_difference. split; [done|]. intros ->%elem_of_singleton. congruence.
        -- intros j z [Hj _]%elem_of_difference. by apply W2.
        -- intros j j' z z' k [Hj _]%elem_of_difference [Hj' _]%elem_of_difference. by apply W3.
        -- intros j z Hz Hrz. left. destruct (W4 j z Hz Hrz) as [Hj|]; [|done]. apply elem_of_difference. split; [done|].
           intros ->%elem_of_singleton. congruence.
Qed.

Lemma cleanup_run ks p : safe None p → named p → NoDup ks → (∀ i, i ∈ ks → i ∈ prospectors p) →
  ∃ p', forM_ ks cleanup_one p = Ret (tt, p') ∧ safe None p' ∧ named p' ∧ iteration p' = iteration p ∧
    (watched None None p → watched None None p').
Proof.
  revert p. induction ks as [|i ks IH]; intros p Hs Hn Hnd Hin; simpl; [by exists p|].
  apply NoDup_cons in Hnd as [Hi Hnd].
  destruct (cleanup_one_run p i Hs Hn) as (p1 & Hr & [C1 C2 C3 C4 C5]); [apply (safe_prospectors _ _ Hs), Hin; by left|].
  destruct (IH p1 C1 C2 Hnd) as (p' & Hr' & Hs' & Hn' & Hit & Hw).
  { intros j Hj. apply C4; [by intros ->|]. apply Hin. by right. }
  exists p'. split; [by rewrite (bind_run _ _ _ _ _ Hr : M_bind _ _ p = _)|]. do 2 (split; [done|]). split; [congruence|].
  intros Hp. apply Hw, C5; [done|]. apply Hin. by left.
Qed.

(** ** Traces *)

(** The calls of [processFile] that a computation makes, each with the path and the
    states before and after it: what the code does, listed. *)
Abbreviation calls := (list (text * PS * PS)).

Definition file_calls (f : text) (config : File CF) (p : PS) : calls :=
  match processFile f config p with Ret (_, p') => [(f, p, p')] | _ => [] end.

Fixpoint forM_calls {B} (bs : list B) (m : B → M PS unit) (each : B → PS → calls) (p : PS) : calls :=
  match bs with
  | [] => []
  | b :: bs' => each b p ++ match m b p with Ret (_, p') => forM_calls bs' m each p' | _ => [] end
  end.

Definition scan_calls (path : text) (config : File CF) (p : PS) : calls :=
  match path_Glob (p_tick p) path with
  | None => []
  | Some files => forM_calls files (fun f => processFile f config) (fun f => file_calls f config) (tick p)
  end.

Definition scan_all_calls (p : PS) : calls :=
  forM_calls (p_files p) (fun config => forM_ (Paths config) (fun path => scan path config))
    (fun config => forM_calls (Paths config) (fun path => scan path config) (fun path => scan_calls path config)) p.

(** The scan is the first thing [runOnce] does, after taking the time. *)
Definition runOnce_calls (p : PS) : calls :=
  scan_all_calls (set_scan (fromBeginning p) (uint32 (iteration p + 1)) (lastscan p) (tick p)).

Fixpoint Run_calls (iss : list (list delay_input)) (p : PS) : calls :=
  match iss with
  | [] => []
  | is_ :: iss' => runOnce_calls p ++ match runOnce is_ p with Ret (false, p') => Run_calls iss' p' | _ => [] end
  end.

(** No placeholder was replaced. *)
Definition displaces_b (p p' : PS) (f : text) : bool :=
  match prospectorindex p !! f with
  | Some i =>
      match infos p !! i with
      | Some x => bool_decide (status x = statusInvalid) && bool_decide (prospectorindex p' !! f ≠ Some i)
      | None => false
      end
  | None => false
  end.

Definition calm (t : calls) : bool := forallb (fun '(f, p, p') => negb (displaces_b p p' f)) t.

Lemma displaces_b_spec p p' f : displaces_b p p' f = false → ¬ displaces p p' f.
Proof.
  unfold displaces_b. intros Hd (i & x & Hi & Hx & Hst & Hne). rewrite Hi, Hx, !bool_decide_eq_true_2 in Hd by done. done.
Qed.

Lemma calm_app t t' : calm (t ++ t') = true ↔ calm t = true ∧ calm t' = true.
Proof. unfold calm. by rewrite forallb_app, andb_true_iff. Qed.

(** After every one of these calls the collections are in order. *)
Definition settled (t : calls) : Prop := Forall (fun '(_, _, p') => safe None p' ∧ watched None None p') t.

(** A computation that always returns, making these calls. *)
Definition goes {A} (p : PS) (m : M PS A) (t : calls) (Q : A → PS → Prop) : Prop :=
  ∃ a p', m p = Ret (a, p') ∧ safe None p' ∧ named p' ∧
    (calm t = true → watched None None p → watched None None p' ∧ settled t) ∧ Q a p'.

Lemma goes_bind {A B} p (m : M PS A) (k : A → M PS B) t t' Q R' :
  goes p m t Q → (∀ a p', m p = Ret (a, p') → safe None p' → named p' → Q a p' → goes p' (k a) t' R') → goes p (m ≫= k) (t ++ t') R'.
Proof.
  intros (a & p1 & Hr & Hs & Hn & Hw & HQ) Hk. destruct (Hk a p1 Hr Hs Hn HQ) as (b & p2 & Hr' & Hs' & Hn' & Hw' & HR).
  exists b, p2. split; [by rewrite (bind_run _ _ _ _ _ Hr)|]. do 2 (split; [done|]). split; [|done].
  intros [Hc Hc']%calm_app Hp. destruct (Hw Hc Hp) as [Hp1 Ht]. destruct (Hw' Hc' Hp1) as [Hp2 Ht']. split; [done|]. by apply Forall_app.
Qed.

(** Before and after the calls. *)
Lemma goes_before {A B} p (m : M PS A) (k : A → M PS B) t Q R' :
  goes p m [] Q → (∀ a p', m p = Ret (a, p') → safe None p' → named p' → Q a p' → goes p' (k a) t R') → goes p (m ≫= k) t R'.
Proof. apply (goes_bind p m k [] t). Qed.

Lemma goes_after {A B} p (m : M PS A) (k : A → M PS B) t Q R' :
  goes p m t Q → (∀ a p', safe None p' → named p' → Q a p' → goes p' (k a) [] R') → goes p (m ≫= k) t R'.
Proof. intros Hm Hk. rewrite <-(app_nil_r t). eapply goes_bind; [done|]. eauto. Qed.

Lemma goes_other {A} p (m : M PS A) a p' (Q : A → PS → Prop) : safe None p → named p → m p = Ret (a, p') →
  prospectorindex p' = prospectorindex p → prospectors p' = prospectors p → infos p' = infos p → harvesters p' = harvesters p →
  Q a p' → goes p m [] Q.
Proof.
  intros Hs Hn Hm E1 E2 E3 E4 HQ. exists a, p'. split; [done|]. split; [by eapply (safe_ext _ p)|]. split; [unfold named; by rewrite E3|].
  split; [|done]. intros _ Hw. split; [by eapply (watched_ext _ _ p)|by constructor].
Qed.

Context (path_Glob_named : ∀ n path fs f, path_Glob n path = Some fs → f ∈ fs → f ≠ []).

Lemma goes_processFile f config p : safe None p → named p → f ≠ [] → goes p (processFile f config) (file_calls f config p) (fun _ _ => True).
Proof.
  intros Hs Hn Hf. destruct (processFile_run p f config Hs Hn Hf) as (p' & Hr & [P1 P2 P3 P4]).
  exists tt, p'. split; [done|]. do 2 (split; [done|]). split; [|done]. unfold file_calls. rewrite Hr.
  intros [Hc _]%andb_true_iff Hw. assert (Hw' : watched None None p') by (apply P4; [done|]; by apply displaces_b_spec, negb_true_iff).
  split; [done|]. by constructor.
Qed.

Lemma goes_forM {B} (bs : list B) (m : B → M PS unit) each p : safe None p → named p →
  (∀ b q, b ∈ bs → safe None q → named q → goes q (m b) (each b q) (fun _ _ => True)) →
  goes p (forM_ bs m) (forM_calls bs m each p) (fun _ _ => True).
Proof.
  revert p. induction bs as [|b bs IH]; intros p Hs Hn Hm; simpl; [by eapply (goes_other p (M_ret tt))|].
  destruct (Hm b p) as (a & q & Hr & Hq); [by left|done..|]. rewrite Hr.
  eapply (goes_bind p (m b)); [exists a, q; split; [exact Hr|exact Hq]|]. intros a' p' Hr' Hs' Hn' _.
  rewrite Hr in Hr'. injection Hr' as <- <-. apply IH; [done..|]. intros b' q' Hb. apply Hm. by right.
Qed.

Lemma goes_scan path config p : safe None p → named p → goes p (scan path config) (scan_calls path config p) (fun _ _ => True).
Proof.
  intros Hs Hn. unfold scan.
  eapply (goes_before _ _ _ _ (fun r q => r = path_Glob (p_tick p) path ∧ q = tick p)); [by eapply goes_other|].
  intros r q _ Hsq Hnq [-> ->]. unfold scan_calls. destruct (path_Glob (p_tick p) path) as [fs|] eqn:E; [|by eapply goes_other].
  apply goes_forM; [done..|]. intros f q' Hf ? ?. apply goes_processFile; [done..|]. by eapply path_Glob_named.
Qed.

Lemma goes_scan_all p : safe None p → named p → goes p scan_all (scan_all_calls p) (fun _ _ => True).
Proof.
  intros Hs Hn. eapply (goes_before _ _ _ _ (fun a q => a = p ∧ q = p)); [by eapply goes_other|]. intros q0 q _ Hsq Hnq [-> ->].
  unfold scan_all_calls. apply (goes_forM (p_files p)); [done..|]. intros config q1 _ ? ?. apply (goes_forM (Paths config)); [done..|].
  intros path q2 _ ? ?. by apply goes_scan.
Qed.

Lemma goes_run_scan p : safe None p → named p → goes p run_scan (runOnce_calls p) (fun _ _ => True).
Proof.
  intros Hs Hn. unfold run_scan.
  eapply (goes_before _ _ _ _ (fun _ q => q = tick p)); [by eapply goes_other|]. intros now q1 _ Hs1 Hn1 ->.
  eapply (goes_before _ _ _ _ (fun _ q => q = set_scan (fromBeginning p) (uint32 (iteration p + 1)) (lastscan p) (tick p))); [by eapply goes_other|].
  intros [] q2 _ Hs2 Hn2 ->.
  eapply (goes_after _ _ _ _ (fun _ _ => True)); [by apply goes_scan_all|]. intros [] q3 Hs3 Hn3 _.
  eapply (goes_before _ _ _ _ (fun _ _ => True)); [by eapply goes_other|]. intros [] q4 _ Hs4 Hn4 _.
  eapply (goes_before _ _ _ _ (fun ks q => NoDup ks ∧ ∀ i, i ∈ ks → i ∈ prospectors q)).
  { eapply goes_other; [done..|]. rewrite range_infos_perm. split; [apply NoDup_elements|]. intros i. rewrite range_infos_perm. by rewrite elem_of_elements. }
  intros ks q5 _ Hs5 Hn5 [Hnd Hin].
  eapply (goes_before _ _ _ _ (fun _ _ => True)).
  { destruct (cleanup_run ks q5 Hs5 Hn5 Hnd Hin) as (q6 & Hr & Hs6 & Hn6 & _ & Hw). exists tt, q6.
    split; [done|]. do 2 (split; [done|]). split; [|done]. intros _ Hw5. split; [by apply Hw|by constructor]. }
  intros [] q6 _ Hs6 Hn6 _.
  eapply (goes_before _ _ _ _ (fun _ _ => True)); [by eapply goes_other|]. intros [] q7 _ Hs7 Hn7 _. by eapply goes_other.
Qed.

Lemma goes_runOnce is_ p : safe None p → named p → goes p (runOnce is_) (runOnce_calls p) (fun _ _ => True).
Proof.
  intros Hs Hn. unfold runOnce.
  eapply (goes_after _ _ _ _ (fun _ _ => True)); [by apply goes_run_scan|]. intros [] q1 Hs1 Hn1 _.
  eapply (goes_before _ _ _ _ (fun _ _ => True)); [by eapply goes_other|]. intros now q2 _ Hs2 Hn2 _.
  eapply (goes_before _ _ _ _ (fun _ _ => True)); [by eapply goes_other|]. intros q0 q3 _ Hs3 Hn3 _.
  generalize (now + ProspectInterval_ q0)%Z. intros deadline. clear q0 q1 q2 p Hs Hn Hs1 Hs2 Hn1 Hn2.
  revert q3 Hs3 Hn3. induction is_ as [|[| |files interval] is_ IH]; intros p Hs Hn; simpl; [by eapply goes_other..|].
  eapply (goes_before _ _ _ _ (fun _ _ => True)); [by eapply goes_other|]. intros [] q1 _ Hs1 Hn1 _.
  eapply (goes_before _ _ _ _ (fun _ _ => True)); [by eapply goes_other|]. intros n q2 _ Hs2 Hn2 _.
  case_decide; [by eapply goes_other|]. by apply IH.
Qed.

(** ** The shutdown *)

(** Launches that differ at most in being asked to stop; only those of [S] do. *)
Definition stopped_only (S : gset positive) (hs hs' : gmap positive (launch FI)) : Prop :=
  ∀ h, match hs !! h, hs' !! h with
       | Some l, Some l' => l_stream l' = l_stream l ∧ l_done l' = l_done l ∧ l_fileinfo l' = l_fileinfo l ∧
           (l_stream l ∉ S → l_stopped l' = l_stopped l)
       | None, None => True
       | _, _ => False
       end.

Lemma stop_all_run ks S p q : safe None p → NoDup ks → (∀ i, i ∈ ks → i ∈ prospectors p ∧ i ∉ S) →
  infos q = infos p → prospectors q = prospectors p → stopped_only S (harvesters p) (harvesters q) →
  ∃ S' q', forM_ ks stop q = Ret (tt, q') ∧ infos q' = infos p ∧ prospectors q' = prospectors p ∧ stopped_only S' (harvesters p) (harvesters q').
Proof.
  intros Hs. revert S q. induction ks as [|i ks IH]; intros S q Hnd Hks Hi Hp Hst; [by exists S, q|].
  apply NoDup_cons in Hnd as [Hiks Hnd]. destruct (Hks i) as [Hin HiS]; [by left|].
  destruct (safe_prospectors _ _ Hs _ Hin) as [x Hx].
  assert (Hstep : ∃ q1, stop i q = Ret (tt, q1) ∧ infos q1 = infos p ∧ prospectors q1 = prospectors p ∧ stopped_only ({[i]} ∪ S) (harvesters p) (harvesters q1)).
  { unfold stop. rewrite (bind_run (get_info i) _ q x q) by (unfold get_info; monad; by rewrite Hi, Hx).
    assert (Hmore : stopped_only ({[i]} ∪ S) (harvesters p) (harvesters q)).
    { intros h. specialize (Hst h). destruct (harvesters p !! h), (harvesters q !! h); try done. destruct Hst as (? & ? & ? & Hstop).
      repeat (split; [done|]). intros Hni. apply Hstop. set_solver. }
    destruct (running x) eqn:Hr; simpl; [|by exists q].
    pose proof (safe_info _ _ Hs _ _ Hx) as Hok. unfold info_ok in Hok. case_decide; [naive_solver congruence|].
    destruct Hok as (id & _ & _ & Hok). destruct (Hok Hr) as (_ & h & l & fi & Hh & Hl & Hli & Hd & Hsl & _). rewrite Hh. monad.
    pose proof (Hst h) as Hsth. rewrite Hl in Hsth. destruct (harvesters q !! h) as [l'|] eqn:Hl'; [|done].
    destruct Hsth as (E1 & E2 & E3 & E4). unfold stop_harvester. monad. rewrite Hl'. monad. rewrite E4, Hsl by congruence.
    eexists. split; [reflexivity|]. do 2 (split; [done|]). intros k. simpl. destruct (decide (h = k)) as [<-|Hne].
    - rewrite Hl, lookup_insert_eq. simpl. repeat (split; [done|]). rewrite Hli. set_solver.
    - rewrite lookup_insert_ne by done. apply Hmore. }
  destruct Hstep as (q1 & Hr & Hi1 & Hp1 & Hst1).
  destruct (IH ({[i]} ∪ S) q1) as (S' & q' & Hr' & ?); try done.
  { intros j Hj. destruct (Hks j) as [? ?]; [by right|]. split; [done|]. assert (j ≠ i) by (by intros ->). set_solver. }
  exists S', q'. split; [|done]. simpl. by rewrite (bind_run _ _ _ _ _ Hr : M_bind _ _ q = _).
Qed.

(** While the harvesters are awaited. *)
Record waiting (p : PS) : Prop := {
  waiting_dom : ∀ i, i ∈ prospectors p → is_Some (infos p !! i);
  waiting_info : ∀ i x, infos p !! i = Some x → running x = true →
    is_Some (identity x) ∧ ∃ h l, pi_harvester x = Some h ∧ harvesters p !! h = Some l ∧ l_stream l = i;
  waiting_launch : ∀ h l, harvesters p !! h = Some l → l_done l = false →
    ∃ x, infos p !! l_stream l = Some x ∧ running x = true ∧ pi_harvester x = Some h;
}.

Lemma wait_run p i : waiting p → is_Some (infos p !! i) →
  ∃ p', wait i p = Ret (tt, p') ∧ waiting p' ∧ prospectors p' = prospectors p ∧
    (∀ j y, infos p' !! j = Some y → running y = true → j ≠ i ∧ infos p !! j = Some y).
Proof.
  intros [W1 W2 W3] [x Hx]. unfold wait.
  rewrite (bind_run (get_info i) _ p x p) by (unfold get_info; monad; by rewrite Hx).
  destruct (running x) eqn:Hr; simpl.
  2: { exists p. do 3 (split; [done|]). intros j y Hy Hry. split; [|done]. intros ->. congruence. }
  destruct (W2 i x Hx Hr) as (Hid & h & l & Hh & Hl & Hli). rewrite Hh. monad. rewrite Hl. monad.
  unfold p_ask, finished. monad. rewrite (setHarvesterStopped_known _ x Hid). monad.
  eexists. split; [reflexivity|]. split; [split; simpl|split; [done|]].
  - intros j Hj. destruct (decide (i = j)) as [<-|]; [rewrite lookup_insert_eq; eauto|rewrite lookup_insert_ne by done; eauto].
  - intros j y Hy Hry. apply lookup_insert_Some in Hy as [[<- <-]|[Hne Hy]]; [done|]. destruct (W2 j y Hy Hry) as (Hidy & h' & l' & Hh' & Hl' & Hlj).
    split; [done|]. exists h', l'. split; [done|]. split; [|done]. rewrite lookup_alter_ne; [done|]. intros <-. congruence.
  - intros h' l' Hl' Hd. destruct (decide (h = h')) as [<-|Hne].
    { rewrite lookup_alter_eq, Hl in Hl'. by injection Hl' as <-. }
    rewrite lookup_alter_ne in Hl' by done. destruct (W3 h' l' Hl' Hd) as (y & Hy & Hry & Hhy). exists y.
    rewrite lookup_insert_ne; [done|]. intros Hi. rewrite <- Hi in Hy. congruence.
  - simpl. intros j y Hy Hry. apply lookup_insert_Some in Hy as [[<- <-]|[Hne Hy]]; [done|]. done.
Qed.

Lemma wait_all_run ks p : waiting p → (∀ i, i ∈ ks → i ∈ prospectors p) →
  ∃ p', forM_ ks wait p = Ret (tt, p') ∧ waiting p' ∧
    (∀ j y, infos p' !! j = Some y → running y = true → (j ∉ ks) ∧ infos p !! j = Some y).
Proof.
  revert p. induction ks as [|i ks IH]; intros p Hw Hks; simpl.
  { exists p. do 2 (split; [done|]). intros j y Hy _. split; [apply not_elem_of_nil|done]. }
  destruct (wait_run p i Hw) as (p1 & Hr & Hw1 & Hp1 & Hrun); [apply (waiting_dom _ Hw), Hks; by left|].
  destruct (IH p1 Hw1) as (p' & Hr' & Hw' & Hrun'); [intros j Hj; rewrite Hp1; apply Hks; by right|].
  exists p'. split; [by rewrite (bind_run _ _ _ _ _ Hr : M_bind _ _ p = _)|]. split; [done|].
  intros j y Hy Hry. destruct (Hrun' j y Hy Hry) as [Hj Hy1]. destruct (Hrun j y Hy1 Hry) as [Hne Hy0]. split; [|done].
  apply not_elem_of_cons. done.
Qed.

Lemma shutdown_run p : safe None p →
  ∃ p', shutdown p = Ret (tt, p') ∧ (watched None None p → ∀ h l, harvesters p' !! h = Some l → l_done l = true).
Proof.
  intros Hs. unfold shutdown. set (ks := range_infos (p_tick p) (elements (prospectors p))).
  assert (Hks : NoDup ks ∧ ∀ i, i ∈ ks ↔ i ∈ prospectors p).
  { split; [unfold ks; rewrite range_infos_perm; apply NoDup_elements|]. intros i. unfold ks. rewrite range_infos_perm. by rewrite elem_of_elements. }
  rewrite (bind_run _ _ p ks (tick p) eq_refl).
  destruct (stop_all_run ks ∅ p (tick p)) as (S & q & Hr & Hi & Hp & Hst); try done; [apply Hks| | |].
  { intros i Hin. split; [by apply Hks|set_solver]. }
  { intros h. simpl. destruct (harvesters p !! h); done. }
  rewrite (bind_run _ _ _ _ _ Hr). set (ks' := range_infos (p_tick q) (elements (prospectors q))).
  assert (Hks' : ∀ i, i ∈ ks' ↔ i ∈ prospectors p).
  { intros i. unfold ks'. rewrite range_infos_perm, elem_of_elements. by rewrite Hp. }
  rewrite (bind_run _ _ q ks' (tick q) eq_refl).
  assert (Hw : waiting (tick q)).
  { split; simpl; rewrite ?Hi, ?Hp.
    - apply (safe_prospectors _ _ Hs).
    - intros i x Hx Hrx. pose proof (safe_info _ _ Hs _ _ Hx) as Hok. unfold info_ok in Hok. case_decide; [naive_solver congruence|].
      destruct Hok as (id & Hid & _ & Hok). destruct (Hok Hrx) as (_ & h & l & fi & Hh & Hl & Hli & _).
      specialize (Hst h). rewrite Hl in Hst. destruct (harvesters q !! h) as [l'|] eqn:E; [|done]. split; [by exists id|]. exists h, l'.
      repeat (split; [done|]). destruct Hst as [-> _]. done.
    - intros h l' Hl' Hd. specialize (Hst h). rewrite Hl' in Hst. destruct (harvesters p !! h) as [l|] eqn:E; [|done].
      destruct Hst as (E1 & E2 & _). rewrite E1. apply (safe_launch _ _ Hs h l E). congruence. }
  destruct (wait_all_run ks' (tick q) Hw) as (q' & Hr' & Hw' & Hrun).
  { intros i. simpl. rewrite Hp. apply Hks'. }
  rewrite (bind_run _ _ _ _ _ Hr'). eexists. split; [reflexivity|]. intros Hwp h l. simpl. intros Hl.
  destruct (l_done l) eqn:Hd; [done|]. destruct (waiting_launch _ Hw' h l Hl Hd) as (x & Hx & Hrx & _).
  destruct (Hrun _ _ Hx Hrx) as [Hni Hx0]. simpl in Hx0. rewrite Hi in Hx0.
  destruct (watched_running _ _ _ Hwp _ _ Hx0 Hrx) as [Hin|]; [|done]. by apply Hks' in Hin.
Qed.

(** ** Whole runs *)
Lemma Run_run iss p : safe None p → named p →
  ∃ b p', Run iss p = Ret (b, p') ∧
    (calm (Run_calls iss p) = true → watched None None p → settled (Run_calls iss p) ∧
      if b then ∀ h l, harvesters p' !! h = Some l → l_done l = true else safe None p' ∧ watched None None p').
Proof.
  revert p. induction iss as [|is_ iss IH]; intros p Hs Hn; cbn [Run Run_calls].
  { exists false, p. split; [done|]. intros _ Hw. split; [by constructor|done]. }
  destruct (goes_runOnce is_ p Hs Hn) as (last & q & Hr & Hsq & Hnq & Hw & _).
  rewrite (bind_run _ _ _ _ _ Hr), Hr. destruct last.
  - destruct (shutdown_run q Hsq) as (q' & Hr' & Hdone). rewrite (bind_run _ _ _ _ _ Hr'). rewrite app_nil_r.
    exists true, q'. split; [done|]. intros Hc Hp. destruct (Hw Hc Hp) as [Hq Ht]. split; [done|]. by apply Hdone.
  - destruct (IH q Hsq Hnq) as (b & p' & Hr' & Hw'). exists b, p'. split; [done|].
    intros [Hc Hc']%calm_app Hp. destruct (Hw Hc Hp) as [Hq Ht]. destruct (Hw' Hc' Hq) as [Ht' Hb]. split; [by apply Forall_app|done].
Qed.

(** What [LoadPrevious] leaves: entries to resume. *)
Record loaded (previous : list (text * FileState)) (p : PS) : Prop := {
  loaded_index : ∀ f i, prospectorindex p !! f = Some i →
    ∃ st, (f, st) ∈ previous ∧ infos p !! i = Some (newProspectorInfoFromFileState f st);
  loaded_infos : ∀ i x, infos p !! i = Some x → ∃ f st, (f, st) ∈ previous ∧ x = newProspectorInfoFromFileState f st;
  loaded_rest : prospectors p = ∅ ∧ harvesters p = ∅;
  loaded_all : ∀ f st, (f, st) ∈ previous → is_Some (prospectorindex p !! f);
}.

Lemma load_all_run previous before p : loaded before p →
  ∃ p', forM_ previous (fun '(file, state) => loadCallback file state;; mret tt) p = Ret (tt, p') ∧ loaded (before ++ previous) p'.
Proof.
  clear path_Glob_named.
  revert before p. induction previous as [|[f st] previous IH]; intros before p Hl; simpl; [exists p; by rewrite app_nil_r|].
  set (i := fresh (dom (infos p))). set (x := newProspectorInfoFromFileState f st : info).
  set (p1 := set_index (<[f := i]> (prospectorindex p)) (set_infos (<[i := x]> (infos p)) p)).
  destruct (IH (before ++ [(f, st)]) p1) as (p' & Hr & Hl').
  { destruct Hl as [L1 L2 L3 L4]. split; simpl; [| |done|].
    - intros g j Hg. apply lookup_insert_Some in Hg as [[<- <-]|[Hne Hg]].
      + exists st. rewrite lookup_insert_eq. split; [set_solver|done].
      + destruct (L1 g j Hg) as (st' & Hin & Hx). exists st'. split; [set_solver|]. rewrite lookup_insert_ne; [done|].
        intros <-. by eapply fresh_info.
    - intros j y Hy. apply lookup_insert_Some in Hy as [[<- <-]|[Hne Hy]]; [exists f, st; split; [set_solver|done]|].
      destruct (L2 j y Hy) as (f' & st' & ? & ?). exists f', st'. split; [set_solver|done].
    - intros g st' Hg. destruct (decide (f = g)) as [<-|Hne]; [rewrite lookup_insert_eq; eauto|].
      rewrite lookup_insert_ne by done. apply (L4 g st'). apply elem_of_app in Hg as [?|[= -> ->]%list_elem_of_singleton]; done. }
  exists p'. rewrite (bind_run (loadCallback f st;; mret tt) _ p tt p1 eq_refl : M_bind _ _ p = _). split; [done|]. by rewrite <- (assoc_L app) in Hl'.
Qed.

Lemma loaded_safe previous p : loaded previous p → (∀ f st, (f, st) ∈ previous → f ≠ []) →
  ∀ P, (∀ i, i ∈ P → ∃ f, prospectorindex p !! f = Some i) → safe None (set_prospectors P p) ∧ named (set_prospectors P p).
Proof.
  intros [L1 L2 [_ L3] _] Hf P HP. split; [split; simpl|].
  - intros f i Hi. destruct (L1 f i Hi) as (st & _ & ->). eauto.
  - intros i Hi. destruct (HP i Hi) as [f Hfi]. destruct (L1 f i Hfi) as (st & _ & ->). eauto.
  - intros i x Hx. destruct (L2 i x Hx) as (f & st & _ & ->). unfold info_ok. simpl. exists (IdState st). done.
  - intros h l. by rewrite L3, lookup_empty.
  - intros i x Hx. destruct (L2 i x Hx) as (f & st & Hin & ->). split; [by eapply Hf|done].
Qed.

Lemma init_run files interval fb spool previous result : (∀ f st, (f, st) ∈ previous → f ≠ []) →
  ∃ r p, init previous result (NewProspector files interval fb spool) = Ret (r, p) ∧ safe None p ∧ named p ∧
    ((result = inr true ∨ previous = []) →
     (∀ f st g st', (f, st) ∈ previous → (g, st') ∈ previous → id_key (IdState st) = id_key (IdState st') → f = g) →
     watched None None p).
Proof.
  intros Hf. destruct (load_all_run previous [] (NewProspector files interval fb spool)) as (p & Hr & Hl).
  { split; [|by intros i x|done|by intros f st ?%not_elem_of_nil]. by intros f i. }
  simpl in Hl. unfold init. rewrite (bind_run _ _ _ _ _ Hr). pose proof Hl as [L1 L2 [L3 L4] _].
  destruct (loaded_safe previous p Hl Hf (prospectors p)) as [Hs Hn]; [rewrite L3; set_solver|].
  assert (Hempty : previous = [] → watched None None p).
  { intros ->. split; rewrite ?L3.
    - intros g i Hg. destruct (L1 g i Hg) as (st & ?%not_elem_of_nil & _). done.
    - intros i x Hi. by apply elem_of_empty in Hi.
    - intros i j x y k Hi. by apply elem_of_empty in Hi.
    - intros i x Hx Hrx. destruct (L2 i x Hx) as (f & st & ?%not_elem_of_nil & _). done. }
  destruct result as [e|[|]].
  - eexists _, _. split; [reflexivity|]. split; [by eapply (safe_ext _ _ p) in Hs|]. split; [done|]. intros [?| ->]; [done|]. auto.
  - set (P := prospectors p ∪ list_to_set (snd <$> map_to_list (prospectorindex p)) : gset positive).
    assert (HP : ∀ i, i ∈ P ↔ ∃ f, prospectorindex p !! f = Some i).
    { intros i. unfold P. rewrite L3, elem_of_union, elem_of_list_to_set, list_elem_of_fmap. split.
      - intros [Hi|((f & j) & -> & Hin)]; [set_solver|]. exists f. by apply elem_of_map_to_list.
      - intros [f Hi]. right. exists (f, i). split; [done|]. by apply elem_of_map_to_list. }
    destruct (loaded_safe previous p Hl Hf P) as [Hs' Hn']; [by intros i Hi%HP|].
    eexists _, _. split; [reflexivity|]. split; [by eapply (safe_ext _ (set_prospectors P p))|]. split; [done|]. intros _ Hkey.
    split; simpl; fold P.
    + intros g i Hg _. split; [apply HP; eauto|]. destruct (L1 g i Hg) as (st & _ & Hx). by exists (newProspectorInfoFromFileState g st).
    + intros i x [f Hi]%HP Hx _ _. destruct (L1 f i Hi) as (st & _ & Hx'). rewrite Hx in Hx'. by injection Hx' as ->.
    + intros i j x y k [f Hi]%HP [g Hj]%HP Hx Hy Hkx Hky. destruct (L1 f i Hi) as (st & Hin & Hx'). destruct (L1 g j Hj) as (st' & Hin' & Hy').
      rewrite Hx in Hx'. rewrite Hy in Hy'. injection Hx' as ->. injection Hy' as ->.
      assert (f = g) as ->; [|congruence]. eapply Hkey; [done..|]. unfold info_key in *. simpl in *. congruence.
    + intros i x Hx Hrx. destruct (L2 i x Hx) as (f & st & _ & ->). done.
  - eexists _, _. split; [reflexivity|]. split; [by eapply (safe_ext _ _ p) in Hs|]. split; [done|]. intros [?| ->]; [done|]. auto.
Qed.
End Props.
