(* ===== verification/ProspectorProps.v ===== *)
(** * lc-lib/prospector: the theorems

    About whole runs of the prospector, from the state the registrar loaded, over
    every behaviour of the file system. *)
From S2P Require Import Prelude Core Codecs Registrar Config Prospector ProspectorInv.

Section Theorems.
Context {CF FI R : Type} `{Watch FI} `{Env} `{EventSpooler R (RegEvent (FileInfo := FI))}.
Context (path_Glob_named : ∀ n path fs f, path_Glob n path = Some fs → f ∈ fs → f ≠ []).
Abbreviation PS := (Prospector CF FI R).
Implicit Types (p q : PS).

(** C21. The prospector never dereferences nil, closes a closed channel or gets
    stuck: from any loaded state, with any behaviour of the file system, the
    harvesters and the configuration reloads, every run returns. *)
Theorem prospector_total files interval fb (spool : R) previous result iss :
  (∀ f st, (f, st) ∈ previous → f ≠ []) →
  ∃ r p, init previous result (NewProspector files interval fb spool) = Ret (r, p : PS) ∧ ∃ b p', Run iss p = Ret (b, p').
Proof.
  intros Hf. destruct (init_run path_Glob_named files interval fb spool previous result Hf) as (r & p & Hr & Hs & Hn & _).
  exists r, p. split; [done|]. destruct (Run_run path_Glob_named iss p Hs Hn) as (b & p' & Hrun & _). eauto.
Qed.

(** No two harvesters that have not finished read the same file. *)
Definition one_each p : Prop :=
  ∀ h h' l l' fi fi', harvesters p !! h = Some l → harvesters p !! h' = Some l' →
    l_done l = false → l_done l' = false → l_fileinfo l = Some fi → l_fileinfo l' = Some fi' →
    file_key fi = file_key fi' → h = h'.

Lemma watched_one_each p : safe None p → watched None None p → one_each p.
Proof.
  intros Hs Hw h h' l l' fi fi' Hl Hl' Hd Hd' Hfi Hfi' Hk.
  assert (Hown : ∀ h l fi, harvesters p !! h = Some l → l_done l = false → l_fileinfo l = Some fi →
    ∃ i x, infos p !! i = Some x ∧ i ∈ prospectors p ∧ pi_harvester x = Some h ∧ info_key x = Some (file_key fi)).
  { intros g m f1 Hm Hmd Hmf. destruct (safe_launch _ _ Hs g m Hm Hmd) as (x & Hx & Hrx & Hgx).
    exists (l_stream m), x. split; [done|]. split; [by destruct (watched_running _ _ _ Hw _ _ Hx Hrx)|]. split; [done|].
    destruct (running_key None p (l_stream m) x g Hs Hx Hrx Hgx) as (m' & f2 & Hm' & Hf2 & Hk2).
    assert (m' = m) as -> by congruence. assert (f2 = f1) as -> by congruence. done. }
  destruct (Hown h l fi Hl Hd Hfi) as (i & x & Hx & Hi & Hh1 & Hk1). destruct (Hown h' l' fi' Hl' Hd' Hfi') as (j & y & Hy & Hj & Hh2 & Hk2).
  assert (i = j) as -> by (apply (watched_key _ _ _ Hw i j x y (file_key fi)); congruence). congruence.
Qed.

(** C20. In a run in which no path whose entry was an error placeholder gets another
    entry, two harvesters that have not finished never read the same file, however
    files are renamed, rotated, linked or replaced: not after any call of
    [processFile] of the run, and not at its end; and after a shutdown every
    harvester has been awaited.  The calls are those the run makes
    ([Run_calls]), and whether it is such a run can be computed from them. *)
Theorem one_harvester_per_file files interval fb (spool : R) previous result iss r p b p' :
  (∀ f st, (f, st) ∈ previous → f ≠ []) →
  (result = inr true ∨ previous = []) →
  (∀ f st g st', (f, st) ∈ previous → (g, st') ∈ previous → (Device st, Inode st) = (Device st', Inode st') → f = g) →
  init previous result (NewProspector files interval fb spool) = Ret (r, p : PS) →
  Run iss p = Ret (b, p') → calm (Run_calls iss p) = true →
  Forall (fun '(_, _, q) => one_each q) (Run_calls iss p) ∧
  if b then ∀ h l, harvesters p' !! h = Some l → l_done l = true else one_each p'.
Proof.
  intros Hf Hres Hkey Hinit Hrun Hcalm.
  destruct (init_run path_Glob_named files interval fb spool previous result Hf) as (r' & p0 & Hr & Hs & Hn & Hw).
  rewrite Hinit in Hr. injection Hr as <- <-. specialize (Hw Hres Hkey).
  destruct (Run_run path_Glob_named iss p Hs Hn) as (b' & p1 & Hr & Hall).
  rewrite Hrun in Hr. injection Hr as <- <-. destruct (Hall Hcalm Hw) as [Ht Hb]. split.
  - eapply Forall_impl; [exact Ht|]. intros [[f q0] q] [? ?]. by apply watched_one_each.
  - destruct b; [done|]. destruct Hb. by apply watched_one_each.
Qed.

(** C22. A file that was renamed is recognised: its entry moves to the new path
    with its harvester, nothing is started, and the registrar is told the name. *)
Theorem rename_followed p f config fi i x :
  safe None p → watched None None p → named p → f ≠ [] →
  prospectorindex p !! f = None → os_Stat (p_tick p) f = inr fi → fi_IsDir fi = false →
  i ∈ prospectors p → infos p !! i = Some x → info_key x = Some (file_key fi) → lastSeen x ≠ iteration p → running x = true →
  (∀ n h l, poll_finish n h l = None) →
  ∃ p' y, processFile f config p = Ret (tt, p') ∧ safe None p' ∧ watched None None p' ∧
    prospectorindex p' !! f = Some i ∧ (∀ g, g ≠ f → prospectorindex p' !! g ≠ Some i) ∧
    infos p' !! i = Some y ∧ pi_file y = f ∧ orphaned y = orphanedNo ∧ pi_harvester y = pi_harvester x ∧ running y = true ∧
    harvesters p' = harvesters p ∧ p_spool p' = spool_Add (RegRenamed (Some i) f) (p_spool p).
Proof.
  intros Hs Hw Hn Hf Hidx Hstat Hdir Hi Hx Hk Hseen Hrun Hpoll.
  destruct (processFile_run p f config Hs Hn Hf) as (p' & Hr & [P1 P2 P3 P4]).
  assert (Hw' : watched None None p') by (apply P4; [done|]; intros (s & y & Hsi & _); congruence).
  assert (Hne : ¬ (orphaned x = orphanedNo ∧ pi_file x = f)).
  { intros [Ho Hxf]. pose proof (watched_live _ _ _ Hw i x Hi Hx Ho) as Hlive. rewrite Hxf, Hidx in Hlive. by discriminate Hlive. }
  assert (Hl : lookupFileIds f fi (tick p) = Ret ((pi_file x, Some i), detach i x (tick (tick p)))).
  { destruct (lookupFileIds_run f fi (tick p)) as (r & q & Hlr & Hres); [by eapply (safe_ext _ p)|]. rewrite Hlr.
    inversion Hres as [Hno|j y Hj Hy Hky Hsy|j y Hj Hy Hky Hsy Hny]; subst; simpl in *; rewrite ?elem_of_elements in *.
    - destruct Hne. eapply Hno; [|done..]. by rewrite elem_of_elements.
    - assert (j = i) as -> by (by eapply (watched_key _ _ _ Hw j i y x)). congruence.
    - assert (j = i) as -> by (by eapply (watched_key _ _ _ Hw j i y x)). congruence. }
  assert (Hs2 : safe None (detach i x (tick (tick p)))) by (apply detach_safe; [by eapply (safe_ext _ p)|done]).
  set (q := detach i x (tick (tick p))) in *.
  set (x0 := if decide (orphaned x = orphanedNo) then x else set_orphaned orphanedNo x).
  assert (Hq : infos q !! i = Some x0 ∧ harvesters q = harvesters p ∧ p_spool q = p_spool p ∧ iteration q = iteration p).
  { unfold q, x0, detach. case_decide; simpl; [done|]. by rewrite lookup_insert_eq. }
  destruct Hq as (Hx0 & Hhq & Hspq & Hitq).
  assert (Hx0' : running x0 = true ∧ pi_harvester x0 = pi_harvester x ∧ orphaned x0 = orphanedNo ∧ identity x0 = identity x ∧ pi_file x0 = pi_file x)
    by (unfold x0; by case_decide).
  destruct Hx0' as (Hr0 & Hh0 & Ho0 & Hid0 & Hf0).
  pose proof (safe_info _ _ Hs _ _ Hx) as Hok. unfold info_ok in Hok. case_decide as Hinv; [naive_solver congruence|].
  destruct Hok as (id & Hid & _ & Hok). destruct (Hok Hrun) as (_ & h & l & fi0 & Hh & Hlh & _).
  set (y0 := set_pi_file f x0). set (y := updated (Some (IdInfo fi)) (iteration p) y0).
  set (q3 := set_prospectors ({[i]} ∪ prospectors q) (announced (RegRenamed (Some i) f) (set_infos (<[i := y0]> (infos q)) q))).
  assert (Hq3 : infos q3 !! i = Some y0 ∧ harvesters q3 = harvesters p ∧ iteration q3 = iteration p) by (split; [apply lookup_insert_eq|done]).
  destruct Hq3 as (Hy0 & Hh3 & Hit3).
  set (q4 := set_index (<[f := i]> (prospectorindex q3)) (set_infos (<[i := y]> (infos q3)) (tick q3))).
  assert (Hlink : (link_renamed f i;; prospectors_add i;; mret (Some i)) q = Ret (Some i, q3)).
  { unfold link_renamed, get_info, put_info, registrar_Add, prospectors_add. monad. by rewrite Hx0. }
  assert (Hseen' : process_seen f config i fi q3 = Ret (tt, q4)).
  { assert (Hres : should_resume i config fi q3 = Ret (false, tick q3)).
    { assert (His : isRunning i q3 = Ret (true, tick q3)).
      { unfold isRunning, get_info. monad. rewrite Hy0. monad. unfold y0. simpl. rewrite Hr0. simpl. rewrite Hh0, Hh. monad.
        rewrite Hh3, Hlh. monad. unfold p_ask. by rewrite Hpoll. }
      unfold should_resume. by rewrite (bind_run _ _ _ _ _ His). }
    unfold process_seen. rewrite (bind_run _ _ _ _ _ Hres). unfold update, get_info, put_info, index_set. monad.
    change (infos (tick q3)) with (infos q3). rewrite Hy0. monad. rewrite (eq_trans Hid0 Hid : identity y0 = Some id). monad.
    unfold q4, y. by rewrite <- Hit3. }
  assert (Hproc : processFile f config p = Ret (tt, q4)).
  { unfold processFile. rewrite (bind_run _ _ p p p eq_refl), (bind_run _ _ p (inr fi) (tick p)) by (unfold p_ask; by rewrite Hstat).
    rewrite Hdir, Hidx. unfold process_unknown. rewrite bind_assoc, (bind_run _ _ _ _ _ Hl).
    rewrite decide_True by (by eapply Hn). by rewrite (bind_run _ _ _ _ _ Hlink). }
  rewrite Hr in Hproc. injection Hproc as ->. exists q4, y. split; [done|].
  assert (Hy : infos q4 !! i = Some y) by apply lookup_insert_eq.
  do 2 (split; [done|]). split; [apply lookup_insert_eq|]. split.
  { intros g Hg Hgi. destruct (watched_index _ _ _ Hw' g i Hgi) as (_ & z & Hz & Hzf & _); [done|].
    rewrite Hy in Hz. injection Hz as <-. by apply Hg. }
  split; [done|]. split; [done|]. do 4 (split; [done|]). unfold q4, q3. simpl. by rewrite Hspq.
Qed.
End Theorems.

(** ** A concrete environment *)
Section Sample.

(** A file: its inode, size and modification time. *)
Record sample_file := mkSample { sf_ino : Z; sf_size : Z; sf_mtime : Z }.

Section Env.
Context (glob : nat → list text) (stat : nat → text → text + sample_file).

Definition sample_glob (n : nat) (path : text) : option (list text) := Some (filter (.≠ []) (glob n)).

#[local] Instance Watch_sample : Watch sample_file.
Proof.
  refine {| fi_Ino := sf_ino; fi_Dev := fun _ => 1%Z; fi_Size := sf_size; fi_ModTime := sf_mtime; fi_IsDir := fun _ => false;
    path_Glob := sample_glob; os_Stat := stat; poll_finish := fun _ _ _ => None;
    wait_finish := fun _ _ l => mkFinishStatus 0 0 None (l_fileinfo l); range_infos := fun _ ks => ks |}.
  - done.
  - done.
Defined.

#[local] Instance Env_sample : Env.
Proof.
  refine {| clock := Z.of_nat; rand_Intn := fun _ _ => 0%Z; map_order := fun _ ks => ks; math_Exp := fun f => f |}; [lia|lia|done].
Defined.

#[local] Instance Spooler_sample : EventSpooler (list (RegEvent (FileInfo := sample_file))) (RegEvent (FileInfo := sample_file)) :=
  {| spool_Add e l := l ++ [e]; spool_Send l := l; spool_Close l := l |}.

Definition sample_config : list (File unit) := [mkFile [bytes_of "/l/*"] (mkStreamConfig false false false false [] 1000 [])].

Abbreviation sample_state := (Prospector unit sample_file (list (RegEvent (FileInfo := sample_file)))).
Definition sample_start (previous : list (text * FileState)) : option sample_state :=
  match init previous (inr true) (NewProspector sample_config 10 true []) with Ret (_, p) => Some p | _ => None end.
Definition sample_scans (k : nat) (p : sample_state) : option sample_state :=
  match Run (repeat [] k) p with Ret (_, p') => Some p' | _ => None end.
Definition sample_run (k : nat) : option sample_state := p ← sample_start []; sample_scans k p.

Lemma sample_glob_named n path fs f : sample_glob n path = Some fs → f ∈ fs → f ≠ [].
Proof. intros [= <-] [Hf _]%list_elem_of_filter. done. Qed.
End Env.

Definition sample_a : text := bytes_of "/l/a".
Definition sample_b : text := bytes_of "/l/b".
(** One file that stays; one that cannot be read during the first scan; one that
    is outside the watched paths during the second; one renamed after the first. *)
Definition stays (n : nat) (f : text) : text + sample_file := inr (mkSample 7 100 5).
Definition recovers (n : nat) (f : text) : text + sample_file :=
  if decide (n < 6) then inl (bytes_of "permission denied") else inr (mkSample 7 100 5).
Definition comes_back (n : nat) : list text := if decide (6 ≤ n < 12) then [] else [sample_a].
Definition renamed (n : nat) : list text := if decide (n < 8) then [sample_a] else [sample_b].

(** A state in which one file is watched and harvested at [sample_a]. *)
Definition sample_info : prospectorInfo sample_file :=
  mkInfo sample_a (Some (IdInfo (mkSample 7 100 5))) 1 statusOk true orphanedNo 0 (Some 1%positive) None.
Definition sample_watching : Prospector unit sample_file (list (RegEvent (FileInfo := sample_file))) :=
  mkProspector sample_config 10 {[sample_a := 1%positive]} {[1%positive]} true 2 0 [] {[1%positive := sample_info]}
    {[1%positive := mkLaunch 1%positive sample_a (Some (mkSample 7 100 5)) 0 false false]} 0.

Lemma prospector_total_witness :
  ∃ r p, @init unit sample_file (list (RegEvent (FileInfo := sample_file))) [(sample_a, mkFileState 7 1 sample_a 20)] (inr true)
    (NewProspector sample_config 10 true []) = Ret (r, p) ∧
  ∃ b p', @Run unit sample_file _ (Watch_sample renamed stays) Env_sample Spooler_sample [[DelayTimer]; [DelayConfig [] 5; DelayShutdown]] p = Ret (b, p').
Proof.
  apply (@prospector_total unit sample_file _ (Watch_sample renamed stays) Env_sample Spooler_sample (sample_glob_named renamed)).
  intros f st [= -> ->]%list_elem_of_singleton. done.
Defined.

(** Two scans, between which the file is renamed, then one more and the shutdown. *)
Lemma one_harvester_per_file_witness (W := Watch_sample renamed stays) :
  ∃ p p', sample_start [] = Some p ∧ @Run unit sample_file _ W Env_sample Spooler_sample [[]; []; [DelayShutdown]] p = Ret (true, p') ∧
    length (@Run_calls unit sample_file _ W Env_sample Spooler_sample [[]; []; [DelayShutdown]] p) = 3 ∧
    Forall (fun '(_, _, q) => @one_each unit sample_file _ W q) (@Run_calls unit sample_file _ W Env_sample Spooler_sample [[]; []; [DelayShutdown]] p) ∧
    harvesters p' !! 1%positive ≠ None ∧ ∀ h l, harvesters p' !! h = Some l → l_done l = true.
Proof.
  set (p := default (NewProspector [] 0 true []) (sample_start [])).
  set (p' := match @Run unit sample_file _ W Env_sample Spooler_sample [[]; []; [DelayShutdown]] p with Ret (_, p') => p' | _ => p end).
  destruct (@one_harvester_per_file unit sample_file _ W Env_sample Spooler_sample (sample_glob_named renamed)
    sample_config 10 true [] [] (inr true) [[]; []; [DelayShutdown]] None p true p') as (Ht & Hd).
  - by intros f st ?%not_elem_of_nil.
  - by left.
  - by intros f st g st' ?%not_elem_of_nil.
  - vm_compute. reflexivity.
  - vm_compute. reflexivity.
  - vm_compute. reflexivity.
  - exists p, p'. split; [vm_compute; reflexivity|]. split; [vm_compute; reflexivity|]. split; [vm_compute; reflexivity|].
    split; [exact Ht|]. split; [vm_compute; discriminate|exact Hd].
Defined.

Lemma sample_watching_one i x : infos sample_watching !! i = Some x → i = 1%positive ∧ x = sample_info.
Proof. intros Hx. unfold sample_watching in Hx. cbn [infos] in Hx. by apply lookup_singleton_Some in Hx as [<- <-]. Qed.

Lemma sample_watching_index g i : prospectorindex sample_watching !! g = Some i → g = sample_a ∧ i = 1%positive.
Proof. intros Hg. unfold sample_watching in Hg. cbn [prospectorindex] in Hg. by apply lookup_singleton_Some in Hg as [<- <-]. Qed.

(** It satisfies the invariants, in any environment that answers for these files. *)
Lemma sample_watching_ok glob stat (W := Watch_sample glob stat) :
  @safe unit sample_file _ W None sample_watching ∧ @watched unit sample_file _ W None None sample_watching ∧ named sample_watching.
Proof.
  split; [split|split; [split|]].
  - intros f i [-> ->]%sample_watching_index. by exists sample_info.
  - intros i Hi. unfold sample_watching in Hi. cbn [prospectors] in Hi. apply elem_of_singleton in Hi as ->. by exists sample_info.
  - intros i x [-> ->]%sample_watching_one. unfold info_ok. simpl. exists (IdInfo (mkSample 7 100 5)). split; [done|]. split; [eauto|]. intros _.
    split; [eauto|]. exists 1%positive, (mkLaunch 1%positive sample_a (Some (mkSample 7 100 5)) 0 false false), (mkSample 7 100 5). done.
  - intros h l Hl _. unfold sample_watching in Hl. cbn [harvesters] in Hl. apply lookup_singleton_Some in Hl as [<- <-]. by exists sample_info.
  - intros g i [-> ->]%sample_watching_index _. split; [by apply elem_of_singleton|]. by exists sample_info.
  - intros i x _ [-> ->]%sample_watching_one _ _. done.
  - intros i j x y k _ _ [-> ->]%sample_watching_one [-> ->]%sample_watching_one _ _. done.
  - intros i x [-> ->]%sample_watching_one _. left. by apply elem_of_singleton.
  - intros i x [-> ->]%sample_watching_one. done.
Qed.

Lemma rename_followed_witness :
  ∃ p' y, @processFile unit sample_file _ (Watch_sample renamed stays) Env_sample Spooler_sample sample_b
      (mkFile [] (mkStreamConfig false false false false [] 1000 [])) sample_watching = Ret (tt, p') ∧
    prospectorindex p' !! sample_b = Some 1%positive ∧ infos p' !! 1%positive = Some y ∧ pi_file y = sample_b ∧
    p_spool p' = [RegRenamed (Some 1%positive) sample_b].
Proof.
  destruct (sample_watching_ok renamed stays) as (Hs & Hw & Hn).
  destruct (@rename_followed unit sample_file _ (Watch_sample renamed stays) Env_sample Spooler_sample sample_watching sample_b
    (mkFile [] (mkStreamConfig false false false false [] 1000 [])) (mkSample 7 100 5) 1%positive sample_info) as (p' & y & H1 & _ & _ & H2 & _ & H3 & H4 & _ & _ & _ & _ & H5).
  - exact Hs.
  - exact Hw.
  - exact Hn.
  - done.
  - vm_compute. reflexivity.
  - reflexivity.
  - reflexivity.
  - by apply elem_of_singleton.
  - reflexivity.
  - reflexivity.
  - done.
  - reflexivity.
  - done.
  - exists p', y. done.
Defined.

(** A path that could not be read during the first scan is harvested by two
    harvesters at once, both from the beginning, although the file never changed:
    the placeholder's clean-up removes the new entry from the index. *)
Theorem recovered_file_harvested_twice :
  ∃ p l l', sample_run (fun _ => [sample_a]) recovers 4 = Some p ∧
    harvesters p !! 1%positive = Some l ∧ harvesters p !! 2%positive = Some l' ∧
    l_done l = false ∧ l_done l' = false ∧ l_fileinfo l = Some (mkSample 7 100 5) ∧ l_fileinfo l' = l_fileinfo l ∧
    l_path l' = l_path l ∧ l_offset l = 0%Z ∧ l_offset l' = 0%Z.
Proof.
  exists (default sample_watching (sample_run (fun _ => [sample_a]) recovers 4)).
  exists (mkLaunch 2%positive sample_a (Some (mkSample 7 100 5)) 0 false false), (mkLaunch 3%positive sample_a (Some (mkSample 7 100 5)) 0 false false).
  vm_compute. done.
Qed.

(** The run in which that happens is not one of those of [one_harvester_per_file]: *)
Example recovered_not_calm :
  match sample_start [] with
  | Some p => @calm unit sample_file _ (@Run_calls unit sample_file _ (Watch_sample (fun _ => [sample_a]) recovers) Env_sample Spooler_sample (repeat [] 4) p)
  | None => true
  end = false.
Proof. vm_compute. reflexivity. Qed.

(** A file that leaves the watched paths for one scan and comes back while it
    is harvested is no longer registered: its state was deleted, and the rename
    event that follows does not restore it, so its offsets are never saved. *)
Theorem returned_file_not_saved :
  ∃ p l, sample_run comes_back stays 3 = Some p ∧ harvesters p !! 1%positive = Some l ∧ l_done l = false ∧
    prospectorindex p !! sample_a = Some (l_stream l) ∧
    ∀ offset, foldl (fun st e => Process sf_ino (fun _ => 1%Z) e st) ∅
      (p_spool p ++ [RegAck [mkEventDescriptor (Some (l_stream l)) offset []]]) !! Some (l_stream l) = None.
Proof.
  exists (default sample_watching (sample_run comes_back stays 3)), (mkLaunch 1%positive sample_a (Some (mkSample 7 100 5)) 0 false false).
  split; [vm_compute; reflexivity|]. split; [vm_compute; reflexivity|]. split; [done|]. split; [vm_compute; reflexivity|].
  intros offset. vm_compute. reflexivity.
Qed.
End Sample.
