(* ===== verification/Tcp.v ===== *)
(** * lc-lib/transports/tcp: the messages on the wire

    The factory of the TCP and TLS transports ([factory.go]), the messages sent,
    the receiver ([tcp.go]) and the writer below TLS that retries short writes
    ([wrap.go]).  Compression, certificates and the socket are parameters: the
    socket's answers are numbered, so two reads or writes may differ. *)
From S2P Require Import Prelude Core Codecs ConfigParser Config Transports.

(** ** [factory.go] *)
Definition TransportTCPTCP : text := bytes_of "tcp".
Definition TransportTCPTLS : text := bytes_of "tls".

Definition defaultNetworkReconnect : Z := (0 * Second)%Z.
Definition defaultNetworkReconnectMax : Z := (300 * Second)%Z.

(** [X] is a parsed certificate; a key pair is the certificates of its chain. *)
Record TransportTCPFactory (X : Type) := mkTCPFactory {
  tf_transport : text;
  Reconnect : Z;
  ReconnectMax : Z;
  SSLCertificate : text;
  SSLKey : text;
  SSLCA : text;
  certificate : option (list text);
  certificateList : list X;
  caList : list X;
}.
Arguments mkTCPFactory {X}.
Arguments tf_transport {X}.
Arguments Reconnect {X}.
Arguments ReconnectMax {X}.
Arguments SSLCertificate {X}.
Arguments SSLKey {X}.
Arguments SSLCA {X}.
Arguments certificate {X}.
Arguments certificateList {X}.
Arguments caList {X}.

Section Factory.
Context {X : Type}.
Context (ParseDuration : text → option Z).
(** crypto/tls, crypto/x509, io/ioutil and encoding/pem. *)
Context (LoadX509KeyPair : text → text → text + list text) (ParseCertificate : text → option X).
Context (ReadFile : text → text + text) (pem_Decode : text → option (text * text * text)).

Abbreviation factory := (TransportTCPFactory X).

Definition set_certificate (c : list text) (xs : list X) (f : factory) : factory :=
  mkTCPFactory (tf_transport f) (Reconnect f) (ReconnectMax f) (SSLCertificate f) (SSLKey f) (SSLCA f) (Some c) xs (caList f).
Definition set_caList (xs : list X) (f : factory) : factory :=
  mkTCPFactory (tf_transport f) (Reconnect f) (ReconnectMax f) (SSLCertificate f) (SSLKey f) (SSLCA f) (certificate f) (certificateList f) xs.

Definition Factory_InitDefaults (f : factory) : factory :=
  mkTCPFactory (tf_transport f) defaultNetworkReconnect defaultNetworkReconnectMax (SSLCertificate f) (SSLKey f) (SSLCA f)
    (certificate f) (certificateList f) (caList f).

Definition factory_fields : list (field factory) :=
  [entry_value (bytes_of "reconnect backoff") Reconnect (fun v f => mkTCPFactory (tf_transport f) v (ReconnectMax f) (SSLCertificate f) (SSLKey f) (SSLCA f) (certificate f) (certificateList f) (caList f)) (conv_duration ParseDuration);
   entry_value (bytes_of "reconnect backoff max") ReconnectMax (fun v f => mkTCPFactory (tf_transport f) (Reconnect f) v (SSLCertificate f) (SSLKey f) (SSLCA f) (certificate f) (certificateList f) (caList f)) (conv_duration ParseDuration);
   entry_value (bytes_of "ssl certificate") SSLCertificate (fun v f => mkTCPFactory (tf_transport f) (Reconnect f) (ReconnectMax f) v (SSLKey f) (SSLCA f) (certificate f) (certificateList f) (caList f)) conv_string;
   entry_value (bytes_of "ssl key") SSLKey (fun v f => mkTCPFactory (tf_transport f) (Reconnect f) (ReconnectMax f) (SSLCertificate f) v (SSLCA f) (certificate f) (certificateList f) (caList f)) conv_string;
   entry_value (bytes_of "ssl ca") SSLCA (fun v f => mkTCPFactory (tf_transport f) (Reconnect f) (ReconnectMax f) (SSLCertificate f) (SSLKey f) v (certificate f) (certificateList f) (caList f)) conv_string].

Fixpoint parse_chain (certs : list text) : option (list X) :=
  match certs with
  | [] => Some []
  | c :: cs =>
      match ParseCertificate c with
      | None => None
      | Some x => match parse_chain cs with Some xs => Some (x :: xs) | None => None end
      end
  end.

(** The loop over the blocks of the file; [pem.Decode] returns a block's type, its
    bytes and the rest. *)
Fixpoint load_ca (fuel : nat) (rest : text) (acc : list X) : R (list X) :=
  match fuel with
  | O => NoFuel
  | S fuel' =>
      match pem_Decode rest with
      | None => ok acc
      | Some (type, data, rest') =>
          if decide (type = bytes_of "CERTIFICATE") then
            match ParseCertificate data with
            | Some x => load_ca fuel' rest' (acc ++ [x])
            | None => err (Invalid (bytes_of "Failed to parse CA certificate"))
            end
          else err (Invalid (bytes_of "Block does not contain a certificate"))
      end
  end.

Definition load_certificate (f : factory) : R factory :=
  if decide (SSLCertificate f = [] ∧ SSLKey f = []) then ok f
  else if decide (SSLCertificate f = []) then err (Invalid (bytes_of "ssl key is only valid with a matching ssl certificate"))
  else if decide (SSLKey f = []) then err (Invalid (bytes_of "ssl key must be specified when a ssl certificate is provided"))
  else
    match LoadX509KeyPair (SSLCertificate f) (SSLKey f) with
    | inl e => err (Invalid (bytes_of "Failed loading client ssl certificate: " ++ e))
    | inr chain =>
        match parse_chain chain with
        | None => err (Invalid (bytes_of "Failed loading client ssl certificate"))
        | Some xs => ok (set_certificate chain xs f)
        end
    end.

Definition newFactory (name : text) : factory := mkTCPFactory name 0 0 [] [] [] None [] [].

Definition NewTransportTCPFactory (configPath : text) (unUsed : attrs) (name : text) : R factory :=
  if decide (name = TransportTCPTLS) then
    let! (_, f) := populateStruct Factory_InitDefaults factory_fields None (Some (VMap false unUsed)) configPath (newFactory name) in
    let! f := load_certificate f in
    if decide (SSLCA f = []) then err (Invalid (bytes_of "ssl ca is required when transport is TLS"))
    else
      match ReadFile (SSLCA f) with
      | inl e => err (Invalid (bytes_of "Failure reading CA certificate: " ++ e))
      | inr pemdata => let! xs := load_ca (S (length pemdata)) pemdata [] in ok (set_caList xs f)
      end
  else
    let! _ := reportUnusedConfig (Some (VMap false unUsed)) configPath in
    ok (newFactory name).
End Factory.

(** ** The messages sent *)
Section Wire.
(** [zlib.NewWriterLevel(..., 3)] over all that is written to it. *)
Context (zlib : text → text).

(** The event data: each event with its 32-bit length. *)
Definition event_data (events : list EventDescriptor) : text :=
  concat ((fun e => be_PutUint32 (uint32 (zlen (ed_Event e))) ++ ed_Event e) <$> events).

Definition JDAT (nonce : text) (events : list EventDescriptor) : text :=
  let body := nonce ++ zlib (event_data events) in
  bytes_of "JDAT" ++ be_PutUint32 (uint32 (zlen body)) ++ body.

Definition PING : text := bytes_of "PING" ++ [x00; x00; x00; x00]%byte.
End Wire.

(** ** The receiver *)
Inductive sock_error := SockTimeout | SockError (message : text).
Inductive recv_error := RecvSock (e : sock_error) | TooLarge (length : Z) | BadAck (size : Z) | BadCode (code : text).

(** The socket and the receiver's channels. *)
Class Socket := {
  sock_Read : nat → nat → text * option sock_error;
  sock_Read_fits : ∀ n k, length (fst (sock_Read n k)) ≤ k;
  recv_closed : nat → bool;
  event_taken : nat → bool;
}.

(** How many answers were used, the bytes read (ghost) and the events sent. *)
Record Receiver := mkReceiver { rc_tick : nat; rc_log : text; rc_events : list (TransportEvent unit) }.

Section Receiver.
Context `{Socket}.
Abbreviation RC := (M Receiver).

Definition rc_ask {A} (f : nat → A) : RC A := fun r => Ret (f (rc_tick r), mkReceiver (S (rc_tick r)) (rc_log r) (rc_events r)).

Definition rc_Read (k : nat) : RC (text * option sock_error) := fun r =>
  let '(data, e) := sock_Read (rc_tick r) k in
  Ret ((data, e), mkReceiver (S (rc_tick r)) (rc_log r ++ data) (rc_events r)).

(** [sendEvent]: true when the shutdown comes first. *)
Definition rc_sendEvent (e : TransportEvent unit) : RC bool :=
  taken ← rc_ask event_taken;
  if (taken : bool) then modify (fun r => mkReceiver (rc_tick r) (rc_log r) (rc_events r ++ [e]));; mret false
  else mret true.

Inductive read_result := ReadShutdown | ReadData (data : text) | ReadFailed (e : sock_error).

(** [receiverRead]: [todo] bytes to go, [data] so far. *)
Fixpoint receiverRead (fuel : nat) (todo : nat) (data : text) : RC read_result :=
  match fuel with
  | O => out_of_fuel
  | S fuel' =>
      closed ← rc_ask recv_closed;
      if (closed : bool) then mret ReadShutdown
      else
        '(chunk, e) ← rc_Read todo;
        let data' := data ++ chunk in
        if decide (todo ≤ length chunk) then mret (ReadData data')
        else
          match e with
          | None | Some SockTimeout => receiverRead fuel' (todo - length chunk) data'
          | Some e => mret (ReadFailed e)
          end
  end.

(** What a whole message leads to: an event, or a protocol error. *)
Definition message_event (code message : text) : outcome (recv_error + TransportEvent unit) :=
  if decide (code = bytes_of "PONG") then Ret (inr (PongEvent tt))
  else if decide (code = bytes_of "ACKN") then
    if decide (zlen message ≠ 20)%Z then Ret (inl (BadAck (zlen message)))
    else
      match slice message 0 16, slice message 16 20 with
      | Some nonce, Some sequence => e ← NewAckEventWithBytes tt nonce sequence; Ret (inr e)
      | _, _ => Panic
      end
  else Ret (inl (BadCode code)).

(** The end of one turn: to go on, stopped by the shutdown, or an error. *)
Inductive turn := GoOn | Stopped | Failing (e : recv_error).

Definition receiver_turn (fuel : nat) : RC turn :=
  r ← receiverRead fuel 8 [];
  match r with
  | ReadShutdown => mret Stopped
  | ReadFailed e => mret (Failing (RecvSock e))
  | ReadData header =>
      code ← deref (slice header 0 4);
      lenbytes ← deref (slice header 4 8);
      len ← (fun s => match be_Uint32 lenbytes with Ret z => Ret (z, s) | Panic => Panic | NoFuel => NoFuel end);
      if decide (1048576 < len)%Z then mret (Failing (TooLarge len))
      else
        m ← (if decide (0 < len)%Z then receiverRead fuel (Z.to_nat len) [] else mret (ReadData []));
        match m with
        | ReadShutdown => mret Stopped
        | ReadFailed e => mret (Failing (RecvSock e))
        | ReadData message =>
            ev ← (fun s => match message_event code message with Ret x => Ret (x, s) | Panic => Panic | NoFuel => NoFuel end);
            match ev with
            | inl e => mret (Failing e)
            | inr e => stop ← rc_sendEvent e; if (stop : bool) then mret Stopped else mret GoOn
            end
        end
  end.

(** The loop: the error passed to the controller, none after a shutdown. *)
Fixpoint receiver (turns fuel : nat) : RC (option recv_error) :=
  match turns with
  | O => out_of_fuel
  | S turns' =>
      t ← receiver_turn fuel;
      match t with
      | GoOn => receiver turns' fuel
      | Stopped => mret None
      | Failing e => mret (Some e)
      end
  end.
End Receiver.

(** ** [wrap.go]: writing below TLS *)
Class WriteSocket := {
  sock_Write : nat → text → nat * option sock_error;
  sock_Write_fits : ∀ n b, fst (sock_Write n b) ≤ length b;
  sock_Write_short : ∀ n b, fst (sock_Write n b) < length b → snd (sock_Write n b) ≠ None;
  send_closed : nat → bool;
}.

(** How many answers were used and the bytes the socket accepted. *)
Record Wrap := mkWrap { wr_tick : nat; wr_sent : text }.

Section Wrap.
Context `{WriteSocket}.

Definition wrap_write_once (b : text) : M Wrap (nat * option sock_error) := fun w =>
  let '(n, e) := sock_Write (wr_tick w) b in
  Ret ((n, e), mkWrap (S (wr_tick w)) (wr_sent w ++ take n b)).

Definition wrap_shutdown : M Wrap bool := fun w =>
  Ret (send_closed (wr_tick w), mkWrap (S (wr_tick w)) (wr_sent w)).

Fixpoint wrap_Write (fuel : nat) (b : text) (len : nat) : M Wrap (nat * option sock_error) :=
  match fuel with
  | O => out_of_fuel
  | S fuel' =>
      '(n, e) ← wrap_write_once (drop len b);
      let len' := len + n in
      if decide (length b ≤ len') then mret (len', e)
      else
        match e with
        | None => wrap_Write fuel' b len'
        | Some SockTimeout =>
            closed ← wrap_shutdown;
            if (closed : bool) then mret (len', e) else wrap_Write fuel' b len'
        | Some _ => mret (len', e)
        end
  end.
End Wrap.

(** ** References *)

(** What a peer sends, and what the receiver is to make of a stream of bytes. *)
Inductive wire_message := WPong | WAck (nonce : text) (sequence : Z).

Definition wire_bytes (m : wire_message) : text :=
  match m with
  | WPong => bytes_of "PONG" ++ be_PutUint32 0
  | WAck nonce sequence => bytes_of "ACKN" ++ be_PutUint32 20 ++ nonce ++ be_PutUint32 sequence
  end.

Definition wire_event (m : wire_message) : TransportEvent unit :=
  match m with WPong => PongEvent tt | WAck nonce sequence => AckEvent tt nonce sequence end.

Definition wire_ok (m : wire_message) : Prop :=
  match m with WPong => True | WAck nonce sequence => zlen nonce = 16%Z ∧ (0 ≤ sequence < 2 ^ 32)%Z end.

(** The first message of a stream: not complete yet, an error, or an event. *)
Inductive parsed := Incomplete | Wrong (e : recv_error) | Parsed (e : TransportEvent unit) (rest : text).

Definition parse_message (s : text) : parsed :=
  if decide (zlen s < 8)%Z then Incomplete
  else
    match be_Uint32 (drop 4 s) with
    | Ret len =>
        if decide (1048576 < len)%Z then Wrong (TooLarge len)
        else if decide (zlen s < 8 + len)%Z then Incomplete
        else
          match message_event (take 4 s) (take (Z.to_nat len) (drop 8 s)) with
          | Ret (inl e) => Wrong e
          | Ret (inr e) => Parsed e (drop (8 + Z.to_nat len) s)
          | _ => Incomplete
          end
    | _ => Incomplete
    end.

Inductive parses : text → list (TransportEvent unit) → option recv_error → text → Prop :=
| parses_end s : parses s [] None s
| parses_wrong s e : parse_message s = Wrong e → parses s [] (Some e) s
| parses_event s e s' es r rest : parse_message s = Parsed e s' → parses s' es r rest → parses s (e :: es) r rest.

(** The event data of a message, taken apart again. *)
Fixpoint split_events (fuel : nat) (s : text) : option (list text) :=
  match s with
  | [] => Some []
  | _ =>
      match fuel, be_Uint32 s with
      | S fuel', Ret n =>
          match slice s 4 (4 + n) with
          | Some e => match split_events fuel' (drop (4 + Z.to_nat n) s) with Some es => Some (e :: es) | None => None end
          | None => None
          end
      | _, _ => None
      end
  end.

Definition decode_JDAT (unzlib : text → option text) (s : text) : option (text * list text) :=
  if decide (take 4 s = bytes_of "JDAT") then
    match be_Uint32 (drop 4 s) with
    | Ret n =>
        if decide (zlen s = 8 + n)%Z then
          match unzlib (drop 24 s) with
          | Some data =>
              match split_events (S (length data)) data with Some es => Some (take 16 (drop 8 s), es) | None => None end
          | None => None
          end
        else None
    | _ => None
    end
  else None.
