(* ===== verification/TcpProps.v ===== *)
(** * lc-lib/transports/tcp: messages arrive as they were sent

    The receiver computes the reference parser of the bytes it reads, whatever
    the sizes of the reads; the messages written can be taken apart again; the
    writer below TLS hands the socket every byte once. *)
From S2P Require Import Prelude Core Codecs ConfigParser Config Transports Tcp.

(** ** Parsing *)
Lemma message_event_total code message : ∃ x, message_event code message = Ret x.
Proof.
  unfold message_event. repeat case_decide; eauto.
  assert (Hlen : zlen message = 20%Z) by (destruct (decide (zlen message = 20%Z)); tauto).
  unfold slice. rewrite !bool_decide_true by lia.
  change (Z.to_nat (20 - 16)) with 4. change (Z.to_nat 16) with 16.
  assert (H16 : length (drop 16 message) = 4) by (rewrite length_drop; unfold zlen in Hlen; lia).
  destruct (drop 16 message) as [|a [|b [|c [|d rest]]]]; try done. simpl. unfold NewAckEventWithBytes. simpl. eauto.
Qed.

Lemma be_Uint32_app s t : (4 ≤ zlen s)%Z → be_Uint32 (s ++ t) = be_Uint32 s.
Proof. destruct s as [|a [|b [|c [|d s]]]]; intros Hs; try done; unfold zlen in Hs; simpl in Hs; lia. Qed.

Lemma be_Uint32_some s : (4 ≤ zlen s)%Z → ∃ z, be_Uint32 s = Ret z ∧ (0 ≤ z < 2 ^ 32)%Z.
Proof.
  destruct s as [|a [|b [|c [|d s]]]]; intros Hs; try (unfold zlen in Hs; simpl in Hs; lia).
  eexists. split; [reflexivity|]. by eapply (be_Uint32_range (a :: b :: c :: d :: s)).
Qed.

(** A header and what it announces. *)
Lemma parse_header header s : zlen header = 8%Z → ∃ len, be_Uint32 (drop 4 header) = Ret len ∧ (0 ≤ len < 2 ^ 32)%Z ∧
  be_Uint32 (drop 4 (header ++ s)) = Ret len.
Proof.
  intros Hh. destruct (be_Uint32_some (drop 4 header)) as (len & Hl & Hr); [unfold zlen in *; rewrite length_drop; lia|].
  exists len. split; [done|]. split; [done|]. rewrite drop_app_le by (unfold zlen in Hh; lia).
  rewrite be_Uint32_app; [done|]. unfold zlen in *. rewrite length_drop. lia.
Qed.

Lemma parse_whole header message s len :
  zlen header = 8%Z → be_Uint32 (drop 4 header) = Ret len → (0 ≤ len ≤ 1048576)%Z → zlen message = len →
  parse_message (header ++ message ++ s) =
    match message_event (take 4 header) message with Ret (inl e) => Wrong e | Ret (inr e) => Parsed e s | _ => Incomplete end.
Proof.
  intros Hh Hl Hr Hm. destruct (parse_header header (message ++ s) Hh) as (len' & Hl' & _ & Hl2).
  assert (len' = len) as -> by congruence. unfold parse_message. rewrite !zlen_app. pose proof (zlen_nonneg s).
  rewrite decide_False by lia. rewrite Hl2. rewrite decide_False by lia. rewrite decide_False by lia.
  assert (H8 : length header = 8) by (unfold zlen in Hh; lia).
  rewrite take_app_le by lia. rewrite drop_app_ge by lia. rewrite H8. simpl (8 - 8). rewrite drop_0.
  assert (Hml : length message = Z.to_nat len) by (unfold zlen in Hm; lia).
  rewrite (take_app_le message) by lia. rewrite (take_ge message) by lia.
  replace (drop (8 + Z.to_nat len) (header ++ message ++ s)) with s; [done|].
  rewrite app_assoc, drop_app_ge by (rewrite length_app; lia). replace (8 + Z.to_nat len - length (header ++ message)) with 0 by (rewrite length_app; lia). by rewrite drop_0.
Qed.

Lemma parse_too_large header s len :
  zlen header = 8%Z → be_Uint32 (drop 4 header) = Ret len → (1048576 < len)%Z → parse_message (header ++ s) = Wrong (TooLarge len).
Proof.
  intros Hh Hl Hr. destruct (parse_header header s Hh) as (len' & Hl' & _ & Hl2). assert (len' = len) as -> by congruence.
  unfold parse_message. rewrite zlen_app. pose proof (zlen_nonneg s). rewrite decide_False by lia. rewrite Hl2. by rewrite decide_True by lia.
Qed.

Lemma parse_short s : (zlen s < 8)%Z → parse_message s = Incomplete.
Proof. intros. unfold parse_message. by rewrite decide_True. Qed.

Lemma parse_partial header part len :
  zlen header = 8%Z → be_Uint32 (drop 4 header) = Ret len → (len ≤ 1048576)%Z → (zlen part < len)%Z →
  parse_message (header ++ part) = Incomplete.
Proof.
  intros Hh Hl Hr Hp. destruct (parse_header header part Hh) as (len' & Hl' & _ & Hl2). assert (len' = len) as -> by congruence.
  unfold parse_message. rewrite zlen_app. pose proof (zlen_nonneg part). rewrite decide_False by lia. rewrite Hl2.
  rewrite decide_False by lia. by rewrite decide_True by lia.
Qed.

(** ** The receiver *)
Section Receiver.
Context `{Socket}.

(** What [receiverRead] has added to the bytes read. *)
Definition read_post (r0 : Receiver) (todo : nat) (data : text) (res : read_result) (r : Receiver) : Prop :=
  rc_events r = rc_events r0 ∧ ∃ more, rc_log r = rc_log r0 ++ more ∧
  match res with
  | ReadData d => d = data ++ more ∧ length more = todo
  | _ => length more < todo
  end.

Lemma receiverRead_spec fuel : ∀ todo data r0, 0 < todo →
  hoare (fun r => r = r0) (receiverRead fuel todo data) (read_post r0 todo data).
Proof.
  induction fuel as [|fuel IH]; intros todo data [n log evs] Htodo; [apply hoare_fuel|]. intros r res r' -> Hr.
  cbn [receiverRead] in Hr. unfold rc_ask, rc_Read in Hr. monad_in Hr. cbv beta iota delta [rc_tick rc_log rc_events] in Hr.
  destruct (recv_closed n). { injection Hr as <- <-. split; [done|]. exists []. rewrite app_nil_r. split; [done|]. simpl. lia. }
  pose proof (sock_Read_fits (S n) todo) as Hfit. destruct (sock_Read (S n) todo) as [chunk e]. simpl in Hfit.
  destruct (decide (todo ≤ length chunk)) as [Hlen|Hlen].
  { injection Hr as <- <-. split; [done|]. exists chunk. split; [done|]. split; [done|]. lia. }
  assert (Hgo : ∀ res r', receiverRead fuel (todo - length chunk) (data ++ chunk) (mkReceiver (S (S n)) (log ++ chunk) evs) = Ret (res, r') →
    read_post (mkReceiver n log evs) todo data res r').
  { intros res1 r1 Hr1. apply (IH _ _ (mkReceiver (S (S n)) (log ++ chunk) evs)) in Hr1 as (He & more & Hl & Hm); [|lia|done]. split; [done|]. exists (chunk ++ more).
    rewrite Hl. simpl. rewrite app_assoc. split; [done|]. rewrite length_app.
    destruct res1; [lia| |lia]. destruct Hm as [-> Hm]. rewrite app_assoc. split; [done|lia]. }
  destruct e as [[|m]|]; [by apply Hgo| |by apply Hgo].
  injection Hr as <- <-. split; [done|]. exists chunk. split; [done|]. lia.
Qed.

(** One turn reads a message, or part of one. *)
Definition turn_post (r0 : Receiver) (t : turn) (r : Receiver) : Prop :=
  ∃ b, rc_log r = rc_log r0 ++ b ∧
  match t with
  | GoOn => ∃ e, rc_events r = rc_events r0 ++ [e] ∧ ∀ s, parse_message (b ++ s) = Parsed e s
  | Stopped => rc_events r = rc_events r0 ∧ (parse_message b = Incomplete ∨ ∃ e, parse_message b = Parsed e [])
  | Failing (RecvSock _) => rc_events r = rc_events r0 ∧ parse_message b = Incomplete
  | Failing e => rc_events r = rc_events r0 ∧ parse_message b = Wrong e
  end.

Lemma receiver_turn_spec fuel r0 : hoare (fun r => r = r0) (receiver_turn fuel) (turn_post r0).
Proof.
  unfold receiver_turn. eapply (hoare_bind _ (read_post r0 8 [])); [apply receiverRead_spec; lia|]. intros [|header|e].
  - apply hoare_ret. intros r (He & more & Hl & Hm). exists more. split; [done|]. split; [done|]. left. apply parse_short. unfold zlen. lia.
  - intros r t r' (He & more & Hl & -> & Hm) Hr. simpl in Hr. assert (Hz : zlen more = 8%Z) by (unfold zlen; lia).
    destruct (parse_header more [] Hz) as (len & Hlen & Hrange & _).
    assert (Hs1 : slice more 0 4 = Some (take 4 more)) by (apply slice_prefix; lia).
    assert (Hs2 : slice more 4 8 = Some (drop 4 more)) by (rewrite <- Hz; apply slice_full; lia).
    rewrite Hs1, Hs2 in Hr. monad_in Hr. rewrite Hlen in Hr.
    destruct (decide (1048576 < len)%Z) as [Hbig|Hbig].
    { injection Hr as <- <-. exists more. split; [done|]. split; [done|]. rewrite <- (app_nil_r more). by apply parse_too_large. }
    assert (Hmsg : ∀ m r1, (if decide (0 < len)%Z then receiverRead fuel (Z.to_nat len) [] else mret (ReadData [])) r = Ret (m, r1) →
      rc_events r1 = rc_events r0 ∧ ∃ part, rc_log r1 = rc_log r0 ++ more ++ part ∧
      match m with ReadData d => d = part ∧ zlen part = len | _ => (zlen part < len)%Z end).
    { intros m r1. case_decide as Hpos.
      - intros Hm1. apply (receiverRead_spec _ _ _ r) in Hm1 as (He1 & part & Hl1 & Hp); [|lia|done].
        split; [congruence|]. exists part. rewrite Hl1, Hl, <- app_assoc. split; [done|]. unfold zlen.
        destruct m; [lia| |lia]. destruct Hp as [-> Hp]. split; [done|lia].
      - intros [= <- <-]. split; [done|]. exists []. rewrite app_nil_r. split; [done|]. split; [done|]. unfold zlen. simpl. lia. }
    destruct ((if decide (0 < len)%Z then receiverRead fuel (Z.to_nat len) [] else mret (ReadData [])) r) as [[m r1]| |] eqn:Em;
      unfold mret, M_mret, M_ret in Em; rewrite Em in Hr; [|done..].
    destruct (Hmsg m r1) as (He1 & part & Hl1 & Hp); [done|]. clear Hmsg.
    assert (Hpart : (zlen part < len)%Z → parse_message (more ++ part) = Incomplete) by (intros; eapply parse_partial; [done|done|lia|done]).
    destruct m as [|message|e].
    + injection Hr as <- <-. exists (more ++ part). split; [done|]. split; [done|]. left. auto.
    + destruct Hp as [-> Hp]. pose proof (fun s => parse_whole more part s len Hz Hlen ltac:(lia) Hp) as Hparse.
      destruct (message_event_total (take 4 more) part) as [[e|e] Hev]; rewrite Hev in Hr, Hparse.
      * injection Hr as <- <-. exists (more ++ part). split; [done|]. specialize (Hparse []). rewrite app_nil_r in Hparse.
        destruct e as [e| | |]; try done. exfalso. clear -Hev. unfold message_event, NewAckEventWithBytes in Hev.
        repeat (case_decide || case_match); simplify_eq/=; destruct (be_Uint32 _); done.
      * unfold rc_sendEvent, rc_ask in Hr. monad_in Hr. destruct (event_taken (rc_tick r1)); injection Hr as <- <-; exists (more ++ part); simpl.
        -- split; [done|]. exists e. split; [congruence|]. intros s. rewrite <- app_assoc. apply Hparse.
        -- split; [done|]. split; [done|]. right. exists e. specialize (Hparse []). by rewrite app_nil_r in Hparse.
    + injection Hr as <- <-. exists (more ++ part). split; [done|]. split; [done|]. auto.
  - apply hoare_ret. intros r (He & more & Hl & Hm). exists more. split; [done|]. split; [done|]. apply parse_short. unfold zlen. lia.
Qed.

Lemma parses_app s es s' : parses s es None s' → ∀ es' r rest, parses s' es' r rest → parses s (es ++ es') r rest.
Proof.
  intros Hp. remember None as res eqn:E. revert E. induction Hp; intros E es' res' rest' Hp'; simpl; [done|done|].
  eapply parses_event; [done|]. by apply IHHp.
Qed.

(** The events sent so far are those of the bytes read, and nothing is left. *)
Definition all_parsed (log : text) (events : list (TransportEvent unit)) : Prop :=
  ∀ s es r rest, parses s es r rest → parses (log ++ s) (events ++ es) r rest.

Definition receiver_post (res : option recv_error) (r : Receiver) : Prop :=
  match res with
  | Some (RecvSock _) => ∃ rest, parses (rc_log r) (rc_events r) None rest ∧ parse_message rest = Incomplete
  | Some e => ∃ rest, parses (rc_log r) (rc_events r) (Some e) rest
  | None => ∃ rest, parses (rc_log r) (rc_events r) None rest ∧
      (parse_message rest = Incomplete ∨ ∃ e, parse_message rest = Parsed e [])
  end.

Lemma receiver_spec turns fuel : hoare (fun r => all_parsed (rc_log r) (rc_events r)) (receiver turns fuel) receiver_post.
Proof.
  induction turns as [|turns IH]; [apply hoare_fuel|]. intros r res r' Hall Hr. cbn [receiver] in Hr.
  change ((t ← receiver_turn fuel; match t with GoOn => receiver turns fuel | Stopped => mret None | Failing e => mret (Some e) end) r = Ret (res, r')) in Hr.
  monad_in Hr. destruct (receiver_turn fuel r) as [[t r1]| |] eqn:Et; [|done..].
  apply (receiver_turn_spec _ r) in Et as (b & Hl & Ht); [|done].
  assert (Hend : ∀ es x, parses b es x b → parses (rc_log r1) (rc_events r ++ es) x b) by (intros; rewrite Hl; by apply Hall).
  destruct t as [| |e].
  - apply IH in Hr; [done|]. destruct Ht as (e & He & Hparse). intros s es x rest Hp. rewrite Hl, He, <- !app_assoc.
    apply Hall. simpl. by eapply parses_event.
  - injection Hr as <- <-. destruct Ht as [He Hb]. exists b. rewrite He, <- (app_nil_r (rc_events r)). split; [apply Hend, parses_end|done].
  - injection Hr as <- <-. destruct e as [e| | |]; destruct Ht as [He Hb].
    + exists b. rewrite He, <- (app_nil_r (rc_events r)). split; [apply Hend, parses_end|done].
    + exists b. rewrite He, <- (app_nil_r (rc_events r)). by apply Hend, parses_wrong.
    + exists b. rewrite He, <- (app_nil_r (rc_events r)). by apply Hend, parses_wrong.
    + exists b. rewrite He, <- (app_nil_r (rc_events r)). by apply Hend, parses_wrong.
Qed.
End Receiver.

(** ** A peer that sends messages *)
Lemma zlen_be z : zlen (be_PutUint32 z) = 4%Z.
Proof. done. Qed.

Lemma be_Uint32_exact z s : (0 ≤ z < 2 ^ 32)%Z → be_Uint32 (be_PutUint32 z ++ s) = Ret z.
Proof. apply be_roundtrip. Qed.

Lemma parse_wire m s : wire_ok m → parse_message (wire_bytes m ++ s) = Parsed (wire_event m) s.
Proof.
  destruct m as [|nonce sequence]; intros Hok.
  - change (wire_bytes WPong) with (bytes_of "PONG" ++ be_PutUint32 0). rewrite <- (app_nil_r (_ ++ be_PutUint32 0)), <- app_assoc.
    rewrite (parse_whole (bytes_of "PONG" ++ be_PutUint32 0) [] s 0); [done..|lia|done].
  - destruct Hok as [Hn Hs]. unfold wire_bytes.
    assert (Hsplit : (bytes_of "ACKN" ++ be_PutUint32 20 ++ nonce ++ be_PutUint32 sequence) ++ s =
      (bytes_of "ACKN" ++ be_PutUint32 20) ++ (nonce ++ be_PutUint32 sequence) ++ s) by (by rewrite <- !app_assoc).
    rewrite Hsplit, (parse_whole (bytes_of "ACKN" ++ be_PutUint32 20) (nonce ++ be_PutUint32 sequence) s 20); [|done|done|lia|by rewrite zlen_app, Hn].
    assert (H20 : zlen (nonce ++ be_PutUint32 sequence) = 20%Z) by (by rewrite zlen_app, Hn).
    assert (Hev : message_event (bytes_of "ACKN") (nonce ++ be_PutUint32 sequence) = Ret (inr (AckEvent tt nonce sequence))).
    { unfold message_event. rewrite decide_False by done. rewrite decide_True by done. rewrite decide_False by lia.
      rewrite (slice_prefix _ 16) by lia. assert (Hs2 : slice (nonce ++ be_PutUint32 sequence) 16 20 = Some (be_PutUint32 sequence)).
      { rewrite <- H20. rewrite slice_full by lia. f_equal. rewrite drop_app_ge by (unfold zlen in Hn; lia).
        replace (Z.to_nat 16 - length nonce) with 0 by (unfold zlen in Hn; lia). done. }
      rewrite Hs2. unfold NewAckEventWithBytes.
      assert (Hb : be_Uint32 (be_PutUint32 sequence) = Ret sequence) by (rewrite <- (app_nil_r (be_PutUint32 sequence)); by apply be_Uint32_exact).
      rewrite Hb. unfold mbind, outcome_mbind, outcome_bind. repeat f_equal.
      rewrite take_app_le by (unfold zlen in Hn; lia). apply take_ge. unfold zlen in Hn. lia. }
    change (take 4 (bytes_of "ACKN" ++ be_PutUint32 20)) with (bytes_of "ACKN"). by rewrite Hev.
Qed.

Definition wire_stream (ms : list wire_message) : text := concat (wire_bytes <$> ms).

Lemma wire_stream_cons m ms : wire_stream (m :: ms) = wire_bytes m ++ wire_stream ms.
Proof. done. Qed.

(** A proper prefix of a message is not complete. *)
Lemma parse_mono s t e rest : parse_message s = Parsed e rest → parse_message (s ++ t) = Parsed e (rest ++ t).
Proof.
  unfold parse_message. intros Hp. rewrite zlen_app. pose proof (zlen_nonneg t). destruct (decide (zlen s < 8)%Z) as [|H8]; [done|].
  rewrite decide_False by lia. rewrite drop_app_le by (unfold zlen in H8; lia).
  rewrite be_Uint32_app by (unfold zlen in *; rewrite length_drop; lia).
  destruct (be_Uint32 (drop 4 s)) as [len| |] eqn:El; [|done..]. apply be_Uint32_range in El.
  destruct (decide (1048576 < len)%Z); [done|]. destruct (decide (zlen s < 8 + len)%Z) as [|Hl]; [done|].
  rewrite decide_False by lia. assert (Hln : 8 + Z.to_nat len ≤ length s) by (unfold zlen in Hl; lia).
  rewrite take_app_le by lia. rewrite (drop_app_le _ _ 8) by lia. rewrite (take_app_le (drop 8 s)) by (rewrite length_drop; lia).
  destruct (message_event _ _) as [[?|?]| |]; [done| |done..]. injection Hp as -> <-. rewrite drop_app_le by lia. done.
Qed.

Lemma parse_mono_wrong s t e : parse_message s = Wrong e → parse_message (s ++ t) = Wrong e.
Proof.
  unfold parse_message. intros Hp. rewrite zlen_app. pose proof (zlen_nonneg t). destruct (decide (zlen s < 8)%Z) as [|H8]; [done|].
  rewrite decide_False by lia. rewrite drop_app_le by (unfold zlen in H8; lia).
  rewrite be_Uint32_app by (unfold zlen in *; rewrite length_drop; lia).
  destruct (be_Uint32 (drop 4 s)) as [len| |] eqn:El; [|done..]. apply be_Uint32_range in El.
  destruct (decide (1048576 < len)%Z); [done|]. destruct (decide (zlen s < 8 + len)%Z) as [|Hl]; [done|].
  rewrite decide_False by lia. assert (Hln : 8 + Z.to_nat len ≤ length s) by (unfold zlen in Hl; lia).
  rewrite take_app_le by lia. rewrite (drop_app_le _ _ 8) by lia. rewrite (take_app_le (drop 8 s)) by (rewrite length_drop; lia).
  by destruct (message_event _ _) as [[?|?]| |].
Qed.

Lemma parse_empty : parse_message [] = Incomplete.
Proof. done. Qed.

(** Parsing a prefix of a stream of messages. *)
Lemma parses_wire ms : Forall wire_ok ms → ∀ s es r rest, s `prefix_of` wire_stream ms → parses s es r rest →
  r = None ∧ es `prefix_of` (wire_event <$> ms) ∧ (parse_message rest = Incomplete → s = wire_stream ms → es = wire_event <$> ms).
Proof.
  induction ms as [|m ms IH]; intros Hok s es r rest [t Ht] Hp.
  - destruct s; [|done]. inversion Hp as [|? ? Hw|? ? ? ? ? ? Hw]; subst; [|by rewrite parse_empty in Hw..]. done.
  - apply Forall_cons in Hok as [Hm Hok]. rewrite wire_stream_cons in Ht.
    inversion Hp as [|? e Hw|? e s' es' r' rest' Hw Hp']; subst.
    + split; [done|]. split; [apply prefix_nil|]. intros Hinc ->. rewrite wire_stream_cons in Hinc. by rewrite parse_wire in Hinc.
    + exfalso. apply (parse_mono_wrong _ t) in Hw. rewrite <- Ht, parse_wire in Hw; done.
    + pose proof (parse_mono _ t _ _ Hw) as Hm'. rewrite <- Ht, parse_wire in Hm' by done. injection Hm' as <- Hs'.
      destruct (IH Hok s' es' r rest) as (-> & Hpre & Hall); [by exists t|done|]. split; [done|]. split; [by apply prefix_cons|].
      intros Hinc Heq. rewrite fmap_cons. f_equal. apply Hall; [done|]. rewrite Heq, wire_stream_cons, parse_wire in Hw by done. by injection Hw as ->.
Qed.

(** ** The event data *)
Lemma split_events_data events fuel :
  Forall (fun e => (zlen (ed_Event e) < 2 ^ 32)%Z) events → length (event_data events) < fuel →
  split_events fuel (event_data events) = Some (ed_Event <$> events).
Proof.
  revert fuel. induction events as [|e events IH]; intros fuel Hall Hf; [by destruct fuel|].
  apply Forall_cons in Hall as [He Hall]. pose proof (zlen_nonneg (ed_Event e)).
  assert (Hd : event_data (e :: events) = be_PutUint32 (uint32 (zlen (ed_Event e))) ++ ed_Event e ++ event_data events).
  { unfold event_data. rewrite fmap_cons. simpl. done. }
  rewrite Hd in Hf |- *. rewrite (uint32_small (zlen (ed_Event e))) in Hf |- * by lia. destruct fuel as [|fuel]; [lia|].
  set (s := be_PutUint32 (zlen (ed_Event e)) ++ ed_Event e ++ event_data events) in *.
  assert (Hlen : length s = 4 + length (ed_Event e) + length (event_data events)) by (unfold s; rewrite !length_app; simpl; lia).
  assert (Hbe : be_Uint32 s = Ret (zlen (ed_Event e))) by (apply be_Uint32_exact; lia).
  assert (Hsl : slice s 4 (4 + zlen (ed_Event e)) = Some (ed_Event e)).
  { unfold slice. rewrite bool_decide_true by (unfold zlen; lia). f_equal. unfold s.
    rewrite drop_app_ge by (simpl; lia). change (Z.to_nat 4 - length (be_PutUint32 (zlen (ed_Event e)))) with 0. rewrite drop_0.
    rewrite take_app_le by (unfold zlen; lia). apply take_ge. unfold zlen. lia. }
  assert (Hdr : drop (4 + Z.to_nat (zlen (ed_Event e))) s = event_data events).
  { unfold s. rewrite app_assoc, drop_app_ge by (rewrite length_app; simpl; unfold zlen; lia).
    rewrite length_app. replace (_ - _) with 0 by (simpl; unfold zlen; lia). done. }
  destruct s as [|b s'] eqn:Es; [done|]. cbn [split_events]. rewrite Hbe, Hsl, Hdr, IH; [by rewrite fmap_cons|done|]. simpl in Hlen, Hf. lia.
Qed.

(** ** Properties *)
Section Theorems.
Context `{Socket}.

(** C23. Whatever the sizes of the reads, the time-outs and the moment of the
    shutdown, the events sent are those of the reference parser on the bytes
    read, in order; the receiver fails with a protocol error exactly when the
    parser finds one, and otherwise stops on an incomplete message (or on one
    whose event the shutdown kept from being sent). *)
Theorem receiver_parses turns fuel n res r :
  receiver turns fuel (mkReceiver n [] []) = Ret (res, r) → receiver_post res r.
Proof.
  intros Hr. eapply receiver_spec; [|done]. intros s es x rest Hp. exact Hp.
Qed.

(** C26. From a peer that sends acknowledgements and pongs, every event arrives once
    and in order, however the stream is cut, with no protocol error. *)
Theorem receiver_frames turns fuel n ms res r :
  Forall wire_ok ms → receiver turns fuel (mkReceiver n [] []) = Ret (res, r) → rc_log r `prefix_of` wire_stream ms →
  (res = None ∨ ∃ e, res = Some (RecvSock e)) ∧ rc_events r `prefix_of` (wire_event <$> ms) ∧
  (∀ e, res = Some (RecvSock e) → rc_log r = wire_stream ms → rc_events r = wire_event <$> ms).
Proof.
  intros Hok Hr Hpre. assert (Hpost : receiver_post res r) by (eapply receiver_spec; [|done]; intros s es x rest Hp; exact Hp).
  assert (Hwire : ∀ x rest, parses (rc_log r) (rc_events r) x rest → x = None ∧ rc_events r `prefix_of` (wire_event <$> ms) ∧
    (parse_message rest = Incomplete → rc_log r = wire_stream ms → rc_events r = wire_event <$> ms)).
  { intros x rest Hp. by eapply parses_wire. }
  destruct res as [[e| | |]|]; destruct Hpost as (rest & Hp).
  - destruct Hp as [Hp Hinc]. apply Hwire in Hp as (_ & ? & Hall). eauto 10.
  - by apply Hwire in Hp as (? & _).
  - by apply Hwire in Hp as (? & _).
  - by apply Hwire in Hp as (? & _).
  - destruct Hp as [Hp _]. apply Hwire in Hp as (_ & ? & _). split; [by left|]. split; [done|]. done.
Qed.
End Theorems.

(** C27. A data message can be taken apart into its nonce and its events, for any
    compression with an inverse, as long as the lengths fit their fields. *)
Theorem jdat_roundtrip zlib unzlib nonce events :
  (∀ s, unzlib (zlib s) = Some s) → zlen nonce = 16%Z → Forall (fun e => (zlen (ed_Event e) < 2 ^ 32)%Z) events →
  (16 + zlen (zlib (event_data events)) < 2 ^ 32)%Z →
  decode_JDAT unzlib (JDAT zlib nonce events) = Some (nonce, ed_Event <$> events).
Proof.
  intros Hz Hn Hev Hlen. unfold JDAT. set (body := nonce ++ zlib (event_data events)).
  assert (Hb : zlen body = (16 + zlen (zlib (event_data events)))%Z) by (unfold body; by rewrite zlen_app, Hn).
  pose proof (zlen_nonneg (zlib (event_data events))). rewrite uint32_small by lia.
  assert (Hn16 : length nonce = 16) by (unfold zlen in Hn; lia).
  unfold decode_JDAT. change (take 4 (bytes_of "JDAT" ++ ?x)) with (bytes_of "JDAT"). rewrite decide_True by done.
  change (drop 4 (bytes_of "JDAT" ++ ?x)) with x. rewrite be_Uint32_exact by lia.
  rewrite decide_True by (rewrite !zlen_app, zlen_be; change (zlen (bytes_of "JDAT")) with 4%Z; lia).
  assert (Hd8 : drop 8 (bytes_of "JDAT" ++ be_PutUint32 (zlen body) ++ body) = body) by done.
  assert (Hd24 : drop 24 (bytes_of "JDAT" ++ be_PutUint32 (zlen body) ++ body) = zlib (event_data events)).
  { change 24 with (8 + 16). rewrite <- drop_drop, Hd8. unfold body. by rewrite drop_app_length'. }
  rewrite Hd24, Hz, split_events_data by (done || lia). rewrite Hd8. unfold body. by rewrite take_app_length'.
Qed.

Section Wrap.
Context `{WriteSocket}.

Lemma wrap_Write_spec b fuel : ∀ len w n e w', len ≤ length b → wrap_Write fuel b len w = Ret ((n, e), w') →
  len ≤ n ≤ length b ∧ wr_sent w' = wr_sent w ++ take (n - len) (drop len b) ∧ (n < length b → e ≠ None).
Proof.
  induction fuel as [|fuel IH]; intros len [k sent] n e w' Hlen Hr; [done|]. cbn [wrap_Write] in Hr.
  unfold wrap_write_once, wrap_shutdown in Hr. monad_in Hr. cbv beta iota delta [wr_tick wr_sent] in Hr.
  pose proof (sock_Write_fits k (drop len b)) as Hfit. pose proof (sock_Write_short k (drop len b)) as Hshort.
  rewrite length_drop in Hfit, Hshort. destruct (sock_Write k (drop len b)) as [m err]. simpl in Hfit, Hshort.
  destruct (decide (length b ≤ len + m)) as [Hall|Hall].
  { injection Hr as <- <- <-. split; [lia|]. split; [simpl; do 2 f_equal; lia|lia]. }
  assert (Hgo : ∀ k', wrap_Write fuel b (len + m) (mkWrap k' (sent ++ take m (drop len b))) = Ret (n, e, w') →
    len ≤ n ≤ length b ∧ wr_sent w' = sent ++ take (n - len) (drop len b) ∧ (n < length b → e ≠ None)).
  { intros k' Hr'. apply IH in Hr' as (Hn & Hs & He); [|lia]. split; [lia|]. split; [|done]. rewrite Hs. simpl.
    rewrite <- app_assoc. f_equal. rewrite <- drop_drop. replace (n - len) with (m + (n - (len + m))) by lia.
    rewrite take_take_drop. done. }
  destruct err as [[|msg]|].
  - destruct (send_closed (S k)); [|by eapply Hgo]. injection Hr as <- <- <-. split; [lia|]. split; [simpl; do 2 f_equal; lia|done].
  - injection Hr as <- <- <-. split; [lia|]. split; [simpl; do 2 f_equal; lia|done].
  - by eapply Hgo.
Qed.

(** C28. The writer below TLS hands the socket a prefix of the buffer, every byte
    once and in order whatever the short writes and time-outs; it reports exactly
    that length, and an error if it is not the whole buffer.  A socket that
    accepts something each time makes it return. *)
Theorem wrap_write_exact b w :
  (∀ fuel n e w', wrap_Write fuel b 0 w = Ret ((n, e), w') →
    n ≤ length b ∧ wr_sent w' = wr_sent w ++ take n b ∧ (n < length b → e ≠ None)) ∧
  ((∀ k s, s ≠ [] → 0 < fst (sock_Write k s)) → ∃ r, wrap_Write (S (length b)) b 0 w = Ret r).
Proof.
  split.
  - intros fuel n e w' Hr. apply wrap_Write_spec in Hr as (Hn & Hs & He); [|lia]. rewrite Nat.sub_0_r, drop_0 in Hs. split; [lia|done].
  - intros Hpos. assert (Hgen : ∀ fuel len w, len ≤ length b → length b < fuel + len → ∃ r, wrap_Write fuel b len w = Ret r).
    { clear w. induction fuel as [|fuel IH]; intros len [k sent] Hl Hf; [lia|]. cbn [wrap_Write].
      unfold wrap_write_once, wrap_shutdown. monad. cbv beta iota delta [wr_tick wr_sent].
      pose proof (sock_Write_fits k (drop len b)) as Hfit. pose proof (Hpos k (drop len b)) as Hp.
      rewrite length_drop in Hfit. destruct (sock_Write k (drop len b)) as [m err]. simpl in Hfit, Hp.
      destruct (decide (length b ≤ len + m)) as [Hall|Hall]; [eauto|].
      assert (0 < m) by (apply Hp; intros Hnil; apply (f_equal length) in Hnil; rewrite length_drop in Hnil; simpl in Hnil; lia).
      destruct err as [[|msg]|]; [destruct (send_closed (S k)); [eauto|]|eauto|]; apply IH; lia. }
    apply Hgen; lia.
Qed.
End Wrap.

Lemma trigger_zero c : Trigger (mkBackoff false 0 0 c) = (0%Z, mkBackoff false 0 0 (Nat.max c 1)) ∨ (c ≠ 0)%nat.
Proof. destruct c; [by left|by right]. Qed.

(** A plain TCP transport never waits before it reconnects, and the options that
    would set the wait are refused: the defaults are only set for TLS. *)
Theorem plain_tcp_no_backoff {X} ParseDuration LoadX509KeyPair ParseCertificate ReadFile pem_Decode path :
  let new := NewTransportTCPFactory (X := X) ParseDuration LoadX509KeyPair ParseCertificate ReadFile pem_Decode path in
  (∀ unUsed f n, new unUsed TransportTCPTCP = ok f → triggers n (NewExpBackoff (Reconnect f) (ReconnectMax f)) = repeat 0%Z n) ∧
  ∀ v, new [(VString (bytes_of "reconnect backoff"), v)] TransportTCPTCP = err (NotAvailable (path ++ bytes_of "reconnect backoff")).
Proof.
  intros new. split; [|by intros v]. intros unUsed f n Hf.
  assert (Hz : Reconnect f = 0%Z ∧ ReconnectMax f = 0%Z).
  { unfold new, NewTransportTCPFactory in Hf. rewrite decide_False in Hf by (intros Heq; vm_compute in Heq; discriminate Heq).
    destruct unUsed as [|[k v] rest]; [|done]. by injection Hf as <-. }
  destruct Hz as [-> ->]. assert (Hn : ∀ m, triggers m (mkBackoff false 0 0 1) = repeat 0%Z m).
  { induction m as [|m IH]; [done|]. cbn [triggers repeat]. by rewrite <- IH. }
  destruct n as [|n]; [done|]. cbn [triggers repeat]. by rewrite <- Hn.
Qed.

(** ** Concrete inputs *)
Definition sample_chunk (n : nat) : text * option sock_error :=
  if decide (n = 1) then (bytes_of "PON", Some SockTimeout)
  else if decide (n = 3) then (bytes_of "G" ++ be_PutUint32 0, None)
  else ([], Some (SockError (bytes_of "EOF"))).

#[local] Instance Socket_sample : Socket.
Proof.
  refine {| sock_Read := fun n k => (take k (fst (sample_chunk n)), snd (sample_chunk n)); recv_closed := fun _ => false; event_taken := fun _ => true |}.
  intros n k. simpl. rewrite length_take. lia.
Defined.

#[local] Instance WriteSocket_sample : WriteSocket.
Proof.
  refine {| sock_Write := fun n b => (Nat.min 2 (length b), if decide (2 < length b) then Some SockTimeout else None); send_closed := fun _ => false |}.
  - intros n b. cbn [fst]. lia.
  - intros n b Hs. cbn [fst snd] in *. case_decide; [done|]. lia.
Defined.

Definition sample_received : Receiver := mkReceiver 7 (wire_stream [WPong]) [PongEvent tt].

Lemma receiver_parses_witness :
  receiver 2 4 (mkReceiver 0 [] []) = Ret (Some (RecvSock (SockError (bytes_of "EOF"))), sample_received) ∧
  receiver_post (Some (RecvSock (SockError (bytes_of "EOF")))) sample_received.
Proof.
  assert (Hr : receiver 2 4 (mkReceiver 0 [] []) = Ret (Some (RecvSock (SockError (bytes_of "EOF"))), sample_received)) by (vm_compute; reflexivity).
  split; [exact Hr|]. exact (receiver_parses 2 4 0 _ _ Hr).
Defined.

Lemma receiver_frames_witness :
  rc_log sample_received = wire_stream [WPong] ∧ rc_events sample_received = wire_event <$> [WPong].
Proof.
  split; [reflexivity|].
  destruct (receiver_frames 2 4 0 [WPong] (Some (RecvSock (SockError (bytes_of "EOF")))) sample_received) as (_ & _ & Hall).
  - by constructor.
  - vm_compute. reflexivity.
  - exists []. reflexivity.
  - by eapply Hall.
Defined.

Lemma jdat_roundtrip_witness :
  decode_JDAT Some (JDAT id (bytes_of "0123456789abcdef") [mkEventDescriptor None 0 (bytes_of "{}"); mkEventDescriptor None 3 []]) =
    Some (bytes_of "0123456789abcdef", [bytes_of "{}"; []]).
Proof.
  apply (jdat_roundtrip id Some (bytes_of "0123456789abcdef") [mkEventDescriptor None 0 (bytes_of "{}"); mkEventDescriptor None 3 []]).
  - done.
  - reflexivity.
  - repeat constructor; vm_compute; reflexivity.
  - vm_compute. reflexivity.
Defined.

Lemma plain_tcp_no_backoff_witness :
  triggers 3 (NewExpBackoff 0 0) = [0; 0; 0]%Z.
Proof.
  apply (proj1 (@plain_tcp_no_backoff unit (fun _ => None) (fun _ _ => inl []) (fun _ => None) (fun _ => inl []) (fun _ => None) [])
    [] (newFactory TransportTCPTCP) 3). vm_compute. reflexivity.
Defined.

Lemma wrap_write_exact_witness :
  wrap_Write 4 (bytes_of "hello") 0 (mkWrap 0 []) = Ret ((5, None), mkWrap 5 (bytes_of "hello")) ∧
  wr_sent (mkWrap 5 (bytes_of "hello")) = [] ++ take 5 (bytes_of "hello").
Proof.
  assert (Hr : wrap_Write 4 (bytes_of "hello") 0 (mkWrap 0 []) = Ret ((5, None), mkWrap 5 (bytes_of "hello"))) by (vm_compute; reflexivity).
  split; [exact Hr|]. destruct (wrap_write_exact (bytes_of "hello") (mkWrap 0 [])) as [Hw _]. by destruct (Hw 4 5 None _ Hr) as (_ & Hs & _).
Defined.
