(* ===== verification/TcpConnect.v ===== *)
(** * lc-lib/transports/tcp: making a connection

    [connect] takes the next address of the pool and dials it; with TLS it sets up
    the client's configuration and performs the handshake, and when that fails it
    warns about client certificates that are not valid now.  Dialling, the
    handshake and the fields of certificates are parameters.  What follows a
    connection is [TcpControl]. *)
From S2P Require Import Prelude Core Codecs ConfigParser Config AddressPool Transports Tcp.

(** ** The name of a server entry *)

(** The name in an entry of the configuration: what follows the at sign, or what
    precedes the port. *)
Definition entry_host (server : text) : text :=
  match server with
  | "@"%byte :: name => name
  | _ => match SplitHostPort server with Some (h, _) => h | None => [] end
  end.

Section Connect.
Context {IP X : Type} (ParseIP : text → option IP) (addr_String : IP * Z → text).
Abbreviation Pool := (AddressPool.Pool (IP := IP)).
Abbreviation TCPAddr := (AddressPool.TCPAddr (IP := IP)).
Abbreviation resolver := (AddressPool.resolver (IP := IP)).
Implicit Types (p : Pool) (r : resolver) (f : TransportTCPFactory X).

(** ** [connect] *)
Definition VersionTLS10 : Z := 769.

Record tlsConfig := mkTlsConfig { MinVersion : Z; Certificates : list (list text); RootCAs : list X; ServerName : text }.

(** The socket the sender and the receiver use. *)
Inductive connection := PlainConn (a : TCPAddr) | TlsConn (a : TCPAddr) (c : tlsConfig).

Inductive connect_error := SelectFailed (e : pool_error) | DialFailed (desc e : text) | HandshakeFailed (desc e : text).

Definition tls_setup f (host : text) : tlsConfig :=
  mkTlsConfig VersionTLS10 (match certificate f with Some c => [c] | None => [] end) (caList f) host.

(** crypto/x509. *)
Context (CommonName : X → text) (NotBefore NotAfter : X → Z) (format_date : Z → text).

Definition cert_warnings (now : Z) (cert : X) : list text :=
  (if decide (now < NotBefore cert)%Z then
     [bytes_of "The client certificate with common name '" ++ CommonName cert ++ bytes_of "' is not valid until " ++ format_date (NotBefore cert) ++ bytes_of "."]
   else []) ++
  (if decide (NotAfter cert < now)%Z then
     [bytes_of "The client certificate with common name '" ++ CommonName cert ++ bytes_of "' expired on " ++ format_date (NotAfter cert) ++ bytes_of "."]
   else []).

(** The warnings logged; without a client certificate there is nothing to check. *)
Definition checkClientCertificates (now : Z) f : list text :=
  let issues := concat (cert_warnings now <$> certificateList f) in
  if decide (issues = []) then [] else issues ++ [bytes_of "Client certificate issues may be preventing successful connection."].

(** [net.DialTimeout] and [tls.Conn.Handshake]: an error or success. *)
Context (dial : TCPAddr → option text) (handshake : TCPAddr → tlsConfig → option text).

(** The result, the pool, and the warnings logged. *)
Definition connect (now : Z) r f p : outcome ((connect_error + connection) * Pool * list text) :=
  '(next, p') ← Pool_Next ParseIP addr_String r p;
  match next with
  | inl e => Ret (inl (SelectFailed e), p', [])
  | inr addr =>
      match dial addr with
      | Some e => Ret (inl (DialFailed (Desc p') e), p', [])
      | None =>
          if decide (tf_transport f = TransportTCPTLS) then
            let c := tls_setup f (Host p') in
            match handshake addr c with
            | Some e => Ret (inl (HandshakeFailed (Desc p') e), p', checkClientCertificates now f)
            | None => Ret (inr (TlsConn addr c), p', [])
            end
          else Ret (inr (PlainConn addr), p', [])
      end
  end.

(** ** The host of the pool *)

(** Once its addresses are looked up, the host is the name of the entry. *)
Definition host_ok p : Prop := addresses p ≠ None → host p = entry_host (server p).

Lemma NewPool_host_ok s : host_ok (NewPool s).
Proof. by intros []. Qed.

Lemma populateLookup_host r h port p res p' : populateLookup ParseIP r h port p = (res, p') → host p' = host p ∧ server p' = server p.
Proof. unfold populateLookup. destruct (ParseIP h); [by intros [= <- <-]|]. by destruct (LookupIP r h) as [[]|]; intros [= <- <-]. Qed.

Lemma populateSrvs_host r srvs p res p' : populateSrvs ParseIP r srvs p = (res, p') → host p' = host p ∧ server p' = server p.
Proof.
  revert p. induction srvs as [|s srvs IH]; intros p; simpl; [by intros [= <- <-]|].
  destruct (populateLookup _ _ _ _ p) as [[e|b] p1] eqn:E; apply populateLookup_host in E as [E1 E2]; [by intros [= <- <-]|].
  intros [H1 H2]%IH. split; congruence.
Qed.

(** A host with a port. *)
Lemma populate_standard r p p' :
  match SplitHostPort (server p) with
  | None => (Some (ErrHostPort (server p)), set_host [] p)
  | Some (h, portStr) =>
      match ParseUint16 portStr with
      | None => (Some (ErrPort portStr), set_host h p)
      | Some port =>
          match populateLookup ParseIP r h port (set_host h p) with
          | (inl err, p') => (Some err, set_hostIsIP false p')
          | (inr b, p') => (None, set_hostIsIP b p')
          end
      end
  end = (None, p') →
  host p' = (match SplitHostPort (server p) with Some (h, _) => h | None => [] end) ∧ server p' = server p.
Proof.
  destruct (SplitHostPort (server p)) as [[h ps]|]; [|done]. destruct (ParseUint16 ps) as [port|]; [|done].
  destruct (populateLookup _ _ _ _ _) as [[e|b] p1] eqn:E; apply populateLookup_host in E as [E1 E2]; [done|]. by intros [= <-].
Qed.

Lemma populateAddresses_host r p p' : populateAddresses ParseIP r p = (None, p') → host p' = entry_host (server p') ∧ server p' = server p.
Proof.
  intros Hp. cut (host p' = entry_host (server p) ∧ server p' = server p); [intros [-> ->]; done|]. revert Hp.
  unfold populateAddresses, entry_host. destruct (server p) as [|c name] eqn:Hs.
  { pose proof (populate_standard r p p') as H. rewrite Hs in H. exact H. }
  destruct (decide (c = "@"%byte)) as [->|Hc].
  - unfold processSrv. simpl. destruct (rfc2782 p); cbn -[populateSrvs];
      match goal with |- context [LookupSRV r ?s ?t ?n] => destruct (LookupSRV r s t n) as [[|srv srvs]|] end; try done;
      intros [H1 H2]%populateSrvs_host; (split; [exact H1|rewrite H2; exact Hs]).
  - pose proof (populate_standard r p p') as H. rewrite Hs in H. destruct c; try exact H. by destruct Hc.
Qed.

Lemma Pool_Next_host r p res p' : host_ok p → Pool_Next ParseIP addr_String r p = Ret (res, p') →
  server p' = server p ∧ host_ok p' ∧ (∀ a, res = inr a → host p' = entry_host (server p)).
Proof.
  intros Hok. unfold Pool_Next.
  assert (Htake : ∀ q, host q = entry_host (server q) → take_next addr_String q = Ret (res, p') →
    server p' = server q ∧ host_ok p' ∧ ∀ a, res = inr a → host p' = entry_host (server q)).
  { intros q Hq. unfold take_next. destruct (default [] (addresses q)) as [|a l]; [done|]. intros [= <- <-].
    split; [done|]. split; [by intros _|]. by intros a' _. }
  destruct (addresses p) as [l|] eqn:Ha; [apply Htake, Hok; congruence|].
  destruct (populateAddresses _ _ _) as [[e|] p1] eqn:E.
  - intros [= <- <-]. destruct (populateAddresses_spec ParseIP addr_String _ _ _ _ E eq_refl) as ((Hs & _) & _). split; [exact Hs|]. split; [by intros []|done].
  - apply populateAddresses_host in E as [E1 E2]. intros H. destruct (Htake _ E1 H) as (H1 & H2 & H3). rewrite E2 in *. done.
Qed.

(** C38. A connection of the tls transport is never in the clear: it is returned
    only after a handshake in which the server was to present a certificate for
    the very name in the entry of the configuration - whatever the names and
    addresses the resolver came up with - signed by one of the authorities of
    [ssl ca] and no other, and the client presented the certificate configured or
    none.  Connecting keeps the pool such that this goes on to hold. *)
Theorem connect_authenticates now r f p res p' warnings :
  tf_transport f = TransportTCPTLS → host_ok p → connect now r f p = Ret (res, p', warnings) →
  server p' = server p ∧ host_ok p' ∧
  ∀ conn, res = inr conn → ∃ addr, conn = TlsConn addr (mkTlsConfig VersionTLS10 (option_list (certificate f)) (caList f) (entry_host (server p))) ∧
    handshake addr (mkTlsConfig VersionTLS10 (option_list (certificate f)) (caList f) (entry_host (server p))) = None ∧
    dial addr = None ∧ warnings = [].
Proof.
  intros Ht Hok. unfold connect.
  destruct (Pool_Next ParseIP addr_String r p) as [[[e|addr] p1]| |] eqn:E; [| |done..]; cbn [mbind outcome_mbind outcome_bind];
    destruct (Pool_Next_host r p _ p1 Hok E) as (Hs & Hok' & Hh); [by intros [= <- <- <-]|]. rewrite (decide_True (P := tf_transport f = _)) by done.
  destruct (dial addr) as [e|] eqn:Ed; [by intros [= <- <- <-]|]. unfold Host. rewrite (Hh addr eq_refl).
  destruct (handshake addr _) as [e|] eqn:Eh; intros [= <- <- <-]; (split; [done|]); (split; [done|]); [done|].
  intros conn [= <-]. exists addr. unfold tls_setup, option_list in *. by destruct (certificate f).
Qed.
End Connect.

(** A server entry with two addresses; the certificate is checked against its name. *)
Definition sample_resolver : AddressPool.resolver (IP := nat) := mkResolver (fun _ _ _ => None) (fun _ => Some [10; 11]).
Definition sample_factory (name : text) : TransportTCPFactory unit := mkTCPFactory name 0 0 [] [] [] None [] [tt].
Definition sample_connect (name : text) (server : text) :=
  connect (IP := nat) (fun _ => None) (fun _ => []) (fun _ => []) (fun _ => 0%Z) (fun _ => 0%Z) (fun _ => []) (fun _ => None)
    (fun _ c => if decide (ServerName c = bytes_of "logs.example") then None else Some (bytes_of "bad certificate"))
    5 sample_resolver (sample_factory name) (NewPool server).

Lemma connect_authenticates_witness : ∃ p conn, sample_connect TransportTCPTLS (bytes_of "logs.example:443") = Ret (inr conn, p, []) ∧
  ∃ addr, conn = TlsConn addr (mkTlsConfig VersionTLS10 [] [tt] (bytes_of "logs.example")).
Proof.
  destruct (sample_connect TransportTCPTLS (bytes_of "logs.example:443")) as [[[[e|conn] p] w]| |] eqn:E; vm_compute in E; try discriminate E.
  assert (Hc : sample_connect TransportTCPTLS (bytes_of "logs.example:443") = Ret (inr conn, p, w)) by (injection E as <- <- <-; vm_compute; reflexivity).
  destruct (connect_authenticates (IP := nat) (fun _ => None) (fun _ => []) (fun _ => []) (fun _ => 0%Z) (fun _ => 0%Z) (fun _ => []) (fun _ => None)
    (fun _ c => if decide (ServerName c = bytes_of "logs.example") then None else Some (bytes_of "bad certificate"))
    5 sample_resolver (sample_factory TransportTCPTLS) (NewPool (bytes_of "logs.example:443")) (inr conn) p w eq_refl (NewPool_host_ok _) Hc) as (_ & _ & H).
  destruct (H conn eq_refl) as (addr & Hconn & _ & _ & Hw). exists p, conn. split; [by rewrite Hw|]. exists addr. exact Hconn.
Defined.
