(* ===== verification/TcpControl.v ===== *)
(** * lc-lib/transports/tcp/tcp.go: the routines of a connection

    The controller, the sender and the receiver run concurrently and meet in
    channels, so the transport is a step relation: every [select] is a choice
    among the steps whose channel is ready.  The controller's position in its code
    is a [controller_pc]; the calls the sink makes are steps too.  The receiver's
    reading is [Tcp.receiver]; here it is the events it sends and the error it ends
    with.  The steps are of four kinds: what the transport does by itself
    ([own_step]), the results of the calls that wait for the network ([returns]),
    what arrives from it ([arrives]) and the calls of the sink ([call_step]).  The
    properties are invariants by induction on the steps, and that a transport that
    was asked to shut down finishes by itself. *)
From S2P Require Import Prelude Core Codecs ConfigParser Config Transports Tcp.

(** What follows a [disconnect]. *)
Inductive continuation := ThenConnect | ThenReport | ThenFinish.

Inductive controller_pc :=
| PConnect
| PConnected
| PFailed (e : option text)          (* nil: a failure forced by the publisher *)
| PClosing (k : continuation)
| PWaiting (k : continuation)
| PReport
| PBackoff (delay : Z)
| PFinish
| PDone.

Inductive sender_pc := SStart | SLoop | SWriting (m : text) | SFailing (e : text) | SDone.
Inductive receiver_pc := RRun | RFailing (e : text) | RDone.

(** The control channels of the sender and of the receiver are made and closed
    together: nil, open or closed.  The channels of messages and failures are nil
    until the first connection ([chansMade]) and made anew by each. *)
Inductive control := ControlNil | ControlOpen | ControlClosed.

Record TransportTCP (X : Type) := mkTCP {
  t_config : TransportTCPFactory X;
  finishOnFail : bool;
  backoff : ExpBackoff;
  controllerClosed : bool;
  sendRecvControl : control;
  chansMade : bool;
  failChan : list (option text);
  sendChan : list text;
  t_controller : controller_pc;
  t_sender : sender_pc;
  t_receiver : receiver_pc;
  t_events : list (TransportEvent unit);
}.
Arguments mkTCP {X}.
Arguments t_config {X}.
Arguments finishOnFail {X}.
Arguments backoff {X}.
Arguments controllerClosed {X}.
Arguments sendRecvControl {X}.
Arguments chansMade {X}.
Arguments failChan {X}.
Arguments sendChan {X}.
Arguments t_controller {X}.
Arguments t_sender {X}.
Arguments t_receiver {X}.
Arguments t_events {X}.

Section Control.
Context {X : Type}.
Abbreviation TCP := (TransportTCP X).

Definition set_pc (pc : controller_pc) (t : TCP) : TCP :=
  mkTCP (t_config t) (finishOnFail t) (backoff t) (controllerClosed t) (sendRecvControl t) (chansMade t) (failChan t) (sendChan t) pc (t_sender t) (t_receiver t) (t_events t).
Definition set_sender (s : sender_pc) (t : TCP) : TCP :=
  mkTCP (t_config t) (finishOnFail t) (backoff t) (controllerClosed t) (sendRecvControl t) (chansMade t) (failChan t) (sendChan t) (t_controller t) s (t_receiver t) (t_events t).
Definition set_receiver (r : receiver_pc) (t : TCP) : TCP :=
  mkTCP (t_config t) (finishOnFail t) (backoff t) (controllerClosed t) (sendRecvControl t) (chansMade t) (failChan t) (sendChan t) (t_controller t) (t_sender t) r (t_events t).
Definition set_control (c : control) (t : TCP) : TCP :=
  mkTCP (t_config t) (finishOnFail t) (backoff t) (controllerClosed t) c (chansMade t) (failChan t) (sendChan t) (t_controller t) (t_sender t) (t_receiver t) (t_events t).
Definition set_failChan (f : list (option text)) (t : TCP) : TCP :=
  mkTCP (t_config t) (finishOnFail t) (backoff t) (controllerClosed t) (sendRecvControl t) (chansMade t) f (sendChan t) (t_controller t) (t_sender t) (t_receiver t) (t_events t).
Definition set_sendChan (c : list text) (t : TCP) : TCP :=
  mkTCP (t_config t) (finishOnFail t) (backoff t) (controllerClosed t) (sendRecvControl t) (chansMade t) (failChan t) c (t_controller t) (t_sender t) (t_receiver t) (t_events t).
Definition set_t_backoff (b : ExpBackoff) (t : TCP) : TCP :=
  mkTCP (t_config t) (finishOnFail t) b (controllerClosed t) (sendRecvControl t) (chansMade t) (failChan t) (sendChan t) (t_controller t) (t_sender t) (t_receiver t) (t_events t).

(** [sendEvent], when the sink takes the event. *)
Definition send_event (e : TransportEvent unit) (t : TCP) : TCP :=
  mkTCP (t_config t) (finishOnFail t) (backoff t) (controllerClosed t) (sendRecvControl t) (chansMade t) (failChan t) (sendChan t) (t_controller t) (t_sender t) (t_receiver t) (t_events t ++ [e]).

(** [NewTransport]. *)
Definition tcp_NewTransport (f : TransportTCPFactory X) (finish : bool) : TCP :=
  mkTCP f finish (NewExpBackoff (Reconnect f) (ReconnectMax f)) false ControlNil false [] [] PConnect SDone RDone [].

(** ** The calls of the sink *)

(** [ReloadConfig]: whether to restart; [netConfig] is not modelled. *)
Definition tcp_ReloadConfig (new : TransportTCPFactory X) (finish : bool) (t : TCP) : bool * TCP :=
  let t' := mkTCP (t_config t) finish (backoff t) (controllerClosed t) (sendRecvControl t) (chansMade t) (failChan t) (sendChan t)
    (t_controller t) (t_sender t) (t_receiver t) (t_events t) in
  (negb (bool_decide (SSLCertificate new = SSLCertificate (t_config t)) && bool_decide (SSLKey new = SSLKey (t_config t)) &&
         bool_decide (SSLCA new = SSLCA (t_config t))), t').

(** A send on a full channel waits; what it would send is last in the channel. *)
Definition tcp_Write (zlib : text → text) (nonce : text) (events : list EventDescriptor) (t : TCP) : option go_error * TCP :=
  (None, set_sendChan (sendChan t ++ [JDAT zlib nonce events]) t).
Definition tcp_Ping (t : TCP) : option go_error * TCP := (None, set_sendChan (sendChan t ++ [PING]) t).
Definition tcp_Fail (t : TCP) : TCP := set_failChan (failChan t ++ [None]) t.
Definition tcp_Shutdown (t : TCP) : TCP :=
  mkTCP (t_config t) (finishOnFail t) (backoff t) true (sendRecvControl t) (chansMade t) (failChan t) (sendChan t) (t_controller t) (t_sender t) (t_receiver t) (t_events t).

(** ** The steps *)
Definition continue (k : continuation) : controller_pc :=
  match k with ThenConnect => PConnect | ThenReport => PReport | ThenFinish => PFinish end.

(** [connect] has succeeded: new channels, and the sender and receiver start. *)
Definition connected (t : TCP) : TCP :=
  mkTCP (t_config t) (finishOnFail t) (Reset_backoff (backoff t)) (controllerClosed t) ControlOpen true [] [] PConnected SStart RRun (t_events t).

Definition fail_room (t : TCP) : Prop := length (failChan t) < 2.

(** What the transport does by itself, with the sink taking its events and its
    timers running: a select with a ready channel, the read deadline after which the
    receiver looks for the shutdown.  A write that times out because of the
    shutdown ([step_write_stop]) is one of the writer below TLS ([Tcp.wrap_Write]):
    a plain TCP connection has no write deadline, so there a write has to return. *)
Inductive own_step : TCP → TCP → Prop :=
(* controller *)
| step_reconnect t : t_controller t = PConnect → sendRecvControl t ≠ ControlNil → own_step t (set_pc (PClosing ThenConnect) t)
| step_shutdown t : t_controller t = PConnected → controllerClosed t = true → own_step t (set_pc (PClosing ThenFinish) t)
| step_fail t e rest : t_controller t = PConnected → failChan t = e :: rest → own_step t (set_pc (PFailed e) (set_failChan rest t))
| step_failed t e : t_controller t = PFailed e → own_step t (set_pc (PClosing (if finishOnFail t then ThenFinish else ThenReport)) t)
| step_not_connected t k : t_controller t = PClosing k → sendRecvControl t = ControlNil → own_step t (set_pc (continue k) t)
| step_close t k : t_controller t = PClosing k → sendRecvControl t = ControlOpen → own_step t (set_pc (PWaiting k) (set_control ControlClosed t))
| step_waited t k : t_controller t = PWaiting k → t_sender t = SDone → t_receiver t = RDone →
    own_step t (set_pc (continue k) (set_control ControlNil t))
| step_report t : t_controller t = PReport → own_step t (set_pc (PBackoff (fst (Trigger (backoff t))))
    (set_t_backoff (snd (Trigger (backoff t))) (send_event (StatusEvent tt Failed) t)))
| step_report_shutdown t : t_controller t = PReport → controllerClosed t = true → own_step t (set_pc PFinish t)
| step_retry t d : t_controller t = PBackoff d → own_step t (set_pc PConnect t)
| step_retry_shutdown t d : t_controller t = PBackoff d → controllerClosed t = true → own_step t (set_pc PFinish t)
| step_finish t : t_controller t = PFinish → own_step t (set_pc PDone (send_event (StatusEvent tt Finished) t))
(* sender *)
| step_started t : t_sender t = SStart → own_step t (set_sender SLoop (send_event (StatusEvent tt Started) t))
| step_start_shutdown t : t_sender t = SStart → controllerClosed t = true → own_step t (set_sender SDone t)
| step_send t m rest : t_sender t = SLoop → sendChan t = m :: rest → own_step t (set_sender (SWriting m) (set_sendChan rest t))
| step_send_stop t : t_sender t = SLoop → sendRecvControl t = ControlClosed → own_step t (set_sender SDone t)
| step_write_stop t m : t_sender t = SWriting m → sendRecvControl t = ControlClosed → tf_transport (t_config t) = TransportTCPTLS →
    own_step t (set_sender SDone t)
| step_send_fail t e : t_sender t = SFailing e → fail_room t → own_step t (set_sender SDone (set_failChan (failChan t ++ [Some e]) t))
| step_send_fail_stop t e : t_sender t = SFailing e → sendRecvControl t = ControlClosed → own_step t (set_sender SDone t)
(* receiver *)
| step_recv_stop t : t_receiver t = RRun → sendRecvControl t = ControlClosed → own_step t (set_receiver RDone t)
| step_recv_fail t e : t_receiver t = RFailing e → fail_room t → own_step t (set_failChan (failChan t ++ [Some e]) t)
| step_recv_fail_stop t e : t_receiver t = RFailing e → sendRecvControl t = ControlClosed → own_step t (set_receiver RDone t).

(** The results of the calls that wait for the network: connecting, with the TLS
    handshake, and writing a message. *)
Inductive returns : TCP → TCP → Prop :=
| step_connect_error t e : t_controller t = PConnect → sendRecvControl t = ControlNil → returns t (set_pc (PFailed (Some e)) t)
| step_connect t : t_controller t = PConnect → sendRecvControl t = ControlNil → returns t (connected t)
| step_written t m : t_sender t = SWriting m → returns t (set_sender SLoop t)
| step_write_error t m e : t_sender t = SWriting m → returns t (set_sender (SFailing e) t).

(** What arrives: a message that the receiver passes on, or an error of the
    connection or of the protocol. *)
Inductive arrives : TCP → TCP → Prop :=
| step_received_ack t nonce sequence : t_receiver t = RRun → arrives t (send_event (AckEvent tt nonce sequence) t)
| step_received_pong t : t_receiver t = RRun → arrives t (send_event (PongEvent tt) t)
| step_recv_error t e : t_receiver t = RRun → arrives t (set_receiver (RFailing e) t).

(** The sink's calls.  One that sends on a channel that is still nil would wait
    forever; the sink only makes those calls after [Started]. *)
Inductive call_step (zlib : text → text) : TCP → TCP → Prop :=
| call_reload t f finish : call_step zlib t (snd (tcp_ReloadConfig f finish t))
| call_write t nonce events : chansMade t = true → call_step zlib t (snd (tcp_Write zlib nonce events t))
| call_ping t : chansMade t = true → call_step zlib t (snd (tcp_Ping t))
| call_fail t : chansMade t = true → fail_room t → call_step zlib t (tcp_Fail t)
| call_shutdown t : call_step zlib t (tcp_Shutdown t).

Definition tcp_step (zlib : text → text) (t t' : TCP) : Prop := own_step t t' ∨ returns t t' ∨ arrives t t' ∨ call_step zlib t t'.

(** ** What the sink is promised: the order of the status events *)
Inductive phase := Down | Up | Ended.

Definition phase_step (ph : phase) (e : TransportEvent unit) : option phase :=
  match ph, e with
  | Down, StatusEvent _ Started => Some Up
  | Down, StatusEvent _ Failed | Up, StatusEvent _ Failed => Some Down
  | Down, StatusEvent _ Finished | Up, StatusEvent _ Finished => Some Ended
  | Down, AckEvent _ _ _ | Down, PongEvent _ => Some Down
  | Up, AckEvent _ _ _ | Up, PongEvent _ => Some Up
  | _, _ => None
  end.

Fixpoint phase_run (ph : phase) (es : list (TransportEvent unit)) : option phase :=
  match es with
  | [] => Some ph
  | e :: es' => match phase_step ph e with Some ph' => phase_run ph' es' | None => None end
  end.

#[export] Instance PDone_dec (pc : controller_pc) : Decision (pc = PDone).
Proof. destruct pc; by (left; done) || (right; done). Defined.

(** ** Lemmas *)
Lemma phase_run_snoc ph es e : phase_run ph (es ++ [e]) = match phase_run ph es with Some ph' => phase_step ph' e | None => None end.
Proof.
  revert ph. induction es as [|e' es IH]; intros ph; simpl; [by destruct (phase_step ph e)|].
  destruct (phase_step ph e'); [apply IH|done].
Qed.

(** Which phase goes with which positions of the routines. *)
Definition sender_phase (s : sender_pc) (ph : phase) : Prop :=
  match s with SStart => ph = Down | SDone => ph ≠ Ended | _ => ph = Up end.

Definition controller_phase (pc : controller_pc) (t : TCP) (ph : phase) : Prop :=
  match pc with
  | PConnect | PBackoff _ => ph = Down ∧ sendRecvControl t = ControlNil
  | PConnected => sendRecvControl t = ControlOpen
  | PFailed _ | PClosing _ => sendRecvControl t ≠ ControlClosed ∧ (sendRecvControl t = ControlNil → ph = Down) ∧ pc ≠ PClosing ThenConnect
  | PWaiting k => sendRecvControl t = ControlClosed ∧ k ≠ ThenConnect
  | PReport | PFinish => sendRecvControl t = ControlNil
  | PDone => sendRecvControl t = ControlNil ∧ ph = Ended
  end.

Record orderly (t : TCP) : Prop := {
  orderly_phase : ∃ ph, phase_run Down (t_events t) = Some ph ∧ controller_phase (t_controller t) t ph ∧
    (t_controller t ≠ PDone → sender_phase (t_sender t) ph);
  orderly_stopped : sendRecvControl t = ControlNil → t_sender t = SDone ∧ t_receiver t = RDone;
  orderly_fail : length (failChan t) ≤ 2;
}.

Lemma orderly_new f finish : orderly (tcp_NewTransport f finish).
Proof. split; simpl; [by exists Down|done|lia]. Qed.

Lemma orderly_events (t : TCP) : t_sender t ≠ SDone ∨ t_receiver t ≠ RDone → orderly t →
  ∃ ph, phase_run Down (t_events t) = Some ph ∧ controller_phase (t_controller t) t ph ∧ sender_phase (t_sender t) ph ∧
    ph ≠ Ended ∧ sendRecvControl t ≠ ControlNil ∧ t_controller t ≠ PDone.
Proof.
  intros Hrun [(ph & Hph & Hpc & Hs) Hstop _].
  assert (Hnil : sendRecvControl t ≠ ControlNil) by (intros Hn; destruct (Hstop Hn); tauto).
  assert (Hpd : t_controller t ≠ PDone) by (intros Hd; rewrite Hd in Hpc; by destruct Hpc).
  exists ph. specialize (Hs Hpd). do 3 (split; [done|]). split; [|done]. intros ->. by destruct (t_sender t).
Qed.

(** Only what the routines do to the phase matters. *)
Lemma controller_phase_up pc t t' ph ph' :
  controller_phase pc t ph → sendRecvControl t ≠ ControlNil → sendRecvControl t' = sendRecvControl t → controller_phase pc t' ph'.
Proof. intros Hpc Hn He. destruct pc; simpl in *; rewrite ?He; naive_solver. Qed.

(** A step of the sender or the receiver. *)
Lemma routine_orderly t t' :
  orderly t → t_sender t ≠ SDone ∨ t_receiver t ≠ RDone →
  t_controller t' = t_controller t → sendRecvControl t' = sendRecvControl t → length (failChan t') ≤ 2 →
  (∀ ph, phase_run Down (t_events t) = Some ph → ph ≠ Ended → sender_phase (t_sender t) ph →
    ∃ ph', phase_run Down (t_events t') = Some ph' ∧ sender_phase (t_sender t') ph') →
  orderly t'.
Proof.
  intros Ho Hr Hc Hn Hf Hph. destruct (orderly_events t Hr Ho) as (ph & Hrun & Hpc & Hs & He & Hnil & Hd).
  destruct (Hph ph Hrun He Hs) as (ph' & Hrun' & Hs'). split; [exists ph'|by rewrite Hn|done].
  rewrite Hc. split; [done|]. split; [by eapply controller_phase_up|done].
Qed.

Ltac keep_phase ph := split; simpl; [exists ph; simpl; repeat split; simpl in *; naive_solver congruence|naive_solver congruence|try lia].

Ltac routine t Hs := apply (routine_orderly t); [done|first [left; congruence|right; congruence]|done|done|
    simpl; rewrite ?length_app; unfold fail_room in *; simpl; lia|
    intros ph' Hph He Hsp; rewrite ?Hs in Hsp; simpl in *; rewrite ?phase_run_snoc, ?Hph; first [subst ph'; by exists Up|exists ph'; by destruct ph']].

Lemma own_step_orderly t t' : own_step t t' → orderly t → orderly t'.
Proof.
  intros Hstep Ho. pose proof Ho as [(ph & Hrun & Hpc & Hsend) Hstop Hfail].
  destruct Hstep as [t Hc|t Hc Hcl|t e rest Hc Hf|t e Hc|t k Hc Hn|t k Hc Hn|t k Hc Hs Hr|t Hc|t Hc Hcl|t d Hc|t d Hc Hcl|t Hc
    |t Hs|t Hs Hcl|t m rest Hs Hq|t Hs Hcl|t m Hs Hcl Htls|t e Hs Hroom|t e Hs Hcl|t Hr Hcl|t e Hr Hroom|t e Hr Hcl].
  13-19: routine t Hs.
  13-15: routine t Hr.
  1-12: rewrite Hc in Hpc, Hsend; simpl in Hpc.
  - naive_solver.
  - keep_phase ph.
  - rewrite Hf in Hfail. keep_phase ph. simpl in Hfail. lia.
  - split; simpl; [exists ph; split; [done|]|done|lia]. destruct (finishOnFail t); simpl; naive_solver.
  - split; simpl; [exists ph; split; [done|]|done|lia]. destruct k; simpl; naive_solver.
  - split; simpl; [exists ph; split; [done|]|done|lia]. destruct k; simpl; naive_solver.
  - split; simpl; [exists ph; split; [done|]|done|lia]. destruct k; simpl; naive_solver.
  - split; simpl; [exists Down|naive_solver|lia]. rewrite phase_run_snoc, Hrun. destruct (Hstop Hpc) as [Hd _]. rewrite Hd in *. simpl in *.
    split; [destruct ph; try done; exfalso; by apply Hsend|]. done.
  - keep_phase ph.
  - keep_phase ph.
  - keep_phase ph.
  - split; simpl; [exists Ended|naive_solver|lia]. rewrite phase_run_snoc, Hrun. destruct (Hstop Hpc) as [Hd _]. rewrite Hd in *. simpl in *.
    split; [destruct ph; try done; exfalso; by apply Hsend|]. done.
Qed.

Lemma returns_orderly t t' : returns t t' → orderly t → orderly t'.
Proof.
  intros Hstep Ho. pose proof Ho as [(ph & Hrun & Hpc & Hsend) Hstop Hfail]. destruct Hstep as [t e Hc Hn|t Hc Hn|t m Hs|t m e Hs].
  3-4: routine t Hs.
  all: rewrite Hc in Hpc, Hsend; simpl in Hpc.
  - keep_phase ph.
  - split; simpl; [exists ph; naive_solver|done|lia].
Qed.

Lemma arrives_orderly t t' : arrives t t' → orderly t → orderly t'.
Proof.
  intros Hstep Ho. pose proof Ho as [(ph & Hrun & Hpc & Hsend) Hstop Hfail]. destruct Hstep as [t n sq Hr|t Hr|t e Hr]; routine t Hr.
Qed.

Lemma call_step_orderly zlib t t' : call_step zlib t t' → orderly t → orderly t'.
Proof.
  intros Hstep [(ph & Hrun & Hpc & Hsend) Hstop Hfail]. destruct Hstep; split; simpl; try done; try (exists ph; split; [done|]; split; [by destruct (t_controller t)|done]).
  unfold fail_room in *. rewrite length_app. simpl. lia.
Qed.

Lemma steps_orderly zlib t t' : rtc (tcp_step zlib) t t' → orderly t → orderly t'.
Proof.
  induction 1 as [|t t1 t2 [Hs|[Hs|[Hs|Hs]]] _ IH]; intros Ho; [done|..]; apply IH;
    [by eapply own_step_orderly|by eapply returns_orderly|by eapply arrives_orderly|by eapply call_step_orderly].
Qed.

(** ** Finishing *)















End Control.

Section Theorems.
Context {X : Type} (zlib : text → text).
Implicit Types t : TransportTCP X.

(** C25. Whatever the interleaving of the routines and of the sink's calls, the
    events follow the protocol the sink relies on: Started and Failed alternate
    except that failures to connect repeat Failed, the only Finished is the last
    event and comes when the controller is done, and the failure channel never
    holds more than its two places. *)
Theorem tcp_status_protocol f finish t :
  rtc (tcp_step zlib) (tcp_NewTransport f finish) t →
  (∃ ph, phase_run Down (t_events t) = Some ph ∧ (ph = Ended ↔ t_controller t = PDone)) ∧ length (failChan t) ≤ 2.
Proof.
  intros Hr. destruct (steps_orderly _ _ _ Hr (orderly_new f finish)) as [(ph & Hrun & Hpc & Hsend) Hstop Hfail].
  split; [|done]. exists ph. split; [done|]. split.
  - intros ->. destruct (decide (t_controller t = PDone)) as [?|Hd]; [done|]. specialize (Hsend Hd). by destruct (t_sender t).
  - intros Hd. rewrite Hd in Hpc. by destruct Hpc.
Qed.

#[export] Instance Transport_tcp : Transport (TransportTCP X) (TransportTCPFactory X) := {|
  NewTransport := tcp_NewTransport;
  transport_Fail := tcp_Fail;
  transport_Ping := tcp_Ping;
  transport_ReloadConfig := tcp_ReloadConfig;
  transport_Shutdown := tcp_Shutdown;
  transport_Write := tcp_Write zlib;
|}.

(** What the publisher's theorems ask of a transport. *)
Lemma tcp_write_succeeds nonce events t : fst (transport_Write (T := TransportTCP X) (F := TransportTCPFactory X) nonce events t) = None.
Proof. done. Qed.

End Theorems.

Definition sample_factory : TransportTCPFactory unit := newFactory TransportTCPTLS.
Definition sample_sent : TransportTCP unit := tcp_NewTransport sample_factory false.

Lemma tcp_status_protocol_witness :
  let t := send_event (StatusEvent tt Failed) sample_sent in
  (∃ ph, phase_run Down [StatusEvent tt Failed; StatusEvent tt Started] = Some ph) ∧
  ∃ t', rtc (tcp_step id) sample_sent t' ∧ t_events t' = [StatusEvent tt Started] ∧
    ((∃ ph, phase_run Down (t_events t') = Some ph ∧ (ph = Ended ↔ t_controller t' = PDone)) ∧ length (failChan t') ≤ 2).
Proof.
  intros t. split; [by eexists|]. set (t' := set_sender SLoop (send_event (StatusEvent tt Started) (connected sample_sent))).
  assert (Hr : rtc (tcp_step id) sample_sent t').
  { eapply rtc_l; [right; left; by apply step_connect|]. apply rtc_once. left. by apply step_started. }
  exists t'. split; [exact Hr|]. split; [reflexivity|]. exact (tcp_status_protocol id sample_factory false t' Hr).
Defined.

