(* ===== verification/Delivery.v ===== *)
(** * The path of a line: harvester, spooler, publisher, registrar

    The components composed the way log-courier.go wires them for files: the
    spooler receives what the harvesters send, the publisher receives the spools,
    and the registrar receives the spools of acknowledgements of the publisher
    between those of the prospector.  The property is the program's promise: from
    the offset stored for a file, everything not acknowledged is read again. *)
From S2P Require Import Prelude InternalList Core Payload Codecs ConfigParser Config LineReader Harvester HarvesterProps Spooler Transports Endpoint Registrar Publisher PublisherOrder PublisherReload PublisherProps.

(** ** What the registrar can have stored *)
Section Stored.
Context {FileInfo : Type} (fi_Ino fi_Dev : FileInfo → Z).
Abbreviation event := (RegEvent (FileInfo := FileInfo)).

(** The prospector discovers the stream [s] at the offset [o] only, and
    acknowledges nothing. *)
Definition prospector_event (s : Stream) (o : Z) (e : event) : Prop :=
  match e with RegAck _ => False | RegDiscover s' _ o' _ => s' = s → o' = o | _ => True end.

(** The events the registrar received, in whatever order, come from the
    prospector, or are acknowledgements of some of [acked]. *)
Definition registrar_event (s : Stream) (o : Z) (acked : list EventDescriptor) (e : event) : Prop :=
  prospector_event s o e ∨ ∃ evs, e = RegAck evs ∧ ∀ ev, ev ∈ evs → ev ∈ acked.

Lemma stored_offset s o acked es cur z :
  Forall (registrar_event s o acked) es → (∀ z, cur = Some z → z = o ∨ z ∈ stream_offsets s acked) →
  foldl (resume_one s) cur es = Some z → z = o ∨ z ∈ stream_offsets s acked.
Proof.
  intros Hes. revert cur. induction Hes as [|e es He _ IH]; intros cur Hcur; simpl; [apply Hcur|]. apply IH. clear IH z.
  intros z. destruct e as [evs|s'|s' src off info|s' src]; simpl.
  - destruct cur as [z0|]; [|done]. destruct (last _) as [ev|] eqn:El; [|by apply Hcur]. intros [= <-]. right.
    apply last_Some_elem_of, list_elem_of_filter in El as [Hs Hev]. destruct He as [[]|(evs' & [= <-] & Hin)].
    unfold stream_offsets. apply list_elem_of_fmap. exists ev. split; [done|]. apply list_elem_of_filter. auto.
  - case_decide; [done|apply Hcur].
  - destruct He as [He|(evs & [=] & _)]. simpl in He. case_decide as Hs; [|apply Hcur]. intros [= <-]. left. by apply He.
  - apply Hcur.
Qed.
End Stored.

(** ** The registrar's spool in the publisher's hands

    The publisher only adds acknowledgements, so whatever it does the spool holds
    nothing else: the interface it uses, on the spools that do. *)
Section AckSpool.
Context {FileInfo : Type}.
Abbreviation spool_ := (EventSpool (FileInfo := FileInfo)).

Definition is_ack (e : RegEvent (FileInfo := FileInfo)) : Prop := match e with RegAck _ => True | _ => False end.
Definition acks_only (s : spool_) : Prop :=
  Forall (Forall is_ack) (registrar_chan (sp_registrar s)) ∧ Forall is_ack (sp_events s).

Definition AckSpool : Type := sig acks_only.

Lemma acks_only_add evs s : acks_only s → acks_only (spool_Add evs s).
Proof. intros [H1 H2]. split; [done|]. apply Forall_app. split; [done|]. by constructor. Qed.
Lemma acks_only_send s : acks_only s → acks_only (spool_Send s).
Proof.
  intros [H1 H2]. unfold spool_Send, EventSpooler_acks, EventSpooler_spool. simpl. case_decide; [done|]. split; [|constructor].
  apply Forall_app. split; [done|]. by constructor.
Qed.
Lemma acks_only_close s : acks_only s → acks_only (spool_Close s).
Proof.
  intros [H1 H2]. split; [|done]. unfold spool_Close, EventSpooler_acks, EventSpooler_spool. simpl.
  unfold dereferenceSpooler. by repeat case_match; simplify_eq/=.
Qed.

#[export] Instance EventSpooler_ackspool : EventSpooler AckSpool (list EventDescriptor) := {
  spool_Add evs s := exist acks_only (spool_Add evs (`s)) (acks_only_add evs (`s) (proj2_sig s));
  spool_Send s := exist acks_only (spool_Send (`s)) (acks_only_send (`s) (proj2_sig s));
  spool_Close s := exist acks_only (spool_Close (`s)) (acks_only_close (`s) (proj2_sig s));
}.

#[export] Program Instance SpoolerLog_ackspool : SpoolerLog AckSpool := { spool_log s := spool_log (`s) }.
Next Obligation. intros evs s. apply spool_log_add. Qed.
Next Obligation. intros s. apply spool_log_send. Qed.
Next Obligation. intros s. apply spool_log_close. Qed.

(** The publisher connects to a new registrar. *)
Definition connected_spool (d : disk) : AckSpool :=
  exist acks_only (newEventSpool (Connect (NewRegistrar d))) (conj (List.Forall_nil _) (List.Forall_nil _)).
End AckSpool.

Section Delivery.
Context {FI CF : Type} {Hhost : Host FI} {Henv : Env} {content : nat → text} {Hgrow : GrowingFile FI content}.
Context (Encode : attrs → option text) (general : General) (streamConfig : StreamConfig CF) (grow : Z → Z).
Context {T F IP FileInfo : Type} `{Transport T F} (fi_Ino fi_Dev : FileInfo → Z).
Context (encode : gmap text FileState → text).
Abbreviation PubWorld := (World (T := T) (F := F) (IP := IP) (X := Publisher (F := F) (R := AckSpool (FileInfo := FileInfo)))).

(** The acknowledgements the publisher has sent or will send to the registrar. *)
Definition pub_acks (w : PubWorld) : list EventDescriptor := spool_acks (proj1_sig (registrarSpool (w_ext w))).

(** Its spools, as the registrar receives them. *)
Definition pub_spools (w : PubWorld) : list (list (RegEvent (FileInfo := FileInfo))) :=
  registrar_chan (sp_registrar (proj1_sig (registrarSpool (w_ext w)))).

Lemma pub_spool_acks w sp evs ev : sp ∈ pub_spools w → RegAck evs ∈ sp → ev ∈ evs → ev ∈ pub_acks w.
Proof.
  intros Hsp He Hev. unfold pub_acks, spool_acks. apply elem_of_app. left. apply list_elem_of_In, in_concat. exists evs.
  split; [|by apply list_elem_of_In]. apply list_elem_of_In, list_elem_of_fmap. exists (RegAck evs). split; [done|].
  apply list_elem_of_In, in_concat. exists sp. by rewrite <-!list_elem_of_In.
Qed.

(** Acknowledgements are a prefix of what the spooler received. *)
Lemma pub_acks_received config api d pis w0 b w recv :
  (∀ nonce evs t, fst (transport_Write (T := T) (F := F) nonce evs t) = None) →
  NewPublisher config api (connected_spool d) = Ret (tt, w0) → run_safe pis w0 = true →
  pub_run pis w0 = Ret (b, w) → received pis w0 `prefix_of` recv → pub_acks w `prefix_of` recv.
Proof.
  intros Hw Hnew Hall Hrun Hrecv.
  pose proof (top_NewPublisher _ _ _ _ Hnew) as H0.
  destruct (top_payloads _ _ (top_pub_run Hw _ _ _ _ _ Hall H0 Hrun)) as (_ & pls & held & _ & _ & Heq & _).
  etrans; [|exact Hrecv]. exists (concat (events <$> pls) ++ held). symmetry. exact Heq.
Qed.

Implicit Types (h : Harvester CodecPlain FI) (sp : Spooler).

(** C1. A line is never lost between the file and the acknowledgement: let a
    harvester read a growing file of stream [s] from offset [o], the spooler
    receive its events among those of other files, the publisher receive the
    spools sent so far in their order and process any history whose reloads are
    safe, and the registrar process any of the publisher's spools between those of the
    prospector, whichever of its writes succeed.  Then the offset stored for the
    stream splits the lines sent in two: those before it have all been
    acknowledged, and reading the file again from it gives the others. *)
Theorem at_least_once s path info o now tz h0 h1 name unused (f : CF) new_codec fuel n e h
    s0 sis rest sp config api d pis w0 b w fails order (r r' : Registrar (FileInfo := FileInfo)) z :
  sc_Codecs streamConfig = [mkCodecStub name unused (Some f)] → (∀ f o now, new_codec f o now = NewCodecPlain o) →
  (0 < LineBufferBytes general)%Z → (0 < MaxLineBytes general)%Z → (0 ≤ o ≤ zlen (content 0))%Z → fuel ≠ 0 →
  NewHarvester (C := CodecPlain) (FI := FI) streamConfig new_codec (Some (s, path, info)) o now tz = Ret h0 →
  start_harvest general h0 = Ret (None, h1) → read_n Encode general streamConfig fuel n h1 = Ret (e, h) →
  NewSpooler general [] = Ret s0 → Forall input_sized sis → (spooler_start;; spooler_run grow sis) s0 = Ret (rest, sp) →
  filter (fun ev => ed_Stream ev = Some s) (received_events sis) `prefix_of` h_output h →
  (∀ nonce evs t, fst (transport_Write (T := T) (F := F) nonce evs t) = None) →
  NewPublisher config api (connected_spool d) = Ret (tt, w0) → run_safe pis w0 = true →
  pub_run pis w0 = Ret (b, w) → received pis w0 `prefix_of` concat (s_output sp) →
  (∀ evs, evs ∈ registrar_chan r → evs ∈ pub_spools w ∨ Forall (prospector_event (Some s) o) evs) →
  Offset <$> reg_state r !! Some s = None ∨ Offset <$> reg_state r !! Some s = Some o →
  length fails = length (registrar_chan r) → drain fi_Ino fi_Dev encode fails order r = Some r' →
  Offset <$> reg_state r' !! Some s = Some z →
  ∃ out1 out2 left (now := content (fd_tick (h_fd h))),
    z = (o + total_len out1)%Z ∧
    cut_into (MaxLineBytes general) (drop (Z.to_nat o) now) (out1 ++ out2) left ∧
    cut_into (MaxLineBytes general) (drop (Z.to_nat z) now) out2 left ∧
    h_output h = line_events Encode general streamConfig (Some s) path tz o (out1 ++ out2) ∧
    line_events Encode general streamConfig (Some s) path tz o out1
      `prefix_of` filter (fun ev => ed_Stream ev = Some s) (pub_acks w).
Proof.
  intros Hcs Hnew Hsz Hmx Ho Hf H0 H1 Hread Hs0 Hin Hsp Hfilter Hw Hpub Hall Hrun Hrecv Hchan Hst Hlen Hdrain Hz.
  destruct (harvest_run Encode general streamConfig [mkPlain o] s path info o now tz h0 h1 new_codec fuel n)
    as (e' & h' & out & nx & Hr & Hh); try done; [by eapply plain_codecs|apply plain_feedable|].
  rewrite Hread in Hr. injection Hr as <- <-.
  destruct (harvested_cut _ _ _ _ _ _ _ _ _ _ _ Hmx Hh) as (left & Hcut & Hres).
  destruct (plain_harvested _ _ _ _ _ _ _ _ _ _ Hh) as (Hout & _ & _).
  destruct (spooler_start_run grow general sis s0 Hs0 Hin) as (rest' & sp' & Hsp' & _ & (pre & Hpre & Hspooled) & _).
  rewrite Hsp in Hsp'. injection Hsp' as <- <-.
  assert (Hacks : filter (fun ev => ed_Stream ev = Some s) (pub_acks w) `prefix_of` h_output h).
  { assert (Hp : pub_acks w `prefix_of` received_events sis).
    { eapply pub_acks_received; [done..|]. etrans; [exact Hrecv|]. exists (spool sp ++ received_events rest).
      rewrite app_assoc. change (concat (s_output sp) ++ spool sp) with (spooled sp). rewrite Hspooled, Hpre. unfold received_events. by rewrite omap_app. }
    destruct Hp as [k Hk]. etrans; [|exact Hfilter]. rewrite Hk, filter_app. by eexists. }
  destruct (drain_run fi_Ino fi_Dev encode fails order r _ eq_refl Hlen) as (r2 & Hd & _ & _ & _ & Hreg).
  rewrite Hdrain in Hd. injection Hd as <-. rewrite Hreg, foldl_Process_offset in Hz.
  apply (stored_offset (Some s) o (pub_acks w)) in Hz; [|apply Forall_forall; intros ev Hev|intros z0 Hev].
  - destruct Hz as [->|Hz].
    + exists [], out, left. change (total_len []) with 0%Z. rewrite Z.add_0_r. repeat (split; [done|]). apply prefix_nil.
    + unfold stream_offsets in Hz. apply list_elem_of_fmap in Hz as (ev & -> & Hev). apply list_elem_of_split in Hev as (l1 & l2 & Hl).
      destruct Hacks as [k Hk]. rewrite Hl, Hout, <-app_assoc in Hk. simpl in Hk.
      destruct (line_events_at _ _ _ _ _ _ _ _ _ _ _ Hk) as (out1 & out2 & -> & He & Hoff).
      exists out1, out2, left. rewrite Hoff. split; [done|]. split; [done|]. split; [by apply Hres|]. split; [done|].
      rewrite Hl, He. exists l2. by rewrite <-app_assoc.
  - apply list_elem_of_In, in_concat in Hev as (spl & Hspl & Hev). apply list_elem_of_In in Hspl, Hev.
    destruct (Hchan _ Hspl) as [Hp|Hp]; [|left; by eapply (proj1 (Forall_forall _ _))].
    pose proof (proj1 (proj2_sig (registrarSpool (w_ext w)))) as Ha. apply (proj1 (Forall_forall _ _)) with (x := spl) in Ha; [|done].
    apply (proj1 (Forall_forall _ _)) with (x := ev) in Ha; [|done]. destruct ev as [evs| | |]; [|done..].
    right. exists evs. split; [done|]. intros ev Hx. by eapply pub_spool_acks.
  - destruct Hst as [Hst|Hst]; rewrite Hst in Hev; [done|]. injection Hev as <-. by left.
Qed.
End Delivery.

(** ** A concrete delivery *)
Definition sample_general : General := mkGeneral [] [] 4 [] 4 true false 8 (bytes_of "/v") 0 2 1000 0.

Definition sample_harvested : outcome (option harvest_error * Harvester CodecPlain Z) :=
  match NewHarvester (C := CodecPlain) (FI := Z) example_stream (fun _ o _ => NewCodecPlain o) (Some (7%positive, bytes_of "/log", 0%Z)) 0 0 [] with
  | Ret h0 => match start_harvest sample_general h0 with Ret (_, h1) => read_n example_Encode sample_general example_stream 1 9 h1 | _ => Panic end
  | _ => Panic
  end.

Definition sample_lines : list EventDescriptor := match sample_harvested with Ret (_, h) => h_output h | _ => [] end.

(** Another stream's event comes between. *)
Definition sample_inputs : list spool_input :=
  SpoolEvent <$> (take 1 sample_lines ++ [mkEventDescriptor (Some 8%positive) 3 []] ++ drop 1 sample_lines).

Definition sample_spools : list (list EventDescriptor) :=
  match NewSpooler sample_general [] with
  | Ret s0 => match (spooler_start;; spooler_run (Z.mul 2) sample_inputs) s0 with Ret (_, s) => s_output s | _ => [] end
  | _ => []
  end.

Definition sample_history : list (pub_input (F := unit)) :=
  [started 2; started 3] ++ (InSpool <$> sample_spools) ++ [acked_event 2 4 2].

Definition sample_acked : list EventDescriptor := default [] (head sample_spools).

(** What the registrar received: the discovery of the file, then the publisher's spools. *)
Definition sample_registrar (spools : list (list (RegEvent (FileInfo := Z * Z)))) : Registrar (FileInfo := Z * Z) :=
  mkRegistrar ([RegDiscover (Some 7%positive) (bytes_of "/log") 0 (3, 4)%Z] :: spools) false 2 ∅ (mkDisk None None).

(** The components' runs. *)
Lemma sample_harvest : ∃ h0 h1 e h,
  NewHarvester (C := CodecPlain) (FI := Z) example_stream (fun _ o _ => NewCodecPlain o) (Some (7%positive, bytes_of "/log", 0%Z)) 0 0 [] = Ret h0 ∧
  start_harvest sample_general h0 = Ret (None, h1) ∧ read_n example_Encode sample_general example_stream 1 9 h1 = Ret (e, h) ∧
  filter (fun ev => ed_Stream ev = Some 7%positive) (received_events sample_inputs) = h_output h.
Proof. do 4 eexists. split; [vm_compute; reflexivity|]. split; [vm_compute; reflexivity|]. split; vm_compute; reflexivity. Qed.

Lemma sample_spool : ∃ s0 rest sp,
  NewSpooler sample_general [] = Ret s0 ∧ (spooler_start;; spooler_run (Z.mul 2) sample_inputs) s0 = Ret (rest, sp) ∧ s_output sp = sample_spools.
Proof. do 3 eexists. split; [vm_compute; reflexivity|]. split; vm_compute; reflexivity. Qed.

Lemma sample_publish :
  match NewPublisher (T := list (list EventDescriptor)) (IP := unit) (two_servers "loadbalance") true
      (connected_spool (FileInfo := Z * Z) (mkDisk None None)) with
  | Ret (_, w0) => match pub_run sample_history w0 with
      | Ret (_, w) => received sample_history w0 = concat sample_spools ∧ pub_spools w = [[RegAck sample_acked]] | _ => False end
  | _ => False end.
Proof. vm_compute. split; reflexivity. Qed.

Lemma sample_drain : ∃ r', drain fst snd example_encode [(false, false); (true, false)] [] (sample_registrar [[RegAck sample_acked]]) = Some r' ∧
  Offset <$> reg_state r' !! Some 7%positive = Some 5%Z.
Proof. eexists. split; [vm_compute; reflexivity|]. vm_compute. reflexivity. Qed.

Lemma at_least_once_witness :
  ∃ (h : Harvester CodecPlain Z) r' out1 out2 left (now := example_content (fd_tick (h_fd h))),
    drain fst snd example_encode [(false, false); (true, false)] [] (sample_registrar [[RegAck sample_acked]]) = Some r' ∧
    Offset <$> reg_state r' !! Some 7%positive = Some 5%Z ∧ 5%Z = (0 + total_len out1)%Z ∧
    cut_into 8 (drop (Z.to_nat 5) now) out2 left ∧
    h_output h = line_events example_Encode sample_general example_stream (Some 7%positive) (bytes_of "/log") [] 0 (out1 ++ out2).
Proof.
  destruct sample_harvest as (h0 & h1 & e & h & E0 & E1 & E2 & Hread). destruct sample_spool as (s0 & rest & sp & E3 & E4 & Hspool).
  pose proof sample_publish as Hpub.
  destruct (NewPublisher _ _ _) as [[[] w0]| |] eqn:E5; [|exact (False_ind _ Hpub)..].
  destruct (pub_run sample_history w0) as [[b w]| |] eqn:E6; [|exact (False_ind _ Hpub)..]. destruct Hpub as [Hrecv Hsp].
  destruct sample_drain as (r' & E7 & Hz).
  assert (Hsized : Forall input_sized sample_inputs) by (apply Forall_fmap, Forall_true; done).
  assert (Hreload : run_safe sample_history w0 = true) by (by apply no_reload_safe).
  destruct (at_least_once (content := example_content) (T := list (list EventDescriptor)) (F := unit) (IP := unit)
    example_Encode sample_general example_stream (Z.mul 2) (fst : Z * Z → Z) snd example_encode
    7%positive (bytes_of "/log") 0%Z 0 0 [] h0 h1 (bytes_of "plain") [] tt (fun _ o _ => NewCodecPlain o) 1 9 e h
    s0 sample_inputs rest sp (two_servers "loadbalance") true (mkDisk None None) sample_history w0 b w
    [(false, false); (true, false)] [] (sample_registrar [[RegAck sample_acked]]) r' 5
    eq_refl (fun _ _ _ => eq_refl) eq_refl eq_refl (conj (Z.le_refl 0) (Z.le_refl 0)) ltac:(discriminate) E0 E1 E2 E3 Hsized E4)
    as (out1 & out2 & left & H1 & _ & H2 & H3 & _).
  - rewrite Hread. reflexivity.
  - done.
  - exact E5.
  - exact Hreload.
  - exact E6.
  - rewrite Hrecv, Hspool. reflexivity.
  - intros evs. rewrite Hsp. cbn [registrar_chan sample_registrar]. rewrite elem_of_cons. intros [->|Hin]; [|left; exact Hin]. right. by repeat constructor.
  - by left.
  - done.
  - exact E7.
  - exact Hz.
  - exists h, r', out1, out2, left. exact (conj E7 (conj Hz (conj H1 (conj H2 H3)))).
Defined.
