(* ===== verification/Restart.v ===== *)
(** * From the registry to the harvesters after a restart

    What the registrar wrote, whatever the moment at which the program stopped, is
    what the prospector resumes its files from: the registrar's [LoadPrevious] and
    the prospector's [init] and [processFile] composed.  Together with the
    property of [Delivery] this is the promise across a restart. *)
From S2P Require Import Prelude Core Codecs Registrar Config Prospector ProspectorInv ProspectorProps.

Section Restart.
Context {CF FI R : Type} `{Watch FI} `{Env} `{EventSpooler R (RegEvent (FileInfo := FI))}.
Context (encode : gmap text FileState → text) (decode : text → option (gmap text FileState)).
Abbreviation PS := (Prospector CF FI R).
Implicit Types (p q : PS).

(** [init] makes an entry for each file loaded. *)
Lemma init_entries files interval fb spool previous :
  ∃ p, init previous (inr true) (NewProspector files interval fb spool) = Ret (None, p : PS) ∧ harvesters p = ∅ ∧
    ∀ f fs, (f, fs) ∈ previous → (∀ fs', (f, fs') ∈ previous → fs' = fs) →
      ∃ i, prospectorindex p !! f = Some i ∧ i ∈ prospectors p ∧ infos p !! i = Some (newProspectorInfoFromFileState f fs).
Proof.
  destruct (load_all_run previous [] (NewProspector files interval fb spool : PS)) as (p & Hr & [L1 _ [L3 L4] L5]).
  { split; [by intros f i|by intros i x|done|by intros f st ?%not_elem_of_nil]. }
  simpl in *. unfold init. rewrite (bind_run _ _ _ _ _ Hr). eexists. split; [reflexivity|]. split; [done|].
  intros f fs Hin Huniq. destruct (L5 f fs Hin) as [i Hi]. destruct (L1 f i Hi) as (fs' & Hin' & Hx).
  rewrite (Huniq _ Hin') in Hx. exists i. split; [done|]. split; [|done]. simpl. apply elem_of_union_r, elem_of_list_to_set, list_elem_of_fmap.
  exists (f, i). split; [done|]. by apply elem_of_map_to_list.
Qed.

(** The first time a loaded file is found as it was. *)
Lemma processFile_resumes f fs config q i fi :
  prospectorindex q !! f = Some i → infos q !! i = Some (newProspectorInfoFromFileState f fs) →
  os_Stat (p_tick q) f = inr fi → fi_IsDir fi = false → (fi_Dev fi, fi_Ino fi) = (Device fs, Inode fs) →
  ∃ q', processFile f config q = Ret (tt, q') ∧ prospectorindex q' !! f = Some i ∧ p_spool q' = p_spool q ∧
    ((harvesters q' = <[fresh (dom (harvesters q)) := mkLaunch i f (Some fi) (Offset fs) false false]> (harvesters q)) ∨
     (Offset fs = fi_Size fi ∧ harvesters q' = harvesters q ∧ ∃ x, infos q' !! i = Some x ∧ finishOffset x = Offset fs)).
Proof.
  intros Hidx Hx Hstat Hdir Hid. set (x0 := newProspectorInfoFromFileState f fs : prospectorInfo FI) in *.
  assert (Hknown : process_known f i fi (tick q) = Ret (Some i, tick q)).
  { unfold process_known, get_info. monad. change (infos (tick q)) with (infos q). rewrite Hx. monad. cbn [identity x0 newProspectorInfoFromFileState].
    rewrite identity_same_key. cbn [id_key]. unfold file_key. rewrite Hid, bool_decide_eq_true_2 by done. done. }
  assert (Hrun : isRunning i (tick q) = Ret (false, tick q)).
  { unfold isRunning, get_info. monad. change (infos (tick q)) with (infos q). by rewrite Hx. }
  unfold processFile. rewrite (bind_run get _ q q q eq_refl), (bind_run _ _ q (inr fi) (tick q)) by (unfold p_ask; by rewrite Hstat).
  rewrite Hdir, Hidx. unfold get_info at 1. monad. change (infos (tick q)) with (infos q). rewrite Hx. monad.
  rewrite decide_False by done. rewrite Hknown. unfold process_seen, should_resume. monad. rewrite Hrun.
  unfold get_info, put_info. monad. change (infos (tick q)) with (infos q). rewrite Hx. monad. cbn [status x0 newProspectorInfoFromFileState finishOffset].
  unfold update, startHarvesterWithOffset, get_info, put_info, index_set, Info, p_Since, p_Now, p_ask. monad.
  destruct (decide (Offset fs = fi_Size fi)) as [Hsz|Hsz]; [destruct (bool_decide (DeadTime (f_Stream config) < _)%Z)|].
  all: cbn [infos tick set_infos harvesters p_tick iteration fromBeginning]; rewrite ?lookup_insert_eq, ?Hx; monad; cbn;
    repeat (rewrite ?lookup_insert_eq, ?Hx; monad; cbn).
  all: eexists; (split; [reflexivity|]); cbn; (split; [by rewrite lookup_insert_eq|]); (split; [done|]).
  - right. split; [done|]. split; [done|]. eexists. split; [apply lookup_insert_eq|]. done.
  - left. done.
  - left. done.
Qed.

(** The registrar's side of [init]: it knows each file under the entry that the
    prospector made for it. *)
Lemma load_known data d (previous : list (text * FileState)) p order r : load_data decode d = Some data → reg_disk r = d → previous ≡ₚ map_to_list data →
  (∀ f fs, data !! f = Some fs → ∃ i, prospectorindex p !! f = Some i ∧ infos p !! i = Some (newProspectorInfoFromFileState f fs)) →
  ∃ r', LoadPrevious (FileInfo := FI) (err := unit) encode decode (fun f _ => inr (prospectorindex p !! f)) (fst <$> previous) false false order r = (@Loaded unit, r') ∧
    ∀ f fs, data !! f = Some fs → reg_state r' !! (prospectorindex p !! f) = Some fs.
Proof.
  intros Hload Hd Hprev Hent.
  destruct (LoadPrevious_run (FileInfo := FI) (err := unit) encode decode (fun f _ => inr (prospectorindex p !! f)) (fun f => prospectorindex p !! f)
    data (fst <$> previous) order r) as (r' & Hr & Hst & _); [by rewrite Hd|done| |by rewrite Hprev|].
  - intros f g [fs Hf] [gs Hg]. destruct (Hent f fs Hf) as (i & -> & Hi). destruct (Hent g gs Hg) as (j & -> & Hj).
    intros [= <-]. rewrite Hi in Hj. injection Hj. done.
  - exists r'. split; [done|]. intros f fs Hf. apply Hst. by exists f.
Qed.

(** C2. The registry written for the table [st], then the program stopped anywhere
    in a later write of [st'], even in the middle of the data.  The next run loads
    the whole of [st'] when that write was completed and the whole of [st]
    otherwise: every file of the table, with its own state when no other stream had
    its name.  The prospector has an entry for each of them, under which the
    registrar knows the state too, and the first time it finds one of them, still
    the same file, its harvester starts at the offset recorded; or none is started
    because the file ends there, and the offset is kept for when it changes. *)
Theorem restart_resumes `{!RegistryJSON encode decode} order st d order' st' ss files interval fb (spool : R)
    (last := if decide (ss = write_steps encode order' st') then st' else st)
    (d1 := foldl disk_step (snd (writeRegistry encode false false order st d)) ss) :
  json_table st → json_table st' → range_order st order → range_order st' order' → crash_prefix (write_steps encode order' st') ss →
  ∃ data, load_data decode d1 = Some data ∧ recorded last data ∧
    (∀ s fs, last !! s = Some fs → (∀ s' fs', last !! s' = Some fs' → Source fs' = Source fs → s' = s) → data !! Source fs = Some fs) ∧
    ∀ previous, previous ≡ₚ map_to_list data →
    ∃ p, init previous (inr true) (NewProspector files interval fb spool) = Ret (None, p : PS) ∧ harvesters p = ∅ ∧
      (∀ r order2, reg_disk r = d1 →
        ∃ r', LoadPrevious (FileInfo := FI) (err := unit) encode decode (fun f _ => inr (prospectorindex p !! f)) (fst <$> previous) false false order2 r =
            (@Loaded unit, r') ∧ ∀ f fs, data !! f = Some fs → reg_state r' !! (prospectorindex p !! f) = Some fs) ∧
      ∀ f fs, data !! f = Some fs →
        ∃ i, prospectorindex p !! f = Some i ∧ i ∈ prospectors p ∧
          ∀ q fi config, prospectorindex q !! f = Some i → infos q !! i = infos p !! i →
            os_Stat (p_tick q) f = inr fi → fi_IsDir fi = false → (fi_Dev fi, fi_Ino fi) = (Device fs, Inode fs) →
            ∃ q', processFile f config q = Ret (tt, q') ∧ prospectorindex q' !! f = Some i ∧ p_spool q' = p_spool q ∧
              ((harvesters q' = <[fresh (dom (harvesters q)) := mkLaunch i f (Some fi) (Offset fs) false false]> (harvesters q)) ∨
               (Offset fs = fi_Size fi ∧ harvesters q' = harvesters q ∧ ∃ x, infos q' !! i = Some x ∧ finishOffset x = Offset fs)).
Proof.
  intros Hst Hst' Hord Hord' Hcrash. eexists. split; [by apply crash_loads|].
  match goal with |- recorded last ?x ∧ _ => set (data := x) end.
  assert (Hrec : recorded last data) by (unfold last, data; destruct (decide _); by apply toCanonical_recorded).
  split; [done|]. split; [intros s fs; by apply recorded_unique|]. intros previous Hprev.
  destruct (init_entries files interval fb spool previous) as (p & Hinit & Hh & Hent). exists p. do 2 (split; [done|]).
  assert (Hent' : ∀ f fs, data !! f = Some fs →
    ∃ i, prospectorindex p !! f = Some i ∧ i ∈ prospectors p ∧ infos p !! i = Some (newProspectorInfoFromFileState f fs)).
  { assert (Hin : ∀ f fs, (f, fs) ∈ previous ↔ data !! f = Some fs) by (intros f fs; by rewrite Hprev, elem_of_map_to_list).
    intros f fs Hf. apply Hent; [by apply Hin|]. intros fs' Hfs'%Hin. congruence. }
  split.
  - intros r order2 Hd. apply (load_known data d1); [by apply crash_loads|done..|]. intros f fs (i & ? & _ & ?)%Hent'. eauto.
  - intros f fs Hf. destruct (Hent' f fs Hf) as (i & Hi & Hip & Hx). exists i. do 2 (split; [done|]).
    intros q fi config Hq Hqx Hstat Hdir Hid. eapply processFile_resumes; try done. by rewrite Hqx.
Qed.
End Restart.

(** ** A concrete restart: a file harvested up to byte 20 of 100 *)
Definition restart_state : FileState := mkFileState 7 1 sample_a 20.

Lemma restart_resumes_witness (W := Watch_sample renamed stays) :
  let d1 := snd (writeRegistry example_encode false false [Some 1%positive] {[Some 1%positive := restart_state]} (mkDisk None None)) in
  ∃ data p i q', load_data example_decode (foldl disk_step d1 [SCreate; SEncode []]) = Some data ∧
    @init unit sample_file _ (map_to_list data) (inr true) (NewProspector sample_config 10 true []) = Ret (None, p) ∧
    @processFile unit sample_file _ W Env_sample Spooler_sample sample_a
      (mkFile [] (mkStreamConfig false false false false [] 1000 [])) p = Ret (tt, q') ∧
    harvesters q' = <[fresh (dom (harvesters p)) := mkLaunch i sample_a (Some (mkSample 7 100 5)) 20 false false]> (harvesters p).
Proof.
  intros d1.
  destruct (@restart_resumes unit sample_file (list (RegEvent (FileInfo := sample_file))) W Env_sample Spooler_sample example_encode example_decode
    example_json [Some 1%positive] {[Some 1%positive := restart_state]} (mkDisk None None) [] ∅ [SCreate; SEncode []] sample_config 10 true [])
    as (data & Hload & _ & Hdata & Hprev).
  - intros s fs. rewrite lookup_singleton_Some. intros [_ <-]. vm_compute. reflexivity.
  - apply empty_table.
  - unfold range_order. reflexivity.
  - unfold range_order. reflexivity.
  - apply crash_later, crash_torn, prefix_nil.
  - destruct (Hprev (map_to_list data) (reflexivity _)) as (p & Hp & Hh & _ & Hent).
    destruct (Hent sample_a restart_state) as (i & Hi & _ & Hproc).
    { apply (Hdata (Some 1%positive) restart_state); [apply lookup_singleton_eq|].
      intros s' fs'. rewrite decide_False by discriminate. rewrite lookup_singleton_Some. by intros [<- _]. }
    destruct (Hproc p (mkSample 7 100 5) (mkFile [] (mkStreamConfig false false false false [] 1000 [])) Hi eq_refl eq_refl eq_refl eq_refl)
      as (q' & Hq & _ & _ & [Hq'|[Hq' _]]); [|discriminate Hq'].
    exists data, p, i, q'. split; [exact Hload|]. split; [exact Hp|]. split; [exact Hq|exact Hq'].
Defined.
