(* ===== verification/LogCourier.v ===== *)
(** * lc-lib/core/pipeline.go and src/log-courier.go: the program as a whole

    The pipeline registers the segments, gives them the shutdown signal and passes
    a new configuration to those that receive one; the program wires the segments,
    waits for signals, reloads and shuts down.  Segments run concurrently, so the
    program is a step relation: what each segment does is its own file, here it
    is running or has returned.  A reload asked for through the admin server runs
    in another goroutine, and is a second sender of configurations. *)
From S2P Require Import Prelude.

(** The segments log-courier.go wires. *)
Inductive segment := SegAdmin | SegRegistrar | SegStdinRegistrar | SegPublisher | SegSpooler | SegProspector.
#[export] Instance segment_eq_dec : EqDecision segment.
Proof. solve_decision. Defined.

(** Those that embed [PipelineConfigReceiver]. *)
Definition receives_config (s : segment) : bool :=
  match s with SegAdmin | SegPublisher | SegSpooler | SegProspector => true | _ => false end.

(** ** [pipeline.go] *)

(** [group] is the counter of the wait group; the keys of [config_sinks], a map,
    are kept in the order of registration. *)
Record Pipeline := mkPipeline { pipes : list segment; signal_closed : bool; group : Z; config_sinks : list segment }.

Definition NewPipeline : Pipeline := mkPipeline [] false 0 [].

Definition Register (p : Pipeline) (s : segment) : Pipeline :=
  mkPipeline (pipes p ++ [s]) (signal_closed p) (group p + 1) (if receives_config s then config_sinks p ++ [s] else config_sinks p).

(** Closing a closed channel and a negative wait group panic. *)
Definition pipeline_Shutdown (p : Pipeline) : outcome Pipeline :=
  if signal_closed p then Panic else Ret (mkPipeline (pipes p) true (group p) (config_sinks p)).
Definition segment_Done (p : Pipeline) : outcome Pipeline :=
  if decide (group p ≤ 0)%Z then Panic else Ret (mkPipeline (pipes p) (signal_closed p) (group p - 1) (config_sinks p)).

(** ** [log-courier.go] *)
Definition wired (stdin admin_enabled : bool) : list segment :=
  if stdin then [SegStdinRegistrar; SegPublisher; SegSpooler]
  else (if admin_enabled then [SegAdmin] else []) ++ [SegRegistrar; SegPublisher; SegSpooler; SegProspector].

Definition start_pipeline (stdin admin_enabled : bool) : Pipeline := foldl Register NewPipeline (wired stdin admin_enabled).

Section Program.
Context {C : Type}.

(** Where the main goroutine is. *)
Inductive main_pc :=
| MLoop
| MSending (c : C) (rest : list segment)
| MStdinWait
| MHarvesterWait
| MWait
| MExit.

(** [pg_admin] is the reload an admin request runs; [pg_configs] the configuration
    each segment has; [pg_finished] that the harvester of standard input has sent
    its status; the two signals are channels of capacity one. *)
Record program := mkProgram {
  pg_pipe : Pipeline;
  pg_exited : list segment;
  pg_main : main_pc;
  pg_admin : option (C * list segment);
  pg_config : C;
  pg_configs : segment → C;
  pg_harvester : bool;
  pg_finished : bool;
  shutdownChan : bool;
  reloadChan : bool;
}.

Definition newLogCourier (stdin admin_enabled : bool) (c : C) : program :=
  mkProgram (start_pipeline stdin admin_enabled) [] MLoop None c (fun _ => c) stdin false false false.

Definition set_main (pc : main_pc) (t : program) : program :=
  mkProgram (pg_pipe t) (pg_exited t) pc (pg_admin t) (pg_config t) (pg_configs t) (pg_harvester t) (pg_finished t) (shutdownChan t) (reloadChan t).
Definition set_pipe (p : Pipeline) (t : program) : program :=
  mkProgram p (pg_exited t) (pg_main t) (pg_admin t) (pg_config t) (pg_configs t) (pg_harvester t) (pg_finished t) (shutdownChan t) (reloadChan t).
Definition set_admin (a : option (C * list segment)) (t : program) : program :=
  mkProgram (pg_pipe t) (pg_exited t) (pg_main t) a (pg_config t) (pg_configs t) (pg_harvester t) (pg_finished t) (shutdownChan t) (reloadChan t).
Definition set_config (c : C) (t : program) : program :=
  mkProgram (pg_pipe t) (pg_exited t) (pg_main t) (pg_admin t) c (pg_configs t) (pg_harvester t) (pg_finished t) (shutdownChan t) (reloadChan t).
Definition set_harvester (h f : bool) (t : program) : program :=
  mkProgram (pg_pipe t) (pg_exited t) (pg_main t) (pg_admin t) (pg_config t) (pg_configs t) h f (shutdownChan t) (reloadChan t).
Definition set_signals (s r : bool) (t : program) : program :=
  mkProgram (pg_pipe t) (pg_exited t) (pg_main t) (pg_admin t) (pg_config t) (pg_configs t) (pg_harvester t) (pg_finished t) s r.
Definition exits (s : segment) (p : Pipeline) (t : program) : program :=
  mkProgram p (s :: pg_exited t) (pg_main t) (pg_admin t) (pg_config t) (pg_configs t) (pg_harvester t) (pg_finished t) (shutdownChan t) (reloadChan t).

(** A segment receives a configuration. *)
Definition receives (s : segment) (c : C) (t : program) : program :=
  mkProgram (pg_pipe t) (pg_exited t) (pg_main t) (pg_admin t) (pg_config t) (fun s' => if decide (s' = s) then c else pg_configs t s')
    (pg_harvester t) (pg_finished t) (shutdownChan t) (reloadChan t).

(** When a segment returns of itself: the registrar ignores the signal and waits
    for its clients to close their spools. *)
Definition may_exit (s : segment) (t : program) : Prop :=
  match s with
  | SegRegistrar => SegPublisher ∈ pg_exited t ∧ SegProspector ∈ pg_exited t
  | _ => signal_closed (pg_pipe t) = true
  end.

(** The steps of the program itself.  A failed load has replaced [lc.config]. *)
Inductive own_step : program → program → Prop :=
| step_shutdown t p : pg_main t = MLoop → shutdownChan t = true → pg_harvester t = false →
    pipeline_Shutdown (pg_pipe t) = Ret p → own_step t (set_main MWait (set_pipe p (set_signals false (reloadChan t) t)))
| step_shutdown_stdin t : pg_main t = MLoop → shutdownChan t = true → pg_harvester t = true →
    own_step t (set_main MHarvesterWait (set_signals false (reloadChan t) t))
| step_harvester_stopped t p : pg_main t = MHarvesterWait → pg_finished t = true → pipeline_Shutdown (pg_pipe t) = Ret p →
    own_step t (set_main MWait (set_pipe p t))
| step_reload t c order : pg_main t = MLoop → reloadChan t = true → order ≡ₚ config_sinks (pg_pipe t) →
    own_step t (set_main (MSending c order) (set_config c (set_signals (shutdownChan t) false t)))
| step_reload_failed t c : pg_main t = MLoop → reloadChan t = true → own_step t (set_config c (set_signals (shutdownChan t) false t))
| step_send t c s rest : pg_main t = MSending c (s :: rest) → s ∉ pg_exited t → own_step t (set_main (MSending c rest) (receives s c t))
| step_sent t c : pg_main t = MSending c [] → own_step t (set_main MLoop t)
| step_finished t : pg_main t = MLoop → pg_harvester t = true → pg_finished t = true →
    own_step t (set_main MStdinWait (set_harvester false false t))
| step_stdin_acked t p : pg_main t = MStdinWait → SegStdinRegistrar ∈ pg_exited t → pipeline_Shutdown (pg_pipe t) = Ret p →
    own_step t (set_main MWait (set_pipe p t))
| step_exit t s p : s ∈ pipes (pg_pipe t) → s ∉ pg_exited t → may_exit s t → segment_Done (pg_pipe t) = Ret p → own_step t (exits s p t)
| step_waited t : pg_main t = MWait → group (pg_pipe t) = 0%Z → own_step t (set_main MExit t).

(** What comes from outside: the signals, the status of the harvester of standard
    input - at the end of its input, or after it was told to stop and the read it
    was in has returned - and the last acknowledgement that lets the registrar of
    standard input return. *)
Inductive env_step : program → program → Prop :=
| env_shutdown t : env_step t (set_signals true (reloadChan t) t)
| env_reload t : env_step t (set_signals (shutdownChan t) true t)
| env_finished t : pg_harvester t = true → env_step t (set_harvester true true t)
| env_acked t p : pg_main t = MStdinWait → SegStdinRegistrar ∈ pipes (pg_pipe t) → SegStdinRegistrar ∉ pg_exited t →
    segment_Done (pg_pipe t) = Ret p → env_step t (exits SegStdinRegistrar p t).

(** The reload of an admin request, in the goroutine of the request. *)
Inductive admin_step : program → program → Prop :=
| admin_reload t c order : SegAdmin ∈ pipes (pg_pipe t) → pg_admin t = None → order ≡ₚ config_sinks (pg_pipe t) →
    admin_step t (set_admin (Some (c, order)) (set_config c t))
| admin_reload_failed t c : SegAdmin ∈ pipes (pg_pipe t) → pg_admin t = None → admin_step t (set_config c t)
| admin_send t c s rest : pg_admin t = Some (c, s :: rest) → s ∉ pg_exited t → admin_step t (set_admin (Some (c, rest)) (receives s c t))
| admin_sent t c : pg_admin t = Some (c, []) → admin_step t (set_admin None t).

Definition program_step (t t' : program) : Prop := own_step t t' ∨ env_step t t' ∨ admin_step t t'.

(** ** The invariant *)
Definition sink_ok (t : program) : Prop :=
  match pg_main t with MSending c rest => ∀ s, s ∈ rest → s ∈ config_sinks (pg_pipe t) | _ => True end.

Record program_ok (stdin admin_enabled : bool) (t : program) : Prop := {
  po_pipes : pipes (pg_pipe t) = wired stdin admin_enabled ∧
    config_sinks (pg_pipe t) = filter (fun s => receives_config s = true) (wired stdin admin_enabled);
  po_exited : NoDup (pg_exited t) ∧ ∀ s, s ∈ pg_exited t → s ∈ wired stdin admin_enabled;
  po_group : group (pg_pipe t) = (zlen (wired stdin admin_enabled) - zlen (pg_exited t))%Z;
  po_signal : signal_closed (pg_pipe t) = true ↔ pg_main t = MWait ∨ pg_main t = MExit;
  po_running : signal_closed (pg_pipe t) = false → ∀ s, s ∈ pg_exited t → s = SegStdinRegistrar;
  po_sink : sink_ok t;
  po_harvester : pg_main t = MHarvesterWait → pg_harvester t = true;
  po_done : pg_main t = MExit → ∀ s, s ∈ wired stdin admin_enabled → s ∈ pg_exited t;
}.

Lemma wired_NoDup stdin admin_enabled : NoDup (wired stdin admin_enabled).
Proof. apply (bool_decide_eq_true_1 _). destruct stdin, admin_enabled; vm_compute; reflexivity. Qed.

Lemma program_ok_new stdin admin_enabled c : program_ok stdin admin_enabled (newLogCourier stdin admin_enabled c).
Proof.
  split; simpl.
  - destruct stdin, admin_enabled; done.
  - split; [constructor|]. by intros s ?%not_elem_of_nil.
  - destruct stdin, admin_enabled; done.
  - split; [destruct stdin, admin_enabled; done|intros [|]; done].
  - intros _ s ?%not_elem_of_nil. done.
  - done.
  - done.
  - done.
Qed.

Lemma all_exited (l k : list segment) : NoDup l → (∀ s, s ∈ l → s ∈ k) → NoDup k → zlen k = zlen l → ∀ s, s ∈ k → s ∈ l.
Proof.
  intros Hl Hsub Hk Hlen s Hs. assert (Hp : l ≡ₚ k); [|by rewrite Hp].
  apply submseteq_length_Permutation; [by apply NoDup_submseteq|]. unfold zlen in Hlen. lia.
Qed.

(** A segment that returns. *)
Lemma exits_ok stdin admin_enabled t s p :
  program_ok stdin admin_enabled t → s ∈ pipes (pg_pipe t) → s ∉ pg_exited t → segment_Done (pg_pipe t) = Ret p →
  (signal_closed (pg_pipe t) = true ∨ s = SegStdinRegistrar) → pg_main t ≠ MExit → program_ok stdin admin_enabled (exits s p t).
Proof.
  intros [[P1 P1'] [P2 P2'] P3 P4 P5 P6 P8 P7] Hs Hn Hd Hsig Hne. unfold segment_Done in Hd. case_decide; [done|]. injection Hd as <-.
  split; simpl; try done.
  - split; [by constructor|]. intros s' [->|Hs']%elem_of_cons; [by rewrite <-P1|auto].
  - rewrite P3, zlen_cons. lia.
  - intros Hf s' [->|Hs']%elem_of_cons; [|by apply P5]. destruct Hsig as [Hsig| ->]; congruence.
Qed.

Lemma shutdown_ok stdin admin_enabled t p :
  program_ok stdin admin_enabled t → pipeline_Shutdown (pg_pipe t) = Ret p →
  program_ok stdin admin_enabled (set_main MWait (set_pipe p t)).
Proof.
  intros [[P1 P1'] P2 P3 P4 P5 P6 P8 P7] Hd. unfold pipeline_Shutdown in Hd. destruct (signal_closed _); [done|]. injection Hd as <-.
  split; simpl; try done. split; [by left|done].
Qed.

(** A step that only changes what the invariant does not mention. *)
Lemma program_ok_ext stdin admin_enabled t t' :
  pg_pipe t' = pg_pipe t → pg_exited t' = pg_exited t → (pg_main t' = MWait ∨ pg_main t' = MExit ↔ pg_main t = MWait ∨ pg_main t = MExit) →
  (pg_main t' = MExit → pg_main t = MExit) → (pg_main t' = MHarvesterWait → pg_harvester t' = true) → sink_ok t' → program_ok stdin admin_enabled t → program_ok stdin admin_enabled t'.
Proof. intros Hp He Hm Hx Hh Hs [P1 P2 P3 P4 P5 P6 P8 P7]. split; rewrite ?Hp, ?He; try done; [by rewrite Hm|auto]. Qed.

(** The steps of the main goroutine before it shuts down. *)
Ltac main_step Hm :=
  simpl; rewrite ?Hm; first [done|by intros [=]|by split; intros [[=]|[=]]|idtac].

Lemma own_step_ok stdin admin_enabled t t' : own_step t t' → program_ok stdin admin_enabled t → program_ok stdin admin_enabled t'.
Proof.
  intros Hs Ho. pose proof Ho as [[P1 P1'] [P2 P2'] P3 P4 P5 P6 P8 P7].
  destruct Hs as [t p Hm Hsd Hh Hd|t Hm Hsd Hh|t p Hm Hf Hd|t c order Hm Hr Hord|t c Hm Hr|t c s rest Hm Hex|t c Hm|t Hm Hh Hf|t p Hm Hin Hd
    |t s p Hs Hn Hmay Hd|t Hm Hg].
  - apply shutdown_ok; [|done]. by eapply program_ok_ext.
  - eapply program_ok_ext, Ho; main_step Hm.
  - by apply shutdown_ok.
  - eapply program_ok_ext, Ho; main_step Hm. unfold sink_ok. simpl. intros s Hs. by rewrite <-Hord.
  - eapply program_ok_ext, Ho; main_step Hm.
  - eapply program_ok_ext, Ho; main_step Hm. unfold sink_ok in *. rewrite Hm in P6. simpl. intros s' Hs'. apply P6. by right.
  - eapply program_ok_ext, Ho; main_step Hm.
  - eapply program_ok_ext, Ho; main_step Hm.
  - by apply shutdown_ok.
  - apply exits_ok; try done.
    + destruct (signal_closed (pg_pipe t)) eqn:Esig; [by left|right]. destruct s; simpl in Hmay; try congruence.
      destruct Hmay as [Hpub _]. by specialize (P5 eq_refl _ Hpub).
    + intros Hx. apply Hn, P7; [done|]. by rewrite <-P1.
  - split; simpl; try done.
    + split; [by right|]. intros _. apply P4. by left.
    + intros _. apply all_exited; [done|done|apply wired_NoDup|lia].
Qed.

Lemma program_step_ok stdin admin_enabled t t' : program_step t t' → program_ok stdin admin_enabled t → program_ok stdin admin_enabled t'.
Proof.
  intros [Hs|[Hs|Hs]] Ho; [by eapply own_step_ok| |].
  - destruct Hs as [t|t|t Hh|t p Hm Hin Hn Hd]; try (by eapply program_ok_ext, Ho; simpl; try done; apply Ho).
    apply exits_ok; try done; [by right|congruence].
  - destruct Hs; by eapply program_ok_ext, Ho; simpl; try done; apply Ho.
Qed.

Lemma program_steps_ok stdin admin_enabled t t' : rtc program_step t t' → program_ok stdin admin_enabled t → program_ok stdin admin_enabled t'.
Proof. induction 1; eauto using program_step_ok. Qed.

(** ** Shutting down *)
Implicit Types (t : program) (l : list segment) (s : segment).

Lemma sinks_run stdin admin_enabled t s : program_ok stdin admin_enabled t → s ∈ config_sinks (pg_pipe t) →
  signal_closed (pg_pipe t) = false → s ∉ pg_exited t.
Proof.
  intros Ho Hs Hsig He. rewrite (proj2 (po_pipes _ _ _ Ho)) in Hs. apply list_elem_of_filter in Hs as [Hs _].
  by rewrite (po_running _ _ _ Ho Hsig s He) in Hs.
Qed.

(** A reload in progress comes to its end. *)
Lemma sending_ends stdin admin_enabled t c rest : program_ok stdin admin_enabled t → pg_main t = MSending c rest →
  ∃ t', rtc own_step t t' ∧ pg_main t' = MLoop ∧ shutdownChan t' = shutdownChan t ∧ (pg_harvester t' = pg_harvester t ∧ pg_finished t' = pg_finished t) ∧ program_ok stdin admin_enabled t'.
Proof.
  revert t. induction rest as [|s rest IH]; intros t Ho Hm.
  { pose proof (step_sent t c Hm) as Hstep. exists (set_main MLoop t). split; [by apply rtc_once|]. do 3 (split; [done|]).
    by eapply own_step_ok. }
  assert (Hsig : signal_closed (pg_pipe t) = false).
  { destruct (signal_closed (pg_pipe t)) eqn:E; [|done]. apply (po_signal _ _ _ Ho) in E as [E|E]; congruence. }
  assert (Hs : s ∉ pg_exited t).
  { eapply sinks_run; [done| |done]. pose proof (po_sink _ _ _ Ho) as Hk. unfold sink_ok in Hk. rewrite Hm in Hk. apply Hk. by left. }
  pose proof (step_send t c s rest Hm Hs) as Hstep.
  destruct (IH _ (own_step_ok _ _ _ _ Hstep Ho) eq_refl) as (t' & Hr & Hm' & Hsd & Hhf & Ho').
  exists t'. split; [by eapply rtc_l|]. done.
Qed.

(** A segment that may return does. *)
Lemma exit_one stdin admin_enabled t s : program_ok stdin admin_enabled t → pg_main t = MWait → s ∈ wired stdin admin_enabled →
  may_exit s t → ∃ t', rtc own_step t t' ∧ program_ok stdin admin_enabled t' ∧ pg_main t' = MWait ∧ s ∈ pg_exited t' ∧
    ∀ s', s' ∈ pg_exited t → s' ∈ pg_exited t'.
Proof.
  intros Ho Hm Hs Hmay. destruct (decide (s ∈ pg_exited t)) as [He|He]; [by exists t|].
  assert (Hd : ∃ p, segment_Done (pg_pipe t) = Ret p).
  { unfold segment_Done. rewrite (po_group _ _ _ Ho). case_decide as Hz; [|by eexists]. exfalso.
    assert (Hlen : length (s :: pg_exited t) ≤ length (wired stdin admin_enabled)).
    { apply submseteq_length, NoDup_submseteq; [constructor; [done|apply Ho]|]. intros s' [->|Hs']%elem_of_cons; [done|by apply (po_exited _ _ _ Ho)]. }
    unfold zlen in Hz. simpl in Hlen. lia. }
  destruct Hd as [p Hd]. assert (Hin : s ∈ pipes (pg_pipe t)) by by rewrite (proj1 (po_pipes _ _ _ Ho)).
  pose proof (step_exit t s p Hin He Hmay Hd) as Hstep. exists (exits s p t). split; [by apply rtc_once|].
  split; [by eapply own_step_ok|]. split; [done|]. simpl. split; [by left|]. intros s' Hs'. by right.
Qed.

Lemma exit_list stdin admin_enabled l t : program_ok stdin admin_enabled t → pg_main t = MWait →
  (∀ s, s ∈ l → s ∈ wired stdin admin_enabled ∧ s ≠ SegRegistrar) →
  ∃ t', rtc own_step t t' ∧ program_ok stdin admin_enabled t' ∧ pg_main t' = MWait ∧ ∀ s, s ∈ l ∨ s ∈ pg_exited t → s ∈ pg_exited t'.
Proof.
  revert t. induction l as [|s l IH]; intros t Ho Hm Hl; [exists t; set_solver|].
  destruct (Hl s) as [Hs Hne]; [by left|].
  assert (Hsig : signal_closed (pg_pipe t) = true) by (apply (po_signal _ _ _ Ho); by left).
  destruct (exit_one stdin admin_enabled t s) as (t1 & Hr1 & Ho1 & Hm1 & Hin1 & Hmono); [done..|by destruct s|].
  destruct (IH t1 Ho1 Hm1) as (t2 & Hr2 & Ho2 & Hm2 & Hin2); [intros s' Hs'; apply Hl; by right|].
  exists t2. split; [by etrans|]. do 2 (split; [done|]). intros s' [[->|Hs']%elem_of_cons|Hs']; apply Hin2; auto.
Qed.

(** Once the pipeline is shut down. *)
Lemma waiting_ends stdin admin_enabled t : program_ok stdin admin_enabled t → pg_main t = MWait →
  ∃ t', rtc own_step t t' ∧ pg_main t' = MExit.
Proof.
  intros Ho Hm. set (l := filter (fun s => s ≠ SegRegistrar) (wired stdin admin_enabled)).
  destruct (exit_list stdin admin_enabled l t Ho Hm) as (t1 & Hr1 & Ho1 & Hm1 & Hin1).
  { intros s [? ?]%list_elem_of_filter. done. }
  assert (Hl : ∀ s, s ∈ wired stdin admin_enabled → s ≠ SegRegistrar → s ∈ pg_exited t1).
  { intros s Hs Hne. apply Hin1. left. by apply list_elem_of_filter. }
  assert (∃ t2, rtc own_step t1 t2 ∧ program_ok stdin admin_enabled t2 ∧ pg_main t2 = MWait ∧
    ∀ s, s ∈ wired stdin admin_enabled → s ∈ pg_exited t2) as (t2 & Hr2 & Ho2 & Hm2 & Hin2).
  { destruct (decide (SegRegistrar ∈ wired stdin admin_enabled)) as [Hreg|Hreg].
    - destruct (exit_one stdin admin_enabled t1 SegRegistrar) as (t2 & Hr2 & Ho2 & Hm2 & Hin2 & Hmono); [done..| |].
      { destruct stdin; [exfalso; set_solver|]. split; apply Hl; try done; unfold wired; apply elem_of_app; right; set_solver. }
      exists t2. do 3 (split; [done|]). intros s Hs. destruct (decide (s = SegRegistrar)) as [->|Hne]; auto.
    - exists t1. do 3 (split; [done|]). intros s Hs. apply Hl; [done|]. by intros ->. }
  assert (Hg : group (pg_pipe t2) = 0%Z).
  { rewrite (po_group _ _ _ Ho2). destruct (po_exited _ _ _ Ho2) as [Hnd Hsub].
    assert (Hp : wired stdin admin_enabled ≡ₚ pg_exited t2).
    { apply NoDup_Permutation; [apply wired_NoDup|done|]. split; auto. }
    unfold zlen. rewrite Hp. lia. }
  exists (set_main MExit t2). split; [|done]. etrans; [exact Hr1|]. etrans; [exact Hr2|]. by apply rtc_once, step_waited.
Qed.

(** ** Properties *)

(** C29. After a shutdown signal the program can always end, from every reachable
    state - reloads by signal or by admin requests in progress or not - except
    while it waits for standard input to be acknowledged, and provided that a
    harvester of standard input has sent its status; and it only ends when every
    segment it wired has returned. *)
Theorem program_shutdown_exits stdin admin_enabled c t :
  rtc program_step (newLogCourier stdin admin_enabled c) t → shutdownChan t = true → pg_main t ≠ MStdinWait →
  pg_harvester t = false ∨ pg_finished t = true →
  (∃ t', rtc own_step t t' ∧ pg_main t' = MExit) ∧
  (pg_main t = MExit → ∀ s, s ∈ wired stdin admin_enabled → s ∈ pg_exited t).
Proof.
  intros Hr Hsd Hne Hhf. pose proof (program_steps_ok stdin admin_enabled _ _ Hr (program_ok_new _ _ _)) as Ho. split; [|apply Ho].
  assert (Hopen : ∀ t, program_ok stdin admin_enabled t → pg_main t ≠ MWait → pg_main t ≠ MExit → signal_closed (pg_pipe t) = false).
  { intros t0 Ho0 H1 H2. destruct (signal_closed (pg_pipe t0)) eqn:E; [|done]. apply (po_signal _ _ _ Ho0) in E as [E|E]; congruence. }
  assert (Hhw : ∀ t, program_ok stdin admin_enabled t → pg_main t = MHarvesterWait → pg_finished t = true → ∃ t', rtc own_step t t' ∧ pg_main t' = MExit).
  { intros t0 Ho0 Hm0 Hf0.
    assert (∃ p, pipeline_Shutdown (pg_pipe t0) = Ret p) as [p Hp] by (unfold pipeline_Shutdown; rewrite Hopen by (done || congruence); by eexists).
    pose proof (step_harvester_stopped t0 p Hm0 Hf0 Hp) as Hstep.
    destruct (waiting_ends stdin admin_enabled _ (own_step_ok _ _ _ _ Hstep Ho0) eq_refl) as (t' & Hr' & Hx).
    exists t'. split; [by eapply rtc_l|done]. }
  assert (Hloop : ∀ t, program_ok stdin admin_enabled t → pg_main t = MLoop → shutdownChan t = true → pg_harvester t = false ∨ pg_finished t = true → ∃ t', rtc own_step t t' ∧ pg_main t' = MExit).
  { intros t0 Ho0 Hm0 Hs0 Hhf0. destruct (pg_harvester t0) eqn:Hh.
    - pose proof (step_shutdown_stdin t0 Hm0 Hs0 Hh) as Hstep.
      destruct (Hhw _ (own_step_ok _ _ _ _ Hstep Ho0) eq_refl ltac:(by destruct Hhf0)) as (t' & Hr' & Hx). exists t'. split; [by eapply rtc_l|done].
    - assert (∃ p, pipeline_Shutdown (pg_pipe t0) = Ret p) as [p Hp] by (unfold pipeline_Shutdown; rewrite Hopen by (done || congruence); by eexists).
      pose proof (step_shutdown t0 p Hm0 Hs0 Hh Hp) as Hstep.
      destruct (waiting_ends stdin admin_enabled _ (own_step_ok _ _ _ _ Hstep Ho0) eq_refl) as (t' & Hr' & Hx).
      exists t'. split; [by eapply rtc_l|done]. }
  destruct (pg_main t) as [|c0 rest| | | |] eqn:Hm; try done.
  - by apply Hloop.
  - destruct (sending_ends stdin admin_enabled t c0 rest Ho Hm) as (t1 & Hr1 & Hm1 & Hs1 & [Hh1 Hf1] & Ho1).
    destruct (Hloop t1 Ho1 Hm1) as (t' & Hr' & Hx); [congruence|by rewrite Hh1, Hf1|]. exists t'. split; [by etrans|done].
  - apply Hhw; [done..|]. destruct Hhf as [Hh|Hf]; [|done]. pose proof (po_harvester _ _ _ Ho Hm). congruence.
  - by eapply waiting_ends.
  - by exists t.
Qed.

(** Which configuration the segments have. *)
Definition uniform (t : program) : Prop :=
  match pg_main t with
  | MSending c rest => ∀ s, s ∈ config_sinks (pg_pipe t) → s ∉ rest → pg_configs t s = c
  | _ => ∃ c, ∀ s, s ∈ config_sinks (pg_pipe t) → pg_configs t s = c
  end.

Lemma uniform_ext t t' : config_sinks (pg_pipe t') = config_sinks (pg_pipe t) → pg_configs t' = pg_configs t →
  (∀ c rest, pg_main t ≠ MSending c rest) → (∀ c rest, pg_main t' ≠ MSending c rest) → uniform t → uniform t'.
Proof. intros Hk Hc Hm Hm'. unfold uniform. rewrite Hk, Hc. destruct (pg_main t), (pg_main t'); naive_solver. Qed.

Lemma uniform_step t t' : own_step t t' ∨ env_step t t' → uniform t → uniform t'.
Proof.
  assert (Hk : ∀ t p, pipeline_Shutdown (pg_pipe t) = Ret p → config_sinks p = config_sinks (pg_pipe t)).
  { intros t0 p. unfold pipeline_Shutdown. destruct (signal_closed _); [done|]. by intros [= <-]. }
  assert (Hd : ∀ t p, segment_Done (pg_pipe t) = Ret p → config_sinks p = config_sinks (pg_pipe t)).
  { intros t0 p. unfold segment_Done. case_decide; [done|]. by intros [= <-]. }
  intros [Hs|Hs] Hu.
  - destruct Hs as [t p Hm Hsd Hh Hp|t Hm Hsd Hh|t p Hm Hf Hp|t c order Hm Hr Hord|t c Hm Hr|t c s rest Hm Hex|t c Hm|t Hm Hh Hf|t p Hm Hin Hp
      |t s p Hs Hn Hmay Hp|t Hm Hg]; unfold uniform in *; simpl; rewrite ?Hm in Hu; rewrite ?(Hk _ _ Hp), ?(Hd _ _ Hp); try done.
    + intros s Hs Hn. by rewrite Hord in Hn.
    + by rewrite Hm.
    + intros s' Hs' Hn. case_decide as Hss; [done|]. apply Hu; [done|]. rewrite elem_of_cons. tauto.
    + exists c. intros s Hs. apply Hu; [done|]. apply not_elem_of_nil.
  - destruct Hs as [t|t|t Hh|t p Hm Hin Hn Hp]; unfold uniform in *; simpl; try done. by rewrite (Hd _ _ Hp).
Qed.

(** C30. Reloads by signal, whatever their number and the order of the sends: the
    main goroutine is never made to wait by a segment that has returned, and
    between two reloads all the segments that receive configurations have the
    same one. *)
Theorem reload_consistent stdin admin_enabled c t :
  rtc (fun t t' => own_step t t' ∨ env_step t t') (newLogCourier stdin admin_enabled c) t →
  (∀ c' s rest, pg_main t = MSending c' (s :: rest) → s ∉ pg_exited t) ∧
  (pg_main t = MLoop → ∃ c', ∀ s, s ∈ wired stdin admin_enabled → receives_config s = true → pg_configs t s = c').
Proof.
  intros Hr.
  assert (Ho : program_ok stdin admin_enabled t).
  { eapply program_steps_ok, program_ok_new. eapply rtc_subrel, Hr. intros t1 t2 [Hs|Hs]; [by left|by right; left]. }
  assert (Hu : uniform t).
  { clear Ho. assert (Hu0 : uniform (newLogCourier stdin admin_enabled c)) by (by exists c). revert Hu0.
    induction Hr as [|t1 t2 t3 Hs _ IH]; [done|]. intros Hu. by apply IH, (uniform_step t1). }
  split.
  - intros c' s rest Hm. eapply sinks_run; [done| |].
    + pose proof (po_sink _ _ _ Ho) as Hk. unfold sink_ok in Hk. rewrite Hm in Hk. apply Hk. by left.
    + destruct (signal_closed (pg_pipe t)) eqn:E; [|done]. apply (po_signal _ _ _ Ho) in E as [E|E]; congruence.
  - intros Hm. unfold uniform in Hu. rewrite Hm in Hu. destruct Hu as [c' Hu]. exists c'. intros s Hs Hrc. apply Hu.
    rewrite (proj2 (po_pipes _ _ _ Ho)). by apply list_elem_of_filter.
Qed.
End Program.

(** ** Concrete runs *)
Definition sample_program : program := newLogCourier false true 0.

(** A reload by signal that has sent to two segments when the shutdown signal comes. *)
Definition sample_sending : program :=
  let t1 := set_signals false true sample_program in
  let t2 := set_main (MSending 1 [SegAdmin; SegPublisher; SegSpooler; SegProspector]) (set_config 1 (set_signals false false t1)) in
  let t3 := set_main (MSending 1 [SegPublisher; SegSpooler; SegProspector]) (receives SegAdmin 1 t2) in
  set_main (MSending 1 [SegSpooler; SegProspector]) (receives SegPublisher 1 t3).

Lemma sample_sending_reachable : rtc (fun t t' => own_step t t' ∨ env_step t t') sample_program sample_sending.
Proof.
  eapply rtc_l; [right; apply env_reload|].
  eapply rtc_l; [left; by apply (step_reload _ 1 [SegAdmin; SegPublisher; SegSpooler; SegProspector])|].
  eapply rtc_l; [left; eapply step_send; [reflexivity|apply not_elem_of_nil]|].
  apply rtc_once. left. eapply step_send; [reflexivity|apply not_elem_of_nil].
Qed.

Lemma program_shutdown_exits_witness :
  ∃ t', rtc own_step (set_signals true false sample_sending) t' ∧ pg_main t' = MExit.
Proof.
  assert (Hr : rtc program_step sample_program (set_signals true false sample_sending)).
  { eapply rtc_r; [|right; left; apply env_shutdown]. eapply rtc_subrel, sample_sending_reachable.
    intros t t' [Hs|Hs]; [by left|by right; left]. }
  exact (proj1 (program_shutdown_exits false true 0 _ Hr eq_refl ltac:(discriminate) ltac:(by left))).
Defined.

Lemma reload_consistent_witness :
  (∀ c' s rest, pg_main sample_sending = MSending c' (s :: rest) → s ∉ pg_exited sample_sending) ∧
  SegSpooler ∉ pg_exited sample_sending.
Proof.
  pose proof (proj1 (reload_consistent false true 0 sample_sending sample_sending_reachable)) as H.
  split; [exact H|exact (H 1 SegSpooler [SegProspector] eq_refl)].
Defined.

(** A reload by signal and one by an admin request at the same time: the publisher
    is left with one configuration and the spooler with the other. *)
Lemma concurrent_reloads_diverge : ∃ t, rtc program_step sample_program t ∧ pg_main t = MLoop ∧ pg_admin t = None ∧
  pg_configs t SegPublisher = 1 ∧ pg_configs t SegSpooler = 2.
Proof.
  eexists. split.
  - eapply rtc_l; [right; left; apply env_reload|].
    eapply rtc_l; [left; by apply (step_reload _ 1 [SegAdmin; SegPublisher; SegSpooler; SegProspector])|].
    eapply rtc_l; [right; right; apply (admin_reload _ 2 [SegAdmin; SegPublisher; SegSpooler; SegProspector]); [by left|reflexivity|reflexivity]|].
    do 2 (eapply rtc_l; [right; right; eapply admin_send; [reflexivity|apply not_elem_of_nil]|]).
    do 4 (eapply rtc_l; [left; eapply step_send; [reflexivity|apply not_elem_of_nil]|]).
    eapply rtc_l; [left; eapply step_sent; reflexivity|].
    do 2 (eapply rtc_l; [right; right; eapply admin_send; [reflexivity|apply not_elem_of_nil]|]).
    apply rtc_once. right. right. eapply admin_sent. reflexivity.
  - simpl. done.
Qed.
