(* ===== verification/Status.v ===== *)
(** * The status entries of the program's parts

    What lc-lib/harvester, lc-lib/prospector, lc-lib/publisher and lc-lib/endpoint
    publish in the tree of the admin API: [APIEncodable] of a harvester and its
    codecs, prospector/api.go, publisher/api.go and endpoint/api.go, set under the
    root as the parts do when they are made.  The formatting of floats, durations
    and addresses is a parameter, as is JSON. *)
From S2P Require Import Prelude InternalList Core Payload Codecs AdminApi AddressPool Transports Endpoint Registrar Publisher.
From S2P Require Import ConfigParser AdminServer Config LineReader Harvester Prospector ProspectorInv.

Abbreviation KV := (APIKeyValue APIData).

Definition kv_empty {V} : APIKeyValue V := mkKeyValue ∅.

(** ** The codecs: only some have a status *)
Class CodecStatus (C : Type) := codec_APIEncodable : C → option KV.

Definition plain_APIEncodable : option KV := None.

Definition filter_APIEncodable {regex} (c : CodecFilter (regex := regex)) : option KV :=
  Some (kv_SetEntry (bytes_of "filtered_lines") (APINumber (meterFiltered c)) kv_empty).

Definition multiline_APIEncodable {regex} (c : CodecMultiline (regex := regex)) : option KV :=
  Some (kv_SetEntry (bytes_of "pending_bytes") (APINumber (meterBytes c))
         (kv_SetEntry (bytes_of "pending_lines") (APINumber (meterLines c)) kv_empty)).

#[export] Instance CodecStatus_any {regex} : CodecStatus (AnyCodec (regex := regex)) := fun c =>
  match c with
  | Plain _ => plain_APIEncodable
  | Filter c => filter_APIEncodable c
  | Multiline c => multiline_APIEncodable c
  end.

(** ** [Harvester.APIEncodable] *)
Inductive harvester_value := HData (d : APIData) | HCodecs (a : APIArray KV).

Section Harvester.
Context {C FI CF : Type} `{CodecStatus C} (FormatDuration : Z → text).

(** The entries of [codecChain]; [i] is only advanced by codecs with a status. *)
Fixpoint chain_entries (names : list text) (i : nat) (cs : list C) (a : APIArray KV) : outcome (APIArray KV) :=
  match cs with
  | [] => Ret a
  | c :: cs' =>
      match codec_APIEncodable c with
      | None => chain_entries names i cs' a
      | Some e =>
          match names !! S i with
          | None => Panic
          | Some name => a' ← AddEntry name e a; chain_entries names (S i) cs' a'
          end
      end
  end.

(** The first codec, which must exist, then the chain. *)
Definition codec_entries (names : list text) (cs : list C) : outcome (APIArray KV) :=
  match cs with
  | [] => Panic
  | c :: chain =>
      a ← (match codec_APIEncodable c with
           | None => Ret newArray
           | Some e => match names !! 0 with None => Panic | Some name => AddEntry name e newArray end
           end);
      chain_entries names 0 chain a
  end.

Definition completion (f : Figures) : float64 :=
  if decide (lastSize f ≤ lastOffset f)%Z then f64_of_Z 100
  else f64_div (f64_mul (f64_of_Z (lastOffset f)) (f64_of_Z 100)) (f64_of_Z (lastSize f)).

(** [now] is when the age of the last end of the file is taken. *)
Definition APIEncodable (streamConfig : StreamConfig CF) (now : Z) (h : Harvester C FI) : outcome (APIKeyValue harvester_value) :=
  let f := h_figures h in
  let set k d := kv_SetEntry (bytes_of k) (HData d) in
  let e := set "last_known_size" (APINumber (lastSize f)) (set "stale_bytes" (APINumber (staleBytes f))
    (set "current_offset" (APINumber (lastOffset f)) (set "processed_lines" (APINumber (int64 (h_lineCount f)))
    (set "speed_bps" (APIFloat (byteSpeed f)) (set "speed_lps" (APIFloat (h_lineSpeed f)) kv_empty))))) in
  let e := set "completion" (APIFloat (completion f)) e in
  let e := set "last_eof_offset" (match lastEOF f with None => APINull | Some (_, off) => APINumber off end) e in
  let e := match lastEOF f with
    | None => set "status" (APIString (bytes_of "alive")) e
    | Some (t, _) =>
        let age := time_Sub now t in
        set "dead_timer" (APIString (if decide (age < DeadTime streamConfig)%Z then FormatDuration (DeadTime streamConfig - age) else bytes_of "0s"))
          (set "status" (APIString (bytes_of "idle")) e)
    end in
  a ← codec_entries (cs_Name <$> sc_Codecs streamConfig) (h_codecs h);
  Ret (kv_SetEntry (bytes_of "codecs") (HCodecs a) e).

(** *** When it panics *)

(** The names the entries are added under, in order. *)
Fixpoint chain_names (names : list text) (i : nat) (cs : list C) : list text :=
  match cs with
  | [] => []
  | c :: cs' =>
      match codec_APIEncodable c with
      | None => chain_names names i cs'
      | Some _ => match names !! S i with None => [] | Some name => name :: chain_names names (S i) cs' end
      end
  end.

Definition status_names (names : list text) (cs : list C) : list text :=
  match cs with
  | [] => []
  | c :: chain =>
      (match codec_APIEncodable c with None => [] | Some _ => match names !! 0 with None => [] | Some name => [name] end end) ++
      chain_names names 0 chain
  end.

Definition keys_of {E} (a : APIArray E) : gset text := dom (default ∅ (entryMap a)).

Lemma AddEntry_new {E} k (e : E) a : k ∉ keys_of a → ∃ a', AddEntry k e a = Ret a' ∧ keys_of a' = {[k]} ∪ keys_of a.
Proof.
  unfold keys_of, AddEntry. intros Hk%not_elem_of_dom. rewrite Hk. eexists. split; [done|]. simpl. by rewrite dom_insert_L.
Qed.

Lemma AddEntry_again {E} k (e : E) a : k ∈ keys_of a → AddEntry k e a = Panic.
Proof. unfold keys_of, AddEntry. intros [x Hx]%elem_of_dom. by rewrite Hx. Qed.

Lemma chain_entries_spec names cs i a : length cs + i < length names →
  (NoDup (chain_names names i cs) ∧ (∀ k, k ∈ chain_names names i cs → k ∉ keys_of a) → ∃ a', chain_entries names i cs a = Ret a') ∧
  (chain_entries names i cs a ≠ Panic → NoDup (chain_names names i cs) ∧ ∀ k, k ∈ chain_names names i cs → k ∉ keys_of a).
Proof.
  revert i a. induction cs as [|c cs IH]; intros i a Hlen; simpl.
  { split; [intros _; by exists a|]. intros _. split; [constructor|]. by intros k ?%not_elem_of_nil. }
  simpl in Hlen. destruct (codec_APIEncodable c) as [e|]; [|apply IH; lia].
  destruct (lookup_lt_is_Some_2 names (S i)) as [name Hn]; [lia|]. rewrite Hn. split.
  - intros [Hnd Hk]. apply NoDup_cons in Hnd as [Hni Hnd].
    destruct (AddEntry_new name e a) as (a' & Ha & Hk'); [apply Hk; by left|]. rewrite Ha. simpl.
    apply (IH (S i) a'); [lia|]. split; [done|]. intros k Hin. rewrite Hk', not_elem_of_union, not_elem_of_singleton.
    split; [by intros ->|]. apply Hk. by right.
  - destruct (decide (name ∈ keys_of a)) as [Hin|Hin]; [by rewrite AddEntry_again|].
    destruct (AddEntry_new name e a Hin) as (a' & Ha & Hk'). rewrite Ha. simpl. intros Hp.
    destruct (proj2 (IH (S i) a' ltac:(lia)) Hp) as [Hnd Hk]. split.
    + constructor; [|done]. intros Hi. apply (Hk _ Hi). rewrite Hk'. set_solver.
    + intros k [->|Hi]%elem_of_cons; [done|]. specialize (Hk _ Hi). rewrite Hk' in Hk. set_solver.
Qed.

(** C36. The status of a harvester can be built exactly when no two of its codecs
    are entered under the same name: with two filter codecs, say, the request
    panics - and with the read locks of the harvester and the prospector held. *)
Theorem harvester_status_panics streamConfig now (h : Harvester C FI) :
  h_codecs h ≠ [] → length (sc_Codecs streamConfig) = length (h_codecs h) →
  (∃ kv, APIEncodable streamConfig now h = Ret kv) ↔ NoDup (status_names (cs_Name <$> sc_Codecs streamConfig) (h_codecs h)).
Proof.
  intros Hne Hlen. set (names := cs_Name <$> sc_Codecs streamConfig).
  assert (Hnl : length names = length (h_codecs h)) by (unfold names; by rewrite length_fmap).
  assert (Hiff : (∃ a, codec_entries names (h_codecs h) = Ret a) ↔ NoDup (status_names names (h_codecs h))).
  { destruct (h_codecs h) as [|c cs]; [done|]. simpl in *. destruct names as [|name names']; [done|]. simpl in Hnl.
    assert (Hl : length cs + 0 < length (name :: names')) by (simpl; lia). destruct (codec_APIEncodable c) as [e|]; simpl.
    - destruct (AddEntry_new name e newArray) as (a & Ha & Hk); [unfold keys_of; simpl; set_solver|]. rewrite Ha. simpl.
      destruct (chain_entries_spec (name :: names') cs 0 a Hl) as [H1 H2]. rewrite Hk in *. rewrite NoDup_cons. split.
      + intros [a' Ha']. destruct H2 as [Hnd Hin]; [by rewrite Ha'|]. split; [|done]. intros Hi. specialize (Hin _ Hi). set_solver.
      + intros [Hni Hnd]. apply H1. split; [done|]. intros k Hk'. unfold keys_of. simpl. intros Hin. assert (k = name) as -> by set_solver. done.
    - destruct (chain_entries_spec (name :: names') cs 0 newArray Hl) as [H1 H2]. split.
      + intros [a' Ha']. apply H2. by rewrite Ha'.
      + intros Hnd. apply H1. split; [done|]. intros k _. unfold keys_of. simpl. set_solver. }
  rewrite <- Hiff. unfold APIEncodable. fold names. destruct (codec_entries names (h_codecs h)) as [a| |]; simpl; split; intros [x Hx]; try discriminate Hx; eauto.
Qed.
End Harvester.

(** Two filter codecs in a row. *)
Definition sample_filter : AnyCodec (regex := unit) := Filter (mkFilter (mkFilterFactory noPatterns) 0 0 0).
Definition sample_stream (names : list text) : StreamConfig unit :=
  mkStreamConfig false false false false ((fun n => mkCodecStub n [] (Some tt)) <$> names) 1000 [].
Definition sample_harvester (cs : list (AnyCodec (regex := unit))) : Harvester (AnyCodec (regex := unit)) unit :=
  mkHarvester None true (bytes_of "stdin") None 0 cs false [] (NewLineReader 16 16) (mkDescriptor 0 0 []) zeroFigures [].

Lemma harvester_status_panics_witness :
  (¬ ∃ kv, APIEncodable (fun _ => []) (sample_stream [bytes_of "filter"; bytes_of "filter"]) 5 (sample_harvester [sample_filter; sample_filter]) = Ret kv) ∧
  ∃ kv, APIEncodable (fun _ => []) (sample_stream [bytes_of "filter"; bytes_of "plain"]) 5 (sample_harvester [sample_filter; sample_filter]) = Ret kv.
Proof.
  split.
  - intros Hkv. apply harvester_status_panics in Hkv; [|discriminate|reflexivity]. apply (bool_decide_pack _) in Hkv. vm_compute in Hkv. exact Hkv.
  - apply harvester_status_panics; [discriminate|reflexivity|]. apply (bool_decide_unpack _). vm_compute. exact I.
Defined.

(** ** prospector/api.go *)
Inductive file_value := FData (d : APIData) | FHarvester (h : APIKeyValue harvester_value).

Abbreviation file_status := (APIKeyValue file_value).

Section Prospector.
Context {CF FI R : Type} `{Watch FI}.
(** The address of an entry as [%p] prints it, and the status of a harvester. *)
Context (pointer : positive → text) (encodable : positive → outcome (APIKeyValue harvester_value)).
Abbreviation PS := (Prospector CF FI R).

Definition prospector_Update (p : PS) (kv : KV) : KV :=
  kv_SetEntry (bytes_of "activeStates") (APINumber (Z.of_nat (base.size (prospectors p))))
    (kv_SetEntry (bytes_of "watchedFiles") (APINumber (Z.of_nat (base.size (prospectorindex p)))) kv).

Definition file_type (x : prospectorInfo FI) : text * text :=
  if decide (pi_file x = bytes_of "-") then (bytes_of "stdin", bytes_of "no")
  else (bytes_of "file", match orphaned x with orphanedMaybe => bytes_of "maybe" | orphanedYes => bytes_of "yes" | orphanedNo => bytes_of "no" end).

(** The status and the error; a missing error is dereferenced. *)
Definition file_state (x : prospectorInfo FI) : outcome (text * APIData) :=
  match status x with
  | statusOk => Ret (if running x then bytes_of "running" else bytes_of "dead", APINull)
  | statusResume => Ret (bytes_of "resuming", APINull)
  | statusFailed => match pi_err x with None => Panic | Some e => Ret (bytes_of "failed", APIString (Error e)) end
  | statusInvalid =>
      match pi_err x with
      | None => Panic
      | Some e => Ret (match e with ProspectorSkipError _ => bytes_of "skipped" | OtherError _ => bytes_of "error" end, APIString (Error e))
      end
  end.

Definition file_entry (i : positive) (x : prospectorInfo FI) : outcome file_status :=
  let set k d := kv_SetEntry (bytes_of k) (FData d) in
  '(st, err) ← file_state x;
  let e := set "error" err (set "status" (APIString st) (set "orphaned" (APIString (snd (file_type x)))
    (set "type" (APIString (fst (file_type x))) (set "path" (APIString (pi_file x)) (set "id" (APIString (pointer i)) kv_empty))))) in
  if running x then
    match pi_harvester x with
    | None => Panic
    | Some h => kv ← encodable h; Ret (kv_SetEntry (bytes_of "harvester") (FHarvester kv) e)
    end
  else Ret e.

Definition processEntry (p : PS) (i : positive) (a : APIArray file_status) : outcome (APIArray file_status) :=
  match infos p !! i with
  | None => Panic
  | Some x => e ← file_entry i x; AddEntry (pointer i) e a
  end.

Fixpoint process_all (p : PS) (is_ : list positive) (a : APIArray file_status) : outcome (APIArray file_status) :=
  match is_ with [] => Ret a | i :: is' => a' ← processEntry p i a; process_all p is' a' end.

Definition is_orphan (p : PS) (i : positive) : Prop := match infos p !! i with Some x => orphaned x ≠ orphanedNo | None => True end.
#[local] Instance is_orphan_dec p i : Decision (is_orphan p i).
Proof. unfold is_orphan. destruct (infos p !! i); apply _. Defined.

(** [apiFiles.Update], for an order of each of the two maps. *)
Definition files_Update (index_order prospectors_order : list positive) (p : PS) (a : APIArray file_status) : outcome (APIArray file_status) :=
  a' ← process_all p index_order a;
  process_all p (filter (is_orphan p) prospectors_order) a'.

(** *** What the listing is *)

(** The entries in use: those of the index, and the orphans. *)
Definition in_use (p : PS) (i : positive) : Prop :=
  (∃ f, prospectorindex p !! f = Some i) ∨ (i ∈ prospectors p ∧ is_orphan p i).

Record listing (p : PS) (done_ : list positive) (a : APIArray file_status) : Prop := {
  listing_key : ∀ i x, i ∈ done_ → infos p !! i = Some x →
    ∃ ent, default ∅ (entryMap a) !! pointer i = Some ent ∧ file_entry i x = Ret (entry ent);
  listing_only : ∀ k ent, default ∅ (entryMap a) !! k = Some ent → ∃ i, i ∈ done_ ∧ k = pointer i;
  listing_rows : length (entries a) = length done_;
}.

Context `{!Inj (=) (=) pointer}.

Lemma process_all_listing p is_ done_ a :
  listing p done_ a → NoDup (done_ ++ is_) →
  (∀ i, i ∈ is_ → ∃ x e, infos p !! i = Some x ∧ file_entry i x = Ret e) →
  ∃ a', process_all p is_ a = Ret a' ∧ listing p (done_ ++ is_) a'.
Proof.
  revert done_ a. induction is_ as [|i is_ IH]; intros done_ a Hl Hnd Hok; simpl; [exists a; by rewrite app_nil_r|].
  destruct (Hok i) as (x & e & Hx & He); [by left|]. unfold processEntry. rewrite Hx, He. simpl.
  assert (Hni : i ∉ done_) by (intros Hi; apply NoDup_app in Hnd as (_ & Hd & _); eapply Hd; [done|by left]).
  destruct Hl as [L1 L2 L3]. unfold AddEntry. destruct (default ∅ (entryMap a) !! pointer i) as [ent|] eqn:Ek.
  { destruct (L2 _ _ Ek) as (j & Hj & Hp%(inj pointer)). congruence. }
  simpl. set (a1 := mkArray _ _). destruct (IH (done_ ++ [i]) a1) as (a' & Hr & Hl').
  - split.
    + intros j y [Hj| ->%list_elem_of_singleton]%elem_of_app Hy.
      * destruct (L1 j y Hj Hy) as (ent & Hent & Hf). exists ent. split; [|done]. simpl.
        rewrite lookup_insert_ne; [done|]. intros ->%(inj pointer). done.
      * exists (mkArrayEntry (zlen (entries a)) e). simpl. rewrite lookup_insert_eq. split; [done|]. simpl. congruence.
    + simpl. intros k ent [[<- _]|[_ Hk]]%lookup_insert_Some; [exists i; set_solver|].
      destruct (L2 _ _ Hk) as (j & Hj & ->). exists j. set_solver.
    + simpl. rewrite !length_app, L3. done.
  - by rewrite <- (assoc_L app).
  - intros j Hj. apply Hok. by right.
  - exists a'. split; [done|]. by rewrite <- (assoc_L app) in Hl'.
Qed.

Lemma listing_new p : listing p [] newArray.
Proof. split; [by intros i x ?%not_elem_of_nil| |done]. intros k ent Hk. simpl in Hk. by rewrite lookup_empty in Hk. Qed.

(** What the operations of the prospector keep is enough for the listing, when
    the status of every running harvester can be built. *)
Lemma file_entry_total (p : PS) i x : safe None p → named p → infos p !! i = Some x →
  (∀ h, running x = true → pi_harvester x = Some h → ∃ kv, encodable h = Ret kv) → ∃ e, file_entry i x = Ret e.
Proof.
  intros Hs Hn Hx Henc. pose proof (proj2 (Hn _ _ Hx)) as Herr. unfold failed_ok in Herr. pose proof (safe_info _ _ Hs _ _ Hx) as Hok. unfold info_ok in Hok.
  assert (∃ st, file_state x = Ret st) as [[st err] Hst].
  { unfold file_state. destruct (status x) eqn:Est; eauto.
    - destruct (pi_err x); [eauto|done].
    - simpl in Hok. destruct Hok as (_ & [e ->] & _). eauto. }
  unfold file_entry. rewrite Hst. simpl. destruct (running x) eqn:Hr; [|eauto].
  case_decide; [by destruct Hok as (_ & _ & ?)|]. destruct Hok as (id & _ & _ & Hrun).
  destruct (Hrun eq_refl) as (_ & h & l & fi & Hh & _). rewrite Hh. destruct (Henc h eq_refl Hh) as [kv ->]. simpl. eauto.
Qed.

Lemma files_listed (p : PS) io po :
  safe None p → watched None None p → named p →
  (∀ i x h, infos p !! i = Some x → running x = true → pi_harvester x = Some h → ∃ kv, encodable h = Ret kv) →
  io ≡ₚ (snd <$> map_to_list (prospectorindex p)) → po ≡ₚ elements (prospectors p) →
  ∃ a is_, files_Update io po p newArray = Ret a ∧ listing p is_ a ∧ NoDup is_ ∧ ∀ i, i ∈ is_ ↔ in_use p i.
Proof.
  intros Hs Hw Hn Henc Hio Hpo.
  assert (Hin_io : ∀ i, i ∈ io ↔ ∃ f, prospectorindex p !! f = Some i).
  { intros i. rewrite Hio, list_elem_of_fmap. split.
    - intros ((f & j) & -> & Hf%elem_of_map_to_list). eauto.
    - intros [f Hf]. exists (f, i). split; [done|]. by apply elem_of_map_to_list. }
  assert (Hin_po : ∀ i, i ∈ filter (is_orphan p) po ↔ i ∈ prospectors p ∧ is_orphan p i).
  { intros i. rewrite list_elem_of_filter, Hpo, elem_of_elements. tauto. }
  assert (Hnd_io : NoDup io).
  { rewrite Hio. apply NoDup_fmap_2_strong; [|apply NoDup_map_to_list].
    intros [f i] [g j] Hf%elem_of_map_to_list Hg%elem_of_map_to_list. simpl. intros ->.
    destruct (watched_index _ _ _ Hw f j Hf) as (_ & x & Hx & <- & _); [done|].
    destruct (watched_index _ _ _ Hw g j Hg) as (_ & y & Hy & <- & _); [done|]. congruence. }
  assert (Hnd : NoDup (io ++ filter (is_orphan p) po)).
  { apply NoDup_app. split; [done|]. split.
    - intros i [f Hf]%Hin_io [_ Ho]%Hin_po. destruct (watched_index _ _ _ Hw f i Hf) as (_ & x & Hx & _ & Hxo); [done|].
      unfold is_orphan in Ho. rewrite Hx in Ho. done.
    - apply NoDup_filter. rewrite Hpo. apply NoDup_elements. }
  assert (Hall : ∀ i, i ∈ io ++ filter (is_orphan p) po → ∃ x e, infos p !! i = Some x ∧ file_entry i x = Ret e).
  { intros i Hi. assert (is_Some (infos p !! i)) as [x Hx].
    { apply elem_of_app in Hi as [[f Hf]%Hin_io|[Hi _]%Hin_po]; [by eapply safe_index|by eapply safe_prospectors]. }
    destruct (file_entry_total p i x Hs Hn Hx) as [e He]; eauto. }
  destruct (process_all_listing p io [] newArray) as (a1 & Hr1 & Hl1).
  { apply listing_new. }
  { done. }
  { intros i Hi. apply Hall. set_solver. }
  destruct (process_all_listing p (filter (is_orphan p) po) io a1) as (a & Hr & Hl); [done|done| |].
  { intros i Hi. apply Hall. set_solver. }
  exists a, (io ++ filter (is_orphan p) po). unfold files_Update. rewrite Hr1. simpl. rewrite Hr. do 3 (split; [done|]).
  intros i. rewrite elem_of_app, Hin_io, Hin_po. unfold in_use. tauto.
Qed.
End Prospector.

(** ** Rendering the values *)
Section Render.
Context (FormatFloat : float64 → text).

Definition data_text : text → APIData → text := fun _ => data_HumanReadable FormatFloat.
Definition kv_text (indent : text) (kv : KV) : text := render_text data_text indent (kv_entries kv).
Definition codecs_text (indent : text) (a : APIArray KV) : text :=
  render_text (fun i ent => kv_text i (entry ent)) indent (default ∅ (entryMap a)).
Definition harvester_text (indent : text) (kv : APIKeyValue harvester_value) : text :=
  render_text (fun i v => match v with HData d => data_text i d | HCodecs a => codecs_text i a end) indent (kv_entries kv).
Definition file_text (indent : text) (kv : file_status) : text :=
  render_text (fun i v => match v with FData d => data_text i d | FHarvester h => harvester_text i h end) indent (kv_entries kv).
Definition files_text (indent : text) (a : APIArray file_status) : text :=
  render_text (fun i ent => file_text i (entry ent)) indent (default ∅ (entryMap a)).

Context {St : Type}.
Abbreviation RM := (M St (api_error + text)).

Definition value_HumanReadable (indent : text) (d : APIData) : RM := mret (inr (data_text indent d)).

#[local] Instance APINavigatable_kv : APINavigatable St KV := {
  HumanReadable := kv_HumanReadable value_HumanReadable;
  Update _ := mret None;
}.

Definition harvester_HumanReadable : text → APIKeyValue harvester_value → RM :=
  kv_HumanReadable (fun i v => match v with HData d => value_HumanReadable i d | HCodecs a => array_HumanReadable i a end).

#[export] Instance APINavigatable_file : APINavigatable St file_status := {
  HumanReadable := kv_HumanReadable (fun i v => match v with FData d => value_HumanReadable i d | FHarvester h => harvester_HumanReadable i h end);
  Update _ := mret None;
}.

Lemma kv_text_run indent kv s : kv_HumanReadable value_HumanReadable indent kv s = Ret (inr (kv_text indent kv), s).
Proof. by apply render_map_text. Qed.

Lemma codecs_text_run indent a s : array_HumanReadable (E := KV) indent a s = Ret (inr (codecs_text indent a), s).
Proof. apply render_map_text. intros k ent i _. apply kv_text_run. Qed.

Lemma harvester_text_run indent kv s : harvester_HumanReadable indent kv s = Ret (inr (harvester_text indent kv), s).
Proof. apply render_map_text. intros k [d|a] i _; [done|]. apply codecs_text_run. Qed.

Lemma file_text_run indent kv s : HumanReadable indent (kv : file_status) s = Ret (inr (file_text indent kv), s).
Proof. apply render_map_text. intros k [d|h] i _; [done|]. apply harvester_text_run. Qed.

Lemma files_text_run indent a s : array_HumanReadable (E := file_status) indent a s = Ret (inr (files_text indent a), s).
Proof. apply render_map_text. intros k ent i _. apply file_text_run. Qed.
End Render.

(** ** The entries in the tree *)
Section Tree.
Context {CF FI R T F IP RP : Type} `{Watch FI} `{Transport T F} `{Env} `{EventSpooler RP acked}.
Context (FormatFloat : float64 → text) (JSON_map : list (text * text) → text).
Context (pointer : positive → text) (encodable : nat → positive → outcome (APIKeyValue harvester_value)).
Abbreviation PS := (Prospector CF FI R).
Abbreviation PW := (World (T := T) (F := F) (IP := IP) (X := Publisher.Publisher (F := F) (R := RP))).

(** The entries below the nodes of the parts.  [LFiles] is the array of one
    request, a fresh object; [LEndpoint] is also the endpoint's own entry. *)
Inductive leaf :=
| LProspectorStatus
| LFiles (r : positive)
| LFile (f : file_status)
| LPublisherStatus
| LEndpoints
| LEndpoint (e : positive).

Record store := mkStore {
  st_prospector : PS;
  st_publisher : PW;
  st_prospector_node : APINode leaf;
  st_publisher_node : APINode leaf;
  st_prospector_status : KV;
  st_publisher_status : KV;
  st_endpoint_status : gmap positive KV;
  st_files : gmap positive (APIArray file_status);
  st_tick : nat;
}.

Definition set_prospector_node (n : APINode leaf) (s : store) : store :=
  mkStore (st_prospector s) (st_publisher s) n (st_publisher_node s) (st_prospector_status s) (st_publisher_status s) (st_endpoint_status s) (st_files s) (st_tick s).
Definition set_statuses (p q : KV) (es : gmap positive KV) (s : store) : store :=
  mkStore (st_prospector s) (st_publisher s) (st_prospector_node s) (st_publisher_node s) p q es (st_files s) (st_tick s).
Definition set_files (fs : gmap positive (APIArray file_status)) (n : nat) (s : store) : store :=
  mkStore (st_prospector s) (st_publisher s) (st_prospector_node s) (st_publisher_node s) (st_prospector_status s) (st_publisher_status s) (st_endpoint_status s) fs n.

Abbreviation SM A := (M store A).

(** *** publisher/api.go and endpoint/api.go *)
Definition publisher_Update (x : Publisher.Publisher (F := F) (R := RP)) (kv : KV) : KV :=
  kv_SetEntry (bytes_of "pendingPayloads") (APINumber (pub_numPayloads x))
    (kv_SetEntry (bytes_of "publishedLines") (APINumber (lastLineCount x))
      (kv_SetEntry (bytes_of "speed") (APIFloat (lineSpeed x)) kv)).

(** The latency is divided as an integer, and then a float. *)
Definition endpoint_Update (ep : Endpoint (T := T)) (kv : KV) : KV :=
  kv_SetEntry (bytes_of "averageLatency") (APIFloat (f64_of_Z (Z.quot (AverageLatency ep) Millisecond)))
    (kv_SetEntry (bytes_of "publishedLines") (APINumber (lineCount ep))
      (kv_SetEntry (bytes_of "pendingPayloads") (APINumber (NumPending ep))
        (kv_SetEntry (bytes_of "status") (APIString (status_String (ep_status ep)))
          (kv_SetEntry (bytes_of "server") (APIString (ep_server ep)) kv)))).

(** *** Updating and rendering a leaf *)
Definition lift_outcome {A} (o : outcome A) : SM A :=
  fun s => match o with Ret a => Ret (a, s) | Panic => Panic | NoFuel => NoFuel end.

Definition endpoint_status (e : positive) (s : store) : KV := default kv_empty (st_endpoint_status s !! e).

Definition update_endpoint_status (e : positive) : SM (option api_error) :=
  s ← get;
  ep ← deref (w_endpoints (st_publisher s) !! e);
  modify (set_statuses (st_prospector_status s) (st_publisher_status s)
    (<[e := endpoint_Update ep (endpoint_status e s)]> (st_endpoint_status s)));;
  mret None.

#[export] Instance APINavigatable_endpoint : APINavigatable store positive := {
  HumanReadable indent e := s ← get; kv_HumanReadable (value_HumanReadable FormatFloat) indent (endpoint_status e s);
  Update := update_endpoint_status;
}.

Definition endpoints_array (s : store) : APIArray positive := default newArray (sk_api (w_sink (st_publisher s))).

(** A new array of files, and its update. *)
Definition new_files : SM positive :=
  s ← get;
  let r := fresh (dom (st_files s)) in
  modify (set_files (<[r := newArray]> (st_files s)) (st_tick s));;
  mret r.

Definition update_files (r : positive) : SM (option api_error) :=
  s ← get;
  a ← deref (st_files s !! r);
  let p := st_prospector s in
  let n := st_tick s in
  a' ← lift_outcome (files_Update pointer (encodable n) (range_infos n (snd <$> map_to_list (prospectorindex p)))
         (range_infos (S n) (elements (prospectors p))) p a);
  modify (set_files (<[r := a']> (st_files s)) (S (S n)));;
  mret None.

Definition leaf_Update (l : leaf) : SM (option api_error) :=
  match l with
  | LProspectorStatus =>
      modify (fun s => set_statuses (prospector_Update (st_prospector s) (st_prospector_status s)) (st_publisher_status s) (st_endpoint_status s) s);;
      mret None
  | LPublisherStatus =>
      modify (fun s => set_statuses (st_prospector_status s) (publisher_Update (w_ext (st_publisher s)) (st_publisher_status s)) (st_endpoint_status s) s);;
      mret None
  | LFiles r => update_files r
  | LFile _ => mret None
  | LEndpoints => s ← get; array_Update (endpoints_array s)
  | LEndpoint e => update_endpoint_status e
  end.

Definition leaf_HumanReadable (indent : text) (l : leaf) : SM (api_error + text) :=
  s ← get;
  match l with
  | LProspectorStatus => kv_HumanReadable (value_HumanReadable FormatFloat) indent (st_prospector_status s)
  | LPublisherStatus => kv_HumanReadable (value_HumanReadable FormatFloat) indent (st_publisher_status s)
  | LFiles r => a ← deref (st_files s !! r); @array_HumanReadable _ _ (APINavigatable_file FormatFloat) indent a
  | LFile f => @HumanReadable _ _ (APINavigatable_file FormatFloat) indent f
  | LEndpoints => array_HumanReadable indent (endpoints_array s)
  | LEndpoint e => HumanReadable indent e
  end.

#[export] Instance APINavigatable_leaf : APINavigatable store leaf := { HumanReadable := leaf_HumanReadable; Update := leaf_Update }.

(** *** The nodes of the parts *)
Inductive part := SProspector | SPublisher | SLeaf (l : leaf).

Definition prospector_node : APINode leaf := node_SetEntry (bytes_of "status") LProspectorStatus (mkNode ∅).
Definition publisher_node : APINode leaf :=
  node_SetEntry (bytes_of "status") LPublisherStatus (node_SetEntry (bytes_of "endpoints") LEndpoints (mkNode ∅)).

(** The prospector adds the files while it is rendered. *)
Definition with_files {A} (render : APINode leaf → SM (api_error + A)) : SM (api_error + A) :=
  r ← new_files;
  u ← update_files r;
  match u with
  | Some err => mret (inl err)
  | None =>
      modify (fun s => set_prospector_node (node_SetEntry (bytes_of "files") (LFiles r) (st_prospector_node s)) s);;
      s ← get;
      result ← render (st_prospector_node s);
      modify (fun s => set_prospector_node (node_RemoveEntry (bytes_of "files") (st_prospector_node s)) s);;
      mret result
  end.

Context (leaf_JSON : leaf → SM (api_error + text)).

Definition part_node_JSON (n : APINode leaf) : SM (api_error + text) :=
  l ← node_JSON leaf_JSON (children n) (sorted_keys (children n));
  mret (match l with inl err => inl err | inr l => inr (JSON_map l) end).

#[export] Instance APINavigatable_part : APINavigatable store part := {
  HumanReadable indent x :=
    match x with
    | SProspector => with_files (node_HumanReadable indent)
    | SPublisher => s ← get; node_HumanReadable indent (st_publisher_node s)
    | SLeaf l => HumanReadable indent l
    end;
  Update x :=
    match x with
    | SProspector => s ← get; node_Update id (st_prospector_node s)
    | SPublisher => s ← get; node_Update id (st_publisher_node s)
    | SLeaf l => Update l
    end;
}.

Definition part_Get (path : text) (x : part) : SM (api_error + option part) :=
  match x with
  | SProspector =>
      if decide (path = bytes_of "files") then r ← new_files; mret (inr (Some (SLeaf (LFiles r))))
      else s ← get; mret (inr (SLeaf <$> node_Get path (st_prospector_node s)))
  | SPublisher => s ← get; mret (inr (SLeaf <$> node_Get path (st_publisher_node s)))
  | SLeaf (LFiles r) =>
      u ← update_files r;
      match u with
      | Some err => mret (inl err)
      | None =>
          s ← get;
          a ← deref (st_files s !! r);
          mret (match array_Get path a with inl err => inl err | inr o => inr ((fun f => SLeaf (LFile f)) <$> o) end)
      end
  | SLeaf LEndpoints =>
      s ← get;
      mret (match array_Get path (endpoints_array s) with inl err => inl err | inr o => inr ((fun e => SLeaf (LEndpoint e)) <$> o) end)
  | SLeaf _ => mret (inr None)
  end.

(** Nothing of the parts can be called. *)
#[export] Instance AdminEntry_part {Form} : AdminEntry store part Form := {
  entry_Get := part_Get;
  entry_Call _ _ := mret (inl ErrNotImplemented);
  entry_JSON x :=
    match x with
    | SProspector => with_files part_node_JSON
    | SPublisher => s ← get; part_node_JSON (st_publisher_node s)
    | SLeaf l => leaf_JSON l
    end;
}.

End Tree.
