(* ===== verification/StatusProps.v ===== *)
(** * Requests to the status tree

    The client, the server and the tree of the prospector composed: what a request
    for the files of the prospector answers. *)
From S2P Require Import Prelude InternalList Core Payload Codecs Encodings AdminApi AddressPool Transports Endpoint Registrar Publisher.
From S2P Require Import ConfigParser AdminServer Config Prospector ProspectorInv ProspectorProps PublisherOrder PublisherProps Status.

Section Tree.
Context {CF FI R T F IP RP : Type} `{Watch FI} `{Transport T F} `{Env} `{EventSpooler RP acked}.
Context (FormatFloat : float64 → text) (JSON_map : list (text * text) → text).
Context (pointer : positive → text) (encodable : nat → positive → outcome (APIKeyValue harvester_value)).
Abbreviation store := (Status.store (CF := CF) (FI := FI) (R := R) (T := T) (F := F) (IP := IP) (RP := RP)).
Abbreviation SM A := (M store A).
Context (leaf_JSON : leaf → SM (api_error + text)).
#[local] Instance endpoint_navigatable : APINavigatable store positive := APINavigatable_endpoint FormatFloat.
#[local] Instance leaf_navigatable : APINavigatable store leaf := APINavigatable_leaf FormatFloat pointer encodable.
#[local] Instance part_navigatable : APINavigatable store part := APINavigatable_part FormatFloat pointer encodable.
#[local] Instance part_entries {Form} : AdminEntry store part Form := AdminEntry_part FormatFloat JSON_map pointer encodable leaf_JSON.
Abbreviation update_files := (Status.update_files pointer encodable).

Lemma bind_outcome {A B} (o : outcome A) a (k : A → SM B) s : o = Ret a → (x ← lift_outcome o; k x) s = k a s.
Proof. by intros ->. Qed.

Section Request.
Context {Form : Type} (syntax : text → text) (json_result json_error : text → text) (json_decode : text → option (option text)).
Context (ParseForm : Form → text → api_error + Form).
Context (json_answers : ∀ m, json_decode (json_error m ++ [newline]) = Some (Some (coerce_utf8 m))).
(** The format %p gives hexadecimal digits, none of which mean anything in a URL. *)
Definition pointer_byte (c : byte) : bool := url_plain c && bool_decide (c ≠ slash).
Context `{!Inj (=) (=) pointer} (pointer_bytes : ∀ i, forallb pointer_byte (pointer i) = true).
Context (JSON : APIData → text).
Abbreviation tree_root := (apiRoot (St := store) (Form := Form) (X := part)).
Abbreviation tree_entry := (root_entry (St := store) (Form := Form) (X := part)).
#[local] Instance tree_navigatable : APINavigatable store tree_entry := APINavigatable_root FormatFloat.
#[local] Instance tree_entries : AdminEntry store tree_entry Form := AdminEntry_root FormatFloat JSON JSON_map.
Implicit Types (r : tree_root) (s : store).

Definition ask_tree (empty : Form) (path : text) (r : tree_root) : SM (client_error + text) :=
  client_Request syntax json_result json_error json_decode ParseForm empty path (RootEntry r).

Lemma pointer_no_slash i : slash ∉ pointer i.
Proof.
  intros Hin. pose proof (pointer_bytes i) as Hp. rewrite forallb_forall in Hp. apply list_elem_of_In, Hp in Hin. by vm_compute in Hin.
Qed.

Lemma pointer_plain i : forallb url_plain (pointer i) = true.
Proof.
  pose proof (pointer_bytes i) as Hp. rewrite !forallb_forall in *. intros c Hc%Hp. by apply andb_true_iff in Hc as [Hc _].
Qed.

(** C32. The files of the prospector, at any moment between two of its steps: the
    client gets the listing of the entries in use - those of the index, and the
    orphans still harvested - each exactly once; and the entry at the address
    shown in the listing is that entry.  The prospector is left as it was. *)
Theorem files_request empty r s :
  node_Get (bytes_of "prospector") (root_node r) = Some (PartEntry SProspector) →
  let p := st_prospector s in
  safe None p → watched None None p → named p →
  (∀ i x h, infos p !! i = Some x → running x = true → pi_harvester x = Some h → ∃ kv, encodable (st_tick s) h = Ret kv) →
  ∃ a is_ s', ask_tree empty (bytes_of "prospector/files") r s = Ret (inr (files_text FormatFloat [] a), s') ∧
    listing pointer (encodable (st_tick s)) p is_ a ∧ NoDup is_ ∧ (∀ i, i ∈ is_ ↔ in_use p i) ∧ st_prospector s' = p ∧
    ∀ i x, i ∈ is_ → infos p !! i = Some x →
      ∃ e s'', file_entry pointer (encodable (st_tick s)) i x = Ret e ∧
        ask_tree empty (bytes_of "prospector/files/" ++ pointer i) r s = Ret (inr (file_text FormatFloat [] e), s'').
Proof.
  intros Hnode p Hs Hw Hn Henc. set (n := st_tick s) in *.
  destruct (files_listed pointer (encodable n) p (range_infos n (snd <$> map_to_list (prospectorindex p)))
    (range_infos (S n) (elements (prospectors p))) Hs Hw Hn Henc) as (a & is_ & Ha & Hl & Hnd & Hin); [apply range_infos_perm..|].
  set (k := base.fresh (base.dom (st_files s) : gset positive)). set (s1 := set_files (<[k := newArray]> (st_files s)) n s).
  set (s2 := set_files (<[k := a]> (st_files s1)) (S (S n)) s1).
  assert (Hnew : new_files s = Ret (k, s1)) by done.
  assert (Hupd : update_files k s1 = Ret (None, s2)).
  { unfold update_files. rewrite (bind_run get _ s1 s1 s1 eq_refl). rewrite (bind_run (deref _) _ s1 newArray s1) by (unfold s1; simpl; by rewrite lookup_insert_eq).
    rewrite (bind_outcome _ a) by exact Ha. done. }
  assert (Hk : st_files s2 !! k = Some a) by (unfold s2; simpl; apply lookup_insert_eq).
  assert (Hget : entry_Get (bytes_of "prospector") (RootEntry r) s = Ret (inr (Some (ChildEntry (PartEntry SProspector))), s)).
  { simpl. unfold root_Get. rewrite decide_False by discriminate. by rewrite Hnode. }
  assert (Hgetf : entry_Get (bytes_of "files") (ChildEntry (PartEntry SProspector) : tree_entry) s =
    Ret (inr (Some (ChildEntry (PartEntry (SLeaf (LFiles k))))), s1)) by done.
  exists a, is_, s2. split; [|split; [done|split; [done|split; [done|split; [done|]]]]].
  - unfold ask_tree. rewrite Request_plain; [|done|discriminate|reflexivity]. unfold tree_request.
    change (path_parts (slash :: bytes_of "prospector/files")) with (Some [bytes_of "prospector"; bytes_of "files"]). cbn [navigate].
    rewrite bind_assoc, (bind_run _ _ _ _ _ Hget), bind_assoc, (bind_run _ _ _ _ _ Hgetf).
    rewrite (bind_run (mret _) _ s1 _ s1 eq_refl). unfold tree_show. rewrite bind_assoc.
    assert (Hu : Update (ChildEntry (PartEntry (SLeaf (LFiles k))) : tree_entry) s1 = Ret (None, s2)) by (simpl; exact Hupd).
    rewrite (bind_run _ _ _ _ _ Hu).
    rewrite (bind_run (HumanReadable [] (ChildEntry (PartEntry (SLeaf (LFiles k))) : tree_entry)) _ s2 (inr (files_text FormatFloat [] a)) s2); [done|]. simpl. unfold leaf_HumanReadable.
    rewrite (bind_run get _ s2 s2 s2 eq_refl). rewrite (bind_run (deref _) _ s2 a s2) by (by rewrite Hk). apply files_text_run.
  - intros i x Hi Hx. destruct (listing_key _ _ _ _ _ Hl i x Hi Hx) as (ent & Hent & Hfe). exists (entry ent), s2. split; [done|].
    unfold ask_tree. rewrite Request_plain; [|done|discriminate|by rewrite forallb_app, pointer_plain]. unfold tree_request.
    assert (Hsplit : path_parts (slash :: bytes_of "prospector/files/" ++ pointer i) = Some [bytes_of "prospector"; bytes_of "files"; pointer i]).
    { unfold path_parts. rewrite decide_True by done. change (bytes_of "prospector/files/" ++ pointer i) with (bytes_of "prospector" ++ slash :: bytes_of "files" ++ slash :: pointer i).
      rewrite !split_slash_app, split_slash_one; [done|apply pointer_no_slash|apply (bool_decide_unpack _); vm_compute; exact I..]. }
    rewrite Hsplit. cbn [navigate].
    rewrite bind_assoc, (bind_run _ _ _ _ _ Hget), bind_assoc, (bind_run _ _ _ _ _ Hgetf), bind_assoc.
    assert (Hid : entry_Get (pointer i) (ChildEntry (PartEntry (SLeaf (LFiles k))) : tree_entry) s1 =
      Ret (inr (Some (ChildEntry (PartEntry (SLeaf (LFile (entry ent)))))), s2)).
    { simpl. rewrite bind_assoc, (bind_run _ _ _ _ _ Hupd), bind_assoc, (bind_run get _ s2 s2 s2 eq_refl), bind_assoc.
      rewrite (bind_run (deref _) _ s2 a s2) by (by rewrite Hk).
      assert (Hg : array_Get (pointer i) a = inr (Some (entry ent))).
      { unfold array_Get. destruct (entryMap a) as [m|]; simpl in Hent; [by rewrite Hent|by rewrite lookup_empty in Hent]. }
      by rewrite Hg. }
    rewrite (bind_run _ _ _ _ _ Hid), (bind_run (mret _) _ s2 _ s2 eq_refl). unfold tree_show. rewrite bind_assoc.
    assert (Hu : Update (ChildEntry (PartEntry (SLeaf (LFile (entry ent)))) : tree_entry) s2 = Ret (None, s2)) by done.
    rewrite (bind_run _ _ _ _ _ Hu).
    rewrite (bind_run (HumanReadable [] (ChildEntry (PartEntry (SLeaf (LFile (entry ent)))) : tree_entry)) _ s2 (inr (file_text FormatFloat [] (entry ent))) s2); [done|]. simpl. unfold leaf_HumanReadable.
    rewrite (bind_run get _ s2 s2 s2 eq_refl). apply file_text_run.
Qed.
End Request.
End Tree.

(** ** A tree with one harvested file and two servers *)
Definition sample_pointer (i : positive) : text := bytes_of "0x" ++ replicate (Pos.to_nat i) "1"%byte.

#[local] Instance sample_pointer_inj : Inj (=) (=) sample_pointer.
Proof. intros i j Hij. apply (app_inv_head _), (f_equal length) in Hij. rewrite !length_replicate in Hij. lia. Qed.

Lemma sample_pointer_bytes i : forallb pointer_byte (sample_pointer i) = true.
Proof.
  unfold sample_pointer. rewrite forallb_app. apply andb_true_iff. split; [done|]. by induction (Pos.to_nat i).
Qed.

#[local] Instance sample_watch : Watch sample_file := Watch_sample (fun _ => [sample_a]) stays.
Abbreviation sample_store :=
  (Status.store (CF := unit) (FI := sample_file) (R := list (RegEvent (FileInfo := sample_file)))
    (T := list (list EventDescriptor)) (F := unit) (IP := unit) (RP := list EventDescriptor)).

Definition sample_tree_store : sample_store :=
  mkStore sample_watching (initial_world (two_servers "loadbalance") true []) prospector_node publisher_node kv_empty kv_empty ∅ ∅ 0.
Definition sample_tree : apiRoot (St := sample_store) (Form := unit) (X := part) :=
  root_SetEntry (bytes_of "prospector") SProspector
    (newAPIRoot (bytes_of "1.8.3") (APIDataEntry APINull) (mret None)).
Definition sample_encodable (n : nat) (h : positive) : outcome (APIKeyValue harvester_value) :=
  Ret (kv_SetEntry (bytes_of "processed_lines") (HData (APINumber 12)) kv_empty).

Definition ask_sample (path : text) : M sample_store (client_error + text) :=
  ask_tree (fun _ => []) (fun _ => []) sample_pointer sample_encodable (fun _ => mret (inr [])) id id sample_json_error sample_json_decode sample_ParseForm (fun _ => []) tt path sample_tree.

Definition answer (r : outcome ((client_error + text) * sample_store)) : option (client_error + text) :=
  match r with Ret (x, _) => Some x | _ => None end.

(** What the client shows for the file that is harvested. *)
Example sample_answer : answer (ask_sample (bytes_of "prospector/files/0x1") sample_tree_store) =
  Some (inr (concat ((fun l => bytes_of l ++ [newline]) <$>
    ["error: n/a"; "harvester:"; "  processed_lines: 12"; "id: 0x1"; "orphaned: no"; "path: /l/a"; "status: running"; "type: file"]%string))).
Proof. vm_compute. reflexivity. Qed.

Lemma files_request_witness : ∃ a is_ s', ask_sample (bytes_of "prospector/files") sample_tree_store = Ret (inr (files_text (fun _ => []) [] a), s') ∧
  1%positive ∈ is_ ∧ listing sample_pointer (sample_encodable 0) sample_watching is_ a.
Proof.
  destruct (sample_watching_ok (fun _ => [sample_a]) stays) as (Hs & Hw & Hn).
  destruct (files_request (fun _ => []) (fun _ => []) sample_pointer sample_encodable (fun _ => mret (inr [])) id id sample_json_error sample_json_decode
    sample_ParseForm sample_json_answers sample_pointer_bytes (fun _ => []) tt sample_tree sample_tree_store) as (a & is_ & s' & H1 & H2 & _ & H3 & _).
  - vm_compute. reflexivity.
  - exact Hs.
  - exact Hw.
  - exact Hn.
  - intros i x h _ _ _. eexists. reflexivity.
  - exists a, is_, s'. split; [exact H1|]. split; [|exact H2]. apply H3. left. exists sample_a. apply lookup_singleton_eq.
Defined.
