(* ===== verification/Main.v ===== *)
(** * src/log-courier.go: the command line, logging and reloading

    What [startUp] does with the flags, the logging back-ends it configures, the
    file back-end of logging.go that a reload opens again, and [loadConfig] and
    [reloadConfig].  Flag parsing, the configuration's [Load], opening files and the
    terminal and syslog calls are parameters; the CPU profile is not modelled. *)
From S2P Require Import Prelude Core Codecs AdminApi ConfigParser Config.

(** ** logging.go *)

(** Where the standard logger writes. *)
Inductive log_output := ToStderr | Discard | ToFile (h : nat).

(** The open files, the handle the next file gets, and the logger: [lb_file] is the
    back-end's, nil when there is none. *)
Record log_world := mkLogWorld {
  lw_open : gset nat;
  lw_next : nat;
  lw_output : log_output;
  lb_file : option nat;
  lw_written : list (log_output * text);
}.

Definition logging_start : log_world := mkLogWorld ∅ 0 ToStderr None [].

(** [opened]: whether the file could be opened. *)
Definition Reopen (opened : bool) (w : log_world) : bool * log_world :=
  if negb opened then (false, w)
  else
    let h := lw_next w in
    let w := mkLogWorld ({[h]} ∪ lw_open w) (S h) (ToFile h) (lb_file w) (lw_written w) in
    let open := match lb_file w with Some old => lw_open w ∖ {[old]} | None => lw_open w end in
    (true, mkLogWorld open (lw_next w) (lw_output w) (Some h) (lw_written w)).

Definition Close (w : log_world) : log_world :=
  mkLogWorld (match lb_file w with Some h => lw_open w ∖ {[h]} | None => lw_open w end) (lw_next w) Discard None (lw_written w).

Definition Log (line : text) (w : log_world) : log_world :=
  mkLogWorld (lw_open w) (lw_next w) (lw_output w) (lb_file w) (lw_written w ++ [(lw_output w, line)]).

Definition NewDefaultLogBackend (opened : bool) (w : log_world) : option log_world :=
  match Reopen opened w with (true, w') => Some w' | (false, _) => None end.

Inductive log_op := OpReopen (opened : bool) | OpClose | OpLog (line : text).
Definition log_step (w : log_world) (op : log_op) : log_world :=
  match op with OpReopen o => snd (Reopen o w) | OpClose => Close w | OpLog l => Log l w end.

(** The reference: which file a line belongs to.  [n] counts the openings that
    succeeded; the current file is the last of them, unless closed since. *)
Fixpoint log_reference (n : nat) (current : log_output) (ops : list log_op) : list (log_output * text) :=
  match ops with
  | [] => []
  | OpReopen true :: ops' => log_reference (S n) (ToFile n) ops'
  | OpReopen false :: ops' => log_reference n current ops'
  | OpClose :: ops' => log_reference n Discard ops'
  | OpLog l :: ops' => (current, l) :: log_reference n current ops'
  end.

(** The logger's file is the back-end's, and the only one open. *)
Record log_ok (w : log_world) : Prop := {
  lo_open : lw_open w = match lb_file w with Some h => {[h]} | None => ∅ end;
  lo_output : match lb_file w with Some h => lw_output w = ToFile h ∧ h < lw_next w | None => ∀ h, lw_output w ≠ ToFile h end;
}.

Lemma logging_start_ok : log_ok logging_start.
Proof. by split. Qed.

Lemma log_step_ok w op : log_ok w → log_ok (log_step w op).
Proof.
  intros [H1 H2]. destruct op as [[]| |l]; [|done| |done].
  - split; simpl; [|split; [done|lia]]. rewrite H1. destruct (lb_file w) as [h|]; [destruct H2 as [_ Hh]|]; set_solver by lia.
  - split; simpl; [|done]. rewrite H1. destruct (lb_file w); set_solver.
Qed.

Lemma log_steps_written ops : ∀ w, lw_written (foldl log_step w ops) = lw_written w ++ log_reference (lw_next w) (lw_output w) ops.
Proof.
  induction ops as [|[[]| |l] ops IH]; intros w; cbn [foldl log_reference]; [by rewrite app_nil_r|..]; rewrite IH; try done.
  simpl. by rewrite <- (assoc_L app).
Qed.

Lemma log_steps_ok ops : ∀ w, log_ok w → log_ok (foldl log_step w ops).
Proof. induction ops as [|op ops IH]; intros w Hw; [done|]. by apply IH, log_step_ok. Qed.

(** Through any sequence of log lines, reopenings that succeed or fail and
    closings, every line goes to the file opened last, or nowhere once that is
    closed; a reopening that fails leaves the old file in use; the logger never
    holds a file that is closed, and no other file stays open. *)
Theorem log_file_rotation w ops :
  log_ok w →
  let w' := foldl log_step w ops in
  lw_written w' = lw_written w ++ log_reference (lw_next w) (lw_output w) ops ∧
  (∀ h, lw_output w' = ToFile h → lw_open w' = {[h]}) ∧
  ((∀ h, lw_output w' ≠ ToFile h) → lw_open w' = ∅).
Proof.
  intros Hw w'. split; [apply log_steps_written|]. destruct (log_steps_ok ops w Hw) as [H1 H2]. fold w' in H1, H2.
  destruct (lb_file w') as [h|]; [destruct H2 as [H2 _]|].
  - split; [intros h'; rewrite H2; by intros [= <-]|]. intros Hn. by destruct (Hn h).
  - split; [intros h Hh; by destruct (H2 h)|done].
Qed.

Lemma log_file_rotation_witness :
  lw_written (foldl log_step logging_start [OpReopen true; OpLog [] ; OpReopen false; OpLog [newline]; OpReopen true; OpLog []; OpClose; OpLog []]) =
  [(ToFile 0, []); (ToFile 0, [newline]); (ToFile 1, []); (Discard, [])].
Proof.
  refine (proj1 (log_file_rotation logging_start [OpReopen true; OpLog [] ; OpReopen false; OpLog [newline]; OpReopen true; OpLog []; OpClose; OpLog []] _)).
  exact logging_start_ok.
Defined.

(** ** log-courier.go *)
Record flags := mkFlags {
  fl_version : bool;
  fl_configTest : bool;
  fl_listSupported : bool;
  fl_config : text;
  fl_stdin : bool;
  fl_fromBeginning : bool;
}.

(** What [configureLogging] meets: whether standard output is a terminal, whether
    the log file can be opened and the error if not, the error of syslog. *)
Record logging_env := mkLoggingEnv { le_isatty : bool; le_open_error : option text; le_syslog_error : option text }.

Inductive backend := StdoutBackend (color : bool) | FileBackend | SyslogBackend.

Section Program.
Context {CF TF Sec : Type}.
Abbreviation Config := (Config.Config (CF := CF) (TF := TF) (Sec := Sec)).
(** The version, the transports and the codecs registered in the order of their
    maps, and what [flag.PrintDefaults] prints. *)
Context (LogCourierVersion : text) (transports codecs : list text) (usage : text).

Record logCourier := mkLogCourier {
  lc_config : Config;
  lc_stdin : bool;
  lc_fromBeginning : bool;
  lc_logFile : bool;
  lc_world : log_world;
  lc_backends : list backend;
  lc_level : Z;
}.

(** The process ends with a status, having printed to standard output and to
    standard error; or the program starts. *)
Inductive startup := Exited (code : Z) (stdout stderr : text) | Started (lc : logCourier).

Definition line (t : text) : text := t ++ [newline].

(** [Load] returns an error or none, and has filled in the configuration as far as
    it came; the result is the error and whether it warns that there are no files. *)
Definition loadConfig (stdin : bool) (loaded : option text * Config) : option text * bool :=
  match loaded with
  | (Some e, _) => (Some e, false)
  | (None, c) => (None, negb stdin && bool_decide (Files c = []))
  end.

(** The back-end at index 0 must be the one for standard output. *)
Definition set_color (bs : list backend) : outcome (list backend) :=
  match bs with StdoutBackend _ :: rest => Ret (StdoutBackend true :: rest) | _ => Panic end.

Definition configureLoggingPlatform (e : logging_env) (g : General) (bs : list backend) : outcome (text + list backend) :=
  bs ← (if le_isatty e && LogStdout g then set_color bs else Ret bs);
  if LogSyslog g then
    match le_syslog_error e with
    | Some m => Ret (inl (bytes_of "Failed to open syslog: " ++ m))
    | None => Ret (inr (bs ++ [SyslogBackend]))
    end
  else Ret (inr bs).

(** The back-ends, the file among them if it could be opened, and the logger. *)
Definition configureLogging (e : logging_env) (g : General) (w : log_world) : outcome ((text + (list backend * bool)) * log_world) :=
  let bs := if LogStdout g then [StdoutBackend false] else [] in
  let '(failed, file, w, bs) :=
    if decide (LogFile g = []) then (None, false, w, bs)
    else match le_open_error e, NewDefaultLogBackend true w with
         | None, Some w' => (None, true, w', bs ++ [FileBackend])
         | Some m, _ => (Some m, false, w, bs)
         | None, None => (Some [], false, w, bs)
         end in
  match failed with
  | Some m => Ret (inl m, w)
  | None =>
      r ← configureLoggingPlatform e g bs;
      Ret (match r with inl m => inl m | inr bs => inr (bs, file) end, w)
  end.

(** [startUp], the profile apart. *)
Definition startUp (fl : flags) (load : text → option text * Config) (e : logging_env) : outcome startup :=
  if fl_version fl then Ret (Exited 0 (line (bytes_of "Log Courier version " ++ LogCourierVersion)) [])
  else if fl_listSupported fl then
    Ret (Exited 0 (line (bytes_of "Available transports:") ++ concat ((fun t => line (bytes_of "  " ++ t)) <$> transports) ++
                   line (bytes_of "Available codecs:") ++ concat ((fun c => line (bytes_of "  " ++ c)) <$> codecs)) [])
  else if decide (fl_config fl = []) then
    Ret (Exited 1 [] (line (line (bytes_of "Please specify a configuration file with -config.")) ++ usage))
  else
    let loaded := load (fl_config fl) in
    let err := fst (loadConfig (fl_stdin fl) loaded) in
    if fl_configTest fl then
      match err with
      | None => Ret (Exited 0 (line (bytes_of "Configuration OK")) [])
      | Some m => Ret (Exited 1 (line (bytes_of "Configuration test failed: " ++ m)) [])
      end
    else
      match err with
      | Some m => Ret (Exited 1 (line (bytes_of "Configuration error: " ++ m)) [])
      | None =>
          '(r, w) ← configureLogging e (c_General (snd loaded)) logging_start;
          match r with
          | inl m => Ret (Exited 1 (bytes_of "Failed to initialise logging: " ++ m) [])
          | inr (bs, file) => Ret (Started (mkLogCourier (snd loaded) (fl_stdin fl) (fl_fromBeginning fl) file w bs (LogLevel (c_General (snd loaded)))))
          end
      end.

(** [reloadConfig]: the error, and whether the configuration is sent to the
    pipeline.  The configuration is replaced even if loading fails; the error of
    [Reopen] is not looked at; the back-ends stay as they were. *)
Definition reloadConfig (loaded : option text * Config) (opened : bool) (lc : logCourier) : option text * logCourier :=
  match fst (loadConfig (lc_stdin lc) loaded) with
  | Some m => (Some m, mkLogCourier (snd loaded) (lc_stdin lc) (lc_fromBeginning lc) (lc_logFile lc) (lc_world lc) (lc_backends lc) (lc_level lc))
  | None =>
      let w := if lc_logFile lc then Log (bytes_of "Log file reopened") (snd (Reopen opened (lc_world lc))) else lc_world lc in
      (None, mkLogCourier (snd loaded) (lc_stdin lc) (lc_fromBeginning lc) (lc_logFile lc) w (lc_backends lc) (LogLevel (c_General (snd loaded))))
  end.

(** *** What starting up promises *)

(** The back-ends the configuration asks for. *)
Definition asked_backends (e : logging_env) (g : General) : list backend :=
  (if LogStdout g then [StdoutBackend (le_isatty e)] else []) ++
  (if decide (LogFile g = []) then [] else [FileBackend]) ++
  (if LogSyslog g then [SyslogBackend] else []).

Lemma configureLogging_backends e g w :
  configureLogging e g w = Ret (
    match (if decide (LogFile g = []) then None else le_open_error e) with
    | Some m => (inl m, w)
    | None =>
        (match (if LogSyslog g then le_syslog_error e else None) with
         | Some m => inl (bytes_of "Failed to open syslog: " ++ m)
         | None => inr (asked_backends e g, negb (bool_decide (LogFile g = [])))
         end, if decide (LogFile g = []) then w else snd (Reopen true w))
    end).
Proof.
  unfold configureLogging, configureLoggingPlatform, asked_backends. rewrite bool_decide_decide.
  destruct (decide (LogFile g = [])); [|destruct (le_open_error e) as [m|]; [done|]]; simpl;
    (destruct (LogStdout g), (le_isatty e); simpl; destruct (LogSyslog g); try done; by destruct (le_syslog_error e)).
Qed.

(** Starting up never panics.  The program only goes on with a configuration
    that was loaded without an error and was not only to be tested, and then every
    back-end the configuration asks for is in place, its level set; with
    [-config-test] the exit status is 0 exactly when the configuration loads. *)
Theorem startUp_outcome fl load e :
  ∃ r, startUp fl load e = Ret r ∧
  (∀ lc, r = Started lc → load (fl_config fl) = (None, lc_config lc) ∧ fl_configTest fl = false ∧
    lc_backends lc = asked_backends e (c_General (lc_config lc)) ∧ lc_level lc = LogLevel (c_General (lc_config lc)) ∧
    (lc_logFile lc = true ↔ FileBackend ∈ lc_backends lc) ∧ log_ok (lc_world lc)) ∧
  (fl_version fl = false → fl_listSupported fl = false → fl_configTest fl = true → fl_config fl ≠ [] →
    ∃ code out, r = Exited code out [] ∧ (code = 0%Z ↔ fst (load (fl_config fl)) = None)).
Proof.
  unfold startUp. destruct (fl_version fl); [eexists; split; [reflexivity|]; split; [by intros lc|done]|].
  destruct (fl_listSupported fl); [eexists; split; [reflexivity|]; split; [by intros lc|done]|].
  destruct (decide (fl_config fl = [])) as [Hc|Hc]; [eexists; split; [reflexivity|]; split; [by intros lc|done]|].
  destruct (load (fl_config fl)) as [[m|] c] eqn:Hl; simpl; destruct (fl_configTest fl).
  - eexists. split; [reflexivity|]. split; [by intros lc|]. intros _ _ _ _. by eexists _, _.
  - eexists. split; [reflexivity|]. split; [by intros lc|done].
  - eexists. split; [reflexivity|]. split; [by intros lc|]. intros _ _ _ _. by eexists _, _.
  - rewrite configureLogging_backends. cbn [mbind outcome_mbind outcome_bind].
    destruct (if decide (LogFile (c_General c) = []) then None else le_open_error e); [eexists; split; [reflexivity|]; split; [by intros lc|done]|].
    destruct (if LogSyslog (c_General c) then le_syslog_error e else None); [eexists; split; [reflexivity|]; split; [by intros lc|done]|].
    eexists. split; [reflexivity|]. split; [|done]. intros lc [= <-]. simpl. do 4 (split; [done|]). split.
    + unfold asked_backends. case_bool_decide as Hf; simpl; [rewrite decide_True by done|rewrite decide_False by done];
        destruct (LogStdout (c_General c)), (LogSyslog (c_General c)); set_solver.
    + case_decide; [apply logging_start_ok|]. exact (log_step_ok logging_start (OpReopen true) logging_start_ok).
Qed.
End Program.

(** A configuration that logs to a file and to standard output. *)
Definition sample_general : General := mkGeneral [] [] 0 (bytes_of "/var/log/courier") 5 true false 0 [] 0 0 0 0.
Definition sample_loaded : option text * Config.Config (CF := unit) (TF := unit) (Sec := unit) := (None, set_General sample_general (NewConfig [])).
Definition sample_flags (test : bool) : flags := mkFlags false test false (bytes_of "courier.conf") false false.

Lemma startUp_outcome_witness :
  (∃ lc, startUp [] [] [] [] (sample_flags false) (fun _ => sample_loaded) (mkLoggingEnv true None None) = Ret (Started lc) ∧
    lc_backends lc = [StdoutBackend true; FileBackend]) ∧
  ∃ out, startUp [] [] [] [] (sample_flags true) (fun _ => sample_loaded) (mkLoggingEnv true None None) = Ret (Exited 0 out []).
Proof.
  split.
  - destruct (startUp_outcome [] [] [] [] (sample_flags false) (fun _ => sample_loaded) (mkLoggingEnv true None None)) as (r & Hr & Hs & _).
    assert (Hl : ∃ lc, r = Started lc) by (vm_compute in Hr; injection Hr as <-; eexists; reflexivity). destruct Hl as [lc ->].
    exists lc. split; [exact Hr|]. destruct (Hs lc eq_refl) as (Hload & _ & Hb & _). injection Hload as Hload. rewrite <- Hload in Hb. exact Hb.
  - destruct (startUp_outcome [] [] [] [] (sample_flags true) (fun _ => sample_loaded) (mkLoggingEnv true None None)) as (r & Hr & _ & Ht).
    destruct (Ht eq_refl eq_refl eq_refl ltac:(discriminate)) as (code & out & -> & Hcode). exists out.
    rewrite (proj2 Hcode eq_refl) in Hr. exact Hr.
Defined.
