(* ===== verification/LcAdmin.v ===== *)
(** * src/lc-admin: the command line client

    What a command typed at the prompt or given as arguments asks of the server
    (lc-admin.go), and the two loops that read commands (prompt.go).  The URL
    escaping is the standard library's and is written out; the connection is the
    [request] of the client, which may also fail to reach the server. *)
From S2P Require Import Prelude Core Codecs Encodings AdminApi AdminServer.

(** ** URLs *)

(** The bytes that are never escaped: letters, digits and [-_.~]. *)
Definition unreserved (c : byte) : bool :=
  let n := Byte.to_N c in
  (N.leb 65 n && N.leb n 90) || (N.leb 97 n && N.leb n 122) || (N.leb 48 n && N.leb n 57) ||
  N.eqb n 45 || N.eqb n 95 || N.eqb n 46 || N.eqb n 126.

Definition hex_digit (n : N) : byte := nth (N.to_nat n) (bytes_of "0123456789ABCDEF") "0"%byte.

(** [url.QueryEscape]. *)
Definition escape_byte (c : byte) : text :=
  if decide (c = space) then [plus]
  else if unreserved c then [c]
  else [percent; hex_digit (Byte.to_N c / 16); hex_digit (Byte.to_N c mod 16)].
Definition QueryEscape (s : text) : text := concat (escape_byte <$> s).

(** ** [lcAdmin.ProcessCommand] *)

(** What a request of the client ends with: an error of the API or of the
    connection. *)
Inductive request_result :=
| Answered (body : text)
| NotFoundError
| OtherFailure (message : text).

(** [strings.Map] of the plus signs to slashes. *)
Definition plus_to_slash (s : text) : text := (fun c => if decide (c = plus) then slash else c) <$> s.

Definition command_path (command : text) : text :=
  plus_to_slash (QueryEscape (if decide (command = bytes_of "status") then [] else command)).

Definition printHelp : text := concat ((fun l => bytes_of l ++ [newline]) <$>
  ["Available commands:"; "  help"; "    Show this information"; "  status";
   "    Get a full status snapshot of all Log Courier internals"; "  prospector [status | files [id]]";
   "    Get information on prospector state and running harvesters"; "  publisher [status | endpoints [id]]";
   "    Get information on connectivity and endpoints"; "  reload"; "    Signals Log Courier to reload its configuration";
   "  version"; "    Get the remote version"; "  debug"; "    Get a live goroutine trace for debugging purposes";
   "  exit"; "    Exit"]%string).

(** [ErrUnknown] is an interface type that every error implements, so the second
    switch takes any error for one the server returned. *)
Definition command_output (r : request_result) : bool * text :=
  match r with
  | Answered body => (true, body ++ [newline])
  | NotFoundError => (false, bytes_of "Unknown command" ++ [newline])
  | OtherFailure message => (false, bytes_of "Log Courier returned an error: " ++ message ++ [newline])
  end.

Section Client.
(** The connection to the server, with whatever state it has. *)
Context {St : Type} (request : text → M St request_result).

Definition ProcessCommand (command : text) : M St (bool * text) :=
  if decide (command = bytes_of "help") then mret (true, printHelp)
  else r ← request (command_path command); mret (command_output r).

(** ** prompt.go *)

(** What [ReadLine] returns: a line or the start of one too long for the buffer,
    the end of the input, or an error. *)
Inductive line_read := Line (l : text) | Prefix (l : text) | EndOfInput | ReadError (message : text).

(** The goroutine that reads: what it prints and the command it sends, if any. *)
Definition read_command (discard : bool) (r : line_read) : bool * text * option text :=
  match r with
  | EndOfInput => (discard, bytes_of "exit" ++ [newline], Some (bytes_of "exit"))
  | ReadError m => (discard, [newline] ++ bytes_of "Error: " ++ m ++ [newline], Some (bytes_of "exit"))
  | Prefix _ => (true, [], None)
  | Line l => if discard then (false, [newline] ++ bytes_of "Line too long!" ++ [newline] ++ bytes_of "> ", None) else (discard, [], Some l)
  end.

(** One command at the prompt; [true] when the loop ends. *)
Definition prompt_command (command : text) : M St (bool * text) :=
  if decide (command = []) then mret (false, bytes_of "> ")
  else if decide (command = bytes_of "exit") then mret (true, [])
  else r ← ProcessCommand command; mret (false, (snd r : text) ++ bytes_of "> ").

(** [prompt.run] over the reads of the input, until it ends or is interrupted. *)
Fixpoint prompt_run (discard : bool) (reads : list line_read) : M St text :=
  match reads with
  | [] => mret []
  | r :: reads' =>
      let '(discard', printed, command) := read_command discard r in
      match command with
      | None => rest ← prompt_run discard' reads'; mret (printed ++ rest)
      | Some c =>
          '(stop, out) ← prompt_command c;
          if (stop : bool) then mret (printed ++ out)
          else rest ← prompt_run discard' reads'; mret (printed ++ out ++ rest)
      end
  end.

(** [strings.Join(args, " ")]. *)
Fixpoint join_words (args : list text) : text :=
  match args with [] => [] | [w] => w | w :: args' => w ++ space :: join_words args' end.


(** [argsCommand]: once, or again every second until it is interrupted, which is
    after as many rounds as [ticks] says. *)
Fixpoint watch_loop (args : list text) (ticks : nat) : M St (bool * text) :=
  '(_, out) ← ProcessCommand (join_words args);
  match ticks with
  | O => mret (true, out ++ [newline])
  | S ticks' => '(ok, rest) ← watch_loop args ticks'; mret (ok, out ++ [newline] ++ rest)
  end.

Definition argsCommand (args : list text) (watch : bool) (ticks : nat) : M St (bool * text) :=
  if watch then watch_loop args ticks
  else ProcessCommand (join_words args).

End Client.






(** ** A command against the tree of a server *)
Section Tree.
Context {St E Form : Type} `{AdminEntry St E Form}.
Context (syntax : text → text) (json_result json_error : text → text) (json_decode : text → option (option text)).
Context (ParseForm : Form → text → api_error + Form).
(** The message for a body that is not JSON, and for a path that is no URL. *)
Context (json_message url_message : text).

Definition request_outcome (r : client_error + text) : request_result :=
  match r with
  | inr body => Answered body
  | inl ClientNotFound => NotFoundError
  | inl (ClientUnknown m) => OtherFailure m
  | inl ClientJSON => OtherFailure json_message
  | inl ClientURL => OtherFailure url_message
  end.

(** [Client.Request] over HTTP. *)
Definition http_request (root : E) (empty : Form) (path : text) : M St request_result :=
  r ← client_Request syntax json_result json_error json_decode ParseForm empty path root;
  mret (request_outcome r).





(** What is printed for the outcome of an action on the tree. *)
Definition printed (r : api_error + text) : bool * text :=
  match r with
  | inr t => (true, t ++ [newline])
  | inl ErrNotFound => (false, bytes_of "Unknown command" ++ [newline])
  | inl e => (false, bytes_of "Log Courier returned an error: " ++ coerce_utf8 (error_text syntax e) ++ [newline])
  end.







End Tree.

(** ** Examples *)
#[local] Existing Instances sample_navigatable sample_entries.
Definition sample_http : text → M nat request_result :=
  http_request id id sample_json_error sample_json_decode sample_ParseForm [] [] sample_root tt.

Example sample_version_command : ProcessCommand sample_http (bytes_of "version") 0 = Ret ((true, bytes_of "1.8.3" ++ [newline]), 0).
Proof. vm_compute. reflexivity. Qed.
Example sample_unknown_command : ProcessCommand sample_http (bytes_of "versión") 0 = Ret ((false, bytes_of "Unknown command" ++ [newline]), 0).
Proof. vm_compute. reflexivity. Qed.
(** A line too long is skipped, not run in pieces. *)
Example sample_prompt :
  (let '(out, _) := match prompt_run sample_http false [Prefix (bytes_of "relo"); Line (bytes_of "ad"); Line (bytes_of "reload"); EndOfInput; Line (bytes_of "version")] 0
    with Ret x => x | _ => ([], 9) end in out) =
  [newline] ++ bytes_of "Line too long!" ++ [newline] ++ bytes_of "> Successfully reloaded configuration" ++ [newline] ++ bytes_of "> exit" ++ [newline].
Proof. vm_compute. reflexivity. Qed.

