(* ===== verification/V1Admin.v ===== *)
(** * The client of Log Courier 1.x

    The snapshots a 1.x server sends (core/v1snapshot.go) and how they are
    rendered, the client (admin/v1client.go, admin/v1responses.go) and the command
    processor that reconnects (lc-admin/v1admin.go).  The scanner and the gob
    decoding are the standard library's and are parameters, as are the formats of
    floats and times. *)
From stdpp Require Import sorting.
From S2P Require Import Prelude Core Codecs AdminApi AdminServer.

(** ** core/v1snapshot.go *)
Inductive v1_value :=
| V1String (s : text)
| V1Int (z : Z)
| V1Sized (z : Z)
| V1Float (f : float64)
| V1Time (t : Z)
| V1Duration (d : Z)
| V1Other (s : text).

(** [Subs] is a map, kept as the list of its bindings so that snapshots nest. *)
Inductive Snapshot := mkSnapshot {
  Desc : text;
  Entries : gmap text v1_value;
  Keys : list text;
  Subs : list (text * Snapshot);
  SubKeys : list text;
}.

Definition NewSnapshot (desc : text) : Snapshot := mkSnapshot desc ∅ [] [] [].

Definition Sort (s : Snapshot) : Snapshot :=
  mkSnapshot (Desc s) (Entries s) (merge_sort text_le (Keys s)) (Subs s) (merge_sort text_le (SubKeys s)).

Definition snap_AddEntry (name : text) (value : v1_value) (s : Snapshot) : Snapshot :=
  mkSnapshot (Desc s) (<[name := value]> (Entries s)) (Keys s ++ [name]) (Subs s) (SubKeys s).

Definition EntryByName (name : text) (s : Snapshot) : option v1_value := Entries s !! name.

(** A key without an entry gives the nil value. *)
Definition Entry (i : Z) (s : Snapshot) : outcome (text * option v1_value) :=
  if decide (i < 0 ∨ zlen (Keys s) ≤ i)%Z then Panic
  else match Keys s !! Z.to_nat i with Some k => Ret (k, Entries s !! k) | None => Panic end.

Definition NumEntries (s : Snapshot) : Z := zlen (Keys s).

Fixpoint assoc {A} (k : text) (l : list (text * A)) : option A :=
  match l with [] => None | (k', a) :: l' => if decide (k' = k) then Some a else assoc k l' end.

Fixpoint assoc_set {A} (k : text) (a : A) (l : list (text * A)) : list (text * A) :=
  match l with
  | [] => [(k, a)]
  | (k', a') :: l' => if decide (k' = k) then (k, a) :: l' else (k', a') :: assoc_set k a l'
  end.

Definition AddSub (sub : Snapshot) (s : Snapshot) : Snapshot :=
  mkSnapshot (Desc s) (Entries s) (Keys s) (assoc_set (Desc sub) sub (Subs s)) (SubKeys s ++ [Desc sub]).

(** The result is a pointer, nil when the map has no such key. *)
Definition Sub (i : Z) (s : Snapshot) : outcome (option Snapshot) :=
  if decide (i < 0 ∨ zlen (SubKeys s) ≤ i)%Z then Panic
  else match SubKeys s !! Z.to_nat i with Some k => Ret (assoc k (Subs s)) | None => Panic end.

Definition NumSubs (s : Snapshot) : Z := zlen (SubKeys s).

(** ** [renderSnapJSON] and [renderSnapYAML] *)
Section Render.
(** [%q], [%.2f], [%v], [Time.Format] and [Duration.String]. *)
Context (quote : text → text) (format_float : float64 → text) (format_time duration_String : Z → text).

(** The duration without its fraction of a second. *)
Definition whole_seconds (d : Z) : Z := (d - Z.rem d Second)%Z.

(** A plain [int] is not in the list of the JSON renderer, and is quoted. *)
Definition json_value (v : option v1_value) : text :=
  match v with
  | Some (V1String s) => quote s
  | Some (V1Sized z) => FormatInt z
  | Some (V1Int z) => quote (FormatInt z)
  | Some (V1Float f) => format_float f
  | Some (V1Time t) => quote (format_time t)
  | Some (V1Duration d) => quote (duration_String (whole_seconds d))
  | Some (V1Other s) => quote s
  | None => quote (bytes_of "<nil>")
  end.

Definition yaml_value (v : option v1_value) : text :=
  match v with
  | Some (V1String s) | Some (V1Other s) => s
  | Some (V1Sized z) | Some (V1Int z) => FormatInt z
  | Some (V1Float f) => format_float f
  | Some (V1Time t) => format_time t
  | Some (V1Duration d) => duration_String (whole_seconds d)
  | None => bytes_of "<nil>"
  end.

Definition tab : byte := "009"%byte.
Definition comma : byte := ","%byte.

(** The loop over the entries, from index [i]; [n] is their number. *)
Fixpoint json_entries (fuel : nat) (i : Z) (indent : text) (s : Snapshot) : outcome text :=
  match fuel with
  | O => Ret []
  | S fuel' =>
      '(k, v) ← Entry i s;
      rest ← json_entries fuel' (i + 1) indent s;
      Ret (indent ++ quote k ++ bytes_of ": " ++ json_value v ++
           (if decide (i + 1 < NumEntries s ∨ NumSubs s ≠ 0)%Z then [comma; newline] else [newline]) ++ rest)
  end.

Fixpoint yaml_entries (fuel : nat) (i : Z) (indent : text) (s : Snapshot) : outcome text :=
  match fuel with
  | O => Ret []
  | S fuel' =>
      '(k, v) ← Entry i s;
      rest ← yaml_entries fuel' (i + 1) indent s;
      Ret (indent ++ k ++ bytes_of ": " ++ yaml_value v ++ [newline] ++ rest)
  end.

Section Subs.
Context (render : text → Snapshot → outcome text).

Fixpoint json_subs (fuel : nat) (i : Z) (indent : text) (s : Snapshot) : outcome text :=
  match fuel with
  | O => Ret []
  | S fuel' =>
      o ← Sub i s;
      match o with
      | None => Panic
      | Some sub =>
          body ← render (indent ++ [tab]) sub;
          rest ← json_subs fuel' (i + 1) indent s;
          Ret (indent ++ quote (Desc sub) ++ bytes_of ": {" ++ [newline] ++ body ++ indent ++
               (if decide (i + 1 < NumSubs s)%Z then bytes_of "}," else bytes_of "}") ++ [newline] ++ rest)
      end
  end.

Fixpoint yaml_subs (fuel : nat) (i : Z) (indent : text) (s : Snapshot) : outcome text :=
  match fuel with
  | O => Ret []
  | S fuel' =>
      o ← Sub i s;
      match o with
      | None => Panic
      | Some sub =>
          body ← render (indent ++ bytes_of "  ") sub;
          rest ← yaml_subs fuel' (i + 1) indent s;
          Ret (indent ++ Desc sub ++ bytes_of ":" ++ [newline] ++ body ++ rest)
      end
  end.
End Subs.

(** [fuel] bounds how deep snapshots nest. *)
Fixpoint renderSnapJSON (fuel : nat) (indent : text) (s : Snapshot) : outcome text :=
  match fuel with
  | O => NoFuel
  | S fuel' =>
      a ← json_entries (length (Keys s)) 0 indent s;
      b ← json_subs (renderSnapJSON fuel') (length (SubKeys s)) 0 indent s;
      Ret (a ++ b)
  end.

Fixpoint renderSnapYAML (fuel : nat) (indent : text) (s : Snapshot) : outcome text :=
  match fuel with
  | O => NoFuel
  | S fuel' =>
      a ← yaml_entries (length (Keys s)) 0 indent s;
      b ← yaml_subs (renderSnapYAML fuel') (length (SubKeys s)) 0 indent s;
      Ret (a ++ b)
  end.

Fixpoint snap_depth (s : Snapshot) : nat := S (max_list ((fun p => snap_depth (snd p)) <$> Subs s)).

Definition renderSnap (format : text) (s : Snapshot) : outcome text :=
  if decide (format = bytes_of "json") then
    body ← renderSnapJSON (snap_depth s) [tab] s; Ret (bytes_of "{" ++ [newline] ++ body ++ bytes_of "}" ++ [newline])
  else renderSnapYAML (snap_depth s) [] s.

(** *** A reference for the JSON *)

(** Members separated by commas; [more] when others follow. *)
Fixpoint members (more : bool) (items : list text) : text :=
  match items with
  | [] => []
  | x :: items' => x ++ (if decide (items' ≠ [] ∨ more = true) then [comma; newline] else [newline]) ++ members more items'
  end.

(** An object, whose members are the entries and then the nested snapshots. *)
Fixpoint json_object (fuel : nat) (indent : text) (s : Snapshot) : text :=
  match fuel with
  | O => []
  | S fuel' =>
      let inner := indent ++ [tab] in
      bytes_of "{" ++ [newline] ++
      members false
        (((fun k => inner ++ quote k ++ bytes_of ": " ++ json_value (Entries s !! k)) <$> Keys s) ++
         ((fun k => match assoc k (Subs s) with
                    | Some sub => inner ++ quote (Desc sub) ++ bytes_of ": " ++ json_object fuel' inner sub
                    | None => []
                    end) <$> SubKeys s)) ++
      indent ++ bytes_of "}"
  end.

(** Every key of a nested snapshot leads to one. *)
Inductive snap_valid : Snapshot → Prop :=
| snap_valid_intro s : (∀ k, k ∈ SubKeys s → ∃ sub, assoc k (Subs s) = Some sub ∧ snap_valid sub) → snap_valid s.

Lemma NewSnapshot_valid desc : snap_valid (NewSnapshot desc).
Proof. constructor. by intros k ?%not_elem_of_nil. Qed.

Lemma AddEntry_valid name v s : snap_valid s → snap_valid (snap_AddEntry name v s).
Proof. intros [s0 Hs]. by constructor. Qed.

Lemma Sort_valid s : snap_valid s → snap_valid (Sort s).
Proof. intros [s0 Hs]. constructor. simpl. intros k. rewrite merge_sort_Permutation. apply Hs. Qed.

Lemma assoc_set_eq {A} k (a : A) l : assoc k (assoc_set k a l) = Some a.
Proof. induction l as [|[k' a'] l IH]; simpl; repeat (case_decide; simpl; try done). Qed.

Lemma assoc_set_ne {A} k k' (a : A) l : k ≠ k' → assoc k' (assoc_set k a l) = assoc k' l.
Proof. intros Hne. induction l as [|[k1 a1] l IH]; simpl; repeat (case_decide; simpl; try congruence). Qed.

Lemma AddSub_valid sub s : snap_valid sub → snap_valid s → snap_valid (AddSub sub s).
Proof.
  intros Hsub [s0 Hs]. constructor. simpl. intros k Hk. destruct (decide (Desc sub = k)) as [<-|Hne]; [rewrite assoc_set_eq; eauto|].
  rewrite assoc_set_ne by done. apply Hs. apply elem_of_app in Hk as [?|?%list_elem_of_singleton]; congruence.
Qed.

Lemma assoc_depth k s sub : assoc k (Subs s) = Some sub → snap_depth sub < snap_depth s.
Proof.
  intros Hk. assert (Hin : ∃ k', (k', sub) ∈ Subs s).
  { induction (Subs s) as [|[k1 s1] l IH]; simpl in Hk; [done|]. case_decide; [injection Hk as <-; exists k1; by left|].
    destruct (IH Hk) as [k' Hk']. exists k'. by right. }
  destruct Hin as [k' Hin]. destruct s as [d e ks subs sks]. simpl in *. apply Nat.lt_succ_r, max_list_elem_of_le.
  apply list_elem_of_fmap. by exists (k', sub).
Qed.

Lemma members_app more a b : members more (a ++ b) = members (bool_decide (b ≠ []) || more) a ++ members more b.
Proof.
  induction a as [|x a IH]; [done|]. cbn [app members]. rewrite IH, <- !(assoc_L app). do 3 f_equal.
  apply decide_ext. rewrite orb_true_iff, bool_decide_eq_true. destruct a, b; naive_solver.
Qed.

Lemma Entry_lookup s i k : Keys s !! i = Some k → Entry (Z.of_nat i) s = Ret (k, Entries s !! k).
Proof.
  intros Hk. pose proof (lookup_lt_Some _ _ _ Hk). unfold Entry, zlen. rewrite decide_False by lia. by rewrite Nat2Z.id, Hk.
Qed.

Lemma Sub_lookup s i k : SubKeys s !! i = Some k → Sub (Z.of_nat i) s = Ret (assoc k (Subs s)).
Proof.
  intros Hk. pose proof (lookup_lt_Some _ _ _ Hk). unfold Sub, zlen. rewrite decide_False by lia. by rewrite Nat2Z.id, Hk.
Qed.

(** The keys still to be visited. *)
Lemma drop_visit (l : list text) i k rest : drop i l = k :: rest → l !! i = Some k ∧ drop (S i) l = rest ∧ length rest = length l - S i.
Proof.
  intros Hd. assert (Hk : l !! i = Some k) by (by rewrite <- (Nat.add_0_r i), <- lookup_drop, Hd).
  assert (Hd' : drop (S i) l = rest) by (rewrite (drop_S _ k i Hk) in Hd; by injection Hd). rewrite <- Hd', length_drop. done.
Qed.

Lemma json_entries_members indent s : ∀ rest i, drop i (Keys s) = rest →
  json_entries (length rest) (Z.of_nat i) indent s =
  Ret (members (bool_decide (SubKeys s ≠ [])) ((fun k => indent ++ quote k ++ bytes_of ": " ++ json_value (Entries s !! k)) <$> rest)).
Proof.
  induction rest as [|k rest IH]; intros i Hd; [done|]. destruct (drop_visit _ _ _ _ Hd) as (Hk & Hd' & Hlen).
  cbn [length json_entries fmap list_fmap members]. rewrite (Entry_lookup _ _ _ Hk).
  cbn [mbind outcome_mbind outcome_bind]. replace (Z.of_nat i + 1)%Z with (Z.of_nat (S i)) by lia. rewrite (IH (S i) Hd').
  cbn [mbind outcome_mbind outcome_bind]. rewrite <- !(assoc_L app). do 6 f_equal. apply decide_ext.
  unfold NumEntries, NumSubs, zlen. rewrite bool_decide_eq_true. pose proof (lookup_lt_Some _ _ _ Hk).
  assert (Hs : SubKeys s ≠ [] ↔ Z.of_nat (length (SubKeys s)) ≠ 0%Z) by (destruct (SubKeys s); simpl; split; (done || lia)).
  rewrite Hs. destruct rest; simpl in Hlen |- *; intuition (done || lia).
Qed.

Lemma json_subs_members render items indent s : ∀ rest i, drop i (SubKeys s) = rest →
  (∀ k, k ∈ rest → ∃ sub body, assoc k (Subs s) = Some sub ∧ render (indent ++ [tab]) sub = Ret body ∧
    items k = indent ++ quote (Desc sub) ++ bytes_of ": " ++ bytes_of "{" ++ [newline] ++ body ++ indent ++ bytes_of "}") →
  json_subs render (length rest) (Z.of_nat i) indent s = Ret (members false (items <$> rest)).
Proof.
  induction rest as [|k rest IH]; intros i Hd Hall; [done|]. destruct (drop_visit _ _ _ _ Hd) as (Hk & Hd' & Hlen).
  cbn [length json_subs fmap list_fmap members]. destruct (Hall k) as (sub & body & Hs & Hb & Hit); [by left|].
  rewrite (Sub_lookup _ _ _ Hk), Hs. cbn [mbind outcome_mbind outcome_bind]. rewrite Hb.
  cbn [mbind outcome_mbind outcome_bind]. replace (Z.of_nat i + 1)%Z with (Z.of_nat (S i)) by lia.
  rewrite (IH (S i) Hd') by (intros k' Hk'; apply Hall; by right). cbn [mbind outcome_mbind outcome_bind]. rewrite Hit.
  rewrite <- !(assoc_L app). change (bytes_of ": {") with (bytes_of ": " ++ bytes_of "{"). rewrite <- !(assoc_L app).
  pose proof (lookup_lt_Some _ _ _ Hk). unfold NumSubs, zlen. do 8 f_equal. destruct rest as [|k' rest]; simpl in Hlen.
  - by rewrite (decide_False (P := (Z.of_nat (S i) < _)%Z)) by lia.
  - by rewrite (decide_True (P := (Z.of_nat (S i) < _)%Z)) by lia.
Qed.

(** A snapshot whose keys are right renders, whatever the nesting. *)
Lemma renderSnapJSON_object : ∀ fuel outer s, snap_valid s → snap_depth s ≤ fuel →
  ∃ body, renderSnapJSON fuel (outer ++ [tab]) s = Ret body ∧
    json_object fuel outer s = bytes_of "{" ++ [newline] ++ body ++ outer ++ bytes_of "}".
Proof.
  induction fuel as [|fuel IH]; intros outer s Hv Hd; [destruct s; simpl in Hd; lia|].
  destruct Hv as [s Hv]. cbn [renderSnapJSON json_object]. set (inner := outer ++ [tab]).
  pose proof (json_entries_members inner s (Keys s) 0 eq_refl) as He. change (Z.of_nat 0) with 0%Z in He. rewrite He.
  set (items := fun k => match assoc k (Subs s) with
    | Some sub => inner ++ quote (Desc sub) ++ bytes_of ": " ++ json_object fuel inner sub | None => [] end).
  pose proof (json_subs_members (renderSnapJSON fuel) items inner s (SubKeys s) 0 eq_refl) as Hs. change (Z.of_nat 0) with 0%Z in Hs.
  rewrite Hs; clear Hs.
  - cbn [mbind outcome_mbind outcome_bind]. eexists. split; [reflexivity|]. rewrite members_app, orb_false_r.
    rewrite (bool_decide_ext (items <$> SubKeys s ≠ []) (SubKeys s ≠ [])) by (destruct (SubKeys s); naive_solver). by rewrite <- !(assoc_L app).
  - intros k Hk. destruct (Hv k Hk) as (sub & Ha & Hsub). pose proof (assoc_depth _ _ _ Ha) as Hlt.
    destruct (IH inner sub Hsub ltac:(lia)) as (body & Hb & Ho). exists sub, body. split; [done|]. split; [done|].
    unfold items. rewrite Ha, Ho. done.
Qed.

(** C34. The JSON printed for a snapshot is one object nested as the snapshot is:
    every entry and every nested snapshot is a member, in the order of the keys, and
    a comma follows each member but the last of its object, also between the entries
    and the nested snapshots.  Rendering ends and does not panic. *)
Theorem snapshot_json s : snap_valid s →
  renderSnap (bytes_of "json") s = Ret (json_object (snap_depth s) [] s ++ [newline]).
Proof.
  intros Hv. unfold renderSnap. rewrite decide_True by done.
  destruct (renderSnapJSON_object (snap_depth s) [] s Hv ltac:(lia)) as (body & Hb & Ho). change ([] ++ [tab]) with [tab] in Hb.
  rewrite Hb. cbn [mbind outcome_mbind outcome_bind]. rewrite Ho. by rewrite <- !(assoc_L app).
Qed.
End Render.

(** ** admin/v1client.go *)

(** admin/v1responses.go: what a response can hold. *)
Inductive v1_response :=
| PongResponse
| ReloadResponse
| ErrorResponse (message : text)
| SnapshotResponse (s : Snapshot)
| SnapshotsResponse (l : list Snapshot)
| OtherResponse.

(** The errors a command can end with: the two of the command line that are
    variables, a command error, an error the server sent, and any other, which is
    an error of the connection. *)
Inductive v1_error :=
| CommandEOF
| CommandError (message : text)
| ServerError (message : text)
| ConnectionError (message : text).

Definition commandTooManyArgs : v1_error := CommandError (bytes_of "Too many arguments").

Definition v1_message (e : v1_error) : text :=
  match e with CommandEOF => bytes_of "EOF" | CommandError m | ServerError m | ConnectionError m => m end.

Section Client.
(** The network: the dialer of a transport and its connection, writing to the
    connection, and decoding the next value it sends. *)
Context {N : Type} (registered : text → bool).
Context (dial : text → text → N → option text * N) (set_deadline : N → option text * N).
Context (write : text → N → (Z * option text) * N) (decode : N → (text + v1_response) * N).

(** Success or an error. *)
Definition net {A} (f : N → A * N) : M N A := fun n => Ret (f n).

Definition client_connect (adminConnect : text) : M N (option text) :=
  let '(transport, address) := splitAdminConnectString adminConnect in
  if registered transport then net (dial transport address)
  else mret (Some (bytes_of "Unknown transport specified in connection address: '" ++ transport ++ bytes_of "'")).

(** Until all four bytes are written. *)
Fixpoint write_command (fuel : nat) (command : text) (totalWritten : Z) : M N (option text) :=
  match fuel with
  | O => out_of_fuel
  | S fuel' =>
      b ← deref (slice command totalWritten 4);
      '(wrote, err) ← net (write b);
      match err with
      | Some e => mret (Some e)
      | None =>
          if decide (totalWritten + wrote = 4)%Z then mret None
          else write_command fuel' command (totalWritten + wrote)
      end
  end.

Definition v1_request (command : text) : M N (text + v1_response) :=
  e ← net set_deadline;
  match e with
  | Some e => mret (inl e)
  | None =>
      e ← write_command 5 command 0;
      match e with
      | Some e => mret (inl e)
      | None =>
          e ← net set_deadline;
          match e with Some e => mret (inl e) | None => net decode end
      end
  end.

(** An unexpected response is not what is printed: the pointer it was not is. *)
Definition resolveError (r : v1_response) : v1_error :=
  match r with
  | ErrorResponse m => ServerError m
  | _ => ServerError (bytes_of "Unrecognised response: <nil>" ++ [newline])
  end.

Definition Ping : M N (option v1_error) :=
  r ← v1_request (bytes_of "PING");
  mret match r with
       | inl e => Some (ConnectionError e)
       | inr PongResponse => None
       | inr r => Some (resolveError r)
       end.

Definition Reload : M N (option v1_error) :=
  r ← v1_request (bytes_of "RELD");
  mret match r with
       | inl e => Some (ConnectionError e)
       | inr ReloadResponse => None
       | inr r => Some (resolveError r)
       end.

(** The list of snapshots of the oldest servers, as one snapshot. *)
Definition gather (l : list Snapshot) : Snapshot :=
  Sort (foldl (fun snap sub => AddSub sub snap) (NewSnapshot (bytes_of "Log Courier")) l).

Definition FetchSnapshot : M N (v1_error + Snapshot) :=
  r ← v1_request (bytes_of "SNAP");
  mret match r with
       | inl e => inl (ConnectionError e)
       | inr (SnapshotResponse s) => inr s
       | inr (SnapshotsResponse l) => inr (gather l)
       | inr r => inl (resolveError r)
       end.
End Client.

Lemma gather_valid l : Forall snap_valid l → snap_valid (gather l).
Proof.
  intros Hl. apply Sort_valid. generalize (NewSnapshot_valid (bytes_of "Log Courier")).
  generalize (NewSnapshot (bytes_of "Log Courier")). induction Hl as [|sub l Hsub _ IH]; intros s Hs; simpl; [done|].
  by apply IH, AddSub_valid.
Qed.

(** ** lc-admin/v1admin.go *)

(** A token of the scanner: an identifier and its text, the end of the input, or
    anything else; and the message of the error it reported, if any. *)
Inductive v1_token := Ident (t : text) | EOF | OtherToken.

Record v1LcAdmin (N : Type) := mkV1 {
  v1_net : N;
  v1_connected : bool;
  v1_quiet : bool;
  v1_adminConnect : text;
  v1_scanner : text;
  v1_scannerErr : option text;
  v1_out : text;
}.
Arguments mkV1 {N}.
Arguments v1_net {N}. Arguments v1_connected {N}. Arguments v1_quiet {N}. Arguments v1_adminConnect {N}.
Arguments v1_scanner {N}. Arguments v1_scannerErr {N}. Arguments v1_out {N}.

Definition v1_printHelp : text := concat ((fun l => bytes_of l ++ [newline]) <$>
  ["Available commands:"; "  reload    Reload configuration"; "  status    Display the current shipping status"; "  exit      Exit"]%string).

Section Processor.
Context {N : Type} (registered : text → bool).
Context (dial : text → text → N → option text * N) (set_deadline : N → option text * N).
Context (write : text → N → (Z * option text) * N) (decode : N → (text + v1_response) * N).
(** The scanner: the next token, the error reported while it was read, and the
    input that is left. *)
Context (scan : text → v1_token * option text * text).
Context (quote : text → text) (format_float : float64 → text) (format_time duration_String : Z → text).
Definition set_net (n : N) (a : v1LcAdmin N) := mkV1 n (v1_connected a) (v1_quiet a) (v1_adminConnect a) (v1_scanner a) (v1_scannerErr a) (v1_out a).
Definition set_connected c (a : v1LcAdmin N) := mkV1 (v1_net a) c (v1_quiet a) (v1_adminConnect a) (v1_scanner a) (v1_scannerErr a) (v1_out a).
Definition set_scanner r (a : v1LcAdmin N) := mkV1 (v1_net a) (v1_connected a) (v1_quiet a) (v1_adminConnect a) r (v1_scannerErr a) (v1_out a).
Definition set_scannerErr e (a : v1LcAdmin N) := mkV1 (v1_net a) (v1_connected a) (v1_quiet a) (v1_adminConnect a) (v1_scanner a) e (v1_out a).
Definition set_out o (a : v1LcAdmin N) := mkV1 (v1_net a) (v1_connected a) (v1_quiet a) (v1_adminConnect a) (v1_scanner a) (v1_scannerErr a) o.

Definition print (t : text) : M (v1LcAdmin N) unit := modify (fun a => set_out (v1_out a ++ t) a).
Definition on_net {A} (m : M N A) : M (v1LcAdmin N) A := zoom v1_net set_net m.

Definition connect : M (v1LcAdmin N) (option text) :=
  a ← get;
  if v1_connected a then mret None
  else
    _ ← when (negb (v1_quiet a)) (print (bytes_of "Attempting connection to " ++ v1_adminConnect a ++ bytes_of "..." ++ [newline]));
    e ← on_net (client_connect registered dial (v1_adminConnect a));
    match e with
    | Some e => mret (Some e)
    | None =>
        _ ← when (negb (v1_quiet a)) (print (bytes_of "Connected" ++ [newline; newline]));
        _ ← modify (set_connected true);
        mret None
    end.

Definition newV1LcAdmin (n : N) (quiet : bool) (adminConnect : text) : outcome (text + v1LcAdmin N) :=
  match connect (mkV1 n false quiet adminConnect [] None []) with
  | Ret (Some e, _) => Ret (inl e)
  | Ret (None, a) => Ret (inr a)
  | Panic => Panic
  | NoFuel => NoFuel
  end.

Definition initScanner (command : text) : M (v1LcAdmin N) unit := modify (set_scanner command).

Definition Scan : M (v1LcAdmin N) v1_token :=
  a ← get;
  let '(t, e, rest) := scan (v1_scanner a) in
  _ ← modify (set_scanner rest);
  _ ← match e with Some m => modify (set_scannerErr (Some m)) | None => mret tt end;
  mret t.

Definition scanIdent : M (v1LcAdmin N) (v1_error + text) :=
  t ← Scan;
  e ← gets v1_scannerErr;
  mret match e with
       | Some m => inl (CommandError m)
       | None => match t with
                 | Ident t => inr t
                 | EOF => inl CommandEOF
                 | OtherToken => inl (CommandError (bytes_of "Invalid token"))
                 end
       end.

Definition scanEOF : M (v1LcAdmin N) bool :=
  t ← Scan;
  e ← gets v1_scannerErr;
  mret match e, t with None, EOF => true | _, _ => false end.

Definition reload_command : M (v1LcAdmin N) (option v1_error) :=
  eof ← scanEOF;
  if negb eof then mret (Some commandTooManyArgs)
  else
    err ← on_net (Reload set_deadline write decode);
    match err with
    | Some err => mret (Some err)
    | None => _ ← print (bytes_of "Configuration reload successful" ++ [newline]); mret None
    end.

Definition status_command : M (v1LcAdmin N) (option v1_error) :=
  r ← scanIdent;
  match r with
  | inl CommandEOF | inr _ =>
      eof ← scanEOF;
      if negb eof then mret (Some commandTooManyArgs)
      else
        r' ← on_net (FetchSnapshot set_deadline write decode);
        match r' with
        | inl err => mret (Some err)
        | inr snaps =>
            match renderSnap quote format_float format_time duration_String (match r with inr format => format | inl _ => [] end) snaps with
            | Ret t => _ ← print t; mret None
            | Panic => panic
            | NoFuel => out_of_fuel
            end
        end
  | inl err => mret (Some err)
  end.

Definition help_command : M (v1LcAdmin N) (option v1_error) :=
  eof ← scanEOF;
  if negb eof then mret (Some commandTooManyArgs) else _ ← print v1_printHelp; mret None.

(** One attempt: what [command] becomes, and the error. *)
Definition v1_attempt (command : text) : M (v1LcAdmin N) (text * option v1_error) :=
  _ ← initScanner command;
  r ← scanIdent;
  match r with
  | inl err => mret ([], Some err)
  | inr ident =>
      err ← (if decide (ident = bytes_of "reload") then reload_command
             else if decide (ident = bytes_of "status") then status_command
             else if decide (ident = bytes_of "help") then help_command
             else mret (Some (CommandError (bytes_of "Unknown command: " ++ ident))));
      mret (ident, err)
  end.

(** What is printed for an error; [true] when the command may be tried again. *)
Definition v1_report (err : v1_error) : M (v1LcAdmin N) bool :=
  match err with
  | CommandEOF | CommandError _ => _ ← print (bytes_of "Parse error: " ++ v1_message err ++ [newline]); mret false
  | ServerError _ => _ ← print (bytes_of "Log Courier returned an error: " ++ v1_message err ++ [newline]); mret false
  | ConnectionError _ =>
      _ ← modify (set_connected false);
      _ ← print (bytes_of "Connection error: " ++ v1_message err ++ [newline]); mret true
  end.

(** The loop of [ProcessCommand]. *)
Fixpoint v1_process (fuel : nat) (reconnected : bool) (command : text) : M (v1LcAdmin N) bool :=
  match fuel with
  | O => out_of_fuel
  | S fuel' =>
      connected ← gets v1_connected;
      failed ← (if (connected : bool) then mret None else connect);
      match (failed : option text) with
      | Some _ => mret false
      | None =>
          let reconnected := reconnected || negb connected in
          '(command, err) ← v1_attempt command;
          match err with
          | None => mret true
          | Some err =>
              again ← v1_report err;
              if (again : bool) then
                if (reconnected : bool) then mret false else v1_process fuel' reconnected command
              else mret false
          end
      end
  end.

Definition v1_ProcessCommand (command : text) : M (v1LcAdmin N) bool := v1_process 2 false command.

(** *** A reference without the loop *)
Definition last_attempt (command : text) : M (v1LcAdmin N) bool :=
  '(_, err) ← v1_attempt command;
  match err with None => mret true | Some err => _ ← v1_report err; mret false end.

Definition after_connect (command : text) : M (v1LcAdmin N) bool :=
  e ← connect;
  match (e : option text) with Some _ => mret false | None => last_attempt command end.

(** A connection that was there may have gone: the identifier the command starts
    with, alone, is tried once more over a new one. *)
Definition v1_reference (command : text) : M (v1LcAdmin N) bool :=
  connected ← gets v1_connected;
  if negb connected then after_connect command
  else
    '(ident, err) ← v1_attempt command;
    match err with
    | None => mret true
    | Some err => again ← v1_report err; if (again : bool) then after_connect ident else mret false
    end.

(** Commands one after the other, as at the prompt. *)
Fixpoint v1_commands (commands : list text) : M (v1LcAdmin N) (list bool) :=
  match commands with
  | [] => mret []
  | c :: commands' => ok ← v1_ProcessCommand c; oks ← v1_commands commands'; mret (ok :: oks)
  end.

(** ** Every command ends *)

(** [returns m]: from every state, [m] returns. *)
Definition returns {S A} (m : M S A) : Prop := ∀ s, ∃ a s', m s = Ret (a, s').

Lemma returns_bind {S A B} (m : M S A) (k : A → M S B) : returns m → (∀ a, returns (k a)) → returns (m ≫= k).
Proof. intros Hm Hk s. destruct (Hm s) as (a & s1 & Hr). destruct (Hk a s1) as (b & s2 & Hr2). exists b, s2. by rewrite (bind_run _ _ _ _ _ Hr). Qed.

Lemma returns_ret {S A} (a : A) : returns (S := S) (mret a).
Proof. intros s. by exists a, s. Qed.

Lemma returns_get {S} : returns (S := S) get.
Proof. intros s. by exists s, s. Qed.

Lemma returns_gets {S A} (f : S → A) : returns (gets f).
Proof. intros s. by exists (f s), s. Qed.

Lemma returns_modify {S} (f : S → S) : returns (modify f).
Proof. intros s. by exists tt, (f s). Qed.

Lemma returns_when {S} b (m : M S unit) : returns m → returns (when b m).
Proof. intros Hm. destruct b; [done|apply returns_ret]. Qed.

Lemma returns_net {A} (f : N → A * N) : returns (net f).
Proof. intros n. unfold net. destruct (f n) as [a n']. by exists a, n'. Qed.

Lemma returns_on_net {A} (m : M N A) : returns m → returns (on_net m).
Proof. intros Hm a. destruct (Hm (v1_net a)) as (r & n & Hr). unfold on_net, zoom. rewrite Hr. by eexists _, _. Qed.

#[local] Hint Resolve returns_ret returns_get returns_gets returns_modify returns_when returns_net returns_on_net : courier.

(** Step through the binds and the matches of a computation. *)
Ltac returns_step :=
  repeat first [ progress (auto with courier) | simple apply returns_bind; [|intros ?] | case_match ].

(** [Write] writes everything or fails, and what is decoded are snapshots a server
    made. *)
Definition write_complete : Prop := ∀ b n, snd (fst (write b n)) = None → fst (fst (write b n)) = zlen b.
Definition response_valid (r : v1_response) : Prop :=
  match r with SnapshotResponse s => snap_valid s | SnapshotsResponse l => Forall snap_valid l | _ => True end.
Definition decode_valid : Prop := ∀ n r, fst (decode n) = inr r → response_valid r.

Context (Hwrite : write_complete) (Hdecode : decode_valid).

Lemma returns_write command : zlen command = 4%Z → returns (write_command write 5 command 0).
Proof.
  intros Hl n. cbn [write_command]. assert (Hs : slice command 0 4 = Some command).
  { rewrite <- Hl, slice_full by (rewrite Hl; lia). done. }
  rewrite Hs. monad. unfold net. pose proof (Hwrite command n) as Hw. destruct (write command n) as [[wrote [e|]] n']; [by eexists _, _|].
  cbn in Hw. specialize (Hw eq_refl) as ->. rewrite Hl. by eexists _, _.
Qed.
#[local] Hint Resolve returns_write : courier.

Lemma returns_request command : zlen command = 4%Z → returns (v1_request set_deadline write decode command).
Proof. intros Hl. unfold v1_request. returns_step. Qed.

Lemma returns_connect : returns connect.
Proof. unfold connect, print, client_connect. returns_step. Qed.

Lemma returns_scan : returns Scan.
Proof. unfold Scan. returns_step. Qed.
#[local] Hint Resolve returns_request returns_connect returns_scan : courier.

Lemma yaml_entries_total indent s fuel : ∀ i, i + fuel = length (Keys s) →
  ∃ t, yaml_entries format_float format_time duration_String fuel (Z.of_nat i) indent s = Ret t.
Proof.
  induction fuel as [|fuel IH]; intros i Hi; [by eexists|]. destruct (lookup_lt_is_Some_2 (Keys s) i) as [k Hk]; [lia|].
  cbn [yaml_entries]. rewrite (Entry_lookup _ _ _ Hk). destruct (IH (S i)) as [t Ht]; [lia|].
  cbn [mbind outcome_mbind outcome_bind]. replace (Z.of_nat i + 1)%Z with (Z.of_nat (S i)) by lia. rewrite Ht. by eexists.
Qed.

Lemma yaml_subs_total render indent s fuel : ∀ i, i + fuel = length (SubKeys s) →
  (∀ k, k ∈ SubKeys s → ∃ sub body, assoc k (Subs s) = Some sub ∧ render (indent ++ bytes_of "  ") sub = Ret body) →
  ∃ t, yaml_subs render fuel (Z.of_nat i) indent s = Ret t.
Proof.
  induction fuel as [|fuel IH]; intros i Hi Hall; [by eexists|]. destruct (lookup_lt_is_Some_2 (SubKeys s) i) as [k Hk]; [lia|].
  destruct (Hall k) as (sub & body & Hs & Hb); [by apply list_elem_of_lookup_2 with i|].
  cbn [yaml_subs]. rewrite (Sub_lookup _ _ _ Hk), Hs. destruct (IH (S i)) as [t Ht]; [lia|done|].
  cbn [mbind outcome_mbind outcome_bind]. rewrite Hb. cbn [mbind outcome_mbind outcome_bind].
  replace (Z.of_nat i + 1)%Z with (Z.of_nat (S i)) by lia. rewrite Ht. by eexists.
Qed.

Lemma renderSnapYAML_total : ∀ fuel indent s, snap_valid s → snap_depth s ≤ fuel →
  ∃ t, renderSnapYAML format_float format_time duration_String fuel indent s = Ret t.
Proof.
  induction fuel as [|fuel IH]; intros indent s Hv Hd; [destruct s; simpl in Hd; lia|].
  destruct Hv as [s Hv]. cbn [renderSnapYAML].
  destruct (yaml_entries_total indent s (length (Keys s)) 0 eq_refl) as [t1 Ht1]. change (Z.of_nat 0) with 0%Z in Ht1.
  destruct (yaml_subs_total (renderSnapYAML format_float format_time duration_String fuel) indent s (length (SubKeys s)) 0 eq_refl) as [t2 Ht2].
  - intros k Hk. destruct (Hv k Hk) as (sub & Ha & Hsub). pose proof (assoc_depth _ _ _ Ha) as Hlt.
    destruct (IH (indent ++ bytes_of "  ") sub Hsub ltac:(lia)) as [body Hb]. by exists sub, body.
  - change (Z.of_nat 0) with 0%Z in Ht2. rewrite Ht1. cbn [mbind outcome_mbind outcome_bind]. rewrite Ht2. by eexists.
Qed.

Lemma renderSnap_total format s : snap_valid s → ∃ t, renderSnap quote format_float format_time duration_String format s = Ret t.
Proof.
  intros Hv. unfold renderSnap. case_decide.
  - destruct (renderSnapJSON_object quote format_float format_time duration_String (snap_depth s) [] s Hv ltac:(lia)) as (body & Hb & _).
    change ([] ++ [tab]) with [tab] in Hb. rewrite Hb. by eexists.
  - by apply renderSnapYAML_total.
Qed.

(** What [FetchSnapshot] returns is valid. *)
Lemma FetchSnapshot_valid n r n' : FetchSnapshot set_deadline write decode n = Ret (inr r, n') → snap_valid r.
Proof.
  unfold FetchSnapshot, v1_request, net. monad. destruct (set_deadline n) as [[e|] n1]; [done|].
  destruct (write_command write 5 _ 0 n1) as [[[e|] n2]| |]; [done| |done..]. destruct (set_deadline n2) as [[e|] n3]; [done|].
  pose proof (Hdecode n3) as Hd. destruct (decode n3) as [[e|r'] n4]; [done|]. specialize (Hd r' eq_refl).
  destruct r'; intros [= <- <-]; [done|by apply gather_valid].
Qed.

Lemma returns_status : returns status_command.
Proof.
  assert (Hf : returns (FetchSnapshot set_deadline write decode)) by (unfold FetchSnapshot; returns_step).
  assert (Hi : returns scanIdent) by (unfold scanIdent; returns_step).
  assert (He : returns scanEOF) by (unfold scanEOF; returns_step).
  assert (Hcont : ∀ format, returns (eof ← scanEOF; if negb eof then mret (Some commandTooManyArgs) else
    r' ← on_net (FetchSnapshot set_deadline write decode);
    match r' with
    | inl err => mret (Some err)
    | inr snaps => match renderSnap quote format_float format_time duration_String format snaps with
                   | Ret t => _ ← print t; mret None | Panic => panic | NoFuel => out_of_fuel end
    end)).
  { intros format. apply returns_bind; [done|]. intros [|]; [|apply returns_ret]. cbn [negb]. intros s. destruct (Hf (v1_net s)) as ([err|snaps] & n & Hr).
    - unfold on_net, zoom. monad. rewrite Hr. by eexists _, _.
    - destruct (renderSnap_total format snaps (FetchSnapshot_valid _ _ _ Hr)) as [t Ht].
      unfold on_net, zoom. monad. rewrite Hr, Ht. by eexists _, _. }
  unfold status_command. apply returns_bind; [done|]. intros [[]|format]; [exact (Hcont [])|apply returns_ret..|exact (Hcont format)].
Qed.

Lemma returns_attempt command :
  returns (v1_attempt command).
Proof.
  pose proof returns_status. assert (Hi : returns scanIdent) by (unfold scanIdent; returns_step).
  assert (He : returns scanEOF) by (unfold scanEOF; returns_step).
  assert (Hn : returns (Reload set_deadline write decode)) by (unfold Reload; returns_step).
  assert (Hr : returns reload_command) by (unfold reload_command, print; returns_step).
  assert (Hh : returns help_command) by (unfold help_command, print; returns_step).
  unfold v1_attempt, initScanner. returns_step.
Qed.

Lemma returns_report e : returns (v1_report e).
Proof. unfold v1_report, print. destruct e; returns_step. Qed.

Lemma report_again e a again a' : v1_report e a = Ret (again, a') → again = true → v1_connected a' = false.
Proof. destruct e; intros [= <- <-]; done. Qed.

(** A command that finds no connection. *)
Lemma v1_process_unconnected fuel reconnected command a : v1_connected a = false →
  v1_process (S fuel) reconnected command a = after_connect command a.
Proof.
  intros Hc. cbn [v1_process]. unfold after_connect, last_attempt. monad. rewrite Hc. cbn [negb]. rewrite orb_true_r.
  destruct (connect a) as [[[e|] a1]| |]; [done| |done..].
  destruct (v1_attempt command a1) as [[[ident [err|]] a2]| |]; [|done..].
  destruct (v1_report err a2) as [[[] a3]| |]; done.
Qed.

Lemma returns_after_connect command : returns (after_connect command).
Proof.
  pose proof returns_attempt. pose proof returns_report. unfold after_connect, last_attempt. returns_step.
Qed.

(** A command is attempted at most twice and always ends: an error ends it
    unless the connection it was sent over turns out to be lost, and then its first
    word alone, without what followed it, is attempted over a new connection. *)
Theorem v1_two_attempts command a :
  v1_ProcessCommand command a = v1_reference command a ∧ ∃ ok a', v1_ProcessCommand command a = Ret (ok, a').
Proof.
  assert (Heq : v1_ProcessCommand command a = v1_reference command a).
  { unfold v1_ProcessCommand, v1_reference. destruct (v1_connected a) eqn:Hc.
    - cbn [v1_process]. monad. rewrite Hc. cbn [negb orb].
      destruct (v1_attempt command a) as [[[ident [err|]] a1]| |]; [|done..].
      destruct (v1_report err a1) as [[again a2]| |] eqn:Hr; [|done..]. destruct again; [|done].
      rewrite <- (v1_process_unconnected 0 false) by (by eapply report_again). done.
    - rewrite v1_process_unconnected by done. monad. by rewrite Hc. }
  split; [done|]. rewrite Heq. revert a Heq. assert (Hr : returns (v1_reference command)); [|intros a _; apply Hr].
  pose proof returns_attempt. pose proof returns_report. pose proof returns_after_connect. unfold v1_reference. returns_step.
Qed.

(** What a scanner error leaves. *)
Lemma attempt_stuck command a : (v1_scannerErr a ≠ None ∨ snd (fst (scan command)) ≠ None) →
  ∃ m rest, v1_attempt command a = Ret (([], Some (CommandError m)), set_scannerErr (Some m) (set_scanner rest a)).
Proof.
  intros He. unfold v1_attempt, scanIdent, Scan, initScanner. destruct a as [n c q ad sc e o]. cbn in *.
  destruct (scan command) as [[t [m|]] rest] eqn:Hs; cbn in *; [exists m, rest; monad; cbn; by rewrite Hs|].
  destruct e as [m|]; [|by destruct He]. exists m, rest. monad. cbn. by rewrite Hs.
Qed.

Lemma v1_stuck command a : v1_connected a = true → (v1_scannerErr a ≠ None ∨ snd (fst (scan command)) ≠ None) →
  ∃ a', v1_ProcessCommand command a = Ret (false, a') ∧ v1_net a' = v1_net a ∧ v1_connected a' = true ∧ v1_scannerErr a' ≠ None.
Proof.
  intros Hc He. destruct (attempt_stuck command a He) as (m & rest & Hr).
  unfold v1_ProcessCommand. cbn [v1_process]. monad. rewrite Hc. cbn [negb orb]. rewrite Hr. eexists. split; [reflexivity|]. by split_and!.
Qed.

(** A character the scanner rejects in the first word of a command makes that
    command and every later one fail with a parse error, and nothing is sent: the
    error is kept and nothing clears it. *)
Theorem v1_scan_error_sticks command commands a : v1_connected a = true → snd (fst (scan command)) ≠ None →
  ∃ a', v1_commands (command :: commands) a = Ret (replicate (S (length commands)) false, a') ∧ v1_net a' = v1_net a.
Proof.
  intros Hc He. cbn [v1_commands]. destruct (v1_stuck command a Hc (or_intror He)) as (a1 & Hr & Hn & Hc1 & He1).
  rewrite (bind_run _ _ _ _ _ Hr). clear Hr He Hc.
  assert (Hall : ∀ cs a1, v1_connected a1 = true → v1_scannerErr a1 ≠ None →
    ∃ a', v1_commands cs a1 = Ret (replicate (length cs) false, a') ∧ v1_net a' = v1_net a1).
  { clear. induction cs as [|c cs IH]; intros a1 Hc He; [by exists a1|]. cbn [v1_commands].
    destruct (v1_stuck c a1 Hc (or_introl He)) as (a2 & Hr & Hn & Hc2 & He2). rewrite (bind_run _ _ _ _ _ Hr).
    destruct (IH a2 Hc2 He2) as (a3 & Hr3 & Hn3). rewrite (bind_run _ _ _ _ _ Hr3). exists a3. split; [done|congruence]. }
  destruct (Hall commands a1 Hc1 He1) as (a2 & Hr2 & Hn2). rewrite (bind_run _ _ _ _ _ Hr2). exists a2. split; [done|congruence].
Qed.
End Processor.

(** ** Examples *)
Definition sample_quote (t : text) : text := ["034"%byte] ++ t ++ ["034"%byte].

Definition sample_subs : Snapshot :=
  snap_AddEntry (bytes_of "Status") (V1String (bytes_of "Running")) (snap_AddEntry (bytes_of "Count") (V1Sized 3) (NewSnapshot (bytes_of "P1"))).
Definition sample_snapshot : Snapshot :=
  gather [AddSub (NewSnapshot (bytes_of "X")) (NewSnapshot (bytes_of "Publisher")); sample_subs].

Definition json_text (s : Snapshot) : outcome text := renderSnap sample_quote (fun _ => []) (fun _ => []) (fun _ => []) (bytes_of "json") s.

Lemma snapshot_json_witness :
  snap_valid sample_snapshot ∧
  json_text sample_snapshot = Ret (json_object sample_quote (fun _ => []) (fun _ => []) (fun _ => []) (snap_depth sample_snapshot) [] sample_snapshot ++ [newline]).
Proof.
  assert (Hv : snap_valid sample_snapshot).
  { apply gather_valid, Forall_cons. split; [apply AddSub_valid; apply NewSnapshot_valid|]. apply Forall_singleton.
    apply AddEntry_valid, AddEntry_valid, NewSnapshot_valid. }
  split; [exact Hv|]. exact (snapshot_json sample_quote (fun _ => []) (fun _ => []) (fun _ => []) sample_snapshot Hv).
Defined.

(** A scanner that splits at spaces, and rejects a word that starts with a quote;
    a network that answers [SNAP] once and is then closed. *)
Fixpoint sample_word (s : text) : text * text :=
  match s with
  | [] => ([], [])
  | c :: s' => if decide (c = " "%byte) then ([], s') else let '(w, r) := sample_word s' in (c :: w, r)
  end.
Definition sample_scan (s : text) : v1_token * option text * text :=
  match sample_word s with
  | ([], r) => (EOF, None, r)
  | (c :: w, r) => if decide (c = "'"%byte) then (OtherToken, Some (bytes_of "literal not terminated"), r) else (Ident (c :: w), None, r)
  end.
Definition sample_decode (n : nat) : (text + v1_response) * nat :=
  match n with S n' => (inr (SnapshotResponse sample_subs), n') | O => (inl (bytes_of "EOF"), 1) end.
Definition sample_v1 (n : nat) : v1LcAdmin nat := mkV1 n true true [] [] None [].
Definition run_v1 (commands : list text) (a : v1LcAdmin nat) : outcome (list bool * v1LcAdmin nat) :=
  v1_commands (fun _ => true) (fun _ _ n => (None, n)) (fun n => (None, n)) (fun b n => ((zlen b, None), n)) sample_decode sample_scan
    sample_quote (fun _ => []) (fun _ => []) (fun _ => []) commands a.

Definition shown (r : outcome (list bool * v1LcAdmin nat)) : list bool * text :=
  match r with Ret (oks, a) => (oks, v1_out a) | _ => ([], []) end.

(** The first [status json] finds the connection closed, and is answered in YAML. *)
Example sample_retry : shown (run_v1 [bytes_of "status json"] (sample_v1 0)) =
  ([true], bytes_of "Connection error: EOF" ++ [newline] ++ bytes_of "Count: 3" ++ [newline] ++ bytes_of "Status: Running" ++ [newline]).
Proof. vm_compute. reflexivity. Qed.

Lemma v1_two_attempts_witness :
  ∃ ok a', v1_ProcessCommand (fun _ => true) (fun _ _ n => (None, n)) (fun n => (None, n)) (fun b n => ((zlen b, None), n)) sample_decode sample_scan
    sample_quote (fun _ => []) (fun _ => []) (fun _ => []) (bytes_of "status json") (sample_v1 0) = Ret (ok, a').
Proof.
  refine (proj2 (v1_two_attempts (fun _ => true) (fun _ _ n => (None, n)) (fun n => (None, n)) (fun b n => ((zlen b, None), n)) sample_decode sample_scan
    sample_quote (fun _ => []) (fun _ => []) (fun _ => []) _ _ (bytes_of "status json") (sample_v1 0))).
  - intros b n _. reflexivity.
  - intros [|n] r; [discriminate|]. intros [= <-]. apply AddEntry_valid, AddEntry_valid, NewSnapshot_valid.
Defined.

Lemma v1_scan_error_sticks_witness :
  ∃ a', run_v1 [bytes_of "'status"; bytes_of "status"] (sample_v1 1) = Ret ([false; false], a') ∧ v1_net a' = 1.
Proof.
  refine (v1_scan_error_sticks (fun _ => true) (fun _ _ n => (None, n)) (fun n => (None, n)) (fun b n => ((zlen b, None), n)) sample_decode sample_scan
    sample_quote (fun _ => []) (fun _ => []) (fun _ => []) (bytes_of "'status") [bytes_of "status"] (sample_v1 1) _ _).
  - reflexivity.
  - discriminate.
Defined.
