(* ===== verification/AdminMain.v ===== *)
(** * src/lc-admin: from the command line to a connection

    The start of lc-admin.go - the address to connect to, which of the two command
    processors - the first request of admin/client.go, and the exit status.  Flag
    parsing, loading the configuration and the dialers are parameters. *)
From S2P Require Import Prelude Core Codecs AdminApi AdminServer LcAdmin V1Admin.

Definition text_line (t : text) : text := t ++ [newline].

(** The process exits with a status having printed, or goes on. *)
Inductive run_result (A : Type) := Exit (code : Z) (printed : text) | Going (a : A) (printed : text).
Arguments Exit {A}.
Arguments Going {A}.

Record admin_flags := mkAdminFlags {
  af_version : bool;
  af_quiet : bool;
  af_watch : bool;
  af_legacy : bool;
  af_connect : text;
  af_config : text;
  af_args : list text;
}.

Section Start.
Context (LogCourierVersion DefaultBind usage : text).
(** Loading a configuration file: an error, or the address of its admin section. *)
Context (load : text → text + text).

(** The address to connect to. *)
Definition loadConfig (configFile adminConnect : text) : run_result text :=
  if decide (configFile = [] ∧ adminConnect = []) then
    if decide (DefaultBind = []) then Exit 1 (text_line (bytes_of "Either -connect or -config must be specified") ++ usage)
    else Going DefaultBind []
  else if decide (adminConnect = []) then
    let loading := text_line (bytes_of "Loading configuration: " ++ configFile) in
    match load configFile with
    | inl e => Exit 1 (loading ++ text_line (bytes_of "Configuration error: " ++ e))
    | inr bind => Going bind loading
    end
  else Going adminConnect [].

Definition startUp (fl : admin_flags) : run_result text :=
  let banner := text_line (bytes_of "Log Courier client version " ++ LogCourierVersion) in
  if af_version fl then Exit 0 banner
  else
    let head := if af_quiet fl then [] else banner in
    match loadConfig (af_config fl) (af_connect fl) with
    | Exit code out => Exit code (head ++ out)
    | Going a out => Going a (head ++ out ++ [newline])
    end.
End Start.

(** ** The client *)
Section Client.
Context {St : Type} (registered : text → bool) (dialer : text → text → option text) (request : text → M St (text + text)).

(** [NewClient]: an error, or the version of the server. *)
Definition initClient (adminConnect : text) : M St (text + text) :=
  let '(transport, address) := splitAdminConnectString adminConnect in
  if negb (registered transport) then mret (inl (bytes_of "Unknown transport specified for admin bind: '" ++ transport ++ bytes_of "'"))
  else match dialer transport address with
       | Some e => mret (inl e)
       | None => request (bytes_of "version")
       end.

(** Which command processor, once it is connected. *)
Inductive processor (V : Type) := Current | Legacy (a : V).
Arguments Current {V}.
Arguments Legacy {V}.

Definition newCommandProcessor {V} (legacy : bool) (newV1 : outcome (text + V)) (quiet : bool) (adminConnect : text) : M St ((text + processor V) * text) :=
  if legacy then
    fun s => match newV1 with
             | Ret (inl e) => Ret ((inl e, []), s)
             | Ret (inr a) => Ret ((inr (Legacy a), []), s)
             | Panic => Panic
             | NoFuel => NoFuel
             end
  else
    let attempting := if quiet then [] else text_line (bytes_of "Attempting connection to " ++ adminConnect ++ bytes_of "...") in
    r ← initClient adminConnect;
    mret match r with
         | inl e => (inl e, attempting)
         | inr version =>
             (inr Current, attempting ++ if quiet then [] else text_line (bytes_of "Connected to Log Courier version " ++ version) ++ [newline])
         end.

(** What follows: the command of the arguments, the prompt, or neither.  [command]
    and [prompt] are those of prompt.go for the processor. *)
Definition after_connect (fl : admin_flags) (command : list text → bool → M St (bool * text)) (prompt : M St text) : M St (Z * text) :=
  if decide (af_args fl ≠ []) then r ← command (af_args fl) (af_watch fl); mret (if fst r : bool then 0%Z else 1%Z, snd r)
  else if af_quiet fl then mret (1%Z, text_line (bytes_of "No command specified on the command line for quiet execution"))
  else if af_watch fl then mret (1%Z, text_line (bytes_of "No command specified on the command line to watch"))
  else out ← prompt; mret (0%Z, out).

(** [Run] of the current client. *)
Definition Run (version bind usage : text) (load : text → text + text) (fl : admin_flags)
    (command : list text → bool → M St (bool * text)) (prompt : M St text) : M St (Z * text) :=
  match startUp version bind usage load fl with
  | Exit code out => mret (code, out)
  | Going adminConnect out =>
      r ← newCommandProcessor (V := Empty_set) false (Ret (inl [])) (af_quiet fl) adminConnect;
      match fst r with
      | inl e => mret (1%Z, out ++ snd r ++ text_line (bytes_of "Failed to initialise: " ++ e))
      | inr _ => r' ← after_connect fl command prompt; mret (fst r', out ++ snd r ++ snd r')
      end
  end.

(** With a command in its arguments, and not watching, the client's exit status is
    that of the command; nothing but the command's output is printed when it is
    quiet and the address is given. *)
Lemma Run_status version bind usage load fl (process : text → M St request_result) prompt s a v s1 :
  af_version fl = false → af_quiet fl = true → af_watch fl = false → af_args fl ≠ [] → af_connect fl = a → a ≠ [] →
  initClient a s = Ret (inr v, s1) →
  Run version bind usage load fl (fun args watch => argsCommand process args watch 0) prompt s =
    (r ← ProcessCommand process (join_words (af_args fl)); mret (if fst r : bool then 0%Z else 1%Z, newline :: snd r)) s1.
Proof.
  intros Hv Hq Hw Ha Hc Hne Hr. unfold Run, startUp, loadConfig. rewrite Hv, Hq, Hc.
  rewrite decide_False by (by intros []). rewrite decide_False by done. unfold newCommandProcessor. rewrite bind_assoc.
  rewrite (bind_run _ _ _ _ _ Hr). cbn [mret M_mret M_ret]. rewrite (bind_run (mret _) _ s1 _ s1 eq_refl). cbn [fst].
  unfold after_connect. rewrite decide_True by done. rewrite Hw. unfold argsCommand. monad.
  destruct (ProcessCommand process _ s1) as [[[[] out] s2]| |]; done.
Qed.
End Client.
