(* ===== verification/TlsCert.v ===== *)
(** * src/lc-tlscert: the generator of self-signed certificates

    The questions asked on standard input and the template they fill in, and the
    order in which the key and the certificate are made and written.  The input is
    what [ReadLine] returns one after the other; parsing addresses and numbers,
    cryptography and the files are parameters.  The introductory texts are left
    out. *)
From S2P Require Import Prelude Core Codecs AdminApi.

(** ** Reading *)

(** A piece of a line and whether the line goes on; after the last one [ReadLine]
    returns an error and nothing. *)
Record terminal := mkTerminal { t_input : list (text * bool); t_output : text }.

Definition print (t : text) : M terminal unit := modify (fun s => mkTerminal (t_input s) (t_output s ++ t)).
Definition println (t : text) : M terminal unit := print (t ++ [newline]).

Fixpoint read_line (line : text) (input : list (text * bool)) : text * list (text * bool) :=
  match input with
  | [] => (line, [])
  | (data, prefix) :: rest => if prefix then read_line (line ++ data) rest else (line ++ data, rest)
  end.

Definition readString (prompt : text) : M terminal text :=
  _ ← print (prompt ++ bytes_of ": ");
  s ← get;
  let '(line, rest) := read_line [] (t_input s) in
  _ ← modify (fun s => mkTerminal rest (t_output s));
  mret line.

(** [time.Duration(n) * time.Hour * 24]. *)
Definition Hour : Z := (3600 * Second)%Z.
Definition validity (days : Z) : Z := int64 (int64 (days * Hour) * 24).

Section Dialogue.
(** [net.ParseIP], and [strconv.ParseInt(_, 0, 64)]. *)
Context {IP : Type} (ParseIP : text → option IP) (ParseInt : text → option Z).

(** Until a number is entered. *)
Fixpoint readNumber (fuel : nat) (prompt : text) : M terminal Z :=
  match fuel with
  | O => out_of_fuel
  | S fuel' =>
      line ← readString prompt;
      match ParseInt line with
      | Some n => mret n
      | None => _ ← println (bytes_of "Please enter a valid numerical value"); readNumber fuel' prompt
      end
  end.

Record Certificate := mkCertificate {
  CommonName : text;
  DNSNames : list text;
  IPAddresses : list IP;
  NotBefore : Z;
  NotAfter : Z;
}.

(** The names and addresses, up to an empty line; [cnt] is the number asked for. *)
Fixpoint read_names (fuel : nat) (cnt : Z) (dns : list text) (ips : list IP) : M terminal (list text * list IP) :=
  match fuel with
  | O => out_of_fuel
  | S fuel' =>
      val ← readString (bytes_of "DNS or IP address " ++ FormatInt cnt);
      if decide (val = []) then mret (dns, ips)
      else match ParseIP val with
           | Some ip => read_names fuel' (cnt + 1) dns (ips ++ [ip])
           | None => read_names fuel' (cnt + 1) (dns ++ [val]) ips
           end
  end.

(** [now] is when the program starts, [fuel] bounds the lines of each question. *)
Definition dialogue (fuel : nat) (now : Z) : M terminal Certificate :=
  common ← readString (bytes_of "Common name");
  '(dns, ips) ← read_names fuel 1 [] [];
  days ← readNumber fuel (bytes_of "Number of days");
  mret (mkCertificate common dns ips now (now + validity days)).

(** What is shown before the certificate is made. *)
Definition list_or_none (l : list text) : text :=
  match l with
  | [] => bytes_of "    None" ++ [newline]
  | _ => concat ((fun e => bytes_of "    " ++ e ++ [newline]) <$> l)
  end.

Definition summary (IP_String : IP → text) (c : Certificate) : text :=
  bytes_of "Common name: " ++ CommonName c ++ [newline] ++
  bytes_of "DNS SANs:" ++ [newline] ++ list_or_none (DNSNames c) ++
  bytes_of "IP SANs:" ++ [newline] ++ list_or_none (IP_String <$> IPAddresses c) ++ [newline].

(** ** Generating *)

(** What the calls answer: an error, or the key and the certificate in PEM. *)
Record machine := mkMachine {
  m_key : text + text;
  m_serial : option text;
  m_sign : Certificate → text + text;
  m_create : text → option text;
}.

(** The exit status, the message of an error, and the files written with their
    modes, 0666 being that of [os.Create]. *)
Definition generate (m : machine) (c : Certificate) : Z * text * list (text * Z * text) :=
  match m_key m with
  | inl e => (1%Z, bytes_of "Failed to generate private key: " ++ e, [])
  | inr key =>
      match m_serial m with
      | Some e => (1%Z, bytes_of "Failed to generate serial number: " ++ e, [])
      | None =>
          match m_sign m c with
          | inl e => (1%Z, bytes_of "Failed to create certificate: " ++ e, [])
          | inr der =>
              match m_create m (bytes_of "selfsigned.crt") with
              | Some e => (1%Z, bytes_of "Failed to open selfsigned.pem for writing: " ++ e, [])
              | None =>
                  let crt := (bytes_of "selfsigned.crt", 438%Z, der) in
                  match m_create m (bytes_of "selfsigned.key") with
                  | Some e => (1%Z, bytes_of "failed to open selfsigned.key for writing: " ++ e, [crt])
                  | None => (0%Z, bytes_of "Successfully generated certificate", [crt; (bytes_of "selfsigned.key", 384%Z, key)])
                  end
              end
          end
      end
  end.

(** ** What the answers give *)
Definition typed (l : text) : text * bool := (l, false).

Lemma readString_typed prompt l rest out : readString prompt (mkTerminal (typed l :: rest) out) = Ret (l, mkTerminal rest (out ++ prompt ++ bytes_of ": ")).
Proof. done. Qed.

Lemma readString_end prompt out : readString prompt (mkTerminal [] out) = Ret ([], mkTerminal [] (out ++ prompt ++ bytes_of ": ")).
Proof. done. Qed.

(** A line in pieces is put together. *)
Lemma read_line_pieces pieces line last rest :
  read_line line (((fun d => (d, true)) <$> pieces) ++ typed last :: rest) = (line ++ concat pieces ++ last, rest).
Proof.
  revert line. induction pieces as [|d pieces IH]; intros line; simpl; [done|]. rewrite IH. by rewrite <- !(assoc_L app).
Qed.

Lemma read_names_typed names fuel : ∀ cnt dns ips rest out,
  length names < fuel → Forall (fun n : text => n ≠ []) names →
  ∃ out', read_names fuel cnt dns ips (mkTerminal ((typed <$> names) ++ typed [] :: rest) out) =
    Ret ((dns ++ filter (fun n => ParseIP n = None) names, ips ++ omap ParseIP names), mkTerminal rest out').
Proof.
  revert fuel. induction names as [|n names IH]; intros fuel cnt dns ips rest out Hl Hne; (destruct fuel as [|fuel]; [simpl in Hl; lia|]).
  - cbn [read_names fmap list_fmap app]. rewrite (bind_run _ _ _ _ _ (readString_typed _ _ _ _)). rewrite decide_True by done.
    rewrite filter_nil, !app_nil_r. by eexists.
  - apply Forall_cons in Hne as [Hn Hne]. cbn [read_names fmap list_fmap app].
    rewrite (bind_run _ _ _ _ _ (readString_typed _ _ _ _)), decide_False by done. simpl in Hl. rewrite filter_cons. cbn [omap list_omap].
    match goal with |- context [mkTerminal ((typed <$> names) ++ typed [] :: rest) ?o] => set (out1 := o) end.
    destruct (ParseIP n) as [ip|] eqn:Hip; [rewrite decide_False by done|rewrite decide_True by done].
    + destruct (IH fuel (cnt + 1)%Z dns (ips ++ [ip]) rest out1) as [out' Hr]; [lia|done|].
      exists out'. rewrite Hr. by rewrite <- (assoc_L app).
    + destruct (IH fuel (cnt + 1)%Z (dns ++ [n]) ips rest out1) as [out' Hr]; [lia|done|].
      exists out'. rewrite Hr. by rewrite <- (assoc_L app).
Qed.

Lemma readNumber_typed wrong fuel : ∀ l n prompt rest out,
  length wrong < fuel → Forall (fun w => ParseInt w = None) wrong → ParseInt l = Some n →
  ∃ out', readNumber fuel prompt (mkTerminal ((typed <$> wrong) ++ typed l :: rest) out) = Ret (n, mkTerminal rest out').
Proof.
  revert fuel. induction wrong as [|w wrong IH]; intros fuel l n prompt rest out Hl Hw Hn; (destruct fuel as [|fuel]; [simpl in Hl; lia|]);
    cbn [readNumber fmap list_fmap app]; rewrite (bind_run _ _ _ _ _ (readString_typed _ _ _ _)).
  - rewrite Hn. by eexists.
  - apply Forall_cons in Hw as [Hw1 Hw]. rewrite Hw1. simpl in Hl. apply (IH fuel); [lia|done..].
Qed.

(** At the end of the input the question is asked for ever. *)
Lemma readNumber_end wrong fuel : ∀ prompt out,
  Forall (fun w => ParseInt w = None) wrong → ParseInt [] = None →
  readNumber fuel prompt (mkTerminal (typed <$> wrong) out) = NoFuel.
Proof.
  revert wrong. induction fuel as [|fuel IH]; intros wrong prompt out Hw Hn; [done|]. cbn [readNumber].
  destruct wrong as [|w wrong]; cbn [fmap list_fmap].
  - rewrite (bind_run _ _ _ _ _ (readString_end _ _)), Hn. by apply (IH []).
  - apply Forall_cons in Hw as [Hw1 Hw]. rewrite (bind_run _ _ _ _ _ (readString_typed _ _ _ _)), Hw1. by apply IH.
Qed.

Lemma validity_wraps n : validity n = int64 (n * 24 * Hour).
Proof.
  unfold validity, int64. replace (n * 24 * Hour)%Z with (n * Hour * 24)%Z by lia. generalize (n * Hour)%Z. intros z.
  pose proof (Z.mod_eq (z + 2 ^ 63) (2 ^ 64) ltac:(lia)) as Hz. rewrite Hz. f_equal.
  replace ((z + 2 ^ 63 - 2 ^ 64 * ((z + 2 ^ 63) / 2 ^ 64) - 2 ^ 63) * 24 + 2 ^ 63)%Z
    with (z * 24 + 2 ^ 63 + (- 24 * ((z + 2 ^ 63) / 2 ^ 64)) * 2 ^ 64)%Z by lia.
  by rewrite Z.mod_add by lia.
Qed.

Lemma validity_exact n : validity n = (n * 24 * Hour)%Z ↔ (-106751 ≤ n ≤ 106751)%Z.
Proof.
  rewrite validity_wraps. unfold Hour, Second, int64. split.
  - intros He. pose proof (Z.mod_pos_bound (n * 24 * (3600 * 1000000000) + 2 ^ 63) (2 ^ 64) ltac:(lia)). lia.
  - intros Hn. rewrite Z.mod_small; lia.
Qed.

(** C40. The answers end up in the certificate: the common name, every name or
    address up to the empty line, in order and each on its list, and the first
    entry that is a number of days, wrong entries before it being asked again; the
    time it is valid is that many days exactly up to 106751 days and wraps around
    beyond.  If the input ends without a number the program never ends. *)
Theorem cert_dialogue fuel now common names wrong l n rest out :
  Forall (fun n : text => n ≠ []) names → Forall (fun w => ParseInt w = None) wrong →
  length names < fuel → length wrong < fuel →
  let input := typed common :: (typed <$> names) ++ typed [] :: (typed <$> wrong) in
  (ParseInt l = Some n → ∃ c s, dialogue fuel now (mkTerminal (input ++ typed l :: rest) out) = Ret (c, s) ∧
    CommonName c = common ∧ DNSNames c = filter (fun n => ParseIP n = None) names ∧ IPAddresses c = omap ParseIP names ∧
    NotBefore c = now ∧ t_input s = rest ∧ (NotAfter c = (now + n * 24 * Hour)%Z ↔ (-106751 ≤ n ≤ 106751)%Z)) ∧
  (ParseInt [] = None → ∀ fuel, length names < fuel → dialogue fuel now (mkTerminal input out) = NoFuel).
Proof.
  intros Hne Hw Hf Hf' input. split.
  - intros Hn. unfold dialogue, input. cbn [app]. rewrite (bind_run _ _ _ _ _ (readString_typed _ _ _ _)).
    rewrite <- (assoc_L app). cbn [app].
    destruct (read_names_typed names fuel 1 [] [] ((typed <$> wrong) ++ typed l :: rest) (out ++ bytes_of "Common name" ++ bytes_of ": ")) as [o1 Hr1]; [done|done|].
    rewrite (bind_run _ _ _ _ _ Hr1).
    destruct (readNumber_typed wrong fuel l n (bytes_of "Number of days") rest o1) as [o2 Hr2]; [done..|]. rewrite (bind_run _ _ _ _ _ Hr2).
    eexists _, _. split; [reflexivity|]. simpl. do 5 (split; [done|]). rewrite <- validity_exact. lia.
  - intros Hn fuel' Hl. unfold dialogue, input. rewrite (bind_run _ _ _ _ _ (readString_typed _ _ _ _)).
    destruct (read_names_typed names fuel' 1 [] [] (typed <$> wrong) (out ++ bytes_of "Common name" ++ bytes_of ": ")) as [o1 Hr1]; [done|done|].
    rewrite (bind_run _ _ _ _ _ Hr1). monad. by rewrite readNumber_end.
Qed.
End Dialogue.

(** A certificate for a name and an address; the first number is mistyped. *)
Definition sample_ip (t : text) : option nat := if decide (t = bytes_of "10.0.0.1") then Some 1 else None.
Definition sample_int (t : text) : option Z :=
  if decide (t = bytes_of "365") then Some 365%Z else if decide (t = bytes_of "150000") then Some 150000%Z else None.

Lemma cert_dialogue_witness :
  ∃ c s, dialogue sample_ip sample_int 3 1000 (mkTerminal
    [typed (bytes_of "logs"); typed (bytes_of "logs.example"); typed (bytes_of "10.0.0.1"); typed []; typed (bytes_of "1y"); typed (bytes_of "365")] []) = Ret (c, s) ∧
    DNSNames c = [bytes_of "logs.example"] ∧ IPAddresses c = [1] ∧ NotAfter c = (1000 + 365 * 24 * Hour)%Z.
Proof.
  destruct (cert_dialogue sample_ip sample_int 3 1000 (bytes_of "logs") [bytes_of "logs.example"; bytes_of "10.0.0.1"] [bytes_of "1y"] (bytes_of "365") 365 [] []) as [H _].
  - apply (bool_decide_unpack _). vm_compute. exact I.
  - apply (bool_decide_unpack _). vm_compute. exact I.
  - simpl. lia.
  - simpl. lia.
  - destruct (H eq_refl) as (c & s & Hr & _ & Hd & Hi & _ & _ & Hn). exists c, s. split; [exact Hr|].
    split; [rewrite Hd; vm_compute; reflexivity|]. split; [rewrite Hi; vm_compute; reflexivity|]. apply Hn. lia.
Defined.

(** A certificate for 150000 days is expired when it is made. *)
Example sample_expired : (validity 150000 <? 0)%Z = true.
Proof. vm_compute. reflexivity. Qed.
