(* ===== verification/FileIdentities.v ===== *)
(** * lc-lib/registrar/filestateos_*.go: file identities on other systems

    [Registrar] has the identity of Linux, an inode and a device.  Here are those
    of FreeBSD, Darwin, OpenBSD and Windows, the class they share, and what the
    search for renamed files ([Prospector.lookupFileIds]) can rely on.  The last
    part is harvester_windows.go, which opens a file so that it can be renamed
    while it is read. *)
From S2P Require Import Prelude Core Codecs Registrar.

(** What the registrar and the prospector use of an identity: it is filled in
    from a file's information, and compared with that of another file. *)
Class FileStateOS (Info FS : Type) := {
  no_ids : FS;
  populate_ids : Info → FS → outcome FS;
  same_ids : FS → Info → outcome bool;
}.

(** The law of an identity: filling it in does not depend on what it was, and a
    comparison is that of the identity the other file would be given. *)
Class FileStateOSLaws (Info FS : Type) `{FileStateOS Info FS} `{EqDecision FS} := {
  populate_fresh : ∀ info fs fs', populate_ids info fs = populate_ids info fs';
  same_populates : ∀ fs info, same_ids fs info = (fs' ← populate_ids info no_ids; mret (bool_decide (fs = fs')));
}.

(** ** FreeBSD, Darwin, OpenBSD

    [Sys] is the [syscall.Stat_t] behind a file's information; the assertion of
    its type panics on anything else. *)
Section Unix.
Context {Info : Type}.

Record FreebsdIds := mkFreebsd { freebsd_Inode : Z; freebsd_Device : Z }.
#[export] Instance FreebsdIds_eq_dec : EqDecision FreebsdIds. Proof. solve_decision. Defined.

Definition freebsd_PopulateFileIds (Sys : Info → option (Z * Z)) (info : Info) (fs : FreebsdIds) : outcome FreebsdIds :=
  match Sys info with
  | Some (ino, dev) => Ret (mkFreebsd ino dev)
  | None => Panic
  end.

Definition freebsd_SameAs (Sys : Info → option (Z * Z)) (fs : FreebsdIds) (info : Info) : outcome bool :=
  state ← freebsd_PopulateFileIds Sys info (mkFreebsd 0 0);
  mret (bool_decide (freebsd_Inode fs = freebsd_Inode state) && bool_decide (freebsd_Device fs = freebsd_Device state)).

Record DarwinIds := mkDarwin { darwin_Inode : Z; darwin_Device : Z }.
#[export] Instance DarwinIds_eq_dec : EqDecision DarwinIds. Proof. solve_decision. Defined.

Definition darwin_PopulateFileIds (Sys : Info → option (Z * Z)) (info : Info) (fs : DarwinIds) : outcome DarwinIds :=
  match Sys info with
  | Some (ino, dev) => Ret (mkDarwin ino dev)
  | None => Panic
  end.

Definition darwin_SameAs (Sys : Info → option (Z * Z)) (fs : DarwinIds) (info : Info) : outcome bool :=
  state ← darwin_PopulateFileIds Sys info (mkDarwin 0 0);
  mret (bool_decide (darwin_Inode fs = darwin_Inode state) && bool_decide (darwin_Device fs = darwin_Device state)).

Record OpenbsdIds := mkOpenbsd { openbsd_Inode : Z; openbsd_Device : Z }.
#[export] Instance OpenbsdIds_eq_dec : EqDecision OpenbsdIds. Proof. solve_decision. Defined.

Definition openbsd_PopulateFileIds (Sys : Info → option (Z * Z)) (info : Info) (fs : OpenbsdIds) : outcome OpenbsdIds :=
  match Sys info with
  | Some (ino, dev) => Ret (mkOpenbsd ino dev)
  | None => Panic
  end.

Definition openbsd_SameAs (Sys : Info → option (Z * Z)) (fs : OpenbsdIds) (info : Info) : outcome bool :=
  state ← openbsd_PopulateFileIds Sys info (mkOpenbsd 0 0);
  mret (bool_decide (openbsd_Inode fs = openbsd_Inode state) && bool_decide (openbsd_Device fs = openbsd_Device state)).
End Unix.

(** ** Windows

    [FieldByName] is what reflection finds in the information behind its two
    pointers: the value of an unsigned field, or nothing, and then the conversion
    panics.  [PopulateFileIds] recovers from it. *)
Section Windows.
Context {Info : Type} (FieldByName : Info → text → option Z).

Record WindowsIds := mkWindows { Vol : Z; IdxHi : Z; IdxLo : Z }.
#[export] Instance WindowsIds_eq_dec : EqDecision WindowsIds. Proof. solve_decision. Defined.

Definition Uint (info : Info) (name : string) : outcome Z :=
  match FieldByName info (bytes_of name) with Some v => Ret (uint32 v) | None => Panic end.

(** The fields are set one after another; the deferred function clears all. *)
Definition windows_PopulateFileIds (info : Info) (fs : WindowsIds) : outcome WindowsIds :=
  match (vol ← Uint info "vol"; idxhi ← Uint info "idxhi"; idxlo ← Uint info "idxlo"; mret (mkWindows vol idxhi idxlo)) with
  | Ret fs' => Ret fs'
  | Panic | NoFuel => Ret (mkWindows 0 0 0)
  end.

Definition windows_SameAs (fs : WindowsIds) (info : Info) : outcome bool :=
  state ← windows_PopulateFileIds info (mkWindows 0 0 0);
  mret (bool_decide (Vol fs = Vol state) && bool_decide (IdxHi fs = IdxHi state) && bool_decide (IdxLo fs = IdxLo state)).

(** Reflection fails for a file. *)
Definition unreadable (info : Info) : Prop :=
  FieldByName info (bytes_of "vol") = None ∨ FieldByName info (bytes_of "idxhi") = None ∨ FieldByName info (bytes_of "idxlo") = None.

Lemma windows_readable info v h l fs :
  FieldByName info (bytes_of "vol") = Some v → FieldByName info (bytes_of "idxhi") = Some h →
  FieldByName info (bytes_of "idxlo") = Some l →
  windows_PopulateFileIds info fs = Ret (mkWindows (uint32 v) (uint32 h) (uint32 l)).
Proof. intros Hv Hh Hl. unfold windows_PopulateFileIds, Uint. by rewrite Hv, Hh, Hl. Qed.

Lemma windows_unreadable info fs : unreadable info → windows_PopulateFileIds info fs = Ret (mkWindows 0 0 0).
Proof.
  unfold unreadable, windows_PopulateFileIds, Uint.
  cbv [mbind outcome_mbind outcome_bind mret outcome_mret].
  destruct (FieldByName info (bytes_of "vol")); [|done]. destruct (FieldByName info (bytes_of "idxhi")); [|done].
  destruct (FieldByName info (bytes_of "idxlo")); [|done]. by intros [?|[?|?]].
Qed.
End Windows.

(** ** The systems as instances *)
Section Instances.
Context {Info : Type} (Sys : Info → option (Z * Z)).

Definition freebsd_os : FileStateOS Info FreebsdIds :=
  {| no_ids := mkFreebsd 0 0; populate_ids := freebsd_PopulateFileIds Sys; same_ids := freebsd_SameAs Sys |}.
Definition darwin_os : FileStateOS Info DarwinIds :=
  {| no_ids := mkDarwin 0 0; populate_ids := darwin_PopulateFileIds Sys; same_ids := darwin_SameAs Sys |}.
Definition openbsd_os : FileStateOS Info OpenbsdIds :=
  {| no_ids := mkOpenbsd 0 0; populate_ids := openbsd_PopulateFileIds Sys; same_ids := openbsd_SameAs Sys |}.
Lemma freebsd_laws : @FileStateOSLaws Info FreebsdIds freebsd_os _.
Proof.
  split; [done|]. intros [i d] info. simpl. unfold freebsd_SameAs, freebsd_PopulateFileIds.
  destruct (Sys info) as [[i' d']|]; [|done]. simpl. cbv [mret outcome_mret]. f_equal. repeat case_bool_decide; naive_solver.
Qed.

Lemma darwin_laws : @FileStateOSLaws Info DarwinIds darwin_os _.
Proof.
  split; [done|]. intros [i d] info. simpl. unfold darwin_SameAs, darwin_PopulateFileIds.
  destruct (Sys info) as [[i' d']|]; [|done]. simpl. cbv [mret outcome_mret]. f_equal. repeat case_bool_decide; naive_solver.
Qed.

Lemma openbsd_laws : @FileStateOSLaws Info OpenbsdIds openbsd_os _.
Proof.
  split; [done|]. intros [i d] info. simpl. unfold openbsd_SameAs, openbsd_PopulateFileIds.
  destruct (Sys info) as [[i' d']|]; [|done]. simpl. cbv [mret outcome_mret]. f_equal. repeat case_bool_decide; naive_solver.
Qed.

End Instances.

Definition windows_os {Info} (FieldByName : Info → text → option Z) : FileStateOS Info WindowsIds :=
  {| no_ids := mkWindows 0 0 0; populate_ids := windows_PopulateFileIds FieldByName; same_ids := windows_SameAs FieldByName |}.

Lemma windows_laws {Info} FieldByName : @FileStateOSLaws Info WindowsIds (windows_os FieldByName) _.
Proof.
  split; [done|]. intros [v h l] info. simpl. unfold windows_SameAs.
  destruct (windows_PopulateFileIds FieldByName info _) as [[v' h' l']| |]; [|done..]. simpl. cbv [mret outcome_mret]. f_equal.
  repeat case_bool_decide; naive_solver.
Qed.

(** ** Looking a file up *)
Section Lookup.
Context {Info FS : Type} `{FileStateOSLaws Info FS}.

(** The first of the stored identities that is that of the file, as the loop of
    [lookupFileIds] asks for it. *)
Fixpoint first_same (ids : list FS) (info : Info) : outcome (option FS) :=
  match ids with
  | [] => Ret None
  | fs :: ids' => same ← same_ids fs info; if (same : bool) then Ret (Some fs) else first_same ids' info
  end.

(** On every system a file is found exactly under the identity it would be given
    now: this is all that following a rename needs. *)
Lemma first_same_populated ids info fs :
  populate_ids info no_ids = Ret fs → first_same ids info = Ret (if decide (fs ∈ ids) then Some fs else None).
Proof.
  intros Hp. induction ids as [|f ids IH]; cbn [first_same]; [by rewrite decide_False by set_solver|].
  rewrite same_populates, Hp. cbv [mbind outcome_mbind outcome_bind mret outcome_mret].
  case_bool_decide as Hf; [subst; by rewrite decide_True by set_solver|].
  rewrite IH. f_equal. by repeat case_decide; set_solver.
Qed.
End Lookup.

(** Windows identities are read from private fields of the Go library.  While
    these can be read, a file is found among the stored identities exactly when
    its volume and index, each of 32 bits, are stored.  Should they ever be
    missing, [PopulateFileIds] does not fail but gives every file the same
    identity of zeros: then every file is taken for the file stored first, whatever
    it is, although the message logged says that renames will go unnoticed. *)
Theorem windows_identities {Info : Type} (FieldByName : Info → text → option Z) (ids : list WindowsIds) info :
  let os := windows_os FieldByName in
  (∀ v h l, FieldByName info (bytes_of "vol") = Some v → FieldByName info (bytes_of "idxhi") = Some h →
     FieldByName info (bytes_of "idxlo") = Some l →
     let fs := mkWindows (uint32 v) (uint32 h) (uint32 l) in
     first_same (H := os) ids info = Ret (if decide (fs ∈ ids) then Some fs else None)) ∧
  (∀ others, Forall (unreadable FieldByName) (info :: others) →
     mapM (fun o => windows_PopulateFileIds FieldByName o (mkWindows 0 0 0)) others = Ret ids → ids ≠ [] →
     first_same (H := os) ids info = Ret (head ids)).
Proof.
  intros os. pose proof (windows_laws FieldByName) as Hlaws. split.
  - intros v h l Hv Hh Hl fs. apply (first_same_populated (H0 := Hlaws)). by apply windows_readable.
  - intros others Hall Hids Hne. apply Forall_cons in Hall as [Hi Ho].
    assert (Hz : ids = replicate (length others) (mkWindows 0 0 0)).
    { clear Hne Hi. revert ids Hids. induction Ho as [|o others Hu _ IH]; intros ids; simpl; [by intros [= <-]|].
      rewrite windows_unreadable by done. cbv [mbind outcome_mbind outcome_bind mret outcome_mret].
      destruct (mapM _ others) as [ids'| |]; [|done..]. intros [= <-]. by rewrite (IH ids'). }
    subst ids. destruct others as [|o others]; [done|]. clear Hne.
    rewrite (first_same_populated (H0 := Hlaws) _ _ (mkWindows 0 0 0)) by (by apply windows_unreadable).
    rewrite decide_True by (by apply elem_of_replicate). done.
Qed.

(** ** [Harvester.openFile] on Windows *)
Definition GENERIC_READ : Z := 0x80000000.
Definition FILE_SHARE_READ : Z := 1.
Definition FILE_SHARE_WRITE : Z := 2.
Definition FILE_SHARE_DELETE : Z := 4.
Definition OPEN_EXISTING : Z := 3.
Definition FILE_ATTRIBUTE_NORMAL : Z := 0x80.

Section Open.
Context {Handle : Type} (CreateFile : text → Z → Z → Z → Z → text + Handle).

(** A path with a zero byte has no UTF-16 form for the system. *)
Definition windows_openFile (path : text) : text + Handle :=
  if decide (Byte.x00 ∈ path) then inl (bytes_of "invalid argument")
  else CreateFile path GENERIC_READ (Z.lor (Z.lor FILE_SHARE_READ FILE_SHARE_WRITE) FILE_SHARE_DELETE)
         OPEN_EXISTING FILE_ATTRIBUTE_NORMAL.

(** The file stays open to readers, writers and renames by others. *)
Lemma windows_openFile_shares path h :
  windows_openFile path = inr h →
  ∃ share, CreateFile path GENERIC_READ share OPEN_EXISTING FILE_ATTRIBUTE_NORMAL = inr h ∧
    Forall (fun flag => Z.land share flag = flag) [FILE_SHARE_READ; FILE_SHARE_WRITE; FILE_SHARE_DELETE].
Proof. unfold windows_openFile. case_decide; [done|]. intros Hh. eexists. split; [exact Hh|by repeat constructor]. Qed.
End Open.

(** ** A lookup after a change of the library *)
Definition sample_fields (readable : bool) (info : Z) (name : text) : option Z :=
  if decide (name = bytes_of "vol") then Some 1%Z
  else if decide (name = bytes_of "idxhi") then (if readable then Some 0%Z else None)
  else Some (info + 2 ^ 32)%Z.

Lemma windows_identities_witness :
  first_same (H := windows_os (sample_fields true)) [mkWindows 1 0 7; mkWindows 1 0 5] 5%Z = Ret (Some (mkWindows 1 0 5)) ∧
  first_same (H := windows_os (sample_fields false)) [mkWindows 0 0 0] 5%Z = Ret (Some (mkWindows 0 0 0)).
Proof.
  split.
  - exact (proj1 (windows_identities (sample_fields true) [mkWindows 1 0 7; mkWindows 1 0 5] 5%Z) _ _ _ eq_refl eq_refl eq_refl).
  - refine (proj2 (windows_identities (sample_fields false) [mkWindows 0 0 0] 5%Z) [9%Z] _ eq_refl ltac:(discriminate)).
    repeat constructor; right; left; reflexivity.
Defined.
