(* ===== verification/AdminSockets.v ===== *)
(** * lc-lib/admin/transport_tcp.go, transport_unix.go: listening and dialling

    The transports the admin server listens on and its client dials, registered by
    name ([transport.go]).  Resolving and listening on TCP addresses is a parameter;
    a Unix socket is an entry of a file system, next to ordinary files. *)
From S2P Require Import Prelude Core Codecs AdminApi AdminServer.

(** ** The file system, as far as sockets need it *)
Inductive node := SocketNode | FileNode (data : text) | DirectoryNode (entries : nat).
#[export] Instance node_eq_dec : EqDecision node. Proof. solve_decision. Defined.

Abbreviation files := (gmap text node).

(** What the system refuses for other reasons than the state of the files. *)
Record denials := mkDenials { stat_denied : bool; remove_denied : bool; bind_denied : bool }.

Inductive os_error := NotExist | OtherError (e : text).

Definition os_IsNotExist (e : os_error) : bool := match e with NotExist => true | OtherError _ => false end.

Section Sockets.
Context (denied : denials) (linux : bool) (eacces enotempty eaddrinuse : text).

Definition os_Stat (path : text) (fs : files) : option os_error :=
  if stat_denied denied then Some (OtherError eacces)
  else match fs !! path with Some _ => None | None => Some NotExist end.

Definition os_Remove (path : text) (fs : files) : option os_error * files :=
  if remove_denied denied then (Some (OtherError eacces), fs)
  else match fs !! path with
  | None => (Some NotExist, fs)
  | Some (DirectoryNode (S _)) => (Some (OtherError enotempty), fs)
  | Some _ => (None, delete path fs)
  end.

(** On Linux an address that is empty or starts with an at sign is abstract: its
    socket is no file. *)
Definition abstract (path : text) : bool :=
  linux && match path with [] => true | c :: _ => bool_decide (c = "@"%byte) end.

(** [bind] makes the socket, and fails where there is a file already. *)
Definition net_ListenUnix (path : text) (fs : files) : option text * files :=
  if bind_denied denied then (Some eacces, fs)
  else if abstract path then (None, fs)
  else match fs !! path with
  | Some _ => (Some eaddrinuse, fs)
  | None => (None, <[path := SocketNode]> fs)
  end.

(** Only the name of the network can be wrong. *)
Definition ResolveUnixAddr (network addr : text) : text + text :=
  if decide (network ∈ [bytes_of "unix"; bytes_of "unixgram"; bytes_of "unixpacket"]) then inr addr
  else inl (bytes_of "unknown network " ++ network).

(** [err == nil || !os.IsNotExist(err)]. *)
Definition something_there (err : option os_error) : bool :=
  match err with None => true | Some e => negb (os_IsNotExist e) end.

Definition os_message (e : os_error) : text :=
  match e with NotExist => bytes_of "file does not exist" | OtherError m => m end.

(** [listenUnix]: the result is the address listened on. *)
Definition listenUnix (transport addr : text) (fs : files) : (text + text) * files :=
  match ResolveUnixAddr (bytes_of "unix") addr with
  | inl e => (inl (bytes_of "The admin bind address specified is not valid: " ++ e), fs)
  | inr uaddr =>
      let removed :=
        if something_there (os_Stat addr fs) then
          match os_Remove addr fs with
          | (Some e, fs') =>
              if negb (os_IsNotExist e) then inl (bytes_of "Failed to remove the existing socket file: " ++ os_message e, fs')
              else inr fs'
          | (None, fs') => inr fs'
          end
        else inr fs in
      match removed with
      | inl (e, fs') => (inl e, fs')
      | inr fs' =>
          match net_ListenUnix uaddr fs' with
          | (Some e, fs'') => (inl e, fs'')
          | (None, fs'') => (inr uaddr, fs'')
          end
      end
  end.

(** ** TCP *)
Context {TCPAddr : Type} (ResolveTCPAddr : text → text → text + TCPAddr) (ListenTCP : text → TCPAddr → option text).

Inductive netListener := tcpListener (transport : text) (taddr : TCPAddr) | unixListener (uaddr : text).

Definition listenTCP (transport addr : text) : text + netListener :=
  match ResolveTCPAddr transport addr with
  | inl e => inl (bytes_of "The admin bind address specified is not valid: " ++ e)
  | inr taddr =>
      match ListenTCP transport taddr with
      | Some e => inl e
      | None => inr (tcpListener transport taddr)
      end
  end.

(** The dialers keep the address they were made for. *)
Inductive netDialer := tcpDialer (transport : text) (taddr : TCPAddr) (addr : text) | unixDialer (uaddr : text).

Definition connectTCP (transport addr : text) : text + netDialer :=
  match ResolveTCPAddr transport addr with
  | inl e => inl (bytes_of "The connection address specified is not valid: " ++ e)
  | inr taddr => inr (tcpDialer transport taddr addr)
  end.

Definition connectUnix (transport path : text) : text + netDialer :=
  match ResolveUnixAddr (bytes_of "unix") path with
  | inl e => inl (bytes_of "The connection address specified is not valid: " ++ e)
  | inr uaddr => inr (unixDialer uaddr)
  end.

(** What a dialer dials, whatever network and address it is asked for. *)
Inductive dialled := DialTCP (network : text) (taddr : TCPAddr) | DialUnix (uaddr : text).

Definition Dial (d : netDialer) (network addr : text) : dialled :=
  match d with
  | tcpDialer transport taddr _ => DialTCP transport taddr
  | unixDialer uaddr => DialUnix uaddr
  end.

(** The host of the URLs requested. *)
Definition netDialer_Host (d : netDialer) : text :=
  match d with
  | tcpDialer _ _ addr => addr
  | unixDialer _ => bytes_of "log-courier-address"
  end.

(** ** The registry *)
Inductive transport_kind := TCPTransport | UnixTransport.

Definition registerTransport (name : text) (k : transport_kind) (r : gmap text transport_kind) : gmap text transport_kind :=
  <[name := k]> r.

(** The [init] functions of the two files. *)
Definition init_tcp (r : gmap text transport_kind) : gmap text transport_kind :=
  registerTransport (bytes_of "tcp6") TCPTransport
    (registerTransport (bytes_of "tcp4") TCPTransport (registerTransport (bytes_of "tcp") TCPTransport r)).
Definition init_unix (r : gmap text transport_kind) : gmap text transport_kind :=
  registerTransport (bytes_of "unix") UnixTransport r.

Definition registeredTransports : gmap text transport_kind := init_unix (init_tcp ∅).

Lemma registered_iff transport : registered transport = bool_decide (registeredTransports !! transport ≠ None).
Proof.
  unfold registered, registeredTransports, init_unix, init_tcp, registerTransport. apply bool_decide_ext.
  rewrite !lookup_insert, lookup_empty. repeat case_decide; subst; split; intros; try done; set_solver.
Qed.

(** [Server.listen] *)
Definition admin_listen (bind : text) (fs : files) : (text + netListener) * files :=
  let '(transport, addr) := splitAdminConnectString bind in
  match registeredTransports !! transport with
  | Some TCPTransport => (listenTCP transport addr, fs)
  | Some UnixTransport =>
      match listenUnix transport addr fs with
      | (inl e, fs') => (inl e, fs')
      | (inr uaddr, fs') => (inr (unixListener uaddr), fs')
      end
  | None => (inl (bytes_of "Unknown transport specified for admin bind: '" ++ transport ++ bytes_of "'"), fs)
  end.

(** ** What listening does to the files *)
Lemma listenUnix_elsewhere transport addr fs r fs' path :
  listenUnix transport addr fs = (r, fs') → path ≠ addr → fs' !! path = fs !! path.
Proof.
  intros Hr Hp. unfold listenUnix, ResolveUnixAddr in Hr. rewrite decide_True in Hr by set_solver.
  unfold os_Remove, net_ListenUnix in Hr. repeat (case_match; simplify_eq/=; try done); (repeat first [rewrite lookup_insert_ne by congruence|rewrite lookup_delete_ne by congruence]; done).
Qed.

(** What is at the address while it is listened on. *)
Definition listening_node (addr : text) : option node := if abstract addr then None else Some SocketNode.

(** Nothing is refused: listening succeeds unless a directory with entries is in
    the way. *)
Lemma listenUnix_succeeds transport addr fs :
  stat_denied denied = false → remove_denied denied = false → bind_denied denied = false →
  (∀ n, fs !! addr ≠ Some (DirectoryNode (S n))) →
  listenUnix transport addr fs = (inr addr, partial_alter (fun _ => listening_node addr) addr fs).
Proof.
  intros Hs Hr Hb Hd. unfold listenUnix, ResolveUnixAddr. rewrite decide_True by set_solver.
  unfold os_Stat, os_Remove, net_ListenUnix. rewrite Hs, Hr, Hb.
  unfold listening_node. destruct (fs !! addr) as [[|data|[|n]]|] eqn:E; [..|by destruct (Hd n)|]; destruct (abstract addr) eqn:Ea;
    cbn; rewrite ?Ea, ?E, ?lookup_delete_eq; cbn; rewrite ?insert_delete_eq; try done.
  f_equal. symmetry. exact (delete_id _ _ E).
Qed.

Lemma listenUnix_socket transport addr fs u fs' :
  listenUnix transport addr fs = (inr u, fs') → u = addr ∧ fs' !! addr = listening_node addr.
Proof.
  unfold listenUnix, ResolveUnixAddr. rewrite decide_True by set_solver. unfold net_ListenUnix, listening_node, os_Stat, os_Remove.
  intros Hr. repeat (case_match; simplify_eq/=; try done); by rewrite ?lookup_insert_eq, ?lookup_delete_eq.
Qed.

(** An ordinary file is taken for the socket left behind. *)
Lemma listenUnix_file transport addr fs data :
  fs !! addr = Some (FileNode data) → remove_denied denied = false →
  listenUnix transport addr fs =
    if bind_denied denied then (inl eacces, delete addr fs) else (inr addr, partial_alter (fun _ => listening_node addr) addr fs).
Proof.
  intros Hf Hr. unfold listenUnix, ResolveUnixAddr. rewrite decide_True by set_solver.
  unfold os_Stat, os_Remove, net_ListenUnix. rewrite Hr, Hf. destruct (stat_denied denied); cbn.
  all: destruct (bind_denied denied); [done|]; unfold listening_node; destruct (abstract addr); [done|]; by rewrite lookup_delete_eq, insert_delete_eq.
Qed.
End Sockets.

(** C35. Listening on a Unix socket never touches another file than the one
    named, and when it succeeds that is the socket, or nothing is there because the
    address is an abstract one of Linux.  But whatever is there goes:
    unless the system refuses or it is a directory with entries, an ordinary file at
    the address is deleted and replaced by the socket, although the code and its
    messages speak of the socket file left behind; and if the socket cannot be
    made afterwards the file is gone all the same.  Listening over TCP, or with an
    unknown transport, touches no file. *)
Theorem listening_files {TCPAddr : Type} (Resolve : text → text → text + TCPAddr) (Listen : text → TCPAddr → option text)
    (denied : denials) (linux : bool) (eacces enotempty eaddrinuse bind : text) (fs : files) r fs'
    (transport := fst (splitAdminConnectString bind)) (addr := snd (splitAdminConnectString bind)) :
  admin_listen denied linux eacces enotempty eaddrinuse Resolve Listen bind fs = (r, fs') →
  (∀ path, transport ≠ bytes_of "unix" ∨ path ≠ addr → fs' !! path = fs !! path) ∧
  (∀ uaddr, r = inr (unixListener uaddr) → uaddr = addr ∧ fs' !! addr = listening_node linux addr) ∧
  (∀ data, transport = bytes_of "unix" → fs !! addr = Some (FileNode data) → remove_denied denied = false →
     fs' !! addr = (if bind_denied denied then None else listening_node linux addr)).
Proof.
  unfold admin_listen, transport, addr. destruct (splitAdminConnectString bind) as [t a]. cbn [fst snd]. intros Hr.
  destruct (decide (t = bytes_of "unix")) as [->|Hne].
  - change (registeredTransports !! bytes_of "unix") with (Some UnixTransport) in Hr. cbv beta iota in Hr.
    destruct (listenUnix denied linux eacces enotempty eaddrinuse (bytes_of "unix") a fs) as [[e|u] fs1] eqn:El; injection Hr as <- <-.
    all: split; [intros path [?|?]; [done|by eapply listenUnix_elsewhere]|].
    all: split; [|intros data _ Hf Hd; erewrite listenUnix_file in El by done;
      destruct (bind_denied denied); simplify_eq; by rewrite ?lookup_partial_alter_eq, ?lookup_delete_eq].
    + done.
    + intros uaddr [= <-]. by eapply listenUnix_socket.
  - assert (Hfs : fs' = fs ∧ ∀ u, r ≠ inr (unixListener u)).
    { unfold registeredTransports, init_unix, registerTransport in Hr. rewrite lookup_insert_ne in Hr by done.
      unfold init_tcp, registerTransport in Hr. rewrite !lookup_insert, lookup_empty in Hr. unfold listenTCP in Hr.
      repeat case_decide; repeat case_match; simplify_eq/=; done. }
    destruct Hfs as [-> Hu]. split; [done|]. split; [intros u Hx; by destruct (Hu u)|done].
Qed.

(** A registry named by mistake. *)
Definition sample_files : files := <[bytes_of "/lib/.log-courier" := FileNode (bytes_of "{}")]> ∅.

Lemma listening_files_witness :
  let addr := bytes_of "/lib/.log-courier" in
  let fs' := <[addr := SocketNode]> sample_files in
  sample_files !! addr = Some (FileNode (bytes_of "{}")) ∧ fs' !! addr = Some SocketNode.
Proof.
  split; [reflexivity|].
  refine (proj2 (proj2 (listening_files (fun _ a => inr a) (fun _ (_ : text) => None) (mkDenials false false false) true [] [] []
    (bytes_of "unix:/lib/.log-courier") sample_files _ _ eq_refl)) (bytes_of "{}") _ _ _); reflexivity.
Defined.
