(* ===== verification/PlatformGen.v ===== *)
(** * lc-lib/config/generate/platform.go: default paths of a platform

    The program packagers run to write a Go file that sets package variables, such
    as the default configuration file, to values taken from the environment.  The
    order of Go maps is a parameter, and so is the splitting of camel case by
    fatih/camelcase.  [os.ExpandEnv] is written out, as it was in the versions of Go
    of the time. *)
From S2P Require Import Prelude Core Codecs ConfigParser.

Definition dollar : byte := "$"%byte.
Definition lbrace : byte := "{"%byte.
Definition rbrace : byte := "}"%byte.
Definition dot : byte := "."%byte.
Definition tab_byte : byte := "009"%byte.

(** ** [os.ExpandEnv] *)
Definition between (lo hi c : byte) : bool :=
  (Byte.to_N lo <=? Byte.to_N c)%N && (Byte.to_N c <=? Byte.to_N hi)%N.

Definition isDigit (c : byte) : bool := between "0" "9" c.
Definition isAlphaNum (c : byte) : bool :=
  bool_decide (c = "_"%byte) || isDigit c || between "a" "z" c || between "A" "Z" c.
Definition isShellSpecialVar (c : byte) : bool :=
  bool_decide (c ∈ ["*"; "#"; "$"; "@"; "!"; "?"]%byte) || isDigit c.

Fixpoint index_of (c : byte) (s : text) : option nat :=
  match s with
  | [] => None
  | b :: s' => if decide (b = c) then Some 0 else S <$> index_of c s'
  end.

Fixpoint take_while (p : byte → bool) (s : text) : text :=
  match s with
  | c :: s' => if p c then c :: take_while p s' else []
  | [] => []
  end.

(** The name after a dollar sign, and the bytes it takes. *)
Definition getShellName (s : text) : text * nat :=
  match s with
  | c :: rest =>
      if decide (c = lbrace) then
        let scan := match index_of rbrace rest with
                    | Some i => (take i rest, i + 2)
                    | None => ([], 1)
                    end in
        match rest with
        | c1 :: c2 :: _ => if isShellSpecialVar c1 && bool_decide (c2 = rbrace) then ([c1], 3) else scan
        | _ => scan
        end
      else if isShellSpecialVar c then ([c], 1)
      else let name := take_while isAlphaNum s in (name, length name)
  | [] => ([], 0)
  end.

(** [skip] counts the bytes of the name that are still to be passed over. *)
Fixpoint expand_from (mapping : text → text) (skip : nat) (s : text) : text :=
  match s with
  | [] => []
  | c :: s' =>
      match skip with
      | S k => expand_from mapping k s'
      | O =>
          match s' with
          | [] => [c]
          | _ :: _ =>
              if decide (c = dollar) then
                let '(name, w) := getShellName s' in mapping name ++ expand_from mapping w s'
              else c :: expand_from mapping 0 s'
          end
      end
  end.

Definition ExpandEnv (env : text → text) (s : text) : text := expand_from env 0 s.

Section Generate.
Context (camelcase_Split : text → list text) (map_keys : nat → list text → list text).

(** ** The pieces *)

(** [strings.ToUpper] of ASCII text; the names are those of Go variables. *)
Definition upper_byte (c : byte) : byte :=
  if between "a" "z" c then default c (Byte.of_N (Byte.to_N c - 32)) else c.
Definition ToUpper (s : text) : text := upper_byte <$> s.

Fixpoint join_with (sep : byte) (ws : list text) : text :=
  match ws with
  | [] => []
  | [w] => w
  | w :: ws' => w ++ sep :: join_with sep ws'
  end.

Definition envName (name : text) : text := bytes_of "LC_" ++ join_with "_" (ToUpper <$> camelcase_Split name).

Definition generateInitSegment (pkg name : text) : text :=
  [tab_byte] ++ bytes_of "// " ++ envName name ++ [newline] ++
  [tab_byte] ++ pkg ++ [dot] ++ name ++ bytes_of " = " ++ [dquote; dollar; lbrace] ++ envName name ++ [rbrace; dquote; newline].

(** The inner loop over the names of a package; [st] is [first] and the text. *)
Fixpoint init_names (pkg : text) (nameArr : list text) (st : bool * text) : bool * text :=
  match nameArr with
  | [] => st
  | name :: names =>
      let '(first, platformFile) := st in
      init_names pkg names (false, platformFile ++ (if (first : bool) then [] else [newline]) ++ generateInitSegment pkg name)
  end.

Fixpoint init_packages (config : gmap text (list text)) (pkgs : list text) (st : bool * text) : bool * text :=
  match pkgs with
  | [] => st
  | pkg :: pkgs' => init_packages config pkgs' (init_names pkg (default [] (config !! pkg)) st)
  end.

(** The keys of the map, in the order the n-th loop over it takes them. *)
Definition config_keys (n : nat) (config : gmap text (list text)) : list text := map_keys n (fst <$> map_to_list config).

Definition generateInit (config : gmap text (list text)) : text :=
  (init_packages config (config_keys 1 config) (true, bytes_of "func init() {" ++ [newline])).2 ++ [rbrace; newline].

Definition import_lines (pkgs : list text) : text :=
  bytes_of "import (" ++ [newline] ++
  concat ((fun pkg => [tab_byte; dquote] ++ bytes_of "github.com/driskell/log-courier/lc-lib/" ++ pkg ++ [dquote; newline]) <$> pkgs) ++
  bytes_of ")" ++ [newline; newline].

Definition generatePackageImports (config : gmap text (list text)) : text := import_lines (config_keys 0 config).

(** [strings.SplitN(v, ".", 2)] *)
Fixpoint split_dot (s : text) : option (text * text) :=
  match s with
  | [] => None
  | c :: s' => if decide (c = dot) then Some ([], s') else (fun '(a, b) => (c :: a, b)) <$> split_dot s'
  end.

Fixpoint parse_args (args : list text) (config : gmap text (list text)) : text + gmap text (list text) :=
  match args with
  | [] => inr config
  | v :: args' =>
      match split_dot v with
      | None => inl (bytes_of "Config variable needs package specifier: " ++ v)
      | Some (pkg, name) => parse_args args' (<[pkg := default [] (config !! pkg) ++ [name]]> config)
      end
  end.

Definition parseConfigArgs (args : list text) : text + gmap text (list text) := parse_args args ∅.

(** Double quotes are written as single ones here. *)
Definition platformHeader : text :=
  (fun c => if decide (c = squote) then dquote else c) <$>
  join_with newline (bytes_of <$>
   ["// THIS IS A GO GENERATED FILE"; ""; "/*"; " * Copyright 2014-2016 Jason Woods."; " *";
    " * Licensed under the Apache License, Version 2.0 (the 'License');";
    " * you may not use this file except in compliance with the License.";
    " * You may obtain a copy of the License at"; " *"; " * http://www.apache.org/licenses/LICENSE-2.0"; " *";
    " * Unless required by applicable law or agreed to in writing, software";
    " * distributed under the License is distributed on an 'AS IS' BASIS,";
    " * WITHOUT WARRANTIES OR CONDITIONS OF ANY KIND, either express or implied.";
    " * See the License for the specific language governing permissions and";
    " * limitations under the License."; " */"; ""; ""]%string).

(** ** [main]: the fatal message, or the file written *)
Definition platform_main (env : text → text) (WriteFile : text → text → option text) (Args : list text) : text + text * text :=
  match Args with
  | _ :: target :: package :: vars =>
      match parseConfigArgs vars with
      | inl e => inl e
      | inr config =>
          let platformFile := platformHeader ++ bytes_of "package " ++ package ++ [newline; newline] ++
            generatePackageImports config ++ generateInit config in
          let targetFile := target ++ bytes_of ".go" in
          let data := ExpandEnv env platformFile in
          match WriteFile targetFile data with
          | Some e => inl (bytes_of "Failed to write " ++ targetFile ++ bytes_of ": " ++ e)
          | None => inr (targetFile, data)
          end
      end
  | _ => inl (bytes_of "Usage: go run <path-to-lc-lib>/config/generate.go -- <target> <package-name> <configs>...")
  end.

(** ** Expanding *)
Definition plain (s : text) : Prop := dollar ∉ s.

Lemma plain_app a b : plain a → plain b → plain (a ++ b).
Proof. unfold plain. rewrite elem_of_app. tauto. Qed.

Lemma plain_const s : forallb (fun c => negb (bool_decide (c = dollar))) s = true → plain s.
Proof.
  intros Hs Hc. apply list_elem_of_In in Hc. apply (proj1 (forallb_forall _ _) Hs) in Hc.
  by rewrite bool_decide_true in Hc.
Qed.

Lemma expand_skip env (a b : text) : expand_from env (length a) (a ++ b) = ExpandEnv env b.
Proof. induction a as [|c a IH]; [done|]. exact IH. Qed.

Lemma expand_plain env a b : plain a → ExpandEnv env (a ++ b) = a ++ ExpandEnv env b.
Proof.
  unfold plain, ExpandEnv. induction a as [|c a IH]; intros Ha; [done|].
  apply not_elem_of_cons in Ha as [Hc Ha]. specialize (IH Ha). cbn [app expand_from].
  destruct (a ++ b) as [|c' s] eqn:E.
  - apply app_eq_nil in E as [-> ->]. done.
  - rewrite decide_False by congruence. f_equal. exact IH.
Qed.

Lemma index_of_app c a b : c ∉ a → index_of c (a ++ c :: b) = Some (length a).
Proof.
  induction a as [|d a IH]; intros Hn; simpl; [by rewrite decide_True|].
  apply not_elem_of_cons in Hn as [? Hn]. rewrite decide_False by congruence. by rewrite IH.
Qed.

(** A name of two bytes or more in braces. *)
Lemma expand_variable env name b :
  2 ≤ length name → rbrace ∉ name →
  ExpandEnv env ([dollar; lbrace] ++ name ++ rbrace :: b) = env name ++ ExpandEnv env b.
Proof.
  intros Hl Hn. unfold ExpandEnv at 1. cbn [app expand_from]. rewrite decide_True by done.
  assert (Hg : getShellName (lbrace :: name ++ rbrace :: b) = (name, length name + 2)).
  { destruct name as [|c1 [|c2 name]]; [simpl in Hl; lia..|].
    apply not_elem_of_cons in Hn as [Hn1 Hn]. pose proof (proj1 (not_elem_of_cons _ _ _) Hn) as [Hn2 _].
    unfold getShellName. rewrite decide_True by done. cbn [app]. rewrite bool_decide_false by congruence. rewrite andb_false_r.
    change (c1 :: c2 :: name ++ rbrace :: b) with ((c1 :: c2 :: name) ++ rbrace :: b).
    rewrite index_of_app by (by apply not_elem_of_cons). rewrite take_app_le, take_ge by (simpl; lia). done. }
  rewrite Hg. f_equal. pose proof (expand_skip env (lbrace :: name ++ [rbrace]) b) as Hskip.
  replace (length (lbrace :: name ++ [rbrace])) with (length name + 2) in Hskip by (simpl; rewrite length_app; simpl; lia).
  rewrite <-Hskip. f_equal. simpl. by rewrite <-app_assoc.
Qed.

(** ** Names of variables *)
Context (Split_concat : ∀ s, concat (camelcase_Split s) = s) (map_keys_perm : ∀ n ks, map_keys n ks ≡ₚ ks).

Definition variable_name (name : text) : Prop := Forall (fun c => isAlphaNum c = true) name.

Lemma upper_alnum c : isAlphaNum c = true → isAlphaNum (upper_byte c) = true.
Proof. destruct c; try discriminate; reflexivity. Qed.

Lemma elem_of_join_with sep ws c : c ∈ join_with sep ws → c = sep ∨ ∃ w, w ∈ ws ∧ c ∈ w.
Proof.
  induction ws as [|w [|w' ws] IH]; [by intros ?%elem_of_nil|intros Hc; right; exists w; set_solver|].
  change (join_with sep (w :: w' :: ws)) with (w ++ sep :: join_with sep (w' :: ws)).
  rewrite elem_of_app, elem_of_cons. intros [?|[->|?]]; [right; exists w; set_solver|by left|].
  destruct IH as [->|(x & ? & ?)]; [done|by left|]. right. exists x. set_solver.
Qed.

Lemma envName_chars name c : variable_name name → c ∈ envName name → isAlphaNum c = true.
Proof.
  unfold envName, variable_name. rewrite Forall_forall. intros Hn [Hc|Hc]%elem_of_app.
  - assert (Hall : Forall (fun c => isAlphaNum c = true) (bytes_of "LC_")) by (by repeat constructor).
    rewrite Forall_forall in Hall. by apply Hall.
  - apply elem_of_join_with in Hc as [->|(w & Hw & Hc)]; [done|]. apply list_elem_of_fmap in Hw as (w' & -> & Hw).
    unfold ToUpper in Hc. apply list_elem_of_fmap in Hc as (d & -> & Hd). apply upper_alnum, Hn.
    rewrite <-(Split_concat name), list_elem_of_In, in_concat. exists w'. by rewrite <-!list_elem_of_In.
Qed.

Lemma envName_ok name : variable_name name → plain (envName name) ∧ (rbrace ∉ envName name) ∧ 2 ≤ length (envName name).
Proof.
  intros Hn. split; [|split].
  - intros Hc%envName_chars; [discriminate Hc|done].
  - intros Hc%envName_chars; [discriminate Hc|done].
  - unfold envName. rewrite length_app. simpl. lia.
Qed.

Lemma variable_plain name : variable_name name → plain name.
Proof. unfold variable_name, plain. rewrite Forall_forall. intros Hn Hc%Hn. discriminate Hc. Qed.

(** ** The assignments *)

(** What the file is meant to say. *)
Definition assignment (env : text → text) (x : text * text) : text :=
  let '(pkg, name) := x in
  [tab_byte] ++ bytes_of "// " ++ envName name ++ [newline] ++
  [tab_byte] ++ pkg ++ [dot] ++ name ++ bytes_of " = " ++ [dquote] ++ env (envName name) ++ [dquote; newline].

Definition well_named (x : text * text) : Prop := plain (fst x) ∧ variable_name (snd x).

Lemma expand_segment env x b :
  well_named x → ExpandEnv env (generateInitSegment (fst x) (snd x) ++ b) = assignment env x ++ ExpandEnv env b.
Proof.
  destruct x as [pkg name]. intros [Hp Hn]. simpl in Hp, Hn. destruct (envName_ok name Hn) as (He & Hb & Hl).
  unfold generateInitSegment, assignment. cbn [fst snd].
  set (before := [tab_byte] ++ bytes_of "// " ++ envName name ++ [newline] ++ [tab_byte] ++ pkg ++ [dot] ++ name ++ bytes_of " = " ++ [dquote]).
  transitivity (ExpandEnv env (before ++ ([dollar; lbrace] ++ envName name ++ rbrace :: ([dquote; newline] ++ b)))).
  { f_equal. unfold before. by rewrite <-!app_assoc. }
  rewrite expand_plain; [rewrite expand_variable by done|].
  - rewrite expand_plain by (by apply plain_const). unfold before. by rewrite <-!app_assoc.
  - unfold before. pose proof (variable_plain name Hn). repeat match goal with |- plain (_ ++ _) => apply plain_app end; first [done|by apply plain_const].
Qed.

(** The loops are one over all the pairs. *)
Fixpoint init_all (l : list (text * text)) (st : bool * text) : bool * text :=
  match l with
  | [] => st
  | x :: l' => init_all l' (false, st.2 ++ (if st.1 then [] else [newline]) ++ generateInitSegment (fst x) (snd x))
  end.

Lemma init_all_app l l' st : init_all (l ++ l') st = init_all l' (init_all l st).
Proof. revert st. induction l as [|x l IH]; intros st; simpl; [done|by rewrite IH]. Qed.

Lemma init_names_all pkg names st : init_names pkg names st = init_all ((pkg,.) <$> names) st.
Proof. revert st. induction names as [|n names IH]; intros [f t]; simpl; [done|by rewrite IH]. Qed.

Definition assigned (config : gmap text (list text)) (pkgs : list text) : list (text * text) :=
  pkgs ≫= fun pkg => (pkg,.) <$> default [] (config !! pkg).

Lemma init_packages_all config pkgs st : init_packages config pkgs st = init_all (assigned config pkgs) st.
Proof.
  revert st. induction pkgs as [|pkg pkgs IH]; intros st; [done|]. cbn [init_packages]. rewrite IH, init_names_all.
  unfold assigned. cbn [mbind list_bind]. by rewrite init_all_app.
Qed.

Lemma init_all_later l t : (init_all l (false, t)).2 = t ++ concat ((fun x => newline :: generateInitSegment (fst x) (snd x)) <$> l).
Proof.
  revert t. induction l as [|x l IH]; intros t; simpl; [by rewrite app_nil_r|]. rewrite IH. by rewrite <-app_assoc.
Qed.

Lemma join_concat (x : text) l : join (x :: l) = x ++ concat (cons newline <$> l).
Proof. revert x. induction l as [|y l IH]; intros x; [simpl; by rewrite app_nil_r|]. simpl. f_equal. f_equal. apply IH. Qed.

Lemma expand_later env l b :
  Forall well_named l →
  ExpandEnv env (concat ((fun x => newline :: generateInitSegment (fst x) (snd x)) <$> l) ++ b) =
  concat (cons newline <$> (assignment env <$> l)) ++ ExpandEnv env b.
Proof.
  induction 1 as [|x l Hx _ IH]; [done|]. cbn [fmap list_fmap concat app]. rewrite <-!app_assoc.
  transitivity (ExpandEnv env ([newline] ++ generateInitSegment x.1 x.2 ++
    concat ((fun y => newline :: generateInitSegment (fst y) (snd y)) <$> l) ++ b)); [done|].
  rewrite (expand_plain env [newline]) by (by apply plain_const).
  rewrite expand_segment by done. rewrite IH. done.
Qed.

Lemma expand_assignments env l b :
  Forall well_named l →
  ExpandEnv env ((init_all l (true, [])).2 ++ b) = join (assignment env <$> l) ++ ExpandEnv env b.
Proof.
  destruct l as [|x l]; [done|]. intros [Hx Hl]%Forall_cons. cbn [init_all fmap list_fmap]. rewrite init_all_later, join_concat.
  cbn [fst snd app]. rewrite <-!app_assoc, expand_segment by done. by rewrite expand_later.
Qed.

Lemma init_all_prefix l f t : (init_all l (f, t)).2 = t ++ (init_all l (f, [])).2.
Proof.
  destruct l as [|x l]; [simpl; by rewrite app_nil_r|]. cbn [init_all fst snd]. rewrite !init_all_later. by rewrite <-!app_assoc.
Qed.

Lemma imports_plain pkgs : Forall plain pkgs → plain (import_lines pkgs).
Proof.
  intros Hp. unfold import_lines. repeat match goal with |- plain (_ ++ _) => apply plain_app end; try by apply plain_const.
  induction Hp as [|p ps Hp _ IH]; [by apply plain_const|]. cbn [fmap list_fmap concat].
  repeat match goal with |- plain (_ ++ _) => apply plain_app end; first [done|by apply plain_const].
Qed.

(** ** Arguments *)
Definition variable_arg (x : text * text) : text := fst x ++ dot :: snd x.

Lemma split_dot_arg p n : dot ∉ p → split_dot (p ++ dot :: n) = Some (p, n).
Proof.
  induction p as [|c p IH]; intros Hp; simpl; [done|]. apply not_elem_of_cons in Hp as [? Hp].
  rewrite decide_False by congruence. by rewrite IH.
Qed.

(** The names given for a package, in their order. *)
Definition names_of (p : text) (pairs : list (text * text)) : list text := snd <$> filter (fun x => fst x = p) pairs.

Lemma parse_args_pairs pairs config :
  Forall (fun x => dot ∉ fst x) pairs →
  ∃ config', parse_args (variable_arg <$> pairs) config = inr config' ∧
    ∀ p, config' !! p = (if decide (names_of p pairs = []) then config !! p else Some (default [] (config !! p) ++ names_of p pairs)).
Proof.
  intros Hall. revert config. induction Hall as [|[p n] pairs Hd _ IH]; intros config; [by exists config|].
  simpl in Hd. cbn [fmap list_fmap parse_args]. unfold variable_arg at 1. cbn [fst snd]. rewrite split_dot_arg by done.
  destruct (IH (<[p := default [] (config !! p) ++ [n]]> config)) as (config' & Hc & Hn). exists config'. split; [exact Hc|].
  intros q. rewrite Hn. unfold names_of. rewrite filter_cons. cbn [fst].
  destruct (decide (p = q)) as [<-|Hne]; [|by rewrite lookup_insert_ne].
  rewrite lookup_insert_eq. cbn [fmap list_fmap snd default]. case_decide as Hf; case_decide as Hg; try done.
  - by rewrite Hf.
  - cbn. by rewrite <-app_assoc.
Qed.

Lemma filter_pairs p (l : list text) :
  filter (fun x : text * text => fst x = p) ((p,.) <$> l) = (p,.) <$> l.
Proof. induction l as [|n l IH]; [done|]. cbn [fmap list_fmap]. rewrite filter_cons_True by done. by rewrite IH. Qed.

Lemma filter_other p q (l : list text) :
  p ≠ q → filter (fun x : text * text => fst x = p) ((q,.) <$> l) = [].
Proof. intros Hq. induction l as [|n l IH]; [done|]. cbn [fmap list_fmap]. by rewrite filter_cons_False. Qed.

(** Whatever the order of the packages, each has its names in their order. *)
Lemma assigned_filter config pkgs p :
  NoDup pkgs → (p ∈ pkgs ∨ config !! p = None) →
  filter (fun x => fst x = p) (assigned config pkgs) = (p,.) <$> default [] (config !! p).
Proof.
  intros Hnd. induction Hnd as [|q pkgs Hq Hnd IH]; intros Hor.
  - destruct Hor as [Hp%elem_of_nil|Hp]; [done|]. by rewrite Hp.
  - unfold assigned. cbn [mbind list_bind]. rewrite filter_app. destruct (decide (p = q)) as [<-|Hne].
    + rewrite filter_pairs. rewrite <-(app_nil_r ((p,.) <$> _)) at 2. f_equal.
      clear -Hq. induction pkgs as [|r pkgs IH]; [done|]. apply not_elem_of_cons in Hq as [? Hq].
      cbn [mbind list_bind]. rewrite filter_app, filter_other by done. exact (IH Hq).
    + rewrite filter_other by done. apply IH. destruct Hor as [Hp|?]; [|by right]. left. set_solver.
Qed.

Lemma names_pairs p pairs : (p,.) <$> names_of p pairs = filter (fun x => fst x = p) pairs.
Proof.
  unfold names_of. induction pairs as [|[q n] pairs IH]; [done|]. rewrite filter_cons. cbn [fst].
  case_decide as Hq; [|exact IH]. cbn [fmap list_fmap snd]. f_equal; [by f_equal|exact IH].
Qed.

(** The file written for a package, variables [pkg.name] and an environment
    consists of the header, an import of every package named, once, and one
    assignment per variable given: those of a package are in the order given and
    set the variable to the text of the environment, taken as it is.  Nothing
    else in the file is expanded. *)
Theorem platform_file env (WriteFile : text → text → option text) prog target package pairs :
  plain package → Forall well_named pairs → Forall (fun x => dot ∉ fst x) pairs →
  ∃ imports assigns,
    (let file := target ++ bytes_of ".go" in
     let data := platformHeader ++ bytes_of "package " ++ package ++ [newline; newline] ++ import_lines imports ++
       bytes_of "func init() {" ++ [newline] ++ join (assignment env <$> assigns) ++ [rbrace; newline] in
     platform_main env WriteFile (prog :: target :: package :: (variable_arg <$> pairs)) =
       match WriteFile file data with
       | Some e => inl (bytes_of "Failed to write " ++ file ++ bytes_of ": " ++ e)
       | None => inr (file, data)
       end) ∧
    NoDup imports ∧ (∀ p, p ∈ imports ↔ p ∈ fst <$> pairs) ∧
    ∀ p, filter (fun x => fst x = p) assigns = filter (fun x => fst x = p) pairs.
Proof.
  intros Hpkg Hwell Hdot. destruct (parse_args_pairs pairs ∅ Hdot) as (config & Hparse & Hconfig).
  assert (Hlook : ∀ p, config !! p = if decide (names_of p pairs = []) then None else Some (names_of p pairs)).
  { intros p. rewrite Hconfig, lookup_empty. done. }
  assert (Hkeys : ∀ n, NoDup (config_keys n config) ∧ ∀ p, p ∈ config_keys n config ↔ config !! p ≠ None).
  { intros n. unfold config_keys. split; [rewrite map_keys_perm; apply NoDup_fst_map_to_list|].
    intros p. rewrite map_keys_perm, list_elem_of_fmap. split.
    - intros ([q l] & -> & Hq%elem_of_map_to_list). simpl. by rewrite Hq.
    - intros Hp. destruct (config !! p) as [l|] eqn:E; [|done]. exists (p, l). split; [done|]. by apply elem_of_map_to_list. }
  assert (Hin : ∀ p, config !! p ≠ None ↔ p ∈ fst <$> pairs).
  { intros p. rewrite Hlook. rewrite list_elem_of_fmap. unfold names_of. split.
    - case_decide as Hn; [done|]. intros _. destruct (filter _ pairs) as [|x l] eqn:E; [done|]. exists x.
      assert (Hx : x ∈ filter (fun x => fst x = p) pairs) by (rewrite E; set_solver). apply list_elem_of_filter in Hx as [Hx ?]. by split.
    - intros (x & -> & Hx). case_decide as Hn; [|done]. apply fmap_nil_inv in Hn.
      assert (Hx' : x ∈ filter (fun y => fst y = fst x) pairs) by (by apply list_elem_of_filter). rewrite Hn in Hx'. set_solver. }
  set (imports := config_keys 0 config). set (assigns := assigned config (config_keys 1 config)).
  assert (Hfilter : ∀ p, filter (fun x => fst x = p) assigns = filter (fun x => fst x = p) pairs).
  { intros p. unfold assigns. rewrite assigned_filter; [|by apply Hkeys|].
    - rewrite <-names_pairs, Hlook. case_decide as Hn; [by rewrite Hn|done].
    - destruct (config !! p) eqn:E; [left; apply Hkeys; by rewrite E|by right]. }
  exists imports, assigns. split; [|split; [by apply Hkeys|split; [|done]]].
  2:{ intros p. rewrite <-Hin. apply Hkeys. }
  assert (Hassigns : Forall well_named assigns).
  { apply Forall_forall. intros x Hx. apply (proj1 (Forall_forall _ _) Hwell).
    assert (Hx' : x ∈ filter (fun y => fst y = fst x) assigns) by (by apply list_elem_of_filter).
    rewrite Hfilter in Hx'. by apply list_elem_of_filter in Hx' as [_ ?]. }
  assert (Himports : Forall plain imports).
  { apply Forall_forall. intros p Hp. apply Hkeys, Hin in Hp. apply list_elem_of_fmap in Hp as (x & -> & Hx).
    apply (proj1 (Forall_forall _ _) Hwell x Hx). }
  cbv zeta. unfold platform_main, parseConfigArgs. rewrite Hparse.
  unfold generatePackageImports, generateInit. rewrite init_packages_all, init_all_prefix. fold imports assigns.
  rewrite <-!app_assoc. do 4 (rewrite expand_plain by first [done|by apply plain_const|by apply imports_plain]).
  rewrite (expand_plain _ (import_lines imports)) by (by apply imports_plain).
  do 2 (rewrite expand_plain by (by apply plain_const)).
  rewrite expand_assignments by done. unfold ExpandEnv. done.
Qed.
End Generate.

(** ** A file for one package *)
Definition sample_env (path : string) (name : text) : text :=
  if decide (name = bytes_of "LC_DEFAULTFILE") then bytes_of path else [].

Definition sample_pairs : list (text * text) := [(bytes_of "config", bytes_of "DefaultFile"); (bytes_of "config", bytes_of "Dir")].

Definition sample_file (path : string) : text + text * text :=
  platform_main (fun s => [s]) (fun _ ks => ks) (sample_env path) (fun _ _ => None)
    (bytes_of "generate" :: bytes_of "platform" :: bytes_of "main" :: (variable_arg <$> sample_pairs)).

(** What the file assigns, after the header and the imports. *)
Definition sample_body (path : string) : list text :=
  match sample_file path with
  | inr (_, data) => drop (length (platformHeader ++ bytes_of "package main" ++ import_lines [bytes_of "config"]) + 2) data :: []
  | inl _ => []
  end.

Example sample_body_text : sample_body "/etc/lc" =
  [bytes_of "func init() {" ++ [newline; tab_byte] ++ bytes_of "// LC_DEFAULTFILE" ++ [newline; tab_byte] ++
   bytes_of "config.DefaultFile = " ++ quoted "/etc/lc" ++ [newline; newline; tab_byte] ++ bytes_of "// LC_DIR" ++ [newline; tab_byte] ++
   bytes_of "config.Dir = " ++ quoted "" ++ [newline; rbrace; newline]].
Proof. vm_compute. reflexivity. Qed.

(** A backslash of the environment ends up in the literal of the Go file, where it
    starts an escape sequence. *)
Example sample_backslash : ∃ before after, sample_body "C:\logs" = [before ++ quoted "C:\logs" ++ after].
Proof.
  exists (bytes_of "func init() {" ++ [newline; tab_byte] ++ bytes_of "// LC_DEFAULTFILE" ++ [newline; tab_byte] ++ bytes_of "config.DefaultFile = ").
  eexists. vm_compute. reflexivity.
Qed.

Lemma platform_file_witness :
  ∃ imports assigns, NoDup imports ∧ (∀ p, p ∈ imports ↔ p ∈ fst <$> sample_pairs) ∧
    ∀ p, filter (fun x => fst x = p) assigns = filter (fun x => fst x = p) sample_pairs.
Proof.
  assert (Hc : ∀ s : text, concat [s] = s) by (intros s; apply app_nil_r).
  assert (Hp : plain (bytes_of "main")) by (by apply plain_const).
  assert (Hw : Forall well_named sample_pairs) by (repeat constructor; by apply plain_const).
  assert (Hd : Forall (fun x : text * text => dot ∉ fst x) sample_pairs) by (apply (bool_decide_unpack _); vm_compute; exact I).
  destruct (platform_file (fun s => [s]) (fun _ ks => ks) Hc (fun _ _ => reflexivity _) (sample_env "/etc/lc") (fun _ _ => None)
    (bytes_of "generate") (bytes_of "platform") (bytes_of "main") sample_pairs Hp Hw Hd) as (imports & assigns & _ & Himports).
  exists imports, assigns. exact Himports.
Defined.
