(* ===== verification/Ancillary.v ===== *)
(** * Smaller parts

    admin/api_debug.go (the goroutine profile), prospector/snapshot.go (snapshots
    nothing asks for any more), and the platforms' log-courier_nonwindows.go and
    log-courier_windows.go, as far as signals and the additional logging back-ends
    of Windows go. *)
From S2P Require Import Prelude Core Codecs ConfigParser Config AdminApi Registrar Prospector Main.

(** ** The goroutine profile *)
Section Profile.
(** What the runtime writes at a level of detail, or its error; JSON strings. *)
Context (goroutine_WriteTo : Z → text + text) (json_string : text → text).

Definition GoRoutineBytes : text + text :=
  match goroutine_WriteTo 2 with
  | inl err => inl err
  | inr buffer => inr buffer
  end.

Definition debug_HumanReadable (indent : text) : text + text := GoRoutineBytes.

(** An error takes the place of the profile. *)
Definition debug_MarshalJSON : text :=
  let stack := match GoRoutineBytes with inl err => err | inr stack => stack end in
  bytes_of "{" ++ quoted "Stack" ++ bytes_of ":" ++ json_string stack ++ bytes_of "}".
End Profile.

(** ** Snapshots of the prospector *)
Record prospectorInfoSnapshot := mkInfoSnapshot { snap_file : text; snap_status : info_status; snap_running : bool }.

Definition newProspectorInfoSnapshot {FI} (info : prospectorInfo FI) : prospectorInfoSnapshot :=
  mkInfoSnapshot (pi_file info) (status info) (running info).

Definition prospectorSnapshot : Type := list prospectorInfoSnapshot.

Definition newProspectorSnapshot (files : list prospectorInfoSnapshot) : prospectorSnapshot := files.

Definition snapshot_Description (h : prospectorSnapshot) : text := bytes_of "Prospector".
Definition snapshot_NumEntries (h : prospectorSnapshot) : Z := zlen h.

(** [h.files[n]] panics out of range. *)
Definition snapshot_Entry (n : Z) (h : prospectorSnapshot) : outcome (text * text) :=
  match (if decide (0 ≤ n)%Z then h !! Z.to_nat n else None) with
  | None => Panic
  | Some entry =>
      Ret (snap_file entry,
           if decide (snap_status entry = statusFailed) then bytes_of "Failed"
           else if snap_running entry then bytes_of "Running" else bytes_of "Dead")
  end.

Lemma snapshot_entries (h : prospectorSnapshot) n :
  (∃ x, snapshot_Entry n h = Ret x) ↔ (0 ≤ n < snapshot_NumEntries h)%Z.
Proof.
  unfold snapshot_Entry, snapshot_NumEntries, zlen. case_decide as Hn; [|split; [by intros [? ?]|lia]].
  destruct (h !! Z.to_nat n) as [e|] eqn:E; split.
  - intros _. apply lookup_lt_Some in E. lia.
  - intros _. by eexists.
  - by intros [? ?].
  - apply lookup_ge_None in E. lia.
Qed.

(** ** Signals *)
Inductive os_signal := Interrupt | SIGTERM | SIGHUP.
Inductive signal_chan := shutdownChan | reloadChan.

(** [signal.Notify], as the signals each channel is sent. *)
Definition registerSignals : list (os_signal * signal_chan) :=
  [(Interrupt, shutdownChan); (SIGTERM, shutdownChan); (SIGHUP, reloadChan)].

Definition windows_registerSignals : list (os_signal * signal_chan) := [(Interrupt, shutdownChan)].

(** Windows adds no back-end and fails at nothing. *)
Definition windows_configureLoggingPlatform (bs : list backend) : outcome (text + list backend) := Ret (inr bs).

(** A signal is for one channel only; every signal of Windows means the same
    elsewhere, and without SIGHUP only the admin server can ask for a reload there. *)
Lemma signals_agree :
  (∀ s c c', (s, c) ∈ registerSignals → (s, c') ∈ registerSignals → c = c') ∧
  windows_registerSignals ⊆ registerSignals ∧
  ∀ s, (s, reloadChan) ∉ windows_registerSignals.
Proof.
  split; [|split].
  - intros s c c' Hc Hc'. unfold registerSignals in *. rewrite !elem_of_cons, elem_of_nil in Hc, Hc'.
    destruct_or!; simplify_eq; done.
  - unfold windows_registerSignals, registerSignals. set_solver.
  - intros s Hs. unfold windows_registerSignals in Hs. rewrite elem_of_cons, elem_of_nil in Hs. destruct_or!; simplify_eq.
Qed.
